(* ===== verification/_CoqProject ===== *)
-Q . S2P
Prelude.v
GoStrings.v
StateMachine.v
Backoff.v
Schema.v
Dependencies.v
Leasing.v
Completion.v
Promotions.v
Runner.v
Recovery.v
Control.v
Layout.v
Planning.v
Planner.v
Fleet.v
Backlog.v
Requests.v
Downloads.v
Runs.v
Retention.v
QueueSystem.v
Identity.v
Routes.v
Access.v
Findings.v
ReleaseDiff.v
Registry.v
Tree.v
TreeDiff.v
Contents.v
ManifestCache.v
Expander.v
Engine.v
Coordinator.v
Worker.v
