(* ===== verification/Prelude.v ===== *)
(** * Software Gateway: a verification library

    The program copies software packages (trees of OCI artifacts) from vendors'
    registries to the registries of an estate.  A Coordinator discovers packages,
    plans a transfer into jobs, and hands the jobs to workers over HTTP; its state
    is one SQL database, so every handler is a transaction on tables.  This
    library models the parts that decide what is copied, by whom, when, and who
    may ask.

    ** The parts and where they are modelled

    - internal/platform/statemachine is StateMachine.v: the generic guard [Machine],
      [New], [Apply], and the four tables (job, transfer, package, verification).
    - internal/platform/backoff and the attempt budgets of internal/transfer/engine.go
      are Backoff.v: full jitter with Go's 64-bit wrap-around.
    - db/migrations is Schema.v: a row type per table the queue touches, [DB] the
      record of tables, and the statements they share.
    - internal/store/dependencies.go is Dependencies.v: edges, readiness, the
      failure cascade and its undoing.
    - internal/store/queue.go is Leasing.v (LeaseJobs in both dialects,
      HydrateEndpoints, RenewLeases, ReportProgress) and Completion.v (CompleteJob,
      applyJobOutcome, settleTransfer, the wave walk, with repair.go and
      RecordPlacement); its ReapExpiredLeases and FailTransfer are in Recovery.v
      with recovery.go and unstick.go; control.go is Control.v.
    - internal/store/promotions.go is Promotions.v and internal/promotion/runner.go
      is Runner.v, over an interface [Estate] that stands for the registries.
    - internal/transfer/layout.go is Layout.v; the statements of a plan, of
      internal/store/packages.go, are Planning.v; internal/transfer/planner.go is
      Planner.v.
    - internal/transfer/request.go, with the catalog of cmd/coordinator/expand.go it
      resolves names against and the rows it writes, is Requests.v.
    - internal/product's downloads, mirrors and their validation, the rules of
      internal/discovery/rules.go and internal/download/chain.go are Downloads.v: a
      download as an ordered chain of targets.  internal/download's run.go and
      service.go, with what the scanner does when a rule fires, are Runs.v: the
      chain opened as a request with a transfer for each step.
    - internal/transfer/expander.go, delegate.go and promotion.go are Expander.v: a
      tick that gives each transfer of the backlog its way; Backlog.v has the
      listing it works from and the delegated half of replication.go.
    - internal/store/retention.go, and a turn of internal/maintenance/retention.go,
      are Retention.v: the history a sweep deletes.
    - internal/store/workers.go and activetime.go, and the release of a chain's
      steps in replication.go, are Fleet.v.
    - QueueSystem.v composes the store: a relation whose steps are the operations
      above, in any order and each committed or rolled back.
    - internal/queue (the service around the store and the leader's passes) and the
      worker plane's routes, internal/api/jobs.go, are Coordinator.v: what a lease
      call hydrates and answers, what a report and a heartbeat do, what a turn of
      the background loop runs.
    - internal/transfer/engine.go is Engine.v: a job is a program over the calls of
      two registries, whose answers are whatever they are; the same file has what
      internal/registry/generic/write.go makes of the upload library's answers.
    - internal/worker is Worker.v: the loop and the events that reach it, the
      watchdog, the pulse, and a job's way from a lease answer through the engine
      to its report.
    - pkg/authz and the identity half of internal/api/middleware are Identity.v;
      resource.go, the requirement of a request and the permission catalogue are
      Routes.v; the policy engine, the middlewares and the published permission
      set are Access.v.
    - internal/security: severity.go, finding.go and merge.go are Findings.v (a
      finding's identity, several scanners' findings and reports made one, a
      release's posture); compare.go is ReleaseDiff.v.
    - internal/registry (digests, descriptors, the classes of failure) and the
      reading half of its generic client are Registry.v, which promises Tree.v an
      interface [Verified]: content is what its digest says.  internal/oci (kinds,
      one manifest into a tree, the walks) is Tree.v, and internal/compare (two
      places' inventories, rows, files, report and progress) is TreeDiff.v.
    - The artifact rows of internal/store/packages.go, internal/expand and what
      discovery writes of a tree are Contents.v: the tree a plan is made from,
      recorded and read back; internal/store/manifestcache.go, which evicts the
      bodies of those rows, is ManifestCache.v.
    - Prelude.v (this file) has results, record updates, the WHERE and ORDER BY of
      SQL statements with their lemmas; GoStrings.v has the functions of the Go
      packages strings, path and url that the code calls, on byte strings.

    A handler of the code is one definition, from the database and the clock to a
    [result] with the new database; its guards are the code's conditions and its
    SQL statements [update_where] and the like over [gmap]s.  A transaction that
    returns an error changes nothing because its result carries no database.
    Definitions keep the names of the functions they translate.

    ** What the theorems show

    - The dequeue: what a lease may hand out, that both dialects agree, that a
      heartbeat renews exactly what its sender holds.
    - Completion: each outcome's effect on its job, what it does to any other row,
      waves that open in order, verdicts that are true of the jobs, repairs that
      escalate and stop, and that a report on a job that is there is answered.
    - Recovery: expired and orphaned leases return, late reports change nothing,
      nothing dead is shown as running, retries are bounded.
    - Control: which verb is accepted when, what a pause, a stop and a delete do.
    - Planning: a committed plan has a job for everything the tree needs at every
      destination, in content-first order, under the names the layout gives; of
      two sites an artifact has in one repository, the tags of the first.
    - Composition: in every run of the operations each row stays well formed, keeps
      its work, and changes state only as the operation that ran may change it:
      along the job machine's table, but for five moves that are not in it.
    - Requests: what is resolved is what was asked for, the key of a request is its
      intent, one transfer per destination, and a repetition creates nothing.
    - Downloads: a chain is closed over what its targets pull from and ordered so it
      can be run, or refused, exactly for a cause; naming its end names it; what validation
      accepts resolves; a run opens its whole chain, each step waiting for the one
      before; a download by hand is one piece of work.
    - The expander: the backlog is taken in turn and drains; a tick leaves each of
      its transfers with work, handed over or failed, touches no other, gives jobs
      only where copies are wanted, runs only the queue's operations, and expands
      a request with its last transfer.
    - Contents: a recorded tree reads back as it was, a release is walked once; the
      manifest cache fits its budget, drops the least recently used bodies and no
      more, keeps its books, and forgets nothing but bytes.
    - Retention: a sweep takes only what is over and old, as an operator deleting
      each transfer would, reports what it took, leaves every reference resolving
      and the newest compliance runs of each release, and catches up.  Placements
      stay with their repository: no foreign key ties them to a job or a transfer.
    - Promotions: one coordinator at a time, exact progress, success on evidence.
    - The worker plane: whatever calls and background turns a replica serves, the
      database goes only where the queue's operations take it; jobs go out fully
      described or are handed back; the wire loses nothing that is recorded.
    - The engine: a blob's result rests on what the registries said, in the order
      of the ladder; no tag is written before its manifest is there; answered
      uploads are always classified.
    - The worker: within its slots, stops exactly what it lost, abandons only what
      stands still, and what is recorded as done is done.  The seconds a transfer
      is credited with never exceed the wall clock.
    - Access: nothing but public paths without an identity, one decision by the
      policy engine that fails closed, product roles that stay on their products,
      workers fenced in, and an interface told exactly what the gate enforces.
    - Security: merging scanners loses and invents nothing and its counts do not
      depend on their order; the numbers of a posture agree; a comparison of two
      releases is the sum of the rows it shows, each problem has one fate, and
      nothing is resolved that is still there.
    - Registries: a client serves what it was asked for and refuses with its cause's
      class; a walk ends, and its tree is exact; a comparison of two places counts
      every component once, compares like with like, and finds no difference
      exactly when there is none; progress never goes backwards.

    ** Bounds and fuel

    The cascade walks at most 32 levels, as maxCascadeDepth of the code does: its
    exactness theorem assumes waves no deeper.  The other fuelled functions take
    their input's size and are proved to need no more: [add_batches] and [chunked]
    the length of their list (a round consumes at least one element), [trim_with]
    the length of the string.  A sweep of the manifest cache
    makes at most [maxSweepPasses] passes, as the code does, and [chunks] its list's
    length.  Durations are int64 and wrap where the code
    multiplies them; waves, ranks, attempts and byte counts are integers far below
    their width and are plain [Z].  A walk of a manifest tree has [walk_fuel]
    levels, one more than its depth bound lets it look at, and is proved to return.
    A walk along mirrors has one turn more than there are declared targets (a count
    of hops, than there are targets in the chain): a turn consumes a target not met
    before, and no walk is proved to run out.

    ** What is an argument

    The clock, random draws, fresh row identities ([RowIds]), the expanded tree of
    a package, the order in which Go ranges over a map where the result depends on
    it, the registries behind a promotion ([Estate]) and the policy decision point
    ([DecisionPoint]).  The engine's registries are an environment that answers
    each call from all that came before it; the digest library is three functions;
    the upload library's errors arrive as what errors.As and errors.Is find in them.
    Request bodies arrive decoded, or as the decoder's refusal.  The expander of the
    background loop, of which Coordinator.v asks that it runs the queue's operations
    as Expander.v shows of it, and the worker's client cache are functions; so are the loaded
    product configuration, compiled regular expressions, the package a reference
    names, the digest of an idempotency key, new UUIDs, and the sequence of artifact
    rows ([ArtifactIds]).  Rows that an ORDER BY leaves tied are in the map's order,
    except where a theorem quantifies over the order.  Postgres skips rows locked
    by another Coordinator: the locked rows are an argument of the dequeue.

    ** Not modelled

    Authentication and transport of the registry clients (internal/registry/
    transport, internal/regclient), the buffers a blob streams through (Engine.v
    keeps the reads, the sizes handed on and the answer), the scans of discovery, the
    fetching and caching of security reports, compliance, the product documents'
    loader, secrets and the validation downloads do not read, audit rows, the command
    line, the handlers of internal/api behind the gate other than the worker
    plane's and their wire types, and platform services (logging, metrics, leader election).  Signature
    checks of tokens belong to the OIDC library.  strings.EqualFold and case
    mapping are modelled on ASCII; messages quoted with %q keep the bytes
    without Go's escapes. *)

From stdpp Require Export prelude gmap strings sorting pretty.
From Stdlib Require Export ZArith Lia.

(* -------------------------------------------------------------------- *)
(** ** Results: Go's (value, error) pairs *)

(** The errors the modelled functions build themselves.  The constructors
    carry what the Go messages interpolate. *)
Inductive Error :=
  | EWorkerRequired
  | EJobNotFound (job : Z)
  | ETransferNotFound (transfer : string)
  | EIllegalTransition (verb transfer state : string)
  | EInvalidPriority (priority : Z)
  | ENothingToRetry (transfer state : string)
  | EUnknownRepository (job repository : Z)
  | EMissingRow (table key : string)
  | ECheckViolation (column value : string)
  | EScanNull (column : string)
  | ENoNames (transfer : string)
  | EUniqueViolation (table key : string)
  | ENotAnOutcome (promotion : Z) (state : string).

#[export] Instance Error_eq_dec : EqDecision Error.
Proof. solve_decision. Defined.

Inductive result (A : Type) :=
  | Ok (a : A)
  | Err (e : Error).
Arguments Ok {A} a.
Arguments Err {A} e.

#[export] Instance result_ret : MRet result := λ A a, Ok a.

#[export] Instance result_bind : MBind result := λ A B k r,
  match r with
  | Ok a => k a
  | Err e => Err e
  end.

Declare Scope gateway_scope.
Delimit Scope gateway_scope with gateway.
Open Scope gateway_scope.

Definition of_option {A} (e : Error) (o : option A) : result A :=
  match o with
  | Some a => Ok a
  | None => Err e
  end.

#[export] Instance result_fmap : FMap result := λ A B f r,
  match r with
  | Ok a => Ok (f a)
  | Err e => Err e
  end.

Lemma result_bind_Ok {A B} (k : A → result B) r b :
  r ≫= k = Ok b ↔ ∃ a, r = Ok a ∧ k a = Ok b.
Proof. destruct r; simpl; naive_solver. Qed.

Definition is_ok {A} (r : result A) : bool :=
  match r with Ok _ => true | Err _ => false end.

Lemma is_ok_true {A} (r : result A) : is_ok r = true → ∃ a, r = Ok a.
Proof. destruct r; [eauto|done]. Qed.

Definition ok_or {A} (d : A) (r : result A) : A :=
  match r with Ok a => a | Err _ => d end.

Lemma ok_or_eq {A} (d : A) r : is_ok r = true → r = Ok (ok_or d r).
Proof. by destruct r. Qed.

Lemma Ok_inj {A} (a b : A) : Ok a = Ok b → a = b.
Proof. by intros [= ->]. Qed.

Lemma result_fmap_Ok {A B} (f : A → B) (r : result A) b :
  f <$> r = Ok b → ∃ a, r = Ok a ∧ b = f a.
Proof. destruct r; simpl; [intros [= <-]; eauto|done]. Qed.

Lemma Ok_pair_inj {A B} (a a' : A) (b b' : B) :
  Ok (a, b) = Ok (a', b') → a = a' ∧ b = b'.
Proof. by intros [=]. Qed.

Lemma of_option_Ok {A} e (o : option A) a :
  of_option e o = Ok a ↔ o = Some a.
Proof. destruct o; simpl; naive_solver. Qed.

(** A loop whose body can fail. *)
Fixpoint fold_result {S A} (f : S → A → result S) (l : list A) (s : S) : result S :=
  match l with
  | [] => Ok s
  | x :: l => s ← f s x; fold_result f l s
  end.

(** What the body preserves, knowing the elements already seen, the loop
    establishes for the whole list. *)
Lemma fold_result_ind {S A} (I : list A → S → Prop) (f : S → A → result S) l s s' :
  I [] s →
  (∀ pre x post s1 s2, l = pre ++ x :: post → I pre s1 → f s1 x = Ok s2 → I (pre ++ [x]) s2) →
  fold_result f l s = Ok s' → I l s'.
Proof.
  intros H0 Hstep. assert (∀ post pre s1, l = pre ++ post → I pre s1 →
    fold_result f post s1 = Ok s' → I l s') as Hgen.
  { induction post as [|x post IH]; intros pre s1 Hl Hpre; simpl.
    - intros [= ->]. by rewrite Hl, app_nil_r.
    - intros (s2 & Hf & Hrest)%result_bind_Ok.
      apply (IH (pre ++ [x]) s2); [by rewrite <-app_assoc| |done].
      by eapply Hstep. }
  by apply (Hgen l [] s).
Qed.

(** A loop that only adds: each element's work is done by its own step and
    kept by the later ones. *)
Lemma foldl_reaches {S A} (f : S → A → S) (W : S → Prop) (grows : relation S) `{!PreOrder grows}
    (has : A → S → Prop) l s :
  (∀ x s, x ∈ l → W s → W (f s x) ∧ grows s (f s x) ∧ has x (f s x)) →
  (∀ x s s', grows s s' → has x s → has x s') →
  W s → W (foldl f s l) ∧ grows s (foldl f s l) ∧ ∀ x, x ∈ l → has x (foldl f s l).
Proof.
  intros Hstep Hmono. revert s. induction l as [|x l IH]; intros s HW; simpl.
  { split; [done|]. split; [done|]. by intros x []%elem_of_nil. }
  destruct (Hstep x s) as (HW' & Hg & Hx); [left|done|].
  destruct (IH (λ y s Hy, Hstep y s (list_elem_of_further _ _ _ Hy)) _ HW') as (HW2 & Hg2 & Hall).
  split; [done|]. split; [by etrans|]. intros y [-> |Hy]%elem_of_cons; [by eapply Hmono|by apply Hall].
Qed.

(* -------------------------------------------------------------------- *)
(** ** Field update, the shape of a SQL SET clause

    [r <| f := v |>] is the record [r] with the field [f] replaced.  The
    updater of a field is found from the record's eta-expansion, so a row
    type declares one [Eta] instance and every column can be set. *)

Class Eta (R : Type) := eta : R → R.

Class Updater {R F : Type} (π : R → F) := update_field : (F → F) → R → R.
Arguments update_field {R F} π {_} g r /.

Ltac derive_updater :=
  match goal with
  | |- @Updater ?R ?F ?π =>
      let g := fresh "g" in
      let r := fresh "r" in
      refine (λ (g : F → F) (r : R), _);
      let inst := constr:(_ : Eta R) in
      let e := eval hnf in inst in
      let body := eval cbv beta in (e r) in
      let abs := eval pattern (π r) in body in
      match abs with
      | ?k _ => let out := eval cbv beta in (k (g (π r))) in exact out
      end
  end.

#[export] Hint Extern 1 (Updater _) => derive_updater : typeclass_instances.

Notation "r <| f := v |>" := (update_field f (λ _, v) r)
  (at level 1, f at level 1, v at level 200, left associativity,
   format "r  <|  f  :=  v  |>") : gateway_scope.
Notation "r <| f ::= g |>" := (update_field f g r)
  (at level 1, f at level 1, g at level 200, left associativity,
   format "r  <|  f  ::=  g  |>") : gateway_scope.

(* -------------------------------------------------------------------- *)
(** ** First occurrences *)

(** The elements with a key not seen before, in order. *)
Fixpoint firsts {A} (key : A → string) (seen : gset string) (l : list A) : list A :=
  match l with
  | [] => []
  | x :: l =>
      if bool_decide (key x ∈ seen) then firsts key seen l
      else x :: firsts key ({[ key x ]} ∪ seen) l
  end.

Section firsts.
Context {A : Type} (key : A → string).

Lemma elem_of_firsts seen l k :
  k ∈ key <$> firsts key seen l ↔ k ∈ key <$> l ∧ k ∉ seen.
Proof.
  revert seen. induction l as [|x l IH]; intros seen; simpl; [set_solver|].
  case_bool_decide as Hx; rewrite ?fmap_cons, !elem_of_cons, IH; [set_solver|].
  destruct (decide (k = key x)); set_solver.
Qed.

Lemma firsts_subset seen l x : x ∈ firsts key seen l → x ∈ l.
Proof.
  revert seen. induction l as [|y l IH]; intros seen; simpl; [done|].
  case_bool_decide; rewrite ?elem_of_cons; naive_solver.
Qed.

Lemma NoDup_firsts seen l : NoDup (key <$> firsts key seen l).
Proof.
  revert seen. induction l as [|x l IH]; intros seen; simpl; [constructor|].
  case_bool_decide; [done|]. rewrite fmap_cons. constructor; [|done].
  rewrite elem_of_firsts. set_solver.
Qed.

Lemma firsts_snoc seen l x :
  firsts key seen (l ++ [x]) =
    firsts key seen l ++ (if bool_decide (key x ∈ seen ∨ key x ∈ key <$> l) then [] else [x]).
Proof.
  revert seen. induction l as [|y l IH]; intros seen; simpl.
  - rewrite (bool_decide_ext (key x ∈ seen ∨ _) (key x ∈ seen)) by set_solver.
    by case_bool_decide.
  - assert (∀ P Q : Prop, ∀ `{Decision P, Decision Q}, (P ↔ Q) →
      (if bool_decide P then [] else [x]) = (if bool_decide Q then [] else [x])) as Hif.
    { intros P Q ?? HPQ. by rewrite (bool_decide_ext P Q). }
    case_bool_decide as Hy; rewrite IH; simpl; [|f_equal]; f_equal; apply Hif.
    + rewrite elem_of_cons. split; [naive_solver|].
      intros [?|[E|?]]; [by left|rewrite E; by left|by right].
    + rewrite elem_of_cons, elem_of_union, elem_of_singleton. tauto.
Qed.
End firsts.

(* -------------------------------------------------------------------- *)
(** ** Tables

    A table is a finite map from its primary key to its rows.  A WHERE
    clause is a boolean function of a key and a row, evaluated for every
    row on the table as it is when the statement starts. *)

Lemma NoDup_fst_filter {A B} (P : A * B → Prop) `{∀ x, Decision (P x)} l :
  NoDup l.*1 → NoDup (filter P l).*1.
Proof.
  induction l as [|[a b] l IH]; [done|]. rewrite fmap_cons. intros [Ha Hl]%NoDup_cons.
  rewrite filter_cons. case_decide; [|by auto]. rewrite fmap_cons.
  constructor; [|by auto]. contradict Ha.
  apply list_elem_of_fmap in Ha as (x & -> & [_ Hx]%list_elem_of_filter).
  by apply list_elem_of_fmap_2.
Qed.

Lemma filter_all {A} (P : A → Prop) `{∀ x, Decision (P x)} (l : list A) :
  (∀ x, x ∈ l → P x) → filter P l = l.
Proof.
  induction l as [|x l IH]; intros Hl; [done|]. rewrite filter_cons_True by (apply Hl; left).
  f_equal. apply IH. intros y Hy. apply Hl. by right.
Qed.

Lemma filter_none {A} (P : A → Prop) `{∀ x, Decision (P x)} (l : list A) :
  (∀ x, x ∈ l → ¬ P x) → filter P l = [].
Proof.
  induction l as [|x l IH]; intros Hl; [done|]. rewrite filter_cons_False by (apply Hl; left).
  apply IH. intros y Hy. apply Hl. by right.
Qed.

Lemma list_filter_iff_in {A} (P Q : A → Prop) `{!∀ x, Decision (P x), !∀ x, Decision (Q x)} (l : list A) :
  (∀ x, x ∈ l → P x ↔ Q x) → filter P l = filter Q l.
Proof.
  induction l as [|x l IH]; intros Hpq; [done|]. rewrite !filter_cons, IH by (intros; apply Hpq; by right).
  pose proof (Hpq x ltac:(left)). by do 2 case_decide; tauto || done.
Qed.

Section table.
Context {K V : Type} `{Countable K}.
Implicit Types (p : K → V → bool) (f : K → V → V) (m : gmap K V).

(** SELECT ... WHERE p *)
Definition select_where p m : list (K * V) :=
  filter (λ kv, p kv.1 kv.2 = true) (map_to_list m).

(** SELECT count( * ) ... WHERE p, and the RowsAffected of an UPDATE *)
Definition count_where p m : nat := length (select_where p m).

(** EXISTS (SELECT 1 ... WHERE p) *)
Definition exists_where p m : bool :=
  existsb (λ kv, p kv.1 kv.2) (map_to_list m).

(** UPDATE ... SET f WHERE p *)
Definition update_where p f m : gmap K V :=
  map_imap (λ k v, Some (if p k v then f k v else v)) m.

(** DELETE ... WHERE p *)
Definition delete_where p m : gmap K V :=
  filter (λ kv, p kv.1 kv.2 = false) m.

Lemma elem_of_select_where p m k v :
  (k, v) ∈ select_where p m ↔ m !! k = Some v ∧ p k v = true.
Proof.
  unfold select_where. rewrite list_elem_of_filter, elem_of_map_to_list.
  simpl. tauto.
Qed.

Lemma NoDup_select_where p m : NoDup (select_where p m).*1.
Proof.
  unfold select_where. apply NoDup_fst_filter, NoDup_fst_map_to_list.
Qed.

Lemma exists_where_true p m :
  exists_where p m = true ↔ ∃ k v, m !! k = Some v ∧ p k v = true.
Proof.
  unfold exists_where. rewrite existsb_exists. split.
  - intros ([k v] & Hin%list_elem_of_In & Hp).
    apply elem_of_map_to_list in Hin. eauto.
  - intros (k & v & Hkv & Hp). exists (k, v). split; [|done].
    apply list_elem_of_In. by apply elem_of_map_to_list.
Qed.

Lemma exists_where_false p m :
  exists_where p m = false ↔ ∀ k v, m !! k = Some v → p k v = false.
Proof.
  split.
  - intros He k v Hkv. apply not_true_is_false. intros Hp.
    apply not_true_iff_false in He. apply He, exists_where_true. eauto.
  - intros Hall. apply not_true_is_false. intros (k & v & Hkv & Hp)%exists_where_true.
    by rewrite Hall in Hp.
Qed.

Lemma lookup_update_where p f m k :
  update_where p f m !! k = (λ v, if p k v then f k v else v) <$> m !! k.
Proof. unfold update_where. rewrite map_lookup_imap. by destruct (m !! k). Qed.

Lemma lookup_update_where_Some p f m k w :
  update_where p f m !! k = Some w ↔
  ∃ v, m !! k = Some v ∧ w = if p k v then f k v else v.
Proof. rewrite lookup_update_where, fmap_Some. naive_solver. Qed.

Lemma update_where_is_Some p f m k :
  is_Some (update_where p f m !! k) ↔ is_Some (m !! k).
Proof. rewrite lookup_update_where. apply fmap_is_Some. Qed.

Lemma dom_update_where p f m : dom (update_where p f m) = dom m.
Proof.
  apply set_eq. intros k. rewrite !elem_of_dom. apply update_where_is_Some.
Qed.

Lemma update_where_none p f m :
  (∀ k v, m !! k = Some v → p k v = false) → update_where p f m = m.
Proof.
  intros Hp. apply map_eq. intros k. rewrite lookup_update_where.
  destruct (m !! k) as [v|] eqn:E; simpl; [|done]. by rewrite Hp.
Qed.

Lemma lookup_delete_where_Some p m k v :
  delete_where p m !! k = Some v ↔ m !! k = Some v ∧ p k v = false.
Proof. unfold delete_where. by rewrite map_lookup_filter_Some. Qed.

Lemma lookup_delete_where_None p m k :
  delete_where p m !! k = None ↔ ∀ v, m !! k = Some v → p k v = true.
Proof.
  unfold delete_where. rewrite map_lookup_filter_None. split.
  - intros [Hn|Hp] v Hv; [congruence|].
    specialize (Hp v Hv). simpl in Hp. by destruct (p k v).
  - intros Hp. right. intros v Hv. simpl. by rewrite Hp.
Qed.

Lemma count_where_ext p q m :
  (∀ k v, p k v = q k v) → count_where p m = count_where q m.
Proof.
  intros Hpq. unfold count_where, select_where. f_equal. apply list_filter_iff.
  intros [k v]. simpl. by rewrite Hpq.
Qed.

Lemma count_where_zero p m :
  count_where p m = 0 ↔ ∀ k v, m !! k = Some v → p k v = false.
Proof.
  unfold count_where. rewrite length_zero_iff_nil. split.
  - intros Hnil k v Hkv. apply not_true_is_false. intros Hp.
    assert ((k, v) ∈ select_where p m) as Hin by by apply elem_of_select_where.
    rewrite Hnil in Hin. by apply not_elem_of_nil in Hin.
  - intros Hall. destruct (select_where p m) as [|[k v] l] eqn:E; [done|].
    assert ((k, v) ∈ select_where p m) as Hin by (rewrite E; left).
    apply elem_of_select_where in Hin as [Hkv Hp]. by rewrite Hall in Hp.
Qed.

Lemma select_where_nil p m :
  (∀ k v, m !! k = Some v → p k v = false) → select_where p m = [].
Proof. intros Hp. by apply length_zero_iff_nil, count_where_zero. Qed.

Lemma count_where_pos p m :
  0 < count_where p m ↔ ∃ k v, m !! k = Some v ∧ p k v = true.
Proof.
  split.
  - intros Hc. apply exists_where_true. apply not_false_is_true.
    rewrite exists_where_false, <-count_where_zero. lia.
  - intros (k & v & Hkv & Hp).
    destruct (decide (count_where p m = 0)) as [Hz|]; [|lia].
    rewrite count_where_zero in Hz. by rewrite (Hz k v) in Hp.
Qed.

Lemma update_where_count_zero p f m :
  count_where p m = 0 → update_where p f m = m.
Proof. rewrite count_where_zero. apply update_where_none. Qed.

Lemma count_where_empty p : count_where p ∅ = 0.
Proof. unfold count_where, select_where. by rewrite map_to_list_empty. Qed.

Lemma count_where_insert p m k v :
  m !! k = None → count_where p (<[k:=v]> m) = (if p k v then 1 else 0) + count_where p m.
Proof.
  intros Hk. unfold count_where, select_where.
  rewrite (map_to_list_insert m k v Hk), filter_cons. simpl.
  destruct (p k v); [by rewrite decide_True by done|by rewrite decide_False by done].
Qed.

(** An UPDATE that reaches one row changes a count by that row. *)
Lemma count_where_update_one q m k v w :
  m !! k = Some v →
  count_where q (<[k:=w]> m) + (if q k v then 1 else 0) =
    count_where q m + (if q k w then 1 else 0).
Proof.
  intros Hk. rewrite <-(insert_delete_id m k v Hk) at 2. rewrite <-insert_delete_eq.
  rewrite !count_where_insert by apply lookup_delete_eq. lia.
Qed.

Lemma update_where_key p f m k v :
  (∀ k' v', p k' v' = true → k' = k) → m !! k = Some v → p k v = true →
  update_where p f m = <[k:=f k v]> m.
Proof.
  intros Hp Hk Hv. apply map_eq. intros i. rewrite lookup_update_where.
  destruct (decide (i = k)) as [->|Hi].
  - by rewrite lookup_insert_eq, Hk; simpl; rewrite Hv.
  - rewrite lookup_insert_ne by done. destruct (m !! i) as [w|]; simpl; [|done].
    destruct (p i w) eqn:E; [|done]. by apply Hp in E.
Qed.

(** The rows a weaker clause selects include those of a stronger one. *)
Lemma count_where_mono p q m :
  (∀ k v, m !! k = Some v → p k v = true → q k v = true) →
  count_where p m ≤ count_where q m.
Proof.
  intros Hpq. unfold count_where.
  apply submseteq_length, NoDup_submseteq.
  - eapply NoDup_fmap_1, NoDup_select_where.
  - intros [k v]. rewrite !elem_of_select_where. naive_solver.
Qed.
End table.

Lemma count_where_update_le {K V} `{Countable K} (q p : K → V → bool) f (m : gmap K V) :
  (∀ k v, m !! k = Some v → q k (if p k v then f k v else v) = true → q k v = true) →
  count_where q (update_where p f m) ≤ count_where q m.
Proof.
  intros Hq. unfold count_where.
  rewrite <-(length_fmap fst (select_where q (update_where p f m))).
  rewrite <-(length_fmap fst (select_where q m)).
  apply submseteq_length, NoDup_submseteq; [apply NoDup_select_where|].
  intros k. rewrite !list_elem_of_fmap. intros ([k' w] & -> & Hin). simpl.
  apply elem_of_select_where in Hin as [(v & Hv & ->)%lookup_update_where_Some Hw].
  exists (k', v). split; [done|]. apply elem_of_select_where. eauto.
Qed.

Lemma count_where_update_lt {K V} `{Countable K} (q p : K → V → bool) f (m : gmap K V) :
  (∀ k v, m !! k = Some v → p k v = true → q k v = true ∧ q k (f k v) = false) →
  0 < count_where p m →
  count_where q (update_where p f m) < count_where q m.
Proof.
  intros Hq (k & v & Hkv & Hp)%count_where_pos. unfold count_where.
  rewrite <-(length_fmap fst (select_where q (update_where p f m))).
  rewrite <-(length_fmap fst (select_where q m)).
  assert (k :: (select_where q (update_where p f m)).*1 ⊆+ (select_where q m).*1) as Hsub.
  { apply NoDup_submseteq.
    - constructor; [|apply NoDup_select_where].
      rewrite list_elem_of_fmap. intros ([k' w] & ? & Hin); simplify_eq/=.
      apply elem_of_select_where in Hin as [(v' & Hv' & ->)%lookup_update_where_Some Hw].
      simplify_eq. rewrite Hp in Hw. destruct (Hq _ _ Hkv Hp). congruence.
    - intros k'. rewrite elem_of_cons, !list_elem_of_fmap.
      intros [->|([k'' w] & -> & Hin)].
      + exists (k, v). split; [done|]. apply elem_of_select_where.
        naive_solver.
      + apply elem_of_select_where in Hin as [(v' & Hv' & ->)%lookup_update_where_Some Hw].
        exists (k'', v'). split; [done|]. apply elem_of_select_where. split; [done|].
        destruct (p k'' v') eqn:Hp'; [|done]. by destruct (Hq _ _ Hv' Hp'). }
  apply submseteq_length in Hsub. simpl in Hsub. lia.
Qed.

(* -------------------------------------------------------------------- *)
(** ** Orderings

    An ORDER BY is the lexicographic order of the list of its keys, a
    descending key negated.  Every ORDER BY of the program ends in the row's
    id, so it is a total order of the rows. *)

Lemma StronglySorted_lookup {A} (R : relation A) l :
  StronglySorted R l ↔ ∀ i j x y, i < j → l !! i = Some x → l !! j = Some y → R x y.
Proof.
  split.
  - induction 1 as [|z l Hs IH Hz]; intros i j x y Hij; [by rewrite lookup_nil|]. rewrite Forall_forall in Hz.
    destruct j as [|j]; [lia|]. destruct i as [|i]; simpl.
    + intros [= ->] Hy. by apply Hz, (list_elem_of_lookup_2 _ j).
    + intros Hx Hy. apply (IH i j); [lia|done..].
  - induction l as [|z l IH]; intros Hall; constructor.
    + apply IH. intros i j x y Hij Hx Hy. apply (Hall (S i) (S j)); [lia|done..].
    + apply Forall_forall. intros y [j Hj]%list_elem_of_lookup_1. apply (Hall 0%nat (S j)); [lia|done..].
Qed.

Fixpoint lex_le (a b : list Z) : bool :=
  match a, b with
  | [], _ => true
  | _ :: _, [] => false
  | x :: a, y :: b => if (x =? y)%Z then lex_le a b else (x <? y)%Z
  end.

Lemma lex_le_refl a : lex_le a a = true.
Proof. induction a as [|x a IH]; simpl; [done|]. by rewrite Z.eqb_refl. Qed.

Lemma lex_le_trans a b c :
  lex_le a b = true → lex_le b c = true → lex_le a c = true.
Proof.
  revert b c. induction a as [|x a IH]; intros [|y b] [|z c]; simpl; try done.
  destruct (Z.eqb_spec x y), (Z.eqb_spec y z), (Z.eqb_spec x z); subst;
    rewrite ?Z.ltb_lt; try lia; eauto.
Qed.

Lemma lex_le_total a b : lex_le a b = true ∨ lex_le b a = true.
Proof.
  revert b. induction a as [|x a IH]; intros [|y b]; simpl; auto.
  destruct (Z.eqb_spec x y), (Z.eqb_spec y x); subst; rewrite ?Z.ltb_lt; try lia; eauto.
Qed.

Lemma lex_le_antisymm a b :
  lex_le a b = true → lex_le b a = true → a = b.
Proof.
  revert b. induction a as [|x a IH]; intros [|y b]; simpl; try done.
  destruct (Z.eqb_spec x y), (Z.eqb_spec y x); subst; rewrite ?Z.ltb_lt; try lia.
  intros. f_equal. by apply IH.
Qed.

Section order_by.
Context {A : Type} (key : A → list Z).

(** ORDER BY key *)
Definition key_le (x y : A) : Prop := lex_le (key x) (key y) = true.

#[export] Instance key_le_dec : RelDecision key_le.
Proof. intros x y. unfold key_le. apply _. Defined.

#[export] Instance key_le_trans : Transitive key_le.
Proof. intros x y z. apply lex_le_trans. Qed.

#[export] Instance key_le_total : Total key_le.
Proof. intros x y. apply lex_le_total. Qed.

Definition order_by (l : list A) : list A := merge_sort key_le l.

Lemma order_by_Permutation l : order_by l ≡ₚ l.
Proof. apply merge_sort_Permutation. Qed.

Lemma elem_of_order_by x l : x ∈ order_by l ↔ x ∈ l.
Proof. by rewrite order_by_Permutation. Qed.

Lemma order_by_sorted l : StronglySorted key_le (order_by l).
Proof. apply StronglySorted_merge_sort; apply _. Qed.

(** LIMIT n keeps the n least rows. *)
Lemma take_order_by_least n l x y :
  x ∈ take n (order_by l) → y ∈ drop n (order_by l) → key_le x y.
Proof.
  pose proof (order_by_sorted l) as Hs. rewrite <-(take_drop n (order_by l)) in Hs.
  intros Hx Hy. exact (StronglySorted_app_1_elem_of _ _ _ _ _ Hs Hx Hy).
Qed.
End order_by.

(** Sorting by keys that tell the rows apart forgets the original order. *)
Lemma order_by_unique {A} (key : A → list Z) l k :
  (∀ x y, x ∈ l → y ∈ l → key x = key y → x = y) →
  l ≡ₚ k → order_by key l = order_by key k.
Proof.
  intros Hinj Hp.
  assert (order_by key l ≡ₚ order_by key k) as Hq by by rewrite !order_by_Permutation.
  assert (∀ x y, x ∈ order_by key l → y ∈ order_by key l → key x = key y → x = y) as Hinj'.
  { setoid_rewrite elem_of_order_by. done. }
  pose proof (order_by_sorted key l) as Hl. pose proof (order_by_sorted key k) as Hk.
  revert Hl Hk Hq Hinj'. generalize (order_by key l) as l1, (order_by key k) as k1.
  clear. induction l1 as [|x l1 IH]; intros k1 Hl Hk Hq Hinj.
  { by apply Permutation_nil_l in Hq. }
  destruct k1 as [|y k1]; [by apply Permutation_nil_r in Hq|].
  apply StronglySorted_inv in Hl as [Hl Hxl], Hk as [Hk Hyk].
  assert (x = y) as ->.
  { assert (y ∈ x :: l1) as Hy by (rewrite Hq; left).
    assert (x ∈ y :: k1) as Hx by (rewrite <-Hq; left).
    apply Hinj; [left|done|].
    apply elem_of_cons in Hy as [->|Hy]; [done|].
    apply elem_of_cons in Hx as [->|Hx]; [done|].
    rewrite Forall_forall in Hxl, Hyk. apply lex_le_antisymm; [by apply Hxl|by apply Hyk]. }
  f_equal. apply IH; [done|done|by eapply Permutation_cons_inv|].
  intros ????. apply Hinj; by right.
Qed.

(** Go's sort.SliceStable with a [less] function. *)
Definition not_less {A} (less : A → A → bool) (x y : A) : Prop := less y x = false.

#[export] Instance not_less_dec {A} (less : A → A → bool) : RelDecision (not_less less).
Proof. intros x y. unfold not_less. apply _. Defined.

Definition slice_stable {A} (less : A → A → bool) (l : list A) : list A :=
  merge_sort (not_less less) l.

Section merge_sort_ext.
Context {A} (R1 R2 : relation A) `{∀ x y, Decision (R1 x y)} `{∀ x y, Decision (R2 x y)}.
Context (Hext : ∀ x y, R1 x y ↔ R2 x y).

Lemma list_merge_ext l k : list_merge R1 l k = list_merge R2 l k.
Proof using Hext.
  revert k. induction l as [|x l IHl]; intros k; [by destruct k|].
  induction k as [|y k IHk]; [done|]. rewrite !list_merge_cons.
  rewrite (decide_ext (R1 x y) (R2 x y)) by apply Hext. case_decide.
  - by rewrite IHl.
  - by rewrite IHk.
Qed.

Lemma merge_list_to_stack_ext st l :
  merge_list_to_stack R1 st l = merge_list_to_stack R2 st l.
Proof using Hext.
  revert l. induction st as [|[k|] st IH]; intros l; simpl; [done| |done].
  by rewrite list_merge_ext, IH.
Qed.

Lemma merge_stack_ext st : merge_stack R1 st = merge_stack R2 st.
Proof using Hext.
  induction st as [|[k|] st IH]; simpl; [done| |done]. by rewrite IH, list_merge_ext.
Qed.

Lemma merge_sort_ext l : merge_sort R1 l = merge_sort R2 l.
Proof using Hext.
  unfold merge_sort. generalize (@nil (option (list A))) as st.
  induction l as [|x l IH]; intros st; simpl; [apply merge_stack_ext|].
  by rewrite merge_list_to_stack_ext, IH.
Qed.
End merge_sort_ext.

(* -------------------------------------------------------------------- *)
(** ** Orders the code compares by

    A comparison function goes through its keys: if two rows differ in the first
    it decides, and otherwise the next does. *)

Class LinearLess {K} (eqb ltb : K → K → bool) : Prop := {
  ll_eqb x y : eqb x y = true ↔ x = y;
  ll_asym x y : ltb x y = true → ltb y x = false;
  ll_trans x y z : ltb x y = true → ltb y z = true → ltb x z = true;
  ll_total x y : x ≠ y → ltb x y = true ∨ ltb y x = true }.

Class WeakLess {A} (less : A → A → bool) : Prop := {
  wl_total x y : less x y = false ∨ less y x = false;
  wl_trans x y z : less y x = false → less z y = false → less z x = false }.

Section less.
Context {A K : Type} (key : A → K) (eqb ltb : K → K → bool) `{!LinearLess eqb ltb}.

Lemma ll_neqb x y : eqb x y = false ↔ x ≠ y.
Proof using All.
  rewrite <-(ll_eqb (eqb := eqb) (ltb := ltb) x y). destruct (eqb x y); split; congruence.
Qed.

Lemma ll_irrefl x : ltb x x = false.
Proof using All.
  destruct (ltb x x) eqn:E; [|done]. pose proof (ll_asym (eqb := eqb) x x E). congruence.
Qed.

Lemma ll_cases x y : (eqb x y = true ∧ x = y) ∨
  (eqb x y = false ∧ ltb x y = true ∧ ltb y x = false) ∨ (eqb x y = false ∧ ltb y x = true ∧ ltb x y = false).
Proof using All.
  destruct (eqb x y) eqn:E; [left; split; [done|by apply (ll_eqb (ltb := ltb))]|right].
  apply ll_neqb in E as Hne. destruct (ll_total (eqb := eqb) x y Hne) as [Hl|Hl]; [left|right];
    (split; [done|]); (split; [done|]); by apply (ll_asym (eqb := eqb)).
Qed.

#[export] Instance weak_key : WeakLess (λ a b, ltb (key a) (key b)).
Proof using All.
  split.
  - intros x y. destruct (ll_cases (key x) (key y)) as [[_ ->]|[(_ & _ & ?)|(_ & _ & ?)]]; [left; apply ll_irrefl|auto..].
  - intros x y z Hxy Hyz. destruct (ll_cases (key y) (key x)) as [[_ <-]|[(_ & ? & _)|(_ & Hx & _)]]; [done|congruence|].
    destruct (ll_cases (key z) (key y)) as [[_ ->]|[(_ & ? & _)|(_ & Hy & _)]]; [done|congruence|].
    apply (ll_asym (eqb := eqb)). by eapply (ll_trans (eqb := eqb)).
Qed.

(** The next key decides where this one does not. *)
#[export] Instance weak_lex (less : A → A → bool) : WeakLess less →
  WeakLess (λ a b, if negb (eqb (key a) (key b)) then ltb (key a) (key b) else less a b).
Proof using All.
  intros [Htot Htr]. split.
  - intros x y. destruct (ll_cases (key x) (key y)) as [[E1 E2]|[(E1 & ? & ?)|(E1 & ? & ?)]].
    + rewrite E1, (proj2 (ll_eqb (eqb := eqb) (ltb := ltb) (key y) (key x)) (eq_sym E2)). apply Htot.
    + right. apply ll_neqb, not_eq_sym, ll_neqb in E1 as ->. done.
    + left. by rewrite E1.
  - intros x y z.
    destruct (ll_cases (key y) (key x)) as [[E1 E2]|[(E1 & L1 & _)|(E1 & L1 & _)]]; rewrite E1; simpl.
    + intros Hxy. rewrite <-E2. destruct (eqb (key z) (key y)); simpl; [by apply Htr|done].
    + congruence.
    + intros _. destruct (ll_cases (key z) (key y)) as [[E3 E4]|[(E3 & L3 & _)|(E3 & L3 & _)]]; rewrite E3; simpl.
      * intros _. rewrite E4, E1. simpl. by apply (ll_asym (eqb := eqb)).
      * congruence.
      * intros _. assert (ltb (key x) (key z) = true) as L by by eapply (ll_trans (eqb := eqb)).
        assert (eqb (key z) (key x) = false) as ->.
        { apply ll_neqb. intros E. rewrite E, ll_irrefl in L. done. }
        by apply (ll_asym (eqb := eqb)).
Qed.
End less.

#[export] Instance Z_linear : LinearLess Z.eqb Z.ltb.
Proof. split; intros *; [apply Z.eqb_eq|lia..]. Qed.

(** Larger numbers first. *)
#[export] Instance Z_linear_down : LinearLess Z.eqb (λ x y, Z.ltb y x).
Proof. split; intros *; [apply Z.eqb_eq|lia..]. Qed.

#[export] Instance bool_linear : LinearLess Bool.eqb (λ x y, x && negb y).
Proof. split; [intros; apply Bool.eqb_true_iff|intros [] []; naive_solver..]. Qed.

Lemma weak_ext {A} (less less' : A → A → bool) :
  (∀ x y, less x y = less' x y) → WeakLess less → WeakLess less'.
Proof. intros E [H1 H2]. split; intros *; rewrite <-!E; [apply H1|apply H2]. Qed.

(** True first. *)
#[export] Instance weak_flag {A} (key : A → bool) (less : A → A → bool) : WeakLess less →
  WeakLess (λ a b, if negb (Bool.eqb (key a) (key b)) then key a else less a b).
Proof.
  intros H. eapply weak_ext, (weak_lex key Bool.eqb (λ x y, x && negb y) less H).
  intros x y. simpl. by destruct (key x), (key y).
Qed.

Lemma slice_stable_Permutation {A} (less : A → A → bool) l : slice_stable less l ≡ₚ l.
Proof. apply merge_sort_Permutation. Qed.

Lemma slice_stable_sorted {A} (less : A → A → bool) `{!WeakLess less} l :
  StronglySorted (not_less less) (slice_stable less l).
Proof.
  apply StronglySorted_merge_sort.
  - intros x y z. unfold not_less. apply wl_trans.
  - intros x y. unfold not_less. destruct (wl_total (less := less) x y); auto.
Qed.

(** A [less] that is the strict part of a key order sorts by that key. *)
Lemma slice_stable_order_by {A} (less : A → A → bool) (key : A → list Z) l :
  (∀ x y, less x y = negb (lex_le (key y) (key x))) →
  slice_stable less l = order_by key l.
Proof.
  intros Hless. apply merge_sort_ext. intros x y. unfold key_le, not_less.
  by rewrite Hless, negb_false_iff.
Qed.

Create HintDb sql.
#[export] Hint Rewrite @lookup_update_where : sql.
