(* ===== verification/GoStrings.v ===== *)
(** * Go's string functions

    The functions of the packages strings, path, strconv and time the modelled
    code calls, on byte strings as Go has them. *)

From S2P Require Import Prelude.
Open Scope Z_scope.

(* -------------------------------------------------------------------- *)
(** ** strings.TrimSpace, strings.ReplaceAll and the store's truncate *)

(** The encodings of the runes unicode.IsSpace accepts. *)
Definition byte_string (bytes : list nat) : string :=
  foldr (λ b s, String (Ascii.ascii_of_nat b) s) EmptyString bytes.

Definition space_runes : list string := byte_string <$>
  ([[9]; [10]; [11]; [12]; [13]; [32]; [194; 133]; [194; 160]; [225; 154; 128]] ++
   ((λ b, [226; 128; b]) <$> seq 128 11) ++
   [[226; 128; 168]; [226; 128; 169]; [226; 128; 175]; [226; 129; 159]; [227; 128; 128]])%nat.

Definition strip_prefix (r s : string) : option string :=
  if String.prefix r s
  then Some (String.substring (String.length r) (String.length s - String.length r) s)
  else None.

Fixpoint strip_any (strip : string → string → option string) (runes : list string) (s : string)
    : option string :=
  match runes with
  | [] => None
  | r :: runes => match strip r s with Some s' => Some s' | None => strip_any strip runes s end
  end.

Fixpoint trim_with (fuel : nat) (strip : string → option string) (s : string) : string :=
  match fuel with
  | O => s
  | S fuel => match strip s with Some s' => trim_with fuel strip s' | None => s end
  end.

Definition strip_suffix (r s : string) : option string :=
  let n := (String.length s - String.length r)%nat in
  if (String.length r <=? String.length s)%nat
     && String.eqb (String.substring n (String.length r) s) r
  then Some (String.substring 0 n s) else None.

(** strings.TrimSpace; a rune has at least one byte, so the length is fuel
    enough. *)
Definition TrimSpace (s : string) : string :=
  let s := trim_with (String.length s) (strip_any strip_prefix space_runes) s in
  trim_with (String.length s) (strip_any strip_suffix space_runes) s.

(** strings.ReplaceAll(s, newline, space) *)
Fixpoint newlines_to_spaces (s : string) : string :=
  match s with
  | EmptyString => EmptyString
  | String c s => String (if Ascii.eqb c (Ascii.ascii_of_nat 10) then Ascii.ascii_of_nat 32 else c) (newlines_to_spaces s)
  end.

Definition truncate (s : string) (n : nat) : string :=
  let s := TrimSpace (newlines_to_spaces s) in
  if (String.length s <=? n)%nat then s else String.append (String.substring 0 n s) "…".

(* -------------------------------------------------------------------- *)
(** ** Cutting at a byte *)

(** strings.Contains(s, c) for a one-byte c *)
Fixpoint has_char (c : Ascii.ascii) (s : string) : bool :=
  match s with
  | EmptyString => false
  | String d s => Ascii.eqb c d || has_char c s
  end.

(** [(s[:i], s[i+1:])] for [i := strings.LastIndex(s, c)], if it is not -1 *)
Fixpoint cut_last (c : Ascii.ascii) (s : string) : option (string * string) :=
  match s with
  | EmptyString => None
  | String d s =>
      match cut_last c s with
      | Some (a, b) => Some (String d a, b)
      | None => if Ascii.eqb c d then Some (EmptyString, s) else None
      end
  end.

Fixpoint trim_left (c : Ascii.ascii) (s : string) : string :=
  match s with
  | String d s' => if Ascii.eqb c d then trim_left c s' else s
  | EmptyString => EmptyString
  end.

Fixpoint trim_right (c : Ascii.ascii) (s : string) : string :=
  match s with
  | EmptyString => EmptyString
  | String d s =>
      match trim_right c s with
      | EmptyString => if Ascii.eqb c d then EmptyString else String d EmptyString
      | r => String d r
      end
  end.

(** strings.Trim(s, c) for a one-byte cutset *)
Definition Trim (c : Ascii.ascii) (s : string) : string := trim_right c (trim_left c s).

Definition slash : Ascii.ascii := Eval cbv in Ascii.ascii_of_nat 47.
Definition colon : Ascii.ascii := Eval cbv in Ascii.ascii_of_nat 58.
Definition dot : Ascii.ascii := Eval cbv in Ascii.ascii_of_nat 46.
Definition dash : Ascii.ascii := Eval cbv in Ascii.ascii_of_nat 45.

(** Lower case of the ASCII letters, other bytes as they are. *)
Definition fold_byte (c : Ascii.ascii) : Ascii.ascii :=
  let n := Ascii.nat_of_ascii c in
  if ((65 <=? n) && (n <=? 90))%nat then Ascii.ascii_of_nat (n + 32) else c.

Fixpoint fold_string (s : string) : string :=
  match s with
  | EmptyString => EmptyString
  | String c s => String (fold_byte c) (fold_string s)
  end.

(** strings.EqualFold on ASCII text, which is what repository paths and digests are. *)
Definition EqualFold (a b : string) : bool := String.eqb (fold_string a) (fold_string b).

(* -------------------------------------------------------------------- *)
(** ** path.Join *)

(** The elements between slashes. *)
Fixpoint split_slash (s : string) : list string :=
  match s with
  | EmptyString => [EmptyString]
  | String c s =>
      if Ascii.eqb c slash then EmptyString :: split_slash s
      else match split_slash s with
           | e :: l => String c e :: l
           | [] => [String c EmptyString]
           end
  end.

(** One element of path.Clean onto the elements kept so far, last one first. *)
Definition clean_elem (rooted : bool) (kept : list string) (e : string) : list string :=
  if String.eqb e "" || String.eqb e "." then kept
  else if String.eqb e ".." then
    match kept with
    | [] => if rooted then [] else [e]
    | k :: kept' => if String.eqb k ".." then e :: kept else kept'
    end
  else e :: kept.

Definition is_rooted (s : string) : bool :=
  match s with String c _ => Ascii.eqb c slash | EmptyString => false end.

(** path.Clean *)
Definition Clean (s : string) : string :=
  let body := String.concat "/" (rev (foldl (clean_elem (is_rooted s)) [] (split_slash s))) in
  if is_rooted s then String.append "/" body
  else if String.eqb body "" then "." else body.

(** path.Join of two elements: empty ones are left out. *)
Definition Join (a b : string) : string :=
  match a, b with
  | EmptyString, EmptyString => EmptyString
  | EmptyString, _ => Clean b
  | _, EmptyString => Clean a
  | _, _ => Clean (String.append a (String.append "/" b))
  end.

Example Join_nests : Join "vendor/a" "orbs//CFX/./k8s/../nginx" = "vendor/a/orbs/CFX/nginx".
Proof. reflexivity. Qed.
Example TrimSpace_Trim : Trim slash (TrimSpace "  /orbs/x/ ") = "orbs/x".
Proof. vm_compute. reflexivity. Qed.

(* -------------------------------------------------------------------- *)
(** ** Prefixes, suffixes, substrings, sorting *)

(** strings.HasPrefix(s, p) *)
Definition HasPrefix (s p : string) : bool := String.prefix p s.

(** strings.HasSuffix(s, p) *)
Fixpoint HasSuffix (s p : string) : bool :=
  String.eqb s p || match s with EmptyString => false | String _ s => HasSuffix s p end.

(** strings.Contains(s, p) *)
Fixpoint Contains (s p : string) : bool :=
  String.prefix p s || match s with EmptyString => false | String _ s => Contains s p end.

(** strings.TrimPrefix(s, "/") *)
Definition trim_slash (s : string) : string :=
  match s with String c s' => if Ascii.eqb c slash then s' else s | EmptyString => s end.

(** [(s[:i], s[i+1:])] for [i := strings.Index(s, c)], if it is not -1 *)
Fixpoint cut_first (c : Ascii.ascii) (s : string) : option (string * string) :=
  match s with
  | EmptyString => None
  | String d s =>
      if Ascii.eqb c d then Some (EmptyString, s)
      else match cut_first c s with Some (a, b) => Some (String d a, b) | None => None end
  end.

(** Texts put together. *)
Definition words (l : list string) : string := String.concat "" l.

(** %q of a string without a quote, backslash or control character *)
Definition quoted (s : string) : string :=
  let q := String (Ascii.ascii_of_nat 34) EmptyString in String.append q (String.append s q).

Definition string_le (a b : string) : Prop := String.leb a b = true.

#[export] Instance string_le_dec : RelDecision string_le.
Proof. intros a b. unfold string_le. apply _. Defined.

(** sort.Strings *)
Definition sort_strings (l : list string) : list string := merge_sort string_le l.

Lemma ascii_compare_N a b : Ascii.compare a b = N.compare (Ascii.N_of_ascii a) (Ascii.N_of_ascii b).
Proof. done. Qed.

Lemma string_compare_trans a b c :
  String.compare a b = Lt → String.compare b c = Lt → String.compare a c = Lt.
Proof.
  revert b c. induction a as [|x a IH]; intros [|y b] [|z c]; simpl; try done.
  rewrite !ascii_compare_N.
  destruct (N.compare_spec (Ascii.N_of_ascii x) (Ascii.N_of_ascii y)) as [E|H|H]; [|intros _|done].
  - rewrite E. destruct (N.compare_spec (Ascii.N_of_ascii y) (Ascii.N_of_ascii z)); [|done..]. apply IH.
  - destruct (N.compare_spec (Ascii.N_of_ascii y) (Ascii.N_of_ascii z)) as [<-|H'|H']; [|intros _|done].
    + intros _. by rewrite (proj2 (N.compare_lt_iff _ _) H).
    + rewrite (proj2 (N.compare_lt_iff _ _)); [done|lia].
Qed.

Lemma ltb_compare a b : String.ltb a b = true ↔ String.compare a b = Lt.
Proof. unfold String.ltb. by destruct (String.compare a b). Qed.

#[export] Instance string_linear : LinearLess String.eqb String.ltb.
Proof.
  split.
  - apply String.eqb_eq.
  - intros x y. unfold String.ltb. rewrite (String.compare_antisym y x). by destruct (String.compare x y).
  - intros x y z. rewrite !ltb_compare. apply string_compare_trans.
  - intros x y Hne. rewrite !ltb_compare, (String.compare_antisym y x).
    destruct (String.compare x y) eqn:E; [|by left|by right]. by apply String.compare_eq_iff in E.
Qed.

#[export] Instance string_le_trans : Transitive string_le.
Proof.
  intros x y z. unfold string_le, String.leb.
  destruct (String.compare x y) eqn:E1; [|destruct (String.compare y z) eqn:E2|done].
  - by apply String.compare_eq_iff in E1 as ->.
  - apply String.compare_eq_iff in E2 as ->. by rewrite E1.
  - by rewrite (string_compare_trans x y z).
  - done.
Qed.

#[export] Instance string_le_total : Total string_le.
Proof. intros x y. apply String.leb_total. Qed.

Lemma sort_strings_sorted l : StronglySorted string_le (sort_strings l).
Proof. apply (StronglySorted_merge_sort string_le). Qed.

Lemma sort_strings_Permutation l : sort_strings l ≡ₚ l.
Proof. apply merge_sort_Permutation. Qed.

Lemma elem_of_sort_strings s l : s ∈ sort_strings l ↔ s ∈ l.
Proof. unfold sort_strings. by rewrite merge_sort_Permutation. Qed.

Lemma sort_strings_nil l : sort_strings l = [] ↔ l = [].
Proof.
  split; [|by intros ->]. intros Hs. pose proof (merge_sort_Permutation string_le l) as Hp.
  unfold sort_strings in Hs. rewrite Hs in Hp. by apply Permutation_nil_l in Hp.
Qed.

(** One hexadecimal digit. *)
Definition unhex (c : Ascii.ascii) : option nat :=
  let n := Ascii.nat_of_ascii c in
  if ((48 <=? n) && (n <=? 57))%nat then Some (n - 48)%nat
  else if ((97 <=? n) && (n <=? 102))%nat then Some (n - 87)%nat
  else if ((65 <=? n) && (n <=? 70))%nat then Some (n - 55)%nat
  else None.

(** url.PathUnescape: [None] for a percent sign that two hexadecimal digits do
    not follow. *)
Fixpoint PathUnescape (s : string) : option string :=
  match s with
  | EmptyString => Some EmptyString
  | String c s' =>
      if Ascii.eqb c (Ascii.ascii_of_nat 37) then
        match s' with
        | String a (String b s'') =>
            match unhex a, unhex b with
            | Some h, Some l => String (Ascii.ascii_of_nat (16 * h + l)) <$> PathUnescape s''
            | _, _ => None
            end
        | _ => None
        end
      else String c <$> PathUnescape s'
  end.

Example PathUnescape_path : PathUnescape "a%2Fb%20c" = Some "a/b c".
Proof. reflexivity. Qed.

Lemma cut_first_app c a b :
  has_char c a = false → cut_first c (String.append a (String c b)) = Some (a, b).
Proof.
  induction a as [|d a IH]; simpl.
  - intros _. by rewrite Ascii.eqb_refl.
  - intros [Hd Ha]%orb_false_iff. by rewrite Hd, (IH Ha).
Qed.

Lemma cut_first_Some c s a b :
  cut_first c s = Some (a, b) → s = String.append a (String c b) ∧ has_char c a = false.
Proof.
  revert a b. induction s as [|d s IH]; intros a b; simpl; [done|].
  destruct (Ascii.eqb_spec c d) as [->|Hd]; [by intros [= <- <-]|].
  destruct (cut_first c s) as [[a' b']|]; [|done]. intros [= <- <-].
  destruct (IH a' b' eq_refl) as [-> Ha]. split; [done|]. simpl. rewrite Ha, orb_false_r.
  by apply Ascii.eqb_neq.
Qed.

Lemma cut_last_None c s : has_char c s = false → cut_last c s = None.
Proof.
  induction s as [|d s IH]; simpl; [done|]. intros [Hd Hs]%orb_false_iff. by rewrite IH, Hd.
Qed.

Lemma cut_last_app c a b :
  has_char c b = false → cut_last c (String.append a (String c b)) = Some (a, b).
Proof.
  intros Hb. induction a as [|d a IH]; simpl; [|by rewrite IH].
  by rewrite cut_last_None, Ascii.eqb_refl.
Qed.

Lemma HasPrefix_app s p : HasPrefix s p = true ↔ ∃ t, s = String.append p t.
Proof.
  unfold HasPrefix. split.
  - revert s. induction p as [|c p IH]; intros s; [by exists s|]. destruct s as [|d s]; [done|].
    simpl. destruct (Ascii.ascii_dec c d) as [->|]; [|done]. intros [t ->]%IH. by exists t.
  - intros [t ->]. induction p as [|c p IH]; [by destruct t|]. simpl.
    by destruct (Ascii.ascii_dec c c).
Qed.

(** The first element between slashes. *)
Lemma split_slash_inv s w l : split_slash s = w :: l →
  has_char slash w = false ∧ (l = [] ∧ s = w ∨ ∃ t, s = String.append w (String slash t) ∧ l = split_slash t).
Proof.
  revert w l. induction s as [|c s IH]; intros w l; cbn [split_slash].
  - intros [= <- <-]. auto.
  - destruct (Ascii.eqb_spec c slash) as [->|Hc].
    + intros [= <- <-]. split; [done|]. right. by exists s.
    + assert (Ascii.eqb slash c = false) as Hne by (apply Ascii.eqb_neq; congruence).
      destruct (split_slash s) as [|e l'] eqn:E.
      * exfalso. destruct s as [|d s]; simpl in E; [done|]. destruct (Ascii.eqb d slash); [done|].
        by destruct (split_slash s).
      * intros [= <- <-]. destruct (IH _ _ eq_refl) as [He Hrest]. split; [cbn [has_char]; by rewrite Hne, He|].
        destruct Hrest as [[-> ->]|(t & -> & ->)]; [by left|right; by exists t].
Qed.

Lemma has_char_app c a b : has_char c (String.append a b) = has_char c a || has_char c b.
Proof. induction a as [|d a IH]; simpl; [done|]. by rewrite IH, orb_assoc. Qed.

Lemma Contains_absent c w s : has_char c s = false → Contains s (String c w) = false.
Proof.
  induction s as [|d s IH]; simpl; [done|]. intros [Hd Hs]%orb_false_iff. rewrite IH by done.
  destruct (Ascii.ascii_dec c d) as [->|]; [|done]. by rewrite Ascii.eqb_refl in Hd.
Qed.

(** A word without [c] is a prefix of what precedes a [c]. *)
Lemma prefix_before w a c b :
  has_char c w = false → String.prefix w (String.append a (String c b)) = String.prefix w a.
Proof.
  revert a. induction w as [|d w IH]; intros a; [by destruct a|]. simpl.
  intros [Hd Hw]%orb_false_iff. destruct a as [|e a]; simpl.
  - destruct (Ascii.ascii_dec d c) as [->|]; [|done]. by rewrite Ascii.eqb_refl in Hd.
  - destruct (Ascii.ascii_dec d e); [by apply IH|done].
Qed.

Definition percent : Ascii.ascii := Eval cbv in Ascii.ascii_of_nat 37.

Lemma PathUnescape_plain s : has_char percent s = false → PathUnescape s = Some s.
Proof.
  induction s as [|c s IH]; [done|]. cbn [has_char PathUnescape].
  intros [Hc Hs]%orb_false_iff. change (Ascii.ascii_of_nat 37) with percent.
  rewrite Ascii.eqb_sym in Hc. by rewrite Hc, IH.
Qed.

Lemma split_slash_app w s :
  has_char slash w = false → split_slash (String.append w (String slash s)) = w :: split_slash s.
Proof.
  induction w as [|c w IH]; [done|]. cbn [has_char]. intros [Hc Hw]%orb_false_iff.
  change (String.append (String c w) (String slash s)) with (String c (String.append w (String slash s))).
  cbn [split_slash]. rewrite Ascii.eqb_sym in Hc. rewrite Hc. by rewrite IH.
Qed.

(** A word after a separator is found at one of the separators. *)
Lemma Contains_segment c w a b :
  has_char c a = false →
  Contains (String.append a (String c b)) (String c w) = String.prefix w b || Contains b (String c w).
Proof.
  induction a as [|d a IH].
  - intros _. change (String.append "" (String c b)) with (String c b). cbn [Contains String.prefix].
    by destruct (Ascii.ascii_dec c c).
  - cbn [has_char]. intros [Hd Ha]%orb_false_iff.
    change (String.append (String d a) (String c b)) with (String d (String.append a (String c b))).
    cbn [Contains String.prefix]. rewrite IH by done.
    destruct (Ascii.ascii_dec c d) as [->|]; [|done]. by rewrite Ascii.eqb_refl in Hd.
Qed.

Lemma append_assoc a b c : String.append a (String.append b c) = String.append (String.append a b) c.
Proof. induction a as [|d a IH]; [done|]. exact (f_equal (String d) IH). Qed.

Lemma prefix_absent c w s : has_char c w = true → has_char c s = false → String.prefix w s = false.
Proof.
  revert s. induction w as [|d w IH]; intros s; [done|]. destruct s as [|e s]; [done|].
  cbn [has_char String.prefix]. intros [Hd|Hw]%orb_true_iff [He Hs]%orb_false_iff;
    destruct (Ascii.ascii_dec d e) as [->|]; try done; [congruence|by apply IH].
Qed.

(* -------------------------------------------------------------------- *)
(** ** strconv, in base ten *)

Definition plus : Ascii.ascii := Eval cbv in Ascii.ascii_of_nat 43.

(** strconv.FormatInt(z, 10) *)
Definition FormatInt (z : Z) : string := pretty z.

Definition digit_value (c : Ascii.ascii) : option Z :=
  let n := Z.of_N (Ascii.N_of_ascii c) in
  if (48 <=? n)%Z && (n <=? 57)%Z then Some (n - 48)%Z else None.

Fixpoint read_digits (s : string) (acc : Z) : option Z :=
  match s with
  | EmptyString => Some acc
  | String c s => d ← digit_value c; read_digits s (10 * acc + d)%Z
  end.

Definition read_unsigned (s : string) : option Z :=
  if String.eqb s "" then None else read_digits s 0.

Definition int64_range (z : Z) : option Z :=
  if (-(2 ^ 63) <=? z)%Z && (z <? 2 ^ 63)%Z then Some z else None.

(** strconv.ParseInt(s, 10, 64) *)
Definition ParseInt (s : string) : option Z :=
  match s with
  | EmptyString => None
  | String c rest =>
      z ← (if Ascii.eqb c dash then Z.opp <$> read_unsigned rest
           else if Ascii.eqb c plus then read_unsigned rest else read_unsigned s);
      int64_range z
  end.

Lemma digit_value_char x : (x < 10)%N → digit_value (pretty_N_char x) = Some (Z.of_N x).
Proof.
  intros Hx. assert (x ∈ [0; 1; 2; 3; 4; 5; 6; 7; 8; 9]%N) as Hin.
  { rewrite !elem_of_cons. lia. }
  repeat (apply elem_of_cons in Hin as [->|Hin]; [reflexivity|]). by apply elem_of_nil in Hin.
Qed.

(** The digits of [x], then those of [s]. *)
Lemma read_digits_go x s acc :
  ∃ p, (0 < p)%Z ∧ read_digits (pretty_N_go x s) acc = read_digits s (acc * p + Z.of_N x)%Z.
Proof.
  revert s. induction (N.lt_wf_0 x) as [x _ IH]; intros s.
  assert (x = 0 ∨ 0 < x)%N as [->|Hx] by lia.
  - exists 1%Z. rewrite pretty_N_go_0. split; [done|]. f_equal. lia.
  - rewrite pretty_N_go_step by done. destruct (IH (x `div` 10)%N) with (s := String (pretty_N_char (x `mod` 10)) s)
      as (p & Hp & ->); [by apply N.div_lt|].
    exists (10 * p)%Z. split; [lia|]. cbn [read_digits].
    rewrite digit_value_char by by apply N.mod_upper_bound. simpl. f_equal.
    rewrite N2Z.inj_mod, N2Z.inj_div. pose proof (Z.div_mod (Z.of_N x) 10 ltac:(done)). simpl Z.of_N in *. lia.
Qed.

Lemma pretty_N_nonempty x s : (0 < x)%N ∨ s ≠ "" → pretty_N_go x s ≠ "".
Proof.
  revert s. induction (N.lt_wf_0 x) as [x _ IH]; intros s H.
  assert (x = 0 ∨ 0 < x)%N as [->|Hx] by lia.
  - rewrite pretty_N_go_0. by destruct H.
  - rewrite pretty_N_go_step by done. apply IH; [by apply N.div_lt|by right].
Qed.

Lemma read_unsigned_pretty x : read_unsigned (pretty x) = Some (Z.of_N x).
Proof.
  unfold read_unsigned, pretty, pretty_N. case_decide as Hx; [by subst|].
  destruct (String.eqb_spec (pretty_N_go x "") "") as [E|_].
  - exfalso. revert E. apply pretty_N_nonempty. left. lia.
  - destruct (read_digits_go x "" 0) as (p & _ & ->). done.
Qed.

(** What is read back is what was written. *)
Lemma ParseInt_FormatInt z : (-(2 ^ 63) ≤ z < 2 ^ 63)%Z → ParseInt (FormatInt z) = Some z.
Proof.
  intros Hz. assert (int64_range z = Some z) as Hr.
  { unfold int64_range. rewrite (proj2 (Z.leb_le _ _)), (proj2 (Z.ltb_lt _ _)) by lia. done. }
  destruct z as [|x|x].
  - done.
  - change (FormatInt (Z.pos x)) with (pretty (N.pos x)).
    pose proof (read_unsigned_pretty (N.pos x)) as Hp. revert Hp. destruct (pretty (N.pos x)) as [|c rest] eqn:E; [done|].
    intros Hp. unfold ParseInt. destruct (Ascii.eqb_spec c dash) as [->|_].
    { vm_compute in Hp. done. }
    destruct (Ascii.eqb_spec c plus) as [->|_]; [vm_compute in Hp; done|]. by rewrite Hp.
  - change (FormatInt (Z.neg x)) with (String dash (pretty (N.pos x))). unfold ParseInt.
    rewrite Ascii.eqb_refl, read_unsigned_pretty. done.
Qed.

(** Nothing but digits, after the sign. *)
Lemma has_char_pretty_N c x s :
  digit_value c = None → has_char c s = false → has_char c (pretty_N_go x s) = false.
Proof.
  intros Hc. revert s. induction (N.lt_wf_0 x) as [x _ IH]; intros s Hs.
  assert (x = 0 ∨ 0 < x)%N as [->|Hx] by lia; [by rewrite pretty_N_go_0|].
  rewrite pretty_N_go_step by done. apply IH; [by apply N.div_lt|]. cbn [has_char]. rewrite Hs, orb_false_r.
  apply Ascii.eqb_neq. intros ->. by rewrite digit_value_char in Hc by by apply N.mod_upper_bound.
Qed.

Lemma has_char_FormatInt c z : digit_value c = None → c ≠ dash → has_char c (FormatInt z) = false.
Proof.
  intros Hc Hd. assert (∀ x, has_char c (pretty (N.pos x)) = false) as Hp.
  { intros x. unfold pretty, pretty_N. case_decide; [done|]. by apply has_char_pretty_N. }
  destruct z as [|x|x]; [|apply Hp|].
  - cbn. rewrite orb_false_r. apply Ascii.eqb_neq. intros ->. by vm_compute in Hc.
  - change (FormatInt (Z.neg x)) with (String dash (pretty (N.pos x))). cbn [has_char].
    rewrite Hp, orb_false_r. by apply Ascii.eqb_neq.
Qed.

Lemma FormatInt_nonempty z : FormatInt z ≠ "".
Proof.
  destruct z as [|x|x]; [done| |done]. change (FormatInt (Z.pos x)) with (pretty (N.pos x)).
  unfold pretty, pretty_N. case_decide; [done|]. apply pretty_N_nonempty. left. lia.
Qed.

(* -------------------------------------------------------------------- *)
(** ** time.Duration, in nanoseconds *)

(** The digits of a fraction, without its trailing zeros. *)
Fixpoint fraction (prec : nat) (f : Z) : string :=
  match prec with
  | O => ""
  | S prec' =>
      if (f =? 0)%Z then ""
      else String.append (pretty (f / 10 ^ Z.of_nat prec'))%Z (fraction prec' (f mod 10 ^ Z.of_nat prec')%Z)
  end.

(** [u] over [10 ^ prec] *)
Definition fixed (prec : nat) (u : Z) : string :=
  let f := (u mod 10 ^ Z.of_nat prec)%Z in
  String.append (pretty (u / 10 ^ Z.of_nat prec)%Z)
    (if (f =? 0)%Z then "" else String dot (fraction prec f)).

Definition micros : string :=
  Eval cbv in String (Ascii.ascii_of_nat 194) (String (Ascii.ascii_of_nat 181) "s").

(** Duration.String *)
Definition Duration_String (d : Z) : string :=
  let u := Z.abs d in
  let text :=
    if (u <? 10 ^ 9)%Z then
      if (u =? 0)%Z then "0s"
      else if (u <? 10 ^ 3)%Z then String.append (pretty u) "ns"
      else if (u <? 10 ^ 6)%Z then String.append (fixed 3 u) micros
      else String.append (fixed 6 u) "ms"
    else
      let secs := (u / 10 ^ 9)%Z in
      let s := String.append (fixed 9 (u - (secs / 60 * 60) * 10 ^ 9)%Z) "s" in
      if (secs <? 60)%Z then s
      else
        let m := (secs / 60)%Z in
        let ms := String.append (pretty (m mod 60)%Z) (String.append "m" s) in
        if (m <? 60)%Z then ms else String.append (pretty (m / 60)%Z) (String.append "h" ms)
  in if (d <? 0)%Z then String dash text else text.

(** Duration.Round: half away from zero, kept within int64. *)
Definition Duration_Round (d m : Z) : Z :=
  if (m <=? 0)%Z then d
  else
    let r := (Z.abs d mod m)%Z in
    let up := (r + r >=? m)%Z in
    if (d <? 0)%Z then (if up then Z.max (-(2 ^ 63)) (d - m + r) else d + r)%Z
    else (if up then Z.min (2 ^ 63 - 1) (d + m - r) else d - r)%Z.

Example durations :
  (Duration_String 0, Duration_String 1500, Duration_String (900 * 10 ^ 9), Duration_String (-2250000000),
   Duration_String (3661 * 10 ^ 9 + 5000000), Duration_String (Duration_Round 61499999999 (10 ^ 9))) =
  ("0s", String.append "1.5" micros, "15m0s", "-2.25s", "1h1m1.005s", "1m1s").
Proof. vm_compute. reflexivity. Qed.
