(* ===== verification/StateMachine.v ===== *)
(** * The transition guard and the lifecycles

    internal/platform/statemachine: [Machine], its constructor [New] and its
    queries from statemachine.go, and the four concrete tables of
    machines.go.  A Go type [S ~string] is an inductive type with its
    spelling; a Go map is a [gmap]; an error return is [Err]. *)

From S2P Require Import Prelude.

(* -------------------------------------------------------------------- *)
(** ** Types whose values are spelled as strings *)

Class Spelled (S : Type) := spell : S → string.

Section spelled.
Context {S : Type} `{Spelled S, EqDecision S} (all : list S).

Definition parse_spelled (s : string) : option S :=
  snd <$> list_find (λ x, spell x = s) all.
End spelled.

(* -------------------------------------------------------------------- *)
(** ** The machine *)

Record Transition (S E : Type) := mkTransition { From : S; Event : E; To : S }.
Arguments mkTransition {S E} _ _ _.
Arguments From {S E} _.
Arguments Event {S E} _.
Arguments To {S E} _.

Record Machine (S E : Type) `{Countable S, Countable E} := mkMachine {
  name : string;
  edges : gmap (S * E) S;
  states : gset S;
  terminal : gset S }.
Arguments mkMachine {S E _ _ _ _} _ _ _ _.
Arguments name {S E _ _ _ _} _.
Arguments edges {S E _ _ _ _} _.
Arguments states {S E _ _ _ _} _.
Arguments terminal {S E _ _ _ _} _.

Section machine.
Context {S E : Type} `{Countable S, Countable E, !Spelled S, !Spelled E}.

Definition add_terminal (m : Machine S E) (s : S) : Machine S E :=
  mkMachine (name m) (edges m) ({[s]} ∪ states m) ({[s]} ∪ terminal m).

Definition add_transition (m : Machine S E) (t : Transition S E) : Machine S E :=
  mkMachine (name m) (<[(From t, Event t) := To t]> (edges m))
    ({[To t]} ∪ ({[From t]} ∪ states m)) (terminal m).

Definition New (nm : string) (term : list S) (ts : list (Transition S E)) : Machine S E :=
  foldl add_transition (foldl add_terminal (mkMachine nm ∅ ∅ ∅) term) ts.

Definition Apply (m : Machine S E) (from : S) (event : E) : result S :=
  match edges m !! (from, event) with
  | Some to => Ok to
  | None => Err (EIllegalTransition (name m) (spell event) (spell from))
  end.

Definition Can (m : Machine S E) (from : S) (event : E) : bool :=
  match edges m !! (from, event) with Some _ => true | None => false end.

Definition IsTerminal (m : Machine S E) (s : S) : bool := bool_decide (s ∈ terminal m).
Definition Knows (m : Machine S E) (s : S) : bool := bool_decide (s ∈ states m).
Definition States (m : Machine S E) : list S := elements (states m).
Definition Name (m : Machine S E) : string := name m.
End machine.

(* -------------------------------------------------------------------- *)
(** ** The concrete lifecycles *)

Inductive JobState :=
  | JobStateZero
  | JobBlocked
  | JobPending
  | JobLeased
  | JobSucceeded
  | JobSkipped
  | JobFailed
  | JobCancelled.

Inductive JobEvent :=
  | JobCreatedWave0
  | JobCreatedWaveN
  | JobWaveAdvanced
  | JobLeasedE
  | JobCompletedMoved
  | JobCompletedExists
  | JobCompletedMounted
  | JobRetryable
  | JobTerminal
  | JobLeaseExpired
  | JobBlobUnknown
  | JobRetryRequested
  | JobCancelledE.

#[export] Instance JobState_eq_dec : EqDecision JobState.
Proof. solve_decision. Defined.

#[export] Instance JobState_spelled : Spelled JobState := λ s,
  match s with
  | JobStateZero => ""
  | JobBlocked => "blocked"
  | JobPending => "pending"
  | JobLeased => "leased"
  | JobSucceeded => "succeeded"
  | JobSkipped => "skipped"
  | JobFailed => "failed"
  | JobCancelled => "cancelled"
  end.

Definition all_JobState : list JobState :=
  [JobStateZero; JobBlocked; JobPending; JobLeased; JobSucceeded;
   JobSkipped; JobFailed; JobCancelled].

#[export] Instance JobState_countable : Countable JobState.
Proof.
  refine (inj_countable spell (parse_spelled all_JobState) _).
  abstract (by intros []; vm_compute).
Defined.

#[export] Instance JobEvent_eq_dec : EqDecision JobEvent.
Proof. solve_decision. Defined.

#[export] Instance JobEvent_spelled : Spelled JobEvent := λ s,
  match s with
  | JobCreatedWave0 => "CreatedWave0"
  | JobCreatedWaveN => "CreatedWaveN"
  | JobWaveAdvanced => "WaveAdvanced"
  | JobLeasedE => "Leased"
  | JobCompletedMoved => "CompletedTransferred"
  | JobCompletedExists => "CompletedExists"
  | JobCompletedMounted => "CompletedMounted"
  | JobRetryable => "FailedRetryable"
  | JobTerminal => "FailedTerminal"
  | JobLeaseExpired => "LeaseExpired"
  | JobBlobUnknown => "BlobUnknownOnManifest"
  | JobRetryRequested => "RetryRequested"
  | JobCancelledE => "Cancelled"
  end.

Definition all_JobEvent : list JobEvent :=
  [JobCreatedWave0; JobCreatedWaveN; JobWaveAdvanced; JobLeasedE;
   JobCompletedMoved; JobCompletedExists; JobCompletedMounted;
   JobRetryable; JobTerminal; JobLeaseExpired; JobBlobUnknown;
   JobRetryRequested; JobCancelledE].

#[export] Instance JobEvent_countable : Countable JobEvent.
Proof.
  refine (inj_countable spell (parse_spelled all_JobEvent) _).
  abstract (by intros []; vm_compute).
Defined.

Definition Job_transitions : list (Transition JobState JobEvent) :=
  [mkTransition JobStateZero JobCreatedWave0 JobPending;
   mkTransition JobStateZero JobCreatedWaveN JobBlocked;
   mkTransition JobBlocked JobWaveAdvanced JobPending;
   mkTransition JobPending JobLeasedE JobLeased;
   mkTransition JobLeased JobCompletedMoved JobSucceeded;
   mkTransition JobLeased JobCompletedExists JobSkipped;
   mkTransition JobLeased JobCompletedMounted JobSkipped;
   mkTransition JobLeased JobRetryable JobPending;
   mkTransition JobLeased JobTerminal JobFailed;
   mkTransition JobLeased JobLeaseExpired JobPending;
   mkTransition JobLeased JobBlobUnknown JobPending;
   mkTransition JobFailed JobRetryRequested JobPending;
   mkTransition JobPending JobCancelledE JobCancelled;
   mkTransition JobBlocked JobCancelledE JobCancelled;
   mkTransition JobLeased JobCancelledE JobCancelled].

Definition Job_terminal : list JobState :=
  [JobSucceeded; JobSkipped; JobCancelled].

Definition Job : Machine JobState JobEvent :=
  New "job" Job_terminal Job_transitions.

Inductive TransferState :=
  | TransferStateZero
  | TransferWaiting
  | TransferPending
  | TransferPlanning
  | TransferReady
  | TransferRunning
  | TransferPaused
  | TransferSyncing
  | TransferPromoting
  | TransferVerifying
  | TransferSucceeded
  | TransferDiverged
  | TransferSkipped
  | TransferFailed
  | TransferCancelling
  | TransferCancelled.

Inductive TransferEvent :=
  | TransferCreated
  | TransferPlanningStarted
  | TransferPlanCompleted
  | TransferPlanFailed
  | TransferPlanEmpty
  | TransferFirstJobLeased
  | TransferPauseRequested
  | TransferResumeRequested
  | TransferAllWavesDrained
  | TransferJobFailed
  | TransferVerifyPassed
  | TransferVerifyFailed
  | TransferRetryRequested
  | TransferCancelRequested
  | TransferDrained
  | TransferSkipVerify
  | TransferPredecessorSucceeded
  | TransferPredecessorSettled
  | TransferSyncRequested
  | TransferSyncSucceeded
  | TransferSyncDiverged
  | TransferSyncFailed
  | TransferPromotionRequested
  | TransferPromotionSucceeded
  | TransferPromotionFailed.

#[export] Instance TransferState_eq_dec : EqDecision TransferState.
Proof. solve_decision. Defined.

#[export] Instance TransferState_spelled : Spelled TransferState := λ s,
  match s with
  | TransferStateZero => ""
  | TransferWaiting => "waiting"
  | TransferPending => "pending"
  | TransferPlanning => "planning"
  | TransferReady => "ready"
  | TransferRunning => "running"
  | TransferPaused => "paused"
  | TransferSyncing => "syncing"
  | TransferPromoting => "promoting"
  | TransferVerifying => "verifying"
  | TransferSucceeded => "succeeded"
  | TransferDiverged => "diverged"
  | TransferSkipped => "skipped"
  | TransferFailed => "failed"
  | TransferCancelling => "cancelling"
  | TransferCancelled => "cancelled"
  end.

Definition all_TransferState : list TransferState :=
  [TransferStateZero; TransferWaiting; TransferPending;
   TransferPlanning; TransferReady; TransferRunning; TransferPaused;
   TransferSyncing; TransferPromoting; TransferVerifying;
   TransferSucceeded; TransferDiverged; TransferSkipped; TransferFailed;
   TransferCancelling; TransferCancelled].

#[export] Instance TransferState_countable : Countable TransferState.
Proof.
  refine (inj_countable spell (parse_spelled all_TransferState) _).
  abstract (by intros []; vm_compute).
Defined.

#[export] Instance TransferEvent_eq_dec : EqDecision TransferEvent.
Proof. solve_decision. Defined.

#[export] Instance TransferEvent_spelled : Spelled TransferEvent := λ s,
  match s with
  | TransferCreated => "Created"
  | TransferPlanningStarted => "PlanningStarted"
  | TransferPlanCompleted => "PlanCompleted"
  | TransferPlanFailed => "PlanFailed"
  | TransferPlanEmpty => "PlanEmpty"
  | TransferFirstJobLeased => "FirstJobLeased"
  | TransferPauseRequested => "PauseRequested"
  | TransferResumeRequested => "ResumeRequested"
  | TransferAllWavesDrained => "AllWavesDrained"
  | TransferJobFailed => "JobFailedTerminally"
  | TransferVerifyPassed => "VerificationPassed"
  | TransferVerifyFailed => "VerificationFailed"
  | TransferRetryRequested => "RetryRequested"
  | TransferCancelRequested => "CancelRequested"
  | TransferDrained => "InFlightDrained"
  | TransferSkipVerify => "VerificationDisabled"
  | TransferPredecessorSucceeded => "PredecessorSucceeded"
  | TransferPredecessorSettled => "PredecessorSettledUnsuccessfully"
  | TransferSyncRequested => "SyncRequested"
  | TransferSyncSucceeded => "SyncSucceeded"
  | TransferSyncDiverged => "SyncDiverged"
  | TransferSyncFailed => "SyncFailed"
  | TransferPromotionRequested => "PromotionRequested"
  | TransferPromotionSucceeded => "PromotionSucceeded"
  | TransferPromotionFailed => "PromotionFailed"
  end.

Definition all_TransferEvent : list TransferEvent :=
  [TransferCreated; TransferPlanningStarted; TransferPlanCompleted;
   TransferPlanFailed; TransferPlanEmpty; TransferFirstJobLeased;
   TransferPauseRequested; TransferResumeRequested;
   TransferAllWavesDrained; TransferJobFailed; TransferVerifyPassed;
   TransferVerifyFailed; TransferRetryRequested;
   TransferCancelRequested; TransferDrained; TransferSkipVerify;
   TransferPredecessorSucceeded; TransferPredecessorSettled;
   TransferSyncRequested; TransferSyncSucceeded; TransferSyncDiverged;
   TransferSyncFailed; TransferPromotionRequested;
   TransferPromotionSucceeded; TransferPromotionFailed].

#[export] Instance TransferEvent_countable : Countable TransferEvent.
Proof.
  refine (inj_countable spell (parse_spelled all_TransferEvent) _).
  abstract (by intros []; vm_compute).
Defined.

Definition Transfer_transitions : list (Transition TransferState TransferEvent) :=
  [mkTransition TransferStateZero TransferCreated TransferPending;
   mkTransition TransferWaiting TransferPredecessorSucceeded TransferPending;
   mkTransition TransferWaiting TransferPredecessorSettled TransferSkipped;
   mkTransition TransferWaiting TransferCancelRequested TransferCancelling;
   mkTransition TransferPending TransferPlanningStarted TransferPlanning;
   mkTransition TransferPlanning TransferPlanCompleted TransferReady;
   mkTransition TransferPlanning TransferPlanFailed TransferFailed;
   mkTransition TransferPlanning TransferPlanEmpty TransferSucceeded;
   mkTransition TransferReady TransferFirstJobLeased TransferRunning;
   mkTransition TransferRunning TransferPauseRequested TransferPaused;
   mkTransition TransferReady TransferPauseRequested TransferPaused;
   mkTransition TransferPaused TransferResumeRequested TransferRunning;
   mkTransition TransferRunning TransferAllWavesDrained TransferVerifying;
   mkTransition TransferRunning TransferSkipVerify TransferSucceeded;
   mkTransition TransferRunning TransferJobFailed TransferFailed;
   mkTransition TransferVerifying TransferVerifyPassed TransferSucceeded;
   mkTransition TransferVerifying TransferVerifyFailed TransferFailed;
   mkTransition TransferPlanning TransferSyncRequested TransferSyncing;
   mkTransition TransferSyncing TransferSyncSucceeded TransferSucceeded;
   mkTransition TransferSyncing TransferSyncDiverged TransferDiverged;
   mkTransition TransferSyncing TransferSyncFailed TransferFailed;
   mkTransition TransferFailed TransferSyncRequested TransferSyncing;
   mkTransition TransferSyncing TransferCancelRequested TransferCancelling;
   mkTransition TransferPlanning TransferPromotionRequested TransferPromoting;
   mkTransition TransferPromoting TransferPromotionSucceeded TransferSucceeded;
   mkTransition TransferPromoting TransferPromotionFailed TransferFailed;
   mkTransition TransferFailed TransferPromotionRequested TransferPromoting;
   mkTransition TransferPromoting TransferCancelRequested TransferCancelling;
   mkTransition TransferFailed TransferRetryRequested TransferReady;
   mkTransition TransferPending TransferCancelRequested TransferCancelling;
   mkTransition TransferPlanning TransferCancelRequested TransferCancelling;
   mkTransition TransferReady TransferCancelRequested TransferCancelling;
   mkTransition TransferRunning TransferCancelRequested TransferCancelling;
   mkTransition TransferPaused TransferCancelRequested TransferCancelling;
   mkTransition TransferVerifying TransferCancelRequested TransferCancelling;
   mkTransition TransferFailed TransferCancelRequested TransferCancelling;
   mkTransition TransferCancelling TransferDrained TransferCancelled].

Definition Transfer_terminal : list TransferState :=
  [TransferSucceeded; TransferDiverged; TransferSkipped; TransferCancelled].

Definition Transfer : Machine TransferState TransferEvent :=
  New "transfer" Transfer_terminal Transfer_transitions.

Inductive PackageState :=
  | PackageStateZero
  | PackageDiscovered
  | PackageQueued
  | PackageTransferring
  | PackageTransferred
  | PackageVerifying
  | PackageVerified
  | PackageVerificationFailed
  | PackageFailed
  | PackageSuperseded.

Inductive PackageEvent :=
  | PackageDiscoveredE
  | PackageTransferRequested
  | PackageTransferStarted
  | PackageAllSucceeded
  | PackageTransferFailed
  | PackageVerifyStarted
  | PackageVerifyPassed
  | PackageVerifyFailed
  | PackageRetryRequested
  | PackageSupersededE
  | PackageVerifySkipped.

#[export] Instance PackageState_eq_dec : EqDecision PackageState.
Proof. solve_decision. Defined.

#[export] Instance PackageState_spelled : Spelled PackageState := λ s,
  match s with
  | PackageStateZero => ""
  | PackageDiscovered => "discovered"
  | PackageQueued => "queued"
  | PackageTransferring => "transferring"
  | PackageTransferred => "transferred"
  | PackageVerifying => "verifying"
  | PackageVerified => "verified"
  | PackageVerificationFailed => "verification_failed"
  | PackageFailed => "failed"
  | PackageSuperseded => "superseded"
  end.

Definition all_PackageState : list PackageState :=
  [PackageStateZero; PackageDiscovered; PackageQueued;
   PackageTransferring; PackageTransferred; PackageVerifying;
   PackageVerified; PackageVerificationFailed; PackageFailed;
   PackageSuperseded].

#[export] Instance PackageState_countable : Countable PackageState.
Proof.
  refine (inj_countable spell (parse_spelled all_PackageState) _).
  abstract (by intros []; vm_compute).
Defined.

#[export] Instance PackageEvent_eq_dec : EqDecision PackageEvent.
Proof. solve_decision. Defined.

#[export] Instance PackageEvent_spelled : Spelled PackageEvent := λ s,
  match s with
  | PackageDiscoveredE => "Discovered"
  | PackageTransferRequested => "TransferRequested"
  | PackageTransferStarted => "TransferStarted"
  | PackageAllSucceeded => "AllTransfersSucceeded"
  | PackageTransferFailed => "TransferFailed"
  | PackageVerifyStarted => "VerificationStarted"
  | PackageVerifyPassed => "VerificationPassed"
  | PackageVerifyFailed => "VerificationFailed"
  | PackageRetryRequested => "RetryRequested"
  | PackageSupersededE => "Superseded"
  | PackageVerifySkipped => "VerificationDisabled"
  end.

Definition all_PackageEvent : list PackageEvent :=
  [PackageDiscoveredE; PackageTransferRequested; PackageTransferStarted;
   PackageAllSucceeded; PackageTransferFailed; PackageVerifyStarted;
   PackageVerifyPassed; PackageVerifyFailed; PackageRetryRequested;
   PackageSupersededE; PackageVerifySkipped].

#[export] Instance PackageEvent_countable : Countable PackageEvent.
Proof.
  refine (inj_countable spell (parse_spelled all_PackageEvent) _).
  abstract (by intros []; vm_compute).
Defined.

Definition Package_transitions : list (Transition PackageState PackageEvent) :=
  [mkTransition PackageStateZero PackageDiscoveredE PackageDiscovered;
   mkTransition PackageDiscovered PackageTransferRequested PackageQueued;
   mkTransition PackageQueued PackageTransferStarted PackageTransferring;
   mkTransition PackageTransferring PackageAllSucceeded PackageTransferred;
   mkTransition PackageTransferring PackageTransferFailed PackageFailed;
   mkTransition PackageTransferred PackageVerifyStarted PackageVerifying;
   mkTransition PackageTransferred PackageVerifySkipped PackageVerified;
   mkTransition PackageVerifying PackageVerifyPassed PackageVerified;
   mkTransition PackageVerifying PackageVerifyFailed PackageVerificationFailed;
   mkTransition PackageFailed PackageRetryRequested PackageQueued;
   mkTransition PackageVerificationFailed PackageRetryRequested PackageVerifying;
   mkTransition PackageDiscovered PackageSupersededE PackageSuperseded;
   mkTransition PackageQueued PackageSupersededE PackageSuperseded;
   mkTransition PackageTransferring PackageSupersededE PackageSuperseded;
   mkTransition PackageTransferred PackageSupersededE PackageSuperseded;
   mkTransition PackageVerifying PackageSupersededE PackageSuperseded;
   mkTransition PackageFailed PackageSupersededE PackageSuperseded].

Definition Package_terminal : list PackageState :=
  [PackageVerified; PackageVerificationFailed; PackageSuperseded].

Definition Package : Machine PackageState PackageEvent :=
  New "package" Package_terminal Package_transitions.

Inductive VerificationState :=
  | VerificationStateZero
  | VerificationPending
  | VerificationRunning
  | VerificationPassed
  | VerificationFailed
  | VerificationError
  | VerificationSkipped.

Inductive VerificationEvent :=
  | VerificationRequested
  | VerificationStarted
  | VerificationSkipPolicy
  | VerificationSigsValid
  | VerificationSigsInvalid
  | VerificationUnavailable
  | VerificationRetry.

#[export] Instance VerificationState_eq_dec : EqDecision VerificationState.
Proof. solve_decision. Defined.

#[export] Instance VerificationState_spelled : Spelled VerificationState := λ s,
  match s with
  | VerificationStateZero => ""
  | VerificationPending => "pending"
  | VerificationRunning => "running"
  | VerificationPassed => "passed"
  | VerificationFailed => "failed"
  | VerificationError => "error"
  | VerificationSkipped => "skipped"
  end.

Definition all_VerificationState : list VerificationState :=
  [VerificationStateZero; VerificationPending; VerificationRunning;
   VerificationPassed; VerificationFailed; VerificationError;
   VerificationSkipped].

#[export] Instance VerificationState_countable : Countable VerificationState.
Proof.
  refine (inj_countable spell (parse_spelled all_VerificationState) _).
  abstract (by intros []; vm_compute).
Defined.

#[export] Instance VerificationEvent_eq_dec : EqDecision VerificationEvent.
Proof. solve_decision. Defined.

#[export] Instance VerificationEvent_spelled : Spelled VerificationEvent := λ s,
  match s with
  | VerificationRequested => "Requested"
  | VerificationStarted => "Started"
  | VerificationSkipPolicy => "SkippedByPolicy"
  | VerificationSigsValid => "SignaturesValid"
  | VerificationSigsInvalid => "SignaturesInvalid"
  | VerificationUnavailable => "VerificationUnavailable"
  | VerificationRetry => "RetryRequested"
  end.

Definition all_VerificationEvent : list VerificationEvent :=
  [VerificationRequested; VerificationStarted; VerificationSkipPolicy;
   VerificationSigsValid; VerificationSigsInvalid;
   VerificationUnavailable; VerificationRetry].

#[export] Instance VerificationEvent_countable : Countable VerificationEvent.
Proof.
  refine (inj_countable spell (parse_spelled all_VerificationEvent) _).
  abstract (by intros []; vm_compute).
Defined.

Definition Verification_transitions : list (Transition VerificationState VerificationEvent) :=
  [mkTransition VerificationStateZero VerificationRequested VerificationPending;
   mkTransition VerificationPending VerificationStarted VerificationRunning;
   mkTransition VerificationPending VerificationSkipPolicy VerificationSkipped;
   mkTransition VerificationRunning VerificationSigsValid VerificationPassed;
   mkTransition VerificationRunning VerificationSigsInvalid VerificationFailed;
   mkTransition VerificationRunning VerificationUnavailable VerificationError;
   mkTransition VerificationError VerificationRetry VerificationPending].

Definition Verification_terminal : list VerificationState :=
  [VerificationPassed; VerificationFailed; VerificationSkipped].

Definition Verification : Machine VerificationState VerificationEvent :=
  New "verification" Verification_terminal Verification_transitions.

(* -------------------------------------------------------------------- *)
(** ** Runs and reachability *)

Section runs.
Context {S E : Type} `{Countable S, Countable E, !Spelled S, !Spelled E}.
Implicit Types (m : Machine S E) (s : S) (e : E).

(** Apply a list of events in order, stopping at the first illegal one. *)
Fixpoint run m s (evs : list E) : result S :=
  match evs with
  | [] => Ok s
  | e :: evs => s' ← Apply m s e; run m s' evs
  end.

Inductive reachable m (s0 : S) : S → Prop :=
  | reachable_start : reachable m s0 s0
  | reachable_step s e s' :
      reachable m s0 s → Apply m s e = Ok s' → reachable m s0 s'.

Definition transition_key (t : Transition S E) : S * E := (From t, Event t).

Lemma edges_foldl_terminal m term : edges (foldl add_terminal m term) = edges m.
Proof. revert m. induction term as [|s term IH]; intros m; simpl; [done|]. by rewrite IH. Qed.

Lemma edges_foldl_transition m ts s e s' :
  NoDup (transition_key <$> ts) →
  edges (foldl add_transition m ts) !! (s, e) = Some s' ↔
  mkTransition s e s' ∈ ts ∨
  ((s, e) ∉ transition_key <$> ts ∧ edges m !! (s, e) = Some s').
Proof.
  revert m. induction ts as [|[f ev t] ts IH]; intros m; simpl.
  - intros _. set_solver.
  - intros [Hnotin Hnd]%NoDup_cons. rewrite IH by done. simpl.
    change (transition_key (mkTransition f ev t)) with (f, ev) in *.
    rewrite lookup_insert, !elem_of_cons. case_decide as Heq.
    + simplify_eq. split.
      * intros [Hin|[_ [= ->]]]; left; [by right|by left].
      * intros [[Hin|Hin]|[Hn _]]; [|by left|by destruct Hn; left].
        injection Hin as ->. by right.
    + split.
      * intros [Hin|[Hn Hm]]; [auto|]. right. split; [|done].
        intros [Hc|Hc]; [by apply Heq|done].
      * intros [[Hc|Hin]|[Hn Hm]]; [|auto|].
        -- injection Hc as -> -> ->. by destruct Heq.
        -- right. split; [|done]. intros Hc. apply Hn. by right.
Qed.

Lemma Apply_Ok m s e s' : Apply m s e = Ok s' ↔ edges m !! (s, e) = Some s'.
Proof. unfold Apply. destruct (edges m !! (s, e)); naive_solver. Qed.

Lemma Can_Apply m s e : Can m s e = true ↔ ∃ s', Apply m s e = Ok s'.
Proof. unfold Can, Apply. destruct (edges m !! (s, e)); naive_solver. Qed.

Lemma New_Apply_iff nm term ts s e s' :
  NoDup (transition_key <$> ts) →
  Apply (New nm term ts) s e = Ok s' ↔ mkTransition s e s' ∈ ts.
Proof.
  intros Hnd. unfold New. rewrite Apply_Ok, edges_foldl_transition by done.
  rewrite edges_foldl_terminal. simpl. rewrite lookup_empty. naive_solver.
Qed.

Lemma run_reachable m s s' evs : run m s evs = Ok s' → reachable m s s'.
Proof.
  revert s. assert (∀ s s1, reachable m s s1 → run m s1 evs = Ok s' → reachable m s s') as Hgen.
  { induction evs as [|e evs IH]; intros s s1 Hr; simpl.
    - intros [= ->]. done.
    - intros (s2 & Hs2 & Hrun)%result_bind_Ok. eapply IH; [|exact Hrun].
      by econstructor. }
  intros s. apply Hgen. constructor.
Qed.

Lemma run_app m s evs1 evs2 :
  run m s (evs1 ++ evs2) = (s' ← run m s evs1; run m s' evs2).
Proof.
  revert s. induction evs1 as [|e evs1 IH]; intros s; simpl; [done|].
  destruct (Apply m s e); simpl; [apply IH|done].
Qed.

Lemma reachable_run m s s' : reachable m s s' ↔ ∃ evs, run m s evs = Ok s'.
Proof.
  split; [|intros [evs Hrun]; by eapply run_reachable].
  induction 1 as [|s1 e s' _ [evs Hevs] Happ]; [by exists []|].
  exists (evs ++ [e]). rewrite run_app, Hevs. simpl. by rewrite Happ.
Qed.

(** Rule induction over runs whose events all satisfy [ok]. *)
Lemma run_closed m (ok : E → Prop) (P : S → Prop) s s' evs :
  (∀ s1 e s2, P s1 → ok e → Apply m s1 e = Ok s2 → P s2) →
  P s → Forall ok evs → run m s evs = Ok s' → P s'.
Proof.
  intros Hstep. revert s. induction evs as [|e evs IH]; intros s HP Hok; simpl.
  - by intros [= <-].
  - apply Forall_cons in Hok as [He Hok]. intros (s1 & Hs1 & Hrun)%result_bind_Ok.
    by eapply IH; [eapply Hstep| |].
Qed.
End runs.

(* -------------------------------------------------------------------- *)
(** ** The four lifecycles *)

(** A table is deterministic and lets nothing leave a terminal state. *)
Definition sound_table {S E} `{EqDecision S, EqDecision E}
    (term : list S) (ts : list (Transition S E)) : bool :=
  bool_decide (NoDup (transition_key <$> ts)) &&
  forallb (λ t, bool_decide (From t ∉ term)) ts.

Section sound.
Context {S E : Type} `{Countable S, Countable E, !Spelled S, !Spelled E}.

Lemma terminal_foldl_transition (m : Machine S E) ts :
  terminal (foldl add_transition m ts) = terminal m.
Proof. revert m. induction ts as [|t ts IH]; intros m; simpl; [done|]. by rewrite IH. Qed.

Lemma terminal_New nm term (ts : list (Transition S E)) s :
  s ∈ terminal (New nm term ts) ↔ s ∈ term.
Proof.
  unfold New. rewrite terminal_foldl_transition.
  assert (∀ m : Machine S E, s ∈ terminal (foldl add_terminal m term) ↔ s ∈ term ∨ s ∈ terminal m) as Hgen.
  { induction term as [|x term IH]; intros m; simpl; [set_solver|].
    rewrite IH. simpl. set_solver. }
  rewrite Hgen. simpl. set_solver.
Qed.

Lemma sound_table_keys term (ts : list (Transition S E)) :
  sound_table term ts = true → NoDup (transition_key <$> ts).
Proof. by intros [?%bool_decide_eq_true _]%andb_true_iff. Qed.

Lemma sound_terminal_stuck nm term (ts : list (Transition S E)) s e :
  sound_table term ts = true → s ∈ term →
  Apply (New nm term ts) s e = Err (EIllegalTransition nm (spell e) (spell s)).
Proof.
  intros Hs Hin. pose proof (sound_table_keys _ _ Hs) as Hnd.
  apply andb_true_iff in Hs as [_ Hall].
  unfold Apply. destruct (edges _ !! _) as [s'|] eqn:He.
  - apply Apply_Ok, New_Apply_iff in He; [|done].
    rewrite forallb_forall in Hall. apply list_elem_of_In in He.
    specialize (Hall _ He). apply bool_decide_eq_true in Hall. by destruct Hall.
  - f_equal. f_equal. unfold New. clear.
    assert (∀ (m : Machine S E), name (foldl add_transition m ts) = name m) as Hts.
    { induction ts as [|t ts IH]; intros m; simpl; [done|]. by rewrite IH. }
    assert (∀ (m : Machine S E), name (foldl add_terminal m term) = name m) as Htm.
    { induction term as [|t tm IH]; intros m; simpl; [done|]. by rewrite IH. }
    by rewrite Hts, Htm.
Qed.
End sound.

Lemma Job_sound : sound_table Job_terminal Job_transitions = true.
Proof. by vm_compute. Qed.
Lemma Transfer_sound : sound_table Transfer_terminal Transfer_transitions = true.
Proof. by vm_compute. Qed.
Lemma Package_keys : NoDup (transition_key <$> Package_transitions).
Proof. apply (bool_decide_eq_true_1 _). by vm_compute. Qed.
Lemma Verification_sound :
  sound_table Verification_terminal Verification_transitions = true.
Proof. by vm_compute. Qed.

Lemma Job_edge s e s' : Apply Job s e = Ok s' ↔ mkTransition s e s' ∈ Job_transitions.
Proof. apply New_Apply_iff, (sound_table_keys _ _ Job_sound). Qed.
Lemma Transfer_edge s e s' :
  Apply Transfer s e = Ok s' ↔ mkTransition s e s' ∈ Transfer_transitions.
Proof. apply New_Apply_iff, (sound_table_keys _ _ Transfer_sound). Qed.
Lemma Package_edge s e s' :
  Apply Package s e = Ok s' ↔ mkTransition s e s' ∈ Package_transitions.
Proof. apply New_Apply_iff, Package_keys. Qed.
Lemma Verification_edge s e s' :
  Apply Verification s e = Ok s' ↔ mkTransition s e s' ∈ Verification_transitions.
Proof. apply New_Apply_iff, (sound_table_keys _ _ Verification_sound). Qed.

(** Case analysis on one edge of a concrete table. *)
Ltac edge_cases H :=
  repeat (apply elem_of_cons in H as [H|H]; [injection H as -> -> ->|]);
  [..|by apply not_elem_of_nil in H].

(** statemachine.go: a machine built by [New] from a table without a
    repeated (From, Event) pair allows exactly the table's edges - [Apply]
    returns [To] on an edge of the table and ErrIllegalTransition, never the
    unchanged state, on everything else. *)
Theorem Apply_exactly_table {S E} `{Countable S, Countable E, !Spelled S, !Spelled E}
    nm term (ts : list (Transition S E)) s e :
  NoDup (transition_key <$> ts) →
  (∀ s', Apply (New nm term ts) s e = Ok s' ↔ mkTransition s e s' ∈ ts) ∧
  ((∀ s', mkTransition s e s' ∉ ts) →
     ∃ err, Apply (New nm term ts) s e = Err err) ∧
  Can (New nm term ts) s e = bool_decide (Exists (λ t, transition_key t = (s, e)) ts).
Proof.
  intros Hnd. split; [|split].
  - intros s'. by apply New_Apply_iff.
  - intros Hno. destruct (Apply (New nm term ts) s e) as [s'|err] eqn:Ha; [|eauto].
    apply New_Apply_iff in Ha; [|done]. by destruct (Hno s').
  - apply eq_true_iff_eq. rewrite Can_Apply, bool_decide_eq_true, Exists_exists. split.
    + intros [s' Hs']. apply New_Apply_iff in Hs'; [|done]. eauto.
    + intros ([f ev t] & Hin & [= -> ->]). exists t. by apply New_Apply_iff.
Qed.

Lemma Apply_exactly_table_witness :
  NoDup (transition_key <$> Job_transitions) ∧
  Can Job JobSucceeded JobRetryRequested = false.
Proof.
  assert (NoDup (transition_key <$> Job_transitions)) as Hnd
    by (apply (bool_decide_eq_true_1 _); vm_compute; reflexivity).
  split; [exact Hnd|].
  destruct (Apply_exactly_table "job" Job_terminal Job_transitions JobSucceeded
    JobRetryRequested Hnd) as (_ & _ & Hc).
  unfold Job. rewrite Hc. vm_compute. reflexivity.
Defined.

(** machines.go: no event leaves a terminal state of the job, transfer
    or verification lifecycle - every attempt is an illegal transition.  The
    package lifecycle has exactly one exception: [verification_failed] is in
    its terminal set and RetryRequested still leads from it to [verifying]. *)
Theorem terminal_states_absorbing :
  (∀ s e, s ∈ Job_terminal → Apply Job s e = Err (EIllegalTransition "job" (spell e) (spell s))) ∧
  (∀ s e, s ∈ Transfer_terminal →
     Apply Transfer s e = Err (EIllegalTransition "transfer" (spell e) (spell s))) ∧
  (∀ s e, s ∈ Verification_terminal →
     Apply Verification s e = Err (EIllegalTransition "verification" (spell e) (spell s))) ∧
  (∀ s e s', s ∈ Package_terminal → Apply Package s e = Ok s' ↔
     s = PackageVerificationFailed ∧ e = PackageRetryRequested ∧ s' = PackageVerifying).
Proof.
  split; [|split; [|split]]; [intros; by apply sound_terminal_stuck..|].
  intros s e s' Hin. split.
  - intros H%Package_edge. edge_cases H; try done; exfalso; revert Hin;
      apply (bool_decide_eq_false_1 _); by vm_compute.
  - intros (-> & -> & ->). by vm_compute.
Qed.

(** machines.go, the transfer table: the states some sequence of events
    reaches from the zero state are all of them except [waiting], into which
    the table has no edge, and [skipped], whose only edge leaves [waiting]. *)
Theorem transfer_reachable_states s :
  (∃ evs, run Transfer TransferStateZero evs = Ok s) ↔
  s ≠ TransferWaiting ∧ s ≠ TransferSkipped.
Proof.
  split.
  - intros [evs Hrun].
    refine (run_closed Transfer (λ _, True) (λ s, s ≠ TransferWaiting ∧ s ≠ TransferSkipped)
      _ _ evs _ _ _ Hrun); [|done|by apply Forall_true].
    intros s1 e s2 [Hw Hs] _ H%Transfer_edge. edge_cases H; done.
  - pose (to_ready := [TransferCreated; TransferPlanningStarted; TransferPlanCompleted]).
    pose (to_run := to_ready ++ [TransferFirstJobLeased]).
    pose (to_sync := [TransferCreated; TransferPlanningStarted; TransferSyncRequested]).
    intros [Hw Hs]. destruct s; try done;
      [exists []
      |exists [TransferCreated]
      |exists [TransferCreated; TransferPlanningStarted]
      |exists to_ready
      |exists to_run
      |exists (to_run ++ [TransferPauseRequested])
      |exists to_sync
      |exists [TransferCreated; TransferPlanningStarted; TransferPromotionRequested]
      |exists (to_run ++ [TransferAllWavesDrained])
      |exists (to_run ++ [TransferSkipVerify])
      |exists (to_sync ++ [TransferSyncDiverged])
      |exists (to_sync ++ [TransferSyncFailed])
      |exists [TransferCreated; TransferCancelRequested]
      |exists [TransferCreated; TransferCancelRequested; TransferDrained]];
      vm_compute; reflexivity.
Qed.

(** The states a delegated or natively promoted transfer moves through. *)
Definition byte_free (s : TransferState) : bool :=
  match s with
  | TransferSyncing | TransferPromoting | TransferSucceeded | TransferDiverged
  | TransferFailed | TransferCancelling | TransferCancelled => true
  | _ => false
  end.

(** machines.go, delegated replication: whatever happens to a transfer
    that is [syncing], it is never [ready], [running], [paused] or
    [verifying] until somebody emits RetryRequested - so it acquires no waves
    and no progress denominator before that. *)
Theorem delegated_never_carries_bytes evs s :
  run Transfer TransferSyncing evs = Ok s →
  TransferRetryRequested ∉ evs →
  byte_free s = true.
Proof.
  intros Hrun Hno.
  refine (run_closed Transfer (λ e, e ≠ TransferRetryRequested) (λ s, byte_free s = true)
    _ _ evs _ _ _ Hrun); [|done|].
  - intros s1 e s2 Hb Hne H%Transfer_edge. edge_cases H; done.
  - apply Forall_forall. intros e He ->. done.
Qed.

Lemma delegated_never_carries_bytes_witness :
  run Transfer TransferSyncing [TransferSyncFailed; TransferSyncRequested; TransferSyncDiverged]
    = Ok TransferDiverged ∧ byte_free TransferDiverged = true.
Proof.
  assert (run Transfer TransferSyncing
    [TransferSyncFailed; TransferSyncRequested; TransferSyncDiverged] = Ok TransferDiverged)
    as Hrun by (vm_compute; reflexivity).
  split; [exact Hrun|].
  apply (delegated_never_carries_bytes _ _ Hrun).
  apply (bool_decide_eq_true_1 _). vm_compute. reflexivity.
Defined.

(** machines.go, the verification table: a verification is [passed] only
    through SignaturesValid from a running check and [failed] only through
    SignaturesInvalid - an outage (VerificationUnavailable) leads to [error]
    alone, and nothing leaves [failed] while [error] can be retried. *)
Theorem verification_verdicts s e s' :
  Apply Verification s e = Ok s' →
  (s' = VerificationPassed → s = VerificationRunning ∧ e = VerificationSigsValid) ∧
  (s' = VerificationFailed → s = VerificationRunning ∧ e = VerificationSigsInvalid) ∧
  (e = VerificationUnavailable → s' = VerificationError) ∧
  s ≠ VerificationFailed ∧
  (s = VerificationError → s' = VerificationPending).
Proof. intros H%Verification_edge. edge_cases H; naive_solver. Qed.

Lemma verification_verdicts_witness :
  Apply Verification VerificationRunning VerificationUnavailable = Ok VerificationError ∧
  VerificationError ≠ VerificationFailed.
Proof.
  assert (Apply Verification VerificationRunning VerificationUnavailable
    = Ok VerificationError) as H by (vm_compute; reflexivity).
  split; [exact H|].
  destruct (verification_verdicts _ _ _ H) as (_ & Hf & _).
  intros Heq. destruct (Hf Heq) as [_ [=]].
Defined.
