(* ===== verification/Backoff.v ===== *)
(** * Retry policy

    internal/platform/backoff/backoff.go: full-jitter exponential backoff on
    64-bit durations, and the attempt caps; the class-to-cap table is
    MaxAttemptsFor of internal/transfer/engine.go.

    A time.Duration is a [Z] number of nanoseconds; arithmetic on it wraps to
    int64 with [wrap64].  The random draw is an argument of [Delay]. *)

From S2P Require Import Prelude.
Open Scope Z_scope.

(* -------------------------------------------------------------------- *)
(** ** int64 *)

Definition two63 : Z := 9223372036854775808.
Definition two64 : Z := 18446744073709551616.

Definition wrap64 (z : Z) : Z := (z + two63) mod two64 - two63.

Definition is_int64 (z : Z) : Prop := - two63 ≤ z < two63.

Lemma wrap64_id z : is_int64 z → wrap64 z = z.
Proof. unfold is_int64, wrap64, two63, two64. intros. rewrite Z.mod_small; lia. Qed.

Lemma wrap64_int64 z : is_int64 (wrap64 z).
Proof.
  unfold is_int64, wrap64, two63, two64.
  pose proof (Z.mod_pos_bound (z + 9223372036854775808) 18446744073709551616). lia.
Qed.

(** math/rand/v2 Int64N: uniform in [0, n), and a panic unless n > 0.  The
    generator's output is the argument [draw]. *)
Definition Int64N (draw n : Z) : option Z :=
  if bool_decide (0 < n) then Some (draw mod n) else None.

(* -------------------------------------------------------------------- *)
(** ** The policy *)

Definition Millisecond : Z := 1000000.
Definition Second : Z := 1000000000.
Definition Minute : Z := 60 * Second.

Definition DefaultBase : Z := 1 * Second.
Definition DefaultCap : Z := 5 * Minute.

Record Policy := mkPolicy { Base : Z; Cap : Z }.

Definition policy_base (p : Policy) : Z :=
  if bool_decide (Base p ≤ 0) then DefaultBase else Base p.
Definition policy_cap (p : Policy) : Z :=
  if bool_decide (Cap p ≤ 0) then DefaultCap else Cap p.

(** The upper end of the jitter interval for attempt [n]. *)
Definition ceiling (p : Policy) (n : Z) : Z :=
  let base := policy_base p in
  let max := policy_cap p in
  let n := if bool_decide (n < 0) then 0 else n in
  if bool_decide (n < 62) then
    let scaled := wrap64 (Z.shiftl base n) in
    if bool_decide (0 < scaled ∧ scaled < max) then scaled else max
  else max.

Definition Delay (p : Policy) (n draw : Z) : option Z :=
  Int64N draw (wrap64 (ceiling p n + 1)).

(** A policy whose fields are int64 values. *)
Definition policy_ok (p : Policy) : Prop := is_int64 (Base p) ∧ is_int64 (Cap p).

(** store.retryDelay: the zero Policy. *)
Definition retryDelay (attempt draw : Z) : Z :=
  default 0 (Delay (mkPolicy 0 0) attempt draw).

(* -------------------------------------------------------------------- *)
(** ** Attempt caps *)

Definition AttemptsTransient : Z := 8.
Definition AttemptsIntegrity : Z := 2.
Definition AttemptsTerminal : Z := 1.

Definition Exhausted (m attempts : Z) : bool := bool_decide (m ≤ attempts).

Definition ClassConfiguration : string := "configuration".
Definition ClassBlobUnknown : string := "blob_unknown".
Definition ClassAuth : string := "auth".
Definition ClassNotFound : string := "not_found".
Definition ClassUnsupported : string := "unsupported".
Definition ClassIntegrity : string := "integrity".

Definition MaxAttemptsFor (class : string) : Z :=
  if bool_decide (class = ClassConfiguration) then AttemptsTerminal
  else if bool_decide (class = ClassBlobUnknown) then AttemptsTransient
  else if bool_decide (class ∈ [ClassAuth; ClassNotFound; ClassUnsupported]) then AttemptsTerminal
  else if bool_decide (class = ClassIntegrity) then AttemptsIntegrity
  else AttemptsTransient.

(* -------------------------------------------------------------------- *)
(** ** Lemmas *)

Lemma policy_cap_pos p : 0 < policy_cap p.
Proof. unfold policy_cap. case_bool_decide; [done|lia]. Qed.

Lemma policy_cap_int64 p : policy_ok p → is_int64 (policy_cap p).
Proof. intros [_ Hc]. unfold policy_cap. by case_bool_decide. Qed.

Lemma ceiling_bounds p n : 0 < ceiling p n ≤ policy_cap p.
Proof.
  pose proof (policy_cap_pos p). unfold ceiling.
  repeat case_bool_decide; lia.
Qed.

Lemma Int64N_range draw n d : Int64N draw n = Some d → 0 ≤ d < n.
Proof.
  unfold Int64N. case_bool_decide; [|done]. intros [= <-].
  by apply Z.mod_pos_bound.
Qed.

Lemma Delay_ceiling p n draw :
  policy_ok p → policy_cap p < two63 - 1 →
  Delay p n draw = Some (draw mod (ceiling p n + 1)).
Proof.
  intros Hp Hcap. pose proof (ceiling_bounds p n) as Hc.
  unfold Delay, Int64N. rewrite wrap64_id by (unfold is_int64, two63 in *; lia).
  rewrite bool_decide_eq_true_2 by lia. done.
Qed.

Definition zero_ceilings_match : bool :=
  forallb (λ n, bool_decide (ceiling (mkPolicy 0 0) (Z.of_nat n)
                 = Z.min (2 ^ Z.of_nat n * Second) DefaultCap)) (seq 0 62).

Lemma zero_ceilings_ok : zero_ceilings_match = true.
Proof. by vm_compute. Qed.

(** base << n is computed in 64 bits and wraps from n = 34 on; the default
    ceiling is the unbounded one all the same. *)
Lemma zero_ceiling n :
  ceiling (mkPolicy 0 0) n = Z.min (2 ^ Z.max n 0 * Second) DefaultCap.
Proof.
  destruct (decide (n < 62)) as [Hlt|Hge].
  - assert (ceiling (mkPolicy 0 0) n = ceiling (mkPolicy 0 0) (Z.max n 0)) as ->.
    { unfold ceiling. assert ((if bool_decide (n < 0) then 0 else n) =
        (if bool_decide (Z.max n 0 < 0) then 0 else Z.max n 0)) as ->; [|done].
      repeat case_bool_decide; lia. }
    pose proof zero_ceilings_ok as Hall. unfold zero_ceilings_match in Hall.
    rewrite forallb_forall in Hall.
    specialize (Hall (Z.to_nat (Z.max n 0))).
    rewrite Z2Nat.id in Hall by lia. apply (bool_decide_eq_true_1 _), Hall.
    apply in_seq. lia.
  - rewrite Z.max_l by lia. unfold ceiling.
    rewrite (bool_decide_eq_false_2 (n < 0)) by lia.
    rewrite bool_decide_eq_false_2 by lia.
    assert (2 ^ 62 ≤ 2 ^ n) by (apply Z.pow_le_mono_r; lia).
    change (policy_cap (mkPolicy 0 0)) with DefaultCap.
    assert (DefaultCap ≤ 2 ^ n * Second); [|lia].
    transitivity (2 ^ 62 * Second); [by vm_compute|]. unfold Second. lia.
Qed.

Lemma retryDelay_bounds n draw : 0 ≤ retryDelay n draw ≤ ceiling (mkPolicy 0 0) n.
Proof.
  unfold retryDelay.
  rewrite Delay_ceiling by (unfold policy_ok, is_int64, two63, policy_cap; simpl; split; by vm_compute).
  simpl. pose proof (ceiling_bounds (mkPolicy 0 0) n).
  pose proof (Z.mod_pos_bound draw (ceiling (mkPolicy 0 0) n + 1)). lia.
Qed.

Lemma retryDelay_cap n draw : 0 ≤ retryDelay n draw ≤ DefaultCap.
Proof. pose proof (retryDelay_bounds n draw). rewrite zero_ceiling in *. lia. Qed.

(* -------------------------------------------------------------------- *)
(** ** Properties *)

(** backoff.go [Policy.Delay]: for every policy whose cap is below the
    largest int64, the delay exists for every attempt and every draw, lies
    between 0 and the attempt's ceiling, never exceeds the cap, and every
    value of the interval is produced by some draw (full jitter). *)
Theorem Delay_full_jitter p n :
  policy_ok p → policy_cap p < two63 - 1 →
  (∀ draw, ∃ d, Delay p n draw = Some d ∧ 0 ≤ d ≤ ceiling p n ∧ d ≤ policy_cap p) ∧
  (∀ d, 0 ≤ d ≤ ceiling p n → ∃ draw, Delay p n draw = Some d).
Proof.
  intros Hp Hcap. pose proof (ceiling_bounds p n) as Hc. split.
  - intros draw. rewrite Delay_ceiling by done. eexists. split; [done|].
    pose proof (Z.mod_pos_bound draw (ceiling p n + 1)). lia.
  - intros d Hd. exists d. rewrite Delay_ceiling by done.
    rewrite Z.mod_small by lia. done.
Qed.

Lemma Delay_full_jitter_witness :
  policy_ok (mkPolicy Second Minute) ∧
  ∃ draw, Delay (mkPolicy Second Minute) 3 draw = Some (8 * Second).
Proof.
  assert (policy_ok (mkPolicy Second Minute)) as Hp
  by (repeat split; vm_compute; first [discriminate|reflexivity]).
  split; [exact Hp|].
  destruct (Delay_full_jitter (mkPolicy Second Minute) 3 Hp) as [_ Hd]; [vm_compute; reflexivity|].
  apply Hd. vm_compute. split; discriminate.
Defined.

(** backoff.go and store.retryDelay: with the default policy the ceiling
    of attempt n is min(1s * 2^n, 5m) for every n (a negative n counts as
    zero), although base << n is computed in 64 bits and wraps from n = 34
    on; so every retry of the queue waits at most five minutes. *)
Theorem default_ceiling n draw :
  ceiling (mkPolicy 0 0) n = Z.min (2 ^ Z.max n 0 * Second) DefaultCap ∧
  0 ≤ retryDelay n draw ≤ Z.min (2 ^ Z.max n 0 * Second) DefaultCap.
Proof. rewrite <-zero_ceiling. split; [done|apply retryDelay_bounds]. Qed.

(** backoff.go [Policy.Delay]: the guard [scaled > 0 && scaled < max]
    does not exclude every wrapped product.  A base of 2^38+1 ns (about 275 s)
    under the default five-minute cap has, at attempt 26, a ceiling of 2^26 ns
    (67 ms) - the top bits of the shifted base are lost and the remainder is a
    small positive number. *)
Theorem ceiling_wraps_to_small :
  ∃ p n, policy_ok p ∧ Base p < policy_cap p ∧ n < 62 ∧
    ceiling p n < Base p ∧ ceiling p n = 2 ^ n.
Proof.
  exists (mkPolicy (2 ^ 38 + 1) DefaultCap), 26.
  repeat split; by vm_compute.
Qed.

(** engine.go [MaxAttemptsFor]: every class gets between one and eight
    attempts; exactly the terminal classes (configuration, auth, not_found,
    unsupported) get one and exactly the integrity class gets two. *)
Theorem MaxAttemptsFor_table class :
  1 ≤ MaxAttemptsFor class ≤ 8 ∧
  (MaxAttemptsFor class = 1 ↔
     class ∈ [ClassConfiguration; ClassAuth; ClassNotFound; ClassUnsupported]) ∧
  (MaxAttemptsFor class = 2 ↔ class = ClassIntegrity).
Proof.
  unfold MaxAttemptsFor, AttemptsTransient, AttemptsIntegrity, AttemptsTerminal.
  repeat case_bool_decide; simplify_eq; set_solver by lia.
Qed.
