(* ===== verification/Schema.v ===== *)
(** * The tables of the queue

    db/migrations (the columns), internal/store: the rows the queue's SQL reads
    and writes.  A table is a [gmap] from its primary key; a nullable column is
    an [option]; a TEXT column with a CHECK over a fixed vocabulary is the
    inductive type of that vocabulary.  Timestamps and durations are [Z]
    nanoseconds, and every statement of one operation reads the clock as the
    operation's [now] argument.  JSON columns hold their decoded value. *)

From S2P Require Import Prelude StateMachine.
Open Scope Z_scope.

Inductive Kind := KBlob | KManifest.

#[export] Instance Kind_eq_dec : EqDecision Kind.
Proof. solve_decision. Defined.

#[export] Instance Kind_countable : Countable Kind.
Proof.
  apply (inj_countable' (λ k, match k with KBlob => true | KManifest => false end)
    (λ b : bool, if b then KBlob else KManifest)). by intros [].
Defined.

#[export] Instance Kind_spelled : Spelled Kind := λ k,
  match k with KBlob => "blob" | KManifest => "manifest" end.

(** jobs *)
Record job := mkJob {
  j_transfer : string;
  j_kind : Kind;
  j_digest : string;
  j_size : Z;
  j_media_type : option string;
  j_artifact : option Z;
  j_source_repo : Z;
  j_target_repo : Z;
  j_state : JobState;
  j_skip_reason : option string;
  j_wave : Z;
  j_priority : Z;
  j_paused : bool;
  j_attempts : Z;
  j_max_attempts : Z;
  j_next_visible : Z;
  j_last_error : option string;
  j_last_error_class : option string;
  j_lease_owner : option string;
  j_lease_expires : option Z;
  j_bytes : Z;
  j_started : option Z;
  j_completed : option Z;
  j_updated : Z;
  j_site_rank : Z;
  j_repair_level : Z;
  j_target_tags : list string;
  j_target_repository : option string }.

#[export] Instance job_eta : Eta job := λ r,
  mkJob (j_transfer r) (j_kind r) (j_digest r) (j_size r) (j_media_type r) (j_artifact r)
    (j_source_repo r) (j_target_repo r) (j_state r) (j_skip_reason r) (j_wave r)
    (j_priority r) (j_paused r) (j_attempts r) (j_max_attempts r) (j_next_visible r)
    (j_last_error r) (j_last_error_class r) (j_lease_owner r) (j_lease_expires r)
    (j_bytes r) (j_started r) (j_completed r) (j_updated r) (j_site_rank r)
    (j_repair_level r) (j_target_tags r) (j_target_repository r).

(** transfers *)
Record transfer := mkTransfer {
  t_request : string;
  t_package : Z;
  t_source_repo : Z;
  t_target_repo : Z;
  t_state : TransferState;
  t_priority : Z;
  t_current_wave : Z;
  t_max_wave : Z;
  t_planned_jobs : Z;
  t_planned_bytes : Z;
  t_dedupe_bytes : Z;
  t_mountable_bytes : Z;
  t_failure_reason : option string;
  t_started : option Z;
  t_completed : option Z;
  t_created : Z;
  t_updated : Z;
  t_step_index : Z;
  t_depends_on : option string;
  t_auto_retries : Z;
  t_active : Z;
  t_last_active : option Z;
  t_strategy : string }.

#[export] Instance transfer_eta : Eta transfer := λ r,
  mkTransfer (t_request r) (t_package r) (t_source_repo r) (t_target_repo r) (t_state r)
    (t_priority r) (t_current_wave r) (t_max_wave r) (t_planned_jobs r)
    (t_planned_bytes r) (t_dedupe_bytes r) (t_mountable_bytes r) (t_failure_reason r)
    (t_started r) (t_completed r) (t_created r) (t_updated r) (t_step_index r)
    (t_depends_on r) (t_auto_retries r) (t_active r) (t_last_active r) (t_strategy r).

(** transfer_requests *)
Record request := mkRequest {
  r_product : Z;
  r_package : Z;
  r_operation : string;
  r_source_repo : Z;
  r_priority : Z;
  r_key : string;
  r_requested_by : string;
  r_origin : string;
  r_auto_rule : option string;
  r_state : string;
  r_created : Z;
  r_updated : Z }.

#[export] Instance request_eta : Eta request := λ r,
  mkRequest (r_product r) (r_package r) (r_operation r) (r_source_repo r) (r_priority r)
    (r_key r) (r_requested_by r) (r_origin r) (r_auto_rule r) (r_state r) (r_created r)
    (r_updated r).

(** repositories *)
Record repository := mkRepository {
  rp_product : Z;
  rp_name : string;
  rp_host : string;
  rp_path : string;
  rp_type : string;
  rp_role : string }.

(** blob_placements *)
Record placement := mkPlacement {
  bp_size : Z;
  bp_source : string;
  bp_verified : Z }.

#[export] Instance placement_eta : Eta placement := λ r,
  mkPlacement (bp_size r) (bp_source r) (bp_verified r).

(** workers *)
Record worker := mkWorker {
  w_version : string;
  w_max_concurrency : Z;
  w_active_jobs : Z;
  w_heartbeat : Z;
  w_state : string }.

#[export] Instance worker_eta : Eta worker := λ r,
  mkWorker (w_version r) (w_max_concurrency r) (w_active_jobs r) (w_heartbeat r) (w_state r).

(** promotions, one per transfer *)
Inductive PromotionState := PromotionRequested | PromotionRunning | PromotionSucceeded | PromotionFailed.

#[export] Instance PromotionState_eq_dec : EqDecision PromotionState.
Proof. solve_decision. Defined.

Record promotion := mkPromotion {
  pm_transfer : string;
  pm_promoter : string;
  pm_state : PromotionState;
  pm_names_total : Z;
  pm_names_done : Z;
  pm_attempts : Z;
  pm_last_error : string;
  pm_claimed_by : string;
  pm_heartbeat : option Z;
  pm_requested : Z;
  pm_started : option Z;
  pm_finished : option Z;
  pm_updated : Z }.

#[export] Instance promotion_eta : Eta promotion := λ r,
  mkPromotion (pm_transfer r) (pm_promoter r) (pm_state r) (pm_names_total r)
    (pm_names_done r) (pm_attempts r) (pm_last_error r) (pm_claimed_by r)
    (pm_heartbeat r) (pm_requested r) (pm_started r) (pm_finished r) (pm_updated r).

(** promotion_names, keyed by (promotion_id, position) *)
Inductive NameState := NamePending | NamePromotedS | NameFailedS.

#[export] Instance NameState_eq_dec : EqDecision NameState.
Proof. solve_decision. Defined.

Record promotion_name := mkPromotionName {
  pn_repository : string;
  pn_tag : string;
  pn_digest : string;
  pn_state : NameState;
  pn_last_error : string;
  pn_promoted_at : option Z }.

#[export] Instance promotion_name_eta : Eta promotion_name := λ r,
  mkPromotionName (pn_repository r) (pn_tag r) (pn_digest r) (pn_state r) (pn_last_error r)
    (pn_promoted_at r).

(** The database. [artifact_blobs] is the projection of that table on
    (artifact_id, digest). *)
Record DB := mkDB {
  jobs : gmap Z job;
  transfers : gmap string transfer;
  requests : gmap string request;
  dependencies : gset (Z * Z);
  placements : gmap (Z * string) placement;
  blobs : gmap string Z;
  artifact_blobs : gset (Z * string);
  repositories : gmap Z repository;
  products : gmap Z string;
  workers : gmap string worker;
  promotions : gmap Z promotion;
  promotion_names : gmap (Z * Z) promotion_name }.

#[export] Instance DB_eta : Eta DB := λ d,
  mkDB (jobs d) (transfers d) (requests d) (dependencies d) (placements d) (blobs d)
    (artifact_blobs d) (repositories d) (products d) (workers d) (promotions d)
    (promotion_names d).

Definition empty_db : DB := mkDB ∅ ∅ ∅ ∅ ∅ ∅ ∅ ∅ ∅ ∅ ∅ ∅.

(* -------------------------------------------------------------------- *)
(** ** Clauses the statements share *)

(** [transfer_id = t AND state IN (sts)] *)
Definition job_of (t : string) (sts : list JobState) (_ : Z) (j : job) : bool :=
  bool_decide (j_transfer j = t) && bool_decide (j_state j ∈ sts).

(** [state IN ('pending','blocked','leased')]: work that can still move. *)
Definition outstanding : list JobState := [JobPending; JobBlocked; JobLeased].

(** [state IN ('succeeded','skipped')]: the content is at the destination. *)
Definition satisfied (s : JobState) : bool :=
  match s with JobSucceeded | JobSkipped => true | _ => false end.

Definition job_state_terminal (s : JobState) : bool :=
  match s with JobSucceeded | JobSkipped | JobFailed | JobCancelled => true | _ => false end.

Definition update_jobs (p : Z → job → bool) (f : Z → job → job) (db : DB) : DB :=
  db <| jobs ::= update_where p f |>.

Definition update_transfers (p : string → transfer → bool) (f : string → transfer → transfer)
    (db : DB) : DB :=
  db <| transfers ::= update_where p f |>.

(** [UPDATE transfers SET f WHERE id = t] *)
Definition update_transfer (t : string) (f : transfer → transfer) (db : DB) : DB :=
  update_transfers (λ i _, bool_decide (i = t)) (λ _, f) db.

(** [UPDATE jobs SET f WHERE id = id] *)
Definition update_job (id : Z) (f : job → job) (db : DB) : DB :=
  update_jobs (λ i _, bool_decide (i = id)) (λ _, f) db.

(** [SELECT MIN(wave) FROM jobs WHERE p] *)
Definition min_wave (p : Z → job → bool) (db : DB) : option Z :=
  foldr (λ r m, Some (match m with None => j_wave r.2 | Some w => Z.min (j_wave r.2) w end)) None
    (select_where p (jobs db)).

(** Two repositories on one registry under one product. *)
Definition same_registry (db : DB) (a b : Z) : bool :=
  match repositories db !! a, repositories db !! b with
  | Some ra, Some rb =>
      bool_decide (rp_host ra = rp_host rb) && bool_decide (rp_product ra = rp_product rb)
  | _, _ => false
  end.

(** [EXISTS (SELECT 1 FROM job_dependencies o JOIN jobs dep ON
    dep.id = o.depends_on_id WHERE o.job_id = id AND q dep)] *)
Definition exists_dependency (db : DB) (id : Z) (q : job → bool) : bool :=
  existsb (λ e : Z * Z, bool_decide (e.1 = id) &&
    match jobs db !! e.2 with Some dep => q dep | None => false end)
    (elements (dependencies db)).

(* -------------------------------------------------------------------- *)
(** ** Lemmas *)

Lemma min_wave_spec p db :
  match min_wave p db with
  | None => ∀ i j, jobs db !! i = Some j → p i j = false
  | Some w => (∃ i j, jobs db !! i = Some j ∧ p i j = true ∧ j_wave j = w) ∧
              ∀ i j, jobs db !! i = Some j → p i j = true → w ≤ j_wave j
  end.
Proof.
  unfold min_wave. pose proof (elem_of_select_where p (jobs db)) as Hin. revert Hin.
  generalize (select_where p (jobs db)) as l. intros l Hin.
  assert (match foldr (λ (r : Z * job) m, Some (match m with None => j_wave r.2 | Some w => Z.min (j_wave r.2) w end))
      None l with
    | None => l = []
    | Some w => (∃ r, r ∈ l ∧ j_wave r.2 = w) ∧ ∀ r, r ∈ l → w ≤ j_wave r.2 end) as Hmin.
  { clear. induction l as [|[i j] l IH]; [done|]. simpl.
    setoid_rewrite elem_of_cons. destruct (foldr _ None l) as [w|].
    - destruct IH as [(r & Hr & Hw) IH]. split.
      + destruct (Z.min_spec (j_wave j) w) as [[_ ->]|[_ ->]]; eauto.
      + intros r' [->|Hr']; simpl; [lia|]. specialize (IH _ Hr'). lia.
    - subst l. split; [by eauto|]. intros r [->|[]%elem_of_nil]. simpl. lia. }
  destruct (foldr _ None l) as [w|].
  - destruct Hmin as [([i j] & Hij%Hin & Hw) Hmin]. split; [naive_solver|].
    intros i' j' Hj' Hp. by apply (Hmin (i', j')), Hin.
  - subst l. intros i j Hj. apply not_true_is_false. intros Hp.
    by destruct (not_elem_of_nil (i, j)); apply Hin.
Qed.

Lemma exists_dependency_true db id q :
  exists_dependency db id q = true ↔
  ∃ d dep, (id, d) ∈ dependencies db ∧ jobs db !! d = Some dep ∧ q dep = true.
Proof.
  unfold exists_dependency. rewrite existsb_exists. split.
  - intros ([i d] & Hin%list_elem_of_In & [Hi Hq]%andb_true_iff); simpl in *.
    apply bool_decide_eq_true in Hi as ->. apply elem_of_elements in Hin.
    destruct (jobs db !! d) as [dep|] eqn:Hd; [|done]. eauto.
  - intros (d & dep & Hin & Hd & Hq). exists (id, d). split.
    + by apply list_elem_of_In, elem_of_elements.
    + simpl. by rewrite bool_decide_eq_true_2, Hd.
Qed.

Lemma exists_dependency_false db id q :
  exists_dependency db id q = false ↔
  ∀ d dep, (id, d) ∈ dependencies db → jobs db !! d = Some dep → q dep = false.
Proof.
  split.
  - intros He d dep Hin Hd. apply not_true_is_false. intros Hq.
    apply not_true_iff_false in He. apply He, exists_dependency_true. eauto.
  - intros Hall. apply not_true_is_false.
    intros (d & dep & Hin & Hd & Hq)%exists_dependency_true.
    by rewrite (Hall d dep) in Hq.
Qed.

Lemma job_of_true t sts i j :
  job_of t sts i j = true ↔ j_transfer j = t ∧ j_state j ∈ sts.
Proof. unfold job_of. by rewrite andb_true_iff, !bool_decide_eq_true. Qed.

Lemma job_of_false t sts i j :
  job_of t sts i j = false ↔ (j_transfer j = t → j_state j ∉ sts).
Proof.
  rewrite <-not_true_iff_false, job_of_true. tauto.
Qed.

Lemma satisfied_true s : satisfied s = true ↔ s = JobSucceeded ∨ s = JobSkipped.
Proof. destruct s; naive_solver. Qed.

Lemma jobs_update_jobs p f db : jobs (update_jobs p f db) = update_where p f (jobs db).
Proof. done. Qed.

Lemma transfers_update_jobs p f db : transfers (update_jobs p f db) = transfers db.
Proof. done. Qed.

Lemma jobs_update_transfer t f db : jobs (update_transfer t f db) = jobs db.
Proof. done. Qed.

Lemma lookup_update_transfer t f db i :
  transfers (update_transfer t f db) !! i =
  (if bool_decide (i = t) then f else id) <$> transfers db !! i.
Proof.
  simpl. rewrite lookup_update_where. destruct (transfers db !! i); simpl; [|done].
  by case_bool_decide.
Qed.

Lemma lookup_update_transfer_eq t f db r :
  transfers db !! t = Some r → transfers (update_transfer t f db) !! t = Some (f r).
Proof. intros Ht. by rewrite lookup_update_transfer, Ht, bool_decide_eq_true_2. Qed.

Lemma lookup_update_transfer_ne t f db i :
  i ≠ t → transfers (update_transfer t f db) !! i = transfers db !! i.
Proof.
  intros Hne. rewrite lookup_update_transfer, bool_decide_eq_false_2 by done.
  by destruct (transfers db !! i).
Qed.

Lemma lookup_update_jobs p f db i :
  jobs (update_jobs p f db) !! i = (λ j, if p i j then f i j else j) <$> jobs db !! i.
Proof. simpl. apply lookup_update_where. Qed.

Lemma lookup_update_job id f db i :
  jobs (update_job id f db) !! i = (λ j, if bool_decide (i = id) then f j else j) <$> jobs db !! i.
Proof. unfold update_job. by rewrite lookup_update_jobs. Qed.

Lemma lookup_update_job_eq id f db j :
  jobs db !! id = Some j → jobs (update_job id f db) !! id = Some (f j).
Proof. intros Hj. rewrite lookup_update_job, Hj. simpl. by rewrite bool_decide_eq_true_2. Qed.

Lemma lookup_update_job_ne id f db i :
  i ≠ id → jobs (update_job id f db) !! i = jobs db !! i.
Proof.
  intros Hne. rewrite lookup_update_job, bool_decide_eq_false_2 by done.
  by destruct (jobs db !! i).
Qed.

Lemma update_jobs_none p f db :
  (∀ i j, jobs db !! i = Some j → p i j = false) → update_jobs p f db = db.
Proof. intros Hp. unfold update_jobs. simpl. rewrite update_where_none by done. by destruct db. Qed.

Lemma lookup_update_jobs_Some p f db i j' :
  jobs (update_jobs p f db) !! i = Some j' ↔
  ∃ j, jobs db !! i = Some j ∧ j' = if p i j then f i j else j.
Proof. simpl. apply lookup_update_where_Some. Qed.

(** The ordering of kinds the dequeue relies on is the ordering of their
    spellings: 'manifest' > 'blob'. *)
Lemma kind_spelling_order : String.ltb (spell KBlob) (spell KManifest) = true.
Proof. reflexivity. Qed.

(* -------------------------------------------------------------------- *)
(** ** Row-wise relations between two versions of a table

    [rows R m m']: the two tables have the same keys, and each row went from
    its old value to its new one by [R].  The statements of an operation
    compose when [R] does. *)

Section rows.
Context {K V : Type} `{Countable K}.
Implicit Types (R : K → V → V → Prop) (m : gmap K V).

Definition rows R m m' : Prop := ∀ k, option_Forall2 (R k) (m !! k) (m' !! k).

Lemma rows_lookup R m m' k v :
  rows R m m' → m !! k = Some v → ∃ v', m' !! k = Some v' ∧ R k v v'.
Proof. intros Hr Hk. specialize (Hr k). rewrite Hk in Hr. inv Hr; eauto. Qed.

Lemma rows_lookup_new R m m' k v' :
  rows R m m' → m' !! k = Some v' → ∃ v, m !! k = Some v ∧ R k v v'.
Proof. intros Hr Hk. specialize (Hr k). rewrite Hk in Hr. inv Hr; eauto. Qed.

#[export] Instance rows_preorder R : (∀ k, PreOrder (R k)) → PreOrder (rows R).
Proof.
  intros HR. split.
  - intros m k. destruct (m !! k); constructor. reflexivity.
  - intros m1 m2 m3 H12 H23 k. specialize (H12 k). specialize (H23 k).
    destruct (m1 !! k), (m2 !! k), (m3 !! k); inv H12; inv H23; constructor. by etrans.
Qed.

Lemma rows_update R p f m `{!∀ k, Reflexive (R k)} :
  (∀ k v, m !! k = Some v → p k v = true → R k v (f k v)) →
  rows R m (update_where p f m).
Proof.
  intros Hp k. rewrite lookup_update_where.
  destruct (m !! k) as [v|] eqn:Hk; constructor.
  destruct (p k v) eqn:E; [by apply Hp|reflexivity].
Qed.

Lemma rows_mono R R' m m' :
  (∀ k v v', m !! k = Some v → R k v v' → R' k v v') → rows R m m' → rows R' m m'.
Proof.
  intros Himp Hr k. specialize (Hr k). destruct (m !! k) eqn:E; inv Hr; constructor. eauto.
Qed.

Lemma rows_exists p R m m' :
  (∀ k v v', R k v v' → p k v = true → p k v' = true) →
  rows R m m' → exists_where p m = true → exists_where p m' = true.
Proof.
  intros Hp Hr (k & v & Hk & Hv)%exists_where_true.
  destruct (rows_lookup _ _ _ _ _ Hr Hk) as (v' & Hk' & HR).
  apply exists_where_true. eauto.
Qed.
End rows.

(* -------------------------------------------------------------------- *)
(** ** Rows for the examples *)

Definition example_job (t : string) (k : Kind) (digest : string) (st : JobState) (wave : Z) : job :=
  {| j_transfer := t; j_kind := k; j_digest := digest; j_size := 10; j_media_type := None;
     j_artifact := None; j_source_repo := 1; j_target_repo := 2; j_state := st;
     j_skip_reason := None; j_wave := wave; j_priority := 500; j_paused := false;
     j_attempts := 0; j_max_attempts := 8; j_next_visible := 0; j_last_error := None;
     j_last_error_class := None; j_lease_owner := None; j_lease_expires := None;
     j_bytes := 0; j_started := None; j_completed := None; j_updated := 0;
     j_site_rank := 0; j_repair_level := 0; j_target_tags := []; j_target_repository := None |}.

Definition example_transfer (st : TransferState) (max_wave : Z) : transfer :=
  {| t_request := "r"; t_package := 1; t_source_repo := 1; t_target_repo := 2; t_state := st;
     t_priority := 500; t_current_wave := 0; t_max_wave := max_wave; t_planned_jobs := 0;
     t_planned_bytes := 0; t_dedupe_bytes := 0; t_mountable_bytes := 0;
     t_failure_reason := None; t_started := None; t_completed := None; t_created := 0;
     t_updated := 0; t_step_index := 0; t_depends_on := None; t_auto_retries := 0;
     t_active := 0; t_last_active := None; t_strategy := "" |}.

Definition example_db (js : list (Z * job)) (ts : list (string * transfer)) : DB :=
  empty_db <| jobs := list_to_map js |> <| transfers := list_to_map ts |>
    <| repositories := list_to_map
         [(1, mkRepository 1 "vendor" "vendor.example" "a" "oci" "source");
          (2, mkRepository 1 "dest" "dest.example" "b" "oci" "destination")] |>.
