(* ===== verification/Dependencies.v ===== *)
(** * Per-artifact readiness

    internal/store/dependencies.go: the edges a plan records, the promotion of
    jobs whose dependencies are satisfied, the cascade that fails jobs which
    can never run, and its reversal by a retry. *)

From S2P Require Import Prelude StateMachine Schema.
Open Scope Z_scope.

(* -------------------------------------------------------------------- *)
(** ** Operations *)

Record JobEdge := mkJobEdge { JobID : Z; DependsOnID : Z }.

Definition edge_skipped (e : JobEdge) : bool :=
  bool_decide (JobID e = 0 ∨ DependsOnID e = 0 ∨ JobID e = DependsOnID e).

(** One INSERT ... ON CONFLICT DO NOTHING of a batch's kept edges. *)
Definition add_batch (batch : list JobEdge) (db : DB) : DB :=
  foldl (λ db e, if edge_skipped e then db
                 else db <| dependencies ::= union {[(JobID e, DependsOnID e)]} |>) db batch.

Definition perBatch : nat := 500.

(** The batching loop; [fuel] is the number of edges, one batch consumes at
    least one of them. *)
Fixpoint add_batches (fuel : nat) (edges : list JobEdge) (db : DB) : DB :=
  match fuel, edges with
  | S fuel, _ :: _ => add_batches fuel (drop perBatch edges) (add_batch (take perBatch edges) db)
  | _, _ => db
  end.

Definition AddJobDependencies (edges : list JobEdge) (db : DB) : DB :=
  add_batches (length edges) edges db.

(** [NOT EXISTS (... dep.state NOT IN ('succeeded','skipped'))] *)
Definition dependencies_satisfied (db : DB) (id : Z) : bool :=
  negb (exists_dependency db id (λ dep, negb (satisfied (j_state dep)))).

Definition set_pending (now : Z) (_ : Z) (j : job) : job :=
  j <| j_state := JobPending |> <| j_updated := now |>.

Definition dependent_ready (db : DB) (jobID : Z) (id : Z) (j : job) : bool :=
  bool_decide (j_state j = JobBlocked) &&
  bool_decide ((id, jobID) ∈ dependencies db) &&
  dependencies_satisfied db id.

Definition PromoteDependents (now : Z) (jobID : Z) (db : DB) : DB * nat :=
  let p := dependent_ready db jobID in
  (update_jobs p (set_pending now) db, count_where p (jobs db)).

Definition ready_with_edges (db : DB) (t : string) (id : Z) (j : job) : bool :=
  job_of t [JobBlocked] id j &&
  bool_decide (Exists (λ e, e.1 = id) (elements (dependencies db))) &&
  dependencies_satisfied db id.

Definition PromoteReadyJobs (now : Z) (t : string) (db : DB) : DB * nat :=
  let p := ready_with_edges db t in
  (update_jobs p (set_pending now) db, count_where p (jobs db)).

Definition maxCascadeDepth : nat := 32.

Definition ClassDependency : string := "dependency".

Definition unreachable (db : DB) (t : string) (id : Z) (j : job) : bool :=
  job_of t [JobBlocked] id j &&
  exists_dependency db id (λ dep, bool_decide (j_state dep = JobFailed)).

Definition fail_by_dependency (now : Z) (_ : Z) (j : job) : job :=
  j <| j_state := JobFailed |>
    <| j_last_error := Some "a dependency of this job failed permanently" |>
    <| j_last_error_class := Some ClassDependency |>
    <| j_completed := Some now |>
    <| j_updated := now |>.

(** One UPDATE of the sweep: the database after it and the rows it changed. *)
Definition cascade_step (now : Z) (t : string) (db : DB) : DB * nat :=
  let p := unreachable db t in
  (update_jobs p (fail_by_dependency now) db, count_where p (jobs db)).

Fixpoint cascade (depth : nat) (now : Z) (t : string) (db : DB) (total : nat) : DB * nat :=
  match depth with
  | O => (db, total)
  | S depth =>
      let '(db', n) := cascade_step now t db in
      if bool_decide (n = O) then (db', total)
      else cascade depth now t db' (total + n)
  end.

Definition FailUnreachableJobs (now : Z) (t : string) (db : DB) : DB * nat :=
  cascade maxCascadeDepth now t db 0.

Definition failed_by_dependency (t : string) (id : Z) (j : job) : bool :=
  job_of t [JobFailed] id j && bool_decide (j_last_error_class j = Some ClassDependency).

Definition clear_failure (now : Z) (_ : Z) (j : job) : job :=
  j <| j_state := JobBlocked |>
    <| j_attempts := 0 |>
    <| j_last_error := None |>
    <| j_last_error_class := None |>
    <| j_completed := None |>
    <| j_updated := now |>.

Definition ClearDependencyFailures (now : Z) (t : string) (db : DB) : DB * nat :=
  let p := failed_by_dependency t in
  (update_jobs p (clear_failure now) db, count_where p (jobs db)).

(* -------------------------------------------------------------------- *)
(** ** The meaning of the clauses *)

(** Every recorded dependency of [id] that is a row of the table has its
    content at the destination. *)
Definition all_satisfied (db : DB) (id : Z) : Prop :=
  ∀ d dep, (id, d) ∈ dependencies db → jobs db !! d = Some dep →
    satisfied (j_state dep) = true.

Lemma dependencies_satisfied_true db id :
  dependencies_satisfied db id = true ↔ all_satisfied db id.
Proof.
  unfold dependencies_satisfied, all_satisfied.
  rewrite negb_true_iff, exists_dependency_false.
  setoid_rewrite negb_false_iff. done.
Qed.

(** The jobs the cascade is to fail: blocked jobs of the transfer with a path
    of blocked jobs of the transfer down to a failed dependency. *)
Inductive doomed (db : DB) (t : string) : Z → Prop :=
  | doomed_here id j d dep :
      jobs db !! id = Some j → j_transfer j = t → j_state j = JobBlocked →
      (id, d) ∈ dependencies db → jobs db !! d = Some dep → j_state dep = JobFailed →
      doomed db t id
  | doomed_below id j d :
      jobs db !! id = Some j → j_transfer j = t → j_state j = JobBlocked →
      (id, d) ∈ dependencies db → doomed db t d →
      doomed db t id.

(** Every edge goes to a job of a strictly lower, non-negative wave, as the
    planner numbers them. *)
Definition stratified (db : DB) : Prop :=
  ∀ id d j dep, (id, d) ∈ dependencies db →
    jobs db !! id = Some j → jobs db !! d = Some dep → 0 ≤ j_wave dep < j_wave j.

(** No blocked job of [t] has a failed dependency. *)
Definition cascade_complete (db : DB) (t : string) : Prop :=
  ∀ id j, jobs db !! id = Some j → unreachable db t id j = false.

Lemma unreachable_true db t id j :
  unreachable db t id j = true ↔
  j_transfer j = t ∧ j_state j = JobBlocked ∧
  ∃ d dep, (id, d) ∈ dependencies db ∧ jobs db !! d = Some dep ∧ j_state dep = JobFailed.
Proof.
  unfold unreachable. rewrite andb_true_iff, job_of_true, exists_dependency_true.
  setoid_rewrite bool_decide_eq_true. rewrite list_elem_of_singleton. tauto.
Qed.

(* -------------------------------------------------------------------- *)
(** ** Recording edges *)

Definition edge_pair (e : JobEdge) : Z * Z := (JobID e, DependsOnID e).

Lemma dependencies_add_batch batch db e :
  e ∈ dependencies (add_batch batch db) ↔
  e ∈ dependencies db ∨ ∃ x, x ∈ batch ∧ edge_skipped x = false ∧ edge_pair x = e.
Proof.
  unfold add_batch. revert db. induction batch as [|x batch IH]; intros db; simpl.
  - setoid_rewrite elem_of_nil. naive_solver.
  - rewrite IH. setoid_rewrite elem_of_cons. destruct (edge_skipped x) eqn:Hx; simpl.
    + naive_solver congruence.
    + rewrite elem_of_union, elem_of_singleton. unfold edge_pair at 2. naive_solver.
Qed.

Lemma add_batches_spec fuel edges db e :
  (length edges ≤ fuel)%nat →
  e ∈ dependencies (add_batches fuel edges db) ↔
  e ∈ dependencies db ∨ ∃ x, x ∈ edges ∧ edge_skipped x = false ∧ edge_pair x = e.
Proof.
  revert edges db. induction fuel as [|fuel IH]; intros edges db Hlen.
  - destruct edges; simpl in *; [|lia]. setoid_rewrite elem_of_nil. naive_solver.
  - destruct edges as [|x0 edges]; [simpl; setoid_rewrite elem_of_nil; naive_solver|].
    change (add_batches (S fuel) (x0 :: edges) db) with
      (add_batches fuel (drop perBatch (x0 :: edges)) (add_batch (take perBatch (x0 :: edges)) db)).
    rewrite IH, dependencies_add_batch.
    + assert (∀ x, x ∈ x0 :: edges ↔
        x ∈ take perBatch (x0 :: edges) ∨ x ∈ drop perBatch (x0 :: edges)) as Hsplit.
      { intros x. by rewrite <-elem_of_app, take_drop. }
      setoid_rewrite Hsplit. naive_solver.
    + rewrite length_drop. unfold perBatch. simpl in *. lia.
Qed.

Lemma add_batch_frame batch db :
  add_batch batch db = db <| dependencies := dependencies (add_batch batch db) |>.
Proof.
  unfold add_batch. revert db. induction batch as [|x batch IH]; intros db; [by destruct db|].
  simpl. destruct (edge_skipped x); [apply IH|]. rewrite IH at 1. done.
Qed.

Lemma add_batches_frame fuel edges db :
  add_batches fuel edges db = db <| dependencies := dependencies (add_batches fuel edges db) |>.
Proof.
  revert edges db. induction fuel as [|fuel IH]; intros edges db; [by destruct db|].
  destruct edges as [|x edges]; [by destruct db|].
  cbn [add_batches]. rewrite IH at 1. by rewrite add_batch_frame.
Qed.

Lemma AddJobDependencies_frame edges db :
  AddJobDependencies edges db =
  db <| dependencies := dependencies (AddJobDependencies edges db) |>.
Proof. apply add_batches_frame. Qed.

Lemma elem_of_AddJobDependencies edges db e :
  e ∈ dependencies (AddJobDependencies edges db) ↔
  e ∈ dependencies db ∨ ∃ x, x ∈ edges ∧ edge_skipped x = false ∧ edge_pair x = e.
Proof. by apply add_batches_spec. Qed.

(* -------------------------------------------------------------------- *)
(** ** Promotion *)

Lemma lookup_promote p now db id j' :
  jobs (update_jobs p (set_pending now) db) !! id = Some j' ↔
  ∃ j, jobs db !! id = Some j ∧
    j' = if p id j then set_pending now id j else j.
Proof. apply lookup_update_jobs_Some. Qed.

(** Promoting blocked rows satisfies and breaks nobody's dependencies. *)
Lemma promote_keeps_satisfied p now db id :
  (∀ i j, jobs db !! i = Some j → p i j = true → j_state j = JobBlocked) →
  all_satisfied (update_jobs p (set_pending now) db) id ↔ all_satisfied db id.
Proof.
  intros Hp. unfold all_satisfied. split; intros Hall d dep Hin Hd.
  - specialize (Hall d). setoid_rewrite lookup_promote in Hall.
    specialize (Hall (if p d dep then set_pending now d dep else dep) Hin
      (ex_intro _ dep (conj Hd eq_refl))).
    by destruct (p d dep).
  - apply lookup_promote in Hd as (j & Hj & ->).
    specialize (Hall d j Hin Hj). destruct (p d j) eqn:Hpd; [|done].
    by rewrite (Hp _ _ Hj Hpd) in Hall.
Qed.

Lemma dependent_ready_true db jobID id j :
  dependent_ready db jobID id j = true ↔
  j_state j = JobBlocked ∧ (id, jobID) ∈ dependencies db ∧ all_satisfied db id.
Proof.
  unfold dependent_ready.
  rewrite !andb_true_iff, !bool_decide_eq_true, dependencies_satisfied_true. tauto.
Qed.

Lemma ready_with_edges_true db t id j :
  ready_with_edges db t id j = true ↔
  j_transfer j = t ∧ j_state j = JobBlocked ∧
  (∃ d, (id, d) ∈ dependencies db) ∧ all_satisfied db id.
Proof.
  unfold ready_with_edges.
  rewrite !andb_true_iff, job_of_true, bool_decide_eq_true, dependencies_satisfied_true,
    list_elem_of_singleton, Exists_exists.
  assert ((∃ x : Z * Z, x ∈ elements (dependencies db) ∧ x.1 = id) ↔
    ∃ d, (id, d) ∈ dependencies db) as ->; [|tauto].
  setoid_rewrite elem_of_elements. split.
  - intros ([i d] & Hin & <-). eauto.
  - intros [d Hd]. by exists (id, d).
Qed.

(* -------------------------------------------------------------------- *)
(** ** The cascade *)

Lemma cascade_S depth now t db total :
  cascade (S depth) now t db total =
  (if bool_decide ((cascade_step now t db).2 = O) then ((cascade_step now t db).1, total)
   else cascade depth now t (cascade_step now t db).1 (total + (cascade_step now t db).2)).
Proof. reflexivity. Qed.

Lemma cascade_step_lookup now t db db' n id j' :
  cascade_step now t db = (db', n) →
  jobs db' !! id = Some j' ↔
  ∃ j, jobs db !! id = Some j ∧
    j' = if unreachable db t id j then fail_by_dependency now id j else j.
Proof. unfold cascade_step. intros [= <- _]. apply lookup_update_jobs_Some. Qed.

Lemma cascade_step_dependencies now t db db' n :
  cascade_step now t db = (db', n) → dependencies db' = dependencies db.
Proof. unfold cascade_step. by intros [= <- _]. Qed.

Lemma cascade_step_zero now t db db' :
  cascade_step now t db = (db', O) → db' = db ∧ cascade_complete db t.
Proof.
  unfold cascade_step. intros [= <- Hn]. split.
  - unfold update_jobs. simpl. rewrite update_where_count_zero by done. by destruct db.
  - unfold cascade_complete. by rewrite count_where_zero in Hn.
Qed.

(** The frame of the sweep: rows keep their identity, and a row either is
    unchanged or went from blocked to failed. *)
Definition cascade_frame (now : Z) (db db' : DB) (t : string) : Prop :=
  db' = db <| jobs := jobs db' |> ∧
  ∀ id, match jobs db !! id, jobs db' !! id with
        | None, None => True
        | Some j, Some j' => j' = j ∨ (doomed db t id ∧ j' = fail_by_dependency now id j)
        | _, _ => False
        end.

Lemma doomed_blocked db t id :
  doomed db t id → ∃ j, jobs db !! id = Some j ∧ j_transfer j = t ∧ j_state j = JobBlocked.
Proof. destruct 1; eauto. Qed.

Lemma unreachable_doomed db t id j :
  jobs db !! id = Some j → unreachable db t id j = true → doomed db t id.
Proof.
  intros Hj (Ht & Hs & d & dep & Hin & Hd & Hf)%unreachable_true.
  by eapply doomed_here.
Qed.

Lemma complete_not_doomed db t id : cascade_complete db t → ¬ doomed db t id.
Proof.
  intros Hc Hd. induction Hd as [id j d dep Hj Ht Hs Hin Hd Hf|]; [|done].
  assert (unreachable db t id j = true); [|by rewrite (Hc _ _ Hj) in *].
  apply unreachable_true. eauto 10.
Qed.

Section step.
Context (now : Z) (t : string) (db db' : DB) (n : nat).
Context (Hstep : cascade_step now t db = (db', n)).

Lemma step_doomed_back id : doomed db' t id → doomed db t id.
Proof using Hstep.
  pose proof (cascade_step_dependencies _ _ _ _ _ Hstep) as Hdeps.
  induction 1 as [id j' d dep' Hj Ht Hs Hin Hd Hf|id j' d Hj Ht Hs Hin _ IH];
    rewrite Hdeps in Hin; rewrite (cascade_step_lookup _ _ _ _ _ _ _ Hstep) in Hj;
    destruct Hj as (j & Hj & ->).
  - rewrite (cascade_step_lookup _ _ _ _ _ _ _ Hstep) in Hd.
    destruct Hd as (dep & Hd & ->).
    destruct (unreachable db t id j) eqn:Hu; [done|].
    destruct (unreachable db t d dep) eqn:Hud.
    + eapply doomed_below; eauto. by eapply unreachable_doomed.
    + by eapply doomed_here.
  - destruct (unreachable db t id j) eqn:Hu; [done|]. by eapply doomed_below.
Qed.

Lemma step_doomed_forth id :
  doomed db t id →
  doomed db' t id ∨
  ∃ j, jobs db !! id = Some j ∧ jobs db' !! id = Some (fail_by_dependency now id j).
Proof using Hstep.
  pose proof (cascade_step_dependencies _ _ _ _ _ Hstep) as Hdeps.
  intros Hd. induction Hd as [id j d dep Hj Ht Hs Hin Hd Hf|id j d Hj Ht Hs Hin Hd IH].
  - right. exists j. split; [done|]. rewrite (cascade_step_lookup _ _ _ _ _ _ _ Hstep).
    exists j. split; [done|]. rewrite (proj2 (unreachable_true db t id j)); eauto 10.
  - destruct (unreachable db t id j) eqn:Hu.
    { right. exists j. split; [done|]. rewrite (cascade_step_lookup _ _ _ _ _ _ _ Hstep).
      exists j. by rewrite Hu. }
    left. assert (jobs db' !! id = Some j) as Hj'.
    { rewrite (cascade_step_lookup _ _ _ _ _ _ _ Hstep). exists j. by rewrite Hu. }
    rewrite <-Hdeps in Hin.
    destruct IH as [IH|(dj & Hdj & Hdj')]; [by eapply doomed_below|].
    by eapply doomed_here.
Qed.
End step.

Lemma step_frame now t db db' n :
  cascade_step now t db = (db', n) → cascade_frame now db db' t.
Proof.
  intros Hstep. split; [unfold cascade_step in Hstep; by injection Hstep as <- _|]. intros id.
  destruct (jobs db !! id) as [j|] eqn:Hj, (jobs db' !! id) as [j'|] eqn:Hj'; [|..|done].
  - apply (cascade_step_lookup _ _ _ _ _ _ _ Hstep) in Hj' as (j0 & Hj0 & ->).
    simplify_eq. destruct (unreachable db t id j) eqn:Hu; [|by left].
    right. split; [by eapply unreachable_doomed|]. done.
  - assert (is_Some (jobs db' !! id)) as [? ?]; [|congruence].
    unfold cascade_step in Hstep. injection Hstep as <- _. apply update_where_is_Some. eauto.
  - apply (cascade_step_lookup _ _ _ _ _ _ _ Hstep) in Hj' as (j0 & Hj0 & _). congruence.
Qed.

Lemma cascade_frame_refl now db t : cascade_frame now db db t.
Proof. split; [by destruct db|]. intros id. destruct (jobs db !! id); auto. Qed.

Lemma cascade_frame_trans now t db db1 db2 n :
  cascade_step now t db = (db1, n) → cascade_frame now db1 db2 t → cascade_frame now db db2 t.
Proof.
  intros Hstep (Hd2 & Hf2). destruct (step_frame _ _ _ _ _ Hstep) as (Hd1 & Hf1).
  split; [rewrite Hd2, Hd1; done|]. intros id.
  specialize (Hf1 id). specialize (Hf2 id).
  destruct (jobs db !! id) as [j|] eqn:Hj, (jobs db1 !! id) as [j1|] eqn:Hj1,
    (jobs db2 !! id) as [j2|] eqn:Hj2; try done.
  destruct Hf2 as [->|[Hdm ->]]; [done|].
  right. split; [by eapply step_doomed_back|].
  destruct Hf1 as [->|[Hdm1 ->]]; [done|].
  apply doomed_blocked in Hdm as (j1 & Hj1' & _ & Hs). rewrite Hj1 in Hj1'.
  injection Hj1' as <-. done.
Qed.

Lemma cascade_is_frame depth now t db total db' m :
  cascade depth now t db total = (db', m) → cascade_frame now db db' t.
Proof.
  revert db total. induction depth as [|depth IH]; intros db total.
  - intros [= <- <-]. apply cascade_frame_refl.
  - rewrite cascade_S. destruct (cascade_step now t db) as [db1 n] eqn:Hstep.
    cbn [fst snd]. case_bool_decide as Hn.
    + intros [= <- <-]. by eapply step_frame.
    + intros Hc. refine (cascade_frame_trans _ _ _ _ _ _ Hstep _). exact (IH _ _ Hc).
Qed.

(** A doomed job is either failed by the sweeps or still doomed after them. *)
Lemma cascade_doomed_forth depth now t db total db' m id :
  cascade depth now t db total = (db', m) → doomed db t id →
  doomed db' t id ∨
  ∃ j, jobs db !! id = Some j ∧ jobs db' !! id = Some (fail_by_dependency now id j).
Proof.
  revert db total. induction depth as [|depth IH]; intros db total.
  - intros [= <- <-]. by left.
  - rewrite cascade_S. destruct (cascade_step now t db) as [db1 n] eqn:Hstep.
    cbn [fst snd]. case_bool_decide as Hn.
    { intros [= <- <-]. by apply step_doomed_forth with (1 := Hstep). }
    intros Hc Hd.
    destruct (step_doomed_forth _ _ _ _ _ Hstep _ Hd) as [Hd1|(j & Hj & Hj1)].
    + destruct (IH _ _ Hc Hd1) as [?|(j1 & Hj1 & Hj')]; [by left|].
      right. destruct (doomed_blocked _ _ _ Hd1) as (j1' & Hj1' & _ & Hs).
      destruct (step_frame _ _ _ _ _ Hstep) as [_ Hf]. specialize (Hf id).
      rewrite Hj1 in Hf. destruct (jobs db !! id) as [j|]; [|done].
      rewrite Hj1 in Hj1'. injection Hj1' as <-.
      destruct Hf as [->|[_ ->]]; [eauto|done].
    + right. exists j. split; [done|].
      destruct (cascade_is_frame _ _ _ _ _ _ _ Hc) as [_ Hf]. specialize (Hf id).
      rewrite Hj1 in Hf. destruct (jobs db' !! id) as [j'|]; [|done].
      by destruct Hf as [->|[(? & ? & _ & ?)%doomed_blocked _]]; [|simplify_eq].
Qed.

(** After k sweeps a blocked job over a failed dependency lies at wave k+1 or
    above, since its dependency failed in the k-th sweep. *)
Definition failing_above (w : Z) (t : string) (db : DB) : Prop :=
  ∀ id j, jobs db !! id = Some j → unreachable db t id j = true → w ≤ j_wave j.

Lemma fail_by_dependency_wave now id j : j_wave (fail_by_dependency now id j) = j_wave j.
Proof. done. Qed.

Lemma step_stratified now t db db' n :
  cascade_step now t db = (db', n) → stratified db → stratified db'.
Proof.
  intros Hstep Hstr id d j' dep' Hin Hj Hd.
  rewrite (cascade_step_dependencies _ _ _ _ _ Hstep) in Hin.
  apply (cascade_step_lookup _ _ _ _ _ _ _ Hstep) in Hj as (j & Hj & ->).
  apply (cascade_step_lookup _ _ _ _ _ _ _ Hstep) in Hd as (dep & Hd & ->).
  specialize (Hstr _ _ _ _ Hin Hj Hd).
  by destruct (unreachable db t id j), (unreachable db t d dep).
Qed.

Lemma step_failing_above now t db db' n w :
  cascade_step now t db = (db', n) → stratified db →
  failing_above w t db → failing_above (w + 1) t db'.
Proof.
  intros Hstep Hstr Hab id j' Hj' (Ht & Hs & d & dep' & Hin & Hd & Hf)%unreachable_true.
  rewrite (cascade_step_dependencies _ _ _ _ _ Hstep) in Hin.
  apply (cascade_step_lookup _ _ _ _ _ _ _ Hstep) in Hj' as (j & Hj & ->).
  apply (cascade_step_lookup _ _ _ _ _ _ _ Hstep) in Hd as (dep & Hd & ->).
  destruct (unreachable db t id j) eqn:Hu; [done|].
  destruct (unreachable db t d dep) eqn:Hud.
  - specialize (Hab d dep Hd Hud). specialize (Hstr id d j dep Hin Hj Hd). simpl. lia.
  - assert (unreachable db t id j = true); [|congruence].
    apply unreachable_true. eauto 10.
Qed.

Lemma step_wave_bound now t db db' n m :
  cascade_step now t db = (db', n) →
  (∀ id j, jobs db !! id = Some j → j_transfer j = t → j_wave j ≤ m) →
  (∀ id j, jobs db' !! id = Some j → j_transfer j = t → j_wave j ≤ m).
Proof.
  intros Hstep Hw id j' Hj' Ht.
  apply (cascade_step_lookup _ _ _ _ _ _ _ Hstep) in Hj' as (j & Hj & ->).
  destruct (unreachable db t id j); exact (Hw _ _ Hj Ht).
Qed.

Lemma cascade_complete_enough depth now t db total db' m w :
  cascade depth now t db total = (db', m) →
  stratified db → failing_above w t db →
  (∀ id j, jobs db !! id = Some j → j_transfer j = t → j_wave j < w + Z.of_nat depth) →
  cascade_complete db' t.
Proof.
  revert db total w. induction depth as [|depth IH]; intros db total w.
  - intros [= <- <-] _ Hab Hw id j Hj. apply not_true_is_false. intros Hu.
    pose proof (Hab _ _ Hj Hu). apply unreachable_true in Hu as (Ht & _).
    specialize (Hw _ _ Hj Ht). lia.
  - rewrite cascade_S. destruct (cascade_step now t db) as [db1 n] eqn:Hstep.
    cbn [fst snd]. case_bool_decide as Hn.
    + intros [= <- <-] _ _ _. subst n.
      by destruct (cascade_step_zero _ _ _ _ Hstep) as [-> ?].
    + intros Hc Hstr Hab Hw.
      refine (IH db1 _ (w + 1) Hc (step_stratified _ _ _ _ _ Hstep Hstr)
        (step_failing_above _ _ _ _ _ _ Hstep Hstr Hab) _).
      intros id j Hj Ht. assert (j_wave j ≤ w + Z.of_nat depth); [|lia].
      eapply (step_wave_bound _ _ _ _ _ _ Hstep); [|done..].
      intros id0 j0 Hj0 Ht0. specialize (Hw _ _ Hj0 Ht0). lia.
Qed.

Lemma stratified_failing_above t db : stratified db → failing_above 1 t db.
Proof.
  intros Hstr id j Hj (_ & _ & d & dep & Hin & Hd & _)%unreachable_true.
  specialize (Hstr _ _ _ _ Hin Hj Hd). lia.
Qed.

(** The waves the sweep's depth covers. *)
Definition shallow (db : DB) (t : string) : Prop :=
  ∀ id j, jobs db !! id = Some j → j_transfer j = t → j_wave j ≤ Z.of_nat maxCascadeDepth.

Lemma FailUnreachableJobs_complete now t db :
  stratified db → shallow db t → cascade_complete (FailUnreachableJobs now t db).1 t.
Proof.
  intros Hstr Hsh. unfold FailUnreachableJobs.
  destruct (cascade maxCascadeDepth now t db 0) as [db' m] eqn:Hc.
  refine (cascade_complete_enough _ _ _ _ _ _ _ 1 Hc Hstr (stratified_failing_above _ _ Hstr) _).
  intros id j Hj Ht. specialize (Hsh id j Hj Ht). lia.
Qed.

Lemma FailUnreachableJobs_frame now t db :
  cascade_frame now db (FailUnreachableJobs now t db).1 t.
Proof.
  unfold FailUnreachableJobs. destruct (cascade _ _ _ _ _) as [db' m] eqn:Hc.
  exact (cascade_is_frame _ _ _ _ _ _ _ Hc).
Qed.

Lemma FailUnreachableJobs_doomed now t db id :
  stratified db → shallow db t → doomed db t id →
  ∃ j, jobs db !! id = Some j ∧
    jobs (FailUnreachableJobs now t db).1 !! id = Some (fail_by_dependency now id j).
Proof.
  intros Hstr Hsh Hd. pose proof (FailUnreachableJobs_complete now t db Hstr Hsh) as Hcomp.
  unfold FailUnreachableJobs in *. destruct (cascade _ _ _ _ _) as [db' m] eqn:Hc.
  destruct (cascade_doomed_forth _ _ _ _ _ _ _ _ Hc Hd) as [Hd'|]; [|done].
  by apply complete_not_doomed in Hd'.
Qed.

Lemma FailUnreachableJobs_spared now t db id :
  ¬ doomed db t id →
  jobs (FailUnreachableJobs now t db).1 !! id = jobs db !! id.
Proof.
  intros Hd. destruct (FailUnreachableJobs_frame now t db) as [_ Hf]. specialize (Hf id).
  destruct (jobs db !! id), (jobs _ !! id); try done. naive_solver.
Qed.

(** The cascade fails exactly the jobs that can never run.  When edges go
    to strictly lower waves (as the planner numbers them) and the transfer's
    waves are within the sweep's depth, FailUnreachableJobs fails every blocked
    job with a path of blocked jobs to a failed dependency, changes no other
    row and no other table, and leaves no blocked job over a failed dependency
    - the fixpoint is reached before the bound of 32 sweeps. *)
Theorem FailUnreachableJobs_exact now t db :
  stratified db → shallow db t →
  let db' := (FailUnreachableJobs now t db).1 in
  db' = db <| jobs := jobs db' |> ∧
  (∀ id, doomed db t id → ∃ j, jobs db !! id = Some j ∧
     jobs db' !! id = Some (fail_by_dependency now id j)) ∧
  (∀ id, ¬ doomed db t id → jobs db' !! id = jobs db !! id) ∧
  (∀ id j, jobs db' !! id = Some j → unreachable db' t id j = false).
Proof.
  intros Hstr Hsh db'. split; [apply FailUnreachableJobs_frame|].
  split; [intros id; by apply FailUnreachableJobs_doomed|].
  split; [intros id; apply FailUnreachableJobs_spared|].
  by apply FailUnreachableJobs_complete.
Qed.

(* -------------------------------------------------------------------- *)
(** ** Edges, promotion and reversal *)

(** The batched insert records exactly the plan's edges: whatever the
    number of batches, an edge is recorded afterwards iff it was before or the
    plan names it and it is a real dependency (neither end zero, no loop). *)
Theorem AddJobDependencies_exact edges db :
  (∀ e, e ∈ dependencies (AddJobDependencies edges db) ↔
     e ∈ dependencies db ∨
     ∃ x, x ∈ edges ∧ JobID x ≠ 0 ∧ DependsOnID x ≠ 0 ∧ JobID x ≠ DependsOnID x ∧
          (JobID x, DependsOnID x) = e) ∧
  AddJobDependencies edges (AddJobDependencies edges db) = AddJobDependencies edges db.
Proof.
  assert (∀ x, edge_skipped x = false ↔
    JobID x ≠ 0 ∧ DependsOnID x ≠ 0 ∧ JobID x ≠ DependsOnID x) as Hsk.
  { intros x. unfold edge_skipped. rewrite bool_decide_eq_false. tauto. }
  split.
  - intros e. unfold AddJobDependencies. rewrite add_batches_spec by done.
    setoid_rewrite Hsk. unfold edge_pair. naive_solver.
  - assert (∀ e db, e ∈ dependencies (AddJobDependencies edges db) ↔
      e ∈ dependencies db ∨ ∃ x, x ∈ edges ∧ edge_skipped x = false ∧ edge_pair x = e) as Hspec.
    { intros e db0. by apply add_batches_spec. }
    set (db1 := AddJobDependencies edges db) in *.
    assert (dependencies (AddJobDependencies edges db1) = dependencies db1) as Hd.
    { apply set_eq. intros e. rewrite Hspec. unfold db1. rewrite !Hspec. naive_solver. }
    assert (AddJobDependencies edges db1 =
      db1 <| dependencies := dependencies (AddJobDependencies edges db1) |>) as ->
      by apply add_batches_frame.
    rewrite Hd. by destruct db1.
Qed.

(** A job that may run, or has run, has its content at the destination. *)
Definition content_first (db : DB) : Prop :=
  ∀ id j, jobs db !! id = Some j → j_state j ∈ [JobPending; JobLeased; JobSucceeded] →
    all_satisfied db id.

(** A statement that moves rows among the unsatisfied states keeps everybody's
    dependencies as they are. *)
Lemma update_keeps_satisfied p f db id :
  (∀ i j, jobs db !! i = Some j → p i j = true →
     satisfied (j_state (f i j)) = satisfied (j_state j)) →
  all_satisfied (update_jobs p f db) id ↔ all_satisfied db id.
Proof.
  intros Hp. unfold all_satisfied. split; intros Hall d dep Hin Hd.
  - specialize (Hall d (if p d dep then f d dep else dep) Hin).
    rewrite lookup_update_jobs, Hd in Hall. specialize (Hall eq_refl).
    destruct (p d dep) eqn:Hpd; [|done]. by rewrite <-(Hp _ _ Hd Hpd).
  - apply lookup_update_jobs_Some in Hd as (j & Hj & ->).
    specialize (Hall d j Hin Hj). destruct (p d j) eqn:Hpd; [|done]. by rewrite (Hp _ _ Hj Hpd).
Qed.

Lemma update_content_first p f db :
  (∀ i j, jobs db !! i = Some j → p i j = true →
     satisfied (j_state (f i j)) = satisfied (j_state j) ∧
     (j_state (f i j) ∈ [JobPending; JobLeased; JobSucceeded] → all_satisfied db i)) →
  content_first db → content_first (update_jobs p f db).
Proof.
  intros Hp Hcf id j' Hj' Hs.
  apply (update_keeps_satisfied p f db id); [intros ????; by apply Hp|].
  apply lookup_update_jobs_Some in Hj' as (j & Hj & ->).
  destruct (p id j) eqn:Hpj; [|by eapply Hcf]. by apply (Hp id j Hj Hpj).
Qed.

Lemma cascade_content_first depth now t db total :
  content_first db → content_first (cascade depth now t db total).1.
Proof.
  revert db total. induction depth as [|depth IH]; intros db total Hcf; [done|].
  assert (content_first (cascade_step now t db).1) as Hcf1.
  { apply update_content_first; [|done]. intros i j Hj (_ & Hs & _)%unreachable_true.
    simpl. rewrite Hs. split; [done|]. set_solver. }
  rewrite cascade_S. case_bool_decide; [done|]. by apply IH.
Qed.

(** No manifest before its own content.  PromoteDependents moves to pending
    exactly the blocked jobs waiting on the finished job all of whose recorded
    dependencies are satisfied - in the resulting table as in the original -
    and nothing else; and every statement of this file preserves the invariant
    that a job which is pending, leased or succeeded has every recorded
    dependency succeeded or skipped. *)
Theorem readiness_is_content_first now t jobID db :
  (let db' := (PromoteDependents now jobID db).1 in
   db' = db <| jobs := jobs db' |> ∧
   ∀ id j, jobs db !! id = Some j →
     let ready := j_state j = JobBlocked ∧ (id, jobID) ∈ dependencies db ∧ all_satisfied db' id in
     (ready → jobs db' !! id = Some (j <| j_state := JobPending |> <| j_updated := now |>)) ∧
     (¬ ready → jobs db' !! id = Some j)) ∧
  (content_first db →
   content_first (PromoteDependents now jobID db).1 ∧
   content_first (PromoteReadyJobs now t db).1 ∧
   content_first (FailUnreachableJobs now t db).1 ∧
   content_first (ClearDependencyFailures now t db).1).
Proof.
  split.
  - split; [done|]. intros id j Hj ready. unfold ready.
    change (PromoteDependents now jobID db).1 with
      (update_jobs (dependent_ready db jobID) (set_pending now) db).
    rewrite promote_keeps_satisfied, <-dependent_ready_true;
      [|by intros i k _ (? & _)%dependent_ready_true].
    rewrite lookup_update_jobs, Hj. simpl.
    split; [by intros ->|intros Hr]. by rewrite (not_true_is_false _ Hr).
  - intros Hcf. split; [|split; [|split; [by apply cascade_content_first|]]];
      (apply update_content_first; [|done]); intros i j Hj; simpl.
    + intros (Hs & _ & Hall)%dependent_ready_true. by rewrite Hs.
    + intros (_ & Hs & _ & Hall)%ready_with_edges_true. by rewrite Hs.
    + unfold failed_by_dependency. intros [[_ Hs]%job_of_true _]%andb_true_iff.
      apply list_elem_of_singleton in Hs. rewrite Hs. split; [done|set_solver].
Qed.

Lemma failed_by_dependency_true t id j :
  failed_by_dependency t id j = true ↔
  j_transfer j = t ∧ j_state j = JobFailed ∧ j_last_error_class j = Some ClassDependency.
Proof.
  unfold failed_by_dependency.
  rewrite andb_true_iff, job_of_true, bool_decide_eq_true, list_elem_of_singleton. tauto.
Qed.

(** A retry undoes the cascade and only the cascade.  With no dependency
    failure on record beforehand, running FailUnreachableJobs and later
    ClearDependencyFailures returns every doomed job to blocked with its error
    and its attempts cleared, and leaves every other row - the failure that
    caused them included - as it was. *)
Theorem clear_undoes_cascade now now' t db :
  stratified db → shallow db t →
  (∀ id j, jobs db !! id = Some j → failed_by_dependency t id j = false) →
  let db' := (ClearDependencyFailures now' t (FailUnreachableJobs now t db).1).1 in
  ∀ id,
    (doomed db t id → ∃ j, jobs db !! id = Some j ∧ j_state j = JobBlocked ∧
       jobs db' !! id = Some (j <| j_attempts := 0 |> <| j_last_error := None |>
         <| j_last_error_class := None |> <| j_completed := None |> <| j_updated := now' |>)) ∧
    (¬ doomed db t id → jobs db' !! id = jobs db !! id).
Proof.
  intros Hstr Hsh Hnone db' id. unfold db', ClearDependencyFailures. cbn [fst].
  rewrite lookup_update_jobs. split.
  - intros Hd. destruct (FailUnreachableJobs_doomed now t db id Hstr Hsh Hd) as (j & Hj & ->).
    destruct (doomed_blocked _ _ _ Hd) as (j0 & Hj0 & Ht & Hs). simplify_eq.
    exists j. split; [done|]. split; [done|]. simpl.
    rewrite (proj2 (failed_by_dependency_true (j_transfer j) id _)) by done.
    unfold clear_failure, fail_by_dependency. by destruct j; simplify_eq/=.
  - intros Hd. rewrite FailUnreachableJobs_spared by done.
    destruct (jobs db !! id) as [j|] eqn:Hj; [|done]. simpl. by rewrite (Hnone _ _ Hj).
Qed.

(* -------------------------------------------------------------------- *)
(** ** Instances *)

Definition stratifiedb (db : DB) : bool :=
  forallb (λ e : Z * Z, match jobs db !! e.1, jobs db !! e.2 with
    | Some j, Some dep => (0 <=? j_wave dep) && (j_wave dep <? j_wave j)
    | _, _ => true end) (elements (dependencies db)).

Lemma stratifiedb_sound db : stratifiedb db = true → stratified db.
Proof.
  unfold stratifiedb. rewrite forallb_forall. intros Hall id d j dep Hin Hj Hd.
  specialize (Hall (id, d)). simpl in Hall. rewrite Hj, Hd in Hall.
  rewrite andb_true_iff, Z.leb_le, Z.ltb_lt in Hall. apply Hall.
  by apply list_elem_of_In, elem_of_elements.
Qed.

Lemma shallow_sound db t :
  exists_where (λ _ j, negb (j_wave j <=? 32)) (jobs db) = false → shallow db t.
Proof.
  rewrite exists_where_false. intros Hall id j Hj _. specialize (Hall id j Hj).
  rewrite negb_false_iff, Z.leb_le in Hall. done.
Qed.

(** An index (4) over a child manifest (3) over a failed blob (1), beside a
    manifest (5) over a good blob (2). *)
Definition cascade_db : DB :=
  AddJobDependencies [mkJobEdge 3 1; mkJobEdge 4 3; mkJobEdge 5 2]
    (example_db
      [(1, example_job "t" KBlob "b1" JobFailed 0);
       (2, example_job "t" KBlob "b2" JobLeased 0);
       (3, example_job "t" KManifest "m3" JobBlocked 1);
       (4, example_job "t" KManifest "m4" JobBlocked 2);
       (5, example_job "t" KManifest "m5" JobBlocked 1)] []).

Lemma FailUnreachableJobs_exact_witness :
  (λ j, j_state j) <$> jobs (FailUnreachableJobs 9 "t" cascade_db).1 !! 4 = Some JobFailed ∧
  doomed cascade_db "t" 4.
Proof.
  assert (doomed cascade_db "t" 4) as Hd.
  { eapply (doomed_below _ _ 4 _ 3); [reflexivity..|].
    eapply (doomed_here _ _ 3 _ 1); reflexivity. }
  destruct (FailUnreachableJobs_exact 9 "t" cascade_db) as (_ & Hdm & _).
  - by apply stratifiedb_sound.
  - by apply shallow_sound.
  - destruct (Hdm 4 Hd) as (j & _ & Hj). split; [|exact Hd].
    cbv zeta in Hj. rewrite Hj. reflexivity.
Defined.

Lemma clear_undoes_cascade_witness :
  let db' := (ClearDependencyFailures 10 "t" (FailUnreachableJobs 9 "t" cascade_db).1).1 in
  (λ j, j_state j) <$> jobs db' !! 3 = Some JobBlocked ∧ jobs db' !! 1 = jobs cascade_db !! 1.
Proof.
  assert (doomed cascade_db "t" 3) as Hd.
  { eapply (doomed_here _ _ 3 _ 1); reflexivity. }
  assert (¬ doomed cascade_db "t" 1) as Hn.
  { intros (j & Hj & _ & Hs)%doomed_blocked. vm_compute in Hj. by simplify_eq. }
  pose proof (clear_undoes_cascade 9 10 "t" cascade_db) as Hc.
  specialize (Hc (stratifiedb_sound cascade_db eq_refl)
    (shallow_sound cascade_db "t" eq_refl)).
  specialize (Hc (proj1 (exists_where_false (failed_by_dependency "t") (jobs cascade_db)) eq_refl)).
  split; [|exact (proj2 (Hc 1) Hn)].
  destruct (proj1 (Hc 3) Hd) as (j & Hj & Hs & ->). simpl. by rewrite Hs.
Defined.
