(* ===== verification/Leasing.v ===== *)
(** * The dequeue, leases and their renewal

    internal/store/queue.go, from LeaseJobs to ReportProgress: the candidate
    predicate and order, the two dialects' implementations of the lease, the
    start of the transfers behind a batch, the renewal a heartbeat asks for. *)

From S2P Require Import Prelude StateMachine Backoff Schema.
Open Scope Z_scope.

(* -------------------------------------------------------------------- *)
(** ** Operations *)

Record LeaseRequest := mkLeaseRequest { Owner : string; Limit : Z; Duration : Z }.

Record LeasedJob := mkLeasedJob {
  ID : Z;
  TransferID : string;
  JKind : Kind;
  Digest : string;
  SizeBytes : Z;
  MediaType : string;
  ArtifactID : option Z;
  SourceRepoID : Z;
  TargetRepoID : Z;
  Attempt : Z;
  Wave : Z;
  Priority : Z;
  SiteRank : Z;
  RepairLevel : Z;
  TargetTags : list string;
  TargetRepository : string }.

(** sql.NullString.String *)
Definition null_string (o : option string) : string := default "" o.

(** The NOT EXISTS over in-flight copies: a leased job of the same digest on
    the registry this job's destination lies on. *)
Definition inflight_sibling (db : DB) (j : job) (_ : Z) (inflight : job) : bool :=
  bool_decide (j_state inflight = JobLeased) &&
  bool_decide (j_digest inflight = j_digest j) &&
  same_registry db (j_target_repo inflight) (j_target_repo j).

(** The second clause: a lower-ranked copy that is still going to run. *)
Definition earlier_sibling (db : DB) (j : job) (_ : Z) (earlier : job) : bool :=
  bool_decide (j_digest earlier = j_digest j) &&
  (j_site_rank earlier <? j_site_rank j) &&
  bool_decide (j_state earlier ∈ outstanding) &&
  negb (j_paused earlier) &&
  same_registry db (j_target_repo earlier) (j_target_repo j).

Definition leaseCandidatePredicate (now : Z) (db : DB) (_ : Z) (j : job) : bool :=
  bool_decide (j_state j = JobPending) &&
  negb (j_paused j) &&
  (j_next_visible j <=? now) &&
  negb (exists_where (inflight_sibling db j) (jobs db)) &&
  (bool_decide (j_site_rank j = 0) || negb (exists_where (earlier_sibling db j) (jobs db))).

(** [kind DESC] compares the spellings, 'manifest' > 'blob'. *)
Definition kind_desc (k : Kind) : Z :=
  match k with KManifest => 0 | KBlob => 1 end.

(** ORDER BY priority DESC, kind DESC, site_rank, size_bytes DESC, id *)
Definition leaseOrder (r : Z * job) : list Z :=
  [- j_priority r.2; kind_desc (j_kind r.2); j_site_rank r.2; - j_size r.2; r.1].

(** SELECT id ... WHERE predicate ORDER BY leaseOrder LIMIT limit.  The rows in
    [locked] are held by concurrent transactions: SKIP LOCKED leaves them out. *)
Definition candidates (now : Z) (locked : gset Z) (limit : nat) (db : DB) : list Z :=
  (take limit (order_by leaseOrder
    (select_where (λ id j, leaseCandidatePredicate now db id j && bool_decide (id ∉ locked))
      (jobs db)))).*1.

Definition leaseCandidates (now : Z) (limit : nat) (db : DB) : list Z :=
  candidates now ∅ limit db.

(** The SET clause of the lease, the same in both dialects. *)
Definition set_leased (now : Z) (owner : string) (duration : Z) (j : job) : job :=
  j <| j_state := JobLeased |>
    <| j_lease_owner := Some owner |>
    <| j_lease_expires := Some (now + duration) |>
    <| j_attempts := j_attempts j + 1 |>
    <| j_last_error := None |>
    <| j_last_error_class := None |>
    <| j_started := Some (default now (j_started j)) |>
    <| j_updated := now |>.

(** [id IN (ids)] *)
Definition id_in (ids : list Z) (id : Z) (_ : job) : bool := bool_decide (id ∈ ids).

Definition scanLeasedJob (r : Z * job) : LeasedJob :=
  let '(id, j) := r in
  {| ID := id; TransferID := j_transfer j; JKind := j_kind j; Digest := j_digest j;
     SizeBytes := j_size j; MediaType := null_string (j_media_type j);
     ArtifactID := j_artifact j; SourceRepoID := j_source_repo j;
     TargetRepoID := j_target_repo j; Attempt := j_attempts j; Wave := j_wave j;
     Priority := j_priority j; SiteRank := j_site_rank j; RepairLevel := j_repair_level j;
     TargetTags := j_target_tags j;
     TargetRepository := null_string (j_target_repository j) |}.

(** The comparison of sortForDispatch. *)
Definition dispatchLess (a b : LeasedJob) : bool :=
  if negb (Priority a =? Priority b) then Priority b <? Priority a
  else if negb (bool_decide (JKind a = JKind b)) then
    String.ltb (spell (JKind b)) (spell (JKind a))
  else if negb (SiteRank a =? SiteRank b) then SiteRank a <? SiteRank b
  else if negb (SizeBytes a =? SizeBytes b) then SizeBytes b <? SizeBytes a
  else ID a <? ID b.

Definition sortForDispatch (l : list LeasedJob) : list LeasedJob := slice_stable dispatchLess l.

Definition scanLeasedJobs (rows : list (Z * job)) : list LeasedJob :=
  sortForDispatch (scanLeasedJob <$> rows).

(** One statement; RETURNING yields the rows in no particular order, here the
    table's. *)
Definition leasePostgres (now : Z) (locked : gset Z) (req : LeaseRequest) (db : DB)
    : DB * list LeasedJob :=
  let ids := candidates now locked (Z.to_nat (Limit req)) db in
  let db' := update_jobs (id_in ids) (λ _, set_leased now (Owner req) (Duration req)) db in
  (db', scanLeasedJobs (select_where (id_in ids) (jobs db'))).

(** Select, update, read back ordered by id, in one transaction. *)
Definition leaseSQLite (now : Z) (req : LeaseRequest) (db : DB) : DB * list LeasedJob :=
  match leaseCandidates now (Z.to_nat (Limit req)) db with
  | [] => (db, [])
  | ids =>
      let db' := update_jobs (id_in ids) (λ _, set_leased now (Owner req) (Duration req)) db in
      (db', scanLeasedJobs (order_by (λ r, [r.1]) (select_where (id_in ids) (jobs db'))))
  end.

(** The distinct, non-empty transfer ids of the batch, in its order. *)
Fixpoint started_ids (seen : list string) (leased : list LeasedJob) : list string :=
  match leased with
  | [] => []
  | j :: leased =>
      if bool_decide (TransferID j = "" ∨ TransferID j ∈ seen) then started_ids seen leased
      else TransferID j :: started_ids (TransferID j :: seen) leased
  end.

Definition set_running (now : Z) (r : transfer) : transfer :=
  r <| t_state := TransferRunning |>
    <| t_started := Some (default now (t_started r)) |>
    <| t_last_active := Some (default now (t_last_active r)) |>
    <| t_updated := now |>.

Definition startTransfers (now : Z) (leased : list LeasedJob) (db : DB) : DB :=
  match started_ids [] leased with
  | [] => db
  | ids => update_transfers
      (λ t r, bool_decide (t ∈ ids) && bool_decide (t_state r = TransferReady))
      (λ _, set_running now) db
  end.

Inductive Driver := DriverPostgres | DriverSQLite.

#[export] Instance Driver_eq_dec : EqDecision Driver.
Proof. solve_decision. Defined.

Definition LeaseJobs (dialect : Driver) (now : Z) (locked : gset Z) (req : LeaseRequest) (db : DB)
    : result (DB * list LeasedJob) :=
  if bool_decide (Owner req = "") then Err EWorkerRequired
  else if Limit req <=? 0 then Ok (db, [])
  else
    let req := if Duration req <=? 0
               then mkLeaseRequest (Owner req) (Limit req) (2 * Minute) else req in
    let '(db', leased) := match dialect with
                          | DriverPostgres => leasePostgres now locked req db
                          | DriverSQLite => leaseSQLite now req db
                          end in
    Ok (startTransfers now leased db', leased).

(* -------------------------------------------------------------------- *)
(** ** Endpoints *)

Record Endpoint := mkEndpoint {
  RepositoryID : Z;
  EProduct : string;
  EName : string;
  ERegistry : string;
  ERepository : string;
  ERegistryType : string;
  ERole : string }.

(** repositories JOIN products, one row *)
Definition endpoint_of (db : DB) (id : Z) : option Endpoint :=
  r ← repositories db !! id;
  p ← products db !! rp_product r;
  Some (mkEndpoint id p (rp_name r) (rp_host r) (rp_path r) (rp_type r) (rp_role r)).

Definition HydrateEndpoints (ids : list Z) (db : DB) : gmap Z Endpoint :=
  foldr (λ id out, match endpoint_of db id with
                   | Some e => <[id := e]> out
                   | None => out
                   end) ∅ ids.

(* -------------------------------------------------------------------- *)
(** ** Renewal and progress *)

Definition held_by (owner : string) (j : job) : bool :=
  bool_decide (j_lease_owner j = Some owner) && bool_decide (j_state j = JobLeased).

Definition transfer_stopped (db : DB) (t : string) : bool :=
  match transfers db !! t with
  | Some r => bool_decide (t_state r ∈ [TransferCancelling; TransferCancelled])
  | None => false
  end.

Definition leasesOfStoppedTransfers (owner : string) (ids : list Z) (db : DB) : list Z :=
  (select_where (λ id j, held_by owner j && transfer_stopped db (j_transfer j)
                          && bool_decide (id ∈ ids)) (jobs db)).*1.

Definition RenewLeases (now : Z) (owner : string) (ids : list Z) (d : Z) (db : DB)
    : DB * (list Z * list Z) :=
  if bool_decide (ids = []) then (db, ([], []))
  else
    let d := if d <=? 0 then 2 * Minute else d in
    let cancelled := leasesOfStoppedTransfers owner ids db in
    let live := filter (λ id, id ∉ cancelled) ids in
    if bool_decide (live = []) then (db, ([], cancelled))
    else
      let held := λ id j, held_by owner j && bool_decide (id ∈ live) in
      let db' := update_jobs held
        (λ _ j, j <| j_lease_expires := Some (now + d) |> <| j_updated := now |>) db in
      (db', ((select_where held (jobs db')).*1, cancelled)).

Definition ReportProgress (now : Z) (jobID : Z) (owner : string) (bytes : Z) (db : DB) : DB :=
  update_jobs (λ id j, bool_decide (id = jobID) && held_by owner j)
    (λ _ j, j <| j_bytes := bytes |> <| j_updated := now |>) db.

(* -------------------------------------------------------------------- *)
(** ** One order, and one result in both dialects *)

Definition dispatch_key (j : LeasedJob) : list Z :=
  [- Priority j; kind_desc (JKind j); SiteRank j; - SizeBytes j; ID j].

(** The switch of sortForDispatch is the SQL's ORDER BY. *)
Lemma dispatchLess_key a b :
  dispatchLess a b = negb (lex_le (dispatch_key b) (dispatch_key a)).
Proof.
  unfold dispatchLess, dispatch_key. simpl.
  destruct (Z.eqb_spec (Priority a) (Priority b)) as [Hp|Hp]; simpl.
  2: { destruct (Z.eqb_spec (- Priority b) (- Priority a)); [lia|].
       rewrite <-Z.leb_antisym. apply eq_true_iff_eq. rewrite Z.ltb_lt, Z.leb_le. lia. }
  rewrite Hp, Z.eqb_refl.
  destruct (JKind a), (JKind b); simpl; try done;
  (destruct (Z.eqb_spec (SiteRank a) (SiteRank b)) as [Hr|Hr]; simpl;
    [|destruct (Z.eqb_spec (SiteRank b) (SiteRank a)); [lia|];
      rewrite <-Z.leb_antisym; apply eq_true_iff_eq; rewrite Z.ltb_lt, Z.leb_le; lia];
  rewrite Hr, Z.eqb_refl;
  destruct (Z.eqb_spec (SizeBytes a) (SizeBytes b)) as [Hs|Hs]; simpl;
    [|destruct (Z.eqb_spec (- SizeBytes b) (- SizeBytes a)); [lia|];
      rewrite <-Z.leb_antisym; apply eq_true_iff_eq; rewrite Z.ltb_lt, Z.leb_le; lia];
  rewrite Hs, Z.eqb_refl;
  destruct (Z.eqb_spec (ID b) (ID a)) as [Hi|Hi]; simpl;
    [rewrite Hi; apply Z.ltb_irrefl|];
  rewrite <-Z.leb_antisym; apply eq_true_iff_eq; rewrite Z.ltb_lt, Z.leb_le; lia).
Qed.

Lemma sortForDispatch_order_by l : sortForDispatch l = order_by dispatch_key l.
Proof. apply slice_stable_order_by, dispatchLess_key. Qed.

Lemma dispatch_key_scan r : dispatch_key (scanLeasedJob r) = leaseOrder r.
Proof. by destruct r. Qed.

Lemma select_where_key_inj {V} (p : Z → V → bool) (m : gmap Z V) x y :
  x ∈ select_where p m → y ∈ select_where p m → x.1 = y.1 → x = y.
Proof.
  destruct x as [i v], y as [k w]. simpl.
  intros [Hi _]%elem_of_select_where [Hk _]%elem_of_select_where ->. by simplify_eq.
Qed.

(** The order rows are read back in does not survive the dispatch sort. *)
Lemma scanLeasedJobs_Permutation (m : gmap Z job) (p : Z → job → bool) rows :
  rows ≡ₚ select_where p m → scanLeasedJobs rows = scanLeasedJobs (select_where p m).
Proof.
  intros Hp. unfold scanLeasedJobs. rewrite !sortForDispatch_order_by.
  apply order_by_unique; [|by rewrite Hp].
  intros x y Hx Hy. rewrite list_elem_of_fmap in Hx. rewrite list_elem_of_fmap in Hy.
  destruct Hx as (r & -> & Hr), Hy as (r' & -> & Hr'). rewrite !dispatch_key_scan.
  intros [= _ _ _ _ Hid]. f_equal. rewrite Hp in Hr, Hr'.
  by eapply select_where_key_inj.
Qed.

Lemma select_where_nil_in (db : DB) : select_where (id_in []) (jobs db) = [].
Proof.
  apply length_zero_iff_nil, count_where_zero. intros i j _. unfold id_in.
  apply bool_decide_eq_false. apply not_elem_of_nil.
Qed.

Lemma leaseSQLite_Postgres now req db :
  leaseSQLite now req db = leasePostgres now ∅ req db.
Proof.
  unfold leaseSQLite, leasePostgres, leaseCandidates.
  destruct (candidates now ∅ (Z.to_nat (Limit req)) db) as [|i ids] eqn:Hc.
  - assert (update_jobs (id_in []) (λ _, set_leased now (Owner req) (Duration req)) db = db) as ->.
    { unfold update_jobs. simpl. rewrite update_where_none; [by destruct db|].
      intros k j _. apply bool_decide_eq_false, not_elem_of_nil. }
    by rewrite select_where_nil_in.
  - f_equal. apply scanLeasedJobs_Permutation, order_by_Permutation.
Qed.

(* -------------------------------------------------------------------- *)
(** ** What a lease hands out *)

Section candidates.
Context (now : Z) (locked : gset Z) (limit : nat) (db : DB).

Let eligible (id : Z) (j : job) : bool :=
  leaseCandidatePredicate now db id j && bool_decide (id ∉ locked).
Let ordered := order_by leaseOrder (select_where eligible (jobs db)).

Lemma elem_of_ordered id j :
  (id, j) ∈ ordered ↔
  jobs db !! id = Some j ∧ leaseCandidatePredicate now db id j = true ∧ id ∉ locked.
Proof.
  unfold ordered. rewrite elem_of_order_by, elem_of_select_where. unfold eligible.
  rewrite andb_true_iff, bool_decide_eq_true. done.
Qed.

Lemma NoDup_ordered : NoDup ordered.*1.
Proof.
  unfold ordered. rewrite order_by_Permutation. apply NoDup_select_where.
Qed.

Lemma candidates_eligible id :
  id ∈ candidates now locked limit db →
  ∃ j, jobs db !! id = Some j ∧ leaseCandidatePredicate now db id j = true ∧ id ∉ locked.
Proof.
  intros ([id' j] & -> & Hin)%list_elem_of_fmap. exists j. simpl.
  apply elem_of_ordered. by apply elem_of_take in Hin as (? & ?%list_elem_of_lookup_2 & _).
Qed.

Lemma length_candidates : (length (candidates now locked limit db) ≤ limit)%nat.
Proof. unfold candidates. rewrite length_fmap, length_take. lia. Qed.

Lemma NoDup_candidates : NoDup (candidates now locked limit db).
Proof.
  unfold candidates. fold eligible. fold ordered. rewrite fmap_take.
  eapply sublist_NoDup; [apply NoDup_ordered|apply sublist_take].
Qed.

(** What the LIMIT leaves out sorts after everything it keeps, and it leaves
    nothing out of a batch that is not full. *)
Lemma candidates_best id j i k :
  id ∈ candidates now locked limit db → jobs db !! id = Some j →
  jobs db !! i = Some k → leaseCandidatePredicate now db i k = true → i ∉ locked →
  i ∉ candidates now locked limit db → key_le leaseOrder (id, j) (i, k).
Proof.
  intros Hid Hj Hk Hp Hl Hi.
  assert ((i, k) ∈ ordered) as Hord by by apply elem_of_ordered.
  rewrite <-(take_drop limit ordered), elem_of_app in Hord.
  destruct Hord as [Hin|Hin]; [destruct Hi; by apply (list_elem_of_fmap_2 fst) in Hin|].
  apply list_elem_of_fmap in Hid as ([id' j'] & -> & Hin'). simpl in *.
  assert (j' = j) as ->.
  { assert ((id', j') ∈ ordered) as [Hj' _]%elem_of_ordered; [|congruence].
    by apply elem_of_take in Hin' as (? & ?%list_elem_of_lookup_2 & _). }
  by eapply take_order_by_least.
Qed.

Lemma candidates_full i k :
  jobs db !! i = Some k → leaseCandidatePredicate now db i k = true → i ∉ locked →
  i ∉ candidates now locked limit db → length (candidates now locked limit db) = limit.
Proof.
  intros Hk Hp Hl Hi. unfold candidates. fold eligible. fold ordered.
  rewrite length_fmap, length_take.
  destruct (decide (limit ≤ length ordered)%nat); [lia|].
  destruct Hi. apply (list_elem_of_fmap_2 fst _ (i, k)).
  fold eligible. fold ordered. rewrite take_ge by lia. by apply elem_of_ordered.
Qed.
End candidates.

(** A candidate in words. *)
Lemma leaseCandidatePredicate_true now db id j :
  leaseCandidatePredicate now db id j = true ↔
  j_state j = JobPending ∧ j_paused j = false ∧ j_next_visible j ≤ now ∧
  (∀ i k, jobs db !! i = Some k → inflight_sibling db j i k = false) ∧
  (j_site_rank j = 0 ∨ ∀ i k, jobs db !! i = Some k → earlier_sibling db j i k = false).
Proof.
  unfold leaseCandidatePredicate.
  rewrite !andb_true_iff, orb_true_iff, !negb_true_iff, !bool_decide_eq_true, Z.leb_le,
    !exists_where_false. tauto.
Qed.

(** The queue's promise about a job it hands out: nothing here is read off the
    transfer. *)
Definition leasable (now : Z) (db : DB) (j : job) : Prop :=
  j_state j = JobPending ∧ j_paused j = false ∧ j_next_visible j ≤ now ∧
  (∀ i k, jobs db !! i = Some k → j_state k = JobLeased → j_digest k = j_digest j →
     same_registry db (j_target_repo k) (j_target_repo j) = false) ∧
  (j_site_rank j = 0 ∨
   ∀ i k, jobs db !! i = Some k → j_digest k = j_digest j → j_site_rank k < j_site_rank j →
     j_state k ∈ outstanding → j_paused k = false →
     same_registry db (j_target_repo k) (j_target_repo j) = false).

Lemma leasable_candidate now db id j : leaseCandidatePredicate now db id j = true ↔ leasable now db j.
Proof.
  rewrite leaseCandidatePredicate_true. unfold leasable, inflight_sibling, earlier_sibling.
  assert (∀ k, bool_decide (j_state k = JobLeased) && bool_decide (j_digest k = j_digest j) &&
      same_registry db (j_target_repo k) (j_target_repo j) = false ↔
    (j_state k = JobLeased → j_digest k = j_digest j →
     same_registry db (j_target_repo k) (j_target_repo j) = false)) as H1 by
    (intros; repeat case_bool_decide; simpl; tauto).
  assert (∀ k, bool_decide (j_digest k = j_digest j) && (j_site_rank k <? j_site_rank j) &&
      bool_decide (j_state k ∈ outstanding) && negb (j_paused k) &&
      same_registry db (j_target_repo k) (j_target_repo j) = false ↔
    (j_digest k = j_digest j → j_site_rank k < j_site_rank j →
     j_state k ∈ outstanding → j_paused k = false →
     same_registry db (j_target_repo k) (j_target_repo j) = false)) as H2 by
    (intros; destruct (Z.ltb_spec (j_site_rank k) (j_site_rank j)), (j_paused k);
     repeat case_bool_decide; simpl; naive_solver lia).
  setoid_rewrite H1. setoid_rewrite H2. done.
Qed.

Lemma elem_of_scanLeasedJobs x rows :
  x ∈ scanLeasedJobs rows ↔ ∃ r, x = scanLeasedJob r ∧ r ∈ rows.
Proof.
  unfold scanLeasedJobs. rewrite sortForDispatch_order_by, elem_of_order_by.
  by rewrite list_elem_of_fmap.
Qed.

Section lease.
Context (now : Z) (locked : gset Z) (req : LeaseRequest) (db : DB).
Let ids := candidates now locked (Z.to_nat (Limit req)) db.
Let db' := (leasePostgres now locked req db).1.
Let leased := (leasePostgres now locked req db).2.

Lemma lease_lookup id :
  jobs db' !! id = (λ j, if bool_decide (id ∈ ids)
    then set_leased now (Owner req) (Duration req) j else j) <$> jobs db !! id.
Proof. unfold db', leasePostgres. simpl. rewrite lookup_update_where. done. Qed.

Lemma elem_of_lease x :
  x ∈ leased ↔ ∃ id j, id ∈ ids ∧ jobs db !! id = Some j ∧
    x = scanLeasedJob (id, set_leased now (Owner req) (Duration req) j).
Proof.
  unfold leased, leasePostgres. simpl. rewrite elem_of_scanLeasedJobs. split.
  - intros ([id j'] & -> & [Hj' Hin]%elem_of_select_where).
    apply bool_decide_eq_true in Hin. fold ids in Hin, Hj'.
    apply lookup_update_where_Some in Hj' as (j & Hj & ->).
    exists id, j. unfold id_in. by rewrite bool_decide_eq_true_2.
  - intros (id & j & Hin & Hj & ->).
    exists (id, set_leased now (Owner req) (Duration req) j). split; [done|].
    apply elem_of_select_where. fold ids. split; [|by apply bool_decide_eq_true].
    rewrite lookup_update_where, Hj. simpl.
    unfold id_in. by rewrite bool_decide_eq_true_2.
Qed.

Lemma lease_ids : ID <$> leased ≡ₚ ids.
Proof.
  apply NoDup_Permutation.
  - unfold leased, leasePostgres, scanLeasedJobs. cbn [snd].
    rewrite sortForDispatch_order_by, order_by_Permutation, <-list_fmap_compose.
    erewrite list_fmap_ext; [apply NoDup_select_where|]. by intros i [? ?].
  - apply NoDup_candidates.
  - intros id. rewrite list_elem_of_fmap. split.
    + intros (x & -> & (i & j & Hi & _ & ->)%elem_of_lease). done.
    + intros Hi. destruct (candidates_eligible _ _ _ _ _ Hi) as (j & Hj & _).
      eexists. split; [|apply elem_of_lease; exists id, j; split; [done|split; [done|reflexivity]]].
      done.
Qed.
End lease.

Lemma elem_of_started_ids seen leased t :
  t ∈ started_ids seen leased ↔ t ≠ "" ∧ t ∉ seen ∧ ∃ j, j ∈ leased ∧ TransferID j = t.
Proof.
  revert seen. induction leased as [|x leased IH]; intros seen; simpl.
  { setoid_rewrite elem_of_nil. naive_solver. }
  setoid_rewrite elem_of_cons. case_bool_decide as Hx; rewrite ?elem_of_cons, IH.
  - naive_solver.
  - setoid_rewrite elem_of_cons.
    destruct (decide (t = TransferID x)); naive_solver.
Qed.


Lemma lookup_startTransfers now leased db t r :
  transfers db !! t = Some r →
  (t ≠ "" → t_state r = TransferReady → (∃ x, x ∈ leased ∧ TransferID x = t) →
     transfers (startTransfers now leased db) !! t = Some (set_running now r)) ∧
  (t = "" ∨ t_state r ≠ TransferReady ∨ (∀ x, x ∈ leased → TransferID x ≠ t) →
     transfers (startTransfers now leased db) !! t = Some r).
Proof.
  intros Hr.
  assert (transfers (startTransfers now leased db) !! t =
    Some (if bool_decide (t ∈ started_ids [] leased) && bool_decide (t_state r = TransferReady)
          then set_running now r else r)) as ->.
  { unfold startTransfers. destruct (started_ids [] leased) as [|i l] eqn:E; [by rewrite Hr|].
    simpl. by rewrite lookup_update_where, Hr. }
  assert (t ∈ started_ids [] leased ↔ t ≠ "" ∧ ∃ x, x ∈ leased ∧ TransferID x = t) as Hin.
  { rewrite elem_of_started_ids. set_solver. }
  split.
  - intros ???. by rewrite !bool_decide_eq_true_2 by naive_solver.
  - intros Hno. destruct (decide (t_state r = TransferReady)) as [Hs|Hs].
    + rewrite bool_decide_eq_false_2; [done|]. rewrite Hin. naive_solver.
    + by rewrite andb_comm, bool_decide_eq_false_2.
Qed.

Lemma jobs_startTransfers now leased db : jobs (startTransfers now leased db) = jobs db.
Proof. unfold startTransfers. by destruct (started_ids [] leased). Qed.

Definition lease_duration (req : LeaseRequest) : Z :=
  if Duration req <=? 0 then 2 * Minute else Duration req.

(** Both dialects, in the shape of the Postgres statement. *)
Lemma LeaseJobs_as_Postgres dialect now locked req db :
  (dialect = DriverSQLite → locked = ∅) →
  LeaseJobs dialect now locked req db =
  if bool_decide (Owner req = "") then Err EWorkerRequired
  else if Limit req <=? 0 then Ok (db, [])
  else let r := leasePostgres now locked
                  (mkLeaseRequest (Owner req) (Limit req) (lease_duration req)) db in
       Ok (startTransfers now r.2 r.1, r.2).
Proof.
  intros Hl. unfold LeaseJobs. case_bool_decide; [done|]. destruct (Limit req <=? 0); [done|].
  assert ((if Duration req <=? 0 then mkLeaseRequest (Owner req) (Limit req) (2 * Minute) else req)
    = mkLeaseRequest (Owner req) (Limit req) (lease_duration req)) as ->.
  { unfold lease_duration. destruct req as [o l d]; simpl. by destruct (d <=? 0). }
  destruct dialect; [|rewrite leaseSQLite_Postgres, Hl by done]; by destruct (leasePostgres _ _ _ _).
Qed.

(** C3. The two dequeues are one.  SQLite's select-update-read-back transaction
    returns the same jobs in the same order and leaves the same database as the
    Postgres statement does when no other lease holds row locks. *)
Theorem dialects_agree now req db :
  LeaseJobs DriverSQLite now ∅ req db = LeaseJobs DriverPostgres now ∅ req db.
Proof. by rewrite !LeaseJobs_as_Postgres. Qed.

(** C2. What one lease hands out.  Whatever the dialect and whatever rows
    concurrent leases hold locked: no job twice, never more than asked for, in
    dispatch order; every job handed out was unlocked and leasable - pending,
    unpaused, visible, no copy of its digest in flight on its registry, no
    earlier-ranked copy still to run there - and its row is the job's with the
    caller's lease, one more attempt and no error; every other job row is
    untouched; and a leasable job left behind means the batch is full and nothing
    in it sorts after that job.  The transfer's state is not consulted. *)
Theorem LeaseJobs_spec dialect now locked req db db' leased :
  (dialect = DriverSQLite → locked = ∅) →
  LeaseJobs dialect now locked req db = Ok (db', leased) →
  let ids := ID <$> leased in
  let lease j := j <| j_state := JobLeased |> <| j_lease_owner := Some (Owner req) |>
      <| j_lease_expires := Some (now + lease_duration req) |> <| j_attempts := j_attempts j + 1 |>
      <| j_last_error := None |> <| j_last_error_class := None |>
      <| j_started := Some (default now (j_started j)) |> <| j_updated := now |> in
  NoDup ids ∧
  Z.of_nat (length leased) ≤ Z.max 0 (Limit req) ∧
  StronglySorted (key_le dispatch_key) leased ∧
  (∀ x, x ∈ leased → ∃ j,
     jobs db !! ID x = Some j ∧ leasable now db j ∧
     ID x ∉ locked ∧ jobs db' !! ID x = Some (lease j) ∧ x = scanLeasedJob (ID x, lease j)) ∧
  (∀ id, id ∉ ids → jobs db' !! id = jobs db !! id) ∧
  (0 < Limit req → ∀ i k, jobs db !! i = Some k →
     leasable now db k → i ∉ locked → i ∉ ids →
     Z.of_nat (length leased) = Limit req ∧
     ∀ x, x ∈ leased → key_le dispatch_key x (scanLeasedJob (i, k))).
Proof.
  intros Hl. rewrite LeaseJobs_as_Postgres by done. case_bool_decide as Ho; [done|].
  destruct (Z.leb_spec (Limit req) 0) as [Hlim|Hlim].
  { intros [= <- <-]. split_and!; simpl; try by constructor.
    all: try lia. intros x Hx. by apply not_elem_of_nil in Hx. }
  intros [<- <-]%Ok_pair_inj. cbv zeta.
  set (req' := mkLeaseRequest (Owner req) (Limit req) (lease_duration req)).
  pose proof (lease_ids now locked req' db) as Hids.
  assert (length (leasePostgres now locked req' db).2 =
    length (candidates now locked (Z.to_nat (Limit req)) db)) as Hlen.
  { by rewrite <-(length_fmap ID), Hids. }
  split_and!.
  - rewrite Hids. apply NoDup_candidates.
  - rewrite Hlen. pose proof (length_candidates now locked (Z.to_nat (Limit req)) db). lia.
  - unfold leasePostgres, scanLeasedJobs. simpl. rewrite sortForDispatch_order_by.
    apply order_by_sorted.
  - intros x Hx. pose proof Hx as (id & j & Hin & Hj & ->)%elem_of_lease.
    destruct (candidates_eligible _ _ _ _ _ Hin) as (j' & Hj' & Hp & Hk). simplify_eq.
    apply leasable_candidate in Hp. exists j. cbn [scanLeasedJob ID]. do 3 (split; [done|]).
    rewrite jobs_startTransfers, lease_lookup, Hj. simpl.
    rewrite bool_decide_eq_true_2 by done. done.
  - intros id Hid. rewrite Hids in Hid.
    rewrite jobs_startTransfers, lease_lookup, bool_decide_eq_false_2 by done.
    by destruct (jobs db !! id).
  - intros _ i k Hk Hp%(leasable_candidate now db i) Hlk Hi. rewrite Hids in Hi. split.
    { rewrite Hlen, (candidates_full now locked _ db i k) by done. lia. }
    intros x (id & j & Hin & Hj & ->)%elem_of_lease. unfold key_le.
    rewrite !dispatch_key_scan.
    by apply (candidates_best now locked (Z.to_nat (Limit req)) db id j i k).
Qed.

(** The work a lease hands out makes its transfers running: a transfer in
    ready with a job in the batch becomes running, keeping the start it already
    had, and no other transfer row changes - so leasing never revives a
    transfer that was paused, cancelled, failed or finished. *)
Theorem LeaseJobs_starts_transfers dialect now locked req db db' leased t r :
  (dialect = DriverSQLite → locked = ∅) →
  LeaseJobs dialect now locked req db = Ok (db', leased) →
  transfers db !! t = Some r →
  (t ≠ "" → t_state r = TransferReady → (∃ x, x ∈ leased ∧ TransferID x = t) →
     transfers db' !! t = Some (r <| t_state := TransferRunning |>
       <| t_started := Some (default now (t_started r)) |>
       <| t_last_active := Some (default now (t_last_active r)) |>
       <| t_updated := now |>)) ∧
  (t = "" ∨ t_state r ≠ TransferReady ∨ (∀ x, x ∈ leased → TransferID x ≠ t) →
     transfers db' !! t = Some r).
Proof.
  intros Hl. rewrite LeaseJobs_as_Postgres by done. case_bool_decide; [done|].
  destruct (Limit req <=? 0).
  - intros [= <- <-] Hr. split; [|done]. intros _ _ (x & Hx & _). by apply not_elem_of_nil in Hx.
  - intros [= <- <-] Hr. by apply lookup_startTransfers.
Qed.

Lemma lookup_HydrateEndpoints ids db id :
  id ∈ ids → HydrateEndpoints ids db !! id = endpoint_of db id.
Proof.
  induction ids as [|i ids IH]; [by intros []%elem_of_nil|].
  simpl. destruct (decide (id = i)) as [->|Hne].
  - intros _. destruct (endpoint_of db i) as [e|] eqn:E; [by simplify_map_eq|].
    destruct (decide (i ∈ ids)) as [Hin|Hnin]; [by apply IH|]. clear IH.
    induction ids as [|k ids IH]; [done|]. simpl. apply not_elem_of_cons in Hnin as [Hik Hnin].
    destruct (endpoint_of db k); [|by apply IH]. rewrite lookup_insert_ne by done. by apply IH.
  - intros [?|Hin]%elem_of_cons; [done|]. destruct (endpoint_of db i); [|by apply IH].
    rewrite lookup_insert_ne by done. by apply IH.
Qed.

(* -------------------------------------------------------------------- *)
(** ** Renewal *)

Lemma held_by_true owner j :
  held_by owner j = true ↔ j_lease_owner j = Some owner ∧ j_state j = JobLeased.
Proof. unfold held_by. by rewrite andb_true_iff, !bool_decide_eq_true. Qed.

Lemma elem_of_leasesOfStoppedTransfers owner ids db id :
  id ∈ leasesOfStoppedTransfers owner ids db ↔
  id ∈ ids ∧ ∃ j, jobs db !! id = Some j ∧ held_by owner j = true ∧
    transfer_stopped db (j_transfer j) = true.
Proof.
  unfold leasesOfStoppedTransfers. rewrite list_elem_of_fmap. split.
  - intros ([i j] & -> & [Hj Hp]%elem_of_select_where).
    rewrite !andb_true_iff, bool_decide_eq_true in Hp. naive_solver.
  - intros (Hin & j & Hj & Hh & Hs). exists (id, j). split; [done|].
    apply elem_of_select_where. by rewrite Hh, Hs, bool_decide_eq_true_2.
Qed.

Definition renewed_row (now d : Z) (j : job) : job :=
  j <| j_lease_expires := Some (now + d) |> <| j_updated := now |>.

(** The early returns of RenewLeases are the general case on fewer rows. *)
Lemma RenewLeases_uniform now owner ids d db :
  let d' := if d <=? 0 then 2 * Minute else d in
  let cancelled := leasesOfStoppedTransfers owner ids db in
  let live := filter (λ id, id ∉ cancelled) ids in
  let held := λ id j, held_by owner j && bool_decide (id ∈ live) in
  let db' := update_jobs held (λ _, renewed_row now d') db in
  RenewLeases now owner ids d db = (db', ((select_where held (jobs db')).*1, cancelled)).
Proof.
  cbv zeta. unfold RenewLeases.
  assert (∀ d, let held := λ id j, held_by owner j && bool_decide (id ∈ @nil Z) in
    update_jobs held (λ _, renewed_row now d) db = db ∧ select_where held (jobs db) = []) as Hnil.
  { intros d'. split; [apply update_jobs_none|apply select_where_nil];
      intros; apply andb_false_r. }
  case_bool_decide as Hids; [subst ids|].
  - change (filter _ (@nil Z)) with (@nil Z). destruct (Hnil (if d <=? 0 then 2 * Minute else d)) as [-> ->].
    unfold leasesOfStoppedTransfers. rewrite select_where_nil; [done|].
    intros. apply andb_false_r.
  - case_bool_decide as Hlive; [|done]. rewrite Hlive.
    by destruct (Hnil (if d <=? 0 then 2 * Minute else d)) as [-> ->].
Qed.

(** A heartbeat renews exactly the leases its sender still holds on work
    that is still wanted.  Of the ids reported, renewed are those whose row is
    leased to this owner and whose transfer is not cancelling or cancelled;
    cancelled are those leased to this owner whose transfer is; exactly the
    renewed rows have a new expiry, strictly in the future, and no other row
    or table changes.  A worker whose lease was reaped or handed to another
    renews nothing. *)
Theorem RenewLeases_spec now owner ids d db :
  let '(db', (renewed, cancelled)) := RenewLeases now owner ids d db in
  let holds id stopped := id ∈ ids ∧ ∃ j, jobs db !! id = Some j ∧
    j_lease_owner j = Some owner ∧ j_state j = JobLeased ∧
    transfer_stopped db (j_transfer j) = stopped in
  (∀ id, id ∈ renewed ↔ holds id false) ∧
  (∀ id, id ∈ cancelled ↔ holds id true) ∧
  db' = db <| jobs := jobs db' |> ∧
  (∃ expiry, now < expiry ∧ ∀ id,
     jobs db' !! id =
       (λ j, if bool_decide (id ∈ renewed)
             then j <| j_lease_expires := Some expiry |> <| j_updated := now |>
             else j) <$> jobs db !! id).
Proof.
  rewrite RenewLeases_uniform. cbv zeta.
  set (d' := if d <=? 0 then 2 * Minute else d).
  set (cancelled := leasesOfStoppedTransfers owner ids db).
  set (held := λ id j, held_by owner j && bool_decide (id ∈ filter (λ id, id ∉ cancelled) ids)).
  assert (∀ id j, held id j = true ↔
    held_by owner j = true ∧ id ∈ ids ∧ id ∉ cancelled) as Hheld.
  { intros id j. unfold held. rewrite andb_true_iff, bool_decide_eq_true, list_elem_of_filter. tauto. }
  assert (∀ id j, held id (renewed_row now d' j) = held id j) as Hrow by done.
  set (db' := update_jobs held (λ _, renewed_row now d') db).
  assert (∀ id, id ∈ (select_where held (jobs db')).*1 ↔
    ∃ j, jobs db !! id = Some j ∧ held id j = true) as Hren.
  { intros id. rewrite list_elem_of_fmap. split.
    - intros ([i j'] & -> & [Hj' Hh]%elem_of_select_where).
      apply lookup_update_jobs_Some in Hj' as (j & Hj & ->). exists j. split; [done|].
      by destruct (held i j) eqn:E.
    - intros (j & Hj & Hh). exists (id, renewed_row now d' j). split; [done|].
      apply elem_of_select_where. unfold db'. by rewrite lookup_update_jobs, Hj, Hrow; simpl; rewrite Hh. }
  split_and!.
  - intros id. rewrite Hren. setoid_rewrite Hheld. unfold cancelled.
    setoid_rewrite elem_of_leasesOfStoppedTransfers. setoid_rewrite held_by_true. split.
    + intros (j & Hj & [Ho Hs] & Hin & Hc). split; [done|]. exists j. split_and!; try done.
      apply not_true_is_false. naive_solver.
    + intros (Hin & j & Hj & Ho & Hs & Hst). exists j. split_and!; try done.
      intros (_ & j' & ? & _ & ?). simplify_eq. congruence.
  - intros id. unfold cancelled. rewrite elem_of_leasesOfStoppedTransfers.
    setoid_rewrite held_by_true. naive_solver.
  - done.
  - exists (now + d'). split; [unfold d', Minute, Second; destruct (Z.leb_spec d 0); lia|].
    intros id. unfold db' at 1. rewrite lookup_update_jobs.
    destruct (jobs db !! id) as [j|] eqn:Hj; [simpl|done]. f_equal.
    destruct (held id j) eqn:Hh.
    + rewrite bool_decide_eq_true_2; [done|]. apply Hren. eauto.
    + rewrite bool_decide_eq_false_2; [done|]. intros (? & ? & ?)%Hren. simplify_eq. congruence.
Qed.

(* -------------------------------------------------------------------- *)
(** ** Instances *)

(** A manifest, two blobs, and a second copy of the first blob under another
    name of the same registry (rank 1), which has to wait. *)
Definition lease_db : DB :=
  example_db
    [(1, example_job "t" KBlob "b1" JobPending 0);
     (2, (example_job "t" KBlob "b2" JobPending 0) <| j_size := 20 |>);
     (3, example_job "t" KManifest "m3" JobPending 1);
     (4, (example_job "t" KBlob "b1" JobPending 0) <| j_site_rank := 1 |>)]
    [("t", example_transfer TransferReady 1)].

Definition lease_req : LeaseRequest := mkLeaseRequest "w" 8 0.

Definition lease_result : DB * list LeasedJob :=
  leasePostgres 100 ∅ (mkLeaseRequest "w" 8 (2 * Minute)) lease_db.

Lemma lease_result_eq :
  LeaseJobs DriverPostgres 100 ∅ lease_req lease_db =
  Ok (startTransfers 100 lease_result.2 lease_result.1, lease_result.2).
Proof. by apply LeaseJobs_as_Postgres. Qed.

Lemma LeaseJobs_spec_witness :
  ID <$> lease_result.2 = [3; 2; 1] ∧ NoDup (ID <$> lease_result.2).
Proof.
  split; [vm_compute; reflexivity|].
  refine (proj1 (LeaseJobs_spec DriverPostgres 100 ∅ lease_req lease_db _ _ _ lease_result_eq)).
  intros Hd. discriminate Hd.
Defined.

Lemma LeaseJobs_starts_transfers_witness :
  t_state <$> transfers (startTransfers 100 lease_result.2 lease_result.1) !! "t"
  = Some TransferRunning.
Proof.
  assert (∃ x, x ∈ lease_result.2 ∧ TransferID x = "t") as Hx.
  { exists (scanLeasedJob (3, set_leased 100 "w" (2 * Minute)
      (example_job "t" KManifest "m3" JobPending 1))). split; [|reflexivity].
    apply elem_of_lease. exists 3, (example_job "t" KManifest "m3" JobPending 1).
    split; [|split; reflexivity].
    apply (bool_decide_eq_true_1 _). vm_compute. reflexivity. }
  destruct (LeaseJobs_starts_transfers DriverPostgres 100 ∅ lease_req lease_db _ _ "t"
    (example_transfer TransferReady 1) (λ H, ltac:(discriminate H)) lease_result_eq) as [Hrun _];
    [reflexivity|].
  rewrite Hrun; [reflexivity|discriminate|reflexivity|exact Hx].
Defined.

(** The suppression of duplicate copies does not reach inside one batch.
    Two rank-0 jobs of one digest bound for one registry are both candidates
    and one lease hands out both, so both stream the same content. *)
Theorem same_digest_leased_twice :
  ∃ db db' leased,
    LeaseJobs DriverPostgres 100 ∅ lease_req db = Ok (db', leased) ∧
    ∃ a b, a ∈ leased ∧ b ∈ leased ∧ ID a ≠ ID b ∧ Digest a = Digest b ∧
      SiteRank a = 0 ∧ SiteRank b = 0 ∧
      same_registry db (TargetRepoID a) (TargetRepoID b) = true.
Proof.
  set (db := example_db [(1, example_job "t" KBlob "b" JobPending 0);
                         (2, example_job "u" KBlob "b" JobPending 0)] []).
  set (r := leasePostgres 100 ∅ (mkLeaseRequest "w" 8 (2 * Minute)) db).
  exists db, (startTransfers 100 r.2 r.1), r.2.
  split; [by apply LeaseJobs_as_Postgres|].
  assert (∀ id t, jobs db !! id = Some (example_job t KBlob "b" JobPending 0) →
    id ∈ candidates 100 ∅ 8 db →
    scanLeasedJob (id, set_leased 100 "w" (2 * Minute) (example_job t KBlob "b" JobPending 0)) ∈ r.2)
    as Hin.
  { intros id t Hj Hc. apply elem_of_lease. eauto. }
  eexists _, _. split; [apply (Hin 1 "t")|split; [apply (Hin 2 "u")|done]];
    first [reflexivity|apply (bool_decide_eq_true_1 _); vm_compute; reflexivity].
Qed.
