(* ===== verification/Completion.v ===== *)
(** * Completion

    internal/store/queue.go, from Completion to advanceWave, with
    internal/store/repair.go, RecordPlacement of internal/store/packages.go and
    the failure summary of internal/store/recovery.go that settling uses: what
    one reported job does to itself, to its dependents and to its transfer, in
    one transaction. *)

From S2P Require Import Prelude GoStrings StateMachine Backoff Schema Dependencies Leasing.
Open Scope Z_scope.

(* -------------------------------------------------------------------- *)
(** ** Failure summaries *)

(** GROUP BY last_error_class, last_error over the transfer's failed jobs. *)
Definition failed_groups (t : string) (db : DB) : list (option string * option string) :=
  (λ r, (j_last_error_class r.2, j_last_error r.2)) <$> select_where (job_of t [JobFailed]) (jobs db).

Definition group_size (g : option string * option string)
    (l : list (option string * option string)) : nat := length (filter (eq g) l).

(** ORDER BY n DESC LIMIT 1; SQL leaves ties open, here the last group in
    table order wins them. *)
Definition top_group (l : list (option string * option string))
    : option (option string * option string) :=
  foldr (λ g best, match best with
                   | None => Some g
                   | Some b => if (group_size b l <? group_size g l)%nat then Some g else Some b
                   end) None l.

Definition failureReason (t : string) (failed : nat) (db : DB) : string :=
  let base := String.append (pretty failed) " job(s) failed after exhausting their attempts" in
  match top_group (failed_groups t db) with
  | None => base
  | Some (class, message) =>
      let class := null_string class in
      let message := null_string message in
      if negb (String.eqb class "") then
        String.append base (String.append " (" (String.append class (String.append
          (if negb (String.eqb message "") then String.append ": " (truncate message 160) else "")
          ")")))
      else if negb (String.eqb message "") then
        String.append base (String.append " (" (String.append (truncate message 160) ")"))
      else base
  end.

Definition failed_jobs (t : string) (db : DB) : nat := count_where (job_of t [JobFailed]) (jobs db).

(* -------------------------------------------------------------------- *)
(** ** The job's own row *)

(** What a worker may report: succeeded, skipped, failed or cancelled. *)
Inductive Outcome := Succeeded | Skipped | Failed | Cancelled.

#[export] Instance Outcome_eq_dec : EqDecision Outcome.
Proof. solve_decision. Defined.

Definition outcome_state (o : Outcome) : JobState :=
  match o with
  | Succeeded => JobSucceeded
  | Skipped => JobSkipped
  | Failed => JobFailed
  | Cancelled => JobCancelled
  end.

Record Completion := mkCompletion {
  c_JobID : Z;
  c_Owner : string;
  c_Outcome : Outcome;
  c_BytesTransferred : Z;
  c_SkipReason : string;
  c_ErrorClass : string;
  c_ErrorMsg : string;
  c_Placed : bool;
  c_Attempt : Z;
  c_MaxAttempts : Z }.

Definition nullIfEmpty (s : string) : option string :=
  if String.eqb s "" then None else Some s.

(** CHECK (skip_reason IN (...)), satisfied by NULL. *)
Definition skip_reason_ok (r : option string) : bool :=
  match r with
  | None => true
  | Some s => bool_decide (s ∈ ["placement_hit"; "exists_at_target"; "mounted"])
  end.

Definition set_finished (now : Z) (c : Completion) (j : job) : job :=
  j <| j_state := outcome_state (c_Outcome c) |>
    <| j_skip_reason := nullIfEmpty (c_SkipReason c) |>
    <| j_bytes := c_BytesTransferred c |>
    <| j_last_error := None |>
    <| j_last_error_class := None |>
    <| j_lease_owner := None |>
    <| j_lease_expires := None |>
    <| j_completed := Some now |>
    <| j_updated := now |>.

Definition set_failed (now draw : Z) (c : Completion) (maxAttempts : Z) (j : job) : job :=
  let exhausted := maxAttempts <=? j_attempts j in
  j <| j_state := if exhausted then JobFailed else JobPending |>
    <| j_last_error := nullIfEmpty (c_ErrorMsg c) |>
    <| j_last_error_class := nullIfEmpty (c_ErrorClass c) |>
    <| j_bytes := c_BytesTransferred c |>
    <| j_lease_owner := None |>
    <| j_lease_expires := None |>
    <| j_next_visible := now + retryDelay (c_Attempt c) draw |>
    <| j_completed := if exhausted then Some now else None |>
    <| j_updated := now |>.

Definition applyJobOutcome (now draw : Z) (c : Completion) (maxAttempts : Z) (db : DB) : result DB :=
  if negb (bool_decide (c_Outcome c = Failed)) then
    if skip_reason_ok (nullIfEmpty (c_SkipReason c))
    then Ok (update_job (c_JobID c) (set_finished now c) db)
    else Err (ECheckViolation "skip_reason" (c_SkipReason c))
  else Ok (update_job (c_JobID c) (set_failed now draw c maxAttempts) db).

(* -------------------------------------------------------------------- *)
(** ** Placements *)

Definition placementSource (c : Completion) : string :=
  let r := c_SkipReason c in
  if String.eqb r "mounted" then "mounted"
  else if String.eqb r "exists_at_target" || String.eqb r "placement_hit" then "observed"
  else "transferred".

Definition RecordPlacement (now repositoryID : Z) (digest : string) (size : Z) (source : string)
    (db : DB) : DB :=
  let db := match blobs db !! digest with
            | Some _ => db
            | None => db <| blobs ::= insert digest size |>
            end in
  let row := match placements db !! (repositoryID, digest) with
             | Some r => r <| bp_verified := now |> <| bp_source := source |>
             | None => mkPlacement size source now
             end in
  db <| placements ::= insert (repositoryID, digest) row |>.

(* -------------------------------------------------------------------- *)
(** ** Repair *)

Definition RepairDistrustCache : Z := 1.
Definition RepairStreamOnly : Z := 2.
Definition MaxRepairLevel : Z := RepairStreamOnly.

Record RepairResult := mkRepairResult {
  rr_Placements : nat;
  rr_Blobs : nat;
  rr_AlreadyRepaired : bool }.

Definition no_repair : RepairResult := mkRepairResult 0 0 false.

(** [transfer_id = t AND kind = 'blob' AND target_repo_id = repo AND digest IN
    (SELECT digest FROM artifact_blobs WHERE artifact_id = a)] *)
Definition blob_of_artifact (db : DB) (t : string) (repo a : Z) (_ : Z) (j : job) : bool :=
  bool_decide (j_transfer j = t) && bool_decide (j_kind j = KBlob) &&
  bool_decide (j_target_repo j = repo) && bool_decide ((a, j_digest j) ∈ artifact_blobs db).

Definition repairable (db : DB) (t : string) (repo a : Z) (id : Z) (j : job) : bool :=
  blob_of_artifact db t repo a id j &&
  bool_decide (j_state j ∈ [JobSucceeded; JobSkipped; JobFailed; JobPending]) &&
  (j_repair_level j <? MaxRepairLevel).

Definition set_repaired (now : Z) (j : job) : job :=
  j <| j_state := JobPending |>
    <| j_repair_level := j_repair_level j + 1 |>
    <| j_attempts := 0 |>
    <| j_lease_owner := None |>
    <| j_lease_expires := None |>
    <| j_next_visible := now |>
    <| j_completed := None |>
    <| j_last_error := None |>
    <| j_last_error_class := None |>
    <| j_updated := now |>.

Definition set_reblocked (now : Z) (j : job) : job :=
  j <| j_state := JobBlocked |>
    <| j_lease_owner := None |>
    <| j_lease_expires := None |>
    <| j_next_visible := now |>
    <| j_completed := None |>
    <| j_updated := now |>.

(** The dependency edges and the withdrawn placements: what a repair does
    before it knows whether anything is left to repair. *)
Definition repair_edges (id : Z) (t : string) (repo a : Z) (db : DB) : DB :=
  db <| dependencies ::= union (list_to_set
    ((λ r, (id, r.1)) <$> select_where (blob_of_artifact db t repo a) (jobs db))) |>.

Definition placement_of_artifact (db : DB) (repo a : Z) (k : Z * string) (_ : placement) : bool :=
  bool_decide (k.1 = repo) && bool_decide ((a, k.2) ∈ artifact_blobs db).

Definition RepairMissingBlobs (now jobID : Z) (db : DB) : result (DB * RepairResult) :=
  j ← of_option (EJobNotFound jobID) (jobs db !! jobID);
  match j_artifact j with
  | None => Ok (db, no_repair)
  | Some a =>
      let t := j_transfer j in
      let repo := j_target_repo j in
      let db := repair_edges jobID t repo a db in
      let withdrawn := placement_of_artifact db repo a in
      let deleted := count_where withdrawn (placements db) in
      let db := db <| placements ::= delete_where withdrawn |> in
      let p := repairable db t repo a in
      let requeued := count_where p (jobs db) in
      let db := update_jobs p (λ _, set_repaired now) db in
      if bool_decide (requeued = O) then Ok (db, mkRepairResult deleted 0 true)
      else Ok (update_job jobID (set_reblocked now) db, mkRepairResult deleted requeued false)
  end.

(* -------------------------------------------------------------------- *)
(** ** Settling the transfer *)

Definition closeCancellation (now : Z) (t : string) (db : DB) : DB * TransferState :=
  if bool_decide (0 < count_where (job_of t [JobLeased]) (jobs db))%nat
  then (db, TransferCancelling)
  else (update_transfer t (λ r, r <| t_state := TransferCancelled |>
          <| t_completed := Some now |> <| t_updated := now |>) db, TransferCancelled).

Definition set_transfer_failed (now : Z) (reason : string) (r : transfer) : transfer :=
  r <| t_state := TransferFailed |> <| t_failure_reason := Some reason |>
    <| t_completed := Some now |> <| t_updated := now |>.

Definition finishTransfer (now : Z) (t : string) (db : DB) : DB * TransferState * nat :=
  let failed := failed_jobs t db in
  if bool_decide (failed = O) then
    (update_transfer t (λ r, r <| t_state := TransferSucceeded |> <| t_failure_reason := None |>
       <| t_completed := Some now |> <| t_updated := now |>) db, TransferSucceeded, O)
  else
    (update_transfer t (set_transfer_failed now (failureReason t failed db)) db, TransferFailed, failed).

Definition in_wave (t : string) (wave : Z) (_ : Z) (j : job) : bool :=
  bool_decide (j_transfer j = t) && bool_decide (j_wave j = wave).

Definition waveDrained (t : string) (wave : Z) (db : DB) : bool :=
  bool_decide (count_where (λ i j, in_wave t wave i j && negb (satisfied (j_state j))) (jobs db) = O).

Definition waveOccupied (t : string) (wave : Z) (db : DB) : bool :=
  bool_decide (0 < count_where (λ i j, in_wave t wave i j && job_of t outstanding i j) (jobs db))%nat.

Definition advanceWave (now : Z) (t : string) (next : Z) (db : DB) : DB :=
  update_jobs (λ i j, in_wave t next i j && bool_decide (j_state j = JobBlocked)) (set_pending now)
    (update_transfer t (λ r, r <| t_current_wave := next |> <| t_updated := now |>) db).

(** The walk [for next := currentWave+1; next <= maxWave; next++], [n] waves
    long: the wave it stopped at, if one is occupied. *)
Fixpoint advanceWaves (n : nat) (now : Z) (t : string) (next : Z) (db : DB) : DB * option Z :=
  match n with
  | O => (db, None)
  | S n =>
      let db := advanceWave now t next db in
      if waveOccupied t next db then (db, Some next)
      else advanceWaves n now t (next + 1) db
  end.

Definition settleIfStalled (now : Z) (t : string) (state : TransferState) (db : DB)
    : result (DB * TransferState) :=
  if negb (bool_decide (state ∈ [TransferRunning; TransferReady])) then Ok (db, state)
  else if bool_decide (count_where (λ _ j, bool_decide (j_transfer j = t)) (jobs db) = O)
  then Err (EScanNull "runnable")
  else
    let runnable := count_where (job_of t outstanding) (jobs db) in
    let failed := failed_jobs t db in
    if bool_decide (0 < runnable ∨ failed = 0)%nat then Ok (db, state)
    else
      let reason := failureReason t failed db in
      Ok (update_transfers
            (λ i r, bool_decide (i = t) && bool_decide (t_state r ∈ [TransferReady; TransferRunning]))
            (λ _, set_transfer_failed now reason) db, TransferFailed).

(** (advanced, newWave, state) *)
Definition settleTransfer (now : Z) (t : string) (wave : Z) (db : DB)
    : result (DB * (bool * Z * TransferState)) :=
  r ← of_option (EMissingRow "transfers" t) (transfers db !! t);
  let currentWave := t_current_wave r in
  let maxWave := t_max_wave r in
  if bool_decide (t_state r = TransferCancelling) then
    let '(db, state) := closeCancellation now t db in
    Ok (db, (false, currentWave, state))
  else
    let ready := bool_decide (t_state r = TransferReady) in
    let db := if ready then update_transfer t (λ r, r <| t_state := TransferRunning |>
                 <| t_started := Some (default now (t_started r)) |> <| t_updated := now |>) db
              else db in
    let state := if ready then TransferRunning else t_state r in
    if negb (waveDrained t wave db) || negb (wave =? currentWave) then
      let db := (FailUnreachableJobs now t db).1 in
      '(db, state) ← settleIfStalled now t state db;
      Ok (db, (false, currentWave, state))
    else
      match advanceWaves (Z.to_nat (maxWave - currentWave)) now t (currentWave + 1) db with
      | (db, Some next) => Ok (db, (true, next, state))
      | (db, None) =>
          let r := finishTransfer now t db in
          Ok (r.1.1, (false, currentWave, r.1.2))
      end.

(* -------------------------------------------------------------------- *)
(** ** The whole completion *)

Record CompletionResult := mkCompletionResult {
  Applied : bool;
  WaveAdvanced : bool;
  RTransferState : option TransferState;
  NewWave : Z;
  Promoted : nat;
  Repaired : RepairResult;
  RKind : option Kind;
  Settled : bool;
  Nanoseconds : Z;
  RBytes : Z }.

Definition stale_result : CompletionResult :=
  mkCompletionResult false false None 0 0 no_repair None false 0 0.

Definition effective_max (rowMax : Z) (c : Completion) : Z :=
  if (0 <? c_MaxAttempts c) && (c_MaxAttempts c <? rowMax) then c_MaxAttempts c else rowMax.

Definition job_failed_at (id : Z) (db : DB) : bool :=
  match jobs db !! id with
  | Some j => bool_decide (j_state j = JobFailed)
  | None => false
  end.

Definition record_placed (now : Z) (c : Completion) (j : job) (db : DB) : DB :=
  if c_Placed c && bool_decide (j_kind j = KBlob)
  then RecordPlacement now (j_target_repo j) (j_digest j) (j_size j) (placementSource c) db
  else db.

Definition repair_rejected (now : Z) (c : Completion) (j : job) (db : DB)
    : result (DB * RepairResult) :=
  if bool_decide (c_Outcome c = Failed) && bool_decide (c_ErrorClass c = ClassBlobUnknown)
     && bool_decide (j_kind j = KManifest)
  then RepairMissingBlobs now (c_JobID c) db
  else Ok (db, no_repair).

Definition promote_waiting (now : Z) (c : Completion) (db : DB) : DB * nat :=
  if bool_decide (c_Outcome c ∈ [Succeeded; Skipped])
  then PromoteDependents now (c_JobID c) db
  else (db, O).

Definition CompleteJob (now draw : Z) (c : Completion) (db : DB) : result (DB * CompletionResult) :=
  j ← of_option (EJobNotFound (c_JobID c)) (jobs db !! c_JobID c);
  if negb (held_by (c_Owner c) j) then Ok (db, stale_result)
  else
    db ← applyJobOutcome now draw c (effective_max (j_max_attempts j) c) db;
    let settled := if bool_decide (c_Outcome c = Failed) then job_failed_at (c_JobID c) db else true in
    let db := record_placed now c j db in
    '(db, repaired) ← repair_rejected now c j db;
    let '(db, promoted) := promote_waiting now c db in
    '(db, (advanced, newWave, state)) ← settleTransfer now (j_transfer j) (j_wave j) db;
    Ok (db, mkCompletionResult true advanced (Some state) newWave promoted repaired
              (Some (j_kind j)) settled (default 0 ((λ s, now - s) <$> j_started j)) (j_size j)).

(* -------------------------------------------------------------------- *)
(** ** What settling may touch *)

(** The only rows a settle changes are blocked jobs of its transfer: a wave
    opens on them, or the cascade fails them. *)
Definition settle_move (now : Z) (t : string) (id : Z) (j j' : job) : Prop :=
  j' = j ∨ (j_state j = JobBlocked ∧ j_transfer j = t ∧
            (j' = set_pending now id j ∨ j' = fail_by_dependency now id j)).

#[export] Instance settle_move_preorder now t id : PreOrder (settle_move now t id).
Proof.
  split; [by left|]. intros j1 j2 j3 [->|(Hs & Ht & Hm)]; [done|].
  intros [->|(Hs2 & _)]; [by right|]. by destruct Hm; subst j2.
Qed.

Definition settle_frame (now : Z) (t : string) (db db' : DB) : Prop :=
  rows (settle_move now t) (jobs db) (jobs db') ∧
  (∀ i, i ≠ t → transfers db' !! i = transfers db !! i) ∧
  db' = db <| jobs := jobs db' |> <| transfers := transfers db' |>.

#[export] Instance settle_frame_preorder now t : PreOrder (settle_frame now t).
Proof.
  split.
  - intros db. split; [done|]. split; [done|]. by destruct db.
  - intros d1 d2 d3 (Hr12 & Ht12 & He12) (Hr23 & Ht23 & He23).
    split; [by etrans|]. split; [intros i Hi; by rewrite Ht23, Ht12|].
    rewrite He23, He12. done.
Qed.

Lemma settle_frame_jobs now t p f db :
  (∀ i j, jobs db !! i = Some j → p i j = true → settle_move now t i j (f i j)) →
  settle_frame now t db (update_jobs p f db).
Proof.
  intros Hp. split; [by apply rows_update; [apply _|]|]. split; [done|].
  by destruct db.
Qed.

Lemma settle_frame_transfer now t f db : settle_frame now t db (update_transfer t f db).
Proof.
  split; [reflexivity|]. split; [intros; by apply lookup_update_transfer_ne|]. by destruct db.
Qed.

Lemma settle_frame_cascade now t db :
  settle_frame now t db (FailUnreachableJobs now t db).1.
Proof.
  destruct (FailUnreachableJobs_frame now t db) as [He Hf]. split.
  - intros i. specialize (Hf i).
    destruct (jobs db !! i) as [j|] eqn:Hj,
      (jobs (FailUnreachableJobs now t db).1 !! i) as [j'|] eqn:Hj'; try done; constructor.
    destruct Hf as [->|[Hd ->]]; [by left|].
    destruct (doomed_blocked _ _ _ Hd) as (j0 & ? & ? & ?). simplify_eq. right. eauto.
  - split; [by rewrite He|].
    assert (transfers (FailUnreachableJobs now t db).1 = transfers db) as -> by by rewrite He.
    exact He.
Qed.

Lemma settle_frame_advanceWave now t next db :
  settle_frame now t db (advanceWave now t next db).
Proof.
  unfold advanceWave. etrans; [apply settle_frame_transfer|].
  apply settle_frame_jobs. intros i j _.
  unfold in_wave. rewrite !andb_true_iff, !bool_decide_eq_true. right. naive_solver.
Qed.

Lemma settle_frame_advanceWaves n now t next db :
  settle_frame now t db (advanceWaves n now t next db).1.
Proof.
  revert next db. induction n as [|n IH]; intros next db; simpl; [reflexivity|].
  destruct (waveOccupied _ _ _); simpl.
  - apply settle_frame_advanceWave.
  - etrans; [apply settle_frame_advanceWave|apply IH].
Qed.

Lemma settle_frame_finish now t db : settle_frame now t db (finishTransfer now t db).1.1.
Proof. unfold finishTransfer. case_bool_decide; apply settle_frame_transfer. Qed.

Lemma settle_frame_close now t db : settle_frame now t db (closeCancellation now t db).1.
Proof. unfold closeCancellation. case_bool_decide; [done|apply settle_frame_transfer]. Qed.

Lemma settle_frame_stalled now t s db db' s' :
  settleIfStalled now t s db = Ok (db', s') → settle_frame now t db db'.
Proof.
  unfold settleIfStalled. case_bool_decide; simpl; [|by intros [= <- <-]].
  case_bool_decide; [done|]. case_bool_decide; intros [= <- <-]; [done|].
  split; [reflexivity|]. split; [|by destruct db]. intros i Hi. simpl.
  rewrite lookup_update_where, bool_decide_eq_false_2 by done. by destruct (transfers db !! i).
Qed.

Lemma settle_frame_settle now t wave db db' res :
  settleTransfer now t wave db = Ok (db', res) → settle_frame now t db db'.
Proof.
  unfold settleTransfer. intros (r & Hr & Hrest)%result_bind_Ok. case_bool_decide.
  { pose proof (settle_frame_close now t db). destruct (closeCancellation now t db).
    by injection Hrest as <- _. }
  set (db1 := if _ : bool then update_transfer _ _ _ else _) in Hrest.
  assert (settle_frame now t db db1) as H1.
  { unfold db1. case_bool_decide; [apply settle_frame_transfer|done]. }
  etrans; [exact H1|]. destruct (_ || _) in Hrest.
  - apply result_bind_Ok in Hrest as ([db2 s2] & Hst & [= <- _]).
    etrans; [apply settle_frame_cascade|]. by eapply settle_frame_stalled.
  - pose proof (settle_frame_advanceWaves (Z.to_nat (t_max_wave r - t_current_wave r)) now t
      (t_current_wave r + 1) db1) as H2.
    destruct (advanceWaves _ _ _ _ _) as [db2 [next|]]; injection Hrest as <- _; [done|].
    etrans; [exact H2|apply settle_frame_finish].
Qed.

(** Settling a transfer that exists and has a job does not fail. *)
Lemma settleTransfer_total now t wave db r i j :
  transfers db !! t = Some r → jobs db !! i = Some j → j_transfer j = t →
  ∃ db' res, settleTransfer now t wave db = Ok (db', res).
Proof.
  intros Hr Hj Ht. unfold settleTransfer. rewrite Hr. simpl. case_bool_decide.
  { destruct (closeCancellation now t db). eauto. }
  set (db1 := if bool_decide (t_state r = TransferReady) then _ else db).
  assert (jobs db1 !! i = Some j) as Hj1 by (unfold db1; by case_bool_decide).
  destruct (_ || _).
  - set (db2 := (FailUnreachableJobs now t db1).1).
    destruct (rows_lookup _ _ _ _ _ (proj1 (settle_frame_cascade now t db1)) Hj1)
      as (j2 & Hj2 & Hm).
    assert (j_transfer j2 = t) as Ht2.
    { destruct Hm as [->|(_ & ? & [-> | ->])]; done. }
    fold db2 in Hj2. unfold settleIfStalled. destruct (negb _); [simpl; by eauto|].
    rewrite (bool_decide_eq_false_2 (count_where _ _ = O)).
    { case_bool_decide; simpl; by eauto. }
    intros Hz. apply count_where_zero with (k := i) (v := j2) in Hz; [|done].
    by apply bool_decide_eq_false in Hz.
  - destruct (advanceWaves _ _ _ _ _) as [db2 [next|]]; eauto.
Qed.

(* -------------------------------------------------------------------- *)
(** ** The completing job's row, through the whole transaction *)

(** The row applyJobOutcome writes. *)
Definition outcome_row (now draw : Z) (c : Completion) (maxAttempts : Z) : job → job :=
  if bool_decide (c_Outcome c = Failed) then set_failed now draw c maxAttempts
  else set_finished now c.

Lemma applyJobOutcome_Ok now draw c m db db' :
  applyJobOutcome now draw c m db = Ok db' ↔
  db' = update_job (c_JobID c) (outcome_row now draw c m) db ∧
  (c_Outcome c ≠ Failed → skip_reason_ok (nullIfEmpty (c_SkipReason c)) = true).
Proof.
  unfold applyJobOutcome, outcome_row. case_bool_decide; simpl.
  - naive_solver.
  - destruct (skip_reason_ok _); naive_solver.
Qed.

Lemma jobs_record_placed now c j db : jobs (record_placed now c j db) = jobs db.
Proof.
  unfold record_placed, RecordPlacement.
  destruct (_ && _); [|done]. by destruct (blobs db !! _).
Qed.

(** The stages of an applied completion, named. *)
Record stages (now draw : Z) (c : Completion) (db db' : DB) (res : CompletionResult)
    (j : job) (db1 db2 db3 : DB) : Prop := {
  st_job : jobs db !! c_JobID c = Some j;
  st_held : held_by (c_Owner c) j = true;
  st_skip : c_Outcome c ≠ Failed → skip_reason_ok (nullIfEmpty (c_SkipReason c)) = true;
  st_outcome : db1 = record_placed now c j
    (update_job (c_JobID c) (outcome_row now draw c (effective_max (j_max_attempts j) c)) db);
  st_repair : repair_rejected now c j db1 = Ok (db2, Repaired res);
  st_promote : promote_waiting now c db2 = (db3, Promoted res);
  st_settle : ∃ s, RTransferState res = Some s ∧
    settleTransfer now (j_transfer j) (j_wave j) db3 = Ok (db', (WaveAdvanced res, NewWave res, s));
  st_settled : Settled res =
    (if bool_decide (c_Outcome c = Failed)
     then effective_max (j_max_attempts j) c <=? j_attempts j else true) }.

Lemma CompleteJob_stages now draw c db db' res :
  CompleteJob now draw c db = Ok (db', res) →
  (∃ j, jobs db !! c_JobID c = Some j ∧ held_by (c_Owner c) j = false ∧
     db' = db ∧ res = stale_result) ∨
  (Applied res = true ∧ ∃ j db1 db2 db3, stages now draw c db db' res j db1 db2 db3).
Proof.
  unfold CompleteJob. intros (j & Hj%of_option_Ok & Hrest)%result_bind_Ok.
  destruct (held_by (c_Owner c) j) eqn:Hheld; simpl in Hrest.
  2: { left. exists j. by injection Hrest as <- <-. }
  right. apply result_bind_Ok in Hrest as (d0 & [-> Hskip]%applyJobOutcome_Ok & Hrest).
  apply result_bind_Ok in Hrest as ([d2 rep] & Hrep & Hrest).
  destruct (promote_waiting now c d2) as [d3 n] eqn:Hprom.
  apply result_bind_Ok in Hrest as ([d4 [[adv nw] s]] & Hset & [= <- <-]).
  split; [done|]. eexists j, _, d2, d3.
  split; simpl; [done|done|exact Hskip|reflexivity|exact Hrep|exact Hprom|by exists s|].
  case_bool_decide as Ho; [|done]. unfold job_failed_at.
  erewrite lookup_update_job_eq by done. unfold outcome_row.
  rewrite (bool_decide_eq_true_2 (c_Outcome c = Failed)) by done. simpl.
  destruct (_ <=? _); [by rewrite bool_decide_eq_true_2|by rewrite bool_decide_eq_false_2].
Qed.

Lemma promote_waiting_frame now c db db' n :
  promote_waiting now c db = (db', n) →
  db' = db <| jobs := jobs db' |> ∧
  ∀ i, jobs db' !! i = jobs db !! i ∨
    ∃ k, jobs db !! i = Some k ∧ j_state k = JobBlocked ∧ all_satisfied db i ∧
      jobs db' !! i = Some (set_pending now i k).
Proof.
  unfold promote_waiting. case_bool_decide; [|intros [= <- _]; split; [by destruct db|by left]].
  unfold PromoteDependents. intros [= <- _]. split; [done|].
  intros i. destruct (jobs (update_jobs (dependent_ready db (c_JobID c)) (set_pending now) db) !! i)
    as [k'|] eqn:Hk'; rewrite lookup_update_jobs in Hk'; destruct (jobs db !! i) as [k|] eqn:Hk;
    try done; [|by left].
  simpl in Hk'. destruct (dependent_ready db (c_JobID c) i k) eqn:Hr; [|left; congruence].
  right. apply dependent_ready_true in Hr as (? & _ & ?). exists k. by injection Hk' as <-.
Qed.

(** A row that is not blocked when the settling starts is final. *)
Lemma settled_row now t wave db db' res i j :
  settleTransfer now t wave db = Ok (db', res) →
  jobs db !! i = Some j → j_state j ≠ JobBlocked → jobs db' !! i = Some j.
Proof.
  intros (Hr & _)%settle_frame_settle Hj Hs.
  destruct (rows_lookup _ _ _ _ _ Hr Hj) as (j' & Hj' & [->|[? _]]); done.
Qed.

Lemma repair_rejected_Ok now c j db db' rep :
  repair_rejected now c j db = Ok (db', rep) →
  (db' = db ∧ rep = no_repair) ∨
  (c_Outcome c = Failed ∧ j_kind j = KManifest ∧
   RepairMissingBlobs now (c_JobID c) db = Ok (db', rep)).
Proof.
  unfold repair_rejected. destruct (_ && _) eqn:Hb; [|intros [= <- <-]; by left].
  rewrite !andb_true_iff, !bool_decide_eq_true in Hb. right. naive_solver.
Qed.

(** The stages of a repair, named. *)
Lemma RepairMissingBlobs_Ok now id db db' rep j :
  jobs db !! id = Some j →
  RepairMissingBlobs now id db = Ok (db', rep) →
  match j_artifact j with
  | None => db' = db ∧ rep = no_repair
  | Some a =>
      let p := repairable db (j_transfer j) (j_target_repo j) a in
      let base := repair_edges id (j_transfer j) (j_target_repo j) a db
        <| placements ::= delete_where (placement_of_artifact db (j_target_repo j) a) |> in
      rr_Blobs rep = count_where p (jobs db) ∧
      rr_Placements rep =
        count_where (placement_of_artifact db (j_target_repo j) a) (placements db) ∧
      rr_AlreadyRepaired rep = bool_decide (rr_Blobs rep = O) ∧
      db' = if bool_decide (rr_Blobs rep = O) then base
            else update_job id (set_reblocked now) (update_jobs p (λ _, set_repaired now) base)
  end.
Proof.
  intros Hj. unfold RepairMissingBlobs. rewrite Hj. simpl.
  destruct (j_artifact j) as [a|]; [|by intros [= <- <-]].
  case_bool_decide as Hz; intros [= <- <-]; simpl.
  - split; [by rewrite <-Hz|]. split; [done|]. split; [done|].
    unfold update_jobs. simpl. by rewrite update_where_count_zero.
  - split; [done|]. split; [done|].
    rewrite bool_decide_eq_false_2 by done. done.
Qed.

Lemma transfers_record_placed now c j db : transfers (record_placed now c j db) = transfers db.
Proof.
  unfold record_placed, RecordPlacement.
  destruct (_ && _); [|done]. by destruct (blobs db !! _).
Qed.

Lemma RepairMissingBlobs_transfers now id db db' rep :
  RepairMissingBlobs now id db = Ok (db', rep) → transfers db' = transfers db.
Proof.
  unfold RepairMissingBlobs. intros (j & _ & Hrep)%result_bind_Ok.
  destruct (j_artifact j); [|by injection Hrep as <- _].
  case_bool_decide; by injection Hrep as <- _.
Qed.

(** Up to the settle, a completion writes no transfer row. *)
Lemma stages_transfers now draw c db db' res j db1 db2 db3 :
  stages now draw c db db' res j db1 db2 db3 → transfers db3 = transfers db.
Proof.
  intros Hst.
  destruct (promote_waiting_frame _ _ _ _ _ (st_promote _ _ _ _ _ _ _ _ _ _ Hst)) as [-> _].
  simpl. transitivity (transfers db1).
  - destruct (repair_rejected_Ok _ _ _ _ _ _ (st_repair _ _ _ _ _ _ _ _ _ _ Hst))
      as [[-> _]|(_ & _ & Hrep)]; [done|]. by eapply RepairMissingBlobs_transfers.
  - by rewrite (st_outcome _ _ _ _ _ _ _ _ _ _ Hst), transfers_record_placed.
Qed.

Lemma effective_max_min rowMax c :
  effective_max rowMax c =
  if bool_decide (0 < c_MaxAttempts c) then Z.min rowMax (c_MaxAttempts c) else rowMax.
Proof.
  unfold effective_max. case_bool_decide.
  - destruct (Z.ltb_spec 0 (c_MaxAttempts c)), (Z.ltb_spec (c_MaxAttempts c) rowMax); simpl; lia.
  - destruct (Z.ltb_spec 0 (c_MaxAttempts c)); [lia|done].
Qed.

Section stages.
Context {now draw : Z} {c : Completion} {db db' db1 db2 db3 : DB}
  {res : CompletionResult} {j : job}.
Context (Hst : stages now draw c db db' res j db1 db2 db3).
Let out := outcome_row now draw c (effective_max (j_max_attempts j) c) j.

Lemma stages_outcome_row : jobs db1 !! c_JobID c = Some out.
Proof using Hst.
  rewrite (st_outcome _ _ _ _ _ _ _ _ _ _ Hst), jobs_record_placed.
  by rewrite (lookup_update_job_eq _ _ _ j) by apply Hst.
Qed.

(** Unless a repair requeued blobs, the outcome is the row's final value. *)
Lemma stages_final_row :
  rr_Blobs (Repaired res) = O → jobs db' !! c_JobID c = Some out.
Proof using Hst.
  intros Hz. pose proof stages_outcome_row as Hrow.
  assert (j_state out ≠ JobBlocked) as Hnb.
  { unfold out, outcome_row. case_bool_decide; simpl.
    - by destruct (_ <=? _).
    - by destruct (c_Outcome c). }
  assert (jobs db2 !! c_JobID c = Some out) as Hrow2.
  { destruct (repair_rejected_Ok _ _ _ _ _ _ (st_repair _ _ _ _ _ _ _ _ _ _ Hst))
      as [[-> _]|(_ & _ & Hrep)]; [done|].
    apply (RepairMissingBlobs_Ok _ _ _ _ _ _ Hrow) in Hrep.
    destruct (j_artifact out); [|by destruct Hrep as [-> _]].
    destruct Hrep as (_ & _ & _ & ->). by rewrite bool_decide_eq_true_2. }
  destruct (promote_waiting_frame _ _ _ _ _ (st_promote _ _ _ _ _ _ _ _ _ _ Hst)) as [_ Hp].
  destruct (Hp (c_JobID c)) as [Heq|(k & Hk & Hs & _)]; [|simplify_eq].
  destruct (st_settle _ _ _ _ _ _ _ _ _ _ Hst) as (s & _ & Hset).
  eapply settled_row; [exact Hset| |exact Hnb]. by rewrite Heq.
Qed.
End stages.

(** Only a manifest's rejection for missing content is repaired. *)
Lemma unrepaired now draw c db db' res :
  CompleteJob now draw c db = Ok (db', res) → c_ErrorClass c ≠ ClassBlobUnknown → rr_Blobs (Repaired res) = O.
Proof.
  intros [(j & _ & _ & _ & ->)|(_ & j & db1 & db2 & db3 & Hst)]%CompleteJob_stages Hne; [done|].
  pose proof (st_repair _ _ _ _ _ _ _ _ _ _ Hst) as Hrep. unfold repair_rejected in Hrep.
  rewrite (bool_decide_eq_false_2 (c_ErrorClass c = ClassBlobUnknown)), andb_false_r in Hrep by done.
  by injection Hrep as _ <-.
Qed.

Lemma completion_verdict now draw c db db' res :
  CompleteJob now draw c db = Ok (db', res) →
  ∃ j, jobs db !! c_JobID c = Some j ∧
  let holds := j_state j = JobLeased ∧ j_lease_owner j = Some (c_Owner c) in
  let budget := if bool_decide (0 < c_MaxAttempts c)
                then Z.min (j_max_attempts j) (c_MaxAttempts c) else j_max_attempts j in
  (¬ holds → db' = db ∧ Applied res = false) ∧
  (holds → Applied res = true ∧
   (c_Outcome c ≠ Failed → Settled res = true ∧
      jobs db' !! c_JobID c = Some (set_finished now c j)) ∧
   (c_Outcome c = Failed → Settled res = (budget <=? j_attempts j) ∧
      (rr_Blobs (Repaired res) = O →
       ∃ j', jobs db' !! c_JobID c = Some j' ∧
         j_attempts j' = j_attempts j ∧ j_bytes j' = c_BytesTransferred c ∧
         j_lease_owner j' = None ∧ j_lease_expires j' = None ∧
         now ≤ j_next_visible j' ≤ now + DefaultCap ∧
         (budget ≤ j_attempts j → j_state j' = JobFailed ∧ j_completed j' = Some now) ∧
         (j_attempts j < budget → j_state j' = JobPending ∧ j_completed j' = None)))).
Proof.
  intros [(j & Hj & Hheld & -> & ->)|(Happ & j & db1 & db2 & db3 & Hst)]%CompleteJob_stages.
  - exists j. split; [done|]. split; [done|].
    intros [Hs Ho]. rewrite (proj2 (held_by_true _ _)) in Hheld; done.
  - exists j. split; [apply Hst|].
    pose proof (st_held _ _ _ _ _ _ _ _ _ _ Hst) as [Ho Hs]%held_by_true.
    cbv zeta. rewrite <-effective_max_min.
    split; [intros Hn; by destruct Hn|]. intros _. split; [done|].
    pose proof (stages_final_row Hst) as Hfin. unfold outcome_row in Hfin.
    pose proof (st_settled _ _ _ _ _ _ _ _ _ _ Hst) as Hsettled. split.
    + intros Hne. rewrite bool_decide_eq_false_2 in Hfin, Hsettled by done.
      split; [done|]. apply Hfin.
      destruct (repair_rejected_Ok _ _ _ _ _ _ (st_repair _ _ _ _ _ _ _ _ _ _ Hst))
        as [[_ ->]|[? _]]; done.
    + intros Hf. rewrite bool_decide_eq_true_2 in Hfin, Hsettled by done.
      split; [done|]. intros Hz. eexists. split; [by apply Hfin|].
      unfold set_failed. simpl. pose proof (retryDelay_cap (c_Attempt c) draw).
      repeat split; try lia.
      all: destruct (Z.leb_spec (effective_max (j_max_attempts j) c) (j_attempts j)); (done || lia).
Qed.

(* -------------------------------------------------------------------- *)
(** ** Waves *)

Lemma elem_of_outstanding s :
  s ∈ outstanding ↔ s = JobPending ∨ s = JobBlocked ∨ s = JobLeased.
Proof. unfold outstanding. set_solver. Qed.

(** Wave [k] of [t] holds work that can still move. *)
Definition occupied (t : string) (k : Z) (db : DB) : Prop :=
  ∃ i j, jobs db !! i = Some j ∧ j_transfer j = t ∧ j_wave j = k ∧ j_state j ∈ outstanding.

Lemma waveOccupied_true t k db : waveOccupied t k db = true ↔ occupied t k db.
Proof.
  unfold waveOccupied, occupied. rewrite bool_decide_eq_true, count_where_pos.
  setoid_rewrite andb_true_iff. setoid_rewrite job_of_true.
  unfold in_wave. setoid_rewrite andb_true_iff. setoid_rewrite bool_decide_eq_true.
  naive_solver.
Qed.

Lemma waveOccupied_false t k db : waveOccupied t k db = false ↔ ¬ occupied t k db.
Proof. by rewrite <-not_true_iff_false, waveOccupied_true. Qed.

Lemma waveDrained_true t k db :
  waveDrained t k db = true ↔
  ∀ i j, jobs db !! i = Some j → j_transfer j = t → j_wave j = k → satisfied (j_state j) = true.
Proof.
  unfold waveDrained, in_wave. rewrite bool_decide_eq_true, count_where_zero. split.
  - intros Hall i j Hj Ht Hw. specialize (Hall i j Hj).
    rewrite !bool_decide_eq_true_2 in Hall by done. by destruct (satisfied _).
  - intros Hall i j Hj. repeat case_bool_decide; simpl; try done. by rewrite (Hall i j).
Qed.

Lemma lookup_advanceWave now t next db i :
  jobs (advanceWave now t next db) !! i =
  (λ j, if in_wave t next i j && bool_decide (j_state j = JobBlocked)
        then set_pending now i j else j) <$> jobs db !! i.
Proof. unfold advanceWave. by rewrite lookup_update_jobs, jobs_update_transfer. Qed.

(** Opening a wave moves work from blocked to pending: every wave stays as
    occupied as it was. *)
Lemma occupied_advanceWave now t next k db :
  occupied t k (advanceWave now t next db) ↔ occupied t k db.
Proof.
  unfold occupied. split.
  - intros (i & j' & Hj' & Ht & Hw & Hs). rewrite lookup_advanceWave in Hj'.
    destruct (jobs db !! i) as [j|] eqn:Hj; [|done]. injection Hj' as <-. exists i, j.
    destruct (in_wave t next i j && _) eqn:Hb; simpl in *; [|done].
    rewrite !andb_true_iff, !bool_decide_eq_true in Hb. destruct Hb as [_ Hb].
    rewrite Hb. split_and!; try done. by apply elem_of_outstanding; auto.
  - intros (i & j & Hj & Ht & Hw & Hs).
    exists i, (if in_wave t next i j && bool_decide (j_state j = JobBlocked)
               then set_pending now i j else j).
    rewrite lookup_advanceWave, Hj. split; [done|].
    destruct (_ && _); simpl; [|done]. split_and!; try done. apply elem_of_outstanding. auto.
Qed.

Lemma transfer_advanceWave now t next db r :
  transfers db !! t = Some r →
  transfers (advanceWave now t next db) !! t =
    Some (r <| t_current_wave := next |> <| t_updated := now |>).
Proof.
  intros Hr. unfold advanceWave. rewrite transfers_update_jobs.
  by rewrite (lookup_update_transfer_eq _ _ _ _ Hr).
Qed.

(** The walk stops at the first occupied wave of its range, if there is one,
    with the transfer there and nothing of that wave left blocked. *)
Lemma advanceWaves_spec n now t next db db' w :
  advanceWaves n now t next db = (db', w) →
  (∀ k, occupied t k db' ↔ occupied t k db) ∧
  match w with
  | None => ∀ k, next ≤ k < next + Z.of_nat n → ¬ occupied t k db
  | Some w =>
      next ≤ w < next + Z.of_nat n ∧ occupied t w db ∧
      (∀ k, next ≤ k < w → ¬ occupied t k db) ∧
      (∀ i j, jobs db' !! i = Some j → j_transfer j = t → j_wave j = w → j_state j ≠ JobBlocked) ∧
      (∀ r, transfers db !! t = Some r → ∃ r', transfers db' !! t = Some r' ∧
         t_current_wave r' = w ∧ t_state r' = t_state r)
  end.
Proof.
  revert next db. induction n as [|n IH]; intros next db.
  { intros [= <- <-]. split; [done|]. lia. }
  cbn [advanceWaves]. destruct (waveOccupied t next _) eqn:Hocc.
  - intros [= <- <-]. apply waveOccupied_true in Hocc.
    split; [intros k; apply occupied_advanceWave|]. split; [lia|].
    split; [by eapply occupied_advanceWave|]. split; [lia|]. split.
    + intros i j' Hj' Ht Hw. rewrite lookup_advanceWave in Hj'.
      destruct (jobs db !! i) as [j|]; [|done]. injection Hj' as <-.
      destruct (in_wave t next i j && _) eqn:Hb; [done|]. intros Hs. unfold in_wave in Hb.
      by rewrite !bool_decide_eq_true_2 in Hb.
    + intros r Hr. eexists. split; [by apply transfer_advanceWave|done].
  - intros Hw. apply IH in Hw as [Hsame Hw].
    apply waveOccupied_false in Hocc. rewrite occupied_advanceWave in Hocc.
    setoid_rewrite occupied_advanceWave in Hsame. split; [done|].
    destruct w as [w|].
    + setoid_rewrite occupied_advanceWave in Hw.
      destruct Hw as (Hr & Ho & Hlow & Hb & Ht). split; [lia|]. split; [done|].
      split; [|split; [done|]].
      * intros k Hk. destruct (decide (k = next)) as [->|]; [done|]. apply Hlow. lia.
      * intros r Hr'. destruct (Ht _ (transfer_advanceWave _ _ _ _ _ Hr')) as (r' & ? & ? & ?).
        eauto.
    + setoid_rewrite occupied_advanceWave in Hw.
      intros k Hk. destruct (decide (k = next)) as [->|]; [done|]. apply Hw. lia.
Qed.

(* -------------------------------------------------------------------- *)
(** ** Verdicts *)

(** The state settling goes on from: a ready transfer has been started. *)
Definition settling_state (s : TransferState) : TransferState :=
  if bool_decide (s = TransferReady) then TransferRunning else s.

Lemma settling_state_new s st : settling_state s = st → s ≠ st → st = TransferRunning.
Proof. unfold settling_state. intros <-. by case_bool_decide. Qed.

Inductive settles (now : Z) (t : string) (wave : Z) (db : DB) (r : transfer) (db' : DB)
    : bool → Z → TransferState → Prop :=
  | settles_cancelling s :
      t_state r = TransferCancelling → closeCancellation now t db = (db', s) →
      settles now t wave db r db' false (t_current_wave r) s
  | settles_stalled db1 r1 s :
      t_state r ≠ TransferCancelling →
      jobs db1 = jobs db → transfers db1 !! t = Some r1 → t_state r1 = settling_state (t_state r) →
      t_current_wave r1 = t_current_wave r →
      (waveDrained t wave db = false ∨ wave ≠ t_current_wave r) →
      settleIfStalled now t (settling_state (t_state r)) (FailUnreachableJobs now t db1).1 = Ok (db', s) →
      settles now t wave db r db' false (t_current_wave r) s
  | settles_advanced db1 r1 next :
      t_state r ≠ TransferCancelling →
      jobs db1 = jobs db → transfers db1 !! t = Some r1 → t_state r1 = settling_state (t_state r) →
      t_current_wave r1 = t_current_wave r →
      waveDrained t wave db = true → wave = t_current_wave r →
      advanceWaves (Z.to_nat (t_max_wave r - wave)) now t (wave + 1) db1 = (db', Some next) →
      settles now t wave db r db' true next (settling_state (t_state r))
  | settles_finished db1 r1 db2 failed s :
      t_state r ≠ TransferCancelling →
      jobs db1 = jobs db → transfers db1 !! t = Some r1 → t_state r1 = settling_state (t_state r) →
      t_current_wave r1 = t_current_wave r →
      waveDrained t wave db = true → wave = t_current_wave r →
      advanceWaves (Z.to_nat (t_max_wave r - wave)) now t (wave + 1) db1 = (db2, None) →
      finishTransfer now t db2 = (db', s, failed) →
      settles now t wave db r db' false (t_current_wave r) s.

Lemma settleTransfer_settles now t wave db db' adv nw s r :
  transfers db !! t = Some r →
  settleTransfer now t wave db = Ok (db', (adv, nw, s)) → settles now t wave db r db' adv nw s.
Proof.
  intros Hr. unfold settleTransfer. rewrite Hr. simpl. case_bool_decide as Hc.
  { destruct (closeCancellation now t db) as [d st] eqn:Hcl. intros [= <- <- <- <-].
    by constructor. }
  set (db1 := if bool_decide (t_state r = TransferReady) then _ else db).
  change (if bool_decide (t_state r = TransferReady) then TransferRunning else t_state r)
    with (settling_state (t_state r)).
  assert (jobs db1 = jobs db) as Hj1 by (unfold db1; by case_bool_decide).
  assert (∃ r1, transfers db1 !! t = Some r1 ∧ t_state r1 = settling_state (t_state r) ∧
    t_current_wave r1 = t_current_wave r) as (r1 & Hr1 & Hs1 & Hw1).
  { unfold db1, settling_state. case_bool_decide; [|by eauto].
    rewrite (lookup_update_transfer_eq _ _ _ _ Hr). eauto. }
  assert (waveDrained t wave db1 = waveDrained t wave db) as ->
    by (unfold waveDrained; by rewrite Hj1).
  destruct (waveDrained t wave db) eqn:Hd; simpl.
  2: { intros ([d2 s2] & Hst & [= <- <- <- <-])%result_bind_Ok.
       eapply settles_stalled; eauto. }
  destruct (Z.eqb_spec wave (t_current_wave r)) as [Hw|Hw]; simpl.
  2: { intros ([d2 s2] & Hst & [= <- <- <- <-])%result_bind_Ok.
       eapply settles_stalled; eauto. }
  subst wave. destruct (advanceWaves _ _ _ _ _) as [d2 [next|]] eqn:Hadv.
  - intros [= <- <- <- <-]. eapply settles_advanced; eauto.
  - destruct (finishTransfer now t d2) as [[d3 s3] f] eqn:Hf. intros [= <- <- <- <-].
    eapply settles_finished; eauto.
Qed.

Lemma failed_jobs_pos t db :
  failed_jobs t db ≠ O ↔ ∃ i j, jobs db !! i = Some j ∧ j_transfer j = t ∧ j_state j = JobFailed.
Proof.
  unfold failed_jobs. rewrite Nat.neq_0_lt_0, count_where_pos.
  setoid_rewrite job_of_true. setoid_rewrite list_elem_of_singleton. done.
Qed.

Lemma finishTransfer_spec now t db db' s failed r :
  transfers db !! t = Some r → finishTransfer now t db = (db', s, failed) →
  jobs db' = jobs db ∧
  ∃ r', transfers db' !! t = Some r' ∧ t_state r' = s ∧ t_completed r' = Some now ∧
    t_current_wave r' = t_current_wave r ∧
  ((s = TransferSucceeded ∧ t_failure_reason r' = None ∧
    ∀ i j, jobs db !! i = Some j → j_transfer j = t → j_state j ≠ JobFailed) ∨
   (s = TransferFailed ∧ t_failure_reason r' = Some (failureReason t (failed_jobs t db) db) ∧
    ∃ i j, jobs db !! i = Some j ∧ j_transfer j = t ∧ j_state j = JobFailed)).
Proof.
  intros Hr. unfold finishTransfer. case_bool_decide as Hz; intros [= <- <- <-];
    (split; [done|]; rewrite (lookup_update_transfer_eq _ _ _ _ Hr); eexists; split_and!; [done..|]).
  - left. split_and!; [done..|]. intros i j Hj Ht Hs.
    apply (proj2 (failed_jobs_pos t db)); [eauto|done].
  - right. split_and!; [done..|]. by apply failed_jobs_pos.
Qed.

Lemma settleIfStalled_spec now t s0 db db' s r :
  transfers db !! t = Some r → t_state r = s0 →
  settleIfStalled now t s0 db = Ok (db', s) →
  jobs db' = jobs db ∧
  ∃ r', transfers db' !! t = Some r' ∧ t_state r' = s ∧ t_current_wave r' = t_current_wave r ∧
  (s = s0 ∨
   (s = TransferFailed ∧ t_completed r' = Some now ∧
    t_failure_reason r' = Some (failureReason t (failed_jobs t db) db) ∧
    (∃ i j, jobs db !! i = Some j ∧ j_transfer j = t ∧ j_state j = JobFailed) ∧
    (∀ i j, jobs db !! i = Some j → j_transfer j = t → j_state j ∉ outstanding))).
Proof.
  intros Hr Hs0. unfold settleIfStalled. case_bool_decide as Hin; simpl.
  2: { intros [= <- <-]. eauto 10. }
  case_bool_decide; [done|]. case_bool_decide as Hno; intros [= <- <-]; [by eauto 10|].
  split; [done|]. simpl. rewrite lookup_update_where, Hr. simpl.
  rewrite !bool_decide_eq_true_2 by set_solver. simpl. eexists. split_and!; [done..|].
  right. apply Decidable.not_or in Hno as [Hno Hf]. split_and!; [done..| |].
  - by apply failed_jobs_pos.
  - intros i j Hj Ht Ho. apply Hno, count_where_pos. exists i, j.
    by rewrite job_of_true.
Qed.

(** A cancelling transfer closes once nothing of it is leased. *)
Lemma closeCancellation_spec now t db db' s r :
  transfers db !! t = Some r → t_state r = TransferCancelling →
  closeCancellation now t db = (db', s) →
  let in_flight := ∃ i j, jobs db' !! i = Some j ∧ j_transfer j = t ∧ j_state j = JobLeased in
  ∃ r', transfers db' !! t = Some r' ∧ t_state r' = s ∧ t_current_wave r' = t_current_wave r ∧
    ((s = TransferCancelled ∧ t_completed r' = Some now ∧ ¬ in_flight) ∨
     (s = TransferCancelling ∧ r' = r ∧ in_flight)).
Proof.
  intros Hr Hc. unfold closeCancellation.
  assert ((0 < count_where (job_of t [JobLeased]) (jobs db))%nat ↔
    ∃ i j, jobs db !! i = Some j ∧ j_transfer j = t ∧ j_state j = JobLeased) as Hfl.
  { rewrite count_where_pos. setoid_rewrite job_of_true.
    by setoid_rewrite list_elem_of_singleton. }
  case_bool_decide as Hz; intros [= <- <-].
  - exists r. split_and!; try done. right. split_and!; try done. by apply Hfl.
  - rewrite (lookup_update_transfer_eq _ _ _ _ Hr). eexists. split_and!; [done..|].
    left. split_and!; try done. by rewrite jobs_update_transfer, <-Hfl.
Qed.

(** The jobs a finished walk leaves in the waves it crossed. *)
Lemma crossed_waves now t db1 db2 r wave :
  advanceWaves (Z.to_nat (t_max_wave r - wave)) now t (wave + 1) db1 = (db2, None) →
  waveDrained t wave db1 = true →
  ∀ i j, jobs db2 !! i = Some j → j_transfer j = t → wave ≤ j_wave j ≤ t_max_wave r →
  j_state j ∉ outstanding.
Proof.
  intros Hadv Hd i j Hj Ht Hw Ho.
  destruct (advanceWaves_spec _ _ _ _ _ _ _ Hadv) as [Hsame Hnone].
  assert (occupied t (j_wave j) db1) as Hocc by (apply Hsame; exists i, j; done).
  destruct (decide (j_wave j = wave)) as [Heq|]; [|apply (Hnone (j_wave j)); [lia|done]].
  destruct Hocc as (i0 & j0 & Hj0 & Ht0 & Hw0 & Ho0).
  assert (satisfied (j_state j0) = true) as Hsat.
  { eapply waveDrained_true; [exact Hd|exact Hj0|done|congruence]. }
  apply elem_of_outstanding in Ho0 as [E|[E|E]]; by rewrite E in Hsat.
Qed.

(** A wave opened with work in it is where the walk stops. *)
Lemma advanceWaves_rows n now t next db db' w i k :
  advanceWaves n now t next db = (db', w) → jobs db !! i = Some k →
  jobs db' !! i = Some k ∨
  (jobs db' !! i = Some (set_pending now i k) ∧ j_state k = JobBlocked ∧ j_transfer k = t ∧ w = Some (j_wave k)).
Proof.
  revert next db. induction n as [|n IH]; intros next db; [intros [= <- _]; by left|].
  cbn [advanceWaves]. intros Hw Hk. pose proof (lookup_advanceWave now t next db i) as Hrow.
  rewrite Hk in Hrow. simpl in Hrow. destruct (in_wave t next i k && _) eqn:Hb.
  - unfold in_wave in Hb. rewrite !andb_true_iff, !bool_decide_eq_true in Hb. destruct Hb as [[Ht Hn] Hs].
    assert (waveOccupied t next (advanceWave now t next db) = true) as Hocc.
    { apply waveOccupied_true. apply occupied_advanceWave. exists i, k. rewrite Hs. split_and!; [done..|]. set_solver. }
    rewrite Hocc in Hw. injection Hw as <- <-. right. by rewrite Hn.
  - destruct (waveOccupied t next (advanceWave now t next db)); [injection Hw as <- _; by left|].
    by apply IH in Hw.
Qed.

(** What a settle makes of a row: it opens the wave it advances to, and where it
    does not advance the cascade may fail what waits. *)
Lemma settle_rows now t wave db db' adv nw s i k :
  settleTransfer now t wave db = Ok (db', (adv, nw, s)) → jobs db !! i = Some k →
  jobs db' !! i = Some k ∨
  (j_state k = JobBlocked ∧ j_transfer k = t ∧
   ((adv = true ∧ j_wave k = nw ∧ jobs db' !! i = Some (set_pending now i k)) ∨
    (adv = false ∧ jobs db' !! i = Some (fail_by_dependency now i k)))).
Proof.
  intros Hset Hk. destruct (transfers db !! t) as [r|] eqn:Hr; [|unfold settleTransfer in Hset; by rewrite Hr in Hset].
  apply (settleTransfer_settles _ _ _ _ _ _ _ _ _ Hr) in Hset.
  destruct Hset as [s Hc Hcl|db1 r1 s Hc Hj1 Hr1 Hs1 Hw1 Hnd Hst|db1 r1 next Hc Hj1 Hr1 Hs1 Hw1 Hd Hw Hadv
    |db1 r1 db2 failed s Hc Hj1 Hr1 Hs1 Hw1 Hd Hw Hadv Hf]; rewrite <-?Hj1 in Hk.
  - left. unfold closeCancellation in Hcl. case_bool_decide; by injection Hcl as <- _.
  - destruct (FailUnreachableJobs_frame now t db1) as [He Hf].
    assert (jobs db' = jobs (FailUnreachableJobs now t db1).1) as ->.
    { refine (proj1 (settleIfStalled_spec _ _ _ _ _ _ r1 _ Hs1 Hst)). by rewrite He. }
    specialize (Hf i). rewrite Hk in Hf.
    destruct (jobs (FailUnreachableJobs now t db1).1 !! i) as [k'|]; [|done].
    destruct Hf as [->|[Hd ->]]; [by left|right].
    destruct (doomed_blocked _ _ _ Hd) as (k0 & ? & ? & ?). simplify_eq. eauto 6.
  - destruct (advanceWaves_rows _ _ _ _ _ _ _ _ _ Hadv Hk) as [?|(? & ? & ? & [= ->])]; [by left|right; eauto 6].
  - destruct (advanceWaves_rows _ _ _ _ _ _ _ _ _ Hadv Hk) as [Hk2|(_ & _ & _ & ?)]; [left|done].
    unfold finishTransfer in Hf. case_bool_decide; by injection Hf as <- _.
Qed.

(* -------------------------------------------------------------------- *)
(** ** The other rows, through the whole transaction *)

(** The artifact whose blobs a report sends back for repair: that of a
    manifest refused for missing content. *)
Definition refused_artifact (c : Completion) (j : job) : option Z :=
  if bool_decide (c_Outcome c = Failed) && bool_decide (c_ErrorClass c = ClassBlobUnknown)
     && bool_decide (j_kind j = KManifest)
  then j_artifact j else None.

(** The blob jobs the repair requeues: those of the refused artifact at the
    manifest's repository, settled or waiting, with escalation left. *)
Definition requeued (c : Completion) (j : job) (db : DB) (i : Z) (k : job) : bool :=
  match refused_artifact c j with
  | Some a => repairable db (j_transfer j) (j_target_repo j) a i k
  | None => false
  end.

Lemma requeued_kind c j db i k : requeued c j db i k = true → j_kind j = KManifest ∧ j_kind k = KBlob.
Proof.
  unfold requeued, refused_artifact. destruct (_ && _) eqn:Hm; [|done].
  destruct (j_artifact j); [|done]. unfold repairable, blob_of_artifact.
  rewrite !andb_true_iff, !bool_decide_eq_true in *. naive_solver.
Qed.

(** What the transaction may make of the row [k] of another job [i]: requeued by
    the repair, promoted as a dependent, opened with the wave the transfer
    advances to, failed by the cascade where it does not advance. *)
Inductive neighbour (now : Z) (c : Completion) (res : CompletionResult) (j : job) (db : DB) (i : Z) (k : job)
    : job → Prop :=
  | neighbour_kept : requeued c j db i k = false → neighbour now c res j db i k k
  | neighbour_repaired : requeued c j db i k = true → neighbour now c res j db i k (set_repaired now k)
  | neighbour_promoted :
      requeued c j db i k = false → j_state k = JobBlocked → c_Outcome c ∈ [Succeeded; Skipped] →
      (i, c_JobID c) ∈ dependencies db → neighbour now c res j db i k (set_pending now i k)
  | neighbour_opened :
      requeued c j db i k = false → j_state k = JobBlocked → j_transfer k = j_transfer j →
      WaveAdvanced res = true → j_wave k = NewWave res →
      neighbour now c res j db i k (set_pending now i k)
  | neighbour_doomed :
      requeued c j db i k = false → j_state k = JobBlocked → j_transfer k = j_transfer j →
      WaveAdvanced res = false →
      neighbour now c res j db i k (fail_by_dependency now i k).

Lemma requeued_failed c j db i k : c_Outcome c ≠ Failed → requeued c j db i k = false.
Proof. intros Hne. unfold requeued, refused_artifact. by rewrite bool_decide_eq_false_2. Qed.

Lemma neighbour_leased now c res j db i k k' :
  neighbour now c res j db i k k' → j_state k = JobLeased → k' = k.
Proof.
  intros [] Hl; try congruence. exfalso.
  unfold requeued, repairable in *. destruct (refused_artifact c j); [|done].
  match goal with H : _ = true |- _ => rewrite !andb_true_iff, bool_decide_eq_true in H end.
  rewrite Hl in *. set_solver.
Qed.

Section neighbours.
Context {now draw : Z} {c : Completion} {db db' db1 db2 db3 : DB}
  {res : CompletionResult} {j : job}.
Context (Hst : stages now draw c db db' res j db1 db2 db3).
Let out := outcome_row now draw c (effective_max (j_max_attempts j) c) j.

Lemma stages_db1 i : jobs db1 !! i = if bool_decide (i = c_JobID c) then Some out else jobs db !! i.
Proof using Hst.
  rewrite (st_outcome _ _ _ _ _ _ _ _ _ _ Hst), jobs_record_placed, lookup_update_job.
  case_bool_decide; [subst i; by rewrite (st_job _ _ _ _ _ _ _ _ _ _ Hst)|by destruct (jobs db !! i)].
Qed.

Lemma stages_requeued i k : requeued c j db1 i k = requeued c j db i k.
Proof using Hst.
  unfold requeued, repairable, blob_of_artifact. destruct (refused_artifact c j); [|done].
  assert (artifact_blobs db1 = artifact_blobs db) as ->; [|done].
  rewrite (st_outcome _ _ _ _ _ _ _ _ _ _ Hst). unfold record_placed, RecordPlacement.
  destruct (_ && _); [|done]. by destruct (blobs _ !! _).
Qed.

Lemma stages_out_same : j_kind out = j_kind j ∧ j_artifact out = j_artifact j ∧
  j_transfer out = j_transfer j ∧ j_target_repo out = j_target_repo j ∧ j_wave out = j_wave j.
Proof using Type. unfold out, outcome_row. by case_bool_decide. Qed.

(** The repair stage: the rows it requeues, the reporter's own row, no other. *)
Lemma stages_repair :
  rr_Blobs (Repaired res) = count_where (requeued c j db) (jobs db1) ∧
  (c_Outcome c ≠ Failed → dependencies db2 = dependencies db) ∧
  ∀ i, jobs db2 !! i =
    if bool_decide (i = c_JobID c)
    then Some (if bool_decide (rr_Blobs (Repaired res) = O) then out else set_reblocked now out)
    else (λ k, if requeued c j db i k then set_repaired now k else k) <$> jobs db !! i.
Proof using Hst.
  pose proof (st_repair _ _ _ _ _ _ _ _ _ _ Hst) as Hrep. pose proof stages_db1 as Hdb1.
  destruct stages_out_same as (Hk & Ha & Ht & Hr & _).
  assert (dependencies db1 = dependencies db) as Hd1.
  { rewrite (st_outcome _ _ _ _ _ _ _ _ _ _ Hst). unfold record_placed, RecordPlacement.
    destruct (_ && _); [|done]. by destruct (blobs _ !! _). }
  assert (refused_artifact c j = None → db2 = db1 ∧ Repaired res = no_repair) as Hnone.
  { unfold refused_artifact. unfold repair_rejected in Hrep. destruct (_ && _); [|by injection Hrep].
    intros Hn. apply (RepairMissingBlobs_Ok _ _ _ _ _ _ (stages_outcome_row Hst)) in Hrep.
    fold out in Hrep. by rewrite Ha, Hn in Hrep. }
  destruct (refused_artifact c j) as [a|] eqn:Href.
  2: { destruct (Hnone eq_refl) as [-> ->]. unfold requeued. rewrite Href. simpl.
       split; [symmetry; by apply count_where_zero|]. split; [by rewrite Hd1|]. intros i.
       rewrite Hdb1. case_bool_decide; [done|]. by destruct (jobs db !! i). }
  assert (j_artifact out = Some a ∧ ∀ i k, repairable db1 (j_transfer out) (j_target_repo out) a i k =
    requeued c j db i k) as [Ho Hp].
  { split; [unfold refused_artifact in Href; destruct (_ && _); [congruence|done]|].
    intros i k. rewrite <-stages_requeued. unfold requeued. by rewrite Href, Ht, Hr. }
  unfold repair_rejected in Hrep. unfold refused_artifact in Href.
  destruct (_ && _) eqn:Hb; [|done].
  assert (c_Outcome c = Failed) as Hfail
    by (rewrite !andb_true_iff, !bool_decide_eq_true in Hb; tauto).
  apply (RepairMissingBlobs_Ok _ _ _ _ _ _ (stages_outcome_row Hst)) in Hrep. fold out in Hrep.
  rewrite Ho in Hrep. destruct Hrep as (Hcount & _ & _ & ->).
  rewrite (count_where_ext _ (requeued c j db)) in Hcount by auto.
  split; [done|]. split; [by intros []|]. intros i.
  assert (requeued c j db (c_JobID c) out = false) as Hown.
  { apply not_true_iff_false. intros [E1 E2]%requeued_kind. congruence. }
  case_bool_decide as Hz.
  - change (jobs db1 !! i = if bool_decide (i = c_JobID c) then Some out else
      (λ k, if requeued c j db i k then set_repaired now k else k) <$> jobs db !! i).
    rewrite Hdb1. destruct (decide (i = c_JobID c)) as [Hi|Hi];
      [by rewrite !bool_decide_eq_true_2|rewrite !bool_decide_eq_false_2 by done].
    destruct (jobs db !! i) as [k|] eqn:Hik; [|done]. simpl.
    rewrite Hcount in Hz. apply count_where_zero with (k := i) (v := k) in Hz; [by rewrite Hz|].
    by rewrite Hdb1, bool_decide_eq_false_2.
  - rewrite lookup_update_job, lookup_update_jobs.
    match goal with |- context [jobs ?d !! i] => change (jobs d) with (jobs db1) end.
    rewrite Hdb1. destruct (decide (i = c_JobID c)) as [Hi|Hi];
      [rewrite !bool_decide_eq_true_2 by done|rewrite !bool_decide_eq_false_2 by done].
    + simpl. by rewrite Hp, Hi, Hown.
    + destruct (jobs db !! i); [|done]. simpl. by rewrite Hp.
Qed.

(** From the repair on, a row moves only if it is blocked. *)
Lemma stages_late i k :
  jobs db2 !! i = Some k →
  ∃ k', jobs db' !! i = Some k' ∧
    (k' = k ∨
     (j_state k = JobBlocked ∧
      ((k' = set_pending now i k ∧
        (c_Outcome c ∈ [Succeeded; Skipped] ∧ (i, c_JobID c) ∈ dependencies db2 ∨
         j_transfer k = j_transfer j ∧ WaveAdvanced res = true ∧ j_wave k = NewWave res)) ∨
       (k' = fail_by_dependency now i k ∧ j_transfer k = j_transfer j ∧ WaveAdvanced res = false)))).
Proof using Hst.
  intros Hk. destruct (st_settle _ _ _ _ _ _ _ _ _ _ Hst) as (s & _ & Hset).
  pose proof (λ k, settle_rows _ _ _ _ _ _ _ _ i k Hset) as Hrows.
  pose proof (st_promote _ _ _ _ _ _ _ _ _ _ Hst) as Hp.
  assert (jobs db3 !! i = Some k ∨ (jobs db3 !! i = Some (set_pending now i k) ∧
    j_state k = JobBlocked ∧ c_Outcome c ∈ [Succeeded; Skipped] ∧ (i, c_JobID c) ∈ dependencies db2))
    as [Hk3|(Hk3 & Hs & Ho & Hd)].
  { unfold promote_waiting, PromoteDependents in Hp.
    case_bool_decide as Ho; [|injection Hp as <- _; by left]. injection Hp as <- _.
    rewrite lookup_update_jobs, Hk. simpl.
    destruct (dependent_ready db2 (c_JobID c) i k) eqn:Hr; [right|by left].
    apply dependent_ready_true in Hr as (? & ? & _). done. }
  - destruct (Hrows k Hk3) as [Hk'|(Hs & Ht & [(Ha & Hw & Hk')|(Ha & Hk')])];
      (eexists; split; [exact Hk'|]); [by left|right; split; [done|]..]; [left|right]; eauto.
  - destruct (Hrows _ Hk3) as [Hk'|(Hs' & _)]; [|done]. eexists. split; [exact Hk'|].
    right. split; [done|]. left. eauto.
Qed.

Lemma stages_neighbour i :
  i ≠ c_JobID c →
  match jobs db !! i with
  | Some k => ∃ k', jobs db' !! i = Some k' ∧ neighbour now c res j db i k k'
  | None => jobs db' !! i = None
  end.
Proof using Hst.
  intros Hi. destruct stages_repair as (_ & Hdep & Hrow). specialize (Hrow i).
  rewrite bool_decide_eq_false_2 in Hrow by done.
  destruct (jobs db !! i) as [k|] eqn:Hk; simpl in Hrow.
  - destruct (stages_late _ _ Hrow) as (k' & Hk' & Hm). exists k'. split; [done|].
    destruct (requeued c j db i k) eqn:Hq.
    { destruct Hm as [->|[Hs _]]; [by constructor|done]. }
    destruct Hm as [->|(Hs & [[-> [[Ho Hd]|(Ht & Ha & Hw)]]|(-> & Ht & Ha)])];
      [by apply neighbour_kept| |by apply neighbour_opened|by apply neighbour_doomed].
    apply neighbour_promoted; [done..|].
    rewrite <-Hdep; [exact Hd|]. intros E. rewrite E in Ho. set_solver.
  - destruct (jobs db' !! i) as [k'|] eqn:Hk'; [|done].
    destruct (st_settle _ _ _ _ _ _ _ _ _ _ Hst) as (s & _ & Hset).
    destruct (rows_lookup_new _ _ _ _ _ (proj1 (settle_frame_settle _ _ _ _ _ _ Hset)) Hk') as (k & Hk3 & _).
    destruct (proj2 (promote_waiting_frame _ _ _ _ _ (st_promote _ _ _ _ _ _ _ _ _ _ Hst)) i)
      as [E|(? & E & _)]; congruence.
Qed.

(** A manifest put back for repair waits: nothing opens it, only the cascade
    can still fail it. *)
Lemma stages_reblocked k :
  c_Outcome c = Failed → jobs db2 !! c_JobID c = Some k →
  j_state k = JobBlocked → j_transfer k = j_transfer j → j_wave k = j_wave j →
  jobs db' !! c_JobID c = Some k ∨ jobs db' !! c_JobID c = Some (fail_by_dependency now (c_JobID c) k).
Proof using Hst.
  intros Ho Hk Hs Ht Hw. pose proof (st_promote _ _ _ _ _ _ _ _ _ _ Hst) as Hp.
  unfold promote_waiting in Hp. rewrite Ho, bool_decide_eq_false_2 in Hp by set_solver.
  injection Hp as E _. rewrite E in Hk. destruct (st_settle _ _ _ _ _ _ _ _ _ _ Hst) as (s & _ & Hset).
  destruct (transfers db3 !! j_transfer j) as [r|] eqn:Hr.
  2: { unfold settleTransfer in Hset. by rewrite Hr in Hset. }
  apply (settleTransfer_settles _ _ _ _ _ _ _ _ _ Hr) in Hset.
  assert (waveDrained (j_transfer j) (j_wave j) db3 = false) as Hnd.
  { apply not_true_iff_false. rewrite waveDrained_true. intros Hall.
    specialize (Hall _ _ Hk Ht Hw). by rewrite Hs in Hall. }
  inversion Hset as [s' _ Hcl|d1 r1 s' _ Hj1 Hr1 Hs1 _ _ Hst'|??????? Hd|???????????? Hd]; try congruence.
  - left. unfold closeCancellation in Hcl. case_bool_decide; injection Hcl as <- _; done.
  - assert (jobs db' = jobs (FailUnreachableJobs now (j_transfer j) d1).1) as ->.
    { pose proof (FailUnreachableJobs_frame now (j_transfer j) d1) as [He _].
      refine (proj1 (settleIfStalled_spec _ _ _ _ _ _ r1 _ Hs1 Hst')). by rewrite He. }
    pose proof (proj2 (FailUnreachableJobs_frame now (j_transfer j) d1) (c_JobID c)) as Hf.
    rewrite Hj1, Hk in Hf.
    destruct (jobs (FailUnreachableJobs now (j_transfer j) d1).1 !! c_JobID c); [|done].
    destruct Hf as [->|[_ ->]]; auto.
Qed.

(** Nothing is requeued in the table the repair reads when nothing is in the
    table the completion found. *)
Lemma stages_none_requeued :
  count_where (requeued c j db) (jobs db1) = O ↔
  ∀ i k, jobs db !! i = Some k → requeued c j db i k = false.
Proof using Hst.
  rewrite count_where_zero. pose proof (st_job _ _ _ _ _ _ _ _ _ _ Hst) as Hj.
  destruct stages_out_same as (Hkind & _).
  assert (∀ i k, j_kind k = j_kind j → requeued c j db i k = false) as Hown.
  { intros i k E. apply not_true_iff_false. intros [E1 E2]%requeued_kind. congruence. }
  split; intros Hall i k Hk; (destruct (decide (i = c_JobID c)) as [->|Hne];
    [apply Hown|apply Hall]).
  - congruence.
  - by rewrite stages_db1, bool_decide_eq_false_2.
  - rewrite stages_db1, bool_decide_eq_true_2 in Hk by done. injection Hk as <-. exact Hkind.
  - by rewrite stages_db1, bool_decide_eq_false_2 in Hk.
Qed.

End neighbours.

(** C1. A completion decides its job, and only for the worker that holds it.
    If the row is not leased to the reporter the report is dropped and the
    database is unchanged.  Otherwise a success, skip or cancellation writes
    that state with no error, no lease and a completion time.  A failure is
    terminal exactly when the attempts already counted reach the lower of the
    row's budget and the class's; otherwise the job is pending again, its
    attempts kept, and visible once retryDelay of the reported attempt has
    passed.  [Settled] reports which case it was.  When the failure is a manifest
    refused for missing content and some blob of it can be requeued, those blobs
    start again one level up and the manifest, with the failure on it, is blocked
    behind them - or failed by the cascade if something else it needs has failed
    for good.  Every other row is as it was, but for that repair and for blocked
    rows: dependents the success promotes, and rows of the same transfer, which
    are opened only in the wave it advances to and failed by the cascade only
    where it does not advance.  A job another worker holds is never touched. *)
Theorem completion_decides_the_job now draw c db db' res :
  CompleteJob now draw c db = Ok (db', res) →
  ∃ j, jobs db !! c_JobID c = Some j ∧
  let holds := j_state j = JobLeased ∧ j_lease_owner j = Some (c_Owner c) in
  let budget := if bool_decide (0 < c_MaxAttempts c)
                then Z.min (j_max_attempts j) (c_MaxAttempts c) else j_max_attempts j in
  let over := budget <=? j_attempts j in
  (¬ holds → db' = db ∧ Applied res = false) ∧
  (holds → Applied res = true ∧
   (c_Outcome c ≠ Failed → Settled res = true ∧
      jobs db' !! c_JobID c = Some
        (j <| j_state := match c_Outcome c with
                         | Succeeded => JobSucceeded | Skipped => JobSkipped | _ => JobCancelled end |>
           <| j_skip_reason := nullIfEmpty (c_SkipReason c) |> <| j_bytes := c_BytesTransferred c |>
           <| j_last_error := None |> <| j_last_error_class := None |>
           <| j_lease_owner := None |> <| j_lease_expires := None |>
           <| j_completed := Some now |> <| j_updated := now |>)) ∧
   (c_Outcome c = Failed → Settled res = over ∧
      let row := j <| j_state := if over then JobFailed else JobPending |>
           <| j_last_error := nullIfEmpty (c_ErrorMsg c) |>
           <| j_last_error_class := nullIfEmpty (c_ErrorClass c) |>
           <| j_bytes := c_BytesTransferred c |>
           <| j_lease_owner := None |> <| j_lease_expires := None |>
           <| j_next_visible := now + retryDelay (c_Attempt c) draw |>
           <| j_completed := if over then Some now else None |> <| j_updated := now |> in
      now ≤ j_next_visible row ≤ now + DefaultCap ∧
      ((∀ i k, jobs db !! i = Some k → requeued c j db i k = false) →
       jobs db' !! c_JobID c = Some row) ∧
      ((∃ i k, jobs db !! i = Some k ∧ requeued c j db i k = true) →
       let waiting := row <| j_state := JobBlocked |> <| j_next_visible := now |>
                          <| j_completed := None |> in
       jobs db' !! c_JobID c = Some waiting ∨
       jobs db' !! c_JobID c = Some (fail_by_dependency now (c_JobID c) waiting))) ∧
   (∀ i, i ≠ c_JobID c →
      match jobs db !! i with
      | Some k => ∃ k', jobs db' !! i = Some k' ∧ neighbour now c res j db i k k' ∧
                        (j_state k = JobLeased → k' = k)
      | None => jobs db' !! i = None
      end)).
Proof.
  intros [(j & Hj & Hheld & -> & ->)|(Happ & j & db1 & db2 & db3 & Hst)]%CompleteJob_stages.
  { exists j. split; [done|]. split; [done|].
    intros [Hs Ho]. rewrite (proj2 (held_by_true _ _)) in Hheld; done. }
  exists j. split; [apply Hst|].
  pose proof (st_held _ _ _ _ _ _ _ _ _ _ Hst) as [Ho Hs]%held_by_true.
  cbv zeta. rewrite <-effective_max_min.
  split; [intros Hn; by destruct Hn|]. intros _. split; [done|].
  pose proof (stages_final_row Hst) as Hfin. unfold outcome_row in Hfin.
  pose proof (st_settled _ _ _ _ _ _ _ _ _ _ Hst) as Hsettled.
  destruct (stages_repair Hst) as (Hcount & _ & Hrow2). specialize (Hrow2 (c_JobID c)).
  rewrite bool_decide_eq_true_2 in Hrow2 by done. unfold outcome_row in Hrow2. split_and!.
  - intros Hne. rewrite bool_decide_eq_false_2 in Hfin, Hsettled by done.
    split; [done|]. rewrite Hfin; [unfold set_finished; by destruct (c_Outcome c)|].
    rewrite Hcount, count_where_zero. intros i k _. by rewrite requeued_failed.
  - intros Hf. rewrite !(bool_decide_eq_true_2 (c_Outcome c = Failed)) in * by done.
    split; [done|]. split; [pose proof (retryDelay_cap (c_Attempt c) draw); simpl; lia|]. split.
    + intros Hno. apply Hfin. by rewrite Hcount, (stages_none_requeued Hst).
    + intros Hsome. rewrite bool_decide_eq_false_2 in Hrow2.
      { by apply (stages_reblocked Hst) in Hrow2. }
      rewrite Hcount, (stages_none_requeued Hst). intros Hno.
      destruct Hsome as (i & k & Hk & Hq). by rewrite (Hno _ _ Hk) in Hq.
  - intros i Hi. pose proof (stages_neighbour Hst i Hi) as Hn.
    destruct (jobs db !! i) as [k|]; [|done]. destruct Hn as (k' & Hk' & Hn).
    exists k'. split_and!; [done..|]. exact (neighbour_leased _ _ _ _ _ _ _ _ Hn).
Qed.

(** The walk leaves the transfer's row there, at a wave no lower. *)
Lemma transfer_advanceWaves n now t next db r :
  transfers db !! t = Some r → t_current_wave r < next →
  ∃ r', transfers (advanceWaves n now t next db).1 !! t = Some r' ∧
    t_current_wave r ≤ t_current_wave r' ∧ t_state r' = t_state r.
Proof.
  revert next db r. induction n as [|n IH]; intros next db r Hr Hlt; simpl;
    [exists r; split_and!; [done|lia|done]|].
  pose proof (transfer_advanceWave now t next db r Hr) as Hr1.
  destruct (waveOccupied _ _ _); simpl; [eexists; split; [exact Hr1|]; simpl; split; [lia|done]|].
  destruct (IH (next + 1) _ _ Hr1) as (r' & ? & Hw & ?); [simpl; lia|]. simpl in Hw.
  exists r'. split_and!; [done|lia|done].
Qed.

(** What a settle may see of its transfer once the transfer has been started. *)
Lemma settles_wave now t wave db r db' adv nw s :
  transfers db !! t = Some r → settles now t wave db r db' adv nw s →
  ∃ r', transfers db' !! t = Some r' ∧ t_state r' = s ∧ t_current_wave r ≤ t_current_wave r' ∧
    (adv = true → t_current_wave r' = nw).
Proof.
  intros Hr Hset.
  destruct Hset as [s Hc Hcl|db1 r1 s Hc Hj1 Hr1 Hs1 Hw1 Hnd Hst|db1 r1 next Hc Hj1 Hr1 Hs1 Hw1 Hd Hw Hadv
    |db1 r1 db2 failed s Hc Hj1 Hr1 Hs1 Hw1 Hd Hw Hadv Hf].
  - destruct (closeCancellation_spec _ _ _ _ _ _ Hr Hc Hcl) as (r' & ? & ? & Hcw & _).
    exists r'. split_and!; [done|done|lia|done].
  - assert (transfers (FailUnreachableJobs now t db1).1 !! t = Some r1) as Hr2.
    { destruct (FailUnreachableJobs_frame now t db1) as [He _]. by rewrite He. }
    destruct (settleIfStalled_spec _ _ _ _ _ _ _ Hr2 Hs1 Hst) as (_ & r' & ? & ? & Hcw & _).
    exists r'. split_and!; [done|done|lia|done].
  - destruct (advanceWaves_spec _ _ _ _ _ _ _ Hadv) as (_ & Hrange & _ & _ & _ & Ht).
    destruct (Ht _ Hr1) as (r' & Hr' & Hcw & Hs'). exists r'. split_and!; [done|congruence|lia|done].
  - destruct (transfer_advanceWaves (Z.to_nat (t_max_wave r - wave)) now t (wave + 1) db1 r1 Hr1)
      as (r2 & Hr2 & Hcw & _); [lia|]. rewrite Hadv in Hr2. simpl in Hr2.
    destruct (finishTransfer_spec _ _ _ _ _ _ _ Hr2 Hf) as (_ & r' & ? & ? & _ & Hcw' & _).
    exists r'. split_and!; [done|done|lia|done].
Qed.

(** A failure reason is read off the jobs alone. *)
Lemma failureReason_jobs t db db' :
  jobs db = jobs db' →
  failureReason t (failed_jobs t db) db = failureReason t (failed_jobs t db') db'.
Proof. intros E. unfold failed_jobs, failureReason, failed_groups. by rewrite E. Qed.

(** What a reported failure makes of the job, a repair included. *)
Lemma completion_failed_row now draw c db db' res j :
  CompleteJob now draw c db = Ok (db', res) → Applied res = true →
  jobs db !! c_JobID c = Some j → c_Outcome c = Failed →
  ∃ j', jobs db' !! c_JobID c = Some j' ∧ j_state j' ∈ [JobFailed; JobPending; JobBlocked] ∧
    (j_state j' = JobBlocked → c_ErrorClass c = ClassBlobUnknown ∧ j_kind j = KManifest).
Proof.
  intros [(? & _ & _ & _ & ->)|(_ & j0 & db1 & db2 & db3 & Hst)]%CompleteJob_stages Happ Hj Hf; [done|].
  pose proof (st_job _ _ _ _ _ _ _ _ _ _ Hst). simplify_eq.
  destruct (decide (rr_Blobs (Repaired res) = O)) as [Hz|Hz].
  - eexists. split; [by apply (stages_final_row Hst)|]. unfold outcome_row, set_failed.
    rewrite bool_decide_eq_true_2 by done. simpl. destruct (_ <=? _); (split; [set_solver|done]).
  - destruct (stages_repair Hst) as (Hcount & _ & Hrow). specialize (Hrow (c_JobID c)).
    rewrite bool_decide_eq_true_2, bool_decide_eq_false_2 in Hrow by done.
    assert (c_ErrorClass c = ClassBlobUnknown ∧ j_kind j = KManifest) as Hcl.
    { rewrite Hcount in Hz. apply Nat.neq_0_lt_0, count_where_pos in Hz as (i & k & _ & Hq).
      unfold requeued, refused_artifact in Hq. destruct (_ && _) eqn:E; [|done].
      rewrite !andb_true_iff, !bool_decide_eq_true in E. tauto. }
    destruct (stages_out_same (now := now) (draw := draw) (c := c) (j := j)) as (_ & _ & Ht & _ & Hw).
    destruct (stages_reblocked Hst _ Hf Hrow) as [E|E]; try done; eexists; (split; [exact E|]);
      (split; [simpl; set_solver|done]).
Qed.

(** A completion of a job whose transfer is gone fails. *)
Lemma CompleteJob_orphan now draw c db j :
  jobs db !! c_JobID c = Some j → held_by (c_Owner c) j = true → transfers db !! j_transfer j = None →
  ∃ e, CompleteJob now draw c db = Err e.
Proof.
  intros Hj Hh Ht. destruct (CompleteJob now draw c db) as [[db' res]|e] eqn:Hc; [exfalso|by eauto].
  apply CompleteJob_stages in Hc as [(j0 & Hj0 & Hno & _)|(_ & j0 & db1 & db2 & db3 & Hst)]; [congruence|].
  pose proof (st_job _ _ _ _ _ _ _ _ _ _ Hst). simplify_eq.
  destruct (st_settle _ _ _ _ _ _ _ _ _ _ Hst) as (s & _ & Hset). revert Hset.
  unfold settleTransfer. by rewrite (stages_transfers _ _ _ _ _ _ _ _ _ _ Hst), Ht.
Qed.

(** Progress of the queue is never lost to an error path: reporting any
    outcome for a job of the table succeeds, whatever the state of the job, the
    waves and the transfer, provided its transfer row exists and the skip
    reason is one the column accepts. *)
Theorem CompleteJob_total now draw c db j r :
  jobs db !! c_JobID c = Some j → transfers db !! j_transfer j = Some r →
  c_SkipReason c ∈ [""; "placement_hit"; "exists_at_target"; "mounted"] →
  ∃ db' res, CompleteJob now draw c db = Ok (db', res).
Proof.
  intros Hj Hr Hskip. unfold CompleteJob. rewrite Hj. simpl.
  destruct (held_by (c_Owner c) j); simpl; [|by eauto].
  assert (skip_reason_ok (nullIfEmpty (c_SkipReason c)) = true) as Hok.
  { rewrite !elem_of_cons in Hskip. destruct Hskip as [->|[->|[->|[->|[]%not_elem_of_nil]]]]; done. }
  set (d0 := update_job (c_JobID c) (outcome_row now draw c (effective_max (j_max_attempts j) c)) db).
  rewrite (proj2 (applyJobOutcome_Ok now draw c (effective_max (j_max_attempts j) c) db d0)) by done.
  cbn [mbind result_bind].
  assert (∃ o, jobs (record_placed now c j d0) !! c_JobID c = Some o ∧
               j_transfer o = j_transfer j) as (o & Ho & Hto).
  { rewrite jobs_record_placed. unfold d0. rewrite (lookup_update_job_eq _ _ _ _ Hj).
    eexists. split; [done|]. unfold outcome_row. by case_bool_decide. }
  assert (transfers (record_placed now c j d0) = transfers db) as Htr
    by by rewrite transfers_record_placed.
  assert (∃ d2 rep, repair_rejected now c j (record_placed now c j d0) = Ok (d2, rep) ∧
    transfers d2 = transfers db ∧
    ∃ k, jobs d2 !! c_JobID c = Some k ∧ j_transfer k = j_transfer j) as (d2 & rep & -> & Ht2 & k & Hk & Htk).
  { unfold repair_rejected. destruct (_ && _); [|by eauto 10].
    destruct (RepairMissingBlobs now (c_JobID c) (record_placed now c j d0)) as [[d2 rep]|e] eqn:E.
    - exists d2, rep. split; [done|]. pose proof (RepairMissingBlobs_transfers _ _ _ _ _ E).
      split; [congruence|].
      apply (RepairMissingBlobs_Ok _ _ _ _ _ _ Ho) in E. destruct (j_artifact o); [|by destruct E as [-> _]; eauto].
      destruct E as (_ & _ & _ & ->). case_bool_decide; [by eauto|].
      rewrite lookup_update_job, bool_decide_eq_true_2 by done.
      rewrite lookup_update_jobs. unfold repair_edges. simpl. rewrite Ho. simpl.
      eexists. split; [done|]. simpl. by destruct (repairable _ _ _ _ _ _).
    - exfalso. unfold RepairMissingBlobs in E. rewrite Ho in E. simpl in E.
      destruct (j_artifact o); [|done]. by case_bool_decide. }
  cbn [mbind result_bind].
  destruct (promote_waiting now c d2) as [d3 n] eqn:Hp.
  destruct (promote_waiting_frame _ _ _ _ _ Hp) as [He3 Hrow3].
  assert (transfers d3 !! j_transfer j = Some r) as Hr3 by (rewrite He3; simpl; congruence).
  assert (∃ k', jobs d3 !! c_JobID c = Some k' ∧ j_transfer k' = j_transfer j) as (k' & Hk' & Htk').
  { destruct (Hrow3 (c_JobID c)) as [->|(k0 & Hk0 & _ & _ & ->)]; [by eauto|].
    eexists. split; [done|]. simpl. congruence. }
  destruct (settleTransfer now (j_transfer j) (j_wave j) d3) as [[d4 [[adv nw] s]]|e] eqn:Hset;
    [simpl; by eauto|].
  exfalso. destruct (settleTransfer_total now (j_transfer j) (j_wave j) d3 r (c_JobID c) k'
    Hr3 Hk' Htk') as (d4 & x & Hset'). rewrite Hset in Hset'. discriminate.
Qed.

(** Every job belongs to a transfer of the table. *)
Definition homed (db : DB) : Prop := ∀ i k, jobs db !! i = Some k → is_Some (transfers db !! j_transfer k).

Lemma neighbour_transfer now c res j db i k k' : neighbour now c res j db i k k' → j_transfer k' = j_transfer k.
Proof. by intros []. Qed.

Lemma neighbour_idle now c res j db i k k' :
  neighbour now c res j db i k k' → j_state k' = JobLeased → k' = k.
Proof. by intros []. Qed.

Lemma completion_homed now draw c db db' res :
  CompleteJob now draw c db = Ok (db', res) → homed db → homed db'.
Proof.
  intros [(? & _ & _ & -> & _)|(_ & j & db1 & db2 & db3 & Hst)]%CompleteJob_stages Hh; [done|].
  pose proof (st_job _ _ _ _ _ _ _ _ _ _ Hst) as Hj.
  destruct (st_settle _ _ _ _ _ _ _ _ _ _ Hst) as (s & _ & Hset).
  pose proof (stages_transfers _ _ _ _ _ _ _ _ _ _ Hst) as Htr.
  assert (∀ t, is_Some (transfers db !! t) → is_Some (transfers db' !! t)) as Hkeep.
  { intros t [r Hr]. rewrite <-Htr in Hr. destruct (decide (t = j_transfer j)) as [->|Hne].
    - apply (settleTransfer_settles _ _ _ _ _ _ _ _ _ Hr) in Hset.
      destruct (settles_wave _ _ _ _ _ _ _ _ _ Hr Hset) as (r' & -> & _). by eexists.
    - destruct (settle_frame_settle _ _ _ _ _ _ Hset) as (_ & Hf & _). rewrite Hf by done. by eexists. }
  intros i k' Hk'. destruct (decide (i = c_JobID c)) as [->|Hne].
  - destruct (stages_repair Hst) as (_ & _ & Hrow). specialize (Hrow (c_JobID c)).
    rewrite bool_decide_eq_true_2 in Hrow by done. destruct (stages_late Hst _ _ Hrow) as (k2 & Hk2 & Hm).
    simplify_eq. assert (j_transfer k' = j_transfer j) as ->; [|by apply Hkeep, (Hh (c_JobID c))].
    destruct (stages_out_same (now := now) (draw := draw) (c := c) (j := j)) as (_ & _ & Ht & _).
    destruct Hm as [->|(_ & [[-> _]|[-> _]])]; case_bool_decide; done.
  - pose proof (stages_neighbour Hst i Hne) as Hn. destruct (jobs db !! i) as [k|] eqn:Hk; [|congruence].
    destruct Hn as (k2 & Hk2 & Hn). simplify_eq. rewrite (neighbour_transfer _ _ _ _ _ _ _ _ Hn).
    by apply Hkeep, (Hh i).
Qed.

(** A failure reported for a job, whether it counts or not: the reporter does not
    hold that job after it, and every other leased row is as it was. *)
Lemma completion_releases now draw c db :
  homed db → c_Outcome c = Failed → c_SkipReason c = "" →
  let db' := ok_or db (fst <$> CompleteJob now draw c db) in
  homed db' ∧ (∀ k, jobs db' !! c_JobID c = Some k → held_by (c_Owner c) k = false) ∧
  ∀ i k, i ≠ c_JobID c → j_state k = JobLeased → jobs db' !! i = Some k ↔ jobs db !! i = Some k.
Proof.
  intros Hh Hf Hs. destruct (jobs db !! c_JobID c) as [j|] eqn:Hj.
  2: { unfold CompleteJob. rewrite Hj. simpl. split; [done|]. split; [congruence|done]. }
  destruct (Hh _ _ Hj) as [r Hr].
  destruct (CompleteJob_total now draw c db j r Hj Hr) as (db' & res & Hc); [rewrite Hs; left|].
  rewrite Hc. simpl. split; [by eapply completion_homed|].
  pose proof Hc as [(j0 & Hj0 & Hno & -> & _)|(Happ & j0 & db1 & db2 & db3 & Hst)]%CompleteJob_stages.
  { split; [intros k Hk; congruence|done]. }
  split.
  - intros k Hk. destruct (completion_failed_row _ _ _ _ _ _ _ Hc Happ Hj Hf) as (k' & Hk' & Hst' & _).
    simplify_eq. apply not_true_iff_false. intros [_ E]%held_by_true. rewrite E in Hst'. set_solver.
  - intros i k Hi Hl. pose proof (stages_neighbour Hst i Hi) as Hn.
    destruct (jobs db !! i) as [k0|]; [|split; congruence]. destruct Hn as (k' & -> & Hn).
    split; intros [= ->]; f_equal; [by rewrite (neighbour_idle _ _ _ _ _ _ _ _ Hn)|by apply (neighbour_leased _ _ _ _ _ _ _ _ Hn)].
Qed.

(** C8. A verdict is the truth about the jobs.  When settling declares a
    transfer succeeded that was not, it has no failed job and, from the current
    wave to the last, no job pending, blocked or leased, and no failure reason
    is kept; when it declares failed one that was not, it has a failed job, from
    the current wave on nothing outstanding, and the reason stored is the summary
    of its failed jobs as they are at the end.  Only a cancelling transfer is
    declared cancelled, and it is exactly when none of its jobs is leased; with
    one leased its row is untouched.  The state returned is the one stored. *)
Theorem settle_verdict_sound now t wave db db' adv nw s r :
  transfers db !! t = Some r →
  settleTransfer now t wave db = Ok (db', (adv, nw, s)) →
  let in_flight := ∃ i j, jobs db' !! i = Some j ∧ j_transfer j = t ∧ j_state j = JobLeased in
  ∃ r', transfers db' !! t = Some r' ∧ t_state r' = s ∧
  (s = TransferSucceeded → t_state r ≠ TransferSucceeded →
   t_failure_reason r' = None ∧ t_completed r' = Some now ∧
   ∀ i j, jobs db' !! i = Some j → j_transfer j = t →
     j_state j ≠ JobFailed ∧
     (t_current_wave r ≤ j_wave j ≤ t_max_wave r →
      j_state j ∉ outstanding)) ∧
  (s = TransferFailed → t_state r ≠ TransferFailed →
   t_failure_reason r' = Some (failureReason t (failed_jobs t db') db') ∧ t_completed r' = Some now ∧
   (∃ i j, jobs db' !! i = Some j ∧ j_transfer j = t ∧ j_state j = JobFailed) ∧
   ∀ i j, jobs db' !! i = Some j → j_transfer j = t →
     t_current_wave r ≤ j_wave j ≤ t_max_wave r → j_state j ∉ outstanding) ∧
  (s = TransferCancelled → t_state r ≠ TransferCancelled → t_state r = TransferCancelling) ∧
  (t_state r = TransferCancelling →
   (s = TransferCancelled ∧ t_completed r' = Some now ∧ ¬ in_flight) ∨
   (s = TransferCancelling ∧ r' = r ∧ in_flight)).
Proof.
  intros Hr Hset in_flight. apply (settleTransfer_settles _ _ _ _ _ _ _ _ _ Hr) in Hset.
  pose proof (settling_state_new (t_state r)) as Hrun.
  destruct Hset as [s Hc Hcl|db1 r1 s Hc Hj1 Hr1 Hs1 _ Hnd Hst|db1 r1 next Hc Hj1 Hr1 Hs1 _ Hd Hw Hadv
    |db1 r1 db2 failed s Hc Hj1 Hr1 Hs1 Hw1 Hd Hw Hadv Hf].
  - destruct (closeCancellation_spec _ _ _ _ _ _ Hr Hc Hcl) as (r' & Hr' & Hs' & _ & Hcase).
    exists r'. split_and!; try done; by destruct Hcase as [[-> _]|[-> _]].
  - assert (transfers (FailUnreachableJobs now t db1).1 !! t = Some r1) as Hr2.
    { destruct (FailUnreachableJobs_frame now t db1) as [He _]. by rewrite He. }
    destruct (settleIfStalled_spec _ _ _ _ _ _ _ Hr2 Hs1 Hst) as (Hjobs & r' & Hr' & Hs' & _ & Hcase).
    exists r'. split; [done|]. split; [done|]. destruct Hcase as [->|(-> & Hco & Hre & Hfail & Hout)].
    + split_and!; try done; intros E Hne; by specialize (Hrun _ E Hne).
    + split_and!; try done. intros _ _. rewrite Hjobs, (failureReason_jobs _ _ _ Hjobs). eauto 10.
  - destruct (advanceWaves_spec _ _ _ _ _ _ _ Hadv) as (_ & _ & _ & _ & _ & Ht).
    destruct (Ht _ Hr1) as (r' & Hr' & _ & Hs'). exists r'. split; [done|]. split; [congruence|].
    split_and!; try done; intros E Hne; by specialize (Hrun _ E Hne).
  - assert (waveDrained t wave db1 = true) as Hd1 by (unfold waveDrained in *; by rewrite Hj1).
    pose proof (crossed_waves _ _ _ _ _ _ Hadv Hd1) as Hcross. rewrite Hw in Hcross.
    destruct (transfer_advanceWaves (Z.to_nat (t_max_wave r - wave)) now t (wave + 1) db1 r1 Hr1)
      as (r2 & Hr2 & _ & _); [lia|]. rewrite Hadv in Hr2. simpl in Hr2.
    destruct (finishTransfer_spec _ _ _ _ _ _ _ Hr2 Hf) as (Hjobs & r' & Hr' & Hs' & Hco & _ & Hcase).
    exists r'. split; [done|]. split; [done|]. rewrite (failureReason_jobs _ _ _ Hjobs), Hjobs.
    destruct Hcase as [(-> & Hre & Hnf)|(-> & Hre & Hfail)]; split_and!; try done; intros _ _.
    split_and!; [done..|]. intros i j Hj Ht. split; [by eapply Hnf|]. intros Hwv. by eapply Hcross.
Qed.

(** C7. A wave opens exactly when the current one is done.  Settling advances
    if and only if the transfer is not being cancelled, the settled wave is the
    current one, every job of that wave is succeeded or skipped, and a later wave
    of the plan holds work.  The new wave is then the first such; the transfer
    stands there and none of its jobs in it is still blocked.  Otherwise the wave
    returned is the current one.  Neither the wave returned nor the one stored is
    ever below the current one. *)
Theorem wave_advance_exact now t wave db db' adv nw s r :
  transfers db !! t = Some r →
  settleTransfer now t wave db = Ok (db', (adv, nw, s)) →
  t_current_wave r ≤ nw ∧
  (∃ r', transfers db' !! t = Some r' ∧ t_current_wave r ≤ t_current_wave r' ∧
     (adv = true → t_current_wave r' = nw)) ∧
  (adv = true ↔ t_state r ≠ TransferCancelling ∧ wave = t_current_wave r ∧
     (∀ i j, jobs db !! i = Some j → j_transfer j = t → j_wave j = wave →
        satisfied (j_state j) = true) ∧
     ∃ k, wave < k ≤ t_max_wave r ∧ occupied t k db) ∧
  (adv = true →
     wave < nw ≤ t_max_wave r ∧ occupied t nw db ∧
     (∀ k, wave < k < nw → ¬ occupied t k db) ∧
     ∀ i j, jobs db' !! i = Some j → j_transfer j = t → j_wave j = nw → j_state j ≠ JobBlocked) ∧
  (adv = false → nw = t_current_wave r).
Proof.
  intros Hr Hset. apply (settleTransfer_settles _ _ _ _ _ _ _ _ _ Hr) in Hset.
  destruct (settles_wave _ _ _ _ _ _ _ _ _ Hr Hset) as (r' & Hr' & _ & Hle & Hnw).
  split; [destruct adv; [by rewrite <-Hnw|inversion Hset; lia]|]. split; [by eauto|].
  clear r' Hr' Hle Hnw.
  assert (∀ k db1, jobs db1 = jobs db → occupied t k db1 ↔ occupied t k db) as Hocc.
  { intros k db1 E. unfold occupied. by rewrite E. }
  destruct Hset as [s Hc|db1 r1 s Hc Hj1 Hr1 Hs1 _ Hnd Hst|db1 r1 next Hc Hj1 Hr1 Hs1 _ Hd Hw Hadv
    |db1 r1 db2 failed s Hc Hj1 Hr1 Hs1 _ Hd Hw Hadv Hf].
  - split; [|done]. split; [done|]. by intros (? & _).
  - split; [|done]. split; [done|]. intros (_ & Hw & Hd & _). exfalso.
    destruct Hnd as [Hnd|]; [|done]. apply not_true_iff_false in Hnd. apply Hnd.
    by apply waveDrained_true.
  - destruct (advanceWaves_spec _ _ _ _ _ _ _ Hadv) as (_ & Hrange & Ho & Hlow & Hb & Ht).
    setoid_rewrite (Hocc _ db1 Hj1) in Ho. setoid_rewrite (Hocc _ db1 Hj1) in Hlow.
    split; [|split; [|done]].
    + split; [intros _|done]. split_and!; [done|done|by apply waveDrained_true|].
      exists next. split; [lia|done].
    + intros _. split; [lia|]. split; [done|]. split; [intros k ?; apply Hlow; lia|done].
  - destruct (advanceWaves_spec _ _ _ _ _ _ _ Hadv) as (_ & Hnone).
    setoid_rewrite (Hocc _ db1 Hj1) in Hnone.
    split; [|done]. split; [done|]. intros (_ & _ & _ & k & Hk & Ho).
    destruct (Hnone k); [lia|done].
Qed.

(** A stop is never undone by a completion.  When the transfer of the
    reported job is being cancelled, the transaction advances no wave and
    leaves it cancelling while some job of it is leased, and cancelled - never
    succeeded, failed or running - once none is. *)
Theorem completion_respects_stop now draw c db db' res j r :
  CompleteJob now draw c db = Ok (db', res) → Applied res = true →
  jobs db !! c_JobID c = Some j → transfers db !! j_transfer j = Some r →
  t_state r = TransferCancelling →
  WaveAdvanced res = false ∧
  ∃ r' s, transfers db' !! j_transfer j = Some r' ∧ t_state r' = s ∧
    RTransferState res = Some s ∧ t_current_wave r' = t_current_wave r ∧
    let in_flight := ∃ i k, jobs db' !! i = Some k ∧ j_transfer k = j_transfer j ∧ j_state k = JobLeased in
    (s = TransferCancelling ∧ in_flight) ∨ (s = TransferCancelled ∧ ¬ in_flight).
Proof.
  intros [(_ & _ & _ & _ & ->)|(_ & j0 & db1 & db2 & db3 & Hst)]%CompleteJob_stages Happ Hj Hr Hc;
    [done|].
  pose proof (st_job _ _ _ _ _ _ _ _ _ _ Hst) as Hj0. simplify_eq.
  assert (transfers db3 !! j_transfer j = Some r) as Hr3.
  { rewrite <-Hr. f_equal. by eapply stages_transfers. }
  destruct (st_settle _ _ _ _ _ _ _ _ _ _ Hst) as (s & Hs & Hset).
  apply (settleTransfer_settles _ _ _ _ _ _ _ _ _ Hr3) in Hset.
  inversion Hset as [s' _ Hcl Hadv Hnw Hs'|?????? Hn|??????? Hn|????????? Hn]; try done.
  split; [done|]. destruct (closeCancellation_spec _ _ _ _ _ _ Hr3 Hc Hcl) as (r' & ? & ? & ? & Hcase).
  exists r', s. split_and!; try done. cbv zeta. naive_solver.
Qed.

(* -------------------------------------------------------------------- *)
(** ** Repair *)

Lemma blob_of_artifact_true db t repo a i j :
  blob_of_artifact db t repo a i j = true ↔
  j_transfer j = t ∧ j_kind j = KBlob ∧ j_target_repo j = repo ∧
  (a, j_digest j) ∈ artifact_blobs db.
Proof.
  unfold blob_of_artifact. rewrite !andb_true_iff, !bool_decide_eq_true. tauto.
Qed.

Lemma repairable_true db t repo a i j :
  repairable db t repo a i j = true ↔
  blob_of_artifact db t repo a i j = true ∧
  j_state j ∈ [JobSucceeded; JobSkipped; JobFailed; JobPending] ∧ j_repair_level j < MaxRepairLevel.
Proof.
  unfold repairable. rewrite !andb_true_iff, bool_decide_eq_true, Z.ltb_lt. tauto.
Qed.

(** A rejected manifest push repairs exactly the content it names, one
    level at a time.  Every blob of the manifest's artifact in its transfer
    and at its destination becomes a recorded dependency of the manifest; those
    not in flight and below level 2 are pending again at the next level, with a
    fresh budget, all others untouched; the destination's placements of the
    artifact's digests are withdrawn; the manifest keeps its attempts and waits
    - unless no blob could be escalated, and then no job changes at all.  No
    other job is touched, and no level passes 2, so a blob is repaired at most
    twice. *)
Theorem repair_escalates now id db db' rep m a :
  jobs db !! id = Some m → j_kind m = KManifest → j_artifact m = Some a →
  RepairMissingBlobs now id db = Ok (db', rep) →
  let names j := j_transfer j = j_transfer m ∧ j_kind j = KBlob ∧
                   j_target_repo j = j_target_repo m ∧ (a, j_digest j) ∈ artifact_blobs db in
  let escalates j := j_state j ∈ [JobSucceeded; JobSkipped; JobFailed; JobPending] ∧
                     j_repair_level j < 2 in
  (∀ i j, jobs db !! i = Some j → i ≠ id →
     (names j ∧ escalates j → jobs db' !! i = Some (set_repaired now j) ∧
        j_repair_level (set_repaired now j) = j_repair_level j + 1 ∧ j_repair_level j + 1 ≤ 2) ∧
     (¬ (names j ∧ escalates j) → jobs db' !! i = Some j)) ∧
  (∀ i j, jobs db !! i = Some j → names j → (id, i) ∈ dependencies db') ∧
  (∀ digest, (a, digest) ∈ artifact_blobs db → placements db' !! (j_target_repo m, digest) = None) ∧
  (rr_AlreadyRepaired rep = true ↔
     ∀ i j, jobs db !! i = Some j → ¬ (names j ∧ escalates j)) ∧
  (rr_AlreadyRepaired rep = true → jobs db' = jobs db) ∧
  (rr_AlreadyRepaired rep = false → jobs db' !! id = Some (set_reblocked now m)).
Proof.
  intros Hm Hk Ha Hrep. pose proof (RepairMissingBlobs_Ok _ _ _ _ _ _ Hm Hrep) as Hok.
  rewrite Ha in Hok. destruct Hok as (Hblobs & _ & Halready & Hdb').
  set (p := repairable db (j_transfer m) (j_target_repo m) a) in *.
  cbv zeta. rewrite Halready, bool_decide_eq_true, bool_decide_eq_false.
  assert (∀ i j, p i j = true ↔
    (j_transfer j = j_transfer m ∧ j_kind j = KBlob ∧ j_target_repo j = j_target_repo m ∧
     (a, j_digest j) ∈ artifact_blobs db) ∧
    j_state j ∈ [JobSucceeded; JobSkipped; JobFailed; JobPending] ∧ j_repair_level j < 2) as Hp.
  { intros i j. unfold p. by rewrite repairable_true, blob_of_artifact_true. }
  assert (∀ i j, jobs db !! i = Some j → i ≠ id →
    jobs db' !! i = Some (if p i j then set_repaired now j else j)) as Hrow.
  { intros i j Hj Hne. rewrite Hdb'. case_bool_decide as Hz.
    - rewrite Hblobs in Hz. apply count_where_zero with (k := i) (v := j) in Hz; [|done].
      rewrite Hz. done.
    - rewrite lookup_update_job_ne by done. rewrite lookup_update_jobs.
      unfold repair_edges. simpl. by rewrite Hj. }
  split_and!.
  - intros i j Hj Hne. rewrite (Hrow _ _ Hj Hne), <-Hp. split.
    + intros Hpi. rewrite Hpi. split; [done|]. apply Hp in Hpi as (_ & _ & ?). simpl. lia.
    + intros Hn. by rewrite (not_true_is_false _ Hn).
  - intros i j Hj Hn.
    assert ((id, i) ∈ dependencies (repair_edges id (j_transfer m) (j_target_repo m) a db)) as Hin.
    { unfold repair_edges. simpl. rewrite elem_of_union, elem_of_list_to_set. left.
      apply list_elem_of_fmap. exists (i, j). split; [done|]. apply elem_of_select_where.
      by rewrite blob_of_artifact_true. }
    rewrite Hdb'. by case_bool_decide.
  - intros digest Hd. rewrite Hdb'.
    assert (∀ d : DB, placements d =
      delete_where (placement_of_artifact db (j_target_repo m) a) (placements db) →
      placements d !! (j_target_repo m, digest) = None) as Hdel.
    { intros d ->. apply lookup_delete_where_None. intros v _.
      unfold placement_of_artifact. simpl. by rewrite !bool_decide_eq_true_2. }
    case_bool_decide; by apply Hdel.
  - rewrite Hblobs, count_where_zero. setoid_rewrite <-Hp.
    setoid_rewrite not_true_iff_false. done.
  - intros Hz. rewrite Hdb', bool_decide_eq_true_2 by done. done.
  - intros Hz. rewrite Hdb', bool_decide_eq_false_2 by done.
    rewrite (lookup_update_job_eq _ _ _ m); [done|]. rewrite lookup_update_jobs.
    unfold repair_edges. simpl. rewrite Hm. simpl.
    destruct (p id m) eqn:E; [|done]. apply Hp in E as [(_ & ? & _) _]. congruence.
Qed.

(* -------------------------------------------------------------------- *)
(** ** Opening waves and content *)

(** Every wave of [t] below [k] is done. *)
Definition done_below (t : string) (k : Z) (db : DB) : Prop :=
  ∀ i j, jobs db !! i = Some j → j_transfer j = t → j_wave j < k → satisfied (j_state j) = true.

(** The plan's edges stay inside a transfer. *)
Definition local_edges (db : DB) : Prop :=
  ∀ id d j dep, (id, d) ∈ dependencies db →
    jobs db !! id = Some j → jobs db !! d = Some dep → j_transfer dep = j_transfer j.

(** Opening a wave over finished ones puts no manifest before its content.
    With the planner's edges (within one transfer, to strictly lower waves),
    advancing to a wave below which everything is succeeded or skipped keeps
    the invariant that no job is runnable before its dependencies. *)
Theorem advanceWave_content_first now t next db :
  stratified db → local_edges db → done_below t next db →
  content_first db → content_first (advanceWave now t next db).
Proof.
  intros Hstr Hloc Hdone Hcf. unfold advanceWave.
  apply update_content_first; [|exact Hcf].
  intros i j Hj. rewrite jobs_update_transfer in Hj. unfold in_wave.
  rewrite !andb_true_iff, !bool_decide_eq_true. intros [[Ht Hw] Hs]. simpl. rewrite Hs.
  split; [done|]. intros _ d dep Hin Hd.
  change (jobs db !! d = Some dep) in Hd. change ((i, d) ∈ dependencies db) in Hin.
  apply (Hdone d dep Hd).
  - rewrite <-Ht. by eapply Hloc.
  - rewrite <-Hw. by eapply Hstr.
Qed.

(** An image index (3) over a child manifest (2) over a blob (1), while another
    blob (4) of the transfer is still leased. The child manifest ran as soon as
    its blob landed, its worker died on every attempt, and the reaper failed it. *)
Definition doomed_wave_db : DB :=
  AddJobDependencies [mkJobEdge 2 1; mkJobEdge 3 2]
    (example_db
      [(1, example_job "t" KBlob "b1" JobSucceeded 0);
       (2, (example_job "t" KManifest "m2" JobFailed 1) <| j_last_error_class := Some "lease_expired" |>);
       (3, example_job "t" KManifest "m3" JobBlocked 2);
       (4, (example_job "t" KBlob "b4" JobLeased 0) <| j_lease_owner := Some "w" |>
             <| j_lease_expires := Some 500 |>)]
      [("t", example_transfer TransferRunning 2)]).

Definition report (id : Z) (o : Outcome) (class : string) (cap : Z) : Completion :=
  mkCompletion id "w" o 10 "" class "" false 1 cap.

(** The wave walk can run a manifest whose content failed.  From a state in
    which no job is runnable before its dependencies, the completion of the
    last job of wave 0 walks over wave 1, where only the reaper's failure is
    left, and opens wave 2 on an index whose child manifest is failed: the
    index becomes pending and leasable. *)
Theorem wave_walk_opens_doomed_job :
  content_first doomed_wave_db ∧ stratified doomed_wave_db ∧
  ∃ db' res, CompleteJob 100 0 (report 4 Succeeded "" 0) doomed_wave_db = Ok (db', res) ∧
    ¬ content_first db' ∧
    ∃ j, jobs db' !! 3 = Some j ∧ j_state j = JobPending ∧
      leaseCandidatePredicate 100 db' 3 j = true.
Proof.
  split; [|split; [by apply stratifiedb_sound|]].
  { intros id j Hj Hs d dep Hin Hd.
    assert ((id = 2 ∧ d = 1) ∨ (id = 3 ∧ d = 2)) as [[-> ->]|[-> ->]].
    { apply elem_of_elements in Hin. vm_compute in Hin.
      repeat (apply elem_of_cons in Hin as [Hin|Hin]; [injection Hin as -> ->; auto|]).
      by apply not_elem_of_nil in Hin. }
    - vm_compute in Hd. by injection Hd as <-.
    - vm_compute in Hj. injection Hj as <-. by apply (bool_decide_eq_true_2 _) in Hs. }
  set (r := CompleteJob 100 0 (report 4 Succeeded "" 0) doomed_wave_db).
  destruct (is_ok_true r) as [[db' res] Hr]; [vm_compute; reflexivity|].
  exists db', res. split; [exact Hr|].
  assert (∃ j, jobs db' !! 3 = Some j ∧ j_state j = JobPending ∧
      leaseCandidatePredicate 100 db' 3 j = true ∧ (3, 2) ∈ dependencies db' ∧
      ∃ d, jobs db' !! 2 = Some d ∧ j_state d = JobFailed) as (j & Hj & Hs & Hp & Hin & d & Hd & Hds).
  { vm_compute in Hr. injection Hr as <- <-. eexists. split; [reflexivity|].
    split; [reflexivity|]. split; [vm_compute; reflexivity|]. split; [reflexivity|].
    eexists. split; reflexivity. }
  split; [|by eauto]. intros Hcf.
  assert (satisfied (j_state d) = true) as Hsat.
  { eapply (Hcf 3 j Hj); [|exact Hin|exact Hd]. rewrite Hs. left. }
  by rewrite Hds in Hsat.
Qed.

(** A manifest on its last attempt, over a blob that was skipped. *)
Definition rejected_db : DB :=
  (example_db
    [(1, example_job "t" KBlob "b1" JobSkipped 0);
     (2, (example_job "t" KManifest "m2" JobLeased 1) <| j_lease_owner := Some "w" |>
           <| j_lease_expires := Some 500 |> <| j_attempts := 8 |> <| j_artifact := Some 7 |>)]
    [("t", (example_transfer TransferRunning 1) <| t_current_wave := 1 |>)])
  <| artifact_blobs := {[ (7, "b1") ]} |> <| placements := {[ (2, "b1") := mkPlacement 10 "observed" 0 ]} |>.

(** [Settled] can report as final a job that will run again.  A manifest
    whose attempts are exhausted is reported settled, and the repair later in
    the same transaction puts it back to blocked, to be promoted when its
    repaired blob lands. *)
Theorem settled_then_reblocked :
  ∃ db c db' res, CompleteJob 100 0 c db = Ok (db', res) ∧
    Settled res = true ∧ rr_Blobs (Repaired res) = 1%nat ∧
    ∃ j, jobs db' !! c_JobID c = Some j ∧ j_state j = JobBlocked ∧
      j_max_attempts j ≤ j_attempts j.
Proof.
  exists rejected_db, (report 2 Failed "blob_unknown" 8).
  set (r := CompleteJob 100 0 (report 2 Failed "blob_unknown" 8) rejected_db).
  destruct (is_ok_true r) as [[db' res] Hr]; [vm_compute; reflexivity|].
  exists db', res. split; [exact Hr|]. vm_compute in Hr. injection Hr as <- <-.
  split; [reflexivity|]. split; [reflexivity|]. eexists. split; [reflexivity|].
  split; [reflexivity|]. vm_compute. discriminate.
Qed.

(* -------------------------------------------------------------------- *)
(** ** Instances *)

(** A blob in flight under a manifest, the blob leased by "w" on its second
    attempt of eight; [st] is the transfer's state. *)
Definition running_db (st : TransferState) : DB :=
  AddJobDependencies [mkJobEdge 2 1]
    (example_db
      [(1, (example_job "t" KBlob "b1" JobLeased 0) <| j_lease_owner := Some "w" |>
             <| j_lease_expires := Some 500 |> <| j_attempts := 2 |>);
       (2, example_job "t" KManifest "m2" JobBlocked 1)]
      [("t", example_transfer st 1)]).

Definition drained_db : DB :=
  example_db [(1, example_job "t" KBlob "b1" JobSucceeded 0);
              (2, example_job "t" KManifest "m2" JobBlocked 1)]
    [("t", example_transfer TransferRunning 1)].

Lemma completion_decides_the_job_witness :
  ∃ db' res j', CompleteJob 100 0 (report 1 Failed "integrity" 2) (running_db TransferRunning) = Ok (db', res) ∧
    Settled res = true ∧ jobs db' !! 1 = Some j' ∧ j_state j' = JobFailed.
Proof.
  destruct (is_ok_true (CompleteJob 100 0 (report 1 Failed "integrity" 2) (running_db TransferRunning)))
    as [[db' res] Hr]; [vm_compute; reflexivity|].
  destruct (completion_decides_the_job _ _ _ _ _ _ Hr) as (j & Hj & _ & Hh).
  vm_compute in Hj. injection Hj as <-.
  destruct Hh as (_ & _ & Hf & _); [split; reflexivity|].
  destruct Hf as (Hs & _ & Hrow & _); [reflexivity|].
  exists db', res, (set_failed 100 0 (report 1 Failed "integrity" 2) 2
    ((example_job "t" KBlob "b1" JobLeased 0) <| j_lease_owner := Some "w" |>
       <| j_lease_expires := Some 500 |> <| j_attempts := 2 |>)).
  split; [exact Hr|]. split; [exact Hs|]. split; [|reflexivity]. apply Hrow. reflexivity.
Defined.

Lemma settle_verdict_sound_witness :
  ∃ db' x r', settleTransfer 100 "t" 0 (example_db [(1, example_job "t" KBlob "b1" JobFailed 0)]
      [("t", example_transfer TransferRunning 0)]) = Ok (db', (x, TransferFailed)) ∧
    transfers db' !! "t" = Some r' ∧ t_state r' = TransferFailed ∧
    t_failure_reason r' = Some (failureReason "t" 1 db').
Proof.
  set (d := example_db _ _).
  destruct (is_ok_true (settleTransfer 100 "t" 0 d)) as [[db' [[adv nw] s]] Hr]; [vm_compute; reflexivity|].
  assert (s = TransferFailed) as -> by (vm_compute in Hr; by injection Hr as _ _ _ <-).
  destruct (settle_verdict_sound 100 "t" 0 d db' adv nw TransferFailed (example_transfer TransferRunning 0))
    as (r' & Hr' & Hs & _ & Hf & _); [reflexivity|exact Hr|].
  exists db', (adv, nw), r'. split; [exact Hr|]. split; [exact Hr'|]. split; [exact Hs|].
  destruct (Hf eq_refl) as [-> _]; [discriminate|]. vm_compute in Hr. injection Hr as <- _ _. reflexivity.
Defined.

Lemma wave_advance_exact_witness :
  ∃ db' x, settleTransfer 100 "t" 0 drained_db = Ok (db', (true, 1, x)) ∧
    occupied "t" 1 drained_db ∧ ∃ r', transfers db' !! "t" = Some r' ∧ t_current_wave r' = 1.
Proof.
  destruct (is_ok_true (settleTransfer 100 "t" 0 drained_db)) as [[db' [[adv nw] s]] Hr];
    [vm_compute; reflexivity|].
  assert (adv = true ∧ nw = 1) as [-> ->] by (vm_compute in Hr; by injection Hr as _ <- <- _).
  destruct (wave_advance_exact 100 "t" 0 drained_db db' true 1 s (example_transfer TransferRunning 1))
    as (_ & (r' & Hr' & _ & Hw) & _ & Hadv & _); [reflexivity|exact Hr|].
  destruct (Hadv eq_refl) as (_ & Hocc & _).
  exists db', s. split; [exact Hr|]. split; [exact Hocc|]. exists r'. split; [exact Hr'|exact (Hw eq_refl)].
Defined.

Lemma completion_respects_stop_witness :
  ∃ db' res, CompleteJob 100 0 (report 1 Succeeded "" 0) (running_db TransferCancelling) = Ok (db', res) ∧
    WaveAdvanced res = false.
Proof.
  destruct (is_ok_true (CompleteJob 100 0 (report 1 Succeeded "" 0) (running_db TransferCancelling)))
    as [[db' res] Hr]; [vm_compute; reflexivity|].
  exists db', res. split; [exact Hr|].
  refine (proj1 (completion_respects_stop 100 0 _ (running_db TransferCancelling) db' res
    ((example_job "t" KBlob "b1" JobLeased 0) <| j_lease_owner := Some "w" |>
             <| j_lease_expires := Some 500 |> <| j_attempts := 2 |>)
    (example_transfer TransferCancelling 1) Hr _ _ _ _)); [|reflexivity..].
  vm_compute in Hr. injection Hr as <- <-. reflexivity.
Defined.

Lemma repair_escalates_witness :
  ∃ db' rep, RepairMissingBlobs 100 2 rejected_db = Ok (db', rep) ∧
    jobs db' !! 1 = Some (set_repaired 100 (example_job "t" KBlob "b1" JobSkipped 0)) ∧
    placements db' !! (2, "b1") = None.
Proof.
  destruct (is_ok_true (RepairMissingBlobs 100 2 rejected_db)) as [[db' rep] Hr];
    [vm_compute; reflexivity|].
  exists db', rep. split; [exact Hr|].
  destruct (repair_escalates 100 2 rejected_db db' rep
    ((example_job "t" KManifest "m2" JobLeased 1) <| j_lease_owner := Some "w" |>
           <| j_lease_expires := Some 500 |> <| j_attempts := 8 |> <| j_artifact := Some 7 |>) 7)
    as (Hrow & _ & Hpl & _); [reflexivity..|exact Hr|].
  split.
  - apply (Hrow 1 (example_job "t" KBlob "b1" JobSkipped 0)); [reflexivity|discriminate|].
    split; [|split; [right; left|reflexivity]]. do 3 (split; [reflexivity|]). reflexivity.
  - apply Hpl. reflexivity.
Defined.

Lemma CompleteJob_total_witness :
  ∃ db' res, CompleteJob 100 0 (report 1 Succeeded "" 0) (running_db TransferPaused) = Ok (db', res).
Proof.
  eapply CompleteJob_total; [reflexivity|reflexivity|]. left.
Defined.

Lemma advanceWave_content_first_witness :
  content_first drained_db ∧ content_first (advanceWave 100 "t" 1 drained_db).
Proof.
  assert (content_first drained_db) as Hcf.
  { intros id j _ _ d dep Hin. vm_compute in Hin. discriminate Hin. }
  split; [exact Hcf|]. apply advanceWave_content_first; [| | |exact Hcf].
  - by apply stratifiedb_sound.
  - intros id d j dep Hin. vm_compute in Hin. discriminate Hin.
  - intros i j Hj Ht Hw.
    assert (negb (satisfied (j_state j)) && (j_wave j <? 1) = false) as Hs.
    { revert i j Hj Ht Hw.
      assert (∀ i j, jobs drained_db !! i = Some j →
        (λ _ j, negb (satisfied (j_state j)) && (j_wave j <? 1)) i j = false) as Hall.
      { apply exists_where_false. vm_compute. reflexivity. }
      intros i j Hj _ _. exact (Hall i j Hj). }
    rewrite (proj2 (Z.ltb_lt _ _) Hw), andb_true_r in Hs. by apply negb_false_iff in Hs.
Defined.
