(* ===== verification/Promotions.v ===== *)
(** * Native promotions

    internal/store/promotions.go: a transfer whose content the registry moves
    itself.  A promotion is requested once per transfer, claimed by one
    Coordinator at a time (a claim with a stale heartbeat is taken over), done
    name by name, and settled together with its transfer. *)

From S2P Require Import Prelude GoStrings StateMachine Backoff Schema Completion.
Open Scope Z_scope.

Record PromotionName := mkName { Repository : string; Tag : string; NDigest : string }.

Definition StaleAfter : Z := 90 * Second.

Definition promotion_of (t : string) (_ : Z) (pm : promotion) : bool :=
  bool_decide (pm_transfer pm = t).

Definition set_requested (now : Z) (pm : promotion) : promotion :=
  pm <| pm_state := PromotionRequested |> <| pm_claimed_by := "" |> <| pm_heartbeat := None |>
     <| pm_finished := None |> <| pm_updated := now |>.

Definition reopenPromotion (now : Z) (t : string) (db : DB) : DB * bool :=
  let p := λ i pm, promotion_of t i pm && bool_decide (pm_state pm = PromotionFailed) in
  (db <| promotions ::= update_where p (λ _, set_requested now) |>,
   bool_decide (0 < count_where p (promotions db))%nat).

(** The names of a new promotion, positions counted from [i]. *)
Fixpoint insert_names (id i : Z) (names : list PromotionName)
    (m : gmap (Z * Z) promotion_name) : gmap (Z * Z) promotion_name :=
  match names with
  | [] => m
  | n :: names =>
      insert_names id (i + 1) names
        (<[(id, i) := mkPromotionName (Repository n) (Tag n) (NDigest n) NamePending "" None]> m)
  end.

(** [id] is the identity the database gives the new row: not yet in use. *)
Definition insert_promotion (now id : Z) (t promoter : string) (names : list PromotionName) (db : DB)
    : DB :=
  db <| promotions ::= insert id (mkPromotion t promoter PromotionRequested
          (Z.of_nat (length names)) 0 0 "" "" None now None None now) |>
     <| promotion_names ::= insert_names id 0 names |>.

Definition Open (now id : Z) (t promoter : string) (names : list PromotionName) (db : DB)
    : result DB :=
  if bool_decide (names = []) then Err (ENoNames t)
  else
    let db := if exists_where (promotion_of t) (promotions db)
              then (reopenPromotion now t db).1
              else insert_promotion now id t promoter names db in
    Ok (update_transfers
      (λ i r, bool_decide (i = t) &&
         bool_decide (t_state r ∈ [TransferPending; TransferPlanning; TransferFailed]))
      (λ _ r, r <| t_state := TransferPromoting |> <| t_strategy := "relocate" |>
         <| t_started := Some (default now (t_started r)) |> <| t_updated := now |>) db).

(** pm.state = 'requested', or running with no heartbeat or a stale one, under
    a promoting transfer whose request and product rows exist. (The package row
    a transfer references always does.) *)
Definition claimable (now : Z) (db : DB) (_ : Z) (pm : promotion) : bool :=
  match transfers db !! pm_transfer pm with
  | Some r =>
      bool_decide (t_state r = TransferPromoting) &&
      match requests db !! t_request r with
      | Some rq => bool_decide (is_Some (products db !! r_product rq))
      | None => false
      end
  | None => false
  end &&
  match pm_state pm with
  | PromotionRequested => true
  | PromotionRunning =>
      match pm_heartbeat pm with
      | None => true
      | Some h => h <? now - StaleAfter
      end
  | _ => false
  end.

Definition set_claimed (now : Z) (owner : string) (pm : promotion) : promotion :=
  pm <| pm_state := PromotionRunning |> <| pm_claimed_by := owner |>
     <| pm_attempts := pm_attempts pm + 1 |> <| pm_heartbeat := Some now |>
     <| pm_started := Some (default now (pm_started pm)) |> <| pm_updated := now |>.

Definition update_promotion (id : Z) (f : promotion → promotion) (db : DB) : DB :=
  db <| promotions ::= update_where (λ i _, bool_decide (i = id)) (λ _, f) |>.

(** The oldest claimable promotion (ORDER BY requested_at LIMIT 1), as the
    caller sees it, or none. *)
Definition ClaimPromotion (now : Z) (owner : string) (db : DB) : DB * option (Z * promotion) :=
  match order_by (λ r : Z * promotion, [pm_requested r.2])
          (select_where (claimable now db) (promotions db)) with
  | [] => (db, None)
  | (id, pm) :: _ =>
      (update_promotion id (set_claimed now owner) db,
       Some (id, pm <| pm_state := PromotionRunning |> <| pm_claimed_by := owner |>
                    <| pm_attempts := pm_attempts pm + 1 |>))
  end.

Definition names (id : Z) (pendingOnly : bool) (db : DB) : list (Z * promotion_name) :=
  order_by (λ r : Z * promotion_name, [r.1])
    ((λ r : (Z * Z) * promotion_name, (r.1.2, r.2)) <$>
     select_where (λ k n, bool_decide (k.1 = id) &&
        (negb pendingOnly || negb (bool_decide (pn_state n = NamePromotedS)))) (promotion_names db)).

Definition AllNames (id : Z) (db : DB) := names id false db.
Definition PendingNames (id : Z) (db : DB) := names id true db.

Definition is_name (id position : Z) (k : Z * Z) (_ : promotion_name) : bool :=
  bool_decide (k = (id, position)).

Definition NamePromoted (now id position : Z) (db : DB) : DB :=
  let p := λ k n, is_name id position k n && negb (bool_decide (pn_state n = NamePromotedS)) in
  let changed := count_where p (promotion_names db) in
  let db := db <| promotion_names ::= update_where p
    (λ _ n, n <| pn_state := NamePromotedS |> <| pn_last_error := "" |>
              <| pn_promoted_at := Some now |>) |> in
  if bool_decide (0 < changed)%nat
  then update_promotion id (λ pm, pm <| pm_names_done := pm_names_done pm + 1 |>
         <| pm_heartbeat := Some now |> <| pm_updated := now |>) db
  else db.

Definition NameFailed (id position : Z) (reason : string) (db : DB) : DB :=
  db <| promotion_names ::= update_where (is_name id position)
    (λ _ n, n <| pn_state := NameFailedS |> <| pn_last_error := truncate reason 2000 |>) |>.

Definition Beat (now id : Z) (owner : string) (db : DB) : DB :=
  db <| promotions ::= update_where
    (λ i pm, bool_decide (i = id) && bool_decide (pm_claimed_by pm = owner))
    (λ _ pm, pm <| pm_heartbeat := Some now |> <| pm_updated := now |>) |>.

(** The two states a promotion settles in. *)
Definition promotion_outcome (state : string) : option (PromotionState * TransferState) :=
  if String.eqb state "succeeded" then Some (PromotionSucceeded, TransferSucceeded)
  else if String.eqb state "failed" then Some (PromotionFailed, TransferFailed)
  else None.

Definition set_promotion_settled (now : Z) (state : PromotionState) (reason : string)
    (pm : promotion) : promotion :=
  pm <| pm_state := state |> <| pm_last_error := truncate reason 2000 |> <| pm_claimed_by := "" |>
     <| pm_finished := Some now |> <| pm_updated := now |>.

Definition Settle (now id : Z) (state reason : string) (db : DB) : result DB :=
  '(state, transfer_state) ← of_option (ENotAnOutcome id state) (promotion_outcome state);
  pm ← of_option (EMissingRow "promotions" (pretty id)) (promotions db !! id);
  let db := update_promotion id (set_promotion_settled now state reason) db in
  Ok (update_transfers
    (λ i r, bool_decide (i = pm_transfer pm) && bool_decide (t_state r = TransferPromoting))
    (λ _ r, r <| t_state := transfer_state |>
      <| t_failure_reason := nullIfEmpty reason |> <| t_completed := Some now |>
      <| t_updated := now |>) db).

(** The promotion of a transfer: transfer_id is unique. *)
Definition ForTransfer (t : string) (db : DB) : option (Z * promotion) :=
  head (select_where (promotion_of t) (promotions db)).

(* -------------------------------------------------------------------- *)
(** ** Claims *)

Lemma update_promotion_eq id f db pm :
  promotions db !! id = Some pm →
  update_promotion id f db = db <| promotions := <[id := f pm]> (promotions db) |>.
Proof.
  intros Hpm. unfold update_promotion. simpl. f_equal.
  apply (update_where_key _ (λ _, f) _ id pm); [|done|by apply bool_decide_eq_true].
  intros ? ?. by rewrite bool_decide_eq_true.
Qed.

Lemma ClaimPromotion_None now owner db db' :
  ClaimPromotion now owner db = (db', None) →
  db' = db ∧ ∀ i pm, promotions db !! i = Some pm → claimable now db i pm = false.
Proof.
  unfold ClaimPromotion.
  pose proof (λ i pm, elem_of_order_by (λ r : Z * promotion, [pm_requested r.2]) (i, pm)
    (select_where (claimable now db) (promotions db))) as Hin.
  setoid_rewrite elem_of_select_where in Hin.
  destruct (order_by _ _) as [|[id pm] l]; [|done]. intros [= <-].
  split; [done|]. intros i pm Hpm. apply not_true_is_false. intros Hc.
  by apply (not_elem_of_nil (i, pm)), Hin.
Qed.

Lemma ClaimPromotion_Some now owner db db' id seen :
  ClaimPromotion now owner db = (db', Some (id, seen)) →
  ∃ pm, promotions db !! id = Some pm ∧ claimable now db id pm = true ∧
    (∀ i pm', promotions db !! i = Some pm' → claimable now db i pm' = true →
       pm_requested pm ≤ pm_requested pm') ∧
    db' = db <| promotions := <[id := set_claimed now owner pm]> (promotions db) |> ∧
    seen = pm <| pm_state := PromotionRunning |> <| pm_claimed_by := owner |>
              <| pm_attempts := pm_attempts pm + 1 |>.
Proof.
  unfold ClaimPromotion.
  pose proof (order_by_sorted (λ r : Z * promotion, [pm_requested r.2])
    (select_where (claimable now db) (promotions db))) as Hs.
  pose proof (λ i pm, elem_of_order_by (λ r : Z * promotion, [pm_requested r.2]) (i, pm)
    (select_where (claimable now db) (promotions db))) as Hin.
  setoid_rewrite elem_of_select_where in Hin.
  destruct (order_by _ _) as [|[i pm] l]; [done|]. intros [= <- <- <-].
  destruct (proj1 (Hin i pm)) as [Hpm Hc]; [left|]. exists pm. split; [done|]. split; [done|].
  split; [|by rewrite (update_promotion_eq _ _ _ _ Hpm)].
  intros i' pm' Hpm' Hc'. apply StronglySorted_inv in Hs as [_ Hs].
  assert ((i', pm') ∈ (i, pm) :: l) as [[= -> ->]|Hl]%elem_of_cons by (by apply Hin); [lia|].
  rewrite Forall_forall in Hs. specialize (Hs _ Hl). revert Hs. unfold key_le. simpl.
  repeat case_match; try done; lia.
Qed.

(** A claim takes the promotion that has waited longest among those that can
    be taken - requested, or running with no heartbeat for StaleAfter, under a
    promoting transfer - makes it running, the caller's, with one more attempt
    and a heartbeat of now, and touches nothing else; with none to take it
    changes nothing. *)
Theorem ClaimPromotion_exact now owner db :
  match ClaimPromotion now owner db with
  | (db', None) =>
      db' = db ∧ ∀ i pm, promotions db !! i = Some pm → claimable now db i pm = false
  | (db', Some (id, seen)) =>
      ∃ pm, promotions db !! id = Some pm ∧ claimable now db id pm = true ∧
        (∀ i pm', promotions db !! i = Some pm' → claimable now db i pm' = true →
           pm_requested pm ≤ pm_requested pm') ∧
        promotions db' = <[id := set_claimed now owner pm]> (promotions db) ∧
        db' = db <| promotions := promotions db' |> ∧
        pm_transfer seen = pm_transfer pm ∧ pm_attempts seen = pm_attempts pm + 1 ∧
        pm_claimed_by seen = owner ∧ pm_state seen = PromotionRunning
  end.
Proof.
  destruct (ClaimPromotion now owner db) as [db' [[id seen]|]] eqn:Hc.
  - apply ClaimPromotion_Some in Hc as (pm & Hpm & Hcl & Hold & -> & ->). exists pm. split_and!; done.
  - by eapply ClaimPromotion_None.
Qed.

(* -------------------------------------------------------------------- *)
(** ** Coordinators working on promotions *)

Inductive RunnerOp :=
  | ROpen (now id : Z) (t promoter : string) (l : list PromotionName)
  | RReopen (now : Z) (t : string)
  | RClaim (now : Z) (owner : string)
  | RNamePromoted (now id position : Z)
  | RNameFailed (id position : Z) (reason : string)
  | RBeat (now id : Z) (owner : string)
  | RSettle (now id : Z) (state reason : string).

Definition runner_exec (o : RunnerOp) (db : DB) : result DB :=
  match o with
  | ROpen now id t promoter l => Open now id t promoter l db
  | RReopen now t => Ok (reopenPromotion now t db).1
  | RClaim now owner => Ok (ClaimPromotion now owner db).1
  | RNamePromoted now id position => Ok (NamePromoted now id position db)
  | RNameFailed id position reason => Ok (NameFailed id position reason db)
  | RBeat now id owner => Ok (Beat now id owner db)
  | RSettle now id state reason => Settle now id state reason db
  end.

(** What a coordinator may rely on: a new promotion's identity is new, and the
    name it reports as failed is one it has just read as not yet promoted. *)
Definition op_legal (db : DB) (o : RunnerOp) : Prop :=
  match o with
  | ROpen _ id _ _ _ => promotions db !! id = None
  | RNameFailed id position _ =>
      ∀ n, promotion_names db !! (id, position) = Some n → pn_state n ≠ NamePromotedS
  | _ => True
  end.

Inductive runner_step : DB → RunnerOp → DB → Prop :=
  | runner_step_intro o db db' :
      op_legal db o → runner_exec o db = Ok db' → runner_step db o db'.

(** The operation leaves the claim on [id] alone: it settles another promotion,
    or it is no claim, or it finds the heartbeat fresh. *)
Definition leaves_claim (id : Z) (db : DB) (o : RunnerOp) : Prop :=
  match o with
  | RSettle _ i _ _ => i ≠ id
  | RClaim now _ => ∃ pm h, promotions db !! id = Some pm ∧ pm_heartbeat pm = Some h ∧
                              now - StaleAfter ≤ h
  | _ => True
  end.

Definition same_claim (pm pm' : promotion) : Prop :=
  pm_state pm' = PromotionRunning ∧ pm_claimed_by pm' = pm_claimed_by pm ∧
  pm_attempts pm' = pm_attempts pm ∧ pm_names_done pm ≤ pm_names_done pm'.

Lemma lookup_update_promotion id f db i :
  promotions (update_promotion id f db) !! i =
    (λ pm, if bool_decide (i = id) then f pm else pm) <$> promotions db !! i.
Proof. unfold update_promotion. simpl. by rewrite lookup_update_where. Qed.

Lemma lookup_reopenPromotion now t db i :
  promotions (reopenPromotion now t db).1 !! i =
    (λ pm, if promotion_of t i pm && bool_decide (pm_state pm = PromotionFailed)
           then set_requested now pm else pm) <$> promotions db !! i.
Proof. simpl. by rewrite lookup_update_where. Qed.

Lemma ClaimPromotion_spares now owner db id pm h :
  promotions db !! id = Some pm → pm_state pm = PromotionRunning → pm_heartbeat pm = Some h →
  now - StaleAfter ≤ h → promotions (ClaimPromotion now owner db).1 !! id = Some pm.
Proof.
  intros Hpm Hrun Hh Hfresh.
  assert (claimable now db id pm = false) as Hno.
  { unfold claimable. rewrite Hrun, Hh. apply andb_false_iff. right. by apply Z.ltb_ge. }
  unfold ClaimPromotion. destruct (order_by _ _) as [|[i pm0] l] eqn:Ho; [done|]. cbn [fst].
  rewrite lookup_update_promotion, Hpm. simpl. rewrite bool_decide_false; [done|]. intros ->.
  assert ((i, pm0) ∈ select_where (claimable now db) (promotions db)) as Hin.
  { eapply elem_of_order_by. rewrite Ho. left. }
  apply elem_of_select_where in Hin as [? Hc]. congruence.
Qed.

Lemma promotions_Open now id t promoter l db db' :
  Open now id t promoter l db = Ok db' →
  promotions db' = promotions (reopenPromotion now t db).1 ∧ promotion_names db' = promotion_names db ∨
  promotions db' = promotions (insert_promotion now id t promoter l db) ∧
    promotion_names db' = promotion_names (insert_promotion now id t promoter l db).
Proof.
  unfold Open. case_bool_decide; [done|].
  destruct (exists_where _ _); intros [= <-]; [by left|by right].
Qed.

Lemma runner_step_same_claim id db o db' pm :
  runner_step db o db' → leaves_claim id db o →
  promotions db !! id = Some pm → pm_state pm = PromotionRunning →
  ∃ pm', promotions db' !! id = Some pm' ∧ same_claim pm pm'.
Proof.
  intros [o' d d' Hlegal Hexec] Hleave Hpm Hrun. unfold same_claim.
  assert (∀ pm0 : promotion, pm0 = pm → pm_state pm0 = PromotionRunning ∧
    pm_claimed_by pm0 = pm_claimed_by pm ∧ pm_attempts pm0 = pm_attempts pm ∧
    pm_names_done pm ≤ pm_names_done pm0) as Hsame by (intros ? ->; done || (split_and!; try done; lia)).
  assert (∀ now t, promotions (reopenPromotion now t d).1 !! id = Some pm) as Hre.
  { intros now t. rewrite lookup_reopenPromotion, Hpm. simpl. by rewrite Hrun, andb_false_r. }
  destruct o'; cbn [runner_exec leaves_claim op_legal] in *; try (apply Ok_inj in Hexec as <-).
  - apply promotions_Open in Hexec as [[-> _]|[-> _]]; exists pm; [auto|]. split; [|by apply Hsame].
    unfold insert_promotion. simpl. rewrite lookup_insert_ne; [done|]. congruence.
  - eauto.
  - destruct Hleave as (pm0 & h & Hpm0 & Hh & Hf). simplify_eq.
    exists pm0. split; [by eapply ClaimPromotion_spares|by apply Hsame].
  - unfold NamePromoted. case_bool_decide; [|eauto]. rewrite lookup_update_promotion. simpl. rewrite Hpm. simpl.
    eexists; split; [done|]. case_bool_decide; simpl; split_and!; try done; lia.
  - eauto.
  - simpl. rewrite lookup_update_where, Hpm. simpl. eexists; split; [done|].
    destruct (_ && _); simpl; split_and!; try done; lia.
  - revert Hexec. unfold Settle. intros ([s1 s2] & _ & (pm0 & _ & [= <-])%result_bind_Ok)%result_bind_Ok.
    simpl. rewrite lookup_update_where, Hpm. simpl. rewrite bool_decide_false by congruence. eauto.
Qed.

(** A claim holds while its heartbeat does.  Whatever the coordinators do, in
    any order, a running promotion stays its holder's, with no further attempt
    charged and no name lost from its count, as long as every claim made
    meanwhile finds a heartbeat no older than StaleAfter and nobody settles it. *)
Theorem held_claim_is_exclusive id db db' pm :
  promotions db !! id = Some pm → pm_state pm = PromotionRunning →
  rtc (λ d d', ∃ o, runner_step d o d' ∧ leaves_claim id d o) db db' →
  ∃ pm', promotions db' !! id = Some pm' ∧ pm_state pm' = PromotionRunning ∧
    pm_claimed_by pm' = pm_claimed_by pm ∧ pm_attempts pm' = pm_attempts pm ∧
    pm_names_done pm ≤ pm_names_done pm'.
Proof.
  intros Hpm Hrun Hsteps. revert pm Hpm Hrun.
  induction Hsteps as [d|d d1 d2 (o & Hstep & Hleave) _ IH]; intros pm Hpm Hrun.
  { exists pm. split_and!; try done; lia. }
  destruct (runner_step_same_claim _ _ _ _ _ Hstep Hleave Hpm Hrun) as (pm1 & Hpm1 & Hr1 & Hc1 & Ha1 & Hd1).
  destruct (IH pm1 Hpm1 Hr1) as (pm2 & Hpm2 & Hr2 & Hc2 & Ha2 & Hd2).
  exists pm2. split_and!; try done; [congruence|congruence|lia].
Qed.

(* -------------------------------------------------------------------- *)
(** ** Progress *)

Definition name_of (id : Z) (k : Z * Z) (_ : promotion_name) : bool := bool_decide (k.1 = id).

Definition promoted_of (id : Z) (k : Z * Z) (n : promotion_name) : bool :=
  bool_decide (k.1 = id) && bool_decide (pn_state n = NamePromotedS).

(** A promotion's total is the number of its names, its count of names done the
    number of its promoted ones, and every name belongs to a promotion. *)
Record counted (db : DB) : Prop := {
  counted_total id pm : promotions db !! id = Some pm →
    pm_names_total pm = Z.of_nat (count_where (name_of id) (promotion_names db));
  counted_done id pm : promotions db !! id = Some pm →
    pm_names_done pm = Z.of_nat (count_where (promoted_of id) (promotion_names db));
  names_owned k n : promotion_names db !! k = Some n → is_Some (promotions db !! k.1) }.

(** Statements that leave the counts of the promotions and the names alone. *)
Lemma counted_rows d d' :
  promotion_names d' = promotion_names d →
  (∃ p f, promotions d' = update_where p f (promotions d) ∧
     ∀ i pm, pm_names_total (f i pm) = pm_names_total pm ∧ pm_names_done (f i pm) = pm_names_done pm) →
  counted d → counted d'.
Proof.
  intros Hn (p & f & Hp & Hf) [Ht Hd Ho]. split; rewrite ?Hn, ?Hp.
  - intros id pm (pm0 & Hpm & ->)%lookup_update_where_Some.
    destruct (p id pm0); [rewrite (proj1 (Hf _ _))|]; auto.
  - intros id pm (pm0 & Hpm & ->)%lookup_update_where_Some.
    destruct (p id pm0); [rewrite (proj2 (Hf _ _))|]; auto.
  - intros k n Hk. apply update_where_is_Some. eauto.
Qed.

Lemma update_where_false {K V} `{Countable K} (f : K → V → V) (m : gmap K V) :
  m = update_where (λ _ _, false) f m.
Proof. symmetry. by apply update_where_none. Qed.

Lemma lookup_insert_names id l i m k n :
  insert_names id i l m !! k = Some n → m !! k = Some n ∨ k.1 = id.
Proof.
  revert i m. induction l as [|x l IH]; intros i m; simpl; [by left|].
  intros [Hk|]%IH; [|by right]. apply lookup_insert_Some in Hk as [[<- _]|[_ ?]]; [by right|by left].
Qed.

(** The counts of a new promotion's names. *)
Lemma count_insert_names q id l i m :
  (∀ p, i ≤ p → m !! (id, p) = None) →
  count_where q (insert_names id i l m) =
    (count_where q m +
     length (filter (λ r, q (id, r.1) r.2 = true)
       (imap (λ p x, ((i + Z.of_nat p)%Z, mkPromotionName (Repository x) (Tag x) (NDigest x) NamePending "" None)) l)))%nat.
Proof.
  revert i m. induction l as [|x l IH]; intros i m Hfresh; cbn [insert_names]; [simpl; lia|].
  rewrite IH.
  - rewrite count_where_insert by (apply Hfresh; lia). rewrite imap_cons, filter_cons. cbn [fst snd].
    rewrite Z.add_0_r.
    assert (∀ l', imap ((λ p y, ((i + Z.of_nat p)%Z, mkPromotionName (Repository y) (Tag y) (NDigest y) NamePending "" None)) ∘ S) l'
      = imap (λ p y, ((i + 1 + Z.of_nat p)%Z, mkPromotionName (Repository y) (Tag y) (NDigest y) NamePending "" None)) l') as ->.
    { intros l'. apply imap_ext. intros p y _. simpl. f_equal. lia. }
    destruct (q _ _); [rewrite decide_True by done|rewrite decide_False by done]; simpl; lia.
  - intros p Hp. rewrite lookup_insert_ne by (intros [=]; lia). apply Hfresh. lia.
Qed.

Lemma count_insert_total id l i m id' :
  (∀ p, i ≤ p → m !! (id, p) = None) →
  count_where (name_of id') (insert_names id i l m) =
    (count_where (name_of id') m + if decide (id' = id) then length l else 0)%nat.
Proof.
  intros Hfresh. rewrite count_insert_names by done. f_equal. unfold name_of. simpl.
  case_decide as Hid.
  - rewrite filter_all, length_imap; [done|]. intros r _. by apply bool_decide_eq_true.
  - rewrite filter_none; [done|]. intros r _. rewrite bool_decide_eq_true. congruence.
Qed.

Lemma count_insert_promoted id l i m id' :
  (∀ p, i ≤ p → m !! (id, p) = None) →
  count_where (promoted_of id') (insert_names id i l m) = count_where (promoted_of id') m.
Proof.
  intros Hfresh. rewrite count_insert_names by done.
  rewrite filter_none; [simpl; lia|]. intros r (j & x & -> & _)%elem_of_lookup_imap.
  unfold promoted_of. simpl. by rewrite andb_false_r.
Qed.

Lemma counted_insert now id t promoter l d :
  promotions d !! id = None → counted d → counted (insert_promotion now id t promoter l d).
Proof.
  intros Hid [Ht Hd Ho].
  assert (∀ p, 0 ≤ p → promotion_names d !! (id, p) = None) as Hfresh.
  { intros p _. apply eq_None_not_Some. intros [n Hn]. apply Ho in Hn as [pm Hpm]. simpl in Hpm. congruence. }
  assert (∀ q, count_where (λ k n, bool_decide (k.1 = id) && q k n) (promotion_names d) = 0%nat) as Hz.
  { intros q. apply count_where_zero. intros [k p] n Hn. apply Ho in Hn as [pm Hpm]. simpl in *.
    rewrite bool_decide_false; [done|]. congruence. }
  unfold insert_promotion. split; simpl.
  - intros id' pm. rewrite count_insert_total by done. rewrite lookup_insert_Some.
    intros [[<- <-]|[Hne Hpm]]; simpl.
    + rewrite decide_True by done. f_equal.
      assert (count_where (name_of id) (promotion_names d) = 0%nat) as ->; [|lia].
      rewrite <-(Hz (λ _ _, true)). unfold count_where. f_equal. apply list_filter_iff.
      intros []. by rewrite andb_true_r.
    + rewrite decide_False by done. rewrite Nat.add_0_r. auto.
  - intros id' pm. rewrite count_insert_promoted by done. rewrite lookup_insert_Some.
    intros [[<- <-]|[Hne Hpm]]; simpl; [|auto].
    by rewrite (Hz (λ _ n, bool_decide (pn_state n = NamePromotedS)) : count_where (promoted_of id) _ = _).
  - intros k n Hk%lookup_insert_names. destruct (decide (k.1 = id)) as [->|Hne].
    + rewrite lookup_insert_eq. eauto.
    + rewrite lookup_insert_ne by done. destruct Hk as [Hk|]; [|done]. eauto.
Qed.

Lemma counted_Claim now owner d : counted d → counted (ClaimPromotion now owner d).1.
Proof.
  unfold ClaimPromotion. destruct (order_by _ _) as [|[id pm] l]; [done|].
  apply counted_rows; [done|]. eexists _, _. split; [reflexivity|done].
Qed.

Lemma counted_Open now id t promoter l d d' :
  promotions d !! id = None → Open now id t promoter l d = Ok d' → counted d → counted d'.
Proof.
  intros Hid Ho%promotions_Open Hc. destruct Ho as [[Hp Hn]|[Hp Hn]].
  - revert Hc. apply counted_rows; [done|]. eexists _, _. split; [exact Hp|done].
  - apply (counted_insert now id t promoter l) in Hc; [|done]. revert Hc.
    apply counted_rows; [done|]. rewrite Hp. eexists _, (λ _ pm, pm).
    split; [apply update_where_false|done].
Qed.

(** A name is reported: its row is rewritten, its promotion with it. *)
Lemma counted_name d id position n n' f :
  counted d → promotion_names d !! (id, position) = Some n →
  (∀ pm, pm_names_total (f pm) = pm_names_total pm ∧
     pm_names_done (f pm) + (if promoted_of id (id, position) n then 1 else 0) =
       pm_names_done pm + (if promoted_of id (id, position) n' then 1 else 0)) →
  counted (update_promotion id f
    (d <| promotion_names := <[(id, position) := n']> (promotion_names d) |>)).
Proof.
  intros [Ht Hd Ho] Hn Hf.
  assert (∀ q, (count_where q (<[(id, position):=n']> (promotion_names d)) + (if q (id, position) n then 1 else 0) =
    count_where q (promotion_names d) + (if q (id, position) n' then 1 else 0))%nat) as Hone
    by (intros q; by apply count_where_update_one).
  split; simpl.
  - intros i pm (pm0 & Hpm & ->)%lookup_update_where_Some. specialize (Hone (name_of i)).
    unfold name_of at 2 4 in Hone. simpl in Hone. specialize (Ht _ _ Hpm).
    destruct (bool_decide (i = id)); [rewrite (proj1 (Hf _))|]; lia.
  - intros i pm (pm0 & Hpm & ->)%lookup_update_where_Some. specialize (Hone (promoted_of i)).
    specialize (Hd _ _ Hpm). destruct (Hf pm0) as [_ Hf0]. case_bool_decide as Hi.
    + subst i. destruct (promoted_of id (id, position) n), (promoted_of id (id, position) n'); lia.
    + assert (∀ m, promoted_of i (id, position) m = false) as Hno.
      { intros m. unfold promoted_of. simpl. rewrite bool_decide_false; [done|congruence]. }
      rewrite !Hno in Hone. lia.
  - intros k m Hk. apply update_where_is_Some. destruct (decide (k = (id, position))) as [->|Hne].
    + eauto.
    + rewrite lookup_insert_ne in Hk by done. eauto.
Qed.

Lemma is_name_spec id position k n : is_name id position k n = true ↔ k = (id, position).
Proof. apply bool_decide_eq_true. Qed.

Lemma counted_NamePromoted now id position d : counted d → counted (NamePromoted now id position d).
Proof.
  intros Hc. unfold NamePromoted.
  set (p := λ k n, is_name id position k n && negb (bool_decide (pn_state n = NamePromotedS))).
  case_bool_decide as Hpos.
  - apply count_where_pos in Hpos as (k & n & Hk & Hp). unfold p in Hp.
    apply andb_true_iff in Hp as [->%is_name_spec Hs%negb_true_iff%bool_decide_eq_false].
    simpl. rewrite (update_where_key p _ _ (id, position) n); cycle 1.
    { intros k' v' [Hk' _]%andb_true_iff. by apply is_name_spec in Hk'. }
    { done. }
    { unfold p. rewrite (proj2 (is_name_spec _ _ _ _) eq_refl). by rewrite bool_decide_false. }
    eapply counted_name; [done|done|]. intros pm. simpl. split; [done|].
    unfold promoted_of. simpl. rewrite (bool_decide_false (pn_state n = _)) by done.
    rewrite andb_false_r, !bool_decide_true by done. simpl. lia.
  - assert (count_where p (promotion_names d) = 0%nat) as Hz by lia.
    simpl. rewrite update_where_count_zero by done. by destruct d.
Qed.

Lemma update_promotion_id id d : update_promotion id (λ pm, pm) d = d.
Proof.
  unfold update_promotion. destruct d. simpl. f_equal. apply map_eq. intros i.
  rewrite lookup_update_where. destruct (_ !! i); simpl; [|done]. by destruct (bool_decide _).
Qed.

Lemma counted_NameFailed id position reason d :
  (∀ n, promotion_names d !! (id, position) = Some n → pn_state n ≠ NamePromotedS) →
  counted d → counted (NameFailed id position reason d).
Proof.
  intros Hno Hc. unfold NameFailed. simpl.
  destruct (promotion_names d !! (id, position)) as [n|] eqn:Hn.
  - rewrite (update_where_key _ _ _ (id, position) n); [|by intros k v ->%is_name_spec|done|by apply is_name_spec].
    rewrite <-(update_promotion_id id). eapply counted_name; [done|done|]. intros pm. split; [done|].
    unfold promoted_of. simpl. rewrite bool_decide_true by done.
    rewrite bool_decide_false by (by apply Hno). done.
  - rewrite update_where_none; [by destruct d|]. intros k v Hk. apply not_true_is_false.
    intros ->%is_name_spec. congruence.
Qed.

Lemma counted_step d o d' : runner_step d o d' → counted d → counted d'.
Proof.
  intros [o' d0 d1 Hlegal Hexec] Hc.
  destruct o'; cbn [runner_exec op_legal] in *; try (apply Ok_inj in Hexec as <-).
  - by eapply counted_Open.
  - revert Hc. apply counted_rows; [done|]. eexists _, _. split; [reflexivity|done].
  - by apply counted_Claim.
  - by apply counted_NamePromoted.
  - by apply counted_NameFailed.
  - revert Hc. apply counted_rows; [done|]. eexists _, _. split; [reflexivity|done].
  - revert Hexec. unfold Settle. intros ([s1 s2] & _ & (pm0 & _ & [= <-])%result_bind_Ok)%result_bind_Ok.
    revert Hc. apply counted_rows; [done|]. eexists _, _. split; [reflexivity|done].
Qed.

(** A promotion's progress is honest.  From tables that agree, whatever the
    coordinators do, in any order and however often a name is reported
    published, a promotion's count of names done is the number of its names
    recorded as promoted, its total the number of its names, so the count never
    passes the total. *)
Theorem promotion_progress_is_exact db db' :
  counted db → rtc (λ d d', ∃ o, runner_step d o d') db db' →
  ∀ id pm, promotions db' !! id = Some pm →
    pm_names_done pm = Z.of_nat (count_where (promoted_of id) (promotion_names db')) ∧
    pm_names_total pm = Z.of_nat (count_where (name_of id) (promotion_names db')) ∧
    0 ≤ pm_names_done pm ≤ pm_names_total pm.
Proof.
  intros Hc Hsteps. assert (counted db') as [Ht Hd _].
  { induction Hsteps as [|d d1 d2 (o & Hstep) _ IH]; [done|]. by eapply IH, counted_step. }
  intros id pm Hpm. rewrite (Ht _ _ Hpm), (Hd _ _ Hpm). split; [done|]. split; [done|].
  split; [lia|]. apply inj_le, count_where_mono. intros k n _. unfold promoted_of, name_of.
  by intros [? _]%andb_true_iff.
Qed.

(* -------------------------------------------------------------------- *)
(** ** Settling *)

Lemma Settle_Ok now id state reason ps ts pm db :
  promotion_outcome state = Some (ps, ts) → promotions db !! id = Some pm →
  ∃ db', Settle now id state reason db = Ok db' ∧
    promotions db' = <[id := set_promotion_settled now ps reason pm]> (promotions db) ∧
    (∀ i, transfers db' !! i =
       (λ r, if bool_decide (i = pm_transfer pm ∧ t_state r = TransferPromoting)
             then r <| t_state := ts |> <| t_failure_reason := nullIfEmpty reason |>
                    <| t_completed := Some now |> <| t_updated := now |>
             else r) <$> transfers db !! i) ∧
    db' = db <| promotions := promotions db' |> <| transfers := transfers db' |>.
Proof.
  intros Hout Hpm. unfold Settle. rewrite Hout. cbn [of_option mbind result_bind]. rewrite Hpm.
  cbn [of_option mbind result_bind]. eexists. split; [reflexivity|].
  rewrite (update_promotion_eq _ _ _ _ Hpm). split; [done|]. split; [|done]. intros i. simpl.
  rewrite lookup_update_where. destruct (transfers db !! i); simpl; [|done].
  by rewrite bool_decide_and.
Qed.

(** A promotion and its transfer are settled together.  Settling accepts the
    two outcomes and refuses every other word; the promotion ends in the outcome
    with its claim released, its transfer ends in the same one if it was still
    promoting and is left alone otherwise, and no other row changes. *)
Theorem Settle_closes_both now id state reason db :
  match Settle now id state reason db with
  | Ok db' =>
      ∃ ps ts pm, promotion_outcome state = Some (ps, ts) ∧ promotions db !! id = Some pm ∧
        promotions db' = <[id := set_promotion_settled now ps reason pm]> (promotions db) ∧
        (∀ i, transfers db' !! i =
           (λ r, if bool_decide (i = pm_transfer pm ∧ t_state r = TransferPromoting)
                 then r <| t_state := ts |> <| t_failure_reason := nullIfEmpty reason |>
                        <| t_completed := Some now |> <| t_updated := now |>
                 else r) <$> transfers db !! i) ∧
        db' = db <| promotions := promotions db' |> <| transfers := transfers db' |>
  | Err e =>
      state ∉ ["succeeded"; "failed"] ∧ e = ENotAnOutcome id state ∨
      promotions db !! id = None
  end.
Proof.
  destruct (promotion_outcome state) as [[ps ts]|] eqn:Hout.
  - destruct (promotions db !! id) as [pm|] eqn:Hpm.
    2: { unfold Settle. rewrite Hout. cbn [of_option mbind result_bind]. rewrite Hpm. by right. }
    destruct (Settle_Ok now id state reason _ _ _ _ Hout Hpm) as (db' & -> & Hp & Ht & Heq).
    exists ps, ts, pm. done.
  - unfold Settle. rewrite Hout. left. split; [|done]. revert Hout. unfold promotion_outcome.
    destruct (String.eqb_spec state "succeeded") as [|Hs]; [done|].
    destruct (String.eqb_spec state "failed") as [|Hf]; [done|]. set_solver.
Qed.

(* -------------------------------------------------------------------- *)
(** ** A promotion taken over *)

Definition example_promotion_db : DB :=
  (example_db [] [("t", example_transfer TransferPlanning 0)])
    <| requests := {[ "r" := mkRequest 1 1 "replicate" 1 50 "k" "system" "api" None "expanded" 0 0 ]} |> <| products := {[ 1 := "cfx" ]} |>.

Definition example_names : list PromotionName :=
  [mkName "" "1.0" "sha256:root"; mkName "nginx" "1.2" "sha256:nginx"].

(** Opened, claimed by c1, its first name published. *)
#[local] Notation held_promotion :=
  (NamePromoted (20 * Second) 7 0
    (ClaimPromotion (10 * Second) "c1"
      (ok_or empty_db (Open 0 7 "t" "jfrog" example_names example_promotion_db))).1).

(** A silent coordinator's claim is taken over after StaleAfter; nothing then
    stops it from settling the promotion it no longer holds. *)
Example stale_runner_settles :
  let db := (ClaimPromotion (111 * Second) "c2" held_promotion).1 in
  pm_claimed_by <$> promotions db !! 7 = Some "c2" ∧
  ∃ db', Settle (112 * Second) 7 "failed" "c1 lost its network" db = Ok db' ∧
    pm_state <$> promotions db' !! 7 = Some PromotionFailed ∧
    t_state <$> transfers db' !! "t" = Some TransferFailed.
Proof. split; [vm_compute; reflexivity|]. eexists. vm_compute. auto. Qed.

(** A name reported as failed after it was published is counted twice. *)
Example name_counted_twice :
  let db := NamePromoted (22 * Second) 7 0 (NameFailed 7 0 "timeout" held_promotion) in
  pm_names_done <$> promotions db !! 7 = Some 2 ∧
  count_where (promoted_of 7) (promotion_names db) = 1%nat.
Proof. vm_compute. auto. Qed.

Lemma example_counted : counted example_promotion_db.
Proof. split; intros; discriminate. Qed.

Lemma example_runner_steps :
  rtc (λ d d', ∃ o, runner_step d o d') example_promotion_db held_promotion.
Proof.
  eapply rtc_l; [exists (ROpen 0 7 "t" "jfrog" example_names); constructor; [done|reflexivity]|].
  eapply rtc_l; [exists (RClaim (10 * Second) "c1"); constructor; [done|reflexivity]|].
  eapply rtc_l; [exists (RNamePromoted (20 * Second) 7 0); constructor; [done|reflexivity]|].
  reflexivity.
Qed.

Lemma example_held :
  ∃ pm, promotions held_promotion !! 7 = Some pm ∧ pm_state pm = PromotionRunning ∧
    pm_heartbeat pm = Some (20 * Second) ∧ pm_claimed_by pm = "c1".
Proof. eexists. vm_compute. auto. Qed.

Lemma promotion_progress_is_exact_witness :
  ∃ pm, promotions held_promotion !! 7 = Some pm ∧ 0 ≤ pm_names_done pm ≤ pm_names_total pm.
Proof.
  destruct example_held as (pm & Hpm & _). exists pm. split; [exact Hpm|].
  exact (proj2 (proj2 (promotion_progress_is_exact _ _ example_counted example_runner_steps 7 pm Hpm))).
Defined.

(** c2 asks while c1's heartbeat is fresh. *)
Lemma held_claim_is_exclusive_witness :
  ∃ pm', promotions (ClaimPromotion (100 * Second) "c2" held_promotion).1 !! 7 = Some pm' ∧
    pm_claimed_by pm' = "c1".
Proof.
  destruct example_held as (pm & Hpm & Hrun & Hbeat & Hby).
  destruct (held_claim_is_exclusive 7 held_promotion
    (ClaimPromotion (100 * Second) "c2" held_promotion).1 pm Hpm Hrun) as (pm' & Hpm' & _ & Hc & _).
  - apply rtc_once. exists (RClaim (100 * Second) "c2"). split; [constructor; [done|reflexivity]|].
    exists pm, (20 * Second). split; [exact Hpm|]. split; [exact Hbeat|]. unfold StaleAfter, Second. lia.
  - exists pm'. split; [exact Hpm'|congruence].
Defined.
