(* ===== verification/Runner.v ===== *)
(** * The promotion runner

    internal/promotion/runner.go: one tick claims at most one promotion, asks the
    registry's own promoter to publish the names it has left, one at a time,
    reads the root back from the destination and settles the promotion with its
    transfer.  The registry is a world [W] behind the interface [Estate]: what
    service.go and the plugins answer, and what the destination serves. *)

From S2P Require Import Prelude GoStrings StateMachine Backoff Schema Leasing Completion Promotions.
Open Scope Z_scope.

Record PromotionHop := mkHop {
  h_TransferID : string;
  h_ProductName : string;
  h_Origin : string;
  h_Destination : string;
  h_Package : string;
  h_ManifestDigest : string;
  h_Names : list PromotionName }.

(** What Service.PromoterFor answers: an error, no promoter with the reason, or
    the promoter's name and its Promote of one name of the hop. *)
Inductive Binding (W : Type) :=
  | BindingError (message : string)
  | Unbound (reason : string)
  | Bound (promoter : string) (promote : PromotionName → W → W * option string).
Arguments BindingError {W}.
Arguments Unbound {W}.
Arguments Bound {W}.

(** What ResolveAt answers: a digest, ErrNotFound, or another error. *)
Inductive Reading :=
  | Resolved (digest : string)
  | NotFound
  | Unreadable (message : string).

Class Estate (W : Type) := {
  PromoterFor : PromotionHop → Binding W;
  (** product, target, repository path, tag; [None] when the runner was built
      without a reader *)
  ResolveAt : option (string → string → string → string → W → Reading);
  (** packages: a transfer's package tag and manifest digest *)
  package_of : Z → string * string }.

Definition displayPath (p : string) : string := if String.eqb p "" then "the release" else p.

(** The name before the first slash; an index of zero is no match, as none is. *)
Definition configuredName (rowName : string) : string :=
  match cut_first slash rowName with
  | Some (EmptyString, _) | None => rowName
  | Some (name, _) => name
  end.

(** A function's error: its text. *)
Definition outcome (A : Type) : Type := string + A.

Section runner.
Context {W : Type} `{Estate W}.

Definition allNames (id : Z) (db : DB) : list PromotionName :=
  (λ r : Z * promotion_name, mkName (pn_repository r.2) (pn_tag r.2) (pn_digest r.2)) <$> AllNames id db.

(** The promotion as ClaimPromotion returns it carries its transfer's
    repositories, its product's name and its package. *)
Definition hopFor (id : Z) (pm : promotion) (db : DB) : outcome PromotionHop :=
  match transfers db !! pm_transfer pm with
  | None => inl "promotion without a transfer"
  | Some t =>
      let product := default "" (rq ← requests db !! t_request t; products db !! r_product rq) in
      let endpoints := HydrateEndpoints [t_source_repo t; t_target_repo t] db in
      match endpoints !! t_source_repo t with
      | None => inl (words ["origin repository "; pretty (t_source_repo t); " is no longer in the catalog"])
      | Some origin =>
          match endpoints !! t_target_repo t with
          | None => inl (words ["destination repository "; pretty (t_target_repo t);
                                " is no longer in the catalog"])
          | Some destination =>
              inr (mkHop (pm_transfer pm) product (configuredName (EName origin))
                     (configuredName (EName destination)) (package_of (t_package t)).1
                     (package_of (t_package t)).2 (allNames id db))
          end
      end
  end.

(** The error of verify, if any. *)
Definition verify (pm : promotion) (hop : PromotionHop) (w : W) : option string :=
  match ResolveAt, h_Names hop with
  | None, _ | _, [] => None
  | Some resolve, root :: _ =>
      if String.eqb (NDigest root) "" then None
      else match resolve (h_ProductName hop) (h_Destination hop) (Repository root) (Tag root) w with
           | NotFound =>
               Some (words [pm_promoter pm; " reported success, but "; displayPath (Repository root);
                            ":"; Tag root; " is not present at "; h_Destination hop])
           | Unreadable e =>
               Some (words ["could not read "; Tag root; " back from "; h_Destination hop; ": "; e])
           | Resolved got =>
               if EqualFold got (NDigest root) then None
               else Some (words [displayPath (Repository root); ":"; Tag root; " at "; h_Destination hop;
                     " resolves to "; got; ", not "; NDigest root;
                     ". Something else wrote that tag; this release was not promoted"])
           end
  end.

(** The names left, in order: published and recorded one at a time, up to the
    first that fails. [clock] is when each position is recorded. *)
Fixpoint promote_pending (clock : Z → Z) (id : Z)
    (promote : PromotionName → W → W * option string)
    (pending : list (Z * promotion_name)) (db : DB) (w : W) : DB * W * option string :=
  match pending with
  | [] => (db, w, None)
  | (position, n) :: pending =>
      match promote (mkName (pn_repository n) (pn_tag n) (pn_digest n)) w with
      | (w, Some e) => (NameFailed id position e db, w, Some e)
      | (w, None) =>
          promote_pending clock id promote pending (NamePromoted (clock position) id position db) w
      end
  end.

Definition run (clock : Z → Z) (id : Z) (pm : promotion) (db : DB) (w : W)
    : DB * W * option string :=
  match hopFor id pm db with
  | inl e => (db, w, Some e)
  | inr hop =>
      match PendingNames id db with
      | [] => (db, w, verify pm hop w)
      | pending =>
          match PromoterFor hop with
          | BindingError e => (db, w, Some e)
          | Unbound reason =>
              (db, w, Some (words ["no promoter carries "; h_Origin hop; " -> "; h_Destination hop;
                 " any more: "; reason; " Retry the transfer to copy it instead"]))
          | Bound promoter promote =>
              if negb (String.eqb promoter (pm_promoter pm))
              then (db, w, Some (words ["this promotion was opened by "; quoted (pm_promoter pm); " and ";
                      quoted promoter; " claims it now: the configuration changed underneath it. ";
                      "Retry the transfer to start again"]))
              else match promote_pending clock id promote pending db w with
                   | (db, w, Some e) => (db, w, Some e)
                   | (db, w, None) => (db, w, verify pm hop w)
                   end
          end
      end
  end.

(** The database and the world after a tick, and whether it did anything. [now]
    is the claim's clock, [later] the settlement's. *)
Definition Tick (now later : Z) (clock : Z → Z) (owner : string) (db : DB) (w : W)
    : result (DB * W * bool) :=
  match ClaimPromotion now owner db with
  | (db, None) => Ok (db, w, false)
  | (db, Some (id, pm)) =>
      let '(db, w, err) := run clock id pm db w in
      match err with
      | Some e => db ← Settle later id "failed" e db; Ok (db, w, true)
      | None => db ← Settle later id "succeeded" "" db; Ok (db, w, true)
      end
  end.

End runner.

(* -------------------------------------------------------------------- *)
(** ** Names in order *)

Lemma elem_of_names id pendingOnly db p n :
  (p, n) ∈ names id pendingOnly db ↔
  promotion_names db !! (id, p) = Some n ∧ (pendingOnly = true → pn_state n ≠ NamePromotedS).
Proof.
  unfold names. rewrite elem_of_order_by, list_elem_of_fmap. split.
  - intros ([[i p'] n'] & [= -> ->] & [Hn Hp]%elem_of_select_where). simpl in *.
    apply andb_true_iff in Hp as [->%bool_decide_eq_true Hs]. split; [done|]. intros ->. simpl in Hs.
    by apply negb_true_iff, bool_decide_eq_false in Hs.
  - intros [Hn Hs]. exists ((id, p), n). split; [done|]. apply elem_of_select_where. split; [done|].
    simpl. rewrite bool_decide_true by done. destruct pendingOnly; [|done]. simpl.
    rewrite bool_decide_false by auto. done.
Qed.

Lemma NoDup_names id pendingOnly db : NoDup (names id pendingOnly db).*1.
Proof.
  assert ((names id pendingOnly db).*1 ≡ₚ
    ((λ r : (Z * Z) * promotion_name, (r.1.2, r.2)) <$>
      select_where (λ k n, bool_decide (k.1 = id) &&
        (negb pendingOnly || negb (bool_decide (pn_state n = NamePromotedS)))) (promotion_names db)).*1) as ->
    by (apply Permutation_map, order_by_Permutation).
  rewrite <-list_fmap_compose. apply NoDup_fmap_2_strong.
  - intros [[i p] n] [[i' p'] n'] [Hn Hp]%elem_of_select_where [Hn' Hp']%elem_of_select_where Heq.
    simpl in *. subst p'. apply andb_true_iff in Hp as [->%bool_decide_eq_true _],
      Hp' as [->%bool_decide_eq_true _]. congruence.
  - eapply NoDup_fmap_1, NoDup_select_where.
Qed.

Section theorems.
Context {W : Type} `{Estate W}.
Implicit Types (w : W) (db : DB).

(** Every call succeeds; the world after them. *)
Fixpoint publish_all (promote : PromotionName → W → W * option string)
    (l : list (Z * promotion_name)) w : option W :=
  match l with
  | [] => Some w
  | (_, n) :: l =>
      match promote (mkName (pn_repository n) (pn_tag n) (pn_digest n)) w with
      | (w, None) => publish_all promote l w
      | (_, Some _) => None
      end
  end.

Definition name_promoted (at_ : Z) (n : promotion_name) : promotion_name :=
  n <| pn_state := NamePromotedS |> <| pn_last_error := "" |> <| pn_promoted_at := Some at_ |>.

Definition name_failed (e : string) (n : promotion_name) : promotion_name :=
  n <| pn_state := NameFailedS |> <| pn_last_error := truncate e 2000 |>.

Lemma NamePromoted_pending now id p n db :
  promotion_names db !! (id, p) = Some n → pn_state n ≠ NamePromotedS →
  promotion_names (NamePromoted now id p db) = <[(id, p) := name_promoted now n]> (promotion_names db) ∧
  (∀ i, ∃ f, promotions (NamePromoted now id p db) !! i = f <$> promotions db !! i ∧
     ∀ pm, pm_transfer (f pm) = pm_transfer pm) ∧
  transfers (NamePromoted now id p db) = transfers db.
Proof.
  intros Hn Hs. unfold NamePromoted. rewrite bool_decide_true.
  - split; [|split; [|done]].
    + simpl. apply (update_where_key _ (λ _, name_promoted now) _ (id, p) n).
      * by intros k v [->%is_name_spec _]%andb_true_iff.
      * done.
      * rewrite (proj2 (is_name_spec _ _ _ _) eq_refl). by rewrite bool_decide_false.
    + intros i. rewrite lookup_update_promotion. eexists. split; [reflexivity|]. intros pm. simpl.
      by case_bool_decide.
  - apply count_where_pos. exists (id, p), n. split; [done|].
    rewrite (proj2 (is_name_spec _ _ _ _) eq_refl). by rewrite bool_decide_false.
Qed.

Lemma NameFailed_names id p n e db :
  promotion_names db !! (id, p) = Some n →
  promotion_names (NameFailed id p e db) = <[(id, p) := name_failed e n]> (promotion_names db).
Proof.
  intros Hn. simpl. apply (update_where_key _ (λ _, name_failed e) _ (id, p) n); [|done|by apply is_name_spec].
  by intros k v ->%is_name_spec.
Qed.

(** What publishing the pending names leaves: those before the first failure are
    promoted, the failing one failed, the others as they were. *)
Lemma promote_pending_spec clock id promote pending db w db' w' err :
  NoDup pending.*1 →
  (∀ p n, (p, n) ∈ pending → promotion_names db !! (id, p) = Some n ∧ pn_state n ≠ NamePromotedS) →
  promote_pending clock id promote pending db w = (db', w', err) →
  ∃ sent rest w1, pending = sent ++ rest ∧ publish_all promote sent w = Some w1 ∧
    (∀ p n, (p, n) ∈ sent → promotion_names db' !! (id, p) = Some (name_promoted (clock p) n)) ∧
    (∀ k, (k.1 = id → k.2 ∉ pending.*1) → promotion_names db' !! k = promotion_names db !! k) ∧
    (∀ i, ∃ f, promotions db' !! i = f <$> promotions db !! i ∧
       ∀ pm, pm_transfer (f pm) = pm_transfer pm) ∧
    transfers db' = transfers db ∧
    match err with
    | None => rest = [] ∧ w' = w1
    | Some e => ∃ p n rest', rest = (p, n) :: rest' ∧
        promote (mkName (pn_repository n) (pn_tag n) (pn_digest n)) w1 = (w', Some e) ∧
        promotion_names db' !! (id, p) = Some (name_failed e n) ∧
        (∀ p' n', (p', n') ∈ rest' → promotion_names db' !! (id, p') = Some n')
    end.
Proof.
  revert db w. induction pending as [|[p n] l IH]; intros db w Hnd Hrows; cbn [promote_pending].
  { intros [= <- <- <-]. exists [], [], w. split_and!; try done.
    - set_solver.
    - intros i. exists (λ pm, pm). split; [by destruct (_ !! _)|done]. }
  apply NoDup_cons in Hnd as [Hp Hnd]. destruct (Hrows p n) as [Hn Hs]; [left|].
  assert (∀ p' n', (p', n') ∈ l → p' ≠ p) as Hother.
  { intros p' n' Hin ->. apply Hp. apply list_elem_of_fmap. by exists (p, n'). }
  destruct (promote _ w) as [w2 [e|]] eqn:Hcall.
  - intros [= <- <- <-]. exists [], ((p, n) :: l), w. split_and!; try done.
    + set_solver.
    + intros k Hk. rewrite (NameFailed_names _ _ _ _ _ Hn). apply lookup_insert_ne. intros <-.
      apply Hk; [done|]. left.
    + intros i. exists (λ pm, pm). split; [unfold NameFailed; simpl; by destruct (promotions db !! i)|done].
    + exists p, n, l. split; [done|]. split; [done|].
      rewrite (NameFailed_names _ _ _ _ _ Hn). split; [apply lookup_insert_eq|].
      intros p' n' Hin. rewrite lookup_insert_ne.
      * apply Hrows. by right.
      * intros [= ->]. by eapply Hother.
  - destruct (NamePromoted_pending (clock p) id p n db Hn Hs) as (Hnames & Hpm & Ht).
    intros Hrest. apply IH in Hrest as (sent & rest & w1 & -> & Hpub & Hdone & Hkeep & Hpm' & Ht' & Herr);
      [|done|].
    + exists ((p, n) :: sent), rest, w1. split; [done|]. split; [cbn [publish_all]; by rewrite Hcall|].
      split; [|split; [|split; [|split; [congruence|done]]]].
      * intros p' n' [[= -> ->]|Hin]%elem_of_cons; [|by apply Hdone].
        rewrite Hkeep by (intros _; exact Hp). rewrite Hnames. apply lookup_insert_eq.
      * intros k Hk. rewrite Hkeep by (intros Hid; specialize (Hk Hid); set_solver).
        rewrite Hnames. apply lookup_insert_ne. intros <-. apply Hk; [done|]. left.
      * intros i. destruct (Hpm i) as (f & Hf & Hft), (Hpm' i) as (g & Hg & Hgt).
        exists (g ∘ f). split; [rewrite Hg, Hf; by destruct (promotions db !! i)|].
        intros pm. simpl. by rewrite Hgt, Hft.
    + intros p' n' Hin. rewrite Hnames, lookup_insert_ne; [apply Hrows; by right|].
      intros [= ->]. by eapply Hother.
Qed.

Lemma PendingNames_rows id db p n :
  (p, n) ∈ PendingNames id db → promotion_names db !! (id, p) = Some n ∧ pn_state n ≠ NamePromotedS.
Proof. intros [? Hs]%elem_of_names. auto. Qed.

Lemma verify_evidence pm hop w resolve root rest :
  verify pm hop w = None → ResolveAt = Some resolve → h_Names hop = root :: rest → NDigest root ≠ "" →
  ∃ got, resolve (h_ProductName hop) (h_Destination hop) (Repository root) (Tag root) w = Resolved got ∧
    EqualFold got (NDigest root) = true.
Proof.
  unfold verify. intros Hv Hres Hn Hd. apply String.eqb_neq in Hd. rewrite Hres, Hn, Hd in Hv.
  destruct (resolve _ _ _ _ w) as [got| |]; [|done..]. exists got. destruct (EqualFold _ _); done.
Qed.

(** Whatever a run does, it leaves transfers alone and its promotion in place;
    a run without an error has every name recorded and was verified. *)
Lemma run_spec clock id pm db w db' w' err :
  run clock id pm db w = (db', w', err) →
  transfers db' = transfers db ∧
  (∀ i, ∃ f, promotions db' !! i = f <$> promotions db !! i ∧
     ∀ pm, pm_transfer (f pm) = pm_transfer pm) ∧
  (err = None → (∀ p n, promotion_names db' !! (id, p) = Some n → pn_state n = NamePromotedS) ∧
     ∃ hop, hopFor id pm db = inr hop ∧ verify pm hop w' = None).
Proof.
  assert (∀ e, (db, w, Some e) = (db', w', err) → transfers db' = transfers db ∧
    (∀ i, ∃ f, promotions db' !! i = f <$> promotions db !! i ∧ ∀ pm, pm_transfer (f pm) = pm_transfer pm) ∧
    (err = None → (∀ p n, promotion_names db' !! (id, p) = Some n → pn_state n = NamePromotedS) ∧
      ∃ hop, hopFor id pm db = inr hop ∧ verify pm hop w' = None)) as Hstop.
  { intros e [= <- <- <-]. split; [done|]. split; [|done]. intros i. exists (λ pm, pm).
    split; [by destruct (promotions db !! i)|done]. }
  unfold run. destruct (hopFor id pm db) as [e|hop] eqn:Hhop; [apply Hstop|].
  destruct (PendingNames id db) as [|x l] eqn:Hpend.
  { intros [= <- <- Hv]. split; [done|]. split.
    - intros i. exists (λ pm, pm). split; [by destruct (promotions db !! i)|done].
    - intros He. split; [|exists hop; by rewrite Hv].
      intros p n Hn. destruct (decide (pn_state n = NamePromotedS)) as [|Hs]; [done|].
      exfalso. apply (not_elem_of_nil (p, n)). rewrite <-Hpend. by apply elem_of_names. }
  destruct (PromoterFor hop) as [e|reason|promoter promote]; [apply Hstop..|].
  case_match; [apply Hstop|].
  destruct (promote_pending _ _ _ _ _ _) as [[d w1] e] eqn:Hp. rewrite <-Hpend in Hp.
  apply promote_pending_spec in Hp as (sent & rest & w2 & Hsplit & _ & Hsent & Hkeep & Hpm & Ht & Herr);
    [|apply NoDup_names|apply PendingNames_rows].
  destruct e as [e|]; intros [= <- <- <-]; (split; [done|]; split; [done|]); [done|].
  destruct Herr as [-> ->]. rewrite app_nil_r in Hsplit. intros Hv. split; [|eauto].
  intros p n Hn. destruct (decide (p ∈ (PendingNames id db).*1)) as [Hin|Hout].
  - apply list_elem_of_fmap in Hin as ([p' n'] & -> & Hin). simpl in *. rewrite Hsplit in Hin.
    apply Hsent in Hin. by simplify_eq.
  - rewrite Hkeep in Hn by (intros _; exact Hout).
    destruct (decide (pn_state n = NamePromotedS)) as [|Hs]; [done|].
    exfalso. apply Hout, list_elem_of_fmap. exists (p, n). split; [done|]. by apply elem_of_names.
Qed.

(** A promotion is settled on what the registry serves.  A tick always
    completes: with nothing to claim it does nothing; otherwise the claimed
    promotion is settled with its transfer and released, as failed or as
    succeeded, and it is succeeded only with every name of it recorded as
    published and, when a reader is configured and the root has a digest, with
    the root's tag resolving to that digest at the destination as it is then. *)
Theorem Tick_settles_on_evidence now later clock owner db w :
  ∃ db' w' did, Tick now later clock owner db w = Ok (db', w', did) ∧
  match ClaimPromotion now owner db with
  | (_, None) => did = false ∧ db' = db ∧ w' = w
  | (d, Some (id, pm)) => did = true ∧
      ∃ pm' r, promotions db' !! id = Some pm' ∧ pm_claimed_by pm' = "" ∧
        transfers db' !! pm_transfer pm = Some r ∧
        (pm_state pm' = PromotionFailed ∧ t_state r = TransferFailed ∨
         pm_state pm' = PromotionSucceeded ∧ t_state r = TransferSucceeded ∧
         (∀ p n, promotion_names db' !! (id, p) = Some n → pn_state n = NamePromotedS) ∧
         ∃ hop, hopFor id pm d = inr hop ∧
           ∀ resolve root rest, ResolveAt = Some resolve → h_Names hop = root :: rest →
             NDigest root ≠ "" →
             ∃ got, resolve (h_ProductName hop) (h_Destination hop) (Repository root) (Tag root) w'
                      = Resolved got ∧ EqualFold got (NDigest root) = true)
  end.
Proof.
  unfold Tick. destruct (ClaimPromotion now owner db) as [d [[id pm]|]] eqn:Hc.
  2: { apply ClaimPromotion_None in Hc as [-> _]. eexists _, _, _. done. }
  apply ClaimPromotion_Some in Hc as (pm0 & Hpm0 & Hcl & _ & -> & ->).
  set (d := db <| promotions := _ |>).
  destruct (run _ _ _ _ _) as [[d1 w1] err] eqn:Hrun.
  apply run_spec in Hrun as (Ht & Hpm & Hok).
  destruct (Hpm id) as (f & Hf & Hft). unfold d in Hf at 1. simpl in Hf. rewrite lookup_insert_eq in Hf.
  unfold claimable in Hcl. destruct (transfers db !! pm_transfer pm0) as [r|] eqn:Hr; [|done].
  apply andb_true_iff in Hcl as [[Hprom%bool_decide_eq_true _]%andb_true_iff _].
  assert (transfers d1 !! pm_transfer pm0 = Some r) as Hr1 by (by rewrite Ht).
  assert (pm_transfer (f (set_claimed now owner pm0)) = pm_transfer pm0) as Hsame by (by rewrite Hft).
  destruct err as [e|].
  - destruct (Settle_Ok later id "failed" e _ _ _ d1 eq_refl Hf) as (d2 & Hset & Hp2 & Ht2 & _).
    rewrite Hset. eexists _, _, _. split; [reflexivity|]. split; [done|]. eexists _, _.
    rewrite Hp2, lookup_insert_eq. split; [done|]. split; [done|]. simpl.
    rewrite Ht2, Hr1. simpl. rewrite bool_decide_true by done. split; [done|]. by left.
  - destruct (Settle_Ok later id "succeeded" "" _ _ _ d1 eq_refl Hf) as (d2 & Hset & Hp2 & Ht2 & Heq).
    rewrite Hset. eexists _, _, _. split; [reflexivity|]. split; [done|]. eexists _, _.
    rewrite Hp2, lookup_insert_eq. split; [done|]. split; [done|]. simpl.
    rewrite Ht2, Hr1. simpl. rewrite bool_decide_true by done. split; [done|]. right.
    destruct (Hok eq_refl) as (Hnames & hop & Hhop & Hv). split; [done|]. split; [done|].
    rewrite Heq. split; [done|]. exists hop. split; [done|]. intros resolve root rest.
    by eapply verify_evidence.
Qed.

(** An interrupted promotion resumes where it stopped.  When the promoter
    that opened it still carries the hop, a run asks the registry exactly for
    the names not yet published, in order, up to the first refusal: those before
    it are recorded as published, the refused one as failed with the reason, and
    every other name - published earlier, or not reached - stays as it was. *)
Theorem run_resumes clock id pm db w db' w' err hop promote :
  hopFor id pm db = inr hop → PromoterFor hop = Bound (pm_promoter pm) promote →
  run clock id pm db w = (db', w', err) →
  ∃ sent rest w1, PendingNames id db = sent ++ rest ∧ publish_all promote sent w = Some w1 ∧
    (∀ p n, (p, n) ∈ sent → promotion_names db' !! (id, p) = Some (name_promoted (clock p) n)) ∧
    (∀ k, (k.1 = id → k.2 ∉ (PendingNames id db).*1) →
       promotion_names db' !! k = promotion_names db !! k) ∧
    (rest = [] → w' = w1 ∧ err = verify pm hop w1) ∧
    (∀ p n rest', rest = (p, n) :: rest' → ∃ e, err = Some e ∧
       promote (mkName (pn_repository n) (pn_tag n) (pn_digest n)) w1 = (w', Some e) ∧
       promotion_names db' !! (id, p) = Some (name_failed e n) ∧
       ∀ p' n', (p', n') ∈ rest' → promotion_names db' !! (id, p') = Some n').
Proof.
  intros Hhop Hprom. unfold run. rewrite Hhop.
  destruct (PendingNames id db) as [|x l] eqn:Hpend.
  { intros [= <- <- <-]. exists [], [], w. split_and!; try done. set_solver. }
  rewrite Hprom, String.eqb_refl. simpl negb. cbv iota.
  destruct (promote_pending _ _ _ _ _ _) as [[d w1] e] eqn:Hp. rewrite <-Hpend in *.
  apply promote_pending_spec in Hp as (sent & rest & w2 & Hsplit & Hpub & Hsent & Hkeep & _ & _ & Herr);
    [|apply NoDup_names|apply PendingNames_rows].
  destruct e as [e|]; intros [= <- <- <-]; exists sent, rest, w2.
  - destruct Herr as (p & n & rest' & -> & Hcall & Hfail & Hrest).
    split_and!; try done. intros p' n' rest'' [= <- <- <-]. eauto.
  - destruct Herr as [-> ->]. split_and!; done.
Qed.
End theorems.

(* -------------------------------------------------------------------- *)
(** ** A small registry *)

(** What the destination holds; a promoter that publishes any name but nginx. *)
Definition shelf := list PromotionName.

Definition put (n : PromotionName) (w : shelf) : shelf * option string :=
  if String.eqb (Repository n) "nginx" then (w, Some "403 forbidden") else (n :: w, None).

Definition look (_ _ repository tag : string) (w : shelf) : Reading :=
  match filter (λ n, Repository n = repository ∧ Tag n = tag) w with
  | n :: _ => Resolved (NDigest n)
  | [] => NotFound
  end.

#[local] Instance shelf_estate : Estate shelf :=
  { PromoterFor := λ _, Bound "jfrog" put; ResolveAt := Some look;
    package_of := λ _, ("1.0", "sha256:root") }.

#[local] Notation opened :=
  (ok_or empty_db (Open 0 7 "t" "jfrog" example_names example_promotion_db)).

#[local] Notation example_hop :=
  (mkHop "t" "cfx" "vendor" "dest" "1.0" "sha256:root" example_names).

Lemma run_resumes_witness :
  ∃ pm, promotions opened !! 7 = Some pm ∧
    ∃ sent rest w1, PendingNames 7 opened = sent ++ rest ∧ publish_all put sent [] = Some w1.
Proof.
  destruct (promotions opened !! 7) as [pm|] eqn:Hpm; [|exfalso; revert Hpm; vm_compute; discriminate].
  exists pm. split; [reflexivity|].
  assert (pm_transfer pm = "t" ∧ pm_promoter pm = "jfrog") as [Ht Hp].
  { revert Hpm. vm_compute. intros [= <-]. auto. }
  assert (hopFor 7 pm opened = inr example_hop) as Hhop.
  { unfold hopFor. rewrite Ht. vm_compute. reflexivity. }
  destruct (run (λ p, p) 7 pm opened []) as [[db' w'] err] eqn:Hrun.
  destruct (run_resumes (λ p, p) 7 pm opened [] db' w' err example_hop put Hhop)
    as (sent & rest & w1 & Hsplit & Hpub & _); [by rewrite Hp|exact Hrun|].
  exists sent, rest, w1. split; [exact Hsplit|exact Hpub].
Defined.

(** An unreadable destination settles the promotion as failed: the next tick has
    nothing to pick up. *)
Example unreadable_destination_fails :
  let blind := {| PromoterFor := λ _, Bound "jfrog" (λ n w, (n :: w, None));
                  ResolveAt := Some (λ _ _ _ _ _, Unreadable "connection reset");
                  package_of := λ _, ("1.0", "sha256:root") |} in
  match Tick (H := blind) (10 * Second) (30 * Second) (λ p, 20 * Second) "c1" opened [] with
  | Ok (db, _, did) => did = true ∧ pm_state <$> promotions db !! 7 = Some PromotionFailed ∧
      t_state <$> transfers db !! "t" = Some TransferFailed ∧
      ClaimPromotion (1000 * Second) "c2" db = (db, None)
  | Err _ => False
  end.
Proof. vm_compute. auto. Qed.
