(* ===== verification/Recovery.v ===== *)
(** * Recovery

    internal/store/queue.go (ReapExpiredLeases, FailTransfer),
    internal/store/recovery.go and internal/store/unstick.go: the passes that
    return the work of dead workers to the queue, declare stalled transfers
    failed, close stalled cancellations, promote provably ready jobs, and the
    manual and automatic retries. *)

From S2P Require Import Prelude StateMachine Backoff Schema Dependencies Leasing Completion Promotions.
Open Scope Z_scope.

(* -------------------------------------------------------------------- *)
(** ** Leases that come back *)

(** The state of the row's transfer; the join leaves out a job without one. *)
Definition transfer_state (db : DB) (t : string) : option TransferState :=
  t_state <$> transfers db !! t.

Definition stopping (s : TransferState) : bool :=
  bool_decide (s ∈ [TransferCancelling; TransferCancelled]).

(** j.state = 'leased' AND j.lease_expires_at < now *)
Definition lease_expired (now : Z) (db : DB) (_ : Z) (j : job) : bool :=
  bool_decide (j_state j = JobLeased) &&
  match j_lease_expires j with Some e => e <? now | None => false end &&
  bool_decide (is_Some (transfer_state db (j_transfer j))).

Record ReapedJob := mkReapedJob { rj_ID : Z; rj_TransferID : string; rj_State : JobState }.

Definition reaped_state (db : DB) (j : job) : JobState :=
  if match transfer_state db (j_transfer j) with Some s => stopping s | None => false end
  then JobCancelled
  else if j_max_attempts j <=? j_attempts j then JobFailed
  else JobPending.

Definition set_reaped (now delay : Z) (s : JobState) (j : job) : job :=
  j <| j_state := s |>
    <| j_lease_owner := None |>
    <| j_lease_expires := None |>
    <| j_next_visible := now + delay |>
    <| j_last_error := Some (default "lease expired" (j_last_error j)) |>
    <| j_last_error_class := Some "lease_expired" |>
    <| j_completed := if bool_decide (s ∈ [JobFailed; JobCancelled]) then Some now else None |>
    <| j_updated := now |>.

(** [WHERE id = id AND state = 'leased'] *)
Definition update_leased (id : Z) (f : job → job) (db : DB) : DB :=
  update_jobs (λ i j, bool_decide (i = id) && bool_decide (j_state j = JobLeased)) (λ _, f) db.

(** One transaction: the expired leases are read first and written one by one,
    each with its own draw of the retry delay. *)
Definition ReapExpiredLeases (now : Z) (draw : Z → Z) (db : DB) : DB * list ReapedJob :=
  let found := select_where (lease_expired now db) (jobs db) in
  (foldl (λ d r, update_leased r.1
            (set_reaped now (retryDelay (j_attempts r.2) (draw r.1)) (reaped_state db r.2)) d) db found,
   (λ r : Z * job, mkReapedJob r.1 (j_transfer r.2) (reaped_state db r.2)) <$> found).

Definition set_recovered (now : Z) (s : JobState) (j : job) : job :=
  j <| j_state := s |>
    <| j_lease_owner := None |>
    <| j_lease_expires := None |>
    <| j_next_visible := now |>
    <| j_last_error := Some (default "the worker holding this job restarted" (j_last_error j)) |>
    <| j_last_error_class := Some "lease_expired" |>
    <| j_completed := if bool_decide (s = JobCancelled) then Some now else None |>
    <| j_updated := now |>.

Definition recovered_state (db : DB) (j : job) : JobState :=
  if match transfer_state db (j_transfer j) with Some s => stopping s | None => false end
  then JobCancelled else JobPending.

Record RecoveredLease := mkRecoveredLease {
  rl_ID : Z; rl_TransferID : string; rl_Owner : string; rl_State : JobState }.

(** [query] is the WHERE clause of the caller's SELECT over leased jobs with a
    transfer. *)
Definition recoverLeases (now : Z) (query : Z → job → bool) (db : DB) : DB * list RecoveredLease :=
  let found := select_where (λ i j, bool_decide (j_state j = JobLeased) &&
    bool_decide (is_Some (transfer_state db (j_transfer j))) && query i j) (jobs db) in
  (foldl (λ d r, update_leased r.1 (set_recovered now (recovered_state db r.2)) d) db found,
   (λ r : Z * job, mkRecoveredLease r.1 (j_transfer r.2) (null_string (j_lease_owner r.2))
      (recovered_state db r.2)) <$> found).

(** w.id IS NULL OR w.last_heartbeat_at < now - staleAfter *)
Definition owner_silent (now staleAfter : Z) (db : DB) (_ : Z) (j : job) : bool :=
  match j_lease_owner j with
  | None => true
  | Some o => match workers db !! o with
              | None => true
              | Some w => w_heartbeat w <? now - staleAfter
              end
  end.

Definition RecoverOrphanedLeases (now staleAfter : Z) (db : DB) : DB * list RecoveredLease :=
  let staleAfter := if staleAfter <=? 0 then 2 * Minute else staleAfter in
  recoverLeases now (owner_silent now staleAfter db) db.

Definition RecoverWorkerLeases (now : Z) (owner : string) (db : DB) : DB * list RecoveredLease :=
  if bool_decide (owner = "") then (db, [])
  else recoverLeases now (λ _ j, bool_decide (j_lease_owner j = Some owner)) db.

(* -------------------------------------------------------------------- *)
(** ** Stalled transfers *)

Definition FailTransfer (now : Z) (t reason : string) (db : DB) : DB :=
  update_transfers
    (λ i r, bool_decide (i = t) && negb (bool_decide (t_state r ∈ [TransferSucceeded; TransferCancelled])))
    (λ _, set_transfer_failed now reason) db.

(** t.state IN ('ready','running') *)
Definition live (r : transfer) : bool :=
  bool_decide (t_state r ∈ [TransferReady; TransferRunning]).

Definition has_jobs (db : DB) (t : string) (sts : list JobState) : bool :=
  exists_where (job_of t sts) (jobs db).

Definition ids_where (p : string → transfer → bool) (db : DB) : list string :=
  (select_where p (transfers db)).*1.

Definition failUnreachableEverywhere (now : Z) (db : DB) : DB :=
  foldl (λ d t, (FailUnreachableJobs now t d).1) db
    (ids_where (λ t r, live r && has_jobs db t [JobFailed] && has_jobs db t [JobBlocked]) db).

Record StalledTransfer := mkStalledTransfer { sl_ID : string; sl_Failed : nat; sl_Reason : string }.

Definition failureSummary (t : string) (db : DB) : nat * string :=
  (failed_jobs t db, failureReason t (failed_jobs t db) db).

Definition stalled (db : DB) (t : string) (r : transfer) : bool :=
  live r && has_jobs db t [JobFailed] && negb (has_jobs db t outstanding).

Definition settle_stalled (now : Z) (acc : DB * list StalledTransfer) (t : string)
    : DB * list StalledTransfer :=
  let '(failed, reason) := failureSummary t acc.1 in
  (FailTransfer now t reason acc.1, acc.2 ++ [mkStalledTransfer t failed reason]).

Definition SettleStalledTransfers (now : Z) (db : DB) : DB * list StalledTransfer :=
  let db := failUnreachableEverywhere now db in
  foldl (settle_stalled now) (db, []) (ids_where (stalled db) db).

(* -------------------------------------------------------------------- *)
(** ** Stalled cancellations *)

Definition close_cancelled (now : Z) (t : string) (db : DB) : DB :=
  update_transfers
    (λ i r, bool_decide (i = t) && bool_decide (t_state r = TransferCancelling))
    (λ _ r, r <| t_state := TransferCancelled |>
              <| t_completed := Some (default now (t_completed r)) |> <| t_updated := now |>) db.

Definition cancellation_stalled (db : DB) (t : string) (r : transfer) : bool :=
  bool_decide (t_state r = TransferCancelling) && negb (has_jobs db t [JobLeased]).

Definition CloseStalledCancellations (now : Z) (db : DB) : DB * list string :=
  let ids := ids_where (cancellation_stalled db) db in
  (foldl (λ d t, close_cancelled now t d) db ids, ids).

(* -------------------------------------------------------------------- *)
(** ** Stuck transfers *)

Definition opened_and_ready (db : DB) (t : string) (id : Z) (j : job) : bool :=
  job_of t [JobBlocked] id j &&
  match transfers db !! t with Some r => j_wave j <=? t_current_wave r | None => false end &&
  dependencies_satisfied db id.

Definition unstick (now : Z) (t : string) (db : DB) : DB * nat :=
  let p := opened_and_ready db t in
  (update_jobs p (set_pending now) db, count_where p (jobs db)).

Definition stuck (db : DB) (t : string) (r : transfer) : bool :=
  live r && has_jobs db t [JobBlocked] && negb (has_jobs db t [JobPending; JobLeased]).

Definition unstick_one (now : Z) (acc : DB * list (string * nat)) (t : string)
    : DB * list (string * nat) :=
  let '(db, n) := unstick now t acc.1 in
  (db, if bool_decide (0 < n)%nat then acc.2 ++ [(t, n)] else acc.2).

Definition UnstickTransfers (now : Z) (db : DB) : DB * list (string * nat) :=
  foldl (unstick_one now) (db, []) (ids_where (stuck db) db).

(* -------------------------------------------------------------------- *)
(** ** Retry *)

Record RetryResult := mkRetryResult {
  rt_Requeued : nat;
  rt_Reblocked : nat;
  rt_State : TransferState;
  rt_NoJobs : bool }.

(** SELECT MIN(wave) ... WHERE state = 'failed' *)
Definition lowest_failed_wave (t : string) (db : DB) : option Z :=
  min_wave (job_of t [JobFailed]) db.

Definition set_requeued (now wave : Z) (j : job) : job :=
  j <| j_state := if j_wave j <=? wave then JobPending else JobBlocked |>
    <| j_attempts := 0 |>
    <| j_lease_owner := None |>
    <| j_lease_expires := None |>
    <| j_next_visible := now |>
    <| j_completed := None |>
    <| j_updated := now |>.

Definition requeue_failed (now : Z) (t : string) (wave : Z) (db : DB) : DB :=
  update_jobs (job_of t [JobFailed]) (λ _, set_requeued now wave) db.

Definition set_reopened (now wave : Z) (r : transfer) : transfer :=
  r <| t_state := TransferReady |>
    <| t_current_wave := wave |>
    <| t_failure_reason := None |>
    <| t_completed := None |>
    <| t_auto_retries := 0 |>
    <| t_updated := now |>.

(** The wave a retry reopens from. *)
Definition retry_wave (t : string) (current : Z) (db : DB) : Z :=
  match lowest_failed_wave t db with
  | Some w => if w <? current then w else current
  | None => current
  end.

Definition job_of_transfer (t : string) (_ : Z) (j : job) : bool := bool_decide (j_transfer j = t).

(** The branch of RetryTransfer for a transfer with no jobs. *)
Definition retry_promotion (now : Z) (t : string) (state : TransferState) (db : DB)
    : DB * RetryResult :=
  let '(db', reopened) := reopenPromotion now t db in
  if reopened : bool then
    (update_transfers (λ i r, bool_decide (i = t) && bool_decide (t_state r = TransferFailed))
       (λ _ r, r <| t_state := TransferPromoting |> <| t_failure_reason := None |>
                 <| t_completed := None |> <| t_updated := now |>) db',
     mkRetryResult 0 0 TransferPromoting false)
  else (db, mkRetryResult 0 0 state true).

Definition RetryTransfer (now : Z) (t : string) (db : DB) : result (DB * RetryResult) :=
  r ← of_option (ETransferNotFound t) (transfers db !! t);
  if bool_decide (t_state r ∈ [TransferSucceeded; TransferCancelled; TransferCancelling])
  then Err (ENothingToRetry t (spell (t_state r)))
  else if bool_decide (count_where (job_of_transfer t) (jobs db) = O)
  then Ok (retry_promotion now t (t_state r) db)
  else
    let '(db, reblocked) := ClearDependencyFailures now t db in
    let wave := retry_wave t (t_current_wave r) db in
    let requeued := failed_jobs t db in
    let db := requeue_failed now t wave db in
    if bool_decide (requeued = O ∧ reblocked = O)
    then Ok (db, mkRetryResult 0 0 (t_state r) false)
    else
      let db := (PromoteReadyJobs now t db).1 in
      Ok (update_transfer t (set_reopened now wave) db,
          mkRetryResult requeued reblocked TransferReady false).

Definition RetryableTransfers (db : DB) : list string :=
  merge_sort String.le
    (ids_where (λ t r, bool_decide (t_state r ∈ [TransferReady; TransferRunning; TransferFailed]) &&
                       has_jobs db t [JobFailed]) db).

(* -------------------------------------------------------------------- *)
(** ** Automatic retry *)

Definition not_worth_retrying : list string :=
  ["auth"; "unsupported"; "not_found"; "configuration"; "dependency"].

Definition worth_retrying (now cooldown maxRounds : Z) (db : DB) (t : string) (r : transfer) : bool :=
  bool_decide (t_state r ∈ [TransferReady; TransferRunning; TransferFailed]) &&
  (t_auto_retries r <? maxRounds) &&
  exists_where (λ i j, job_of t [JobFailed] i j &&
    negb (bool_decide (null_string (j_last_error_class j) ∈ not_worth_retrying))) (jobs db) &&
  negb (exists_where (λ i j, job_of t [JobPending; JobLeased] i j && negb (j_paused j)) (jobs db)) &&
  negb (exists_where (λ i j, job_of t [JobFailed] i j &&
    match j_completed j with Some c => now - cooldown <? c | None => false end) (jobs db)).

Record AutoRetried := mkAutoRetried { ar_ID : string; ar_Requeued : nat; ar_Round : Z }.

Definition auto_retry_one (now : Z) (acc : DB * list AutoRetried) (c : string * transfer)
    : DB * list AutoRetried :=
  match RetryTransfer now c.1 acc.1 with
  | Err _ => acc
  | Ok (db, res) =>
      if bool_decide (rt_Requeued res = O) then (db, acc.2)
      else
        let round := t_auto_retries c.2 + 1 in
        (update_transfer c.1 (λ r, r <| t_auto_retries := round |> <| t_updated := now |>) db,
         acc.2 ++ [mkAutoRetried c.1 (rt_Requeued res) round])
  end.

Definition AutoRetryTransfers (now cooldown maxRounds : Z) (db : DB) : DB * list AutoRetried :=
  if maxRounds <=? 0 then (db, [])
  else
    let cooldown := if cooldown <? 0 then 0 else cooldown in
    foldl (auto_retry_one now) (db, [])
      (select_where (worth_retrying now cooldown maxRounds db) (transfers db)).

(* -------------------------------------------------------------------- *)
(** ** Row-by-row passes *)

Section update_leased_fold.
Context (g : Z * job → job → job).

Definition update_each (l : list (Z * job)) (db : DB) : DB :=
  foldl (λ d r, update_leased r.1 (g r) d) db l.

Lemma lookup_update_leased id f db i :
  jobs (update_leased id f db) !! i =
  (λ j, if bool_decide (i = id) && bool_decide (j_state j = JobLeased) then f j else j)
  <$> jobs db !! i.
Proof. unfold update_leased. by rewrite lookup_update_jobs. Qed.

Lemma update_each_frame l db : update_each l db = db <| jobs := jobs (update_each l db) |>.
Proof.
  unfold update_each. revert db. induction l as [|r l IH]; intros db; [by destruct db|].
  simpl. by rewrite IH.
Qed.

Lemma update_each_other l db i :
  i ∉ l.*1 → jobs (update_each l db) !! i = jobs db !! i.
Proof.
  unfold update_each. revert db. induction l as [|r l IH]; intros db; [done|].
  rewrite fmap_cons, not_elem_of_cons. intros [Hne Hl]. simpl.
  rewrite IH, lookup_update_leased, bool_decide_eq_false_2 by done.
  by destruct (jobs db !! i).
Qed.

Lemma update_each_in l db i j :
  NoDup l.*1 → (i, j) ∈ l → jobs db !! i = Some j → j_state j = JobLeased →
  jobs (update_each l db) !! i = Some (g (i, j) j).
Proof.
  unfold update_each. revert db. induction l as [|r l IH]; intros db Hnd Hin Hj Hs.
  { by apply not_elem_of_nil in Hin. }
  rewrite fmap_cons in Hnd. apply NoDup_cons in Hnd as [Hr Hnd].
  simpl. apply elem_of_cons in Hin as [<-|Hin].
  - change (jobs (update_each l (update_leased i (g (i, j)) db)) !! i = Some (g (i, j) j)).
    rewrite update_each_other by done.
    rewrite lookup_update_leased, Hj. simpl. by rewrite !bool_decide_eq_true_2.
  - apply IH; [done|done| |done]. rewrite lookup_update_leased, Hj. simpl.
    rewrite bool_decide_eq_false_2; [done|]. intros ->.
    destruct Hr. by apply (list_elem_of_fmap_2 fst) in Hin.
Qed.
End update_leased_fold.

(** A pass that reads the rows of a clause on leased jobs and writes each of
    them once is one bulk update of those rows. *)
Lemma update_each_select g p db i :
  (∀ k j, p k j = true → j_state j = JobLeased) →
  jobs (update_each g (select_where p (jobs db)) db) !! i =
  (λ j, if p i j then g (i, j) j else j) <$> jobs db !! i.
Proof.
  intros Hp. destruct (jobs db !! i) as [j|] eqn:Hj; simpl.
  - destruct (p i j) eqn:Hpj.
    + apply update_each_in; [apply NoDup_select_where| |done|by eapply Hp].
      by apply elem_of_select_where.
    + rewrite update_each_other; [done|].
      intros ([i' j'] & -> & [Hj' Hp']%elem_of_select_where)%list_elem_of_fmap.
      simpl in *. congruence.
  - rewrite update_each_other; [done|].
    intros ([i' j'] & -> & [Hj' Hp']%elem_of_select_where)%list_elem_of_fmap.
    simpl in *. congruence.
Qed.

Lemma lease_expired_true now db i j :
  lease_expired now db i j = true ↔
  j_state j = JobLeased ∧ (∃ e, j_lease_expires j = Some e ∧ e < now) ∧
  ∃ s, transfer_state db (j_transfer j) = Some s.
Proof.
  unfold lease_expired. rewrite !andb_true_iff, !bool_decide_eq_true.
  destruct (j_lease_expires j); rewrite ?Z.ltb_lt; unfold is_Some; naive_solver.
Qed.

(** The reaper returns every expired lease, and nothing else.  A job whose
    lease ran out goes to cancelled when its transfer is being stopped, to
    failed when its attempts are spent, and otherwise back to pending within
    five minutes - in each case with no owner and no expiry; every other row
    and every other table is as it was; no expired lease is left behind. *)
Theorem ReapExpiredLeases_spec now draw db :
  let db' := (ReapExpiredLeases now draw db).1 in
  db' = db <| jobs := jobs db' |> ∧
  (∀ i j, jobs db !! i = Some j →
     (lease_expired now db i j = false → jobs db' !! i = Some j) ∧
     (lease_expired now db i j = true → ∃ j' s,
        jobs db' !! i = Some j' ∧ transfers db !! j_transfer j = Some s ∧
        j_lease_owner j' = None ∧ j_lease_expires j' = None ∧ j_attempts j' = j_attempts j ∧
        now ≤ j_next_visible j' ≤ now + DefaultCap ∧
        let stop := t_state s = TransferCancelling ∨ t_state s = TransferCancelled in
        (stop → j_state j' = JobCancelled) ∧
        (¬ stop → j_max_attempts j ≤ j_attempts j → j_state j' = JobFailed) ∧
        (¬ stop → j_attempts j < j_max_attempts j → j_state j' = JobPending))) ∧
  (∀ i j, jobs db' !! i = Some j → lease_expired now db' i j = false) ∧
  (∀ x, x ∈ (ReapExpiredLeases now draw db).2 ↔ ∃ i j,
     jobs db !! i = Some j ∧ lease_expired now db i j = true ∧
     x = mkReapedJob i (j_transfer j) (reaped_state db j)).
Proof.
  set (g := λ r : Z * job, set_reaped now (retryDelay (j_attempts r.2) (draw r.1)) (reaped_state db r.2)).
  change (ReapExpiredLeases now draw db).1
    with (update_each g (select_where (lease_expired now db) (jobs db)) db).
  intros db'. pose proof (update_each_frame g (select_where (lease_expired now db) (jobs db)) db) as Hfr.
  fold db' in Hfr.
  assert (∀ i, jobs db' !! i =
    (λ j, if lease_expired now db i j then g (i, j) j else j) <$> jobs db !! i) as Hrow.
  { intros i. apply update_each_select. intros k j. rewrite lease_expired_true. tauto. }
  split; [exact Hfr|]. split; [|split].
  - intros i j Hj. rewrite Hrow, Hj. simpl. split; [by intros ->|]. intros He. rewrite He.
    apply lease_expired_true in He as (_ & _ & s & Hs).
    unfold transfer_state in Hs. apply fmap_Some in Hs as (r & Hr & ->).
    eexists _, r. split; [done|]. split; [done|]. unfold g. simpl.
    pose proof (retryDelay_cap (j_attempts j) (draw i)).
    do 3 (split; [done|]). split; [lia|].
    unfold reaped_state, transfer_state, stopping. rewrite Hr. simpl. split_and!.
    + intros Hst. rewrite bool_decide_eq_true_2; [done|]. set_solver.
    + intros Hst Hm. rewrite bool_decide_eq_false_2 by set_solver.
      by rewrite (proj2 (Z.leb_le _ _)) by done.
    + intros Hst Hm. rewrite bool_decide_eq_false_2 by set_solver.
      by rewrite (proj2 (Z.leb_gt _ _)) by done.
  - intros i j' Hj'. rewrite Hrow in Hj'. apply fmap_Some in Hj' as (j & Hj & ->).
    apply not_true_is_false. intros (Hs & He & s & Ht)%lease_expired_true.
    destruct (lease_expired now db i j) eqn:E.
    + unfold g in He. simpl in He. by destruct He as (? & ? & _).
    + apply not_true_iff_false in E. apply E, lease_expired_true.
      split; [done|]. split; [done|]. rewrite Hfr in Ht. unfold transfer_state in *. eauto.
  - intros x. unfold ReapExpiredLeases. simpl. rewrite list_elem_of_fmap. split.
    + intros ([i j] & -> & [? ?]%elem_of_select_where). eauto.
    + intros (i & j & ? & ? & ->). exists (i, j). by rewrite elem_of_select_where.
Qed.

Lemma CompleteJob_not_held now draw c db j :
  jobs db !! c_JobID c = Some j → held_by (c_Owner c) j = false →
  CompleteJob now draw c db = Ok (db, stale_result).
Proof. intros Hj Hh. unfold CompleteJob. by rewrite Hj; simpl; rewrite Hh. Qed.

(** What a pass that takes leases away did to one row. *)
Lemma taken_lease g p db i j :
  (∀ k j, p k j = true → j_state j = JobLeased) →
  (∀ r k, j_state (g r k) ≠ JobLeased) →
  jobs db !! i = Some j → p i j = true →
  ∃ j', jobs (update_each g (select_where p (jobs db)) db) !! i = Some j' ∧ j_state j' ≠ JobLeased.
Proof.
  intros Hp Hg Hj Hpj. rewrite update_each_select by done. rewrite Hj. simpl. rewrite Hpj. eauto.
Qed.

Lemma not_leased_not_held owner j : j_state j ≠ JobLeased → held_by owner j = false.
Proof. intros Hs. apply not_true_is_false. by intros [_ ?]%held_by_true. Qed.

Lemma reaped_state_not_leased db j : reaped_state db j ≠ JobLeased.
Proof. unfold reaped_state. by repeat case_match. Qed.

Lemma recovered_state_not_leased db j : recovered_state db j ≠ JobLeased.
Proof. unfold recovered_state. by repeat case_match. Qed.

(** A report that comes after the lease was taken away changes nothing.
    Whatever a worker reports, at any later time, for a job the reaper or a
    recovery pass has collected, the completion is dropped and the database is
    the one the pass left - so a job redone by another worker is never decided
    by the first. *)
Theorem late_report_is_dropped now draw db staleAfter owner i j :
  jobs db !! i = Some j →
  (lease_expired now db i j = true → ∀ now' draw' c, c_JobID c = i →
     let db' := (ReapExpiredLeases now draw db).1 in
     CompleteJob now' draw' c db' = Ok (db', stale_result)) ∧
  (is_Some (transfers db !! j_transfer j) → j_state j = JobLeased →
   owner_silent now (if staleAfter <=? 0 then 2 * Minute else staleAfter) db i j = true →
   ∀ now' draw' c, c_JobID c = i →
     let db' := (RecoverOrphanedLeases now staleAfter db).1 in
     CompleteJob now' draw' c db' = Ok (db', stale_result)) ∧
  (is_Some (transfers db !! j_transfer j) → j_state j = JobLeased →
   owner ≠ "" → j_lease_owner j = Some owner →
   ∀ now' draw' c, c_JobID c = i →
     let db' := (RecoverWorkerLeases now owner db).1 in
     CompleteJob now' draw' c db' = Ok (db', stale_result)).
Proof.
  intros Hj.
  assert (∀ g p, (∀ k j, p k j = true → j_state j = JobLeased) →
    (∀ r k, j_state (g r k) ≠ JobLeased) → p i j = true →
    ∀ now' draw' c, c_JobID c = i →
    let db' := update_each g (select_where p (jobs db)) db in
    CompleteJob now' draw' c db' = Ok (db', stale_result)) as Htaken.
  { intros g p Hp Hg Hpj now' draw' c Hc db'.
    destruct (taken_lease g p db i j Hp Hg Hj Hpj) as (j' & Hj' & Hs).
    eapply CompleteJob_not_held; [by rewrite Hc|by apply not_leased_not_held]. }
  assert (∀ (p : Z → job → bool) k j, bool_decide (j_state j = JobLeased) &&
    bool_decide (is_Some (transfer_state db (j_transfer j))) && p k j = true → j_state j = JobLeased)
    as Hleased.
  { intros p k j0. rewrite !andb_true_iff, !bool_decide_eq_true. tauto. }
  split; [|split].
  - intros He. apply (Htaken (λ r, set_reaped now (retryDelay (j_attempts r.2) (draw r.1))
      (reaped_state db r.2)) (lease_expired now db)); [|intros r k; apply reaped_state_not_leased|done].
    intros k j0. rewrite lease_expired_true. tauto.
  - intros Ht Hs Ho. unfold RecoverOrphanedLeases, recoverLeases. cbn [fst].
    apply (Htaken (λ r, set_recovered now (recovered_state db r.2))); [by apply Hleased|
      intros r k; apply recovered_state_not_leased|].
    rewrite Ho. unfold transfer_state. rewrite !bool_decide_eq_true_2; [done| |done].
    by apply fmap_is_Some.
  - intros Ht Hs Hne Ho. unfold RecoverWorkerLeases. rewrite bool_decide_eq_false_2 by done.
    unfold recoverLeases. cbn [fst].
    apply (Htaken (λ r, set_recovered now (recovered_state db r.2))
      (λ k j0, bool_decide (j_state j0 = JobLeased) &&
         bool_decide (is_Some (transfer_state db (j_transfer j0))) &&
         bool_decide (j_lease_owner j0 = Some owner)));
      [apply (Hleased (λ _ j0, bool_decide (j_lease_owner j0 = Some owner)))|
       intros r k; apply recovered_state_not_leased|].
    unfold transfer_state. rewrite !bool_decide_eq_true_2; [done|done| |done].
    by apply fmap_is_Some.
Qed.

(** Recovery of a restarted worker's leases returns exactly that worker's
    jobs, at once, and never counts attempts.  Each job leased to [owner] goes
    to cancelled if its transfer is being stopped and otherwise straight back
    to pending, visible immediately - also when its attempts already reach its
    maximum; no other row changes. *)
Theorem RecoverWorkerLeases_spec now owner db :
  owner ≠ "" →
  let db' := (RecoverWorkerLeases now owner db).1 in
  db' = db <| jobs := jobs db' |> ∧
  ∀ i j, jobs db !! i = Some j →
    let held := j_state j = JobLeased ∧ j_lease_owner j = Some owner ∧
                is_Some (transfers db !! j_transfer j) in
    (¬ held → jobs db' !! i = Some j) ∧
    (held → ∃ j' s, jobs db' !! i = Some j' ∧ transfers db !! j_transfer j = Some s ∧
       j_lease_owner j' = None ∧ j_lease_expires j' = None ∧ j_next_visible j' = now ∧
       j_attempts j' = j_attempts j ∧
       let stop := t_state s = TransferCancelling ∨ t_state s = TransferCancelled in
       (stop → j_state j' = JobCancelled) ∧ (¬ stop → j_state j' = JobPending)).
Proof.
  intros Hne.
  set (p := λ (i : Z) (j : job), bool_decide (j_state j = JobLeased) &&
    bool_decide (is_Some (transfer_state db (j_transfer j))) &&
    bool_decide (j_lease_owner j = Some owner)).
  set (g := λ r : Z * job, set_recovered now (recovered_state db r.2)).
  assert ((RecoverWorkerLeases now owner db).1 = update_each g (select_where p (jobs db)) db) as ->.
  { unfold RecoverWorkerLeases. by rewrite bool_decide_eq_false_2. }
  split; [apply update_each_frame|]. intros i j Hj.
  assert (p i j = true ↔ j_state j = JobLeased ∧ j_lease_owner j = Some owner ∧
    is_Some (transfers db !! j_transfer j)) as Hp.
  { unfold p. rewrite !andb_true_iff, !bool_decide_eq_true. unfold transfer_state.
    rewrite fmap_is_Some. tauto. }
  rewrite update_each_select by (intros k j0; unfold p; rewrite !andb_true_iff, bool_decide_eq_true; tauto).
  rewrite Hj. simpl. cbv zeta. rewrite <-Hp. split.
  - intros Hn. by rewrite (not_true_is_false _ Hn).
  - intros Hh. rewrite Hh. apply Hp in Hh as (_ & _ & s & Hs).
    eexists _, s. split; [done|]. split; [done|]. unfold g. simpl. do 4 (split; [done|]).
    unfold recovered_state, transfer_state, stopping. rewrite Hs. simpl.
    split; intros Hst; [rewrite bool_decide_eq_true_2|rewrite bool_decide_eq_false_2]; set_solver.
Qed.

(* -------------------------------------------------------------------- *)
(** ** Stalls *)

(** A row either stays or goes from blocked to failed by its dependency. *)
Definition cascade_move (now : Z) (i : Z) (j j' : job) : Prop :=
  j' = j ∨ (j_state j = JobBlocked ∧ j' = fail_by_dependency now i j).

#[export] Instance cascade_move_preorder now i : PreOrder (cascade_move now i).
Proof.
  split; [by left|]. intros j1 j2 j3 [->|[Hs ->]]; [done|].
  intros [->|[Hs2 _]]; [by right|done].
Qed.

Lemma cascade_rows now t db :
  rows (cascade_move now) (jobs db) (jobs (FailUnreachableJobs now t db).1).
Proof.
  destruct (FailUnreachableJobs_frame now t db) as [_ Hf]. intros i. specialize (Hf i).
  destruct (jobs db !! i) as [j|] eqn:Hj,
    (jobs (FailUnreachableJobs now t db).1 !! i) as [j'|] eqn:Hj'; try done; constructor.
  destruct Hf as [->|[Hd ->]]; [by left|]. right. split; [|done].
  destruct (doomed_blocked _ _ _ Hd) as (j0 & Hj0 & _ & Hs). congruence.
Qed.

Lemma failUnreachableEverywhere_frame now db :
  rows (cascade_move now) (jobs db) (jobs (failUnreachableEverywhere now db)) ∧
  transfers (failUnreachableEverywhere now db) = transfers db.
Proof.
  unfold failUnreachableEverywhere. generalize (ids_where (λ t r, live r && has_jobs db t [JobFailed] &&
    has_jobs db t [JobBlocked]) db) as l.
  intros l. revert db. induction l as [|t l IH]; intros db; [split; [reflexivity|done]|]. simpl.
  destruct (IH (FailUnreachableJobs now t db).1) as [Hr Ht]. split.
  - etrans; [apply cascade_rows|exact Hr].
  - rewrite Ht. destruct (FailUnreachableJobs_frame now t db) as [He _]. by rewrite He.
Qed.

Lemma has_jobs_true db t sts :
  has_jobs db t sts = true ↔ ∃ i j, jobs db !! i = Some j ∧ j_transfer j = t ∧ j_state j ∈ sts.
Proof. unfold has_jobs. rewrite exists_where_true. by setoid_rewrite job_of_true. Qed.

Lemma has_jobs_ext db db' t sts : jobs db = jobs db' → has_jobs db t sts = has_jobs db' t sts.
Proof. intros E. unfold has_jobs. by rewrite E. Qed.

Lemma live_true r : live r = true ↔ t_state r = TransferReady ∨ t_state r = TransferRunning.
Proof.
  unfold live. rewrite bool_decide_eq_true, elem_of_cons, list_elem_of_singleton. done.
Qed.

Lemma elem_of_ids_where p db t :
  t ∈ ids_where p db ↔ ∃ r, transfers db !! t = Some r ∧ p t r = true.
Proof.
  unfold ids_where. rewrite list_elem_of_fmap. split.
  - intros ([t' r] & -> & [? ?]%elem_of_select_where). eauto.
  - intros (r & ? & ?). exists (t, r). by rewrite elem_of_select_where.
Qed.

Lemma NoDup_ids_where p db : NoDup (ids_where p db).
Proof. apply NoDup_select_where. Qed.

Definition summary_reason (t : string) (db : DB) : string := (failureSummary t db).2.

Lemma settle_stalled_fold now l acc :
  NoDup l →
  let acc' := foldl (settle_stalled now) acc l in
  jobs acc'.1 = jobs acc.1 ∧
  (∀ t, transfers acc'.1 !! t =
     (λ r, if bool_decide (t ∈ l) && negb (bool_decide (t_state r ∈ [TransferSucceeded; TransferCancelled]))
           then set_transfer_failed now (summary_reason t acc.1) r else r) <$> transfers acc.1 !! t) ∧
  acc'.2 = acc.2 ++ ((λ t, mkStalledTransfer t (failed_jobs t acc.1) (summary_reason t acc.1)) <$> l).
Proof.
  revert acc. induction l as [|u l IH]; intros acc Hnd.
  { simpl. split; [done|]. split; [|by rewrite app_nil_r]. intros t. by destruct (transfers acc.1 !! t). }
  apply NoDup_cons in Hnd as [Hu Hnd]. simpl.
  destruct (IH (settle_stalled now acc u) Hnd) as (Hj & Ht & Hl).
  assert (jobs (settle_stalled now acc u).1 = jobs acc.1) as Hj1 by done.
  assert (∀ t, summary_reason t (settle_stalled now acc u).1 = summary_reason t acc.1) as Hsum.
  { intros t. unfold summary_reason, failureSummary, failureReason, failed_groups, failed_jobs.
    by rewrite Hj1. }
  split; [by rewrite Hj|]. split.
  - intros t. rewrite Ht, Hsum. unfold settle_stalled, FailTransfer. simpl.
    rewrite lookup_update_where. destruct (transfers acc.1 !! t) as [r|]; [|done]. simpl. f_equal.
    destruct (decide (t = u)) as [->|Hne].
    + rewrite (bool_decide_eq_false_2 (u ∈ l)) by done. simpl.
      rewrite (bool_decide_eq_true_2 (u = u)) by done.
      by rewrite (bool_decide_eq_true_2 (u ∈ u :: l)) by left.
    + rewrite (bool_decide_eq_false_2 (t = u)) by done. simpl.
      by rewrite (bool_decide_ext (t ∈ u :: l) (t ∈ l)) by (rewrite elem_of_cons; tauto).
  - rewrite Hl. simpl. rewrite <-app_assoc. simpl. by do 2 f_equal.
Qed.

(** A transfer that has stopped says so, and only one that has.  After the
    pass no ready or running transfer has a failed job and nothing left that
    can move; a transfer it changed was ready or running, has a failed job and
    no outstanding one, and is now failed with a stated reason; the jobs it
    changed were blocked and failed by the cascade. *)
Theorem SettleStalledTransfers_spec now db :
  let db' := (SettleStalledTransfers now db).1 in
  let failed_only t := (∃ i j, jobs db' !! i = Some j ∧ j_transfer j = t ∧ j_state j = JobFailed) ∧
    (∀ i j, jobs db' !! i = Some j → j_transfer j = t → j_state j ∉ outstanding) in
  (∀ t r, transfers db' !! t = Some r →
     t_state r = TransferReady ∨ t_state r = TransferRunning → ¬ failed_only t) ∧
  (∀ t r, transfers db !! t = Some r → ∃ r', transfers db' !! t = Some r' ∧
     (r' = r ∨ ((t_state r = TransferReady ∨ t_state r = TransferRunning) ∧ failed_only t ∧
        t_state r' = TransferFailed ∧ is_Some (t_failure_reason r') ∧ t_completed r' = Some now))) ∧
  rows (cascade_move now) (jobs db) (jobs db').
Proof.
  cbv zeta. unfold SettleStalledTransfers.
  destruct (failUnreachableEverywhere_frame now db) as [Hrows Htr].
  set (db1 := failUnreachableEverywhere now db) in *.
  destruct (settle_stalled_fold now (ids_where (stalled db1) db1) (db1, []) (NoDup_ids_where _ _))
    as (Hj & Ht & _). cbn [fst] in Hj, Ht.
  set (db' := (foldl (settle_stalled now) (db1, []) (ids_where (stalled db1) db1)).1) in *.
  assert (∀ t r, transfers db1 !! t = Some r → (t ∈ ids_where (stalled db1) db1 ↔
    (t_state r = TransferReady ∨ t_state r = TransferRunning) ∧
    (∃ i j, jobs db' !! i = Some j ∧ j_transfer j = t ∧ j_state j = JobFailed) ∧
    (∀ i j, jobs db' !! i = Some j → j_transfer j = t → j_state j ∉ outstanding))) as Hst.
  { intros t r Hr. rewrite elem_of_ids_where, Hj. unfold stalled.
    setoid_rewrite andb_true_iff. setoid_rewrite andb_true_iff. setoid_rewrite live_true.
    setoid_rewrite negb_true_iff. setoid_rewrite <-not_true_iff_false.
    setoid_rewrite has_jobs_true. setoid_rewrite list_elem_of_singleton. split.
    - intros (r0 & Hr0 & [Hl Hf] & Hn). simplify_eq. naive_solver.
    - intros (Hl & Hf & Hn). exists r. split; [done|]. split; [done|]. naive_solver. }
  split; [|split; [|by rewrite Hj]].
  - intros t r' Hr' Hlive [Hf Hn]. rewrite Ht in Hr'. apply fmap_Some in Hr' as (r & Hr & ->).
    destruct (decide (t ∈ ids_where (stalled db1) db1)) as [Hin|Hin].
    + pose proof Hin as (Hl & _)%(Hst t r Hr). rewrite (bool_decide_eq_true_2 (t ∈ _)) in Hlive by done.
      rewrite bool_decide_eq_false_2 in Hlive; [by destruct Hlive|].
      rewrite elem_of_cons, list_elem_of_singleton. by destruct Hl as [-> | ->]; intros [|].
    + rewrite (bool_decide_eq_false_2 (t ∈ _)) in Hlive by done. simpl in Hlive.
      apply Hin, (Hst t r Hr). done.
  - intros t r Hr. rewrite <-Htr in Hr. rewrite Ht, Hr. eexists. split; [done|]. simpl.
    case_bool_decide as Hin; simpl; [|by left]. case_bool_decide; simpl; [by left|].
    right. apply (Hst t r Hr) in Hin as (Hl & Hf). eauto 10.
Qed.

Lemma close_cancelled_fold now l db :
  let db' := foldl (λ d t, close_cancelled now t d) db l in
  jobs db' = jobs db ∧
  ∀ t r, transfers db !! t = Some r →
    transfers db' !! t = Some (if bool_decide (t ∈ l) && bool_decide (t_state r = TransferCancelling)
      then r <| t_state := TransferCancelled |> <| t_completed := Some (default now (t_completed r)) |>
             <| t_updated := now |> else r).
Proof.
  revert db. induction l as [|u l IH]; intros db.
  { split; [done|]. intros t r Hr. simpl. by rewrite Hr. }
  simpl. destruct (IH (close_cancelled now u db)) as [Hj Ht]. split; [by rewrite Hj|].
  intros t r Hr.
  assert (transfers (close_cancelled now u db) !! t =
    Some (if bool_decide (t = u) && bool_decide (t_state r = TransferCancelling)
          then r <| t_state := TransferCancelled |> <| t_completed := Some (default now (t_completed r)) |>
                 <| t_updated := now |> else r)) as Hr1.
  { unfold close_cancelled. simpl. by rewrite lookup_update_where, Hr. }
  rewrite (Ht _ _ Hr1). f_equal.
  rewrite (bool_decide_ext (t ∈ u :: l) (t = u ∨ t ∈ l)) by apply elem_of_cons.
  destruct (decide (t = u)) as [->|Hne].
  - rewrite !(bool_decide_eq_true_2 (u = u)), (bool_decide_eq_true_2 (u = u ∨ u ∈ l)) by auto. simpl.
    destruct (decide (t_state r = TransferCancelling)) as [Hs|Hs].
    + rewrite !(bool_decide_eq_true_2 (t_state r = _)) by done. simpl. by rewrite andb_false_r.
    + rewrite !(bool_decide_eq_false_2 (t_state r = _)) by done. by rewrite andb_false_r.
  - rewrite !(bool_decide_eq_false_2 (t = u)) by done. simpl.
    by rewrite (bool_decide_ext (t = u ∨ t ∈ l) (t ∈ l)) by tauto.
Qed.

(** A stop always closes.  After the pass every transfer still cancelling
    has a leased job; the transfers it changed were cancelling with none, and
    are cancelled; no job changes. *)
Theorem CloseStalledCancellations_spec now db :
  let db' := (CloseStalledCancellations now db).1 in
  jobs db' = jobs db ∧
  (∀ t r, transfers db' !! t = Some r → t_state r = TransferCancelling →
     ∃ i j, jobs db' !! i = Some j ∧ j_transfer j = t ∧ j_state j = JobLeased) ∧
  (∀ t r, transfers db !! t = Some r → ∃ r', transfers db' !! t = Some r' ∧
     (r' = r ∨ (t_state r = TransferCancelling ∧ t_state r' = TransferCancelled ∧
        is_Some (t_completed r') ∧
        ∀ i j, jobs db' !! i = Some j → j_transfer j = t → j_state j ≠ JobLeased))).
Proof.
  unfold CloseStalledCancellations. cbv zeta. cbn [fst].
  destruct (close_cancelled_fold now (ids_where (cancellation_stalled db) db) db) as [Hj Ht].
  set (db' := foldl _ _ _) in *. rewrite Hj.
  assert (∀ t r, transfers db !! t = Some r → t_state r = TransferCancelling →
    (t ∈ ids_where (cancellation_stalled db) db ↔
     ¬ ∃ i j, jobs db !! i = Some j ∧ j_transfer j = t ∧ j_state j = JobLeased)) as Hst.
  { intros t r Hr Hs. rewrite elem_of_ids_where. unfold cancellation_stalled.
    setoid_rewrite andb_true_iff. setoid_rewrite bool_decide_eq_true.
    setoid_rewrite negb_true_iff. setoid_rewrite <-not_true_iff_false.
    setoid_rewrite has_jobs_true. setoid_rewrite list_elem_of_singleton. naive_solver. }
  split; [done|]. split.
  - intros t r' Hr' Hs'.
    destruct (transfers db !! t) as [r|] eqn:Hr.
    2: { exfalso. assert (transfers db' !! t = None) as E; [|congruence].
         apply not_elem_of_dom. unfold db'. clear -Hr. apply not_elem_of_dom in Hr. revert Hr.
         generalize (ids_where (cancellation_stalled db) db) as l. intros l. revert db.
         induction l as [|u l IH]; intros db Hr; [done|]. simpl. apply IH.
         unfold close_cancelled. simpl. by rewrite dom_update_where. }
    rewrite (Ht _ _ Hr) in Hr'. injection Hr' as <-.
    destruct (decide (t_state r = TransferCancelling)) as [Hs|Hs].
    + rewrite (bool_decide_eq_true_2 (t_state r = _)), andb_true_r in Hs' by done.
      case_bool_decide as Hin; [done|]. rewrite (Hst _ _ Hr Hs) in Hin.
      destruct (decide (has_jobs db t [JobLeased] = true)) as [Hh|Hh].
      * apply has_jobs_true in Hh. by setoid_rewrite list_elem_of_singleton in Hh.
      * destruct Hin. intros Hex. apply Hh, has_jobs_true. by setoid_rewrite list_elem_of_singleton.
    + by rewrite (bool_decide_eq_false_2 (t_state r = _)), andb_false_r in Hs' by done.
  - intros t r Hr. rewrite (Ht _ _ Hr). eexists. split; [done|].
    case_bool_decide as Hin; simpl; [|by left]. case_bool_decide as Hs; [|by left]. right.
    split; [done|]. split; [done|]. split; [by eexists|].
    apply (Hst _ _ Hr Hs) in Hin. naive_solver.
Qed.

(* -------------------------------------------------------------------- *)
(** ** Stuck transfers *)

Lemma opened_and_ready_true db t i j :
  opened_and_ready db t i j = true ↔
  j_transfer j = t ∧ j_state j = JobBlocked ∧ all_satisfied db i ∧
  ∃ r, transfers db !! t = Some r ∧ j_wave j ≤ t_current_wave r.
Proof.
  unfold opened_and_ready.
  rewrite !andb_true_iff, job_of_true, list_elem_of_singleton, dependencies_satisfied_true.
  destruct (transfers db !! t); rewrite ?Z.leb_le; naive_solver.
Qed.

(** Promotion of a ready row, whoever finds it. *)
Definition ready_move (db0 : DB) (now : Z) (i : Z) (j j' : job) : Prop :=
  j' = j ∨ (j_state j = JobBlocked ∧ all_satisfied db0 i ∧ j' = set_pending now i j).

Definition ready_frame (now : Z) (db db' : DB) : Prop :=
  rows (ready_move db now) (jobs db) (jobs db') ∧ db' = db <| jobs := jobs db' |> ∧
  ∀ i, all_satisfied db' i ↔ all_satisfied db i.

#[export] Instance ready_frame_preorder now : PreOrder (ready_frame now).
Proof.
  split.
  - intros db. split; [|split; [by destruct db|done]]. intros i. destruct (jobs db !! i); constructor.
    by left.
  - intros d1 d2 d3 (Hr1 & He1 & Hs1) (Hr2 & He2 & Hs2). split; [|split].
    + intros i. specialize (Hr1 i). specialize (Hr2 i).
      destruct (jobs d1 !! i), (jobs d2 !! i), (jobs d3 !! i); inv Hr1; inv Hr2; constructor.
      destruct H1 as [->|(Hb & Ha & ->)], H2 as [->|(Hb2 & Ha2 & ->)]; try done.
      * by left.
      * right. by rewrite <-Hs1.
      * right. done.
    + by rewrite He2, He1.
    + intros i. by rewrite Hs2, Hs1.
Qed.

Lemma unstick_frame now t db : ready_frame now db (unstick now t db).1.
Proof.
  unfold unstick. cbn [fst]. split; [|split; [done|]].
  - intros i. rewrite lookup_update_jobs. destruct (jobs db !! i) as [j|]; constructor.
    destruct (opened_and_ready db t i j) eqn:E; [|by left].
    apply opened_and_ready_true in E. right. tauto.
  - intros i. apply promote_keeps_satisfied. intros k j _ (_ & ? & _)%opened_and_ready_true. done.
Qed.

Lemma unstick_fold_frame now l acc : ready_frame now acc.1 (foldl (unstick_one now) acc l).1.
Proof.
  revert acc. induction l as [|t l IH]; intros acc; [reflexivity|].
  simpl. etrans; [apply (unstick_frame now t)|]. exact (IH (unstick_one now acc t)).
Qed.

Lemma UnstickTransfers_frame now db : ready_frame now db (UnstickTransfers now db).1.
Proof. apply (unstick_fold_frame now _ (db, [])). Qed.

Lemma ready_frame_content_first now db db' :
  ready_frame now db db' → content_first db → content_first db'.
Proof.
  intros (Hr & _ & Hs) Hcf i j' Hj' Hst. apply Hs.
  destruct (rows_lookup_new _ _ _ _ _ Hr Hj') as (j & Hj & [->|(_ & Ha & _)]); [|done].
  by eapply Hcf.
Qed.

(** Unsticking promotes only what is provably ready.  The pass changes only
    blocked jobs with every recorded dependency succeeded or skipped, making
    them pending, so it keeps the invariant that nothing runs before its
    content; and of the transfers it looked at - live, with blocked work and
    nothing pending or leased - none is left with a blocked job whose wave has
    opened and whose dependencies are all in place. *)
Theorem UnstickTransfers_spec now db :
  let db' := (UnstickTransfers now db).1 in
  (∀ i j, jobs db !! i = Some j → ∃ j', jobs db' !! i = Some j' ∧
     (j' = j ∨ (j_state j = JobBlocked ∧ all_satisfied db i ∧
                j' = j <| j_state := JobPending |> <| j_updated := now |>))) ∧
  (content_first db → content_first db') ∧
  (∀ t r i j, transfers db !! t = Some r → stuck db t r = true →
     jobs db' !! i = Some j → j_transfer j = t → j_state j = JobBlocked →
     j_wave j ≤ t_current_wave r → ¬ all_satisfied db' i).
Proof.
  cbv zeta. pose proof (UnstickTransfers_frame now db) as Hfr.
  split; [|split; [by eapply ready_frame_content_first|]].
  - intros i j Hj. destruct Hfr as (Hr & _ & _).
    destruct (rows_lookup _ _ _ _ _ Hr Hj) as (j' & Hj' & Hm). eauto.
  - intros t r i j Hr Hst Hj Ht Hs Hw Hall.
    assert (t ∈ ids_where (stuck db) db) as Hin by (apply elem_of_ids_where; eauto).
    revert Hin Hj Hall. unfold UnstickTransfers.
    generalize (ids_where (stuck db) db), (@nil (string * nat)). clear Hst Hfr.
    intros l out. revert db Hr out. induction l as [|u l IH]; intros db Hr out Hin Hj Hall;
      [by apply not_elem_of_nil in Hin|].
    simpl in Hj, Hall. destruct (unstick_frame now u db) as (_ & He & Hsat).
    destruct (decide (t = u)) as [->|Hne].
    + destruct (unstick_fold_frame now l (unstick_one now (db, out) u)) as (Hrest & _ & Hsat').
      destruct (rows_lookup_new _ _ _ _ _ Hrest Hj) as (j1 & Hj1 & [->|(_ & _ & ->)]); [|done].
      change (jobs (update_jobs (opened_and_ready db u) (set_pending now) db) !! i = Some j1) in Hj1.
      rewrite lookup_update_jobs in Hj1.
      destruct (jobs db !! i) as [j0|] eqn:Hj0; [|done]. injection Hj1 as Hj1.
      destruct (opened_and_ready db u i j0) eqn:E; [by rewrite <-Hj1 in Hs|]. subst j0.
      apply not_true_iff_false in E. apply E, opened_and_ready_true.
      rewrite Hsat', Hsat in Hall. eauto 10.
    + apply (IH (unstick now u db).1) with (out := (unstick_one now (db, out) u).2); try done.
      apply elem_of_cons in Hin as [|]; done.
Qed.

(* -------------------------------------------------------------------- *)
(** ** Retry *)

(** The jobs table of a retry after its three statements. *)
Definition retry_jobs (now : Z) (t : string) (wave : Z) (db : DB) : DB :=
  requeue_failed now t wave (ClearDependencyFailures now t db).1.

Inductive retries (now : Z) (t : string) (db : DB) (r : transfer) (db' : DB) (res : RetryResult) : Prop :=
  | retries_nothing :
      (∀ i j, jobs db !! i = Some j → j_transfer j = t → j_state j ≠ JobFailed) →
      db' = db → res = mkRetryResult 0 0 (t_state r) false → retries now t db r db' res
  | retries_work wave :
      wave ≤ t_current_wave r →
      (∀ i j, jobs (ClearDependencyFailures now t db).1 !! i = Some j → j_transfer j = t →
         j_state j = JobFailed → wave ≤ j_wave j ∨ wave = t_current_wave r) →
      (0 < rt_Requeued res + rt_Reblocked res)%nat →
      rt_State res = TransferReady → rt_NoJobs res = false →
      rt_Requeued res = failed_jobs t (ClearDependencyFailures now t db).1 →
      rt_Reblocked res = count_where (failed_by_dependency t) (jobs db) →
      db' = update_transfer t (set_reopened now wave)
              (PromoteReadyJobs now t (retry_jobs now t wave db)).1 →
      retries now t db r db' res.

Lemma lowest_failed_wave_spec t db :
  match lowest_failed_wave t db with
  | None => ∀ i j, jobs db !! i = Some j → j_transfer j = t → j_state j ≠ JobFailed
  | Some w => ∀ i j, jobs db !! i = Some j → j_transfer j = t → j_state j = JobFailed → w ≤ j_wave j
  end.
Proof.
  assert (∀ i j, j_transfer j = t → j_state j = JobFailed → job_of t [JobFailed] i j = true) as Hp.
  { intros i j Ht Hs. rewrite job_of_true, list_elem_of_singleton. done. }
  unfold lowest_failed_wave. pose proof (min_wave_spec (job_of t [JobFailed]) db) as Hm.
  destruct (min_wave _ db) as [w|].
  - intros i j Hj Ht Hs. apply (proj2 Hm i j Hj). by apply Hp.
  - intros i j Hj Ht Hs. specialize (Hm i j Hj). by rewrite Hp in Hm.
Qed.

Lemma RetryTransfer_retries now t db db' res r :
  transfers db !! t = Some r → (∃ i j, jobs db !! i = Some j ∧ j_transfer j = t) →
  RetryTransfer now t db = Ok (db', res) →
  t_state r ∉ [TransferSucceeded; TransferCancelled; TransferCancelling] ∧ retries now t db r db' res.
Proof.
  intros Hr Hjobs. unfold RetryTransfer. rewrite Hr. simpl.
  case_bool_decide as Hs; [done|]. rewrite bool_decide_eq_false_2.
  2: { intros Hz. rewrite count_where_zero in Hz. destruct Hjobs as (i & j & Hj & Ht).
       specialize (Hz _ _ Hj). by apply bool_decide_eq_false in Hz. }
  set (db1 := update_jobs (failed_by_dependency t) (clear_failure now) db).
  case_bool_decide as Hz.
  - intros [= <- <-]. split; [done|]. destruct Hz as [Hz1 Hz2].
    assert (db1 = db) as E. { unfold db1. apply update_jobs_none. by apply count_where_zero. }
    rewrite E in *.
    assert (∀ i j, jobs db !! i = Some j → j_transfer j = t → j_state j ≠ JobFailed) as Hnf.
    { intros i j Hj Ht Hf. apply (proj2 (failed_jobs_pos t db)); [eauto|done]. }
    constructor; [done| |done]. unfold requeue_failed. apply update_jobs_none.
    intros i j Hj. apply job_of_false. intros Ht. rewrite list_elem_of_singleton. by eapply Hnf.
  - intros [= <- <-]. split; [done|].
    apply retries_work with (wave := retry_wave t (t_current_wave r) db1); simpl; try done; [|..|lia].
    + unfold retry_wave. destruct (lowest_failed_wave t db1) as [w|]; [|lia].
      destruct (Z.ltb_spec w (t_current_wave r)); lia.
    + intros i j Hj Ht Hf. pose proof (lowest_failed_wave_spec t db1) as Hlow.
      unfold retry_wave. destruct (lowest_failed_wave t db1) as [w|]; [|by right].
      specialize (Hlow _ _ Hj Ht Hf). destruct (w <? t_current_wave r); [by left|by right].
Qed.

Lemma lookup_retry_jobs now t wave db i :
  jobs (retry_jobs now t wave db) !! i =
  (λ j, if failed_by_dependency t i j then clear_failure now i j
        else if job_of t [JobFailed] i j then set_requeued now wave j else j) <$> jobs db !! i.
Proof.
  unfold retry_jobs, requeue_failed, ClearDependencyFailures. cbn [fst].
  rewrite !lookup_update_jobs. destruct (jobs db !! i) as [j|]; [|done]. simpl. f_equal.
  destruct (failed_by_dependency t i j) eqn:Hd; [|done].
  rewrite (proj2 (job_of_false _ _ _ _)); [done|]. intros _. simpl. set_solver.
Qed.

Lemma retry_failed_none now t wave db i j :
  jobs (PromoteReadyJobs now t (retry_jobs now t wave db)).1 !! i = Some j →
  j_transfer j = t → j_state j ≠ JobFailed.
Proof.
  change (PromoteReadyJobs now t (retry_jobs now t wave db)).1 with
    (update_jobs (ready_with_edges (retry_jobs now t wave db) t) (set_pending now) (retry_jobs now t wave db)).
  rewrite lookup_update_jobs_Some. intros (j1 & Hj1 & ->).
  destruct (ready_with_edges _ _ _ _); [done|].
  rewrite lookup_retry_jobs in Hj1. apply fmap_Some in Hj1 as (j0 & Hj0 & ->).
  destruct (failed_by_dependency t i j0) eqn:Hd; [done|].
  destruct (job_of t [JobFailed] i j0) eqn:Hf; simpl.
  - by destruct (_ <=? _).
  - rewrite job_of_false in Hf. set_solver.
Qed.

(** One job's row across a retry that has work to do. *)
Lemma retry_row now t wave db i j :
  jobs db !! i = Some j →
  let db' := (PromoteReadyJobs now t (retry_jobs now t wave db)).1 in
  ∃ j', jobs db' !! i = Some j' ∧
    (j_transfer j ≠ t ∨ j_state j ∉ [JobFailed; JobBlocked] → j' = j) ∧
    (j_transfer j = t → j_state j = JobFailed →
       j_attempts j' = 0 ∧ j_completed j' = None ∧
       (j_state j' = JobBlocked ∨ j_state j' = JobPending) ∧
       (j_last_error_class j = Some ClassDependency → j_state j' = JobPending → all_satisfied db' i)) ∧
    j_transfer j' = j_transfer j.
Proof.
  intros Hj. cbv zeta. set (db2 := retry_jobs now t wave db).
  change (PromoteReadyJobs now t db2).1 with
    (update_jobs (ready_with_edges db2 t) (set_pending now) db2).
  set (j2 := if failed_by_dependency t i j then clear_failure now i j
             else if job_of t [JobFailed] i j then set_requeued now wave j else j).
  assert (jobs db2 !! i = Some j2) as Hj2 by (unfold db2; by rewrite lookup_retry_jobs, Hj).
  rewrite lookup_update_jobs, Hj2. eexists. split; [done|]. split; [|split].
  - intros Hkeep. assert (j2 = j) as ->.
    { unfold j2. rewrite (not_true_is_false (failed_by_dependency t i j)),
        (not_true_is_false (job_of t [JobFailed] i j)); [done|..].
      - rewrite job_of_true, list_elem_of_singleton. set_solver.
      - rewrite failed_by_dependency_true. set_solver. }
    rewrite (not_true_is_false (ready_with_edges db2 t i j)); [done|].
    rewrite ready_with_edges_true. set_solver.
  - intros Ht Hf.
    assert (j_attempts j2 = 0 ∧ j_completed j2 = None ∧
      (j_state j2 = JobBlocked ∨ j_state j2 = JobPending) ∧
      (j_last_error_class j = Some ClassDependency → j_state j2 = JobBlocked)) as (Ha & Hc & Hs & Hd).
    { unfold j2. destruct (failed_by_dependency t i j) eqn:Hd; [by auto|].
      rewrite (proj2 (job_of_true t [JobFailed] i j)) by (split; [done|rewrite Hf; left]).
      simpl. split; [done|]. split; [done|]. split; [destruct (_ <=? _); auto|].
      intros Hcl. apply not_true_iff_false in Hd. by destruct Hd; apply failed_by_dependency_true. }
    destruct (ready_with_edges db2 t i j2) eqn:Hrd; simpl.
    + do 2 (split; [done|]). split; [by right|]. intros _ _. apply promote_keeps_satisfied.
      { by intros k k' _ (_ & ? & _)%ready_with_edges_true. }
      apply ready_with_edges_true in Hrd. tauto.
    + do 3 (split; [done|]). intros Hcl Hp. rewrite (Hd Hcl) in Hp. done.
  - destruct (ready_with_edges _ _ _ _); simpl; unfold j2;
      destruct (failed_by_dependency t i j), (job_of t [JobFailed] i j); done.
Qed.

(** A retry of a transfer with jobs and no failure is a no-op. *)
Lemma retry_nothing_again now t db r :
  transfers db !! t = Some r → (∃ i j, jobs db !! i = Some j ∧ j_transfer j = t) →
  t_state r ∉ [TransferSucceeded; TransferCancelled; TransferCancelling] →
  (∀ i j, jobs db !! i = Some j → j_transfer j = t → j_state j ≠ JobFailed) →
  RetryTransfer now t db = Ok (db, mkRetryResult 0 0 (t_state r) false).
Proof.
  intros Hr (i & j & Hj & Ht) Hst Hnf. unfold RetryTransfer. rewrite Hr. simpl.
  rewrite bool_decide_eq_false_2 by done. rewrite bool_decide_eq_false_2.
  2: { intros Hz. rewrite count_where_zero in Hz. specialize (Hz _ _ Hj).
       by apply bool_decide_eq_false in Hz. }
  assert (update_jobs (failed_by_dependency t) (clear_failure now) db = db) as ->.
  { apply update_jobs_none. intros k j' Hk. apply not_true_is_false.
    intros (Ht' & Hf & _)%failed_by_dependency_true. by eapply Hnf. }
  assert (count_where (failed_by_dependency t) (jobs db) = O) as ->.
  { apply count_where_zero. intros k j' Hk. apply not_true_is_false.
    intros (Ht' & Hf & _)%failed_by_dependency_true. by eapply Hnf. }
  assert (failed_jobs t db = O) as ->.
  { destruct (decide (failed_jobs t db = O)) as [|Hz]; [done|].
    apply failed_jobs_pos in Hz as (k & j' & Hk & Ht' & Hf). by destruct (Hnf k j'). }
  rewrite bool_decide_eq_true_2 by done. do 2 f_equal.
  apply update_jobs_none. intros k j' Hk. apply job_of_false. intros Ht'.
  rewrite list_elem_of_singleton. by eapply Hnf.
Qed.

(** A retry requeues every failure of its transfer and disturbs nothing
    else.  When the transfer has jobs and the retry is accepted, no failed job
    is left in it; each job that was failed has a fresh attempt budget, no
    lease and no completion time, and one that failed only by dependency runs
    again only if its dependencies are in place; no succeeded, skipped, leased
    or cancelled job and no job of another transfer changes; the transfer is
    ready, at a wave no higher than before, with its reason and completion
    cleared; and a second retry finds nothing to do. *)
Theorem RetryTransfer_spec now t db db' res r :
  transfers db !! t = Some r → (∃ i j, jobs db !! i = Some j ∧ j_transfer j = t) →
  RetryTransfer now t db = Ok (db', res) →
  (∀ i j, jobs db' !! i = Some j → j_transfer j = t → j_state j ≠ JobFailed) ∧
  (∀ i j, jobs db !! i = Some j → ∃ j', jobs db' !! i = Some j' ∧
     (j_transfer j ≠ t ∨ j_state j ∉ [JobFailed; JobBlocked] → j' = j) ∧
     (j_transfer j = t → j_state j = JobFailed →
        j_attempts j' = 0 ∧ j_completed j' = None ∧
        (j_state j' = JobBlocked ∨ j_state j' = JobPending) ∧
        (j_last_error_class j = Some ClassDependency → j_state j' = JobPending →
         all_satisfied db' i))) ∧
  (∃ r', transfers db' !! t = Some r' ∧ t_current_wave r' ≤ t_current_wave r ∧
     ((rt_Requeued res + rt_Reblocked res = 0)%nat → db' = db) ∧
     ((0 < rt_Requeued res + rt_Reblocked res)%nat → t_state r' = TransferReady ∧
        t_failure_reason r' = None ∧ t_completed r' = None ∧ t_auto_retries r' = 0)) ∧
  (∀ i, i ≠ t → transfers db' !! i = transfers db !! i) ∧
  (∀ now', ∃ s, RetryTransfer now' t db' = Ok (db', mkRetryResult 0 0 s false)).
Proof.
  intros Hr Hjobs Hretry.
  pose proof (RetryTransfer_retries _ _ _ _ _ _ Hr Hjobs Hretry) as [Hst Hres].
  destruct Hres as [Hnf -> ->|wave Hw Hlow Hpos _ _ _ _ ->].
  - split; [done|]. split.
    { intros i j Hj. exists j. split; [done|]. split; [done|]. intros Ht Hf. by destruct (Hnf i j). }
    split; [exists r; simpl; split; [done|]; split; [lia|]; split; [done|lia]|]. split; [done|].
    intros now'. exists (t_state r). by apply (retry_nothing_again now' t db r).
  - set (db2 := retry_jobs now t wave db).
    change (jobs (update_transfer t (set_reopened now wave) (PromoteReadyJobs now t db2).1))
      with (jobs (PromoteReadyJobs now t db2).1).
    assert (∀ i j, jobs (PromoteReadyJobs now t db2).1 !! i = Some j → j_transfer j = t →
      j_state j ≠ JobFailed) as Hnf by apply retry_failed_none.
    assert (transfers (update_transfer t (set_reopened now wave) (PromoteReadyJobs now t db2).1) !! t =
      Some (set_reopened now wave r)) as Hr' by by apply (lookup_update_transfer_eq _ _ _ r).
    split; [done|]. split; [|split; [|split]].
    + intros i j Hj. destruct (retry_row now t wave db i j Hj) as (j' & Hj' & Hk & Hf & _).
      exists j'. split; [exact Hj'|]. split; [exact Hk|exact Hf].
    + eexists. split; [exact Hr'|]. split; [done|]. split; [lia|done].
    + intros i Hi. by rewrite lookup_update_transfer_ne.
    + intros now'. exists TransferReady.
      apply (retry_nothing_again now' t _ (set_reopened now wave r)); [exact Hr'| |simpl; set_solver|exact Hnf].
      destruct Hjobs as (i & j & Hj & Ht). destruct (retry_row now t wave db i j Hj) as (j' & Hj' & _ & _ & Htr).
      exists i, j'. by rewrite Htr.
Qed.

(* -------------------------------------------------------------------- *)
(** ** Automatic retry *)

(** What one transfer can see: its own row and its own jobs. *)
Definition same_slice (t : string) (db db' : DB) : Prop :=
  transfers db' !! t = transfers db !! t ∧
  ∀ i j, j_transfer j = t → (jobs db' !! i = Some j ↔ jobs db !! i = Some j).

#[export] Instance same_slice_preorder t : PreOrder (same_slice t).
Proof.
  split; [by split|]. intros d1 d2 d3 [Ht1 Hj1] [Ht2 Hj2].
  split; [by rewrite Ht2|]. intros i j E. by rewrite (Hj2 i j E), (Hj1 i j E).
Qed.

Lemma slice_update_jobs t p f db :
  (∀ i j, p i j = true → j_transfer j ≠ t ∧ j_transfer (f i j) ≠ t) →
  same_slice t db (update_jobs p f db).
Proof.
  intros Hp. split; [done|]. intros i j Ht. rewrite lookup_update_jobs_Some. split.
  - intros (j0 & Hj0 & ->). destruct (p i j0) eqn:E; [|done]. by destruct (Hp _ _ E).
  - intros Hj. exists j. split; [done|]. destruct (p i j) eqn:E; [|done]. by destruct (Hp _ _ E).
Qed.

Lemma slice_update_transfers t p f db :
  (∀ r, p t r = false) → same_slice t db (update_transfers p f db).
Proof.
  intros Hp. split; [|done]. simpl. rewrite lookup_update_where.
  destruct (transfers db !! t); simpl; [by rewrite Hp|done].
Qed.

Lemma slice_update_transfer t u f db : u ≠ t → same_slice t db (update_transfer u f db).
Proof. intros Hne. apply slice_update_transfers. intros _. by apply bool_decide_eq_false_2. Qed.

Lemma RetryTransfer_slice now u t db db' res :
  u ≠ t → RetryTransfer now u db = Ok (db', res) → same_slice t db db'.
Proof.
  intros Hne. unfold RetryTransfer. intros (r & _ & Hrest)%result_bind_Ok. revert Hrest.
  case_bool_decide; [done|]. case_bool_decide.
  { unfold retry_promotion, reopenPromotion. case_bool_decide; intros [= <- <-]; [|done].
    etrans; [|apply slice_update_transfers; intros; by rewrite bool_decide_eq_false_2].
    by split. }
  assert (∀ d, same_slice t d (ClearDependencyFailures now u d).1) as Hclear.
  { intros d. apply slice_update_jobs. intros i j (Ht & _)%failed_by_dependency_true.
    simpl. by rewrite Ht. }
  assert (∀ w d, same_slice t d (requeue_failed now u w d)) as Hreq.
  { intros w d. apply slice_update_jobs. intros i j [Ht _]%job_of_true. simpl. by rewrite Ht. }
  assert (∀ d, same_slice t d (PromoteReadyJobs now u d).1) as Hprom.
  { intros d. apply slice_update_jobs. intros i j (Ht & _)%ready_with_edges_true.
    simpl. by rewrite Ht. }
  specialize (Hclear db). destruct (ClearDependencyFailures now u db) as [d1 n].
  case_bool_decide; intros [= <- <-].
  - etrans; [exact Hclear|apply Hreq].
  - etrans; [exact Hclear|]. etrans; [apply (Hreq (retry_wave u (t_current_wave r) d1))|].
    etrans; [apply Hprom|]. by apply slice_update_transfer.
Qed.

Lemma auto_retry_one_slice now acc u r t :
  u ≠ t → same_slice t acc.1 (auto_retry_one now acc (u, r)).1.
Proof.
  intros Hne. unfold auto_retry_one. cbn [fst snd].
  destruct (RetryTransfer now u acc.1) as [[d res]|e] eqn:E; [|done].
  apply (RetryTransfer_slice _ _ t) in E; [|done].
  case_bool_decide; [done|]. etrans; [exact E|]. by apply slice_update_transfer.
Qed.

(** A job that failed on its own account, not by cascade. *)
Definition genuine_failure (t : string) (db : DB) : Prop :=
  ∃ i j, jobs db !! i = Some j ∧ j_transfer j = t ∧ j_state j = JobFailed ∧
    null_string (j_last_error_class j) ∉ not_worth_retrying.

Lemma auto_retry_one_counts now acc t r0 r :
  transfers acc.1 !! t = Some r → genuine_failure t acc.1 →
  t_state r ∈ [TransferReady; TransferRunning; TransferFailed] →
  ∃ r', transfers (auto_retry_one now acc (t, r0)).1 !! t = Some r' ∧
    t_auto_retries r' = t_auto_retries r0 + 1 ∧ t_state r' = TransferReady.
Proof.
  intros Hr (i & j & Hj & Ht & Hf & Hcl) Hs. unfold auto_retry_one. cbn [fst snd].
  assert (j_last_error_class j ≠ Some ClassDependency) as Hnd.
  { intros E. rewrite E in Hcl. apply Hcl. apply (bool_decide_eq_true_1 _). reflexivity. }
  destruct (RetryTransfer now t acc.1) as [[d res]|e] eqn:E.
  - destruct (RetryTransfer_retries _ _ _ _ _ _ Hr ltac:(by exists i, j) E) as [_ Hres].
    destruct Hres as [Hnf _ _|wave _ _ _ _ _ Hreq _ ->]; [by destruct (Hnf i j)|].
    rewrite bool_decide_eq_false_2.
    + assert (transfers (update_transfer t (set_reopened now wave)
        (PromoteReadyJobs now t (retry_jobs now t wave acc.1)).1) !! t = Some (set_reopened now wave r))
        as Hr1 by by apply (lookup_update_transfer_eq _ _ _ r).
      cbn [fst]. rewrite (lookup_update_transfer_eq _ _ _ _ Hr1). eauto.
    + rewrite Hreq. apply failed_jobs_pos. exists i, j. unfold ClearDependencyFailures. cbn [fst].
      rewrite lookup_update_jobs, Hj. simpl.
      rewrite (not_true_is_false (failed_by_dependency t i j)); [done|].
      rewrite failed_by_dependency_true. tauto.
  - exfalso. unfold RetryTransfer in E. rewrite Hr in E. simpl in E.
    rewrite bool_decide_eq_false_2 in E.
    2: { rewrite !elem_of_cons in Hs |- *. rewrite !elem_of_nil in Hs |- *. naive_solver congruence. }
    case_bool_decide; [done|]. by case_bool_decide.
Qed.

Lemma auto_retry_fold_slice now t l acc :
  t ∉ l.*1 → same_slice t acc.1 (foldl (auto_retry_one now) acc l).1.
Proof.
  revert acc. induction l as [|[u r] l IH]; intros acc; [done|].
  rewrite fmap_cons, not_elem_of_cons. intros [Hne Hl]. simpl in *.
  etrans; [by apply (auto_retry_one_slice now acc u r t)|by apply IH].
Qed.

Lemma worth_retrying_true now cooldown rounds db t r :
  worth_retrying now cooldown rounds db t r = true →
  t_state r ∈ [TransferReady; TransferRunning; TransferFailed] ∧ t_auto_retries r < rounds ∧
  genuine_failure t db.
Proof.
  unfold worth_retrying. rewrite !andb_true_iff, bool_decide_eq_true, Z.ltb_lt, exists_where_true.
  intros ((((Hs & Hn) & (i & j & Hj & Hp)) & _) & _).
  rewrite andb_true_iff, job_of_true, list_elem_of_singleton, negb_true_iff, bool_decide_eq_false in Hp.
  split; [done|]. split; [done|]. exists i, j. tauto.
Qed.

Lemma slice_genuine t db db' :
  same_slice t db db' → genuine_failure t db → genuine_failure t db'.
Proof.
  intros [_ Hj] (i & j & Hij & Ht & ?). exists i, j. by rewrite (Hj i j Ht).
Qed.

(** Automatic retries are bounded.  One pass changes a transfer's row or
    jobs only if it is worth retrying - live or failed, below the round limit,
    with a failure of its own that a retry can help, nothing runnable, and
    every failure past the cooldown; each such transfer is retried exactly
    once, is ready, and its round count goes up by one, never past the limit. *)
Theorem AutoRetryTransfers_bounded now cooldown maxRounds db t r :
  transfers db !! t = Some r → 0 < maxRounds →
  let db' := (AutoRetryTransfers now cooldown maxRounds db).1 in
  (worth_retrying now (Z.max 0 cooldown) maxRounds db t r = false → same_slice t db db') ∧
  (worth_retrying now (Z.max 0 cooldown) maxRounds db t r = true →
   ∃ r', transfers db' !! t = Some r' ∧ t_state r' = TransferReady ∧
     t_auto_retries r' = t_auto_retries r + 1 ∧ t_auto_retries r' ≤ maxRounds).
Proof.
  intros Hr Hmax. unfold AutoRetryTransfers.
  destruct (Z.leb_spec maxRounds 0); [lia|].
  assert ((if cooldown <? 0 then 0 else cooldown) = Z.max 0 cooldown) as ->
    by (destruct (Z.ltb_spec cooldown 0); lia).
  set (p := worth_retrying now (Z.max 0 cooldown) maxRounds db).
  assert (t ∈ (select_where p (transfers db)).*1 ↔ p t r = true) as Hin.
  { rewrite list_elem_of_fmap. split.
    - intros ([t' r'] & -> & [Hr' Hp]%elem_of_select_where). simpl in *. congruence.
    - intros Hp. exists (t, r). by rewrite elem_of_select_where. }
  cbv zeta. split.
  - intros Hp. apply (auto_retry_fold_slice now t _ (db, [])). rewrite Hin. congruence.
  - intros Hp. pose proof (worth_retrying_true _ _ _ _ _ _ Hp) as (Hs & Hn & Hg).
    assert ((t, r) ∈ select_where p (transfers db)) as Htr by by apply elem_of_select_where.
    pose proof (NoDup_select_where p (transfers db)) as Hnd. clear Hin Hp.
    apply list_elem_of_split in Htr as (l1 & l2 & E). rewrite E in *.
    rewrite fmap_app, fmap_cons in Hnd. apply NoDup_app in Hnd as (_ & Hd1 & Hd2).
    apply NoDup_cons in Hd2 as [Hl2 _].
    assert (t ∉ l1.*1) as Hl1 by (intros Ht; by apply (Hd1 t Ht); left).
    rewrite foldl_app. simpl.
    pose proof (auto_retry_fold_slice now t l1 (db, []) Hl1) as Hsl.
    set (acc := foldl (auto_retry_one now) (db, []) l1) in *.
    assert (transfers acc.1 !! t = Some r) as Hr1 by by rewrite (proj1 Hsl).
    destruct (auto_retry_one_counts now acc t r r Hr1 (slice_genuine _ _ _ Hsl Hg) Hs)
      as (r' & Hr' & Hc & Hrd).
    exists r'. rewrite (proj1 (auto_retry_fold_slice now t l2 _ Hl2)).
    split; [done|]. split; [done|]. split; [done|lia].
Qed.

(* -------------------------------------------------------------------- *)
(** ** Instances *)

(** A job on its last attempt in the hands of "w". *)
Definition held_db (attempts : Z) : DB :=
  example_db
    [(1, (example_job "t" KBlob "b1" JobLeased 0) <| j_lease_owner := Some "w" |>
           <| j_lease_expires := Some 50 |> <| j_attempts := attempts |>)]
    [("t", example_transfer TransferRunning 0)].

(** The attempt budget does not bound restarts.  A job whose attempts are
    spent and whose worker restarts is returned to pending by that worker's
    recovery - where the reaper would have failed it - and the next lease hands
    it out again with more attempts than its maximum, so a job that kills its
    worker can run for ever. *)
Theorem recovered_job_exceeds_budget :
  ∃ db j, jobs db !! 1 = Some j ∧ j_max_attempts j ≤ j_attempts j ∧
    (∃ r, jobs (ReapExpiredLeases 100 (λ _, 0) db).1 !! 1 = Some r ∧ j_state r = JobFailed) ∧
    ∃ db' leased x,
      LeaseJobs DriverPostgres 100 ∅ (mkLeaseRequest "w" 1 0) (RecoverWorkerLeases 100 "w" db).1
        = Ok (db', leased) ∧
      x ∈ leased ∧ ID x = 1 ∧ j_max_attempts j < Attempt x.
Proof.
  exists (held_db 8). eexists. split; [reflexivity|]. split; [by vm_compute|].
  split; [eexists; split; vm_compute; reflexivity|].
  set (db1 := (RecoverWorkerLeases 100 "w" (held_db 8)).1).
  set (r := leasePostgres 100 ∅ (mkLeaseRequest "w" 1 (2 * Minute)) db1).
  exists (startTransfers 100 r.2 r.1), r.2.
  assert (∃ j1, jobs db1 !! 1 = Some j1 ∧ j_attempts j1 = 8) as (j1 & Hj1 & Ha).
  { eexists. split; vm_compute; reflexivity. }
  exists (scanLeasedJob (1, set_leased 100 "w" (2 * Minute) j1)).
  split; [by apply LeaseJobs_as_Postgres|]. split; [|split; [done|]].
  - apply elem_of_lease. exists 1, j1. split; [|done].
    apply (bool_decide_eq_true_1 _). vm_compute. reflexivity.
  - simpl. lia.
Qed.

Lemma late_report_is_dropped_witness :
  let db' := (ReapExpiredLeases 100 (λ _, 0) (held_db 1)).1 in
  CompleteJob 200 0 (report 1 Succeeded "" 0) db' = Ok (db', stale_result).
Proof.
  refine (proj1 (late_report_is_dropped 100 (λ _, 0) (held_db 1) 0 "w" 1 _ _) _ 200 0
    (report 1 Succeeded "" 0) _); [reflexivity|vm_compute; reflexivity|reflexivity].
Defined.

Lemma RecoverWorkerLeases_spec_witness :
  ∃ j', jobs (RecoverWorkerLeases 100 "w" (held_db 8)).1 !! 1 = Some j' ∧ j_state j' = JobPending.
Proof.
  destruct (RecoverWorkerLeases_spec 100 "w" (held_db 8)) as [_ Hrow]; [discriminate|].
  destruct (proj2 (Hrow 1 _ eq_refl)) as (j' & s & Hj' & Hs & _ & _ & _ & _ & _ & Hp).
  { split; [reflexivity|]. split; [reflexivity|]. eexists. reflexivity. }
  exists j'. split; [exact Hj'|]. apply Hp. vm_compute in Hs. injection Hs as <-.
  intros [E|E]; discriminate E.
Defined.

(** The cascade of [cascade_db] run, on a failed transfer. *)
Definition retry_db : DB :=
  (FailUnreachableJobs 9 "t" cascade_db).1
    <| transfers := {[ "t" := (example_transfer TransferFailed 2) <| t_auto_retries := 1 |> ]} |>.

Lemma RetryTransfer_spec_witness :
  ∃ db' res, RetryTransfer 100 "t" retry_db = Ok (db', res) ∧
    ∀ i j, jobs db' !! i = Some j → j_transfer j = "t" → j_state j ≠ JobFailed.
Proof.
  destruct (is_ok_true (RetryTransfer 100 "t" retry_db)) as [[db' res] Hr]; [vm_compute; reflexivity|].
  exists db', res. split; [exact Hr|].
  assert (∃ i j, jobs retry_db !! i = Some j ∧ j_transfer j = "t") as Hj.
  { exists 2. eexists. split; vm_compute; reflexivity. }
  refine (proj1 (RetryTransfer_spec 100 "t" retry_db db' res
    ((example_transfer TransferFailed 2) <| t_auto_retries := 1 |>) _ Hj Hr)). reflexivity.
Defined.

Definition auto_db : DB :=
  example_db [(1, (example_job "t" KBlob "b1" JobFailed 0) <| j_completed := Some 50 |>
                    <| j_last_error_class := Some "network" |>)]
    [("t", (example_transfer TransferFailed 0) <| t_auto_retries := 1 |>)].

Lemma AutoRetryTransfers_bounded_witness :
  ∃ r', transfers (AutoRetryTransfers 100 10 3 auto_db).1 !! "t" = Some r' ∧ t_auto_retries r' = 2.
Proof.
  destruct (AutoRetryTransfers_bounded 100 10 3 auto_db "t"
    ((example_transfer TransferFailed 0) <| t_auto_retries := 1 |>)) as [_ Hw];
    [reflexivity|lia|].
  destruct Hw as (r' & Hr' & _ & Hc & _); [vm_compute; reflexivity|].
  exists r'. split; [exact Hr'|exact Hc].
Defined.
