(* ===== verification/Control.v ===== *)
(** * Operator control

    internal/store/control.go: pause, resume, stop, set-priority and delete.
    Each reads the transfer's state, refuses the verb if the state does not
    admit it, and otherwise changes the jobs and the transfer in one
    transaction. *)

From S2P Require Import Prelude StateMachine Backoff Schema Dependencies Leasing Completion Promotions Recovery.
Open Scope Z_scope.

(* -------------------------------------------------------------------- *)
(** ** Operations *)

Record ControlResult := mkControlResult {
  cr_State : TransferState;
  cr_Jobs : nat;
  cr_InFlight : nat }.

(** One verb: the states that admit it, the state it leads to, its UPDATE of
    the jobs (clause and assignment), and whether a transfer with nothing in
    flight finishes at once. *)
Record controlSpec := mkControlSpec {
  cs_from : list TransferState;
  cs_to : TransferState;
  cs_verb : string;
  cs_where : string → Z → job → bool;
  cs_set : job → job;
  cs_settle : bool }.

Definition in_flight (t : string) (db : DB) : nat := count_where (job_of t [JobLeased]) (jobs db).

Definition control (now : Z) (t : string) (spec : controlSpec) (db : DB) : result (DB * ControlResult) :=
  r ← of_option (ETransferNotFound t) (transfers db !! t);
  if negb (bool_decide (t_state r ∈ cs_from spec))
  then Err (EIllegalTransition (cs_verb spec) t (spell (t_state r)))
  else
    let affected := count_where (cs_where spec t) (jobs db) in
    let db := update_jobs (cs_where spec t) (λ _, cs_set spec) db in
    let inFlight := in_flight t db in
    let over := cs_settle spec && bool_decide (inFlight = O) in
    let newState := if over then TransferCancelled else cs_to spec in
    Ok (update_transfer t (λ r, (if over then r <| t_completed := Some now |> else r)
                                  <| t_state := newState |> <| t_updated := now |>) db,
        mkControlResult newState affected inFlight).

(** state IN ('pending','blocked') *)
Definition not_started (t : string) : Z → job → bool := job_of t [JobPending; JobBlocked].

Definition pause_spec (now : Z) : controlSpec :=
  {| cs_from := [TransferReady; TransferRunning]; cs_to := TransferPaused; cs_verb := "pause";
     cs_where := not_started; cs_set := λ j, j <| j_paused := true |> <| j_updated := now |>;
     cs_settle := false |}.

Definition PauseTransfer (now : Z) (t : string) (db : DB) : result (DB * ControlResult) :=
  control now t (pause_spec now) db.

Definition resume_spec (now : Z) : controlSpec :=
  {| cs_from := [TransferPaused]; cs_to := TransferReady; cs_verb := "resume";
     cs_where := λ t _ j, bool_decide (j_transfer j = t) && j_paused j;
     cs_set := λ j, j <| j_paused := false |> <| j_updated := now |>;
     cs_settle := false |}.

Definition ResumeTransfer (now : Z) (t : string) (db : DB) : result (DB * ControlResult) :=
  control now t (resume_spec now) db.

Definition stop_spec (now : Z) : controlSpec :=
  {| cs_from := [TransferPending; TransferPlanning; TransferReady; TransferRunning; TransferPaused];
     cs_to := TransferCancelling; cs_verb := "stop"; cs_where := not_started;
     cs_set := λ j, j <| j_state := JobCancelled |> <| j_paused := true |>
                      <| j_completed := Some now |> <| j_updated := now |>;
     cs_settle := true |}.

Definition StopTransfer (now : Z) (t : string) (db : DB) : result (DB * ControlResult) :=
  control now t (stop_spec now) db.

Definition MinPriority : Z := 0.
Definition MaxPriority : Z := 1000.

Definition settled_states : list TransferState :=
  [TransferSucceeded; TransferFailed; TransferCancelled].

Definition SetTransferPriority (now : Z) (t : string) (priority : Z) (db : DB)
    : result (DB * ControlResult) :=
  if bool_decide (priority < MinPriority ∨ MaxPriority < priority) then Err (EInvalidPriority priority)
  else
    r ← of_option (ETransferNotFound t) (transfers db !! t);
    if bool_decide (t_state r ∈ settled_states)
    then Err (EIllegalTransition "setPriority" t (spell (t_state r)))
    else
      let affected := count_where (not_started t) (jobs db) in
      let db := update_jobs (not_started t)
        (λ _ j, j <| j_priority := priority |> <| j_updated := now |>) db in
      let inFlight := in_flight t db in
      let db := update_transfer t (λ r, r <| t_priority := priority |> <| t_updated := now |>) db in
      Ok (db <| requests ::= update_where (λ i _, bool_decide (i = t_request r))
                (λ _ q, q <| r_priority := priority |> <| r_updated := now |>) |>,
          mkControlResult (t_state r) affected inFlight).

(** An edge one of whose ends is a job of the transfer. *)
Definition edge_of (db : DB) (t : string) (e : Z * Z) : bool :=
  match jobs db !! e.1 with Some j => bool_decide (j_transfer j = t) | None => false end ||
  match jobs db !! e.2 with Some j => bool_decide (j_transfer j = t) | None => false end.

(** [DELETE FROM transfers WHERE id = t], with what the schema's foreign keys do:
    the promotion of the transfer and its names go with it, and a step that
    depended on it depends on nothing. *)
Definition delete_transfer_row (t : string) (db : DB) : DB :=
  let gone (id : Z) := match promotions db !! id with
                       | Some pm => bool_decide (pm_transfer pm = t) | None => false end in
  db <| transfers := update_where (λ _ r, bool_decide (t_depends_on r = Some t))
          (λ _ r, r <| t_depends_on := None |>)
          (delete_where (λ i _, bool_decide (i = t)) (transfers db)) |>
     <| promotions ::= delete_where (λ id _, gone id) |>
     <| promotion_names ::= delete_where (λ k _, gone k.1) |>.

Definition DeleteTransfer (now : Z) (t : string) (db : DB) : result (DB * ControlResult) :=
  r ← of_option (ETransferNotFound t) (transfers db !! t);
  if negb (bool_decide (t_state r ∈ settled_states))
  then Err (EIllegalTransition "delete" t (spell (t_state r)))
  else
    let n := count_where (job_of_transfer t) (jobs db) in
    Ok (delete_transfer_row t
          (db <| dependencies := filter (λ e, edge_of db t e = false) (dependencies db) |>
              <| jobs ::= delete_where (job_of_transfer t) |>),
        mkControlResult (t_state r) n 0).

(* -------------------------------------------------------------------- *)
(** ** One verb *)

Lemma control_Ok now t spec db db' res :
  control now t spec db = Ok (db', res) →
  ∃ r, transfers db !! t = Some r ∧ t_state r ∈ cs_from spec ∧
    jobs db' = update_where (cs_where spec t) (λ _, cs_set spec) (jobs db) ∧
    (∀ i, i ≠ t → transfers db' !! i = transfers db !! i) ∧
    db' = db <| jobs := jobs db' |> <| transfers := transfers db' |> ∧
    let over := cs_settle spec && bool_decide (cr_InFlight res = O) in
    cr_State res = (if over then TransferCancelled else cs_to spec) ∧
    cr_InFlight res = in_flight t db' ∧
    cr_Jobs res = count_where (cs_where spec t) (jobs db) ∧
    transfers db' !! t = Some ((if over then r <| t_completed := Some now |> else r)
                                  <| t_state := cr_State res |> <| t_updated := now |>).
Proof.
  unfold control. intros (r & Hr%of_option_Ok & Hrest)%result_bind_Ok. exists r.
  split; [done|]. case_bool_decide as Hs; simpl in Hrest; [|done]. split; [done|].
  injection Hrest as <- <-. split; [done|].
  split; [intros i Hi; by rewrite lookup_update_transfer_ne|]. split; [done|].
  cbv zeta. simpl. split; [done|]. split; [done|]. split; [done|].
  by rewrite lookup_update_where, Hr; simpl; rewrite bool_decide_eq_true_2.
Qed.

Lemma in_flight_pos t db :
  in_flight t db ≠ O ↔ ∃ i j, jobs db !! i = Some j ∧ j_transfer j = t ∧ j_state j = JobLeased.
Proof.
  unfold in_flight. rewrite Nat.neq_0_lt_0, count_where_pos.
  setoid_rewrite job_of_true. by setoid_rewrite list_elem_of_singleton.
Qed.

Lemma not_started_true t i j :
  not_started t i j = true ↔ j_transfer j = t ∧ (j_state j = JobPending ∨ j_state j = JobBlocked).
Proof.
  unfold not_started. by rewrite job_of_true, elem_of_cons, list_elem_of_singleton.
Qed.

(** A verb is admitted exactly from its states.  Pause is accepted from
    ready and running, resume from paused, stop from the five states before a
    verdict, delete from the three settled ones, and a priority in 0..1000 from
    any state but those; every other call is refused with an error and changes
    nothing. *)
Theorem control_admission now t priority db r :
  transfers db !! t = Some r →
  (is_ok (PauseTransfer now t db) = true ↔ t_state r ∈ [TransferReady; TransferRunning]) ∧
  (is_ok (ResumeTransfer now t db) = true ↔ t_state r = TransferPaused) ∧
  (is_ok (StopTransfer now t db) = true ↔
     t_state r ∈ [TransferPending; TransferPlanning; TransferReady; TransferRunning; TransferPaused]) ∧
  (is_ok (DeleteTransfer now t db) = true ↔
     t_state r ∈ [TransferSucceeded; TransferFailed; TransferCancelled]) ∧
  (is_ok (SetTransferPriority now t priority db) = true ↔ 0 ≤ priority ≤ 1000 ∧
     t_state r ∉ [TransferSucceeded; TransferFailed; TransferCancelled]).
Proof.
  intros Hr.
  assert (∀ spec, is_ok (control now t spec db) = true ↔ t_state r ∈ cs_from spec) as Hctl.
  { intros spec. unfold control. rewrite Hr. simpl. by case_bool_decide. }
  unfold PauseTransfer, ResumeTransfer, StopTransfer. rewrite !Hctl. simpl.
  rewrite list_elem_of_singleton. do 3 (split; [done|]). split.
  - unfold DeleteTransfer. rewrite Hr. simpl. fold settled_states. by case_bool_decide.
  - unfold SetTransferPriority, MinPriority, MaxPriority. fold settled_states.
    case_bool_decide; [split; [done|lia]|]. rewrite Hr. simpl.
    case_bool_decide; simpl; split; naive_solver lia.
Qed.

(* -------------------------------------------------------------------- *)
(** ** Pause and resume *)

(** Pausing stops new work and nothing else, and resuming undoes it.  After
    a pause no job of the transfer is a lease candidate at any later time,
    leased and finished jobs and other transfers are as they were, and a
    resume straight after returns every job that was not paused before to
    exactly its row (its update time apart) under a ready transfer. *)
Theorem pause_then_resume now now' t db db1 res1 :
  PauseTransfer now t db = Ok (db1, res1) →
  (∃ r1, transfers db1 !! t = Some r1 ∧ t_state r1 = TransferPaused) ∧
  (∀ i j later, jobs db1 !! i = Some j → j_transfer j = t →
     leaseCandidatePredicate later db1 i j = false) ∧
  (∀ i j, jobs db !! i = Some j →
     j_transfer j ≠ t ∨ j_state j ∉ [JobPending; JobBlocked] → jobs db1 !! i = Some j) ∧
  (∀ i, i ≠ t → transfers db1 !! i = transfers db !! i) ∧
  ∃ db2 res2, ResumeTransfer now' t db1 = Ok (db2, res2) ∧
    (∃ r2, transfers db2 !! t = Some r2 ∧ t_state r2 = TransferReady) ∧
    ∀ i j, jobs db !! i = Some j → j_paused j = false →
      ∃ u, jobs db2 !! i = Some (j <| j_updated := u |>).
Proof.
  intros (r & Hr & _ & Hj & Ht & _ & Hst & _ & _ & Hrow)%control_Ok. simpl in *.
  assert (∀ i j, jobs db !! i = Some j → jobs db1 !! i =
    Some (if not_started t i j then j <| j_paused := true |> <| j_updated := now |> else j)) as Hrow1.
  { intros i j Hij. by rewrite Hj, lookup_update_where, Hij. }
  split; [eexists; split; [exact Hrow|done]|]. split; [|split; [|split; [done|]]].
  - intros i j later Hij Hjt. apply not_true_is_false.
    intros (Hs & Hp & _)%leaseCandidatePredicate_true.
    rewrite Hj in Hij. apply lookup_update_where_Some in Hij as (j0 & Hj0 & ->).
    destruct (not_started t i j0) eqn:E; [done|].
    apply not_true_iff_false in E. apply E, not_started_true. auto.
  - intros i j Hij Hout. rewrite (Hrow1 _ _ Hij).
    rewrite (not_true_is_false (not_started t i j)); [done|].
    rewrite not_started_true. rewrite elem_of_cons, list_elem_of_singleton in Hout. tauto.
  - unfold ResumeTransfer, control. rewrite Hrow. simpl. rewrite Hst, bool_decide_eq_true_2 by left.
    simpl. eexists _, _. split; [done|]. split.
    + cbn [transfers]. simpl. rewrite lookup_update_where, Hrow. simpl.
      rewrite bool_decide_eq_true_2 by done. eauto.
    + intros i j Hij Hp.
      rewrite jobs_update_transfer, lookup_update_jobs, (Hrow1 _ _ Hij). simpl.
      destruct (not_started t i j) eqn:E; simpl.
      * apply not_started_true in E as [-> _]. rewrite bool_decide_eq_true_2 by done. simpl.
        exists now'. f_equal. destruct j. by simplify_eq/=.
      * exists (j_updated j). f_equal. destruct j. simplify_eq/=. by rewrite andb_false_r.
Qed.

(* -------------------------------------------------------------------- *)
(** ** Stop *)

(** A stop leaves nothing to start.  An accepted stop cancels every pending
    and blocked job of its transfer, leaves leased and finished jobs and every
    other transfer alone, and leaves the transfer cancelled if nothing is
    leased and cancelling otherwise; the counts it reports are the jobs it
    cancelled and the leases outstanding. *)
Theorem StopTransfer_spec now t db db' res :
  StopTransfer now t db = Ok (db', res) →
  (∀ i j, jobs db !! i = Some j → j_transfer j = t →
     j_state j = JobPending ∨ j_state j = JobBlocked →
     ∃ j', jobs db' !! i = Some j' ∧ j_state j' = JobCancelled ∧ j_completed j' = Some now) ∧
  (∀ i j, jobs db !! i = Some j → j_transfer j ≠ t ∨ j_state j ∉ [JobPending; JobBlocked] →
     jobs db' !! i = Some j) ∧
  (∀ i j, jobs db' !! i = Some j → j_transfer j = t → j_state j ≠ JobPending ∧ j_state j ≠ JobBlocked) ∧
  (∀ i, i ≠ t → transfers db' !! i = transfers db !! i) ∧
  cr_Jobs res = count_where (not_started t) (jobs db) ∧
  ∃ r', transfers db' !! t = Some r' ∧ t_state r' = cr_State res ∧
    ((cr_InFlight res = O ∧ cr_State res = TransferCancelled ∧ t_completed r' = Some now ∧
      ¬ ∃ i j, jobs db' !! i = Some j ∧ j_transfer j = t ∧ j_state j = JobLeased) ∨
     (cr_InFlight res ≠ O ∧ cr_State res = TransferCancelling ∧
      ∃ i j, jobs db' !! i = Some j ∧ j_transfer j = t ∧ j_state j = JobLeased)).
Proof.
  intros (r & Hr & _ & Hj & Ht & _ & Hst & Hfl & Hn & Hrow)%control_Ok. simpl in Hj, Hst, Hn, Hrow.
  set (f := λ j : job, _) in Hj.
  assert (∀ i j, jobs db !! i = Some j → jobs db' !! i =
    Some (if not_started t i j then f j else j)) as Hrow1.
  { intros i j Hij. by rewrite Hj, lookup_update_where, Hij. }
  split_and!; [| | |done|done|].
  - intros i j Hij Hjt Hs. rewrite (Hrow1 _ _ Hij).
    rewrite (proj2 (not_started_true t i j)) by done. eauto.
  - intros i j Hij Hout. rewrite (Hrow1 _ _ Hij).
    rewrite (not_true_is_false (not_started t i j)); [done|].
    rewrite not_started_true. rewrite elem_of_cons, list_elem_of_singleton in Hout. tauto.
  - intros i j' Hij. rewrite Hj in Hij. apply lookup_update_where_Some in Hij as (j & Hij & ->).
    destruct (not_started t i j) eqn:E; [done|]. intros Hjt.
    apply not_true_iff_false in E. rewrite not_started_true in E. tauto.
  - eexists. split; [exact Hrow|]. split; [done|].
    destruct (decide (cr_InFlight res = O)) as [Hz|Hz].
    + left. rewrite Hz in Hst. split; [done|]. split; [done|].
      rewrite (bool_decide_eq_true_2 _ Hz). split; [done|].
      rewrite <-in_flight_pos. congruence.
    + right. rewrite (bool_decide_eq_false_2 _ Hz) in Hst. split; [done|]. split; [done|].
      apply in_flight_pos. congruence.
Qed.

(* -------------------------------------------------------------------- *)
(** ** Delete *)

Lemma lookup_delete_transfer_ne {V} (m : gmap string V) t i :
  i ≠ t → delete_where (λ i _, bool_decide (i = t)) m !! i = m !! i.
Proof.
  intros Hi. unfold delete_where. destruct (m !! i) as [v|] eqn:E.
  - apply map_lookup_filter_Some. split; [done|]. by apply bool_decide_eq_false.
  - apply map_lookup_filter_None. by left.
Qed.

(** A delete removes the record of a settled transfer and nothing else: its
    row, its promotion, exactly its jobs and exactly the edges that touch them
    are gone, so no edge is left pointing at a deleted job that pointed at one of
    them; a step that waited for it waits for nothing, and every other job, edge,
    transfer, promotion, placement and table is unchanged. *)
Theorem DeleteTransfer_spec now t db db' res :
  DeleteTransfer now t db = Ok (db', res) →
  (∃ r, transfers db !! t = Some r ∧
     t_state r ∈ [TransferSucceeded; TransferFailed; TransferCancelled]) ∧
  transfers db' !! t = None ∧
  (∀ i, i ≠ t → transfers db' !! i =
     (λ r, if bool_decide (t_depends_on r = Some t) then r <| t_depends_on := None |> else r)
       <$> transfers db !! i) ∧
  (∀ i j, jobs db' !! i = Some j ↔ jobs db !! i = Some j ∧ j_transfer j ≠ t) ∧
  (∀ i d, (i, d) ∈ dependencies db' ↔ (i, d) ∈ dependencies db ∧
     (∀ j, jobs db !! i = Some j → j_transfer j ≠ t) ∧
     (∀ j, jobs db !! d = Some j → j_transfer j ≠ t)) ∧
  (∀ i pm, promotions db' !! i = Some pm ↔ promotions db !! i = Some pm ∧ pm_transfer pm ≠ t) ∧
  cr_Jobs res = count_where (job_of_transfer t) (jobs db) ∧
  db' = db <| jobs := jobs db' |> <| dependencies := dependencies db' |>
           <| transfers := transfers db' |> <| promotions := promotions db' |>
           <| promotion_names := promotion_names db' |>.
Proof.
  unfold DeleteTransfer. intros (r & Hr%of_option_Ok & Hrest)%result_bind_Ok.
  case_bool_decide as Hs; simpl in Hrest; [|done]. injection Hrest as <- <-. simpl.
  split_and!; [by exists r| | | | | |done|done].
  - rewrite lookup_update_where, fmap_None, lookup_delete_where_None.
    intros v _. by apply bool_decide_eq_true.
  - intros i Hi. rewrite lookup_update_where. f_equal. by apply lookup_delete_transfer_ne.
  - intros i j. rewrite lookup_delete_where_Some. unfold job_of_transfer.
    by rewrite bool_decide_eq_false.
  - intros i d. rewrite elem_of_filter. unfold edge_of. simpl.
    rewrite orb_false_iff.
    assert (∀ k, (match jobs db !! k with Some j => bool_decide (j_transfer j = t) | None => false end)
      = false ↔ ∀ j, jobs db !! k = Some j → j_transfer j ≠ t) as Hk.
    { intros k. destruct (jobs db !! k) as [j|]; [|naive_solver].
      rewrite bool_decide_eq_false. naive_solver. }
    rewrite !Hk. tauto.
  - intros i pm. rewrite lookup_delete_where_Some. split; intros [Hpm Hg];
      rewrite ?Hpm, ?bool_decide_eq_false in *; done.
Qed.

(* -------------------------------------------------------------------- *)
(** ** What a verb does not reach: work in flight *)

(** A stop can end in success.  Stop a transfer whose one job is leased: the
    transfer is cancelling.  The worker abandons the job and reports it failed
    with class "cancelled", which is not terminal: the job is pending again
    while the transfer, with nothing leased, becomes cancelled.  The next lease
    hands the job out, and its success makes the cancelled transfer
    succeeded. *)
Theorem cancelled_transfer_succeeds :
  ∃ db stop abandon lease finish,
    StopTransfer 100 "t" db = Ok stop ∧ cr_State stop.2 = TransferCancelling ∧
    CompleteJob 110 0 (report 1 Failed "cancelled" (MaxAttemptsFor "cancelled")) stop.1 = Ok abandon ∧
    RTransferState abandon.2 = Some TransferCancelled ∧
    LeaseJobs DriverPostgres 1000000000000 ∅ (mkLeaseRequest "w" 1 0) abandon.1 = Ok lease ∧
    ID <$> lease.2 = [1] ∧ t_state <$> transfers lease.1 !! "t" = Some TransferCancelled ∧
    CompleteJob 1000000000010 0 (report 1 Succeeded "" 0) lease.1 = Ok finish ∧
    RTransferState finish.2 = Some TransferSucceeded.
Proof.
  exists (held_db 1).
  exists (ok_or (empty_db, mkControlResult TransferStateZero 0 0) (StopTransfer 100 "t" (held_db 1))).
  set (stop := ok_or _ _).
  exists (ok_or (empty_db, stale_result) (CompleteJob 110 0
    (report 1 Failed "cancelled" (MaxAttemptsFor "cancelled")) stop.1)).
  set (abandon := ok_or _ (CompleteJob _ _ _ _)).
  exists (ok_or (empty_db, []) (LeaseJobs DriverPostgres 1000000000000 ∅ (mkLeaseRequest "w" 1 0) abandon.1)).
  set (lease := ok_or _ (LeaseJobs _ _ _ _ _)).
  exists (ok_or (empty_db, stale_result) (CompleteJob 1000000000010 0 (report 1 Succeeded "" 0) lease.1)).
  split_and!; first [apply ok_or_eq|idtac]; vm_compute; reflexivity.
Qed.

(** A paused transfer can go on running.  The pause flags only the jobs not
    yet started; one in flight that fails retryably returns to pending without
    the flag, and the next lease hands it out while the transfer is paused. *)
Theorem paused_transfer_leases_again :
  ∃ db pause fail lease,
    PauseTransfer 100 "t" db = Ok pause ∧
    CompleteJob 110 0 (report 1 Failed "network" 8) pause.1 = Ok fail ∧
    LeaseJobs DriverPostgres 1000000000000 ∅ (mkLeaseRequest "w" 1 0) fail.1 = Ok lease ∧
    ID <$> lease.2 = [1] ∧ t_state <$> transfers lease.1 !! "t" = Some TransferPaused.
Proof.
  exists (held_db 1).
  exists (ok_or (empty_db, mkControlResult TransferStateZero 0 0) (PauseTransfer 100 "t" (held_db 1))).
  set (pause := ok_or _ _).
  exists (ok_or (empty_db, stale_result) (CompleteJob 110 0 (report 1 Failed "network" 8) pause.1)).
  set (fail := ok_or _ (CompleteJob _ _ _ _)).
  exists (ok_or (empty_db, []) (LeaseJobs DriverPostgres 1000000000000 ∅ (mkLeaseRequest "w" 1 0) fail.1)).
  split_and!; first [apply ok_or_eq|idtac]; vm_compute; reflexivity.
Qed.

(** A failed blob, and a blob not started. *)
Definition part_failed_db : DB :=
  example_db [(1, example_job "t" KBlob "b1" JobFailed 0); (2, example_job "t" KBlob "b2" JobPending 0)]
    [("t", example_transfer TransferRunning 0)].

(** A retry can strand a paused transfer.  Retrying is accepted while
    paused and makes the transfer ready, but the jobs the pause flagged stay
    flagged; resume, the only verb that clears the flag, now refuses. *)
Theorem retry_strands_paused_transfer :
  ∃ db pause retry,
    PauseTransfer 100 "t" db = Ok pause ∧ RetryTransfer 110 "t" pause.1 = Ok retry ∧
    t_state <$> transfers retry.1 !! "t" = Some TransferReady ∧
    j_paused <$> jobs retry.1 !! 2 = Some true ∧ j_state <$> jobs retry.1 !! 2 = Some JobPending ∧
    ResumeTransfer 120 "t" retry.1 = Err (EIllegalTransition "resume" "t" "ready").
Proof.
  exists part_failed_db.
  exists (ok_or (empty_db, mkControlResult TransferStateZero 0 0) (PauseTransfer 100 "t" part_failed_db)).
  set (pause := ok_or _ _).
  exists (ok_or (empty_db, mkRetryResult 0 0 TransferStateZero false) (RetryTransfer 110 "t" pause.1)).
  split_and!; first [apply ok_or_eq|idtac]; vm_compute; reflexivity.
Qed.

(* -------------------------------------------------------------------- *)
(** ** Instances *)

Lemma control_admission_witness :
  is_ok (StopTransfer 100 "t" (held_db 1)) = true ∧ is_ok (ResumeTransfer 100 "t" (held_db 1)) = false.
Proof.
  destruct (control_admission 100 "t" 5 (held_db 1) (example_transfer TransferRunning 0) eq_refl)
    as (_ & Hres & Hstop & _).
  split; [apply Hstop; right; right; right; left|].
  apply not_true_is_false. intros E%Hres. discriminate E.
Defined.

Lemma pause_then_resume_witness :
  ∃ p, PauseTransfer 100 "t" part_failed_db = Ok p ∧ is_ok (ResumeTransfer 110 "t" p.1) = true ∧
    ∀ i j later, jobs p.1 !! i = Some j → j_transfer j = "t" →
      leaseCandidatePredicate later p.1 i j = false.
Proof.
  destruct (is_ok_true (PauseTransfer 100 "t" part_failed_db)) as [[db1 r1] H]; [reflexivity|].
  exists (db1, r1). split; [exact H|].
  destruct (pause_then_resume 100 110 "t" part_failed_db db1 r1 H) as (_ & Hno & _ & _ & db2 & r2 & Hok & _).
  cbn [fst]. rewrite Hok. split; [reflexivity|exact Hno].
Defined.

Lemma StopTransfer_spec_witness :
  ∃ p, StopTransfer 100 "t" part_failed_db = Ok p ∧ cr_Jobs p.2 = 1%nat ∧
    ∃ j, jobs p.1 !! 2 = Some j ∧ j_state j = JobCancelled.
Proof.
  destruct (is_ok_true (StopTransfer 100 "t" part_failed_db)) as [[db1 r1] H]; [reflexivity|].
  exists (db1, r1). split; [exact H|].
  destruct (StopTransfer_spec 100 "t" part_failed_db db1 r1 H) as (Hc & _ & _ & _ & Hn & _).
  split; [cbn [snd]; rewrite Hn; vm_compute; reflexivity|].
  destruct (Hc 2 (example_job "t" KBlob "b2" JobPending 0)) as (j & Hj & Hs & _);
    [reflexivity|reflexivity|left; reflexivity|]. exists j. split; [exact Hj|exact Hs].
Defined.

Lemma DeleteTransfer_spec_witness :
  ∃ p, DeleteTransfer 100 "t" retry_db = Ok p ∧ transfers p.1 !! "t" = None.
Proof.
  destruct (is_ok_true (DeleteTransfer 100 "t" retry_db)) as [[db1 r1] H]; [vm_compute; reflexivity|].
  exists (db1, r1). split; [exact H|].
  exact (proj1 (proj2 (DeleteTransfer_spec 100 "t" retry_db db1 r1 H))).
Defined.
