(* ===== verification/Layout.v ===== *)
(** * Where a bundle's artifacts land

    internal/transfer/layout.go: ResolveLayout gives every artifact of a walked
    package its sites in the destination registry, from the names the artifacts
    carry and the repository the bundle was found in.  The tree is the walker's
    result (store.ExpandedTree), an argument here. *)

From S2P Require Import Prelude GoStrings.
Open Scope Z_scope.

(* -------------------------------------------------------------------- *)
(** ** The tree *)

Record BlobRef := mkBlobRef { b_Digest : string; b_MediaType : string; b_SizeBytes : Z }.

(** An artifact of the tree: its row, its parent's position (-1 for the root)
    and its blobs. *)
Record ExpandedArtifact := mkArtifact {
  a_ID : Z;
  a_Digest : string;
  a_MediaType : string;
  a_SizeBytes : Z;
  a_Depth : Z;
  a_Annotations : gmap string string;
  a_Parent : Z;
  a_Blobs : list BlobRef }.

Definition ExpandedTree : Type := list ExpandedArtifact.

(* -------------------------------------------------------------------- *)
(** ** Reference names *)

Record refName := mkRefName { ref_repository : string; ref_tag : string }.

Definition tags (r : refName) : list string :=
  if bool_decide (ref_tag r = "") then [] else [ref_tag r].

Definition AnnotationRefName : string := "org.opencontainers.image.ref.name".

Definition parseRefName (v : string) : refName :=
  let v := TrimSpace v in
  if bool_decide (v = "") then mkRefName "" ""
  else if String.prefix "sha256:" v || String.prefix "sha512:" v then mkRefName "" ""
  else match cut_last colon v with
  | Some (repo, tg) =>
      if bool_decide (tg = "") || has_char slash tg then mkRefName (Trim slash v) ""
      else mkRefName (Trim slash repo) tg
  | None =>
      if has_char slash v then mkRefName (Trim slash v) "" else mkRefName "" v
  end.

Definition sameRepository (a b : string) : bool := EqualFold (Trim slash a) (Trim slash b).

Definition destinationPath (base sourceRepo : string) : string :=
  let base := Trim slash (TrimSpace base) in
  let sourceRepo := Trim slash (TrimSpace sourceRepo) in
  if bool_decide (base = "") then sourceRepo
  else if bool_decide (sourceRepo = "") then base
  else Join base sourceRepo.

(** The union of two tag lists, first occurrences in order: [seen] holds what
    was emitted. *)
Fixpoint merge_distinct (seen : list string) (l : list string) : list string :=
  match l with
  | [] => []
  | t :: l =>
      if bool_decide (t = "") || bool_decide (t ∈ seen) then merge_distinct seen l
      else t :: merge_distinct (t :: seen) l
  end.

Definition mergeTags (a b : list string) : list string :=
  match a, b with
  | [], _ => b
  | _, [] => a
  | _, _ => merge_distinct [] (a ++ b)
  end.

Definition withoutRootTags (ts rootTags : list string) : list string :=
  match rootTags, ts with
  | [], _ => ts
  | _, [] => ts
  | _, _ => filter (λ t, t ∉ rootTags) ts
  end.

(* -------------------------------------------------------------------- *)
(** ** Placements *)

Record LayoutOptions := mkLayoutOptions {
  BasePath : string;
  SourceRepository : string;
  RootTags : list string }.

Record Site := mkSite { s_Repository : string; s_Tags : list string }.

Record Placement := mkSites { Sites : list Site; p_SourceRepository : string }.

Definition Primary (p : Placement) : Site := default (mkSite "" []) (head (Sites p)).

(** One site of the second list into the first: the tags of the first site of
    the same repository grow, or the site is appended. *)
Fixpoint merge_site (out : list Site) (site : Site) : list Site :=
  match out with
  | [] => [site]
  | o :: out =>
      if sameRepository (s_Repository o) (s_Repository site)
      then mkSite (s_Repository o) (mergeTags (s_Tags o) (s_Tags site)) :: out
      else o :: merge_site out site
  end.

Definition mergeSites (a b : list Site) : list Site := foldl merge_site a b.

(** [containerOf] is the filled prefix of the Go slice; the rest of the slice
    is empty strings, for which the fallback is taken too. *)
Definition inheritedRepository (containerOf : list string) (parent : Z) (fallback : string) : string :=
  if parent <? 0 then fallback
  else match containerOf !! Z.to_nat parent with
       | None | Some "" => fallback
       | Some c => c
       end.

Definition container_of (opts : LayoutOptions) (containerOf : list string) (a : ExpandedArtifact)
    : string :=
  if 0 <=? a_Parent a
  then inheritedRepository containerOf (a_Parent a) (SourceRepository opts)
  else SourceRepository opts.

Definition ref_of (a : ExpandedArtifact) : refName :=
  parseRefName (default "" (a_Annotations a !! AnnotationRefName)).

(** The sites of one artifact, before those it was given earlier in the tree. *)
Definition sites_of (opts : LayoutOptions) (container : string) (a : ExpandedArtifact) : list Site :=
  let ref := ref_of a in
  let here := destinationPath (BasePath opts) container in
  if a_Parent a <? 0 then [mkSite here (mergeTags (RootTags opts) (tags ref))]
  else if bool_decide (ref_repository ref = "") || sameRepository (ref_repository ref) container
  then [mkSite here (withoutRootTags (tags ref) (RootTags opts))]
  else [mkSite here []; mkSite (destinationPath (BasePath opts) (ref_repository ref)) (tags ref)].

Definition resolve_one (opts : LayoutOptions) (st : gmap string Placement * list string)
    (a : ExpandedArtifact) : gmap string Placement * list string :=
  let '(out, containerOf) := st in
  let container := container_of opts containerOf a in
  let sites := sites_of opts container a in
  let sites := match out !! a_Digest a with
               | Some existing => mergeSites (Sites existing) sites
               | None => sites
               end in
  (<[a_Digest a := mkSites sites container]> out, containerOf ++ [container]).

Definition ResolveLayout (tree : ExpandedTree) (opts : LayoutOptions) : gmap string Placement :=
  (foldl (resolve_one opts) (∅, []) tree).1.

(* -------------------------------------------------------------------- *)
(** ** Lemmas: repositories and tags *)

#[export] Instance sameRepository_refl : Reflexive (λ a b, sameRepository a b = true).
Proof. intros a. apply String.eqb_refl. Qed.

#[export] Instance sameRepository_sym : Symmetric (λ a b, sameRepository a b = true).
Proof. intros a b. unfold sameRepository, EqualFold. by rewrite String.eqb_sym. Qed.

#[export] Instance sameRepository_trans : Transitive (λ a b, sameRepository a b = true).
Proof.
  intros a b c. unfold sameRepository, EqualFold.
  rewrite !String.eqb_eq. by intros ->.
Qed.

Lemma elem_of_merge_distinct t seen l :
  t ∈ merge_distinct seen l ↔ t ≠ "" ∧ t ∈ l ∧ t ∉ seen.
Proof.
  revert seen. induction l as [|x l IH]; intros seen; simpl.
  { rewrite elem_of_nil. tauto. }
  destruct (bool_decide (x = "") || bool_decide (x ∈ seen)) eqn:Hx.
  - rewrite IH, elem_of_cons. apply orb_true_iff in Hx.
    rewrite !bool_decide_eq_true in Hx. naive_solver.
  - apply orb_false_iff in Hx. rewrite !bool_decide_eq_false in Hx.
    rewrite !elem_of_cons, IH, elem_of_cons. destruct (decide (t = x)); naive_solver.
Qed.

Lemma elem_of_mergeTags t a b :
  t ≠ "" → t ∈ mergeTags a b ↔ t ∈ a ∨ t ∈ b.
Proof.
  intros Ht. unfold mergeTags. destruct a as [|x a], b as [|y b].
  1-3: rewrite ?elem_of_nil; tauto.
  rewrite elem_of_merge_distinct, elem_of_app, elem_of_nil. tauto.
Qed.

Lemma elem_of_withoutRootTags t ts rootTags :
  t ∈ withoutRootTags ts rootTags ↔ t ∈ ts ∧ t ∉ rootTags.
Proof.
  unfold withoutRootTags. destruct rootTags as [|r rs], ts as [|x ts].
  1-3: rewrite ?elem_of_nil; tauto.
  rewrite list_elem_of_filter. tauto.
Qed.

Lemma elem_of_tags t r : t ∈ tags r ↔ t = ref_tag r ∧ t ≠ "".
Proof.
  unfold tags. case_bool_decide; rewrite ?elem_of_nil, ?list_elem_of_singleton; naive_solver.
Qed.

(* -------------------------------------------------------------------- *)
(** ** Lemmas: merging sites *)

(** A site whose repository and tags another list has. *)
Definition covered (s : Site) (l : list Site) : Prop :=
  ∃ s', s' ∈ l ∧ sameRepository (s_Repository s') (s_Repository s) = true ∧
        ∀ t, t ∈ s_Tags s → t ≠ "" → t ∈ s_Tags s'.

Definition same_site (a b : Site) : Prop :=
  sameRepository (s_Repository a) (s_Repository b) = true.

Lemma merge_site_covers out site s :
  covered s out ∨ s = site → covered s (merge_site out site).
Proof.
  induction out as [|o out IH]; simpl.
  - intros [(s' & []%elem_of_nil & _)| ->]. exists site.
    split; [left|]. split; [apply sameRepository_refl|done].
  - intros Hs. destruct (sameRepository (s_Repository o) (s_Repository site)) eqn:Ho.
    + destruct Hs as [(s' & [-> |Hin]%elem_of_cons & Hsame & Htags)| ->].
      * eexists. split; [left|]. split; [done|]. intros t Hin Ht. simpl.
        apply elem_of_mergeTags; [done|]. left. by apply Htags.
      * exists s'. split; [by right|]. done.
      * eexists. split; [left|]. split; [done|]. intros t Hin Ht. simpl.
        apply elem_of_mergeTags; [done|]. by right.
    + assert (covered s (merge_site out site) → covered s (o :: merge_site out site)) as Hr.
      { intros (s' & ? & ?). exists s'. split; [by right|done]. }
      destruct Hs as [(s' & [-> |Hin]%elem_of_cons & Hrest)| ->]; [| |by apply Hr, IH; right].
      * exists o. split; [left|done].
      * apply Hr, IH. left. by exists s'.
Qed.

Lemma mergeSites_covers a b s :
  covered s a ∨ s ∈ b → covered s (mergeSites a b).
Proof.
  unfold mergeSites. revert a. induction b as [|x b IH]; intros a; simpl.
  { intros [?|?%elem_of_nil]; done. }
  intros [Ha|[-> |Hb]%elem_of_cons]; apply IH; [| |by right];
    left; apply merge_site_covers; auto.
Qed.

(** What holds of every site and survives merging two of one repository holds
    of every merged site. *)
Lemma mergeSites_forall (P : Site → Prop) a b :
  (∀ o s, P o → P s → same_site o s →
     P (mkSite (s_Repository o) (mergeTags (s_Tags o) (s_Tags s)))) →
  Forall P a → Forall P b → Forall P (mergeSites a b).
Proof.
  intros Hm Ha Hb. unfold mergeSites. revert a Ha.
  induction Hb as [|s b Hs Hb IH]; intros a Ha; [done|]. simpl. apply IH. clear IH Hb.
  induction Ha as [|o a Ho Ha IH]; simpl; [by repeat constructor|].
  destruct (sameRepository _ _) eqn:E; constructor; auto.
Qed.

Lemma head_mergeSites a b o :
  head a = Some o → s_Repository <$> head (mergeSites a b) = Some (s_Repository o).
Proof.
  unfold mergeSites. revert a o. induction b as [|s b IH]; intros a o Ha; simpl; [by rewrite Ha|].
  destruct a as [|x a]; simplify_eq/=. destruct (sameRepository _ _).
  - by rewrite (IH (_ :: _) _ eq_refl).
  - by rewrite (IH (_ :: _) _ eq_refl).
Qed.

(** No two sites of one repository. *)
Definition distinct_sites : list Site → Prop := ForallOrdPairs (λ a b, ¬ same_site a b).

Lemma distinct_merge_site out s : distinct_sites out → distinct_sites (merge_site out s).
Proof.
  induction 1 as [|o out Ho Hout IH]; simpl; [repeat constructor|].
  destruct (sameRepository _ _) eqn:E; [by constructor|].
  constructor; [|done]. clear IH Hout. induction Ho as [|x out Hx Ho IH]; simpl.
  - constructor; [|done]. unfold same_site. congruence.
  - destruct (sameRepository (s_Repository x) _); by constructor.
Qed.

Lemma distinct_mergeSites a b : distinct_sites a → distinct_sites (mergeSites a b).
Proof.
  unfold mergeSites. revert a. induction b as [|s b IH]; intros a Ha; [done|].
  simpl. by apply IH, distinct_merge_site.
Qed.

(* -------------------------------------------------------------------- *)
(** ** Lemmas: the resolved layout *)

Lemma container_of_source opts containerOf a :
  Forall (eq (SourceRepository opts)) containerOf →
  container_of opts containerOf a = SourceRepository opts.
Proof.
  intros Hc. unfold container_of, inheritedRepository.
  destruct (0 <=? a_Parent a); [|done]. destruct (a_Parent a <? 0); [done|].
  destruct (containerOf !! _) as [c|] eqn:E; [|done].
  rewrite Forall_forall in Hc. apply list_elem_of_lookup_2, Hc in E as <-.
  by destruct (SourceRepository opts).
Qed.

Lemma resolve_containers opts tree :
  Forall (eq (SourceRepository opts)) (foldl (resolve_one opts) (∅, []) tree).2.
Proof.
  induction tree as [|a tree IH] using rev_ind; [constructor|].
  rewrite foldl_snoc. destruct (foldl _ _ tree) as [out containerOf]. simpl in *.
  apply Forall_app. split; [done|]. constructor; [|constructor].
  by rewrite container_of_source.
Qed.

Lemma ResolveLayout_snoc tree a opts :
  ResolveLayout (tree ++ [a]) opts =
  let sites := sites_of opts (SourceRepository opts) a in
  <[a_Digest a := mkSites
      match ResolveLayout tree opts !! a_Digest a with
      | Some existing => mergeSites (Sites existing) sites
      | None => sites
      end (SourceRepository opts)]> (ResolveLayout tree opts).
Proof.
  pose proof (resolve_containers opts tree) as Hc. unfold ResolveLayout.
  rewrite foldl_snoc. destruct (foldl _ _ tree) as [out containerOf]. simpl in *.
  by rewrite container_of_source.
Qed.

Lemma ResolveLayout_covers tree opts a :
  a ∈ tree → ∃ p, ResolveLayout tree opts !! a_Digest a = Some p ∧
    ∀ s, s ∈ sites_of opts (SourceRepository opts) a → covered s (Sites p).
Proof.
  induction tree as [|x tree IH] using rev_ind; [by intros []%elem_of_nil|].
  rewrite elem_of_app, list_elem_of_singleton, ResolveLayout_snoc. cbv zeta. intros Ha.
  assert (∀ s, s ∈ sites_of opts (SourceRepository opts) a →
    covered s (sites_of opts (SourceRepository opts) a)) as Hself.
  { intros s Hs. exists s. split; [done|]. split; [apply sameRepository_refl|done]. }
  destruct (decide (a_Digest a = a_Digest x)) as [Hd|Hd].
  - rewrite Hd, lookup_insert_eq. eexists. split; [done|]. intros s Hs. simpl.
    destruct Ha as [Ha| ->].
    + destruct (IH Ha) as (p & Hp & Hcov). rewrite <-Hd, Hp. apply mergeSites_covers. auto.
    + destruct (ResolveLayout tree opts !! a_Digest x); [apply mergeSites_covers|]; auto.
  - rewrite lookup_insert_ne by done. destruct Ha as [Ha| ->]; [by apply IH|done].
Qed.

(** What holds of every artifact's own sites, and survives merging two sites
    of one repository, holds of the whole layout. *)
Lemma ResolveLayout_forall (P : Site → Prop) tree opts d p :
  (∀ o s, P o → P s → same_site o s →
     P (mkSite (s_Repository o) (mergeTags (s_Tags o) (s_Tags s)))) →
  (∀ a, a ∈ tree → a_Digest a = d → Forall P (sites_of opts (SourceRepository opts) a)) →
  ResolveLayout tree opts !! d = Some p → Forall P (Sites p).
Proof.
  intros Hm. revert p. induction tree as [|x tree IH] using rev_ind; intros p Hall Hp.
  { done. }
  rewrite ResolveLayout_snoc in Hp. cbv zeta in Hp.
  assert (∀ p, ResolveLayout tree opts !! d = Some p → Forall P (Sites p)) as IH'.
  { intros p'. apply IH. intros a Ha. apply Hall. by apply elem_of_app; left. }
  destruct (decide (a_Digest x = d)) as [Hd|Hd].
  - rewrite Hd, lookup_insert_eq in Hp. injection Hp as <-. simpl.
    assert (Forall P (sites_of opts (SourceRepository opts) x)) as Hx.
    { apply Hall; [|done]. apply elem_of_app. right. by apply list_elem_of_singleton. }
    destruct (ResolveLayout tree opts !! d) as [e|] eqn:E; [|done].
    apply mergeSites_forall; auto.
  - rewrite lookup_insert_ne in Hp by done. by apply IH'.
Qed.

Lemma sites_of_head opts a :
  s_Repository <$> head (sites_of opts (SourceRepository opts) a) =
  Some (destinationPath (BasePath opts) (SourceRepository opts)).
Proof.
  unfold sites_of. destruct (a_Parent a <? 0); [done|]. by destruct (_ || _).
Qed.

(* -------------------------------------------------------------------- *)
(** ** Theorems *)

(** An artifact that names a repository other than the one it has to be in. *)
Definition named_elsewhere (opts : LayoutOptions) (a : ExpandedArtifact) : Prop :=
  0 ≤ a_Parent a ∧ ref_repository (ref_of a) ≠ "" ∧
  sameRepository (ref_repository (ref_of a)) (SourceRepository opts) = false.

(** The destination keeps the two repositories of such an artifact apart. *)
Definition elsewhere_apart (opts : LayoutOptions) (a : ExpandedArtifact) : Prop :=
  named_elsewhere opts a →
  sameRepository (destinationPath (BasePath opts) (SourceRepository opts))
    (destinationPath (BasePath opts) (ref_repository (ref_of a))) = false.

Lemma sites_of_cases opts a (P : list Site → Prop) :
  let here := destinationPath (BasePath opts) (SourceRepository opts) in
  (a_Parent a < 0 → P [mkSite here (mergeTags (RootTags opts) (tags (ref_of a)))]) →
  (0 ≤ a_Parent a → ¬ named_elsewhere opts a →
     P [mkSite here (withoutRootTags (tags (ref_of a)) (RootTags opts))]) →
  (named_elsewhere opts a →
     P [mkSite here []; mkSite (destinationPath (BasePath opts) (ref_repository (ref_of a)))
                          (tags (ref_of a))]) →
  P (sites_of opts (SourceRepository opts) a).
Proof.
  intros here Hroot Hhere Helse. unfold sites_of. destruct (a_Parent a <? 0) eqn:Hp.
  { apply Hroot. lia. }
  destruct (bool_decide _ || sameRepository _ _) eqn:E.
  - apply Hhere; [lia|]. intros (_ & Hne & Hs). rewrite Hs, orb_false_r in E.
    by apply bool_decide_eq_true in E.
  - apply orb_false_iff in E as [Hne%bool_decide_eq_false Hs]. apply Helse.
    split; [lia|done].
Qed.

Lemma layout_primary tree opts d p :
  ResolveLayout tree opts !! d = Some p →
  p_SourceRepository p = SourceRepository opts ∧
  s_Repository <$> head (Sites p) =
    Some (destinationPath (BasePath opts) (SourceRepository opts)).
Proof.
  revert p. induction tree as [|x tree IH] using rev_ind; intros p; [done|].
  rewrite ResolveLayout_snoc. cbv zeta.
  intros [[<- <-]|[Hd Hp]]%lookup_insert_Some; [|by apply IH].
  split; [done|]. simpl. destruct (ResolveLayout tree opts !! a_Digest x) as [e|] eqn:E.
  - destruct (IH _ eq_refl) as [_ He]. destruct (head (Sites e)) as [o|] eqn:Ho; simplify_eq/=.
    rewrite (head_mergeSites _ _ _ Ho). congruence.
  - apply sites_of_head.
Qed.

Lemma distinct_sites_of opts a :
  elsewhere_apart opts a → distinct_sites (sites_of opts (SourceRepository opts) a).
Proof.
  intros Hap. apply sites_of_cases; intros Hc; [repeat constructor..|].
  constructor; [|repeat constructor]. constructor; [|constructor].
  unfold same_site. simpl. by rewrite Hap.
Qed.

Lemma layout_distinct tree opts d p :
  (∀ a, a ∈ tree → elsewhere_apart opts a) →
  ResolveLayout tree opts !! d = Some p → distinct_sites (Sites p).
Proof.
  revert p. induction tree as [|x tree IH] using rev_ind; intros p Hall; [done|].
  rewrite ResolveLayout_snoc. cbv zeta.
  assert (∀ a, a ∈ tree → elsewhere_apart opts a) as Htree.
  { intros a Ha. apply Hall. by apply elem_of_app; left. }
  intros [[<- <-]|[Hd Hp]]%lookup_insert_Some; [|by apply IH]. simpl.
  destruct (ResolveLayout tree opts !! a_Digest x) as [e|] eqn:E.
  - by apply distinct_mergeSites, (IH _ Htree).
  - apply distinct_sites_of, Hall, elem_of_app. right. by apply list_elem_of_singleton.
Qed.

(** A bundle stays together.  Every artifact of the tree, whatever names
    the artifacts carry, is placed first in the one repository the bundle's own
    path maps to, and is read from the repository the bundle was found in: so
    an index and everything it references share a repository, the only place a
    registry resolves them.  And when a component's own name maps to another
    repository than the bundle's, no placement has two sites of one repository
    up to capitals. *)
Theorem bundle_stays_together tree opts :
  (∀ a, a ∈ tree → is_Some (ResolveLayout tree opts !! a_Digest a)) ∧
  (∀ d p, ResolveLayout tree opts !! d = Some p →
     p_SourceRepository p = SourceRepository opts ∧
     s_Repository (Primary p) = destinationPath (BasePath opts) (SourceRepository opts) ∧
     ((∀ a, a ∈ tree → elsewhere_apart opts a) → distinct_sites (Sites p))).
Proof.
  split. { intros a (p & Hp & _)%(ResolveLayout_covers _ opts). eauto. }
  intros d p Hp. pose proof (layout_primary _ _ _ _ Hp) as [Hsrc Hhead].
  split; [done|]. split; [unfold Primary; by destruct (head (Sites p)); simplify_eq/=|].
  intros Hall. eapply layout_distinct; eauto.
Qed.

(** C9. No name is lost and no release name is taken.  The root is tagged with
    every tag of the release and the tag it gives itself, in the bundle's
    repository; a component that names another repository is published there
    under its tag; a component that names the bundle's repository (or only a
    tag) is tagged there unless the name is one of the release's.  And where no
    component's own repository maps onto the bundle's, a digest no root has
    carries none of the release's tags in the bundle's repository, so nothing
    competes with the root for them. *)
Theorem names_are_published tree opts a :
  a ∈ tree →
  let here := destinationPath (BasePath opts) (SourceRepository opts) in
  let published repo t := ∃ p s, ResolveLayout tree opts !! a_Digest a = Some p ∧
    s ∈ Sites p ∧ sameRepository (s_Repository s) repo = true ∧ t ∈ s_Tags s in
  (a_Parent a < 0 →
     ∀ t, t ≠ "" → t ∈ RootTags opts ∨ t = ref_tag (ref_of a) → published here t) ∧
  (named_elsewhere opts a → ref_tag (ref_of a) ≠ "" →
     published (destinationPath (BasePath opts) (ref_repository (ref_of a))) (ref_tag (ref_of a))) ∧
  (0 ≤ a_Parent a → ¬ named_elsewhere opts a → ref_tag (ref_of a) ≠ "" →
     ref_tag (ref_of a) ∉ RootTags opts → published here (ref_tag (ref_of a))) ∧
  ((∀ x, x ∈ tree → a_Digest x = a_Digest a → 0 ≤ a_Parent x ∧ elsewhere_apart opts x) →
     ∀ t, t ≠ "" → published here t → t ∉ RootTags opts).
Proof.
  intros Ha here published. destruct (ResolveLayout_covers _ opts _ Ha) as (p & Hp & Hcov).
  assert (∀ r t, t ≠ "" → (∃ s, s ∈ sites_of opts (SourceRepository opts) a ∧
    s_Repository s = r ∧ t ∈ s_Tags s) → published r t) as Hpub.
  { intros r t Ht (s & Hs & <- & Hts). destruct (Hcov _ Hs) as (s' & Hin & Hsame & Htags).
    exists p, s'. auto. }
  split_and!.
  - intros Hroot t Ht Hor. apply Hpub; [done|].
    apply sites_of_cases; [|unfold named_elsewhere; lia..]. intros _.
    eexists. split; [by apply list_elem_of_singleton|]. split; [done|]. simpl.
    apply elem_of_mergeTags; [done|]. rewrite elem_of_tags. naive_solver.
  - intros Hel Ht. apply Hpub; [done|].
    apply sites_of_cases; [destruct Hel; lia|naive_solver|]. intros _.
    eexists. split; [right; by apply list_elem_of_singleton|]. split; [done|].
    by apply elem_of_tags.
  - intros Hpar Hne Ht Hroot. apply Hpub; [done|].
    apply sites_of_cases; [lia| |naive_solver]. intros _ _.
    eexists. split; [by apply list_elem_of_singleton|]. split; [done|]. simpl.
    apply elem_of_withoutRootTags. by rewrite elem_of_tags.
  - intros Hx t Ht (p' & s & Hp' & Hs & Hsame & Hts). simplify_eq.
    assert (Forall (λ s, sameRepository (s_Repository s) here = true →
      ∀ t, t ≠ "" → t ∈ s_Tags s → t ∉ RootTags opts) (Sites p)) as Hall.
    { eapply ResolveLayout_forall; [| |done].
      - intros o s' Ho Hs' Hos Hoh t' Ht'. simpl. intros [Hin|Hin]%elem_of_mergeTags; [| |done].
        + by apply Ho.
        + apply Hs'; [|done..]. eapply sameRepository_trans; [by apply sameRepository_sym|done].
      - intros x Hin Hd. destruct (Hx _ Hin Hd) as [Hpar Hap].
        apply sites_of_cases; [lia|..]; intros ?; repeat constructor; intros Hsm t' Ht'; simpl.
        + intros [_ ?]%elem_of_withoutRootTags. done.
        + by intros ?%elem_of_nil.
        + apply sameRepository_sym in Hsm. unfold here in Hsm.
          simpl in Hsm. by rewrite Hap in Hsm. }
    rewrite Forall_forall in Hall. by eapply Hall.
Qed.

(** A reference name is read as the OCI grammar writes it.  With the
    surrounding blanks and slashes gone, "repository:tag" is that repository
    and tag whatever colons the repository holds, a path without a colon is a
    repository, a word with neither is a tag; a digest reference and blank text
    name nothing. *)
Theorem parseRefName_shapes repo tg v :
  let clean s := TrimSpace s = s ∧ String.prefix "sha256:" s = false ∧
                 String.prefix "sha512:" s = false in
  (tg ≠ "" → has_char colon tg = false → has_char slash tg = false →
     (clean (String.append repo (String colon tg)) →
        parseRefName (String.append repo (String colon tg)) = mkRefName (Trim slash repo) tg) ∧
     (clean tg → parseRefName tg = mkRefName "" tg)) ∧
  (clean repo → has_char colon repo = false → has_char slash repo = true →
     parseRefName repo = mkRefName (Trim slash repo) "") ∧
  (TrimSpace v = "" ∨ String.prefix "sha256:" (TrimSpace v) = true ∨
   String.prefix "sha512:" (TrimSpace v) = true → parseRefName v = mkRefName "" "").
Proof.
  intros clean. split_and!.
  - intros Ht Hc Hs. split; intros (Htrim & H1 & H2); unfold parseRefName; rewrite Htrim, H1, H2.
    + rewrite bool_decide_eq_false_2 by by destruct repo.
      rewrite cut_last_app by done. simpl. rewrite bool_decide_eq_false_2 by done. by rewrite Hs.
    + rewrite bool_decide_eq_false_2 by done. rewrite cut_last_None by done. by rewrite Hs.
  - intros (Htrim & H1 & H2) Hc Hs. unfold parseRefName. rewrite Htrim, H1, H2.
    rewrite bool_decide_eq_false_2 by by intros ->. rewrite cut_last_None by done. by rewrite Hs.
  - intros Hv. unfold parseRefName. case_bool_decide as He; [done|].
    destruct Hv as [?|[-> | ->]]; [done|done|]. by rewrite orb_true_r.
Qed.

(* -------------------------------------------------------------------- *)
(** ** A concrete bundle *)

(** An index found in orbs/cfx, a component that names its own repository and
    a payload that repeats the name of the release. *)
Definition example_tree : ExpandedTree :=
  [mkArtifact 1 "sha256:root" "index" 10 0 ∅ (-1) [];
   mkArtifact 2 "sha256:nginx" "manifest" 5 1
     {[ AnnotationRefName := "orbs/CFX/nginx:1.2.3" ]} 0 [mkBlobRef "sha256:layer" "layer" 100];
   mkArtifact 3 "sha256:payload" "manifest" 7 1
     {[ AnnotationRefName := "orbs/CFX:orb_23" ]} 0 [mkBlobRef "sha256:layer" "layer" 100]].

Definition example_options : LayoutOptions := mkLayoutOptions "vendor" "orbs/cfx" ["orb_23"].

Example example_layout :
  ResolveLayout example_tree example_options !! "sha256:nginx" =
    Some (mkSites [mkSite "vendor/orbs/cfx" []; mkSite "vendor/orbs/CFX/nginx" ["1.2.3"]] "orbs/cfx") ∧
  ResolveLayout example_tree example_options !! "sha256:payload" =
    Some (mkSites [mkSite "vendor/orbs/cfx" []] "orbs/cfx") ∧
  ResolveLayout example_tree example_options !! "sha256:root" =
    Some (mkSites [mkSite "vendor/orbs/cfx" ["orb_23"]] "orbs/cfx").
Proof. vm_compute. done. Qed.

(** The two repositories a component names can map onto one destination: under
    a base path, path.Join cleans "orbs//cfx" to the bundle's own path, and the
    component gets two sites there. *)
Example unclean_name_lands_twice :
  (Sites <$> ResolveLayout
    [mkArtifact 1 "sha256:root" "index" 10 0 ∅ (-1) [];
     mkArtifact 2 "sha256:nginx" "manifest" 5 1 {[ AnnotationRefName := "orbs//cfx:1.2.3" ]} 0 []]
    example_options !! "sha256:nginx") =
  Some [mkSite "vendor/orbs/cfx" []; mkSite "vendor/orbs/cfx" ["1.2.3"]].
Proof. vm_compute. done. Qed.

#[local] Notation example_component :=
  (mkArtifact 2 "sha256:nginx" "manifest" 5 1 {[ AnnotationRefName := "orbs/CFX/nginx:1.2.3" ]} 0
     [mkBlobRef "sha256:layer" "layer" 100]).

Lemma example_component_ref : ref_of example_component = mkRefName "orbs/CFX/nginx" "1.2.3".
Proof. vm_compute. reflexivity. Qed.

Lemma example_component_elsewhere : named_elsewhere example_options example_component.
Proof.
  split; [done|]. split; [|by rewrite example_component_ref].
  apply (bool_decide_eq_true_1 _). vm_compute. reflexivity.
Qed.

Lemma names_are_published_witness :
  ∃ p s, ResolveLayout example_tree example_options !! "sha256:nginx" = Some p ∧
    s ∈ Sites p ∧
    sameRepository (s_Repository s) (destinationPath "vendor" "orbs/CFX/nginx") = true ∧
    "1.2.3" ∈ s_Tags s.
Proof.
  destruct (names_are_published example_tree example_options example_component) as (_ & Hn & _);
    [right; left|].
  specialize (Hn example_component_elsewhere). rewrite example_component_ref in Hn.
  cbn [ref_repository ref_tag] in Hn. destruct Hn as (p & s & Hp & Hs & Hsame & Ht); [done|].
  exists p, s. split; [exact Hp|]. split; [exact Hs|]. split; [exact Hsame|exact Ht].
Defined.

Lemma parseRefName_shapes_witness :
  parseRefName "orbs/CFX-5000-k8s:orb_23.8.1076" = mkRefName "orbs/CFX-5000-k8s" "orb_23.8.1076".
Proof.
  refine (proj1 (proj1 (parseRefName_shapes "orbs/CFX-5000-k8s" "orb_23.8.1076" "") _ _ _) _);
    vm_compute; [congruence|done..].
Defined.
