(* ===== verification/Planning.v ===== *)
(** * The statements of a plan

    internal/store/packages.go, from JobRow to CreateTransfer, with
    EnsureRepository: the placement lookups, the rows of a plan (destinations,
    jobs, totals) and the opening of its first wave.  The identities of new rows
    come from [RowIds].  A statement that breaks a foreign key, a UNIQUE or a
    CHECK of the modelled columns is refused with an error. *)

From S2P Require Import Prelude StateMachine Backoff Schema Dependencies Completion.
Open Scope Z_scope.

(** The sequences of the BIGSERIAL columns: a new row's id is positive and
    not in use. *)
Class RowIds := {
  next_job : gmap Z job → Z;
  next_job_pos m : 0 < next_job m;
  next_job_fresh m : m !! next_job m = None;
  next_repository : gmap Z Schema.repository → Z;
  next_repository_pos m : 0 < next_repository m;
  next_repository_fresh m : m !! next_repository m = None }.

(** The sequence an undisturbed table has: one more than the largest id. *)
Definition largest {V} (m : gmap Z V) : Z := foldr Z.max 0 (map_to_list m).*1.

Lemma largest_bound {V} (m : gmap Z V) i v : m !! i = Some v → 0 ≤ largest m ∧ i ≤ largest m.
Proof.
  intros Hi. assert (i ∈ (map_to_list m).*1) as Hin.
  { apply list_elem_of_fmap. exists (i, v). split; [done|]. by apply elem_of_map_to_list. }
  unfold largest. revert Hin. generalize (map_to_list m).*1 as l. clear.
  induction l as [|k l IH]; intros Hin; [by apply elem_of_nil in Hin|]. simpl.
  apply elem_of_cons in Hin as [-> |Hin]; [|specialize (IH Hin); lia].
  clear IH. assert (0 ≤ foldr Z.max 0 l) by (induction l; simpl; lia). lia.
Qed.

Lemma largest_nonneg {V} (m : gmap Z V) : 0 ≤ largest m.
Proof. unfold largest. induction (map_to_list m).*1; simpl; lia. Qed.

Lemma largest_fresh {V} (m : gmap Z V) : m !! (largest m + 1) = None.
Proof.
  destruct (m !! (largest m + 1)) eqn:E; [|done].
  apply largest_bound in E. lia.
Qed.

#[export] Program Instance serial_ids : RowIds := {|
  next_job m := largest m + 1;
  next_repository m := largest m + 1 |}.
Next Obligation. intros m. pose proof (largest_nonneg m). lia. Qed.
Next Obligation. intros m. apply largest_fresh. Qed.
Next Obligation. intros m. pose proof (largest_nonneg m). lia. Qed.
Next Obligation. intros m. apply largest_fresh. Qed.

(* -------------------------------------------------------------------- *)
(** ** Placement lookups *)

Definition placementTTLSeconds : Z := 24 * 60 * 60.
Definition mountHintHorizonSeconds : Z := 90 * 24 * 60 * 60.
Definition chunk : nat := 500.

(** [for start := 0; start < len(digests); start += chunk]: one query a
    batch; [fuel] is the number of digests. *)
Fixpoint chunked {A} (query : list string → A → A) (fuel : nat) (digests : list string) (out : A) : A :=
  match fuel, digests with
  | S fuel, _ :: _ => chunked query fuel (drop chunk digests) (query (take chunk digests) out)
  | _, _ => out
  end.

Definition placed_rows (now repositoryID : Z) (db : DB) (batch : list string) (out : gset string)
    : gset string :=
  list_to_set ((λ r : (Z * string) * placement, r.1.2) <$>
    select_where (λ k p, bool_decide (k.1 = repositoryID) && bool_decide (k.2 ∈ batch) &&
        (now - placementTTLSeconds * Second <? bp_verified p)) (placements db)) ∪ out.

Definition PlacedDigests (now repositoryID : Z) (digests : list string) (db : DB) : gset string :=
  chunked (placed_rows now repositoryID db) (length digests) digests ∅.

(** The rows of one mount query: ORDER BY r.id, then the first path a digest
    gets stays. *)
Definition mountable (now targetRepoID : Z) (db : DB) (batch : list string)
    (k : Z * string) (p : placement) : bool :=
  bool_decide (k.2 ∈ batch) &&
  (now - mountHintHorizonSeconds * Second <? bp_verified p) &&
  negb (bool_decide (k.1 = targetRepoID)) && same_registry db k.1 targetRepoID &&
  match repositories db !! k.1 with
  | Some r => negb (bool_decide (rp_path r = ""))
  | None => false
  end.

Definition mount_path (db : DB) (id : Z) : string :=
  match repositories db !! id with Some r => rp_path r | None => "" end.

Definition mount_rows (now targetRepoID : Z) (db : DB) (batch : list string)
    (out : gmap string string) : gmap string string :=
  foldl (λ out r, match out !! r.1.2 with
                  | Some _ => out
                  | None => <[r.1.2 := mount_path db r.1.1]> out
                  end) out
    (order_by (λ r : (Z * string) * placement, [r.1.1])
       (select_where (mountable now targetRepoID db batch) (placements db))).

Definition MountableFrom (now targetRepoID : Z) (digests : list string) (db : DB)
    : gmap string string :=
  if bool_decide (targetRepoID = 0) then ∅
  else chunked (mount_rows now targetRepoID db) (length digests) digests ∅.

(* -------------------------------------------------------------------- *)
(** ** The rows of a plan *)

Record JobRow := mkJobRow {
  jr_TransferID : string;
  jr_Kind : Kind;
  jr_Digest : string;
  jr_SizeBytes : Z;
  jr_MediaType : string;
  jr_ArtifactID : option Z;
  jr_SourceRepoID : Z;
  jr_TargetRepoID : Z;
  jr_State : option JobState;
  jr_Wave : Z;
  jr_Priority : Z;
  jr_SiteRank : Z;
  jr_TargetTags : list string;
  jr_TargetRepository : string }.

(** The row of the INSERT: the columns it does not name take their defaults. *)
Definition new_job (now : Z) (row : JobRow) : job :=
  mkJob (jr_TransferID row) (jr_Kind row) (jr_Digest row) (jr_SizeBytes row)
    (nullIfEmpty (jr_MediaType row)) (jr_ArtifactID row) (jr_SourceRepoID row)
    (jr_TargetRepoID row) (default JobPending (jr_State row)) None (jr_Wave row)
    (jr_Priority row) false 0 8 now None None None None 0 None None now (jr_SiteRank row) 0
    (jr_TargetTags row) (nullIfEmpty (jr_TargetRepository row)).

(** The UNIQUE key (transfer_id, kind, digest, target_repo_id). *)
Definition conflicts (row : JobRow) (_ : Z) (j : job) : bool :=
  bool_decide (j_transfer j = jr_TransferID row) && bool_decide (j_kind j = jr_Kind row) &&
  bool_decide (j_digest j = jr_Digest row) && bool_decide (j_target_repo j = jr_TargetRepoID row).

Definition jobIDFor (row : JobRow) (db : DB) : result Z :=
  match select_where (conflicts row) (jobs db) with
  | (id, _) :: _ => Ok id
  | [] => Err (EMissingRow "jobs" (jr_Digest row))
  end.

(** The rows a job refers to. *)
Definition job_references (row : JobRow) (db : DB) : bool :=
  bool_decide (is_Some (transfers db !! jr_TransferID row)) &&
  bool_decide (is_Some (repositories db !! jr_SourceRepoID row)) &&
  bool_decide (is_Some (repositories db !! jr_TargetRepoID row)).

Definition InsertJob `{RowIds} (now : Z) (row : JobRow) (db : DB) : result (DB * Z * bool) :=
  if exists_where (conflicts row) (jobs db) then
    id ← jobIDFor row db; Ok (db, id, false)
  else if job_references row db then
    let id := next_job (jobs db) in
    Ok (db <| jobs ::= insert id (new_job now row) |>, id, true)
  else Err (EMissingRow "transfers or repositories" (jr_TransferID row)).

Definition registry_type_of (registryType : string) : string :=
  if bool_decide (registryType = "") then "generic"
  else if bool_decide (registryType = "jfrog") then "artifactory" else registryType.

(** EnsureRepository with no display path. A row with the host and path is the
    answer, whoever made it. *)
Definition EnsureRepository `{RowIds} (productID : Z) (role name host path registryType : string) (db : DB)
    : result (DB * Z) :=
  match select_where (λ _ r, bool_decide (rp_host r = host) && bool_decide (rp_path r = path))
          (repositories db) with
  | (id, _) :: _ => Ok (db, id)
  | [] =>
      let ty := registry_type_of registryType in
      if negb (bool_decide (ty ∈ ["generic"; "acr"; "artifactory"; "quay"])) then
        Err (ECheckViolation "registry_type" ty)
      else if negb (bool_decide (role ∈ ["source"; "target"])) then
        Err (ECheckViolation "role" role)
      else if negb (bool_decide (is_Some (products db !! productID))) then
        Err (EMissingRow "products" (pretty productID))
      else if exists_where (λ _ r, bool_decide (rp_product r = productID) &&
                bool_decide (rp_role r = role) && bool_decide (rp_name r = name)) (repositories db)
      then Err (EUniqueViolation "repositories" name)
      else let id := next_repository (repositories db) in
        Ok (db <| repositories ::= insert id (mkRepository productID name host path ty role) |>, id)
  end.

Record PlanTotals := mkPlanTotals {
  pt_JobCount : Z;
  pt_PlannedBytes : Z;
  pt_DedupeSkippedBytes : Z;
  pt_MountableBytes : Z;
  pt_MaxWave : Z }.

Definition first_ready (db : DB) (t : string) (first : Z) (id : Z) (j : job) : bool :=
  job_of t [JobBlocked] id j && bool_decide (j_wave j = first) && dependencies_satisfied db id.

Definition OpenFirstWave (now : Z) (t : string) (db : DB) : DB :=
  match min_wave (job_of t outstanding) db with
  | None =>
      update_transfer t (λ r, r <| t_state := TransferSucceeded |> <| t_current_wave := t_max_wave r |>
        <| t_completed := Some now |> <| t_updated := now |>) db
  | Some first =>
      let db := update_transfer t (λ r, r <| t_current_wave := first |> <| t_updated := now |>) db in
      update_jobs (first_ready db t first) (set_pending now) db
  end.

Definition set_planned (now : Z) (p : PlanTotals) (r : transfer) : transfer :=
  r <| t_planned_jobs := pt_JobCount p |> <| t_planned_bytes := pt_PlannedBytes p |>
    <| t_dedupe_bytes := pt_DedupeSkippedBytes p |> <| t_mountable_bytes := pt_MountableBytes p |>
    <| t_max_wave := pt_MaxWave p |> <| t_state := TransferReady |> <| t_updated := now |>.

Definition RecordPlan (now : Z) (t : string) (p : PlanTotals) (db : DB) : DB :=
  OpenFirstWave now t (update_transfer t (set_planned now p) db).

Record TransferRow := mkTransferRow {
  tr_ID : string;
  tr_RequestID : string;
  tr_PackageID : Z;
  tr_SourceRepoID : Z;
  tr_TargetRepoID : Z;
  tr_Priority : Z;
  tr_StepIndex : Z;
  tr_DependsOn : string }.

Definition new_transfer (now : Z) (row : TransferRow) : transfer :=
  mkTransfer (tr_RequestID row) (tr_PackageID row) (tr_SourceRepoID row) (tr_TargetRepoID row)
    (if bool_decide (tr_DependsOn row = "") then TransferPlanning else TransferWaiting)
    (tr_Priority row) 0 0 0 0 0 0 None None None now now (tr_StepIndex row)
    (nullIfEmpty (tr_DependsOn row)) 0 0 None "copy".

(** ON CONFLICT (request_id, target_repo_id) DO NOTHING; a taken primary key or
    a missing request or repository refuses the statement. *)
Definition CreateTransfer (now : Z) (row : TransferRow) (db : DB) : result (DB * bool) :=
  if exists_where (λ _ r, bool_decide (t_request r = tr_RequestID row) &&
       bool_decide (t_target_repo r = tr_TargetRepoID row)) (transfers db) then Ok (db, false)
  else if bool_decide (is_Some (transfers db !! tr_ID row)) then
    Err (EUniqueViolation "transfers" (tr_ID row))
  else if bool_decide (is_Some (requests db !! tr_RequestID row)) &&
          bool_decide (is_Some (repositories db !! tr_SourceRepoID row)) &&
          bool_decide (is_Some (repositories db !! tr_TargetRepoID row)) &&
          (bool_decide (tr_DependsOn row = "") ||
           bool_decide (is_Some (transfers db !! tr_DependsOn row))) then
    Ok (db <| transfers ::= insert (tr_ID row) (new_transfer now row) |>, true)
  else Err (EMissingRow "transfer_requests, repositories or transfers" (tr_ID row)).

(* -------------------------------------------------------------------- *)
(** ** Lemmas *)

Lemma chunked_ind {A} (query : list string → A → A) (I : list string → A → Prop) digests out :
  (∀ seen batch out, I seen out → I (seen ++ batch) (query batch out)) →
  I [] out → I digests (chunked query (length digests) digests out).
Proof.
  intros Hq H0. assert (∀ fuel ds seen out, (length ds ≤ fuel)%nat → I seen out →
    I (seen ++ ds) (chunked query fuel ds out)) as Hgen.
  { induction fuel as [|fuel IH]; intros ds seen o Hlen Hseen; destruct ds as [|d ds];
      [by rewrite app_nil_r|simpl in Hlen; lia|by rewrite app_nil_r|].
    change (I (seen ++ d :: ds) (chunked query fuel (drop chunk (d :: ds)) (query (take chunk (d :: ds)) o))).
    rewrite <-(take_drop chunk (d :: ds)) at 1. rewrite app_assoc.
    apply IH; [rewrite length_drop; unfold chunk; simpl in *; lia|by apply Hq]. }
  by apply (Hgen _ _ []).
Qed.

Lemma elem_of_PlacedDigests now repo digests db d :
  d ∈ PlacedDigests now repo digests db ↔
  d ∈ digests ∧ ∃ p, placements db !! (repo, d) = Some p ∧
    now - placementTTLSeconds * Second < bp_verified p.
Proof.
  unfold PlacedDigests. revert d.
  apply (chunked_ind _ (λ ds (out : gset string), ∀ d, d ∈ out ↔ d ∈ ds ∧
    ∃ p, placements db !! (repo, d) = Some p ∧ now - placementTTLSeconds * Second < bp_verified p));
    [|set_solver].
  intros seen batch out IH d. unfold placed_rows.
  rewrite elem_of_union, elem_of_list_to_set, list_elem_of_fmap, IH, elem_of_app. split.
  - intros [([[i d'] p] & -> & Hin)|[Hd Hp]]; [|by auto].
    apply elem_of_select_where in Hin as [Hp Hc]. simpl in *.
    rewrite !andb_true_iff, !bool_decide_eq_true in Hc. destruct Hc as [[-> Hd] Ht].
    split; [by right|]. exists p. split; [done|lia].
  - intros [[Hd|Hd] (p & Hp & Ht)]; [by eauto|]. left. exists ((repo, d), p). split; [done|].
    apply elem_of_select_where. simpl. rewrite !bool_decide_eq_true_2 by done.
    split; [done|]. simpl. lia.
Qed.

Lemma InsertJob_Ok `{RowIds} now row db db' id created :
  InsertJob now row db = Ok (db', id, created) →
  (created = false ∧ db' = db ∧ ∃ j, jobs db !! id = Some j ∧ conflicts row id j = true) ∨
  (created = true ∧ db' = db <| jobs ::= insert id (new_job now row) |> ∧ jobs db !! id = None ∧
   0 < id ∧ ∀ i j, jobs db !! i = Some j → conflicts row i j = false).
Proof.
  unfold InsertJob. destruct (exists_where _ _) eqn:He.
  - unfold jobIDFor. destruct (select_where _ _) as [|[i j] l] eqn:Hs; [done|]. simpl.
    intros [= <- <- <-]. left. split; [done|]. split; [done|].
    exists j. apply elem_of_select_where. rewrite Hs. left.
  - destruct (job_references row db); [|done]. intros [= <- <- <-]. right.
    split; [done|]. split; [done|]. split; [apply next_job_fresh|].
    split; [apply next_job_pos|]. by apply exists_where_false.
Qed.

Lemma conflicts_true row i j :
  conflicts row i j = true ↔
  j_transfer j = jr_TransferID row ∧ j_kind j = jr_Kind row ∧
  j_digest j = jr_Digest row ∧ j_target_repo j = jr_TargetRepoID row.
Proof. unfold conflicts. rewrite !andb_true_iff, !bool_decide_eq_true. tauto. Qed.

Lemma EnsureRepository_Ok `{RowIds} product role name host path ty db db' id :
  EnsureRepository product role name host path ty db = Ok (db', id) →
  (∃ r, repositories db' !! id = Some r ∧ rp_host r = host ∧ rp_path r = path) ∧
  (db' = db ∨ repositories db !! id = None ∧ db' = db <| repositories := repositories db' |> ∧
   repositories db ⊆ repositories db' ∧
   ∀ i, i ≠ id → repositories db' !! i = repositories db !! i).
Proof.
  unfold EnsureRepository. destruct (select_where _ _) as [|[i r] l] eqn:Hs.
  - do 3 (destruct (negb _); [done|]). destruct (exists_where _ _); [done|].
    intros [= <- <-]. cbn [repositories update_field]. split.
    + eexists. split; [apply lookup_insert_eq|done].
    + right. split; [apply next_repository_fresh|]. split; [done|]. simpl.
      split; [apply insert_subseteq, next_repository_fresh|].
      intros i Hi. by apply lookup_insert_ne.
  - intros [= <- <-]. split; [|by left]. exists r.
    assert ((i, r) ∈ (i, r) :: l) as Hin by left. rewrite <-Hs in Hin.
    apply elem_of_select_where in Hin as [Hr Hp].
    rewrite andb_true_iff, !bool_decide_eq_true in Hp. by destruct Hp.
Qed.

(* -------------------------------------------------------------------- *)
(** ** Mount hints *)

(** A repository a blob can be mounted from into [target]. *)
Definition mount_source (now target : Z) (db : DB) (d : string) (id : Z) : Prop :=
  ∃ p r, placements db !! (id, d) = Some p ∧ repositories db !! id = Some r ∧
    now - mountHintHorizonSeconds * Second < bp_verified p ∧ id ≠ target ∧
    same_registry db id target = true ∧ rp_path r ≠ "".

Lemma mountable_source now target db batch k p :
  placements db !! k = Some p →
  mountable now target db batch k p = true ↔ k.2 ∈ batch ∧ mount_source now target db k.2 k.1.
Proof.
  intros Hp. unfold mountable, mount_source. destruct k as [id d]; simpl.
  rewrite !andb_true_iff, !negb_true_iff, bool_decide_eq_true, bool_decide_eq_false, Z.ltb_lt.
  destruct (repositories db !! id) as [r|] eqn:Hr; [|naive_solver].
  rewrite negb_true_iff, bool_decide_eq_false. rewrite Hp. naive_solver.
Qed.

(** A table filled first-wins holds what it had, else the first entry. *)
Lemma lookup_first_wins {A} (k : A → string) (v : A → string) (l : list A) (out : gmap string string) d :
  foldl (λ out r, match out !! k r with Some _ => out | None => <[k r := v r]> out end) out l !! d =
  match out !! d with
  | Some x => Some x
  | None => v <$> head (filter (λ r, k r = d) l)
  end.
Proof.
  revert out. induction l as [|x l IH]; intros out; simpl; [by destruct (out !! d)|].
  rewrite IH. rewrite filter_cons. destruct (decide (k x = d)) as [<-|Hd].
  - destruct (out !! k x) eqn:E; [by rewrite E|]. by rewrite lookup_insert_eq.
  - destruct (out !! k x); [done|]. by rewrite lookup_insert_ne.
Qed.

Lemma head_filter_least {A} (R : relation A) (P : A → Prop) `{∀ x, Decision (P x)} l x y :
  Reflexive R → StronglySorted R l → head (filter P l) = Some x → y ∈ l → P y → R x y.
Proof.
  intros HR Hs Hx Hy HP. induction Hs as [|z l Hs IH Hz]; [by apply elem_of_nil in Hy|].
  rewrite filter_cons in Hx. apply elem_of_cons in Hy as [-> |Hy].
  - rewrite decide_True in Hx by done. injection Hx as ->. done.
  - destruct (decide (P z)); [|by apply IH]. injection Hx as ->.
    rewrite Forall_forall in Hz. by apply Hz.
Qed.

(** A mount hint is a legal mount and the stable choice.  For a real target
    the path MountableFrom gives a digest is that of a repository other than
    the target, on its registry and under its product, where the digest was
    verified within the horizon - the one with the least id; and a digest asked
    for gets no path only when there is no such repository. *)
Theorem MountableFrom_exact now target digests db :
  target ≠ 0 →
  ∀ d, match MountableFrom now target digests db !! d with
       | Some path => d ∈ digests ∧ ∃ id, mount_source now target db d id ∧
           path = mount_path db id ∧ ∀ id', mount_source now target db d id' → id ≤ id'
       | None => d ∈ digests → ∀ id, ¬ mount_source now target db d id
       end.
Proof.
  intros Ht. unfold MountableFrom. rewrite bool_decide_eq_false_2 by done.
  apply (chunked_ind (mount_rows now target db) (λ ds (out : gmap string string), ∀ d, match out !! d with
    | Some path => d ∈ ds ∧ ∃ id, mount_source now target db d id ∧
           path = mount_path db id ∧ ∀ id', mount_source now target db d id' → id ≤ id'
    | None => d ∈ ds → ∀ id, ¬ mount_source now target db d id end)).
  2: { intros d. rewrite lookup_empty. by intros []%elem_of_nil. }
  intros seen batch out IH d. specialize (IH d). unfold mount_rows. rewrite lookup_first_wins.
  destruct (out !! d) as [path|]; [rewrite elem_of_app; tauto|].
  set (key := λ r : (Z * string) * placement, [r.1.1]).
  set (l := order_by key _).
  assert (∀ k p, (k, p) ∈ l ↔
    placements db !! k = Some p ∧ k.2 ∈ batch ∧ mount_source now target db k.2 k.1) as Hl.
  { intros k p. unfold l. rewrite elem_of_order_by, elem_of_select_where.
    split; intros [Hp Hm]; (split; [done|]); by apply (mountable_source now target db batch k p Hp). }
  destruct (head (filter _ l)) as [[[id d'] p]|] eqn:Hhead; simpl.
  - apply head_Some_elem_of in Hhead as Hin. apply list_elem_of_filter in Hin as [Hd' Hin].
    simpl in Hd'. subst d'. apply Hl in Hin as (Hp & Hb & Hsrc). simpl in *.
    split; [rewrite elem_of_app; by right|]. exists id. split; [done|]. split; [done|].
    intros id' Hsrc'. destruct Hsrc' as (p' & r' & Hp' & Hrest).
    assert (key_le key (id, d, p) (id', d, p')) as Hle.
    { eapply head_filter_least; [|apply order_by_sorted|exact Hhead| |done].
      - intros x. apply lex_le_refl.
      - apply Hl. split; [done|]. split; [done|]. by exists p', r'. }
    revert Hle. unfold key_le, key. simpl. destruct (id =? id') eqn:E; lia.
  - intros [Hd|Hd]%elem_of_app; [by apply IH|]. intros id (p & r & Hp & Hrest).
    assert (((id, d), p) ∈ filter (λ r : (Z * string) * placement, r.1.2 = d) l) as Hin.
    { apply list_elem_of_filter. split; [done|]. apply Hl. split; [done|]. split; [done|].
      by exists p, r. }
    destruct (filter _ l); [by apply elem_of_nil in Hin|done].
Qed.

(* -------------------------------------------------------------------- *)
(** ** Opening the first wave *)

Lemma first_ready_true db t first i j :
  first_ready db t first i j = true ↔
  j_transfer j = t ∧ j_state j = JobBlocked ∧ j_wave j = first ∧ all_satisfied db i.
Proof.
  unfold first_ready. rewrite !andb_true_iff, job_of_true, list_elem_of_singleton,
    bool_decide_eq_true, dependencies_satisfied_true. tauto.
Qed.

Lemma OpenFirstWave_content_first now t db :
  content_first db → content_first (OpenFirstWave now t db).
Proof.
  intros Hcf. unfold OpenFirstWave. destruct (min_wave _ db) as [first|]; [|done].
  apply update_content_first; [|exact Hcf].
  intros i j Hj (Ht & Hs & Hw & Hsat)%first_ready_true. simpl. rewrite Hs. split; [done|].
  intros _. exact Hsat.
Qed.

Lemma OpenFirstWave_rows now t db :
  dependencies (OpenFirstWave now t db) = dependencies db ∧
  rows (λ _ j j', j' = j ∨ j_transfer j = t ∧ j_state j = JobBlocked ∧ j' = set_pending now 0 j)
    (jobs db) (jobs (OpenFirstWave now t db)).
Proof.
  unfold OpenFirstWave. destruct (min_wave _ db) as [first|].
  - split; [done|]. apply rows_update; [by intros ??; left|].
    intros i j Hj (Ht & Hs & _)%first_ready_true. by right.
  - split; [done|]. intros i. simpl. destruct (jobs db !! i); constructor. by left.
Qed.

(** A plan opens exactly its first workable wave.  With no pending, blocked
    or leased job the transfer is succeeded, at its last wave, and no job
    changes.  Otherwise its current wave is the lowest wave that has one; of
    the jobs exactly the blocked ones of that wave all of whose dependencies
    are satisfied become pending, every other row stays as it was, and the
    invariant that nothing is runnable before its content is kept. *)
Theorem OpenFirstWave_exact now t db r :
  transfers db !! t = Some r →
  let db' := OpenFirstWave now t db in
  (∀ i, i ≠ t → transfers db' !! i = transfers db !! i) ∧
  (content_first db → content_first db') ∧
  match min_wave (job_of t outstanding) db with
  | None => (∀ i j, jobs db !! i = Some j → j_transfer j = t → j_state j ∉ outstanding) ∧
      jobs db' = jobs db ∧
      transfers db' !! t = Some (r <| t_state := TransferSucceeded |>
        <| t_current_wave := t_max_wave r |> <| t_completed := Some now |> <| t_updated := now |>)
  | Some first =>
      (∃ i j, jobs db !! i = Some j ∧ j_transfer j = t ∧ j_state j ∈ outstanding ∧ j_wave j = first) ∧
      (∀ i j, jobs db !! i = Some j → j_transfer j = t → j_state j ∈ outstanding → first ≤ j_wave j) ∧
      transfers db' !! t = Some (r <| t_current_wave := first |> <| t_updated := now |>) ∧
      dom (jobs db') = dom (jobs db) ∧
      ∀ i j, jobs db !! i = Some j →
        let ready := j_transfer j = t ∧ j_state j = JobBlocked ∧ j_wave j = first ∧ all_satisfied db i in
        (ready → jobs db' !! i = Some (set_pending now i j)) ∧ (¬ ready → jobs db' !! i = Some j)
  end.
Proof.
  intros Hr db'. pose proof (OpenFirstWave_content_first now t db) as Hcf. fold db' in Hcf.
  unfold db', OpenFirstWave in *. pose proof (min_wave_spec (job_of t outstanding) db) as Hm.
  destruct (min_wave _ db) as [first|].
  - split; [intros i Hi; by apply lookup_update_transfer_ne|].
    assert (∀ i j, first_ready (update_transfer t (λ r, r <| t_current_wave := first |>
        <| t_updated := now |>) db) t first i j = true ↔
      j_transfer j = t ∧ j_state j = JobBlocked ∧ j_wave j = first ∧ all_satisfied db i) as Hready.
    { intros i j. rewrite first_ready_true. unfold all_satisfied. simpl. tauto. }
    split; [exact Hcf|].
    destruct Hm as [(i0 & j0 & Hj0 & Hp0 & Hw0) Hm]. split_and!.
    + exists i0, j0. rewrite job_of_true in Hp0. naive_solver.
    + intros i j Hj Ht Hs. apply (Hm i j Hj). by apply job_of_true.
    + rewrite transfers_update_jobs. by rewrite (lookup_update_transfer_eq _ _ _ _ Hr).
    + apply dom_update_where.
    + intros i j Hj. cbv zeta. rewrite lookup_update_jobs, jobs_update_transfer, Hj. simpl.
      specialize (Hready i j). destruct (first_ready _ t first i j); split; intros Hc;
        [done|by destruct Hc; apply Hready|by apply Hready in Hc|done].
  - split; [intros i Hi; by apply lookup_update_transfer_ne|]. split; [exact Hcf|].
    split; [|split; [done|by rewrite (lookup_update_transfer_eq _ _ _ _ Hr)]].
    intros i j Hj Ht. exact (proj1 (job_of_false _ _ _ _) (Hm i j Hj) Ht).
Qed.

(* -------------------------------------------------------------------- *)
(** ** Inserting rows *)

(** Inserting a planned job is idempotent and disturbs nothing.  A successful
    InsertJob leaves every existing row as it was, returns the id of the one
    row with its transfer, kind, digest and target, new exactly when it says so
    and then with the defaults of the table; and inserting the same row again,
    whatever state the first has reached by then, returns that row without a
    change. *)
Theorem InsertJob_idempotent `{RowIds} now now' row db db1 id created :
  InsertJob now row db = Ok (db1, id, created) →
  jobs db ⊆ jobs db1 ∧
  (∃ j, jobs db1 !! id = Some j ∧ conflicts row id j = true) ∧
  (created = true → jobs db !! id = None ∧ jobs db1 !! id = Some (new_job now row)) ∧
  ((∀ i i' j j', jobs db !! i = Some j → jobs db !! i' = Some j' →
      conflicts row i j = true → conflicts row i' j' = true → i = i') →
   ∀ db2, rows (λ _ j j', conflicts row 0 j = conflicts row 0 j') (jobs db1) (jobs db2) →
     InsertJob now' row db2 = Ok (db2, id, false)).
Proof.
  intros Hins. apply InsertJob_Ok in Hins as Hok.
  assert (jobs db ⊆ jobs db1 ∧ (∃ j, jobs db1 !! id = Some j ∧ conflicts row id j = true) ∧
    (created = true → jobs db !! id = None ∧ jobs db1 !! id = Some (new_job now row)) ∧
    ((∀ i i' j j', jobs db !! i = Some j → jobs db !! i' = Some j' →
      conflicts row i j = true → conflicts row i' j' = true → i = i') →
     ∀ i j, jobs db1 !! i = Some j → conflicts row i j = true → i = id)) as (? & Hid & ? & Huniq).
  { destruct Hok as [(-> & -> & Hj)|(-> & -> & Hfree & Hpos & Hno)].
    - destruct Hj as (j & Hj & Hc). split; [done|]. split; [by exists j|]. split; [done|].
      intros Hu i' j' Hj' Hc'. by eapply Hu.
    - simpl. split; [by apply insert_subseteq|]. split.
      { exists (new_job now row). split; [apply lookup_insert_eq|]. by apply conflicts_true. }
      split; [split; [done|apply lookup_insert_eq]|].
      intros _ i' j' [[-> _]|[_ Hj']]%lookup_insert_Some Hc; [done|].
      by rewrite (Hno _ _ Hj') in Hc. }
  split_and!; [done..|]. intros Hu db2 Hrows. specialize (Huniq Hu).
  assert (∀ i j, jobs db2 !! i = Some j → conflicts row i j = true → i = id) as Huniq2.
  { intros i j' Hj' Hc. destruct (rows_lookup_new _ _ _ _ _ Hrows Hj') as (j & Hj & Heq).
    apply (Huniq i j Hj). change (conflicts row 0 j = true). rewrite Heq. exact Hc. }
  destruct Hid as (j & Hj & Hc).
  destruct (rows_lookup _ _ _ _ _ Hrows Hj) as (j' & Hj' & Heq).
  assert (conflicts row id j' = true) as Hc' by (change (conflicts row 0 j' = true); by rewrite <-Heq).
  unfold InsertJob. rewrite (proj2 (exists_where_true _ _)) by eauto.
  unfold jobIDFor. destruct (select_where _ _) as [|[i x] l] eqn:Hs.
  - assert ((id, j') ∈ []) as []%elem_of_nil. rewrite <-Hs. by apply elem_of_select_where.
  - assert ((i, x) ∈ (i, x) :: l) as Hin by left. rewrite <-Hs in Hin.
    apply elem_of_select_where in Hin as [Hx Hcx]. simpl. by rewrite (Huniq2 _ _ Hx Hcx).
Qed.

(* -------------------------------------------------------------------- *)
(** ** Concrete rows *)

(** Two siblings hold a blob the target lacks; the third holder is another
    product's. *)
Definition siblings_db : DB :=
  empty_db
    <| repositories := {[ 1 := mkRepository 1 "lab/a" "registry.lab" "a" "generic" "target";
                          2 := mkRepository 1 "lab/b" "registry.lab" "b" "generic" "target";
                          3 := mkRepository 1 "lab/c" "registry.lab" "c" "generic" "target";
                          4 := mkRepository 2 "lab/d" "registry.lab" "d" "generic" "target" ]} |>
    <| placements := {[ (3, "b1") := mkPlacement 10 "transferred" 50;
                        (2, "b1") := mkPlacement 10 "transferred" 40;
                        (4, "b1") := mkPlacement 10 "transferred" 60 ]} |>.

Lemma MountableFrom_exact_witness :
  MountableFrom 100 1 ["b1"; "b2"] siblings_db !! "b1" = Some "b" ∧
  ∀ id, ¬ mount_source 100 1 siblings_db "b2" id.
Proof.
  split; [vm_compute; reflexivity|].
  pose proof (MountableFrom_exact 100 1 ["b1"; "b2"] siblings_db ltac:(discriminate) "b2") as H.
  assert (MountableFrom 100 1 ["b1"; "b2"] siblings_db !! "b2" = None) as HN by (vm_compute; reflexivity).
  rewrite HN in H. apply H. right. left.
Defined.

(** A plan whose blobs were all at the destination: the first wave with work is
    wave 1. *)
Definition deduplicated_db : DB :=
  AddJobDependencies [mkJobEdge 2 1]
    (example_db [(1, example_job "t" KManifest "m1" JobBlocked 1);
                 (2, example_job "t" KManifest "m2" JobBlocked 2)]
      [("t", example_transfer TransferReady 2)]).

Lemma OpenFirstWave_exact_witness :
  jobs (OpenFirstWave 100 "t" deduplicated_db) !! 1 =
    Some (set_pending 100 1 (example_job "t" KManifest "m1" JobBlocked 1)) ∧
  jobs (OpenFirstWave 100 "t" deduplicated_db) !! 2 = Some (example_job "t" KManifest "m2" JobBlocked 2).
Proof.
  destruct (OpenFirstWave_exact 100 "t" deduplicated_db (example_transfer TransferReady 2) eq_refl)
    as (_ & _ & H).
  assert (min_wave (job_of "t" outstanding) deduplicated_db = Some 1) as Hm by (vm_compute; reflexivity).
  rewrite Hm in H. destruct H as (_ & _ & _ & _ & H). split.
  - apply (H 1 (example_job "t" KManifest "m1" JobBlocked 1) eq_refl).
    split; [reflexivity|]. split; [reflexivity|]. split; [reflexivity|].
    apply dependencies_satisfied_true. vm_compute. reflexivity.
  - apply (H 2 (example_job "t" KManifest "m2" JobBlocked 2) eq_refl).
    intros (_ & _ & Hw & _). discriminate Hw.
Defined.

Definition example_row : JobRow :=
  mkJobRow "t" KBlob "b1" 10 "layer" None 1 2 None 0 50 0 [] "b".

Lemma InsertJob_idempotent_witness :
  ∃ db1, InsertJob 100 example_row (example_db [] [("t", example_transfer TransferPlanning 0)]) = Ok (db1, 1, true) ∧
    InsertJob 200 example_row db1 = Ok (db1, 1, false).
Proof.
  set (db0 := example_db [] [("t", example_transfer TransferPlanning 0)]).
  assert (InsertJob 100 example_row db0 =
    Ok (db0 <| jobs ::= insert 1 (new_job 100 example_row) |>, 1, true)) as Hins by (vm_compute; reflexivity).
  exists (db0 <| jobs ::= insert 1 (new_job 100 example_row) |>). split; [exact Hins|].
  apply (InsertJob_idempotent 100 200 _ _ _ _ _ Hins).
  - intros i i' j j' Hj. discriminate Hj.
  - intros i. destruct (jobs _ !! i); constructor. reflexivity.
Defined.
