(* ===== verification/Planner.v ===== *)
(** * Planning a transfer

    internal/transfer/planner.go: the jobs and edges that move a package's tree
    to its destination.  The walked tree is an argument (treeFor reads it from
    the package's record or the registry), and so is the order in which Go
    ranges over the layout map.  Byte counts stay far below 2^63 and are plain
    integers. *)

From S2P Require Import Prelude GoStrings StateMachine Backoff Schema Dependencies Completion Layout Planning.
Open Scope Z_scope.

(* -------------------------------------------------------------------- *)
(** ** The planner *)

Record Request := mkRequest {
  q_TransferID : string;
  q_Tag : string;
  q_SourceRepoID : Z;
  q_TargetRepoID : Z;
  q_ProductID : Z;
  q_TargetName : string;
  q_TargetRegistry : string;
  q_TargetRegistryType : string;
  q_TargetBasePath : string;
  q_SourceRepository : string;
  q_Priority : Z;
  q_Related : list (string * string) }.

(** What a planning run reports (type Plan). *)
Record PlanReport := mkPlanReport {
  pl_Jobs : Z;
  pl_Blobs : Z;
  pl_Manifests : Z;
  pl_PlannedBytes : Z;
  pl_DedupeSkippedBytes : Z;
  pl_SkippedBlobs : Z;
  pl_MaxWave : Z;
  pl_Dependencies : Z }.

#[export] Instance PlanReport_eta : Eta PlanReport := λ p,
  mkPlanReport (pl_Jobs p) (pl_Blobs p) (pl_Manifests p) (pl_PlannedBytes p)
    (pl_DedupeSkippedBytes p) (pl_SkippedBlobs p) (pl_MaxWave p) (pl_Dependencies p).

Definition RoleWrapper : string := "wrapper".

(** The tags of the root: the release's, then those of its wrappers. Related
    artifacts are (role, tag) pairs. *)
Definition rootTags (req : Request) : list string :=
  q_Tag req :: (filter (λ r : string * string, r.1 = RoleWrapper ∧ r.2 ≠ "") (q_Related req)).*2.

(** [range layout], in the order the map gives: a list of its placements. *)
Definition ensure_site `{RowIds} (req : Request) (st : DB * gmap string Z) (site : Site)
    : result (DB * gmap string Z) :=
  let '(db, out) := st in
  match out !! s_Repository site with
  | Some _ => Ok (db, out)
  | None =>
      if bool_decide (s_Repository site = q_TargetBasePath req) || bool_decide (s_Repository site = "")
      then Ok (db, <[s_Repository site := q_TargetRepoID req]> out)
      else
        '(db, id) ← EnsureRepository (q_ProductID req) "target"
          (String.append (q_TargetName req) (String.append "/" (s_Repository site)))
          (q_TargetRegistry req) (s_Repository site) (q_TargetRegistryType req) db;
        Ok (db, <[s_Repository site := id]> out)
  end.

Definition ensureDestinations `{RowIds} (req : Request) (places : list Placement) (db : DB)
    : result (DB * gmap string Z) :=
  fold_result (ensure_site req) (places ≫= Sites) (db, ∅).

(** The positions that name each position as their parent. *)
Definition childIndex (tree : ExpandedTree) : list (list nat) :=
  foldl (λ out ia, if (0 <=? a_Parent ia.2) && (a_Parent ia.2 <? Z.of_nat (length tree))
                   then alter (λ l, l ++ [ia.1]) (Z.to_nat (a_Parent ia.2)) out else out)
    (replicate (length tree) []) (imap pair tree).

Definition jobKey : Type := Kind * string * string.

(** The ids of the keys that have a job, first occurrences. *)
Fixpoint ids_of (jobIDs : gmap jobKey Z) (seen : list Z) (keys : list jobKey) : list Z :=
  match keys with
  | [] => []
  | k :: keys =>
      match jobIDs !! k with
      | Some id => if bool_decide (id ∈ seen) then ids_of jobIDs seen keys
                   else id :: ids_of jobIDs (id :: seen) keys
      | None => ids_of jobIDs seen keys
      end
  end.

Definition digest_at (tree : ExpandedTree) (i : nat) : string :=
  match tree !! i with Some a => a_Digest a | None => "" end.

(** What the manifest at a position needs at a repository. *)
Definition needed (tree : ExpandedTree) (index : nat) (children : list (list nat)) (repo : string)
    : list jobKey :=
  ((λ b, (KBlob, repo, b_Digest b)) <$> from_option a_Blobs [] (tree !! index)) ++
  ((λ c, (KManifest, repo, digest_at tree c)) <$> default [] (children !! index)).

Definition dependenciesOf (tree : ExpandedTree) (index : nat) (children : list (list nat))
    (repo : string) (jobIDs : gmap jobKey Z) : list Z :=
  ids_of jobIDs [] (needed tree index children repo).

Record blobTarget := mkBlobTarget {
  bt_ref : BlobRef;
  bt_repository : string;
  bt_targetID : Z;
  bt_placed : bool;
  bt_siteRank : nat }.

(** The first loop of blobTargets: the lowest rank of each pair, each
    destination's blobs in order, the destinations in order. *)
Definition blob_key (repo digest : string) : string :=
  String.append repo (String.append "|" digest).

Definition blob_groups : Type := gmap string nat * gmap string (list BlobRef) * list string.

Definition add_blob (rank : nat) (repo : string) (st : blob_groups) (b : BlobRef) : blob_groups :=
  let '(rankOf, byDestination, order) := st in
  let key := blob_key repo (b_Digest b) in
  match rankOf !! key with
  | Some r => (if bool_decide (rank < r)%nat then <[key := rank]> rankOf else rankOf, byDestination, order)
  | None =>
      (<[key := rank]> rankOf,
       <[repo := default [] (byDestination !! repo) ++ [b]]> byDestination,
       match byDestination !! repo with Some _ => order | None => order ++ [repo] end)
  end.

(** The (artifact, rank, repository) triples of the loops, in order. *)
Definition artifact_sites (layout : gmap string Placement) (a : ExpandedArtifact) : list (nat * Site) :=
  imap pair (match layout !! a_Digest a with Some p => Sites p | None => [] end).

Definition group_blobs (tree : ExpandedTree) (layout : gmap string Placement) : blob_groups :=
  foldl (λ st a, foldl (λ st rs, foldl (add_blob rs.1 (s_Repository rs.2)) st (a_Blobs a)) st
                   (artifact_sites layout a)) (∅, ∅, []) tree.

Definition targets_at (now : Z) (rankOf : gmap string nat) (byDestination : gmap string (list BlobRef))
    (destinations : gmap string Z) (db : DB) (out : list blobTarget) (repo : string)
    : result (list blobTarget) :=
  let refs := default [] (byDestination !! repo) in
  targetID ← of_option (EMissingRow "destinations" repo) (destinations !! repo);
  let placed := PlacedDigests now targetID (b_Digest <$> refs) db in
  Ok (out ++ ((λ b, mkBlobTarget b repo targetID (bool_decide (b_Digest b ∈ placed))
                      (default 0%nat (rankOf !! blob_key repo (b_Digest b)))) <$> refs)).

Definition blobTargets (now : Z) (tree : ExpandedTree) (layout : gmap string Placement)
    (destinations : gmap string Z) (db : DB) : result (list blobTarget) :=
  let '(rankOf, byDestination, order) := group_blobs tree layout in
  fold_result (targets_at now rankOf byDestination destinations db) order [].

(** What the loops of Plan thread through. *)
Record plan_state := mkPlanState {
  ps_db : DB;
  ps_ids : gmap jobKey Z;
  ps_edges : list JobEdge;
  ps_plan : PlanReport }.

#[export] Instance plan_state_eta : Eta plan_state := λ s,
  mkPlanState (ps_db s) (ps_ids s) (ps_edges s) (ps_plan s).

Definition blob_row (req : Request) (b : blobTarget) : JobRow :=
  mkJobRow (q_TransferID req) KBlob (b_Digest (bt_ref b)) (b_SizeBytes (bt_ref b))
    (b_MediaType (bt_ref b)) None (q_SourceRepoID req) (bt_targetID b) (Some JobPending) 0
    (q_Priority req) (Z.of_nat (bt_siteRank b)) [] (bt_repository b).

Definition plan_blob `{RowIds} (now : Z) (req : Request) (st : plan_state) (b : blobTarget)
    : result plan_state :=
  let size := b_SizeBytes (bt_ref b) in
  if bt_placed b then
    Ok (st <| ps_plan ::= λ p, p <| pl_SkippedBlobs := pl_SkippedBlobs p + 1 |>
                                <| pl_DedupeSkippedBytes := pl_DedupeSkippedBytes p + size |> |>)
  else
    '(db, id, created) ← InsertJob now (blob_row req b) (ps_db st);
    Ok (st <| ps_db := db |>
           <| ps_ids ::= insert (KBlob, bt_repository b, b_Digest (bt_ref b)) id |>
           <| ps_plan ::= λ p, if created : bool then
                p <| pl_Jobs := pl_Jobs p + 1 |> <| pl_Blobs := pl_Blobs p + 1 |>
                  <| pl_PlannedBytes := pl_PlannedBytes p + size |> else p |>).

Definition max_depth (tree : ExpandedTree) : Z := foldr (λ a m, Z.max (a_Depth a) m) 0 tree.

Definition wave_of (tree : ExpandedTree) (a : ExpandedArtifact) : Z := max_depth tree - a_Depth a + 1.

Definition manifest_row (req : Request) (tree : ExpandedTree) (a : ExpandedArtifact) (rank : nat)
    (site : Site) (targetID : Z) (needs : list Z) : JobRow :=
  mkJobRow (q_TransferID req) KManifest (a_Digest a) (a_SizeBytes a) (a_MediaType a) (Some (a_ID a))
    (q_SourceRepoID req) targetID
    (Some (if bool_decide (needs = []) then JobPending else JobBlocked))
    (wave_of tree a) (q_Priority req) (Z.of_nat rank) (s_Tags site) (s_Repository site).

Definition plan_site `{RowIds} (now : Z) (req : Request) (tree : ExpandedTree)
    (destinations : gmap string Z) (i : nat) (a : ExpandedArtifact) (st : plan_state)
    (rs : nat * Site) : result plan_state :=
  let '(rank, site) := rs in
  targetID ← of_option (EMissingRow "destinations" (s_Repository site))
               (destinations !! s_Repository site);
  let needs := dependenciesOf tree i (childIndex tree) (s_Repository site) (ps_ids st) in
  '(db, id, created) ← InsertJob now (manifest_row req tree a rank site targetID needs) (ps_db st);
  Ok (st <| ps_db := db |>
         <| ps_ids ::= insert (KManifest, s_Repository site, a_Digest a) id |>
         <| ps_edges ::= λ es, es ++ (mkJobEdge id <$> needs) |>
         <| ps_plan ::= λ p, if created : bool then
              p <| pl_Jobs := pl_Jobs p + 1 |> <| pl_Manifests := pl_Manifests p + 1 |>
                <| pl_PlannedBytes := pl_PlannedBytes p + a_SizeBytes a |> else p |>).

Definition plan_artifact `{RowIds} (now : Z) (req : Request) (tree : ExpandedTree)
    (layout : gmap string Placement) (destinations : gmap string Z) (st : plan_state)
    (ia : nat * ExpandedArtifact) : result plan_state :=
  let '(i, a) := ia in
  fold_result (plan_site now req tree destinations i a) (artifact_sites layout a)
    (st <| ps_plan ::= λ p, p <| pl_MaxWave := Z.max (pl_MaxWave p) (wave_of tree a) |> |>).

Definition plan_options (req : Request) : LayoutOptions :=
  mkLayoutOptions (q_TargetBasePath req) (q_SourceRepository req) (rootTags req).

(** The two loops, from the database after ensureDestinations. *)
Definition plan_jobs `{RowIds} (now : Z) (req : Request) (tree : ExpandedTree)
    (layout : gmap string Placement) (destinations : gmap string Z) (db : DB) : result plan_state :=
  blobs ← blobTargets now tree layout destinations db;
  st ← fold_result (plan_blob now req) blobs (mkPlanState db ∅ [] (mkPlanReport 0 0 0 0 0 0 0 0));
  fold_result (plan_artifact now req tree layout destinations) (rev (imap pair tree)) st.

(** Plan for a walked tree. [places] is the order in which the layout map is
    ranged over. *)
Definition Plan `{RowIds} (now : Z) (req : Request) (tree : ExpandedTree) (places : list Placement)
    (db : DB) : result (DB * PlanReport) :=
  if bool_decide (q_TransferID req = "") then Err (ETransferNotFound "")
  else
    let layout := ResolveLayout tree (plan_options req) in
    '(db, destinations) ← ensureDestinations req places db;
    st ← plan_jobs now req tree layout destinations db;
    let plan := (ps_plan st) <| pl_Dependencies := Z.of_nat (length (ps_edges st)) |> in
    let totals := mkPlanTotals (pl_Jobs plan) (pl_PlannedBytes plan) (pl_DedupeSkippedBytes plan)
                    0 (pl_MaxWave plan) in
    Ok (RecordPlan now (q_TransferID req) totals (AddJobDependencies (ps_edges st) (ps_db st)), plan).

(* -------------------------------------------------------------------- *)
(** ** Lemmas: the tree *)

Lemma wave_of_pos tree a : a ∈ tree → 1 ≤ wave_of tree a.
Proof.
  intros Ha. unfold wave_of. assert (a_Depth a ≤ max_depth tree); [|lia].
  induction tree as [|x tree IH]; simpl; [by apply elem_of_nil in Ha|].
  apply elem_of_cons in Ha as [-> |Ha]; [lia|]. specialize (IH Ha). simpl in IH. lia.
Qed.

Lemma elem_of_ids_of jobIDs seen keys id :
  id ∈ ids_of jobIDs seen keys ↔ id ∉ seen ∧ ∃ k, k ∈ keys ∧ jobIDs !! k = Some id.
Proof.
  revert seen. induction keys as [|k keys IH]; intros seen; simpl.
  { rewrite elem_of_nil. split; [done|]. by intros (_ & k & []%elem_of_nil & _). }
  setoid_rewrite elem_of_cons. destruct (jobIDs !! k) as [i|] eqn:Hk.
  - case_bool_decide as Hi.
    + rewrite IH. naive_solver.
    + rewrite elem_of_cons, IH, elem_of_cons. destruct (decide (id = i)); naive_solver.
  - rewrite IH. naive_solver.
Qed.

Lemma childIndex_spec tree i c :
  c ∈ default [] (childIndex tree !! i) ↔
  ∃ a, tree !! c = Some a ∧ a_Parent a = Z.of_nat i ∧ (i < length tree)%nat.
Proof.
  unfold childIndex.
  assert (∀ l, (∀ ia, ia ∈ l → tree !! ia.1 = Some ia.2) →
    let out := foldl (λ out ia, if (0 <=? a_Parent ia.2) && (a_Parent ia.2 <? Z.of_nat (length tree))
      then alter (λ l, l ++ [ia.1]) (Z.to_nat (a_Parent ia.2)) out else out)
      (replicate (length tree) []) l in
    length out = length tree ∧
    (c ∈ default [] (out !! i) ↔
     ∃ a, (c, a) ∈ l ∧ a_Parent a = Z.of_nat i ∧ (i < length tree)%nat)) as Hgen.
  { induction l as [|[k x] l IH] using rev_ind; intros Hl; cbv zeta.
    - simpl. split; [apply length_replicate|]. destruct (decide (i < length tree)%nat).
      + rewrite lookup_replicate_2 by done. simpl. set_solver.
      + rewrite lookup_ge_None_2 by (rewrite length_replicate; lia). simpl. set_solver.
    - rewrite foldl_snoc. destruct IH as [Hlen IH].
      { intros ia Hia. apply Hl, elem_of_app. by left. }
      set (out := foldl _ _ l) in *. cbn [fst snd].
      setoid_rewrite elem_of_app. setoid_rewrite list_elem_of_singleton.
      destruct ((0 <=? a_Parent x) && (a_Parent x <? Z.of_nat (length tree))) eqn:Hb.
      + apply andb_true_iff in Hb as [H1 H2]. rewrite length_alter. split; [done|].
        destruct (decide (Z.to_nat (a_Parent x) = i)) as [<-|Hne].
        * rewrite list_lookup_alter_eq.
          destruct (lookup_lt_is_Some_2 out (Z.to_nat (a_Parent x))) as [ys Hys]; [lia|].
          rewrite Hys in *. simpl in *. rewrite elem_of_app, list_elem_of_singleton, IH. split.
          -- intros [(a & ? & ? & ?)| ->]; [by eauto|]. exists x. split; [by right|]. lia.
          -- intros (a & [?|[= -> ->]] & ? & ?); [left; by eauto|by right].
        * rewrite list_lookup_alter_ne by done. rewrite IH. split; [naive_solver|].
          intros (a & [?|[= -> ->]] & ? & ?); [by eauto|lia].
      + apply andb_false_iff in Hb. split; [done|]. rewrite IH. split; [naive_solver|].
        intros (a & [?|[= -> ->]] & ? & ?); [by eauto|lia]. }
  destruct (Hgen (imap pair tree)) as [_ Hiff].
  { intros [k x] (j & y & [= -> ->] & Hj)%elem_of_lookup_imap_1. done. }
  rewrite Hiff. split; intros (a & Ha & Hrest); exists a; (split; [|done]).
  - apply elem_of_lookup_imap_1 in Ha as (j & y & [= -> ->] & Hj). done.
  - apply elem_of_lookup_imap. by exists c, a.
Qed.

(** The keys a manifest needs: its blobs' and its children's, at its site. *)
Lemma elem_of_needed tree i a repo k :
  tree !! i = Some a →
  k ∈ needed tree i (childIndex tree) repo ↔
  (∃ b, b ∈ a_Blobs a ∧ k = (KBlob, repo, b_Digest b)) ∨
  (∃ c x, tree !! c = Some x ∧ a_Parent x = Z.of_nat i ∧ k = (KManifest, repo, a_Digest x)).
Proof.
  intros Hi. unfold needed. rewrite Hi, elem_of_app, !list_elem_of_fmap. simpl.
  apply lookup_lt_Some in Hi as Hlt. setoid_rewrite childIndex_spec. unfold digest_at. split.
  - intros [(b & -> & Hb)|(c & -> & x & Hx & Hp & _)]; [by eauto|]. right.
    exists c, x. by rewrite Hx.
  - intros [(b & Hb & ->)|(c & x & Hx & Hp & ->)]; [left; by eauto|]. right.
    exists c. rewrite Hx. eauto.
Qed.

(* -------------------------------------------------------------------- *)
(** ** Lemmas: blobs and their destinations *)

Definition bar : Ascii.ascii := Eval cbv in Ascii.ascii_of_nat 124.

Lemma blob_key_inj repo d repo' d' :
  has_char bar d = false → has_char bar d' = false →
  blob_key repo d = blob_key repo' d' → repo = repo' ∧ d = d'.
Proof.
  intros Hd Hd' Heq. apply (f_equal (cut_last bar)) in Heq. unfold blob_key in Heq.
  change (String.append "|" d) with (String bar d) in Heq.
  change (String.append "|" d') with (String bar d') in Heq.
  rewrite !cut_last_app in Heq by done. by simplify_eq.
Qed.

(** A destination and a digest the grouping has. *)
Definition grouped (repo d : string) (st : blob_groups) : Prop :=
  ∃ b, b ∈ default [] (st.1.2 !! repo) ∧ b_Digest b = d ∧ repo ∈ st.2.

Definition groups_wf (st : blob_groups) : Prop :=
  (∀ key, is_Some (st.1.1 !! key) →
     ∃ repo d, key = blob_key repo d ∧ has_char bar d = false ∧ grouped repo d st) ∧
  (∀ repo, is_Some (st.1.2 !! repo) → repo ∈ st.2).

Definition groups_grow (st st' : blob_groups) : Prop :=
  ∀ repo d, grouped repo d st → grouped repo d st'.

#[export] Instance groups_grow_preorder : PreOrder groups_grow.
Proof. split; [by intros st repo d|]. intros s1 s2 s3 H1 H2 repo d Hg. by apply H2, H1. Qed.

Lemma add_blob_grouped rank repo b st :
  has_char bar (b_Digest b) = false → groups_wf st →
  groups_wf (add_blob rank repo st b) ∧ groups_grow st (add_blob rank repo st b) ∧
  grouped repo (b_Digest b) (add_blob rank repo st b).
Proof.
  intros Hbar [Hk Ho]. destruct st as [[rankOf byDest] order]. unfold add_blob. simpl in *.
  destruct (rankOf !! blob_key repo (b_Digest b)) as [r|] eqn:Hkey.
  - destruct (Hk _ (mk_is_Some _ _ Hkey)) as (repo' & d' & Heq & Hd' & Hg).
    apply blob_key_inj in Heq as [<- <-]; [|done..]. split_and!; [|by intros ??|done].
    split; [|done]. simpl. intros key Hs. destruct (bool_decide _); [|by apply Hk].
    apply lookup_insert_is_Some in Hs as [<-|[_ Hs]]; [by eauto|by apply Hk].
  - set (order' := match byDest !! repo with Some _ => order | None => order ++ [repo] end).
    assert (∀ r, r ∈ order → r ∈ order') as Hsub.
    { intros r Hr. unfold order'. destruct (byDest !! repo); [done|]. set_solver. }
    assert (repo ∈ order') as Hin.
    { unfold order'. destruct (byDest !! repo) eqn:E; [by apply Ho|]. set_solver. }
    assert (groups_grow (rankOf, byDest, order)
      (<[blob_key repo (b_Digest b):=rank]> rankOf,
       <[repo:=default [] (byDest !! repo) ++ [b]]> byDest, order')) as Hgrow.
    { intros r d (b' & Hb' & Hd & Hr). exists b'. simpl in *. split; [|by auto].
      destruct (decide (repo = r)) as [->|Hne].
      - rewrite lookup_insert_eq. simpl. apply elem_of_app. by left.
      - by rewrite lookup_insert_ne. }
    assert (grouped repo (b_Digest b)
      (<[blob_key repo (b_Digest b):=rank]> rankOf,
       <[repo:=default [] (byDest !! repo) ++ [b]]> byDest, order')) as Hself.
    { exists b. simpl. rewrite lookup_insert_eq. simpl. split; [|done].
      apply elem_of_app. right. by apply list_elem_of_singleton. }
    split; [|done]. split; simpl.
    + intros key [<-|[_ Hs]]%lookup_insert_is_Some; [by eauto|].
      destruct (Hk _ Hs) as (r & d & -> & Hd & Hg). exists r, d. split; [done|]. split; [done|].
      by apply Hgrow.
    + intros r [<-|[_ Hs]]%lookup_insert_is_Some; [done|]. by apply Hsub, Ho.
Qed.

Lemma group_blobs_grouped tree layout :
  (∀ a b, a ∈ tree → b ∈ a_Blobs a → has_char bar (b_Digest b) = false) →
  ∀ a rs b, a ∈ tree → rs ∈ artifact_sites layout a → b ∈ a_Blobs a →
    grouped (s_Repository rs.2) (b_Digest b) (group_blobs tree layout).
Proof.
  intros Hbar.
  destruct (foldl_reaches
    (λ st a, foldl (λ st rs, foldl (add_blob rs.1 (s_Repository rs.2)) st (a_Blobs a)) st
               (artifact_sites layout a)) groups_wf groups_grow
    (λ a st, ∀ rs b, rs ∈ artifact_sites layout a → b ∈ a_Blobs a →
       grouped (s_Repository rs.2) (b_Digest b) st) tree (∅, ∅, [])) as (_ & _ & Hall).
  - intros a s Ha HW. destruct (foldl_reaches
      (λ st rs, foldl (add_blob rs.1 (s_Repository rs.2)) st (a_Blobs a)) groups_wf groups_grow
      (λ rs st, ∀ b, b ∈ a_Blobs a → grouped (s_Repository rs.2) (b_Digest b) st)
      (artifact_sites layout a) s) as (H1 & H2 & H3); [| |done|].
    + intros rs s' Hrs HW'. apply (foldl_reaches (add_blob rs.1 (s_Repository rs.2))
        groups_wf groups_grow (λ b st, grouped (s_Repository rs.2) (b_Digest b) st)
        (a_Blobs a) s'); [| |done].
      * intros b s'' Hb HW''. apply add_blob_grouped; [by eapply Hbar|done].
      * intros b s1 s2 Hg. by apply Hg.
    + intros rs s1 s2 Hg Hs b Hb. by apply Hg, Hs.
    + split; [exact H1|]. split; [exact H2|]. intros rs b Hrs. by apply H3.
  - intros a s1 s2 Hg Hs rs b Hrs Hb. by apply Hg, Hs.
  - split; simpl; intros k Hk; rewrite lookup_empty in Hk; by destruct Hk.
  - intros a rs b Ha. by apply Hall.
Qed.

Lemma blobTargets_spec now tree layout destinations db blobs :
  blobTargets now tree layout destinations db = Ok blobs →
  (∀ t, t ∈ blobs → destinations !! bt_repository t = Some (bt_targetID t) ∧
     (bt_placed t = true → ∃ p, placements db !! (bt_targetID t, b_Digest (bt_ref t)) = Some p ∧
        now - placementTTLSeconds * Second < bp_verified p)) ∧
  ((∀ a b, a ∈ tree → b ∈ a_Blobs a → has_char bar (b_Digest b) = false) →
   ∀ a rs b, a ∈ tree → rs ∈ artifact_sites layout a → b ∈ a_Blobs a →
     ∃ t, t ∈ blobs ∧ bt_repository t = s_Repository rs.2 ∧ b_Digest (bt_ref t) = b_Digest b).
Proof.
  unfold blobTargets. pose proof (group_blobs_grouped tree layout) as Hgr. revert Hgr.
  destruct (group_blobs tree layout) as [[rankOf byDest] order]. unfold grouped. simpl. intros Hgr Hf.
  assert ((∀ t, t ∈ blobs → destinations !! bt_repository t = Some (bt_targetID t) ∧
      (bt_placed t = true → ∃ p, placements db !! (bt_targetID t, b_Digest (bt_ref t)) = Some p ∧
        now - placementTTLSeconds * Second < bp_verified p)) ∧
    (∀ repo b, repo ∈ order → b ∈ default [] (byDest !! repo) →
       ∃ t, t ∈ blobs ∧ bt_repository t = repo ∧ bt_ref t = b)) as [H1 H2].
  { revert Hf. apply (fold_result_ind (λ pre out,
      (∀ t, t ∈ out → destinations !! bt_repository t = Some (bt_targetID t) ∧
        (bt_placed t = true → ∃ p, placements db !! (bt_targetID t, b_Digest (bt_ref t)) = Some p ∧
          now - placementTTLSeconds * Second < bp_verified p)) ∧
      (∀ repo b, repo ∈ pre → b ∈ default [] (byDest !! repo) →
         ∃ t, t ∈ out ∧ bt_repository t = repo ∧ bt_ref t = b))).
    { split; [by intros t []%elem_of_nil|by intros r b []%elem_of_nil]. }
    intros pre repo post out out' _ [Hout Hpre]. unfold targets_at.
    destruct (destinations !! repo) as [target|] eqn:Hdest; [simpl|done]. intros [= <-]. split.
    - intros t [Ht|Ht]%elem_of_app; [by apply Hout|].
      apply list_elem_of_fmap in Ht as (b & -> & Hb). simpl. split; [done|].
      intros Hpl%bool_decide_eq_true. by apply elem_of_PlacedDigests in Hpl as [_ Hpl].
    - intros r b [Hr| ->%list_elem_of_singleton]%elem_of_app Hb.
      + destruct (Hpre r b Hr Hb) as (t & Ht & ?). exists t. split; [apply elem_of_app; by left|done].
      + eexists. split; [apply elem_of_app; right; apply list_elem_of_fmap; by exists b|done]. }
  split; [done|]. intros Hbar a rs b Ha Hrs Hb.
  destruct (Hgr Hbar a rs b Ha Hrs Hb) as (b' & Hb' & Hd & Hin).
  destruct (H2 _ _ Hin Hb') as (t & Ht & Hrepo & Href). exists t. by rewrite Href.
Qed.

(* -------------------------------------------------------------------- *)
(** ** The loops of Plan

    What the two loops have established after some blobs and some (position,
    site) pairs, on top of a database without jobs of the transfer. *)

Section loops.
Context `{RowIds} (now : Z) (req : Request) (tree : ExpandedTree).
Context (layout : gmap string Placement) (destinations : gmap string Z) (db0 : DB).

(** The walk lists a digest once, children deeper than their parents. *)
Context (Hdigests : NoDup (a_Digest <$> tree)).
Context (Hdepth : ∀ c i a b, tree !! c = Some a → tree !! i = Some b →
  a_Parent a = Z.of_nat i → (i < c)%nat ∧ a_Depth b < a_Depth a).
(** Two destinations are two rows. *)
Context (Hinj : ∀ r r' x, destinations !! r = Some x → destinations !! r' = Some x → r = r').
Context (Hunplanned : ∀ i j, jobs db0 !! i = Some j → j_transfer j ≠ q_TransferID req).

Implicit Types (st : plan_state) (done : list (nat * Site)) (bdone : list blobTarget).

(** A row of the plan: a blob to copy now, or the manifest of a pair done. *)
Definition planned_row done (j : job) : Prop :=
  j_transfer j = q_TransferID req ∧
  match j_kind j with
  | KBlob => j_state j = JobPending ∧ j_wave j = 0
  | KManifest => j_state j ∈ [JobPending; JobBlocked] ∧
      ∃ i a site, (i, site) ∈ done ∧ tree !! i = Some a ∧ j_digest j = a_Digest a ∧
        j_wave j = wave_of tree a ∧ destinations !! s_Repository site = Some (j_target_repo j)
  end.

(** The first site of an artifact in a repository. *)
Definition first_site done (i : nat) (repo : string) (first : Site) : Prop :=
  head (filter (λ x : nat * Site, x.1 = i ∧ s_Repository x.2 = repo) done) = Some (i, first).

(** The manifest job of a pair, with an edge to every job it needs.  Two sites
    of an artifact in one repository share the job of the first. *)
Definition covered_site done st (i : nat) (site : Site) : Prop :=
  ∃ a m jm first, tree !! i = Some a ∧ ps_ids st !! (KManifest, s_Repository site, a_Digest a) = Some m ∧
    jobs (ps_db st) !! m = Some jm ∧ first_site done i (s_Repository site) first ∧
    j_target_tags jm = s_Tags first ∧
    ∀ k d, k ∈ needed tree i (childIndex tree) (s_Repository site) → ps_ids st !! k = Some d →
      mkJobEdge m d ∈ ps_edges st.

Record progress bdone done st : Prop := {
  pr_frame : ps_db st = db0 <| jobs := jobs (ps_db st) |>;
  pr_old : jobs db0 ⊆ jobs (ps_db st);
  pr_new i j : jobs (ps_db st) !! i = Some j → jobs db0 !! i = None → 0 < i ∧ planned_row done j;
  pr_ids k r d id : ps_ids st !! (k, r, d) = Some id → ∃ j, jobs (ps_db st) !! id = Some j ∧
    j_transfer j = q_TransferID req ∧ j_kind j = k ∧ j_digest j = d ∧
    destinations !! r = Some (j_target_repo j);
  pr_edges e : e ∈ ps_edges st → ∃ jm jd, jobs (ps_db st) !! JobID e = Some jm ∧
    jobs (ps_db st) !! DependsOnID e = Some jd ∧ jobs db0 !! JobID e = None ∧
    j_state jm = JobBlocked ∧ j_transfer jd = q_TransferID req ∧ 0 ≤ j_wave jd < j_wave jm;
  pr_blobs b : b ∈ bdone → bt_placed b = false →
    is_Some (ps_ids st !! (KBlob, bt_repository b, b_Digest (bt_ref b)));
  pr_own k j r : jobs (ps_db st) !! k = Some j → j_transfer j = q_TransferID req → j_kind j = KManifest →
    destinations !! r = Some (j_target_repo j) → ps_ids st !! (KManifest, r, j_digest j) = Some k;
  pr_covered i site : (i, site) ∈ done → covered_site done st i site }.

Lemma transfer_new bdone done st i j :
  progress bdone done st → jobs (ps_db st) !! i = Some j → j_transfer j = q_TransferID req →
  jobs db0 !! i = None ∧ 0 < i ∧ planned_row done j.
Proof.
  intros Hp Hj Ht. assert (jobs db0 !! i = None) as Hnew.
  { destruct (jobs db0 !! i) as [j0|] eqn:E; [|done].
    pose proof (lookup_weaken _ _ _ _ E (pr_old _ _ _ Hp)) as E'. simplify_eq.
    by destruct (Hunplanned _ _ E). }
  split; [done|]. by eapply pr_new.
Qed.

Lemma planned_row_mono done done' j :
  (∀ p, p ∈ done → p ∈ done') → planned_row done j → planned_row done' j.
Proof.
  intros Hd [Ht Hj]. split; [done|]. destruct (j_kind j); [done|]. naive_solver.
Qed.

Lemma progress_start plan :
  progress [] [] (mkPlanState db0 ∅ [] plan).
Proof.
  split; simpl.
  - by destruct db0.
  - done.
  - intros i j Hj Hn. congruence.
  - intros k r d id Hk. by rewrite lookup_empty in Hk.
  - by intros e []%elem_of_nil.
  - by intros b []%elem_of_nil.
  - intros k j r Hj Ht. by destruct (Hunplanned _ _ Hj).
  - by intros i site []%elem_of_nil.
Qed.

Lemma plan_blob_progress bdone st b st' :
  destinations !! bt_repository b = Some (bt_targetID b) →
  progress bdone [] st → plan_blob now req st b = Ok st' → progress (bdone ++ [b]) [] st'.
Proof.
  intros Hdest Hp. unfold plan_blob. destruct (bt_placed b) eqn:Hpl.
  { intros [= <-]. destruct Hp. split; try done; simpl.
    intros b' [Hb'| ->%list_elem_of_singleton]%elem_of_app Hpl'; [by auto|congruence]. }
  destruct (InsertJob _ _ _) as [[[db id] created]|e] eqn:Hins; [simpl|done]. intros [= <-].
  apply InsertJob_Ok in Hins.
  assert (∃ j, jobs db !! id = Some j ∧ conflicts (blob_row req b) id j = true) as (j & Hj & Hc).
  { destruct Hins as [(_ & -> & ?)|(_ & -> & Hfree & _)]; [done|]. eexists.
    split; [apply lookup_insert_eq|]. by apply conflicts_true. }
  assert (jobs (ps_db st) ⊆ jobs db) as Hsub.
  { destruct Hins as [(_ & -> & ?)|(_ & -> & Hfree & _)]; [done|]. by apply insert_subseteq. }
  assert (∀ i j, jobs db !! i = Some j → jobs db0 !! i = None → 0 < i ∧ planned_row [] j) as Hnew.
  { intros i j' Hj' Hn. destruct Hins as [(_ & -> & ?)|(_ & -> & _ & Hpos & _)]; [by eapply pr_new|].
    simpl in Hj'. apply lookup_insert_Some in Hj' as [[<- <-]|[_ Hj']]; [|by eapply pr_new].
    split; [done|]. by split. }
  apply conflicts_true in Hc as (Ht & Hk & Hd & Hr). split; simpl.
  - destruct Hins as [(_ & -> & ?)|(_ & -> & _)]; [by apply Hp|]. simpl. by rewrite (pr_frame _ _ _ Hp).
  - etrans; [by apply Hp|done].
  - done.
  - intros k r d i. rewrite lookup_insert_Some. intros [[[= <- <- <-] <-]|[_ Hi]].
    + exists j. by rewrite Hr.
    + destruct (pr_ids _ _ _ Hp _ _ _ _ Hi) as (j' & Hj' & Hrest). exists j'.
      split; [by eapply lookup_weaken|done].
  - intros e He. destruct (pr_edges _ _ _ Hp _ He) as (jm & jd & Hm & Hjd & Hrest).
    exists jm, jd. split; [by eapply lookup_weaken|]. split; [by eapply lookup_weaken|done].
  - intros b' [Hb'| ->%list_elem_of_singleton]%elem_of_app Hpl'; apply lookup_insert_is_Some;
      [|by left]. destruct (decide ((KBlob, bt_repository b, b_Digest (bt_ref b)) =
        (KBlob, bt_repository b', b_Digest (bt_ref b')))); [by left|right].
    split; [done|]. by apply (pr_blobs _ _ _ Hp).
  - intros k j' r Hj' Ht' Hk' Hr'. rewrite lookup_insert_ne by done.
    destruct Hins as [(_ & -> & ?)|(_ & -> & _)]; [by eapply pr_own|].
    simpl in Hj'. apply lookup_insert_Some in Hj' as [[<- <-]|[_ Hj']]; [done|by eapply pr_own].
  - by intros i site []%elem_of_nil.
Qed.

Lemma digest_position i i' a a' :
  tree !! i = Some a → tree !! i' = Some a' → a_Digest a = a_Digest a' → i = i' ∧ a = a'.
Proof.
  intros Hi Hi' Hd. assert (i = i') as <-; [|by simplify_eq].
  rewrite NoDup_alt in Hdigests. apply (Hdigests i i' (a_Digest a)); rewrite list_lookup_fmap;
    [|rewrite Hd]; by apply fmap_Some_2.
Qed.

(** What a manifest needs is planned in a lower wave. *)
Lemma needed_lower bdone done st i a repo d :
  tree !! i = Some a → progress bdone done st →
  d ∈ dependenciesOf tree i (childIndex tree) repo (ps_ids st) →
  ∃ jd, jobs (ps_db st) !! d = Some jd ∧ j_transfer jd = q_TransferID req ∧
    0 ≤ j_wave jd < wave_of tree a.
Proof.
  intros Hi Hp. unfold dependenciesOf. rewrite elem_of_ids_of.
  intros (_ & k & Hk%(elem_of_needed _ _ a) & Hid); [|done].
  pose proof (wave_of_pos tree a (list_elem_of_lookup_2 _ _ _ Hi)) as Hpos.
  assert (∃ k0 d0, ps_ids st !! (k0, repo, d0) = Some d ∧
    (k0 = KBlob ∨ ∃ c x, tree !! c = Some x ∧ a_Parent x = Z.of_nat i ∧
      k0 = KManifest ∧ d0 = a_Digest x)) as (k0 & d0 & Hid0 & Hkind).
  { destruct Hk as [(b & _ & ->)|(c & x & ? & ? & ->)]; naive_solver. }
  destruct (pr_ids _ _ _ Hp _ _ _ _ Hid0) as (jd & Hjd & Ht & Hkd & Hdd & _).
  exists jd. split; [done|]. split; [done|].
  destruct (transfer_new _ _ _ _ _ Hp Hjd Ht) as (_ & _ & _ & Hrow). rewrite Hkd in Hrow.
  destruct Hkind as [->|(c & x & Hc & Hpar & -> & ->)]; [lia|].
  destruct Hrow as (_ & i' & a' & _ & _ & Hi' & Hd' & Hw & _).
  destruct (digest_position c i' x a') as [_ <-]; [done|done|congruence|].
  pose proof (wave_of_pos tree x (list_elem_of_lookup_2 _ _ _ Hc)).
  destruct (Hdepth c i x a Hc Hi Hpar). unfold wave_of in *. lia.
Qed.

Lemma first_site_more done more i repo first :
  first_site done i repo first → first_site (done ++ more) i repo first.
Proof. unfold first_site. rewrite filter_app. by destruct (filter _ done). Qed.

Lemma first_site_new done i site :
  (∀ s', (i, s') ∈ done → s_Repository s' ≠ s_Repository site) →
  first_site (done ++ [(i, site)]) i (s_Repository site) site.
Proof.
  intros Hnew. unfold first_site. rewrite filter_app, filter_none.
  - by rewrite filter_cons_True.
  - intros [i' s'] Hin [Hi Heq]. simpl in *. subst. by eapply Hnew.
Qed.

(** What a pair needs is not the job of a pair planned with it or after it. *)
Lemma needed_not_own i a i' repo k repo' :
  tree !! i = Some a → (i ≤ i')%nat → is_Some (tree !! i') →
  k ∈ needed tree i' (childIndex tree) repo → k ≠ (KManifest, repo', a_Digest a).
Proof.
  intros Hi Hle [a' Hi'] Hk ->. rewrite (elem_of_needed _ _ _ _ _ Hi') in Hk.
  destruct Hk as [(b & Hb & Heq)|(c & x & Hc & Hpar & Heq)]; [done|]. injection Heq as _ Hx.
  destruct (digest_position i c a x) as [<- <-]; [done..|].
  destruct (Hdepth _ _ _ _ Hc Hi' Hpar). lia.
Qed.

(** A second site of an artifact in one repository finds the job of the first,
    and the edges it would add are there. *)
Lemma plan_site_again bdone done st i a rank site targetID needs id j :
  tree !! i = Some a → destinations !! s_Repository site = Some targetID →
  needs = dependenciesOf tree i (childIndex tree) (s_Repository site) (ps_ids st) →
  progress bdone done st → jobs (ps_db st) !! id = Some j →
  conflicts (manifest_row req tree a rank site targetID needs) id j = true →
  ps_ids st !! (KManifest, s_Repository site, a_Digest a) = Some id ∧
  covered_site (done ++ [(i, site)]) st i site ∧ ∀ d, d ∈ needs → mkJobEdge id d ∈ ps_edges st.
Proof.
  intros Hi Hdest -> Hp Hj (Ht & Hk & Hd & Hr)%conflicts_true. simpl in *.
  assert (ps_ids st !! (KManifest, s_Repository site, a_Digest a) = Some id) as Hid.
  { rewrite <-Hd. eapply pr_own; [done..|]. by rewrite Hr. }
  destruct (transfer_new _ _ _ _ _ Hp Hj Ht) as (_ & _ & _ & Hrow). rewrite Hk in Hrow.
  destruct Hrow as (_ & i' & a' & s' & Hdone & Hi' & Hd' & _ & Hr').
  destruct (digest_position i' i a' a) as [-> ->]; [done|done|congruence|].
  assert (s_Repository s' = s_Repository site) as Hs by (eapply Hinj; [done|congruence]).
  destruct (pr_covered _ _ _ Hp _ _ Hdone) as (a'' & m & jm & first & Hi'' & Hm & Hjm & Hfirst & Htags & Hedges).
  rewrite Hs in *. simplify_eq. split; [done|]. split.
  - exists a, id, j, first. split_and!; [done..|by apply first_site_more|done|done].
  - intros d. unfold dependenciesOf. rewrite elem_of_ids_of. intros (_ & k & Hk' & Hd''). by eapply Hedges.
Qed.

(** The edges of a new job: from it, to what it needs. *)
Lemma edges_created bdone done st i a rank site targetID id needs :
  needs = dependenciesOf tree i (childIndex tree) (s_Repository site) (ps_ids st) →
  let row := new_job now (manifest_row req tree a rank site targetID needs) in
  tree !! i = Some a → progress bdone done st → jobs (ps_db st) !! id = None →
  ∀ e, e ∈ ps_edges st ++ (mkJobEdge id <$> needs) →
  ∃ jm jd, <[id := row]> (jobs (ps_db st)) !! JobID e = Some jm ∧
    <[id := row]> (jobs (ps_db st)) !! DependsOnID e = Some jd ∧ jobs db0 !! JobID e = None ∧
    j_state jm = JobBlocked ∧ j_transfer jd = q_TransferID req ∧ 0 ≤ j_wave jd < j_wave jm.
Proof.
  intros Hneq row Hi Hp Hfree e.
  assert (jobs (ps_db st) ⊆ <[id := row]> (jobs (ps_db st))) as Hsub by by apply insert_subseteq.
  intros [He|(d & -> & Hd)%list_elem_of_fmap]%elem_of_app; simpl.
  - destruct (pr_edges _ _ _ Hp _ He) as (jm & jd & Hm & Hjd & Hrest).
    exists jm, jd. split; [by eapply lookup_weaken|]. split; [by eapply lookup_weaken|done].
  - destruct (needed_lower bdone done st i a (s_Repository site) d) as (jd & Hjd & Ht & Hw); [by rewrite <-?Hneq..|].
    exists row, jd. split; [apply lookup_insert_eq|]. split; [by eapply lookup_weaken|].
    split; [|split; [|done]].
    + destruct (jobs db0 !! id) eqn:E; [|done].
      pose proof (lookup_weaken _ _ _ _ E (pr_old _ _ _ Hp)). congruence.
    + simpl. rewrite bool_decide_eq_false_2; [done|]. intros Hnil. rewrite Hnil in Hd.
      by apply elem_of_nil in Hd.
Qed.

(** A row that conflicts with nothing has a key no row of the plan has. *)
Lemma new_key_fresh st a rank site targetID needs :
  destinations !! s_Repository site = Some targetID →
  (∀ k j, jobs (ps_db st) !! k = Some j →
    conflicts (manifest_row req tree a rank site targetID needs) k j = false) →
  ∀ k j, jobs (ps_db st) !! k = Some j → j_transfer j = q_TransferID req → j_kind j = KManifest →
  ∀ r, destinations !! r = Some (j_target_repo j) →
    (KManifest, s_Repository site, a_Digest a) ≠ (KManifest, r, j_digest j).
Proof.
  intros Hdest Hno k j Hj Ht Hk r Hr [= Hrepo Hdg]. specialize (Hno k j Hj). apply not_true_iff_false in Hno.
  apply Hno, conflicts_true. simpl. rewrite <-Hrepo in Hr. by simplify_eq.
Qed.

Lemma covered_created bdone done st i a rank site targetID id needs plan i' s' :
  let row := manifest_row req tree a rank site targetID needs in
  tree !! i = Some a → destinations !! s_Repository site = Some targetID →
  needs = dependenciesOf tree i (childIndex tree) (s_Repository site) (ps_ids st) →
  (∀ i' s', (i', s') ∈ done → (i ≤ i')%nat) →
  progress bdone done st → jobs (ps_db st) !! id = None →
  (∀ k j, jobs (ps_db st) !! k = Some j → conflicts row k j = false) →
  (i', s') ∈ done ++ [(i, site)] →
  covered_site (done ++ [(i, site)])
    (mkPlanState ((ps_db st) <| jobs ::= insert id (new_job now row) |>)
       (<[(KManifest, s_Repository site, a_Digest a) := id]> (ps_ids st))
       (ps_edges st ++ (mkJobEdge id <$> needs)) plan) i' s'.
Proof.
  intros row Hi Hdest Hneq Hord Hp Hfree Hno.
  assert (jobs (ps_db st) ⊆ <[id := new_job now row]> (jobs (ps_db st))) as Hsub
    by by apply insert_subseteq.
  assert (∀ i' s', (i', s') ∈ done → ∀ k, k ∈ needed tree i' (childIndex tree) (s_Repository s') →
    k ≠ (KManifest, s_Repository site, a_Digest a)) as Hother.
  { intros i1 s1 Hd k. destruct (pr_covered _ _ _ Hp _ _ Hd) as (a1 & _ & _ & _ & Hi1 & _).
    apply needed_not_own with i; [done|by eapply Hord|by exists a1]. }
  pose proof (new_key_fresh st a rank site targetID needs Hdest Hno) as Hkey.
  intros [Hd|Hd]%elem_of_app.
  - destruct (pr_covered _ _ _ Hp _ _ Hd) as (a' & m & jm & first & Hi' & Hm & Hjm & Hfst & Htags & Hedges).
      exists a', m, jm, first. simpl. split; [done|]. split.
      { destruct (pr_ids _ _ _ Hp _ _ _ _ Hm) as (j & Hj & Ht & Hk & Hdg & Hr).
        rewrite lookup_insert_ne; [done|]. rewrite <-Hdg. by eapply Hkey. }
      split; [by eapply lookup_weaken|]. split; [by apply first_site_more|]. split; [done|].
      intros k d Hk Hid. rewrite lookup_insert_ne in Hid by (symmetry; by eapply Hother).
      apply elem_of_app. left. by eapply Hedges.
  - apply list_elem_of_singleton in Hd as [= -> ->].
      exists a, id, (new_job now row), site. simpl. split; [done|]. split; [apply lookup_insert_eq|].
      split; [apply lookup_insert_eq|]. split; [|split; [done|]].
    + apply first_site_new. intros s1 Hd Heq.
        destruct (pr_covered _ _ _ Hp _ _ Hd) as (a' & m & _ & _ & Hi' & Hm & _). simplify_eq.
        destruct (pr_ids _ _ _ Hp _ _ _ _ Hm) as (j & Hj & Ht & Hk & Hdg & Hr).
        apply (Hkey m j Hj Ht Hk _ Hr). by rewrite Hdg, Heq.
    + intros k d Hk Hid. apply elem_of_app. right. apply list_elem_of_fmap. exists d. split; [done|].
        rewrite Hneq. unfold dependenciesOf. apply elem_of_ids_of. split; [apply not_elem_of_nil|].
        exists k. split; [done|]. rewrite lookup_insert_ne in Hid; [done|]. symmetry.
        by eapply needed_not_own; [..|by exists a|done].
Qed.

Lemma plan_site_created bdone done st i a rank site targetID id needs plan :
  let row := manifest_row req tree a rank site targetID needs in
  tree !! i = Some a → destinations !! s_Repository site = Some targetID →
  needs = dependenciesOf tree i (childIndex tree) (s_Repository site) (ps_ids st) →
  (∀ i' s', (i', s') ∈ done → (i ≤ i')%nat) →
  progress bdone done st → jobs (ps_db st) !! id = None → 0 < id →
  (∀ k j, jobs (ps_db st) !! k = Some j → conflicts row k j = false) →
  progress bdone (done ++ [(i, site)])
    (mkPlanState ((ps_db st) <| jobs ::= insert id (new_job now row) |>)
       (<[(KManifest, s_Repository site, a_Digest a) := id]> (ps_ids st))
       (ps_edges st ++ (mkJobEdge id <$> needs)) plan).
Proof.
  intros row Hi Hdest Hneq Hord Hp Hfree Hpos Hno.
  assert (jobs (ps_db st) ⊆ <[id := new_job now row]> (jobs (ps_db st))) as Hsub
    by by apply insert_subseteq.
  assert (∀ p, p ∈ done → p ∈ done ++ [(i, site)]) as Hmono.
  { intros p. rewrite elem_of_app. by left. }
  pose proof (new_key_fresh st a rank site targetID needs Hdest Hno) as Hkey.
  split; simpl.
  - by rewrite (pr_frame _ _ _ Hp).
  - etrans; [by apply Hp|done].
  - intros k j [[<- <-]|[_ Hj]]%lookup_insert_Some Hn.
    + split; [done|]. split; [done|]. simpl. split.
      { case_bool_decide; set_solver. }
      exists i, a, site. split; [|done]. apply elem_of_app. right. by apply list_elem_of_singleton.
    + destruct (pr_new _ _ _ Hp _ _ Hj Hn). split; [done|]. by eapply planned_row_mono.
  - intros k r d x. rewrite lookup_insert_Some. intros [[[= <- <- <-] <-]|[_ Hx]].
    + eexists. split; [apply lookup_insert_eq|]. done.
    + destruct (pr_ids _ _ _ Hp _ _ _ _ Hx) as (j & Hj & Hrest). exists j.
      split; [by eapply lookup_weaken|done].
  - by eapply edges_created.
  - intros b Hb Hpl. apply lookup_insert_is_Some. right. split; [done|]. by apply (pr_blobs _ _ _ Hp).
  - intros k j r [[<- <-]|[_ Hj]]%lookup_insert_Some Ht Hk Hr.
    + simpl in *. rewrite (Hinj _ _ _ Hr Hdest). apply lookup_insert_eq.
    + rewrite lookup_insert_ne by by eapply Hkey. by eapply pr_own.
  - intros i' s' Hd. by eapply covered_created.
Qed.

Lemma plan_site_progress bdone done st i a rs st' :
  tree !! i = Some a → (∀ i' s', (i', s') ∈ done → (i ≤ i')%nat) →
  progress bdone done st → plan_site now req tree destinations i a st rs = Ok st' →
  progress bdone (done ++ [(i, rs.2)]) st'.
Proof.
  intros Hi Hord Hp. destruct rs as [rank site]. unfold plan_site. cbn [snd].
  destruct (destinations !! s_Repository site) as [targetID|] eqn:Hdest; [simpl|done].
  destruct (InsertJob now _ (ps_db st)) as [[[db id] created]|e] eqn:Hins; [simpl|done].
  intros [= <-]. apply InsertJob_Ok in Hins as [(-> & -> & j & Hj & Hc)|(-> & -> & Hfree & Hpos & Hno)].
  - eapply plan_site_again in Hc as (Hid & Hcov & Hedges); [|done..].
    destruct Hp as [Hf Ho Hn Hids He Hb Hown Hc]. split; simpl; try done.
    + intros k j' Hj' Hn'. destruct (Hn k j' Hj' Hn') as [? Hrow]. split; [done|].
      eapply planned_row_mono; [|exact Hrow]. intros p. rewrite elem_of_app. by left.
    + by rewrite insert_id.
    + intros e [Hin|(d & -> & Hd)%list_elem_of_fmap]%elem_of_app; [by apply He|]. by apply He, Hedges.
    + by rewrite insert_id.
    + by rewrite insert_id.
    + intros i' s' [Hd| [= -> ->]%list_elem_of_singleton]%elem_of_app; unfold covered_site; simpl;
        rewrite insert_id by done.
      * destruct (Hc _ _ Hd) as (a' & m & jm & first & ? & ? & ? & ? & ? & He'). exists a', m, jm, first.
        split_and!; [done..|by apply first_site_more|done|]. intros k d Hk Hkd. apply elem_of_app. left. by eapply He'.
      * destruct Hcov as (a' & m & jm & first & ? & ? & ? & ? & ? & He'). exists a', m, jm, first.
        split_and!; [done..|]. intros k d Hk Hkd. apply elem_of_app. left. by eapply He'.
  - by apply plan_site_created.
Qed.

Definition pairs_of (ia : nat * ExpandedArtifact) : list (nat * Site) :=
  (λ rs, (ia.1, rs.2)) <$> artifact_sites layout ia.2.

Lemma plan_artifact_progress bdone done st i a st' :
  tree !! i = Some a → (∀ i' s', (i', s') ∈ done → (i < i')%nat) →
  progress bdone done st → plan_artifact now req tree layout destinations st (i, a) = Ok st' →
  progress bdone (done ++ pairs_of (i, a)) st'.
Proof.
  intros Hi Hord Hp. unfold plan_artifact, pairs_of. cbn [fst snd].
  apply (fold_result_ind (λ pre st, progress bdone (done ++ ((λ rs, (i, rs.2)) <$> pre)) st)).
  - simpl. rewrite app_nil_r. destruct Hp. by split.
  - intros pre rs post s1 s2 Hl Hpre Hstep. rewrite fmap_app, app_assoc.
    eapply (plan_site_progress _ _ _ i a rs); [done| |done|done].
    intros i' s' [Hd|Hd]%elem_of_app; [specialize (Hord _ _ Hd); lia|].
    by apply list_elem_of_fmap in Hd as ([rank' site'] & [= -> ->] & Hin).
Qed.

Lemma rev_positions pre i a post :
  rev (imap pair tree) = pre ++ (i, a) :: post →
  tree !! i = Some a ∧ ∀ i' a', (i', a') ∈ pre → (i < i')%nat.
Proof.
  intros Hl. apply (f_equal (@rev _)) in Hl. rewrite rev_involutive, rev_app_distr in Hl. simpl in Hl.
  rewrite <-app_assoc in Hl. simpl in Hl.
  assert (∀ k x, imap pair tree !! k = Some x → x.1 = k ∧ tree !! k = Some x.2) as Hlk.
  { intros k x. rewrite list_lookup_imap. by intros (y & Hy & ->)%fmap_Some. }
  destruct (Hlk (length (rev post)) (i, a)) as [Hpos Hi]; [by rewrite Hl, list_lookup_middle|].
  simpl in *. split; [by rewrite Hpos|]. intros i' a' Hin.
  assert ((i', a') ∈ rev pre) as Hin'.
  { by apply list_elem_of_In, (proj1 (in_rev _ _)), list_elem_of_In. }
  apply list_elem_of_lookup_1 in Hin' as [k Hk].
  destruct (Hlk (length (rev post) + S k)%nat (i', a')) as [Hpos' _]; [|simpl in *; lia].
  rewrite Hl, lookup_app_r by lia. replace (_ - _)%nat with (S k) by lia. done.
Qed.

Lemma plan_jobs_progress st :
  plan_jobs now req tree layout destinations db0 = Ok st →
  ∃ blobs, blobTargets now tree layout destinations db0 = Ok blobs ∧
    progress blobs (rev (imap pair tree) ≫= pairs_of) st.
Proof.
  unfold plan_jobs. destruct (blobTargets _ _ _ _ _) as [blobs|e] eqn:Hb; [simpl|done].
  intros (st1 & H1 & H2)%result_bind_Ok. exists blobs. split; [done|].
  assert (∀ b, b ∈ blobs → destinations !! bt_repository b = Some (bt_targetID b)) as Hdest.
  { intros b Hb'. by apply (proj1 (blobTargets_spec _ _ _ _ _ _ Hb)). }
  assert (progress blobs [] st1) as Hp1.
  { revert H1. apply (fold_result_ind (λ pre st, progress pre [] st)); [apply progress_start|].
    intros pre b post s1 s2 Hl Hpre. apply plan_blob_progress; [|done].
    apply Hdest. rewrite Hl. set_solver. }
  revert H2. apply (fold_result_ind (λ pre st, progress blobs (pre ≫= pairs_of) st)); [done|].
  intros pre [i a] post s1 s2 Hl Hpre Hstep. destruct (rev_positions _ _ _ _ Hl) as [Hi Hlt].
  rewrite bind_app, bind_singleton. eapply plan_artifact_progress; [done| |done|done].
  intros i' s' ([i'' a''] & Hin & Hpre')%list_elem_of_bind.
  apply list_elem_of_fmap in Hin as (rs & [= -> ->] & _). by eapply Hlt.
Qed.
End loops.

(* -------------------------------------------------------------------- *)
(** ** Destinations *)

(** What the planner is given: a walk that lists a digest once and parents
    first and shallower, an order for the layout map, a target row that is the
    configured destination, and a transfer without jobs in a database whose
    edges end in rows. *)
Record plannable (req : Request) (tree : ExpandedTree) (places : list Placement) (db : DB) : Prop := {
  pa_digests : NoDup (a_Digest <$> tree);
  pa_depth c i a b : tree !! c = Some a → tree !! i = Some b →
    a_Parent a = Z.of_nat i → (i < c)%nat ∧ a_Depth b < a_Depth a;
  pa_places : places ≡ₚ (map_to_list (ResolveLayout tree (plan_options req))).*2;
  pa_target : ∃ r, repositories db !! q_TargetRepoID req = Some r ∧
    rp_host r = q_TargetRegistry req ∧ rp_path r = q_TargetBasePath req;
  pa_named p s : p ∈ places → s ∈ Sites p → s_Repository s = "" → q_TargetBasePath req = "";
  pa_unplanned i j : jobs db !! i = Some j → j_transfer j ≠ q_TransferID req;
  pa_edges a b : (a, b) ∈ dependencies db → is_Some (jobs db !! a) ∧ is_Some (jobs db !! b) }.

Lemma ensureDestinations_Ok `{RowIds} req places db db' out :
  (∃ r, repositories db !! q_TargetRepoID req = Some r ∧
     rp_host r = q_TargetRegistry req ∧ rp_path r = q_TargetBasePath req) →
  (∀ p s, p ∈ places → s ∈ Sites p → s_Repository s = "" → q_TargetBasePath req = "") →
  ensureDestinations req places db = Ok (db', out) →
  db' = db <| repositories := repositories db' |> ∧ repositories db ⊆ repositories db' ∧
  (∀ r x, out !! r = Some x → ∃ row, repositories db' !! x = Some row ∧
     rp_host row = q_TargetRegistry req ∧ rp_path row = r) ∧
  (∀ p s, p ∈ places → s ∈ Sites p → is_Some (out !! s_Repository s)).
Proof.
  intros Htarget Hnamed Hf. unfold ensureDestinations in Hf.
  assert (let st := (db', out) in st.1 = db <| repositories := repositories st.1 |> ∧
    repositories db ⊆ repositories st.1 ∧
    (∀ r x, st.2 !! r = Some x → ∃ row, repositories st.1 !! x = Some row ∧
       rp_host row = q_TargetRegistry req ∧ rp_path row = r) ∧
    (∀ s, s ∈ places ≫= Sites → is_Some (st.2 !! s_Repository s))) as Hst.
  { revert Hf. apply (fold_result_ind (λ pre st, st.1 = db <| repositories := repositories st.1 |> ∧
      repositories db ⊆ repositories st.1 ∧
      (∀ r x, st.2 !! r = Some x → ∃ row, repositories st.1 !! x = Some row ∧
         rp_host row = q_TargetRegistry req ∧ rp_path row = r) ∧
      (∀ s, s ∈ pre → is_Some (st.2 !! s_Repository s)))).
    { simpl. split; [by destruct db|]. split; [done|]. split.
      - intros r x Hx. by rewrite lookup_empty in Hx.
      - by intros s []%elem_of_nil. }
    intros pre s post [d1 o1] [d2 o2] Hl (Hfr & Hsub & Hrow & Hpre). unfold ensure_site.
    cbn [fst snd] in *.
    assert (∀ x row d2, repositories d1 ⊆ repositories d2 → repositories d2 !! x = Some row →
      rp_host row = q_TargetRegistry req → rp_path row = s_Repository s →
      (∀ r y, <[s_Repository s := x]> o1 !! r = Some y → ∃ row, repositories d2 !! y = Some row ∧
         rp_host row = q_TargetRegistry req ∧ rp_path row = r) ∧
      (∀ s', s' ∈ pre ++ [s] → is_Some (<[s_Repository s := x]> o1 !! s_Repository s'))) as Hnew.
    { intros x row d3 Hs3 Hx Hh Hp. split.
      - intros r y [[<- <-]|[_ Hy]]%lookup_insert_Some; [by exists row|].
        destruct (Hrow _ _ Hy) as (row' & Hy' & ?). exists row'. split; [by eapply lookup_weaken|done].
      - intros s' Hs'. apply lookup_insert_is_Some.
        destruct (decide (s_Repository s = s_Repository s')); [by left|right]. split; [done|].
        apply elem_of_app in Hs' as [Hs'| ->%list_elem_of_singleton]; [by apply Hpre|done]. }
    destruct (o1 !! s_Repository s) as [x|] eqn:Ho.
    - intros [= <- <-]. split_and!; [done..|].
      intros s' [Hs'| ->%list_elem_of_singleton]%elem_of_app; [by apply Hpre|by rewrite Ho].
    - destruct (bool_decide (s_Repository s = q_TargetBasePath req) || bool_decide (s_Repository s = "")) eqn:Hb.
      + intros [= <- <-]. split; [done|]. split; [done|].
        destruct Htarget as (r & Hr & Hh & Hp). eapply Hnew; [done| |done|].
        * by eapply lookup_weaken.
        * rewrite orb_true_iff, !bool_decide_eq_true in Hb. rewrite Hp. destruct Hb as [->|He]; [done|].
          assert (s ∈ places ≫= Sites) as Hin by (rewrite Hl; set_solver).
          apply list_elem_of_bind in Hin as (p & Hs & Hpl). rewrite He. by eapply Hnamed.
      + destruct (EnsureRepository _ _ _ _ _ _ _) as [[d3 x]|e] eqn:Hen; [simpl|done].
        intros [= <- <-]. apply EnsureRepository_Ok in Hen as [(row & Hx & Hh & Hp) Hd].
        assert (repositories d1 ⊆ repositories d3 ∧ d3 = d1 <| repositories := repositories d3 |>) as [Hs3 Hd3].
        { destruct Hd as [->|(_ & ? & ? & _)]; [|done]. split; [done|]. by destruct d1. }
        split; [rewrite Hd3, Hfr; done|]. split; [by etrans|]. by eapply Hnew. }
  destruct Hst as (H1 & H2 & H3 & H4). split_and!; [done..|].
  intros p s Hp Hs. apply H4. apply list_elem_of_bind. by exists p.
Qed.

(** Everything a successful plan went through. *)
Lemma Plan_stages `{RowIds} now req tree places db db' report :
  plannable req tree places db → Plan now req tree places db = Ok (db', report) →
  ∃ db1 destinations blobs st totals,
    let layout := ResolveLayout tree (plan_options req) in
    db1 = db <| repositories := repositories db1 |> ∧
    (∀ r x, destinations !! r = Some x → ∃ row, repositories db1 !! x = Some row ∧
       rp_host row = q_TargetRegistry req ∧ rp_path row = r) ∧
    blobTargets now tree layout destinations db1 = Ok blobs ∧
    progress req tree destinations db1 blobs (rev (imap pair tree) ≫= pairs_of layout) st ∧
    db' = RecordPlan now (q_TransferID req) totals (AddJobDependencies (ps_edges st) (ps_db st)).
Proof.
  intros Hpa. unfold Plan. case_bool_decide; [done|].
  destruct (ensureDestinations _ _ _) as [[db1 destinations]|e] eqn:Hen; [simpl|done].
  apply ensureDestinations_Ok in Hen as (Hfr & Hsub & Hrow & Hdom); [|apply Hpa..].
  destruct (plan_jobs _ _ _ _ _ _) as [st|e] eqn:Hpj; [simpl|done]. intros [= <- <-].
  apply plan_jobs_progress in Hpj as (blobs & Hb & Hp).
  - exists db1, destinations, blobs, st. eexists. cbv zeta. done.
  - apply Hpa.
  - apply Hpa.
  - intros r r' x Hr Hr'. destruct (Hrow _ _ Hr) as (row & ? & _ & <-).
    destruct (Hrow _ _ Hr') as (row' & ? & _ & <-). by simplify_eq.
  - intros i j Hj. rewrite Hfr in Hj. by eapply pa_unplanned.
Qed.

(* -------------------------------------------------------------------- *)
(** ** Theorems *)

(** The tables once the jobs and edges are in, before the first wave opens. *)
Definition planned_db (st : plan_state) : DB := AddJobDependencies (ps_edges st) (ps_db st).

Section planned.
Context `{RowIds} (req : Request) (tree : ExpandedTree) (places : list Placement) (db db1 : DB).
Context (destinations : gmap string Z) (bdone : list blobTarget) (done : list (nat * Site)).
Context (st : plan_state).
Context (Hpa : plannable req tree places db) (Hdb1 : db1 = db <| repositories := repositories db1 |>).
Context (Hp : progress req tree destinations db1 bdone done st).

Lemma jobs_db1 : jobs db1 = jobs db.
Proof. by rewrite Hdb1. Qed.

Lemma unplanned_db1 i j : jobs db1 !! i = Some j → j_transfer j ≠ q_TransferID req.
Proof. rewrite jobs_db1. by apply (pa_unplanned _ _ _ _ Hpa). Qed.

Lemma edge_kept e : e ∈ ps_edges st → edge_skipped e = false.
Proof.
  intros He. destruct (pr_edges _ _ _ _ _ _ _ Hp e He) as (jm & jd & Hm & Hd & Hn & _ & Ht & Hw).
  destruct (pr_new _ _ _ _ _ _ _ Hp _ _ Hm Hn) as [Hpos _].
  destruct (transfer_new _ _ _ _ unplanned_db1 _ _ _ _ _ Hp Hd Ht) as (_ & Hpos' & _).
  apply bool_decide_eq_false. intros [?|[?|Heq]]; [lia..|]. rewrite Heq in Hm. simplify_eq. lia.
Qed.

Lemma planned_edge e :
  e ∈ dependencies (planned_db st) ↔
  e ∈ dependencies db ∨ mkJobEdge e.1 e.2 ∈ ps_edges st.
Proof.
  unfold planned_db. rewrite elem_of_AddJobDependencies, (pr_frame _ _ _ _ _ _ _ Hp), Hdb1. simpl.
  split; (intros [?|He]; [by left|right]).
  - destruct He as ([] & He & _ & <-). done.
  - exists (mkJobEdge e.1 e.2). split; [done|]. split; [by apply edge_kept|by destruct e].
Qed.

Lemma jobs_planned_db : jobs (planned_db st) = jobs (ps_db st).
Proof. unfold planned_db. by rewrite AddJobDependencies_frame. Qed.

Lemma old_job i j : jobs db !! i = Some j → jobs (planned_db st) !! i = Some j.
Proof.
  rewrite jobs_planned_db, <-jobs_db1. intros Hj. eapply lookup_weaken; [done|by apply Hp].
Qed.

Lemma planned_content_first : content_first db → content_first (planned_db st).
Proof.
  intros Hcf id j Hj Hs d dep [Hin|He]%planned_edge Hd.
  - destruct (pa_edges _ _ _ _ Hpa _ _ Hin) as [[j0 Hj0] [d0 Hd0]].
    pose proof (old_job _ _ Hj0). pose proof (old_job _ _ Hd0). simplify_eq.
    by apply (Hcf id j Hj0 Hs d dep).
  - destruct (pr_edges _ _ _ _ _ _ _ Hp _ He) as (jm & jd & Hm & _ & _ & Hst & _).
    simpl in Hm. rewrite <-jobs_planned_db in Hm. simplify_eq. rewrite Hst in Hs. set_solver.
Qed.

Lemma planned_stratified : stratified db → stratified (planned_db st).
Proof.
  intros Hstr id d j dep [Hin|He]%planned_edge Hj Hd.
  - destruct (pa_edges _ _ _ _ Hpa _ _ Hin) as [[j0 Hj0] [d0 Hd0]].
    pose proof (old_job _ _ Hj0). pose proof (old_job _ _ Hd0). simplify_eq.
    by apply (Hstr id d j dep).
  - destruct (pr_edges _ _ _ _ _ _ _ Hp _ He) as (jm & jd & Hm & Hjd & _ & _ & _ & Hw).
    simpl in *. rewrite <-jobs_planned_db in Hm, Hjd. by simplify_eq.
Qed.

Lemma planned_local : local_edges db → local_edges (planned_db st).
Proof.
  intros Hl id d j dep [Hin|He]%planned_edge Hj Hd.
  - destruct (pa_edges _ _ _ _ Hpa _ _ Hin) as [[j0 Hj0] [d0 Hd0]].
    pose proof (old_job _ _ Hj0). pose proof (old_job _ _ Hd0). simplify_eq.
    by apply (Hl id d j dep).
  - destruct (pr_edges _ _ _ _ _ _ _ Hp _ He) as (jm & jd & Hm & Hjd & Hn & _ & Ht & _).
    destruct (pr_new _ _ _ _ _ _ _ Hp _ _ Hm Hn) as [_ [Htm _]].
    simpl in *. rewrite <-jobs_planned_db in Hm, Hjd. simplify_eq. congruence.
Qed.
End planned.

(** A relation of edges and rows survives the opening of a wave if it is about
    what that leaves alone. *)
Lemma RecordPlan_rows now t totals db :
  dependencies (RecordPlan now t totals db) = dependencies db ∧
  rows (λ _ j j', j' = j ∨ j_transfer j = t ∧ j_state j = JobBlocked ∧ j' = set_pending now 0 j)
    (jobs db) (jobs (RecordPlan now t totals db)).
Proof. unfold RecordPlan. apply (OpenFirstWave_rows now t (update_transfer t (set_planned now totals) db)). Qed.

(** Planning keeps the invariants the queue runs on.  A plan that commits
    leaves the jobs of every other transfer as they were and adds only jobs of
    its own, pending or blocked; and if nothing in the queue was runnable before
    its content, every edge went to a lower wave and no edge left its transfer,
    the same holds with the new jobs and edges in place and the first wave
    open. *)
Theorem Plan_keeps_invariants `{RowIds} now req tree places db db' report :
  plannable req tree places db → Plan now req tree places db = Ok (db', report) →
  (∀ i j, jobs db !! i = Some j → jobs db' !! i = Some j) ∧
  (∀ i j, jobs db' !! i = Some j → jobs db !! i = None →
     j_transfer j = q_TransferID req ∧ j_state j ∈ [JobPending; JobBlocked]) ∧
  (content_first db → content_first db') ∧
  (stratified db → stratified db') ∧
  (local_edges db → local_edges db').
Proof.
  intros Hpa Hplan. apply Plan_stages in Hplan as (db1 & dest & blobs & st & totals & Hst); [|done].
  cbv zeta in Hst. destruct Hst as (Hdb1 & _ & _ & Hp & ->).
  fold (planned_db st).
  destruct (RecordPlan_rows now (q_TransferID req) totals (planned_db st)) as [Hdep Hrows].
  assert (∀ i j', jobs (RecordPlan now (q_TransferID req) totals (planned_db st)) !! i = Some j' →
    ∃ j, jobs (planned_db st) !! i = Some j ∧ j_wave j' = j_wave j ∧ j_transfer j' = j_transfer j) as Hback.
  { intros i j' Hj'. destruct (rows_lookup_new _ _ _ _ _ Hrows Hj') as (j & Hj & [->|(_ & _ & ->)]); eauto. }
  split_and!.
  - intros i j Hj. pose proof (old_job _ _ _ _ _ _ _ _ Hdb1 Hp _ _ Hj) as Hj1.
    destruct (rows_lookup _ _ _ _ _ Hrows Hj1) as (j' & Hj' & [->|(Ht & _)]); [done|].
    by destruct (pa_unplanned _ _ _ _ Hpa _ _ Hj).
  - intros i j' Hj' Hn. destruct (rows_lookup_new _ _ _ _ _ Hrows Hj') as (j & Hj & Hrow).
    rewrite jobs_planned_db in Hj. rewrite <-(jobs_db1 _ _ Hdb1) in Hn.
    destruct (pr_new _ _ _ _ _ _ _ Hp _ _ Hj Hn) as (_ & Ht & Hk).
    destruct Hrow as [->|(_ & _ & ->)]; [|split; [done|left]]. split; [done|].
    destruct (j_kind j); [destruct Hk as [-> _]; left|by destruct Hk].
  - intros Hcf. apply OpenFirstWave_content_first.
    exact (planned_content_first _ _ _ _ _ _ _ _ _ Hpa Hdb1 Hp Hcf).
  - intros Hstr id d j dep Hin Hj Hd. rewrite Hdep in Hin.
    destruct (Hback _ _ Hj) as (j0 & Hj0 & -> & _). destruct (Hback _ _ Hd) as (d0 & Hd0 & -> & _).
    by eapply (planned_stratified _ _ _ _ _ _ _ _ _ Hpa Hdb1 Hp Hstr).
  - intros Hl id d j dep Hin Hj Hd. rewrite Hdep in Hin.
    destruct (Hback _ _ Hj) as (j0 & Hj0 & _ & ->). destruct (Hback _ _ Hd) as (d0 & Hd0 & _ & ->).
    by eapply (planned_local _ _ _ _ _ _ _ _ _ Hpa Hdb1 Hp Hl).
Qed.

(** A job of the plan: of the request's transfer, with this kind and digest,
    for this destination. *)
Definition plan_job (req : Request) (k : Kind) (digest : string) (target : Z) (j : job) : Prop :=
  j_transfer j = q_TransferID req ∧ j_kind j = k ∧ j_digest j = digest ∧ j_target_repo j = target.

(** What a key of the loops means in the final tables. *)
Lemma planned_key `{RowIds} now req tree dest db1 bdone done st totals k r d id :
  progress req tree dest db1 bdone done st → ps_ids st !! (k, r, d) = Some id →
  ∃ j target, dest !! r = Some target ∧
    jobs (RecordPlan now (q_TransferID req) totals (planned_db st)) !! id = Some j ∧
    plan_job req k d target j ∧
    ∀ j0, jobs (ps_db st) !! id = Some j0 → j_target_tags j = j_target_tags j0.
Proof.
  intros Hp Hid. destruct (pr_ids _ _ _ _ _ _ _ Hp _ _ _ _ Hid) as (j0 & Hj0 & Ht & Hk & Hd & Hr).
  destruct (RecordPlan_rows now (q_TransferID req) totals (planned_db st)) as [_ Hrows].
  rewrite jobs_planned_db in Hrows. destruct (rows_lookup _ _ _ _ _ Hrows Hj0) as (j & Hj & Hrow).
  exists j, (j_target_repo j0). split; [done|]. split; [done|]. unfold plan_job.
  destruct Hrow as [->|(_ & _ & ->)]; simpl; (split; [done|]); intros; by simplify_eq.
Qed.

Lemma planned_repositories `{RowIds} now req tree dest db1 bdone done st totals :
  progress req tree dest db1 bdone done st →
  repositories (RecordPlan now (q_TransferID req) totals (planned_db st)) = repositories db1.
Proof.
  intros Hp. assert (repositories (planned_db st) = repositories db1) as Heq.
  { unfold planned_db. rewrite AddJobDependencies_frame. simpl. by rewrite (pr_frame _ _ _ _ _ _ _ Hp). }
  unfold RecordPlan, OpenFirstWave. destruct (min_wave _ _); simpl; by rewrite Heq.
Qed.

Lemma elem_of_pairs tree layout i a site p :
  tree !! i = Some a → layout !! a_Digest a = Some p → site ∈ Sites p →
  (i, site) ∈ rev (imap pair tree) ≫= pairs_of layout.
Proof.
  intros Hi Hp Hs. apply list_elem_of_bind. exists (i, a). split.
  - apply list_elem_of_lookup_1 in Hs as [k Hk]. unfold pairs_of, artifact_sites. simpl. rewrite Hp.
    apply list_elem_of_fmap. exists (k, site). split; [done|].
    apply elem_of_lookup_imap. by exists k, site.
  - apply list_elem_of_In, (proj1 (in_rev _ _)), list_elem_of_In.
    apply elem_of_lookup_imap. by exists i, a.
Qed.

(** Of the pairs of the loops, the first of an artifact in a repository is the
    first of its sites there. *)
Lemma first_of_pairs tree layout i a p site first :
  tree !! i = Some a → layout !! a_Digest a = Some p → site ∈ Sites p →
  first_site (rev (imap pair tree) ≫= pairs_of layout) i (s_Repository site) first →
  head (filter (λ s, s_Repository s = s_Repository site) (Sites p)) = Some first.
Proof.
  intros Hi Hlay Hsite Hf.
  assert ((i, a) ∈ rev (imap pair tree)) as (pre & post & Hl)%list_elem_of_split.
  { apply list_elem_of_In, (proj1 (in_rev _ _)), list_elem_of_In, elem_of_lookup_imap. by exists i, a. }
  destruct (rev_positions tree pre i a post Hl) as [_ Hpre].
  revert Hf. unfold first_site. rewrite Hl, bind_app, bind_cons, !filter_app, filter_none; simpl.
  - assert (pairs_of layout (i, a) = pair i <$> Sites p) as ->.
    { unfold pairs_of, artifact_sites. simpl. rewrite Hlay. rewrite fmap_imap. apply list_eq. intros k.
      rewrite list_lookup_imap, list_lookup_fmap. done. }
    generalize (filter (λ x : nat * Site, x.1 = i ∧ s_Repository x.2 = s_Repository site) (post ≫= pairs_of layout)).
    intros rest. revert Hsite. generalize (Sites p). intros sites. induction sites as [|s l IH]; intros Hin; [set_solver|].
    rewrite fmap_cons, !filter_cons. destruct (decide (s_Repository s = s_Repository site)) as [E|E].
    + rewrite decide_True by done. simpl. congruence.
    + rewrite decide_False by (intros [_ ?]; done). apply IH. apply elem_of_cons in Hin as [->|]; done.
  - intros [i' s'] ([i'' a'] & Hin & Hp)%list_elem_of_bind [Heq _]. simpl in Heq.
    apply list_elem_of_fmap in Hin as (rs & [= -> ->] & _). specialize (Hpre _ _ Hp). lia.
Qed.

(** Sites of different repositories are told apart by them. *)
Lemma first_distinct sites site first :
  distinct_sites sites → site ∈ sites →
  head (filter (λ s, s_Repository s = s_Repository site) sites) = Some first → first = site.
Proof.
  intros Hd Hs Hf. assert (first ∈ filter (λ s, s_Repository s = s_Repository site) sites) as
    [Heq Hin]%list_elem_of_filter by (destruct (filter _ _); simplify_eq/=; left).
  destruct (ForallOrdPairs_In Hd _ _ (proj1 (list_elem_of_In _ _) Hs) (proj1 (list_elem_of_In _ _) Hin))
    as [->|[Hn|Hn]]; [done|exfalso; apply Hn..]; unfold same_site; rewrite Heq; apply sameRepository_refl.
Qed.

(** C6. A plan covers the bundle.  When the first plan of a transfer commits,
    over a walk that lists each digest once and parents before children, every
    artifact has a manifest job at each of its sites, in the site's repository;
    each of its blobs is at that destination already, recorded there within the
    placements' lifetime, or has a job for it that the manifest's job depends
    on; and the manifest's job depends on the job of every child that has a site
    in the same repository.  The job's tags are those of the first site the
    artifact has in that repository.  That is the site itself where no component's
    own repository maps onto the bundle's; where one does, the second site there
    has no job of its own and its tags are not applied. *)
Theorem Plan_covers_the_tree `{RowIds} now req tree places db db' report :
  plannable req tree places db →
  (∀ a b, a ∈ tree → b ∈ a_Blobs a → has_char bar (b_Digest b) = false) →
  Plan now req tree places db = Ok (db', report) →
  let layout := ResolveLayout tree (plan_options req) in
  ∀ i a p site, tree !! i = Some a → layout !! a_Digest a = Some p → site ∈ Sites p →
  ∃ m jm target, jobs db' !! m = Some jm ∧ plan_job req KManifest (a_Digest a) target jm ∧
    (∃ first, head (filter (λ s, s_Repository s = s_Repository site) (Sites p)) = Some first ∧
       j_target_tags jm = s_Tags first) ∧
    ((∀ x, x ∈ tree → elsewhere_apart (plan_options req) x) → j_target_tags jm = s_Tags site) ∧
    (∃ row, repositories db' !! target = Some row ∧ rp_host row = q_TargetRegistry req ∧
       rp_path row = s_Repository site) ∧
    (∀ b, b ∈ a_Blobs a →
       (∃ pl, placements db !! (target, b_Digest b) = Some pl ∧
          now - placementTTLSeconds * Second < bp_verified pl) ∨
       ∃ d jd, (m, d) ∈ dependencies db' ∧ jobs db' !! d = Some jd ∧
         plan_job req KBlob (b_Digest b) target jd) ∧
    (∀ c x px s, tree !! c = Some x → a_Parent x = Z.of_nat i →
       layout !! a_Digest x = Some px → s ∈ Sites px → s_Repository s = s_Repository site →
       ∃ d jd, (m, d) ∈ dependencies db' ∧ jobs db' !! d = Some jd ∧
         plan_job req KManifest (a_Digest x) target jd).
Proof.
  intros Hpa Hbar Hplan layout i a p site Hi Hlay Hsite.
  apply Plan_stages in Hplan as (db1 & dest & blobs & st & totals & Hst); [|done].
  cbv zeta in Hst. destruct Hst as (Hdb1 & Hrow & Hblobs & Hp & ->). fold (planned_db st).
  pose proof (blobTargets_spec _ _ _ _ _ _ Hblobs) as [Hbt Hcov].
  assert (∀ d, (d ∈ dependencies (RecordPlan now (q_TransferID req) totals (planned_db st))) ↔
    d ∈ dependencies (planned_db st)) as Hdep.
  { intros d. by rewrite (proj1 (RecordPlan_rows now (q_TransferID req) totals (planned_db st))). }
  destruct (pr_covered _ _ _ _ _ _ _ Hp i site) as (a' & m & jm0 & first & Hi' & Hm & Hjm0 & Hfirst & Htags & Hedges);
    [by eapply elem_of_pairs|]. simplify_eq. eapply (first_of_pairs _ _ _ _ p) in Hfirst; [|done..].
  destruct (planned_key now _ _ _ _ _ _ _ totals _ _ _ _ Hp Hm) as (jm & target & Hdest & Hjm & Hplan & Htg).
  assert (∀ k0 d0 d, (k0, s_Repository site, d0) ∈ needed tree i (childIndex tree) (s_Repository site) →
    ps_ids st !! (k0, s_Repository site, d0) = Some d →
    ∃ jd, (m, d) ∈ dependencies (RecordPlan now (q_TransferID req) totals (planned_db st)) ∧
      jobs (RecordPlan now (q_TransferID req) totals (planned_db st)) !! d = Some jd ∧
      plan_job req k0 d0 target jd) as Hdone.
  { intros k0 d0 d Hk Hd.
    destruct (planned_key now _ _ _ _ _ _ _ totals _ _ _ _ Hp Hd) as (jd & t' & Hdest' & Hjd & Hpl & _).
    simplify_eq. exists jd. split; [|done]. apply Hdep.
    apply (planned_edge _ _ _ _ _ _ _ _ _ Hpa Hdb1 Hp). right. by eapply Hedges. }
  exists m, jm, target. split; [done|]. split; [done|]. rewrite (Htg _ Hjm0), Htags. split; [by exists first|]. split.
  { intros Hap. f_equal. eapply first_distinct; [|done..]. by eapply layout_distinct. }
  split.
  { destruct (Hrow _ _ Hdest) as (row & Hr & Hrest). exists row. split; [|done].
    by rewrite <-Hr, (planned_repositories now _ _ _ _ _ _ _ totals Hp). }
  split.
  - intros b Hb. assert (a ∈ tree) as Ha by by eapply list_elem_of_lookup_2.
    apply list_elem_of_lookup_1 in Hsite as [k Hk].
    destruct (Hcov Hbar a (k, site) b Ha) as (t & Ht & Hrepo & Hdg); [|done|].
    { unfold artifact_sites. fold layout. rewrite Hlay. apply elem_of_lookup_imap. by exists k, site. }
    simpl in Hrepo. destruct (Hbt t Ht) as [Htd Hpl]. rewrite Hrepo, Hdest in Htd. simplify_eq.
    destruct (bt_placed t) eqn:Hplaced; [left|right].
    + destruct (Hpl eq_refl) as (pl & Hpl' & Hfresh). exists pl. rewrite Hdb1 in Hpl'. by rewrite <-Hdg.
    + destruct (pr_blobs _ _ _ _ _ _ _ Hp t Ht Hplaced) as [d Hd]. rewrite Hrepo, Hdg in Hd.
      exists d. apply Hdone; [|done]. apply (elem_of_needed _ _ a); [done|]. left. by exists b.
  - intros c x px s Hc Hpar Hpx Hs Heq.
    destruct (pr_covered _ _ _ _ _ _ _ Hp c s) as (x' & d & jd & _ & Hc' & Hd & _);
      [by eapply elem_of_pairs|]. simplify_eq. rewrite Heq in Hd. exists d.
    apply Hdone; [|done]. apply (elem_of_needed _ _ a); [done|]. right. by exists c, x.
Qed.

(* -------------------------------------------------------------------- *)
(** ** A concrete plan *)

Definition example_request : Request :=
  mkRequest "t" "orb_23" 1 2 1 "lab" "registry.lab" "jfrog" "vendor" "orbs/cfx" 50 [].

Definition unplanned_db : DB :=
  (example_db [] [("t", example_transfer TransferPlanning 0)])
    <| repositories := {[ 1 := mkRepository 1 "src" "vendor.example" "orbs/cfx" "generic" "source";
                          2 := mkRepository 1 "lab" "registry.lab" "vendor" "artifactory" "target" ]} |>
    <| products := {[ 1 := "cfx" ]} |>.

Definition example_places : list Placement :=
  (map_to_list (ResolveLayout example_tree (plan_options example_request))).*2.

Lemma example_plannable : plannable example_request example_tree example_places unplanned_db.
Proof.
  split.
  - apply (bool_decide_eq_true_1 _). vm_compute. done.
  - intros [|[|[|c]]] i a b Ha Hb Hp; simplify_eq/=;
      (destruct i as [|i]; simpl in *; [simplify_eq/=; lia|lia]).
  - done.
  - eexists. done.
  - assert (forallb (λ p, forallb (λ s, negb (String.eqb (s_Repository s) "")) (Sites p))
      example_places = true) as Hall by (vm_compute; done).
    intros p s Hp Hs He. rewrite forallb_forall in Hall.
    specialize (Hall p (proj1 (list_elem_of_In _ _) Hp)). rewrite forallb_forall in Hall.
    specialize (Hall s (proj1 (list_elem_of_In _ _) Hs)). by rewrite He in Hall.
  - intros i j Hj. discriminate Hj.
  - intros a b Hin. discriminate Hin.
Qed.

Lemma example_apart a : a ∈ example_tree → elsewhere_apart (plan_options example_request) a.
Proof.
  intros Ha. repeat (apply elem_of_cons in Ha as [-> |Ha];
    [intros (_ & _ & Hs); vm_compute in Hs; first [discriminate Hs|vm_compute; reflexivity]|]).
  by apply elem_of_nil in Ha.
Qed.

#[local] Notation example_plan :=
  (Plan 100 example_request example_tree example_places unplanned_db).

Lemma Plan_keeps_invariants_witness :
  ∃ db' report, example_plan = Ok (db', report) ∧ pl_Jobs report = 6 ∧
    content_first db' ∧ stratified db' ∧ local_edges db'.
Proof.
  destruct (is_ok_true example_plan) as [[db' report] Hplan]; [vm_compute; reflexivity|].
  exists db', report. split; [exact Hplan|].
  destruct (Plan_keeps_invariants 100 example_request example_tree example_places unplanned_db
    db' report example_plannable Hplan) as (_ & _ & Hcf & Hstr & Hl).
  split.
  - assert (pl_Jobs (ok_or (empty_db, mkPlanReport 0 0 0 0 0 0 0 0) example_plan).2 = 6) as H6
      by (vm_compute; reflexivity).
    rewrite Hplan in H6. exact H6.
  - split; [|split].
    + apply Hcf. intros i j Hj. discriminate Hj.
    + apply Hstr. intros a b j dep Hin. discriminate.
    + apply Hl. intros a b j dep Hin. discriminate.
Defined.

Lemma example_digests a b : a ∈ example_tree → b ∈ a_Blobs a → has_char bar (b_Digest b) = false.
Proof.
  intros Ha Hb. repeat (apply elem_of_cons in Ha as [-> |Ha];
    [repeat (apply elem_of_cons in Hb as [-> |Hb]; [reflexivity|]); by apply elem_of_nil in Hb|]).
  by apply elem_of_nil in Ha.
Qed.

Lemma example_nginx_sites :
  ResolveLayout example_tree (plan_options example_request) !! "sha256:nginx" =
  Some (mkSites [mkSite "vendor/orbs/cfx" []; mkSite "vendor/orbs/CFX/nginx" ["1.2.3"]] "orbs/cfx").
Proof. vm_compute. reflexivity. Qed.

Lemma Plan_covers_the_tree_witness :
  ∃ db' report m jm, example_plan = Ok (db', report) ∧ jobs db' !! m = Some jm ∧
    j_digest jm = "sha256:nginx" ∧ j_target_tags jm = ["1.2.3"].
Proof.
  destruct (is_ok_true example_plan) as [[db' report] Hplan]; [vm_compute; reflexivity|].
  exists db', report.
  pose proof (Plan_covers_the_tree 100 example_request example_tree example_places unplanned_db
    db' report example_plannable example_digests Hplan) as Hall. cbv zeta in Hall.
  specialize (Hall 1%nat _ _ (mkSite "vendor/orbs/CFX/nginx" ["1.2.3"]) eq_refl example_nginx_sites).
  destruct Hall as (m & jm & target & Hm & Hplanned & _ & Htags & _); [right; left|].
  exists m, jm. split; [exact Hplan|]. split; [exact Hm|]. split; [apply Hplanned|exact (Htags example_apart)].
Defined.
