(* ===== verification/Fleet.v ===== *)
(** * The fleet, and the time it spends

    internal/store/workers.go (the rows workers leave, which nothing in the queue
    but recovery reads), internal/store/activetime.go (the time a transfer had
    work in a worker's hands, sampled by a sweep) and AdvanceSteps of
    internal/store/replication.go (the steps of a download rule's chain). *)

From S2P Require Import Prelude StateMachine Backoff Schema Leasing.
Open Scope Z_scope.

(* -------------------------------------------------------------------- *)
(** ** Workers *)

Record WorkerRow := mkWorkerRow {
  wr_ID : string;
  wr_Version : string;
  wr_MaxConcurrency : Z;
  wr_ActiveJobs : Z }.

(** INSERT ... ON CONFLICT (id) DO UPDATE of every column *)
Definition RecordWorker (now : Z) (w : WorkerRow) (db : DB) : DB :=
  if String.eqb (wr_ID w) "" then db
  else db <| workers ::= <[wr_ID w := mkWorker (wr_Version w) (wr_MaxConcurrency w) (wr_ActiveJobs w) now "active"]> |>.

Definition TouchWorker (now : Z) (id : string) (active : Z) (db : DB) : DB :=
  if String.eqb id "" then db
  else db <| workers ::= update_where (λ i _, bool_decide (i = id))
               (λ _ w, w <| w_active_jobs := active |> <| w_heartbeat := now |> <| w_state := "active" |>) |>.

Record WorkerSummary := mkWorkerSummary {
  ws_ID : string;
  ws_Version : string;
  ws_MaxConcurrency : Z;
  ws_ActiveJobs : Z;
  ws_LeasedJobs : nat;
  ws_LastHeartbeat : Z;
  ws_Stale : bool;
  ws_State : string }.

Definition leased_by (id : string) (_ : Z) (j : job) : bool :=
  bool_decide (j_state j = JobLeased) && bool_decide (j_lease_owner j = Some id).

(** The fleet, most recently heard from first; a period that is not one is two
    minutes. *)
Definition ListWorkers (now staleAfter : Z) (db : DB) : list WorkerSummary :=
  let staleAfter := if staleAfter <=? 0 then 2 * Minute else staleAfter in
  (λ r : string * worker,
     mkWorkerSummary r.1 (w_version r.2) (w_max_concurrency r.2) (w_active_jobs r.2)
       (count_where (leased_by r.1) (jobs db)) (w_heartbeat r.2)
       (w_heartbeat r.2 <? now - staleAfter) (w_state r.2)) <$>
  order_by (λ r : string * worker, [- w_heartbeat r.2]) (map_to_list (workers db)).

Definition ForgetWorker (id : string) (db : DB) : DB := db <| workers ::= delete id |>.

(* -------------------------------------------------------------------- *)
(** ** Active time *)

Definition activeSweepGapFactor : Z := 4.

Definition liveTransferStates : list TransferState :=
  [TransferPending; TransferPlanning; TransferReady; TransferRunning; TransferPaused;
   TransferCancelling; TransferVerifying; TransferPromoting; TransferSyncing].

Definition sweeping (r : transfer) : bool :=
  bool_decide (t_state r ∈ liveTransferStates) && bool_decide (is_Some (t_started r)).

(** A worker has had a job of it, which is in its hands or moved since the
    anchor. *)
Definition worked (db : DB) (t : string) (r : transfer) : bool :=
  exists_where (λ _ j, bool_decide (j_transfer j = t) && bool_decide (is_Some (j_started j)) &&
    (bool_decide (j_state j = JobLeased) ||
     match t_last_active r with Some anchor => anchor <? j_updated j | None => false end)) (jobs db).

(** Between zero and the widest gap a pass believes. *)
Definition believed (since gap : Z) : bool := (0 <=? gap) && (gap <=? since * activeSweepGapFactor).

Definition gap_from (at_ : Z) (r : transfer) : option Z := (λ anchor, at_ - anchor) <$> t_last_active r.

Definition accrues (now since : Z) (db : DB) (t : string) (r : transfer) : bool :=
  sweeping r && match gap_from now r with Some gap => believed since gap | None => false end && worked db t r.

Definition set_accrued (now : Z) (r : transfer) : transfer :=
  r <| t_active ::= Z.add (default 0 (gap_from now r)) |> <| t_last_active := Some now |> <| t_updated := now |>.

Definition reanchors (now since : Z) (db : DB) (t : string) (r : transfer) : bool :=
  sweeping r && match gap_from now r with
                | None => true
                | Some gap => negb (believed since gap) || negb (worked db t r)
                end.

Definition set_anchored (now : Z) (r : transfer) : transfer := r <| t_last_active := Some now |>.

Definition gap_to_completion (r : transfer) : option Z :=
  anchor ← t_last_active r; completed ← t_completed r; Some (completed - anchor).

Definition closes (since : Z) (_ : string) (r : transfer) : bool :=
  negb (bool_decide (t_state r ∈ liveTransferStates)) &&
  match gap_to_completion r with Some gap => believed since gap | None => false end.

Definition set_closed (r : transfer) : transfer :=
  r <| t_active ::= Z.add (default 0 (gap_to_completion r)) |> <| t_last_active := None |>.

Definition releases (_ : string) (r : transfer) : bool :=
  negb (bool_decide (t_state r ∈ liveTransferStates)) && bool_decide (is_Some (t_last_active r)).

Definition AccrueActiveTime (now since : Z) (db : DB) : DB * nat :=
  let since := if since <=? 0 then 30 * Second else since in
  let credited := count_where (accrues now since db) (transfers db) in
  let db := update_transfers (accrues now since db) (λ _, set_accrued now) db in
  let db := update_transfers (reanchors now since db) (λ _, set_anchored now) db in
  let db := update_transfers (closes since) (λ _, set_closed) db in
  (update_transfers releases (λ _ r, r <| t_last_active := None |>) db, credited).

(* -------------------------------------------------------------------- *)
(** ** Chains *)

Definition waiting_on (db : DB) (sts : list TransferState) (_ : string) (r : transfer) : bool :=
  bool_decide (t_state r = TransferWaiting) &&
  match t_depends_on r with
  | Some d => match transfers db !! d with
              | Some p => bool_decide (t_state p ∈ sts)
              | None => false
              end
  | None => false
  end.

Definition set_released (now : Z) (r : transfer) : transfer :=
  r <| t_state := TransferPlanning |> <| t_updated := now |>.

Definition set_step_skipped (now : Z) (r : transfer) : transfer :=
  r <| t_state := TransferSkipped |>
    <| t_failure_reason := Some "the step this one depends on did not succeed" |>
    <| t_completed := Some now |> <| t_updated := now |>.

Definition unsuccessful : list TransferState :=
  [TransferFailed; TransferCancelled; TransferSkipped; TransferDiverged].

(** The steps released and the steps skipped. *)
Definition AdvanceSteps (now : Z) (db : DB) : DB * (nat * nat) :=
  let released := count_where (waiting_on db [TransferSucceeded]) (transfers db) in
  let db := update_transfers (waiting_on db [TransferSucceeded]) (λ _, set_released now) db in
  let skipped := count_where (waiting_on db unsuccessful) (transfers db) in
  (update_transfers (waiting_on db unsuccessful) (λ _, set_step_skipped now) db, (released, skipped)).

(* -------------------------------------------------------------------- *)
(** ** What a sweep does to a row *)

Definition period (since : Z) : Z := if since <=? 0 then 30 * Second else since.

#[local] Arguments bool_decide : simpl never.

(** A row after a sweep: [w] says whether it was worked on. *)
Definition swept (now since : Z) (w : bool) (r : transfer) : transfer :=
  if bool_decide (t_state r ∈ liveTransferStates) then
    if bool_decide (is_Some (t_started r)) then
      match gap_from now r with
      | Some gap => if believed (period since) gap && w then set_accrued now r else set_anchored now r
      | None => set_anchored now r
      end
    else r
  else match gap_to_completion r with
       | Some gap => if believed (period since) gap then set_closed r else r <| t_last_active := None |>
       | None => r <| t_last_active := None |>
       end.

Lemma unanchored (r : transfer) : t_last_active r = None → r <| t_last_active := None |> = r.
Proof. destruct r. simpl. by intros ->. Qed.

Lemma transfers_update p f db t :
  transfers (update_transfers p f db) !! t = (λ r, if p t r then f t r else r) <$> transfers db !! t.
Proof. unfold update_transfers. simpl. apply lookup_update_where. Qed.

Lemma settled_statements since t (r : transfer) :
  t_state r ∈ liveTransferStates → closes since t r = false ∧ releases t r = false.
Proof. intros Hr. unfold closes, releases. rewrite (bool_decide_true _ Hr). split; reflexivity. Qed.

Lemma anchored_twice now (r : transfer) : t_last_active r = Some now → set_anchored now r = r.
Proof. destruct r. unfold set_anchored. simpl. by intros ->. Qed.

Lemma AccrueActiveTime_rows now since db t :
  transfers (AccrueActiveTime now since db).1 !! t =
  (λ r, swept now since (worked db t r) r) <$> transfers db !! t.
Proof.
  unfold AccrueActiveTime. fold (period since). set (since' := period since). cbn [fst].
  rewrite !transfers_update. destruct (transfers db !! t) as [r|]; [|done].
  cbn [fmap option_fmap option_map]. f_equal.
  set (r1 := if accrues now since' db t r then _ else r).
  set (db1 := update_transfers (accrues now since' db) _ db).
  set (r2 := if reanchors now since' db1 t r1 then _ else r1).
  assert (∀ x, worked db1 t x = worked db t x) as Hw by done.
  unfold swept. fold since'. case_bool_decide as Hlive.
  - assert (t_state r1 = t_state r) as E1 by (unfold r1; by destruct (accrues _ _ _ _ _)).
    assert (t_state r2 = t_state r) as E2 by (unfold r2; by destruct (reanchors _ _ _ _ _)).
    destruct (settled_statements since' t r2) as [-> ->]; [by rewrite E2|].
    assert (∀ x, t_state x = t_state r → t_started x = t_started r →
      sweeping x = bool_decide (is_Some (t_started r))) as Hsw.
    { intros x Ex Ey. unfold sweeping. by rewrite Ex, Ey, (bool_decide_true _ Hlive). }
    unfold r2, reanchors. unfold r1 in *. unfold accrues in *. rewrite (Hsw r) in * by done.
    destruct (bool_decide (is_Some (t_started r))) eqn:Hs; cbn [andb] in *.
    + destruct (gap_from now r) as [gap|] eqn:Eg; [destruct (believed since' gap) eqn:Eb, (worked db t r) eqn:Ew|];
        cbn [andb] in *.
      * rewrite Hsw by done. cbn [andb]. destruct (match gap_from now (set_accrued now r) with Some _ => _ | None => _ end);
          [by apply anchored_twice|done].
      * rewrite Hsw, Eg, Hw, Eb, Ew by done. done.
      * rewrite Hsw, Eg, Hw, Eb, Ew by done. done.
      * rewrite Hsw, Eg, Hw, Eb, Ew by done. done.
      * rewrite Hsw, Eg by done. done.
    + rewrite Hsw by done. done.
  - assert (r1 = r) as E1 by (unfold r1, accrues, sweeping; by rewrite (bool_decide_false _ Hlive)).
    assert (r2 = r) as -> by (unfold r2, reanchors, sweeping; by rewrite E1, (bool_decide_false _ Hlive)).
    unfold closes, releases. rewrite (bool_decide_false _ Hlive). simpl.
    destruct (gap_to_completion r) as [gap|] eqn:Eg; [destruct (believed since' gap)|]; simpl.
    + rewrite (bool_decide_false _ Hlive). simpl. done.
    + rewrite (bool_decide_false _ Hlive). simpl. destruct (t_last_active r) eqn:Ea; [done|]. exact (eq_sym (unanchored r Ea)).
    + rewrite (bool_decide_false _ Hlive). simpl. destruct (t_last_active r) eqn:Ea; [done|]. exact (eq_sym (unanchored r Ea)).
Qed.

(** The end of a transfer's wall clock: now while it is live, its completion
    once it is not. *)
Definition wall (now : Z) (r : transfer) : Z :=
  if bool_decide (t_state r ∈ liveTransferStates) then now else default now (t_completed r).

(** The time credited lies within the wall clock, and the anchor after it. *)
Definition timed (now : Z) (r : transfer) : Prop :=
  0 ≤ t_active r ∧
  match t_started r, t_last_active r with
  | None, anchor => t_active r = 0 ∧ anchor = None
  | Some started, None => t_active r ≤ wall now r - started
  | Some started, Some anchor => t_active r ≤ anchor - started ∧ anchor ≤ wall now r
  end.

Lemma believed_true since gap : believed since gap = true ↔ 0 ≤ gap ≤ since * activeSweepGapFactor.
Proof. unfold believed. rewrite andb_true_iff, !Z.leb_le. done. Qed.

Lemma timed_swept now now' since w r : now ≤ now' → timed now r → timed now' (swept now' since w r).
Proof.
  intros Hle [Hpos Ht]. unfold swept. case_bool_decide as Hlive.
  - assert (∀ x : transfer, t_state x = t_state r → wall now' x = now') as Hw.
    { intros x Ex. unfold wall. by rewrite Ex, (bool_decide_true _ Hlive). }
    assert (wall now r = now) as Hwr by (unfold wall; by rewrite (bool_decide_true _ Hlive)).
    rewrite Hwr in Ht. destruct (t_started r) as [s|] eqn:Es.
    + rewrite bool_decide_true by eauto. unfold gap_from. destruct (t_last_active r) as [a|] eqn:Ea; simpl.
      * destruct (believed _ _ && w) eqn:Eb.
        -- apply andb_true_iff in Eb as [Eb%believed_true _]. unfold timed, set_accrued, gap_from. simpl.
           rewrite Es, Ea. simpl. unfold wall. simpl. rewrite (bool_decide_true _ Hlive). lia.
        -- unfold timed, set_anchored. simpl. rewrite Es. unfold wall. simpl. rewrite (bool_decide_true _ Hlive). lia.
      * unfold timed, set_anchored. simpl. rewrite Es. unfold wall. simpl. rewrite (bool_decide_true _ Hlive). lia.
    + rewrite bool_decide_false by by intros []. unfold timed. by rewrite Es.
  - assert (∀ m : Z, wall m r = default m (t_completed r)) as Hw.
    { intros m. unfold wall. by rewrite (bool_decide_false _ Hlive). }
    assert (∀ x : transfer, t_state x = t_state r → t_completed x = t_completed r →
      wall now' x = default now' (t_completed r)) as Hw'.
    { intros x Ex Ey. unfold wall. by rewrite Ex, Ey, (bool_decide_false _ Hlive). }
    rewrite Hw in Ht. assert (default now (t_completed r) ≤ default now' (t_completed r)) as Hc by by destruct (t_completed r).
    unfold gap_to_completion, timed in *. destruct (t_last_active r) as [a|] eqn:Ea; simpl.
    + destruct (t_started r) as [s|] eqn:Es; [|by destruct Ht].
      destruct (t_completed r) as [c|] eqn:Ec; simpl.
      * destruct (believed _ _) eqn:Eb; simpl; rewrite ?Es, ?Hw' by done; simpl in *;
          [apply believed_true in Eb; unfold gap_to_completion; rewrite Ea; simpl; rewrite Ec; simpl; lia|lia].
      * rewrite ?Es, Hw' by done. simpl in *. lia.
    + destruct (t_started r) as [s|] eqn:Es; [|done]. rewrite Hw' by done. lia.
Qed.

Lemma timed_running now now' r :
  now ≤ now' → t_state r = TransferReady → timed now r → timed now' (set_running now' r).
Proof.
  intros Hle Hs [Hpos Ht]. assert (wall now r = now) as Hw by (unfold wall; by rewrite Hs).
  assert (wall now' (set_running now' r) = now') as Hw' by done.
  rewrite Hw in Ht. unfold timed. rewrite Hw'. simpl. destruct (t_started r), (t_last_active r); simpl in *; try lia. by destruct Ht.
Qed.

(** C22. The time a transfer is said to have been worked on lies within its wall
    clock.  If it does before a sweep, it does after it, whatever the clock has
    done since, whatever was in a worker's hands and however long nobody swept;
    and one sweep credits a transfer with at most four periods. *)
Theorem active_time_is_within_the_wall_clock now now' since db :
  now ≤ now' →
  (∀ t r, transfers db !! t = Some r → timed now r) →
  ∀ t r, transfers (AccrueActiveTime now' since db).1 !! t = Some r →
    timed now' r ∧
    (∃ r0, transfers db !! t = Some r0 ∧
       t_active r0 ≤ t_active r ≤ t_active r0 + activeSweepGapFactor * period since) ∧
    (∀ started, t_started r = Some started → t_active r ≤ wall now' r - started).
Proof.
  intros Hle Ht t r. rewrite AccrueActiveTime_rows. intros (r0 & Hr0 & ->)%fmap_Some.
  assert (timed now' (swept now' since (worked db t r0) r0)) as Hs by by eapply timed_swept, Ht.
  split; [done|]. split.
  - exists r0. split; [done|]. clear Hs. assert (0 ≤ period since) as Hp.
    { unfold period. destruct (Z.leb_spec since 0); [done|lia]. }
    unfold swept. case_bool_decide; [case_bool_decide; [|unfold activeSweepGapFactor; lia]|].
    + destruct (gap_from now' r0) as [gap|] eqn:Eg; [destruct (believed _ gap && _) eqn:Eb|]; simpl; unfold activeSweepGapFactor in *; try lia.
      apply andb_true_iff in Eb as [Eb%believed_true _]. rewrite Eg. simpl. unfold activeSweepGapFactor in *. lia.
    + destruct (gap_to_completion r0) as [gap|] eqn:Eg; [destruct (believed _ gap) eqn:Eb|]; simpl; unfold activeSweepGapFactor in *; try lia.
      apply believed_true in Eb. rewrite Eg. simpl. unfold activeSweepGapFactor in *. lia.
  - intros started Es. destruct Hs as [Hpos Hs]. rewrite Es in Hs. destruct (t_last_active _); lia.
Qed.


(* -------------------------------------------------------------------- *)
(** ** Examples *)

(** A transfer started at ten seconds, with a job in a worker's hands. *)
Definition fleet_db : DB :=
  example_db [(1, (example_job "t" KBlob "d" JobLeased 0) <| j_started := Some (10 * Second) |>)]
    [("t", (example_transfer TransferRunning 0) <| t_started := Some (10 * Second) |>
             <| t_last_active := Some (10 * Second) |>)].

Example a_sweep_credits_a_period :
  ((λ r, (t_active r, t_last_active r)) <$> transfers (AccrueActiveTime (40 * Second) 0 fleet_db).1 !! "t",
   (AccrueActiveTime (40 * Second) 0 fleet_db).2) = (Some (30 * Second, Some (40 * Second)), 1%nat).
Proof. vm_compute. reflexivity. Qed.

(** Nobody swept for an hour: none of it is credited. *)
Example an_outage_is_not_credited :
  (λ r, (t_active r, t_last_active r)) <$> transfers (AccrueActiveTime (60 * Minute) 0 fleet_db).1 !! "t" =
  Some (0, Some (60 * Minute)).
Proof. vm_compute. reflexivity. Qed.

Lemma active_time_is_within_the_wall_clock_witness :
  ∃ r, transfers (AccrueActiveTime (40 * Second) 0 fleet_db).1 !! "t" = Some r ∧ timed (40 * Second) r.
Proof.
  assert (∀ t x, transfers fleet_db !! t = Some x → timed (10 * Second) x) as Hdb.
  { intros t x Hx. unfold fleet_db, example_db in Hx. simpl in Hx.
    apply lookup_insert_Some in Hx as [[<- <-]|[_ Hx]]; [|rewrite lookup_empty in Hx; discriminate Hx].
    split; [vm_compute; discriminate|vm_compute; split; discriminate]. }
  destruct (transfers (AccrueActiveTime (40 * Second) 0 fleet_db).1 !! "t") as [r|] eqn:Hr;
    [exists r; split; [reflexivity|]|vm_compute in Hr; discriminate Hr].
  assert (10 * Second ≤ 40 * Second) as Hle by (vm_compute; discriminate).
  exact (proj1 (active_time_is_within_the_wall_clock (10 * Second) (40 * Second) 0 fleet_db Hle Hdb "t" r Hr)).
Defined.
