(* ===== verification/Backlog.v ===== *)
(** * The backlog of unplanned transfers

    PendingTransfers and SettleRequest of internal/store/queue.go, which the
    expander reads its work from and closes its requests with, and MarkSyncing and
    SettleDelegated of internal/store/replication.go, the life of a transfer whose
    destination fetches for itself. *)

From S2P Require Import Prelude GoStrings StateMachine Backoff Schema Completion.
Open Scope Z_scope.

Record PendingTransfer := mkPendingTransfer {
  pg_ID : string;
  pg_RequestID : string;
  pg_ProductID : Z;
  pg_ProductName : string;
  pg_PackageID : Z;
  pg_Operation : string;
  pg_SourceRepoID : Z;
  pg_TargetRepoID : Z;
  pg_Priority : Z }.

(** t.state IN ('pending','planning') *)
Definition unplanned (r : transfer) : bool := bool_decide (t_state r ∈ [TransferPending; TransferPlanning]).

(** A row of the join with transfer_requests and products. *)
Definition pending_row (db : DB) (i : string) (r : transfer) : option PendingTransfer :=
  q ← requests db !! t_request r;
  name ← products db !! r_product q;
  Some (mkPendingTransfer i (t_request r) (r_product q) name (t_package r) (r_operation q) (t_source_repo r)
          (t_target_repo r) (t_priority r)).

Definition is_pending (db : DB) (i : string) (r : transfer) : bool :=
  unplanned r && bool_decide (is_Some (pending_row db i r)).

(** ORDER BY t.priority DESC, t.created_at, t.id *)
Definition first_come (a b : string * transfer) : bool :=
  if negb (t_priority a.2 =? t_priority b.2) then t_priority b.2 <? t_priority a.2
  else if negb (t_created a.2 =? t_created b.2) then t_created a.2 <? t_created b.2
  else String.ltb a.1 b.1.

Definition backlog (db : DB) : list (string * transfer) :=
  slice_stable first_come (select_where (is_pending db) (transfers db)).

Definition PendingTransfers (limit : Z) (db : DB) : list PendingTransfer :=
  let limit := if limit <=? 0 then 50 else limit in
  omap (λ x, pending_row db x.1 x.2) (take (Z.to_nat limit) (backlog db)).

(** WHERE id = ? AND state = 'pending' AND NOT EXISTS (an unplanned transfer of it) *)
Definition closes_request (id : string) (db : DB) (i : string) (q : request) : bool :=
  bool_decide (i = id) && String.eqb (r_state q) "pending" &&
  negb (exists_where (λ _ r, bool_decide (t_request r = i) && unplanned r) (transfers db)).

Definition SettleRequest (now : Z) (id : string) (db : DB) : DB :=
  db <| requests ::= update_where (closes_request id db) (λ _ q, q <| r_state := "expanded" |> <| r_updated := now |>) |>.

Definition MarkSyncing (now : Z) (t strategy : string) (db : DB) : DB :=
  update_transfers
    (λ i r, bool_decide (i = t) && bool_decide (t_state r ∈ [TransferPending; TransferPlanning; TransferFailed]))
    (λ _ r, r <| t_state := TransferSyncing |> <| t_strategy := strategy |>
       <| t_started := Some (default now (t_started r)) |> <| t_updated := now |>) db.

(** The outcomes a delegated transfer may have. *)
Definition delegated_outcome (state : string) : option TransferState :=
  if String.eqb state "succeeded" then Some TransferSucceeded
  else if String.eqb state "diverged" then Some TransferDiverged
  else if String.eqb state "failed" then Some TransferFailed
  else None.

Definition SettleDelegated (now : Z) (t state reason : string) (db : DB) : result DB :=
  match delegated_outcome state with
  | None => Err (ECheckViolation "state" state)
  | Some st =>
      Ok (update_transfers (λ i r, bool_decide (i = t) && bool_decide (t_state r = TransferSyncing))
            (λ _ r, r <| t_state := st |> <| t_failure_reason := nullIfEmpty reason |>
               <| t_completed := Some now |> <| t_updated := now |>) db)
  end.

(* -------------------------------------------------------------------- *)
(** ** Lemmas *)

#[export] Instance first_come_weak : WeakLess first_come.
Proof.
  apply (weak_lex (λ a : string * transfer, t_priority a.2) Z.eqb (λ x y, Z.ltb y x)).
  apply (weak_lex (λ a : string * transfer, t_created a.2) Z.eqb Z.ltb).
  apply (weak_key fst String.eqb String.ltb).
Qed.

Lemma elem_of_backlog db i r : (i, r) ∈ backlog db ↔ transfers db !! i = Some r ∧ is_pending db i r = true.
Proof. unfold backlog. by rewrite slice_stable_Permutation, elem_of_select_where. Qed.

Lemma NoDup_backlog db : NoDup (backlog db).*1.
Proof. unfold backlog. rewrite slice_stable_Permutation. apply NoDup_select_where. Qed.

Lemma length_backlog db : length (backlog db) = count_where (is_pending db) (transfers db).
Proof. unfold backlog, count_where. by rewrite slice_stable_Permutation. Qed.

Lemma is_pending_true db i r : is_pending db i r = true ↔
  t_state r ∈ [TransferPending; TransferPlanning] ∧ is_Some (pending_row db i r).
Proof. unfold is_pending, unplanned. by rewrite andb_true_iff, !bool_decide_eq_true. Qed.

Lemma pending_row_ID db i r p : pending_row db i r = Some p → pg_ID p = i ∧ pg_RequestID p = t_request r.
Proof.
  unfold pending_row. intros (q & _ & (name & _ & [= <-])%bind_Some)%bind_Some. done.
Qed.

(** Every row of the front of the backlog is read. *)
Lemma PendingTransfers_ids limit db :
  pg_ID <$> PendingTransfers limit db = (take (Z.to_nat (if limit <=? 0 then 50 else limit)) (backlog db)).*1.
Proof.
  unfold PendingTransfers. cbv zeta. generalize (Z.to_nat (if limit <=? 0 then 50 else limit)) as n. intros n.
  assert (∀ x, x ∈ take n (backlog db) → is_Some (pending_row db x.1 x.2)) as Hall.
  { intros [i r] Hx. apply elem_of_take in Hx as (k & Hk & _). apply list_elem_of_lookup_2, elem_of_backlog in Hk as [_ Hp].
    by apply is_pending_true in Hp as [_ Hp]. }
  induction (take n (backlog db)) as [|x l IH]; [done|]. simpl.
  destruct (Hall x) as [p Hp]; [left|]. rewrite Hp. simpl. f_equal; [by apply pending_row_ID in Hp as [? _]|].
  apply IH. intros y Hy. apply Hall. by right.
Qed.

(** The rows a listing reads are rows of unplanned transfers. *)
Lemma elem_of_PendingTransfers limit db p : p ∈ PendingTransfers limit db →
  ∃ r, transfers db !! pg_ID p = Some r ∧ t_state r ∈ [TransferPending; TransferPlanning] ∧
    pending_row db (pg_ID p) r = Some p.
Proof.
  unfold PendingTransfers. intros ([i r] & Hin & Hp)%list_elem_of_omap. simpl in Hp.
  apply elem_of_take in Hin as (k & Hk & _). apply list_elem_of_lookup_2, elem_of_backlog in Hk as [Hr Hd].
  apply is_pending_true in Hd as [Hd _]. destruct (pending_row_ID _ _ _ _ Hp) as [E _]. exists r. by rewrite E.
Qed.

(** The backlog is taken in turn.  A listing is the front of the backlog, each
    transfer once: the unplanned transfers whose request and product are there,
    those of higher priority first, the older of equals first; one it leaves out,
    when it is not full, is not one of them. *)
Theorem the_backlog_is_taken_in_turn limit db :
  let n := Z.to_nat (if limit <=? 0 then 50 else limit) in
  let listed := PendingTransfers limit db in
  NoDup (pg_ID <$> listed) ∧ length listed = (n `min` count_where (is_pending db) (transfers db))%nat ∧
  (∀ p, p ∈ listed → ∃ r, transfers db !! pg_ID p = Some r ∧ t_state r ∈ [TransferPending; TransferPlanning] ∧
     pending_row db (pg_ID p) r = Some p) ∧
  (∀ i r p r', transfers db !! i = Some r → is_pending db i r = true → i ∉ pg_ID <$> listed →
     p ∈ listed → transfers db !! pg_ID p = Some r' →
     length listed = n ∧ t_priority r ≤ t_priority r' ∧ (t_priority r = t_priority r' → t_created r' ≤ t_created r)).
Proof.
  intros n listed. pose proof (PendingTransfers_ids limit db) as Hids. fold n listed in Hids.
  assert (length listed = (n `min` length (backlog db))%nat) as Hlen.
  { rewrite <-(length_fmap pg_ID), Hids, length_fmap, length_take. done. }
  split_and!.
  - rewrite Hids, fmap_take. eapply sublist_NoDup; [apply NoDup_backlog|apply sublist_take].
  - by rewrite Hlen, length_backlog.
  - intros p. apply elem_of_PendingTransfers.
  - intros i r p r' Hi Hp Hno Hin Hr'. assert ((i, r) ∈ backlog db) as Hb by by apply elem_of_backlog.
    apply list_elem_of_lookup_1 in Hb as [k Hk].
    assert (n ≤ k)%nat as Hnk.
    { destruct (decide (n ≤ k)%nat); [done|]. destruct Hno. rewrite Hids. apply list_elem_of_fmap. exists (i, r). split; [done|].
      apply elem_of_take. exists k. split; [done|lia]. }
    pose proof (lookup_lt_Some _ _ _ Hk).
    assert (pg_ID p ∈ (take n (backlog db)).*1) as Hq by (rewrite <-Hids; by apply list_elem_of_fmap_2).
    apply list_elem_of_fmap in Hq as ([j x] & E & Hj). simpl in E. apply elem_of_take in Hj as (m & Hm & Hmn).
    assert (x = r') as ->.
    { pose proof (list_elem_of_lookup_2 _ _ _ Hm) as Hx. apply elem_of_backlog in Hx as [Hx _]. congruence. }
    split; [lia|]. pose proof (slice_stable_sorted first_come (select_where (is_pending db) (transfers db))) as Hs.
    assert (not_less first_come (j, r') (i, r)) as Hle by (eapply (proj1 (StronglySorted_lookup _ _) Hs m k); [lia|done|done]).
    unfold not_less, first_come in Hle. simpl in Hle.
    destruct (Z.eqb_spec (t_priority r) (t_priority r')) as [Ep|Ep]; simpl in Hle; [|apply Z.ltb_ge in Hle; lia].
    split; [lia|]. intros _. destruct (Z.eqb_spec (t_created r) (t_created r')) as [Ec|Ec]; simpl in Hle; [lia|apply Z.ltb_ge in Hle; lia].
Qed.
