(* ===== verification/Requests.v ===== *)
(** * Transfer requests

    internal/transfer/request.go: a request's names turned into repositories and
    recorded with one transfer per destination; CreateTransferRequest,
    requestByKey and TransferIDFor of internal/store; and the catalog of
    cmd/coordinator/expand.go the names are resolved against.  Configuration is
    an argument of that catalog, and so are the new UUIDs and the digest of an
    idempotency key. *)

From S2P Require Import Prelude GoStrings StateMachine Backoff Schema Dependencies Leasing Completion Layout Planning.
Open Scope Z_scope.

(* -------------------------------------------------------------------- *)
(** ** What a request names, and what it is refused for *)

Record RepoView := mkRepoView {
  rv_RepositoryID : Z;
  rv_Name : string;
  rv_Role : string;
  rv_Environment : string;
  rv_Registry : string;
  rv_Repository : string;
  rv_RegistryType : string;
  rv_PromotionOnly : bool;
  rv_Default : bool }.

#[export] Instance RepoView_eta : Eta RepoView := λ v,
  mkRepoView (rv_RepositoryID v) (rv_Name v) (rv_Role v) (rv_Environment v) (rv_Registry v)
    (rv_Repository v) (rv_RegistryType v) (rv_PromotionOnly v) (rv_Default v).

#[export] Instance RepoView_eq_dec : EqDecision RepoView.
Proof. solve_decision. Defined.

Record ProductView := mkProductView {
  pv_Name : string;
  pv_Sources : list RepoView;
  pv_Targets : list RepoView;
  pv_PromotionFrom : string;
  pv_PromotionTo : string }.

(** store.PackageRow, the columns requests and the expander read. *)
Record PackageRow := mkPackageRow {
  pk_ID : Z;
  pk_ProductID : Z;
  pk_SourceRepoID : Z;
  pk_Tag : string;
  pk_ManifestDigest : string;
  pk_MediaType : string;
  pk_TransferRootDigest : string }.

Record CreateRequest := mkCreateRequest {
  cr_Product : string;
  cr_Package : string;
  cr_Row : PackageRow;
  cr_From : string;
  cr_To : list string;
  cr_ToEnvironment : string;
  cr_Promote : bool;
  cr_Priority : Z;
  cr_RequestedBy : string;
  cr_Origin : string;
  cr_ValidateOnly : bool }.

Record Resolved := mkResolved {
  rs_Operation : string;
  rs_Origin : RepoView;
  rs_Targets : list RepoView;
  rs_Priority : Z }.

Record CreateResult := mkCreateResult {
  ct_RequestID : string;
  ct_Created : bool;
  ct_Operation : string;
  ct_Origin : RepoView;
  ct_Targets : list RepoView;
  ct_TransferIDs : list string }.

Definition DefaultPriority : Z := 50.

(** The errors of the package, with what their messages interpolate. *)
Inductive Refusal :=
  | NotConfigured (product : string)
  | NoActiveRow (product : string)
  | NotInCatalog (repository : Z)
  | RepositoryGone (package : string) (cause : Refusal)
  | PromoteFromSource (name : string)
  | NotDiscoveredUnder (package from under : string)
  | NoPromotionPath
  | EnvironmentEmpty (environment flag : string)
  | EnvironmentShared (environment flag : string) (names : list string)
  | WhichOrigin (product : string) (candidates : nat)
  | WhichDestination (product : string) (promotionOnly : nat)
  | WhichTarget (product : string) (targets : nat)
  | NoSuchName (product name : string) (available : list string)
  | SourceAsDestination (name : string)
  | NoSuchEnvironment (product environment : string) (configured : list string)
  | NoEnabledTarget (product : string)
  | NotRegistered (target : string) (cause : Refusal)
  | OriginIsDestination (name : string)
  | OnlyByPromotion (target : string)
  | OriginHasNoRow (name : string)
  | TargetHasNoRow (name : string)
  | NotStored (cause : Error).

#[export] Instance refusal_ret : MRet (sum Refusal) := λ A, inr.
#[export] Instance refusal_bind : MBind (sum Refusal) := λ A B k r,
  match r with inl e => inl e | inr a => k a end.

Lemma refusal_bind_inr {A B} (k : A → Refusal + B) r b :
  r ≫= k = inr b ↔ ∃ a, r = inr a ∧ k a = inr b.
Proof. destruct r; simpl; naive_solver. Qed.

Definition refuse_unless (c : bool) (e : Refusal) : Refusal + unit := if c then inr tt else inl e.

Lemma refuse_unless_inr c e u : refuse_unless c e = inr u ↔ c = true.
Proof. destruct c, u; simpl; naive_solver. Qed.

(** What resolution asks of configuration joined to the catalog. EnsureTarget
    commits what it creates. *)
Class Catalog := {
  ProductView_of : string → DB → Refusal + ProductView;
  RepositoryByID : Z → DB → Refusal + RepoView;
  EnsureTarget : string → RepoView → DB → DB * (Refusal + Z);
  TargetsHolding : Z → DB → Refusal + list string }.

(* -------------------------------------------------------------------- *)
(** ** Choosing among what is configured *)

Definition inEnvironment (targets : list RepoView) (environment : string) : list RepoView :=
  filter (λ t, rv_Environment t = environment) targets.

Definition replicable (targets : list RepoView) : list RepoView :=
  filter (λ t, rv_PromotionOnly t = false) targets.

Definition hasEnvironments (view : ProductView) : bool :=
  existsb (λ t, negb (String.eqb (rv_Environment t) "")) (pv_Targets view).

Definition named (name : string) (l : list RepoView) : option RepoView :=
  head (filter (λ t, rv_Name t = name) l).

Definition targetNamed (view : ProductView) (name : string) : option RepoView := named name (pv_Targets view).

Definition allNames (view : ProductView) : list string :=
  sort_strings ((rv_Name <$> pv_Sources view) ++ (rv_Name <$> pv_Targets view)).

(** Targets before sources. *)
Definition byName (view : ProductView) (name : string) : Refusal + RepoView :=
  match named name (pv_Targets view ++ pv_Sources view) with
  | Some r => inr r
  | None => inl (NoSuchName (pv_Name view) name (allNames view))
  end.

Definition exactlyOneIn (targets : list RepoView) (environment flag : string) : Refusal + RepoView :=
  if String.eqb environment "" then inl NoPromotionPath
  else match inEnvironment targets environment with
  | [t] => inr t
  | [] => inl (EnvironmentEmpty environment flag)
  | ts => inl (EnvironmentShared environment flag (rv_Name <$> ts))
  end.

Definition noSuchEnvironment (view : ProductView) (environment : string) : Refusal :=
  NoSuchEnvironment (pv_Name view) environment
    (sort_strings (firsts id ∅ (filter (λ e, e ≠ "") (rv_Environment <$> pv_Targets view)))).

(** Everything before the first slash, if that is something. *)
Definition configuredName (rowName : string) : string :=
  match cut_first slash rowName with
  | Some (configured, _) => if String.eqb configured "" then rowName else configured
  | None => rowName
  end.

Definition is_promote (operation : string) : bool := String.eqb operation "promote".

Fixpoint destinations_named (view : ProductView) (names : list string) : Refusal + list RepoView :=
  match names with
  | [] => inr []
  | name :: names =>
      t ← byName view name;
      _ ← refuse_unless (String.eqb (rv_Role t) "target") (SourceAsDestination name);
      ts ← destinations_named view names;
      inr (t :: ts)
  end.

Definition selectTargets (view : ProductView) (req : CreateRequest) (operation : string) : Refusal + list RepoView :=
  if negb (bool_decide (cr_To req = [])) then destinations_named view (cr_To req)
  else if negb (String.eqb (cr_ToEnvironment req) "") then
    match inEnvironment (pv_Targets view) (cr_ToEnvironment req) with
    | [] => inl (noSuchEnvironment view (cr_ToEnvironment req))
    | ts => inr ts
    end
  else if is_promote operation then
    if hasEnvironments view then
      t ← exactlyOneIn (pv_Targets view) (pv_PromotionTo view) "--to"; inr [t]
    else match filter (λ t, rv_PromotionOnly t = true) (pv_Targets view) with
    | [t] => inr [t]
    | only => inl (WhichDestination (pv_Name view) (length only))
    end
  else match pv_Targets view with
  | [t] => inr [t]
  | ts =>
      match filter (λ t, rv_Default t = true) ts with
      | t :: _ => inr [t]
      | [] => match replicable ts with
              | [t] => inr [t]
              | _ => inl (WhichTarget (pv_Name view) (length ts))
              end
      end
  end.

(* -------------------------------------------------------------------- *)
(** ** Resolution *)

Section resolution.
Context `{Catalog}.

(** The single candidate that holds the release; a lookup that fails is none. *)
Definition onlyHolder (candidates : list RepoView) (packageID : Z) (db : DB) : option RepoView :=
  if bool_decide (packageID = 0) || bool_decide (candidates = []) then None
  else match TargetsHolding packageID db with
  | inl _ => None
  | inr holding =>
      match filter (λ c, rv_Name c ∈ holding) candidates with
      | [c] => Some c
      | _ => None
      end
  end.

Definition promotionOrigin (view : ProductView) (packageID : Z) (db : DB) : Refusal + RepoView :=
  if hasEnvironments view then
    match exactlyOneIn (pv_Targets view) (pv_PromotionFrom view) "--from" with
    | inr origin => inr origin
    | inl err =>
        let candidates := match inEnvironment (pv_Targets view) (pv_PromotionFrom view) with
                          | [] => pv_Targets view
                          | ts => ts
                          end in
        match onlyHolder candidates packageID db with
        | Some held => inr held
        | None => inl err
        end
    end
  else
    let ordinary := replicable (pv_Targets view) in
    match ordinary with
    | [t] => inr t
    | _ => match onlyHolder ordinary packageID db with
           | Some held => inr held
           | None => inl (WhichOrigin (pv_Name view) (length ordinary))
           end
    end.

Definition package_origin (req : CreateRequest) (db : DB) : Refusal + RepoView :=
  match RepositoryByID (pk_SourceRepoID (cr_Row req)) db with
  | inl cause => inl (RepositoryGone (cr_Package req) cause)
  | inr origin =>
      if String.eqb (cr_From req) "" ||
         (String.eqb (configuredName (rv_Name origin)) (cr_From req) || String.eqb (rv_Name origin) (cr_From req))
      then inr origin
      else inl (NotDiscoveredUnder (cr_Package req) (cr_From req) (configuredName (rv_Name origin)))
  end.

Definition resolveOrigin (view : ProductView) (req : CreateRequest) (db : DB) : Refusal + RepoView :=
  if negb (String.eqb (cr_From req) "") then
    match targetNamed view (cr_From req) with
    | Some t => inr t
    | None => package_origin req db
    end
  else if cr_Promote req then promotionOrigin view (pk_ID (cr_Row req)) db
  else package_origin req db.

(** A target without a row gets one. *)
Fixpoint register (product : string) (targets : list RepoView) (db : DB) : DB * (Refusal + list RepoView) :=
  match targets with
  | [] => (db, inr [])
  | t :: ts =>
      let '(db, r) := if rv_RepositoryID t =? 0
                      then let '(db, id) := EnsureTarget product t db in
                           (db, match id with
                                | inl cause => inl (NotRegistered (rv_Name t) cause)
                                | inr id => inr (t <| rv_RepositoryID := id |>)
                                end)
                      else (db, inr t) in
      match r with
      | inl err => (db, inl err)
      | inr t => let '(db, r) := register product ts db in (db, ts ← r; inr (t :: ts))
      end
  end.

Fixpoint admit_targets (operation : string) (origin : RepoView) (targets : list RepoView) : Refusal + unit :=
  match targets with
  | [] => inr tt
  | t :: ts =>
      _ ← refuse_unless (negb (rv_RepositoryID t =? rv_RepositoryID origin)) (OriginIsDestination (rv_Name t));
      _ ← refuse_unless (negb (rv_PromotionOnly t) || is_promote operation) (OnlyByPromotion (rv_Name t));
      admit_targets operation origin ts
  end.

Definition resolveTargets (view : ProductView) (req : CreateRequest) (operation : string) (origin : RepoView)
    (db : DB) : DB * (Refusal + list RepoView) :=
  match selectTargets view req operation with
  | inl err => (db, inl err)
  | inr [] => (db, inl (NoEnabledTarget (pv_Name view)))
  | inr targets =>
      let '(db, r) := register (pv_Name view) targets db in
      (db, targets ← r; _ ← admit_targets operation origin targets; inr targets)
  end.

Definition operation_of (origin : RepoView) : string :=
  if String.eqb (rv_Role origin) "target" then "promote" else "replicate".

(** What has to be settled before the destinations are. *)
Definition resolve_from (req : CreateRequest) (db : DB) : Refusal + (ProductView * RepoView) :=
  view ← ProductView_of (cr_Product req) db;
  origin ← resolveOrigin view req db;
  _ ← refuse_unless (negb (cr_Promote req) || is_promote (operation_of origin)) (PromoteFromSource (rv_Name origin));
  inr (view, origin).

Definition priority_of (req : CreateRequest) : Z :=
  if cr_Priority req <=? 0 then DefaultPriority else cr_Priority req.

Definition Resolve (req : CreateRequest) (db : DB) : DB * (Refusal + Resolved) :=
  match resolve_from req db with
  | inl err => (db, inl err)
  | inr (view, origin) =>
      let '(db, r) := resolveTargets view req (operation_of origin) origin db in
      (db, targets ← r; inr (mkResolved (operation_of origin) origin targets (priority_of req)))
  end.
End resolution.

(* -------------------------------------------------------------------- *)
(** ** The Coordinator's catalog

    resolverImpl: the loaded configuration joined to the rows.  Reconciliation
    decides which rows are active; it is not modelled, and its answer is an
    argument. *)

Record SourceSpec := mkSourceSpec {
  so_Name : string;
  so_Registry : string;
  so_Type : string;
  so_Enabled : bool }.

Record TargetSpec := mkTargetSpec {
  tg_Name : string;
  tg_Environment : string;
  tg_Registry : string;
  tg_Repository : string;
  tg_Type : string;
  tg_PromotionOnly : bool;
  tg_Default : bool;
  tg_Enabled : bool }.

Record Product := mkProduct {
  pr_Name : string;
  pr_Sources : list SourceSpec;
  pr_Targets : list TargetSpec;
  pr_Promotion : option (string * string) }.

Definition DefaultPromotionFrom : string := "lab".
Definition DefaultPromotionTo : string := "production".

Definition or_default (v d : string) : string := if String.eqb v "" then d else v.

Definition PromotionPath (p : Product) : string * string :=
  match pr_Promotion p with
  | None => (DefaultPromotionFrom, DefaultPromotionTo)
  | Some (from, to) => (or_default from DefaultPromotionFrom, or_default to DefaultPromotionTo)
  end.

(** ORDER BY created_at DESC, id DESC *)
Definition newest_first (a b : string * transfer) : bool :=
  if negb (t_created a.2 =? t_created b.2) then t_created b.2 <? t_created a.2 else String.ltb b.1 a.1.

#[export] Instance newest_first_weak : WeakLess newest_first.
Proof.
  apply (weak_lex (λ a : string * transfer, t_created a.2) Z.eqb (λ x y, Z.ltb y x)
    (λ a b : string * transfer, String.ltb b.1 a.1)).
  split.
  - intros x y. destruct (wl_total (WeakLess := weak_key fst String.eqb String.ltb) x y); auto.
  - intros x y z H1 H2. exact (wl_trans (WeakLess := weak_key fst String.eqb String.ltb) z y x H2 H1).
Qed.

Section resolver.
Context `{RowIds} (loaded : string → option Product) (active_product active_repository : Z → bool).

(** LIMIT 1 of rows in no stated order: the one with the least id. *)
Definition ResolveRepository (productName repoName : string) (db : DB) : option Z :=
  fst <$> head (select_where (λ id r, bool_decide (products db !! rp_product r = Some productName) &&
                  bool_decide (rp_name r = repoName) && active_repository id) (repositories db)).

Definition source_view (s : SourceSpec) : RepoView :=
  mkRepoView 0 (so_Name s) "source" "" (so_Registry s) "" (so_Type s) false false.

Definition target_view (productName : string) (db : DB) (t : TargetSpec) : RepoView :=
  mkRepoView (default 0 (ResolveRepository productName (tg_Name t) db)) (tg_Name t) "target"
    (tg_Environment t) (tg_Registry t) (tg_Repository t) (tg_Type t) (tg_PromotionOnly t) (tg_Default t).

Definition resolver_view (productName : string) (db : DB) : Refusal + ProductView :=
  match loaded productName with
  | None => inl (NotConfigured productName)
  | Some p =>
      inr (mkProductView productName
             (source_view <$> filter (λ s, so_Enabled s = true) (pr_Sources p))
             (target_view productName db <$> filter (λ t, tg_Enabled t = true) (pr_Targets p))
             (PromotionPath p).1 (PromotionPath p).2)
  end.

Definition resolver_by_id (id : Z) (db : DB) : Refusal + RepoView :=
  match HydrateEndpoints [id] db !! id with
  | None => inl (NotInCatalog id)
  | Some e => inr (mkRepoView (RepositoryID e) (EName e) (ERole e) "" (ERegistry e) (ERepository e)
                     (ERegistryType e) false false)
  end.

Definition productID (name : string) (db : DB) : Refusal + Z :=
  match select_where (λ id n, bool_decide (n = name) && active_product id) (products db) with
  | (id, _) :: _ => inr id
  | [] => inl (NoActiveRow name)
  end.

Definition resolver_ensure (productName : string) (target : RepoView) (db : DB) : DB * (Refusal + Z) :=
  match loaded productName with
  | None => (db, inl (NotConfigured productName))
  | Some p =>
      match productID (pr_Name p) db with
      | inl err => (db, inl err)
      | inr id =>
          match EnsureRepository id "target" (rv_Name target) (rv_Registry target) (rv_Repository target)
                  (rv_RegistryType target) db with
          | Ok (db, id) => (db, inr id)
          | Err e => (db, inl (NotStored e))
          end
      end
  end.

Definition holding_limit : nat := 100.

(** The package's transfers, newest first; only one that succeeded has put the
    package where it went. *)
Definition resolver_holding (packageID : Z) (db : DB) : Refusal + list string :=
  let listed := take holding_limit (slice_stable newest_first
    (select_where (λ _ t, bool_decide (t_package t = packageID) || (packageID <=? 0)) (transfers db))) in
  inr (firsts id ∅ (filter (λ n, n ≠ "")
    ((λ r : string * transfer, from_option rp_name "" (repositories db !! t_target_repo r.2)) <$>
       filter (λ r, t_state r.2 = TransferSucceeded) listed))).

#[export] Instance resolverImpl : Catalog := {|
  ProductView_of := resolver_view;
  RepositoryByID := resolver_by_id;
  EnsureTarget := resolver_ensure;
  TargetsHolding := resolver_holding |}.
End resolver.

(* -------------------------------------------------------------------- *)
(** ** Recording *)

Record TransferRequestRow := mkTransferRequestRow {
  rr_ID : string;
  rr_ProductID : Z;
  rr_PackageID : Z;
  rr_Operation : string;
  rr_SourceRepoID : Z;
  rr_Priority : Z;
  rr_IdempotencyKey : string;
  rr_RequestedBy : string;
  rr_RequestOrigin : string;
  rr_AutoRuleName : string }.

Definition new_request (now : Z) (row : TransferRequestRow) : request :=
  mkRequest (rr_ProductID row) (rr_PackageID row) (rr_Operation row) (rr_SourceRepoID row)
    (rr_Priority row) (rr_IdempotencyKey row) (rr_RequestedBy row) (rr_RequestOrigin row)
    (nullIfEmpty (rr_AutoRuleName row)) "pending" now now.

(** The CHECKs of the columns. *)
Definition request_checks (row : TransferRequestRow) : result unit :=
  if negb (bool_decide (rr_Operation row ∈ ["replicate"; "promote"; "verify"])) then
    Err (ECheckViolation "operation" (rr_Operation row))
  else if negb ((0 <=? rr_Priority row) && (rr_Priority row <=? 1000)) then
    Err (ECheckViolation "priority" (pretty (rr_Priority row)))
  else if negb (bool_decide (rr_RequestOrigin row ∈ ["api"; "cli"; "auto_download"; "schedule"])) then
    Err (ECheckViolation "request_origin" (rr_RequestOrigin row))
  else Ok tt.

Definition requestByKey (key : string) (db : DB) : result string :=
  match select_where (λ _ r, bool_decide (r_key r = key)) (requests db) with
  | (id, _) :: _ => Ok id
  | [] => Err (EMissingRow "transfer_requests" key)
  end.

(** ON CONFLICT (idempotency_key) DO NOTHING.  The package row a request is
    made for was read before; the other foreign keys are checked here. *)
Definition CreateTransferRequest (now : Z) (row : TransferRequestRow) (db : DB) : result (DB * string * bool) :=
  _ ← request_checks row;
  if exists_where (λ _ r, bool_decide (r_key r = rr_IdempotencyKey row)) (requests db) then
    id ← requestByKey (rr_IdempotencyKey row) db; Ok (db, id, false)
  else if bool_decide (is_Some (requests db !! rr_ID row)) then
    Err (EUniqueViolation "transfer_requests" (rr_ID row))
  else if bool_decide (is_Some (products db !! rr_ProductID row)) &&
          bool_decide (is_Some (repositories db !! rr_SourceRepoID row)) then
    Ok (db <| requests ::= insert (rr_ID row) (new_request now row) |>, rr_ID row, true)
  else Err (EMissingRow "products or repositories" (rr_ID row)).

(** UNIQUE (request_id, target_repo_id). *)
Definition is_transfer_of (requestID : string) (targetRepoID : Z) (_ : string) (t : transfer) : bool :=
  bool_decide (t_request t = requestID) && bool_decide (t_target_repo t = targetRepoID).

Definition TransferIDFor (requestID : string) (targetRepoID : Z) (db : DB) : result string :=
  match select_where (is_transfer_of requestID targetRepoID) (transfers db) with
  | (id, _) :: _ => Ok id
  | [] => Err (ETransferNotFound requestID)
  end.

(** A transfer already open for the destination answers for itself. *)
Definition open_transfer (now : Z) (row : TransferRow) (db : DB) : result (DB * string) :=
  '(db, opened) ← CreateTransfer now row db;
  if opened : bool then Ok (db, tr_ID row)
  else id ← TransferIDFor (tr_RequestID row) (tr_TargetRepoID row) db; Ok (db, id).

Section requests.
Context `{Catalog} (sha256_hex : string → string).

(** sort.Slice over the ids: equal ones are interchangeable. *)
Definition sort_ids (l : list Z) : list Z := order_by (λ i, [i]) l.

Definition key_material (operation : string) (packageID originRepoID : Z) (targetRepoIDs : list Z)
    (scheduledAt : string) (priority : Z) : string :=
  String.concat "|" [operation; FormatInt packageID; FormatInt originRepoID;
    String.concat "," (FormatInt <$> sort_ids targetRepoIDs); scheduledAt; FormatInt priority].

Definition IdempotencyKey (operation : string) (packageID originRepoID : Z) (targetRepoIDs : list Z)
    (scheduledAt : string) (priority : Z) : string :=
  sha256_hex (key_material operation packageID originRepoID targetRepoIDs scheduledAt priority).

Definition first_without_row (targets : list RepoView) : option RepoView :=
  head (filter (λ t, rv_RepositoryID t = 0) targets).

Definition request_row (id : string) (req : CreateRequest) (rs : Resolved) : TransferRequestRow :=
  mkTransferRequestRow id (pk_ProductID (cr_Row req)) (pk_ID (cr_Row req)) (rs_Operation rs)
    (rv_RepositoryID (rs_Origin rs)) (rs_Priority rs)
    (IdempotencyKey (rs_Operation rs) (pk_ID (cr_Row req)) (rv_RepositoryID (rs_Origin rs))
       (rv_RepositoryID <$> rs_Targets rs) "" (rs_Priority rs))
    (or_default (cr_RequestedBy req) "system") (or_default (cr_Origin req) "api") "".

Definition transfer_row (id requestID : string) (req : CreateRequest) (rs : Resolved) (target : RepoView)
    : TransferRow :=
  mkTransferRow id requestID (pk_ID (cr_Row req)) (rv_RepositoryID (rs_Origin rs)) (rv_RepositoryID target)
    (rs_Priority rs) 0 "".

(** [newID i] is the UUID made for the i-th destination. *)
Fixpoint open_transfers (now : Z) (newID : nat → string) (requestID : string) (req : CreateRequest)
    (rs : Resolved) (i : nat) (targets : list RepoView) (db : DB) : result (DB * list string) :=
  match targets with
  | [] => Ok (db, [])
  | t :: ts =>
      '(db, id) ← open_transfer now (transfer_row (newID i) requestID req rs t) db;
      '(db, ids) ← open_transfers now newID requestID req rs (S i) ts db;
      Ok (db, id :: ids)
  end.

(** The transaction: the request, then its transfers. *)
Definition record_request (now : Z) (requestID : string) (newID : nat → string) (req : CreateRequest)
    (rs : Resolved) (db : DB) : result (DB * (string * bool * list string)) :=
  '(db, id, created) ← CreateTransferRequest now (request_row requestID req rs) db;
  '(db, ids) ← open_transfers now newID id req rs 0 (rs_Targets rs) db;
  Ok (db, (id, created, ids)).

Definition Create (now : Z) (requestID : string) (newID : nat → string) (req : CreateRequest) (db : DB)
    : DB * (Refusal + CreateResult) :=
  let '(db, r) := Resolve req db in
  match r with
  | inl err => (db, inl err)
  | inr rs =>
      let out := mkCreateResult "" false (rs_Operation rs) (rs_Origin rs) (rs_Targets rs) [] in
      if cr_ValidateOnly req then (db, inr out)
      else if rv_RepositoryID (rs_Origin rs) =? 0 then (db, inl (OriginHasNoRow (rv_Name (rs_Origin rs))))
      else match first_without_row (rs_Targets rs) with
      | Some t => (db, inl (TargetHasNoRow (rv_Name t)))
      | None =>
          match record_request now requestID newID req rs db with
          | Err e => (db, inl (NotStored e))
          | Ok (db, (id, created, ids)) =>
              (db, inr (mkCreateResult id created (rs_Operation rs) (rs_Origin rs) (rs_Targets rs) ids))
          end
      end
  end.
End requests.

(* -------------------------------------------------------------------- *)
(** ** Lemmas: selection *)

Lemma elem_of_inEnvironment t ts e : t ∈ inEnvironment ts e ↔ rv_Environment t = e ∧ t ∈ ts.
Proof. unfold inEnvironment. by rewrite list_elem_of_filter. Qed.

Lemma named_Some name l t : named name l = Some t → rv_Name t = name ∧ t ∈ l.
Proof. intros Ht%head_Some_elem_of. unfold named in *. by rewrite list_elem_of_filter in Ht. Qed.

Lemma exactlyOneIn_inr ts e flag t :
  exactlyOneIn ts e flag = inr t ↔ e ≠ "" ∧ inEnvironment ts e = [t].
Proof.
  unfold exactlyOneIn. destruct (String.eqb_spec e ""); [naive_solver|].
  destruct (inEnvironment ts e) as [|x [|y l]]; naive_solver.
Qed.

Lemma destinations_named_inr view names ts :
  destinations_named view names = inr ts →
  rv_Name <$> ts = names ∧
  ∀ t, t ∈ ts → rv_Role t = "target" ∧ t ∈ pv_Targets view ++ pv_Sources view.
Proof.
  revert ts. induction names as [|n names IH]; intros ts; simpl.
  { intros [= <-]. split; [done|]. by intros t []%elem_of_nil. }
  intros (t & Ht & (u & Hu%refuse_unless_inr & (l & Hl & [= <-])%refusal_bind_inr)%refusal_bind_inr)%refusal_bind_inr.
  apply String.eqb_eq in Hu. destruct (IH l Hl) as [Hn Hin]. unfold byName in Ht.
  destruct (named n _) as [x|] eqn:Hx; [|done]. injection Ht as ->. apply named_Some in Hx as [<- Hx].
  split; [by rewrite fmap_cons, Hn|]. intros t' [->|Ht']%elem_of_cons; [done|by apply Hin].
Qed.

(** The one destination of a request that names none. *)
Definition sole_destination (view : ProductView) (operation : string) (t : RepoView) : Prop :=
  if is_promote operation then
    if hasEnvironments view
    then pv_PromotionTo view ≠ "" ∧ inEnvironment (pv_Targets view) (pv_PromotionTo view) = [t]
    else filter (λ t, rv_PromotionOnly t = true) (pv_Targets view) = [t]
  else pv_Targets view = [t] ∨
       length (pv_Targets view) ≠ 1%nat ∧
       (head (filter (λ t, rv_Default t = true) (pv_Targets view)) = Some t ∨
        filter (λ t, rv_Default t = true) (pv_Targets view) = [] ∧ replicable (pv_Targets view) = [t]).

(** What a request's destinations are, by how it names them. *)
Definition destinations_of (view : ProductView) (req : CreateRequest) (operation : string)
    (ts : list RepoView) : Prop :=
  if negb (bool_decide (cr_To req = [])) then
    rv_Name <$> ts = cr_To req ∧
    ∀ t, t ∈ ts → rv_Role t = "target" ∧ t ∈ pv_Targets view ++ pv_Sources view
  else if negb (String.eqb (cr_ToEnvironment req) "") then
    ts = inEnvironment (pv_Targets view) (cr_ToEnvironment req) ∧ ts ≠ []
  else ∃ t, ts = [t] ∧ sole_destination view operation t.

Lemma selectTargets_inr view req operation ts :
  selectTargets view req operation = inr ts → destinations_of view req operation ts.
Proof.
  unfold selectTargets, destinations_of, sole_destination.
  destruct (negb (bool_decide _)); [apply destinations_named_inr|].
  destruct (negb (String.eqb _ _)).
  { destruct (inEnvironment _ _) as [|t l]; [done|]. intros [= <-]. done. }
  destruct (is_promote operation).
  - destruct (hasEnvironments view).
    + intros (t & Ht%exactlyOneIn_inr & [= <-])%refusal_bind_inr. eauto.
    + destruct (filter _ _) as [|t [|u l]]; [done| |done]. intros [= <-]. eauto.
  - destruct (pv_Targets view) as [|t [|u l]] eqn:Hts; [done| |].
    + intros [= <-]. eauto.
    + destruct (filter _ _) as [|d ds] eqn:Hd.
      * destruct (replicable _) as [|r [|r' l']] eqn:Hr; [done| |done]. intros [= <-]. exists r. eauto 10.
      * intros [= <-]. exists d. split; [done|]. right. split; [done|]. by left.
Qed.

Lemma destinations_of_nonempty view req operation ts : destinations_of view req operation ts → ts ≠ [].
Proof.
  unfold destinations_of. case_bool_decide as Hto; simpl.
  - destruct (negb _); [by intros [_ H]|]. by intros (t & -> & _).
  - intros [Hn _] ->. by apply Hto.
Qed.

(** The row a target was given, when it had none. *)
Definition registered_as (selected t : RepoView) : Prop :=
  t = selected <| rv_RepositoryID := rv_RepositoryID t |> ∧
  (rv_RepositoryID selected ≠ 0 → t = selected).

Section resolution_lemmas.
Context `{Catalog}.

Lemma register_inr product ts db db' ts' :
  register product ts db = (db', inr ts') → Forall2 registered_as ts ts'.
Proof.
  revert db ts'. induction ts as [|t ts IH]; intros db ts'; simpl; [intros [= _ <-]; constructor|].
  assert (∀ d u, registered_as t u →
    (let '(d', r) := register product ts d in (d', l ← r; inr (u :: l))) = (db', inr ts') →
    Forall2 registered_as (t :: ts) ts') as Hrest.
  { intros d u Hu. destruct (register product ts d) as [d' r] eqn:Hr.
    intros [= -> (l & -> & [= <-])%refusal_bind_inr]. constructor; [done|]. by eapply IH. }
  destruct (Z.eqb_spec (rv_RepositoryID t) 0) as [H0|H0].
  - destruct (EnsureTarget product t db) as [d [cause|id]]; [done|].
    intros Hr. refine (Hrest d _ _ Hr). split; [done|]. intros Hne. done.
  - intros Hr. refine (Hrest db t _ Hr). split; [|done]. by destruct t.
Qed.

Lemma admit_targets_inr operation origin ts u :
  admit_targets operation origin ts = inr u ↔
  ∀ t, t ∈ ts → rv_RepositoryID t ≠ rv_RepositoryID origin ∧
                (rv_PromotionOnly t = true → is_promote operation = true).
Proof.
  destruct u. induction ts as [|t ts IH]; simpl; [split; [by intros _ t []%elem_of_nil|done]|].
  setoid_rewrite elem_of_cons. split.
  - intros ([] & H1%refuse_unless_inr & ([] & H2%refuse_unless_inr & Hr)%refusal_bind_inr)%refusal_bind_inr.
    rewrite IH in Hr. intros x [->|Hx]; [|by apply Hr]. split; [lia|]. intros Hp. by rewrite Hp in H2.
  - intros Hall. destruct (Hall t (or_introl eq_refl)) as [H1 H2].
    apply refusal_bind_inr. exists tt. split; [apply refuse_unless_inr; lia|].
    apply refusal_bind_inr. exists tt. split; [|apply IH; auto].
    apply refuse_unless_inr. destruct (rv_PromotionOnly t); [by rewrite H2|done].
Qed.

Lemma resolveTargets_inr view req operation origin db db' ts :
  resolveTargets view req operation origin db = (db', inr ts) →
  (∃ selected, destinations_of view req operation selected ∧ Forall2 registered_as selected ts) ∧
  ts ≠ [] ∧
  ∀ t, t ∈ ts → rv_RepositoryID t ≠ rv_RepositoryID origin ∧
                (rv_PromotionOnly t = true → is_promote operation = true).
Proof.
  unfold resolveTargets. destruct (selectTargets view req operation) as [e|sel] eqn:Hsel; [done|].
  apply selectTargets_inr in Hsel as Hd. apply destinations_of_nonempty in Hd as Hne.
  destruct sel as [|s sel]; [done|].
  destruct (register _ _ _) as [d r] eqn:Hreg.
  intros [= -> (l & -> & ([] & Ha & [= ->])%refusal_bind_inr)%refusal_bind_inr].
  apply register_inr in Hreg. split; [by exists (s :: sel)|]. rewrite admit_targets_inr in Ha.
  split; [|done]. by inversion Hreg.
Qed.

(** One target of the candidates holds the release. *)
Definition sole_holder (candidates : list RepoView) (packageID : Z) (db : DB) (o : RepoView) : Prop :=
  packageID ≠ 0 ∧ ∃ holding, TargetsHolding packageID db = inr holding ∧
    filter (λ c, rv_Name c ∈ holding) candidates = [o].

Lemma onlyHolder_Some candidates packageID db o :
  onlyHolder candidates packageID db = Some o ↔ sole_holder candidates packageID db o.
Proof.
  unfold onlyHolder, sole_holder. case_bool_decide as Hp; simpl; [naive_solver|].
  case_bool_decide as Hc; [subst candidates|].
  { split; [done|]. by intros (_ & h & _ & Hf). }
  destruct (TargetsHolding packageID db) as [e|h]; [naive_solver|].
  destruct (filter _ candidates) as [|x [|y l]] eqn:E; split;
    try (by intros [=]); try (by intros (_ & h' & [= <-] & Hf); rewrite E in Hf).
  - intros [= <-]. split; [done|]. by exists h.
  - intros (_ & h' & [= <-] & Hf). rewrite E in Hf. by injection Hf as ->.
Qed.
End resolution_lemmas.

(* -------------------------------------------------------------------- *)
(** ** Lemmas: recording *)

(** UNIQUE (request_id, target_repo_id) and UNIQUE (idempotency_key). *)
Record unique_keys (db : DB) : Prop := {
  uk_transfers i j r s : transfers db !! i = Some r → transfers db !! j = Some s →
    t_request r = t_request s → t_target_repo r = t_target_repo s → i = j;
  uk_requests i j r s : requests db !! i = Some r → requests db !! j = Some s → r_key r = r_key s → i = j }.

Lemma is_transfer_of_true r t i x :
  is_transfer_of r t i x = true ↔ t_request x = r ∧ t_target_repo x = t.
Proof. unfold is_transfer_of. by rewrite andb_true_iff, !bool_decide_eq_true. Qed.

Lemma CreateTransfer_inv now row db db' opened :
  CreateTransfer now row db = Ok (db', opened) →
  (opened = false ∧ db' = db ∧
   ∃ i x, transfers db !! i = Some x ∧ is_transfer_of (tr_RequestID row) (tr_TargetRepoID row) i x = true) ∨
  (opened = true ∧ transfers db !! tr_ID row = None ∧
   db' = db <| transfers ::= insert (tr_ID row) (new_transfer now row) |> ∧
   ∀ i x, transfers db !! i = Some x → is_transfer_of (tr_RequestID row) (tr_TargetRepoID row) i x = false).
Proof.
  unfold CreateTransfer. destruct (exists_where _ _) eqn:He.
  { intros [= <- <-]. left. apply exists_where_true in He as (i & x & Hx & Hc). eauto 10. }
  case_bool_decide as Hid; [done|]. destruct (_ && _); [|done]. intros [= <- <-]. right.
  split; [done|]. split; [by apply eq_None_not_Some|]. split; [done|]. by apply exists_where_false.
Qed.

Lemma TransferIDFor_Ok r t db id :
  unique_keys db →
  TransferIDFor r t db = Ok id ↔ ∃ x, transfers db !! id = Some x ∧ t_request x = r ∧ t_target_repo x = t.
Proof.
  intros [Hu _]. unfold TransferIDFor. destruct (select_where _ _) as [|[i x] l] eqn:Hs.
  - split; [done|]. intros (x & Hx & Hr & Ht). destruct (not_elem_of_nil (id, x)). rewrite <-Hs.
    apply elem_of_select_where. split; [done|]. by apply is_transfer_of_true.
  - assert ((i, x) ∈ (i, x) :: l) as Hin by left. rewrite <-Hs in Hin.
    apply elem_of_select_where in Hin as [Hx [Hr Ht]%is_transfer_of_true]. split.
    + intros [= <-]. eauto.
    + intros (y & Hy & Hr' & Ht'). f_equal. apply (Hu i id x y); congruence.
Qed.

Lemma TransferIDFor_mono r t db db' id :
  unique_keys db → unique_keys db' → transfers db ⊆ transfers db' →
  TransferIDFor r t db = Ok id → TransferIDFor r t db' = Ok id.
Proof.
  intros Hu Hu' Hsub (x & Hx & Hrest)%TransferIDFor_Ok; [|done]. apply TransferIDFor_Ok; [done|].
  exists x. split; [by eapply lookup_weaken|done].
Qed.

(** What opening transfers for a request leaves: every old row, and new ones of
    this request for the named destinations. *)
Record opened (now : Z) (requestID : string) (req : CreateRequest) (rs : Resolved) (targets : list RepoView)
    (db db' : DB) : Prop := {
  op_frame : db' = db <| transfers := transfers db' |>;
  op_unique : unique_keys db';
  op_kept : transfers db ⊆ transfers db';
  op_new id x : transfers db' !! id = Some x → transfers db !! id = None →
    ∃ t, t ∈ targets ∧ x = new_transfer now (transfer_row id requestID req rs t) }.

Lemma open_transfer_opened now id requestID req rs t db db' x :
  unique_keys db → open_transfer now (transfer_row id requestID req rs t) db = Ok (db', x) →
  opened now requestID req rs [t] db db' ∧ TransferIDFor requestID (rv_RepositoryID t) db' = Ok x.
Proof.
  intros Hu. unfold open_transfer.
  intros ([d o] & [(-> & -> & i & y & Hy & [Hr Ht]%is_transfer_of_true)|(-> & Hfree & -> & Hno)]%CreateTransfer_inv
    & Hrest)%result_bind_Ok.
  - apply result_bind_Ok in Hrest as (z & Hz & [= <- <-]). split; [|exact Hz].
    split; [by destruct db|done|done|]. intros k w Hk Hn. congruence.
  - injection Hrest as <- <-. cbn [transfer_row tr_ID tr_RequestID tr_TargetRepoID] in *.
    set (row := transfer_row id requestID req rs t) in *.
    assert (unique_keys (db <| transfers ::= insert id (new_transfer now row) |>)) as Hu'.
    { split; [|apply Hu]. intros i j r s. simpl.
      intros [[<- <-]|[Hi Hr]]%lookup_insert_Some [[<- <-]|[Hj Hs]]%lookup_insert_Some; simpl; intros Hq Ht.
      - done.
      - specialize (Hno j s Hs). by rewrite (proj2 (is_transfer_of_true _ _ _ _)) in Hno.
      - specialize (Hno i r Hr). by rewrite (proj2 (is_transfer_of_true _ _ _ _)) in Hno.
      - by apply (uk_transfers db Hu i j r s). }
    split.
    + split; [done|exact Hu'|by apply insert_subseteq|].
      intros k x. simpl. intros [[<- <-]|[Hk Hx]]%lookup_insert_Some Hn; [|congruence].
      exists t. split; [left|done].
    + apply TransferIDFor_Ok; [exact Hu'|]. exists (new_transfer now row). simpl. by rewrite lookup_insert_eq.
Qed.

Lemma opened_trans now requestID req rs ts us d1 d2 d3 :
  opened now requestID req rs ts d1 d2 → opened now requestID req rs us d2 d3 →
  opened now requestID req rs (ts ++ us) d1 d3.
Proof.
  intros [F12 _ K12 N12] [F23 U3 K23 N23]. split; [|done|by etrans|].
  - rewrite F23, F12. done.
  - intros id x Hx Hn. setoid_rewrite elem_of_app. destruct (transfers d2 !! id) as [y|] eqn:Hy.
    + pose proof (lookup_weaken _ _ _ _ Hy K23). simplify_eq. destruct (N12 id x Hy Hn) as (t & Ht & ->). eauto.
    + destruct (N23 id x Hx Hy) as (t & Ht & ->). eauto.
Qed.

Lemma open_transfers_opened now newID requestID req rs i targets db db' ids :
  unique_keys db → open_transfers now newID requestID req rs i targets db = Ok (db', ids) →
  opened now requestID req rs targets db db' ∧
  Forall2 (λ t id, TransferIDFor requestID (rv_RepositoryID t) db' = Ok id) targets ids.
Proof.
  revert i db ids. induction targets as [|t ts IH]; intros i db ids Hu; simpl.
  { intros [= <- <-]. split; [|constructor]. split; [by destruct db|done|done|]. intros; congruence. }
  intros ([d x] & H1 & ([d' l] & H2 & [= <- <-])%result_bind_Ok)%result_bind_Ok.
  apply open_transfer_opened in H1 as [O1 T1]; [|done].
  apply IH in H2 as [O2 T2]; [|apply O1]. split; [exact (opened_trans _ _ _ _ [t] _ _ _ _ O1 O2)|].
  constructor; [|exact T2]. eapply TransferIDFor_mono; [apply O1|apply O2|apply O2|exact T1].
Qed.

Lemma requestByKey_Ok key db id :
  unique_keys db → requestByKey key db = Ok id ↔ ∃ r, requests db !! id = Some r ∧ r_key r = key.
Proof.
  intros [_ Hu]. unfold requestByKey. destruct (select_where _ _) as [|[i x] l] eqn:Hs.
  - split; [done|]. intros (r & Hr & Hk). destruct (not_elem_of_nil (id, r)). rewrite <-Hs.
    apply elem_of_select_where. by rewrite bool_decide_eq_true_2.
  - assert ((i, x) ∈ (i, x) :: l) as Hin by left. rewrite <-Hs in Hin.
    apply elem_of_select_where in Hin as [Hx Hk]. apply bool_decide_eq_true in Hk. split.
    + intros [= <-]. eauto.
    + intros (y & Hy & Hk'). f_equal. apply (Hu i id x y); congruence.
Qed.

Lemma CreateTransferRequest_Ok now row db db' id created :
  unique_keys db → CreateTransferRequest now row db = Ok (db', id, created) →
  unique_keys db' ∧ requestByKey (rr_IdempotencyKey row) db' = Ok id ∧ transfers db' = transfers db ∧
  db' = db <| requests := requests db' |> ∧ requests db ⊆ requests db' ∧
  (if created : bool
   then id = rr_ID row ∧ requests db !! id = None ∧ requests db' = <[id := new_request now row]> (requests db) ∧
        ∀ i r, requests db !! i = Some r → r_key r ≠ rr_IdempotencyKey row
   else db' = db).
Proof.
  intros Hu. unfold CreateTransferRequest. intros (u & _ & Hrest)%result_bind_Ok. revert Hrest.
  destruct (exists_where _ _) eqn:He.
  { intros (i & Hi & [= <- <- <-])%result_bind_Ok. split_and!; try done. by destruct db. }
  rewrite exists_where_false in He. case_bool_decide as Hid; [done|]. destruct (_ && _); [|done].
  intros [= <- <- <-]. apply eq_None_not_Some in Hid.
  assert (∀ i r, requests db !! i = Some r → r_key r ≠ rr_IdempotencyKey row) as Hno.
  { intros i r Hr. specialize (He i r Hr). by apply bool_decide_eq_false in He. }
  assert (unique_keys (db <| requests ::= insert (rr_ID row) (new_request now row) |>)) as Hu'.
  { split; [apply Hu|]. intros i j r s. simpl.
    intros [[<- <-]|[Hi Hr]]%lookup_insert_Some [[<- <-]|[Hj Hs]]%lookup_insert_Some; simpl; intros Hq;
      [done|by destruct (Hno j s Hs)|by destruct (Hno i r Hr)|by apply (uk_requests db Hu i j r s)]. }
  split; [exact Hu'|]. split.
  { apply requestByKey_Ok; [exact Hu'|]. exists (new_request now row). simpl. by rewrite lookup_insert_eq. }
  simpl. split_and!; try done. by apply insert_subseteq.
Qed.

(* -------------------------------------------------------------------- *)
(** ** Lemmas: the idempotency key *)

Definition comma : Ascii.ascii := Eval cbv in Ascii.ascii_of_nat 44.
Definition bar : Ascii.ascii := Eval cbv in Ascii.ascii_of_nat 124.

Lemma concat_cons sep (a b : string) l :
  String.concat sep (a :: b :: l) = String.append a (String.append sep (String.concat sep (b :: l))).
Proof. done. Qed.

Lemma cut_joined c a x :
  has_char c a = false → cut_first c (String.append a (String.append (String c "") x)) = Some (a, x).
Proof. apply cut_first_app. Qed.

(** Fields that are not empty and hold no separator can be told apart. *)
Lemma concat_inj c (l k : list string) :
  (∀ s, s ∈ l ++ k → has_char c s = false ∧ s ≠ "") →
  String.concat (String c "") l = String.concat (String c "") k → l = k.
Proof.
  revert k. induction l as [|a l IH]; intros k Hok.
  - destruct k as [|b [|b' k]]; [done| |].
    + simpl. intros E. destruct (Hok b) as [_ Hne]; [set_solver|]. by destruct Hne.
    + rewrite concat_cons. intros E. destruct (Hok b) as [_ Hne]; [set_solver|]. by destruct b.
  - destruct (Hok a) as [Ha Hane]; [set_solver|].
    assert (∀ k', k = k' → ∀ s, s ∈ l ++ tail k' → has_char c s = false ∧ s ≠ "") as Hrest.
    { intros k' <- s Hs. apply Hok. destruct k; set_solver. }
    destruct k as [|b k]; [|destruct (Hok b) as [Hb Hbne]; [set_solver|]].
    + destruct l as [|a' l]; [by simpl; intros ->|]. rewrite concat_cons. by destruct a.
    + destruct l as [|a' l], k as [|b' k]; [by simpl; intros ->|..].
      * rewrite concat_cons. simpl. intros ->. by rewrite has_char_app, Hb in Ha; simpl in Ha; rewrite Ascii.eqb_refl in Ha.
      * rewrite concat_cons. simpl. intros <-. by rewrite has_char_app, Ha in Hb; simpl in Hb; rewrite Ascii.eqb_refl in Hb.
      * rewrite !concat_cons. intros E. apply (f_equal (cut_first c)) in E.
        rewrite !cut_joined in E by done. injection E as -> E. f_equal. by apply IH; [exact (Hrest _ eq_refl)|].
Qed.

Lemma FormatInt_inj : Inj (=) (=) FormatInt.
Proof. intros x y. unfold FormatInt. apply (inj pretty). Qed.

Lemma sort_ids_Permutation l k : sort_ids l = sort_ids k ↔ l ≡ₚ k.
Proof.
  unfold sort_ids. split.
  - intros E. rewrite <-(order_by_Permutation (λ i, [i]) l), E. apply order_by_Permutation.
  - intros Hp. apply order_by_unique; [|done]. by intros x y _ _ [=].
Qed.

Lemma number_no_bar z : has_char bar (FormatInt z) = false.
Proof. by apply has_char_FormatInt. Qed.

Lemma numbers_inj l k :
  String.concat "," (FormatInt <$> l) = String.concat "," (FormatInt <$> k) → l = k.
Proof.
  intros E. apply (list_fmap_eq_inj FormatInt FormatInt_inj). revert E. apply (concat_inj comma).
  intros s. rewrite <-fmap_app. intros (z & -> & _)%list_elem_of_fmap.
  split; [by apply has_char_FormatInt|apply FormatInt_nonempty].
Qed.

Lemma numbers_no_bar l : has_char bar (String.concat "," (FormatInt <$> l)) = false.
Proof.
  induction l as [|x [|y l] IH]; [done|apply number_no_bar|].
  rewrite !fmap_cons, concat_cons, !has_char_app, number_no_bar. by rewrite <-fmap_cons, IH.
Qed.

(** Distinct intents have distinct materials; the order the destinations are
    named in does not matter. *)
Lemma key_material_exact op pkg origin targets sched priority op' pkg' origin' targets' sched' priority' :
  has_char bar op = false → has_char bar op' = false →
  key_material op pkg origin targets sched priority = key_material op' pkg' origin' targets' sched' priority' ↔
  op = op' ∧ pkg = pkg' ∧ origin = origin' ∧ targets ≡ₚ targets' ∧ sched = sched' ∧ priority = priority'.
Proof.
  intros Hop Hop'. unfold key_material.
  split; [|intros (-> & -> & -> & Hp & -> & ->); by rewrite (proj2 (sort_ids_Permutation _ _) Hp)].
  rewrite !concat_cons. intros E.
  apply (f_equal (cut_first bar)) in E. rewrite !(cut_joined bar) in E by done. injection E as -> E.
  apply (f_equal (cut_first bar)) in E. rewrite !(cut_joined bar) in E by apply number_no_bar.
  injection E as ->%FormatInt_inj E.
  apply (f_equal (cut_first bar)) in E. rewrite !(cut_joined bar) in E by apply number_no_bar.
  injection E as ->%FormatInt_inj E.
  apply (f_equal (cut_first bar)) in E. rewrite !(cut_joined bar) in E by apply numbers_no_bar.
  injection E as Hp%numbers_inj%sort_ids_Permutation E.
  apply (f_equal (cut_last bar)) in E.
  change (cut_last bar (String.append sched (String bar (FormatInt priority))) =
          cut_last bar (String.append sched' (String bar (FormatInt priority')))) in E.
  rewrite !cut_last_app in E by apply number_no_bar. injection E as -> ->%FormatInt_inj. done.
Qed.

(* -------------------------------------------------------------------- *)
(** ** Theorems *)

Section origins.
Context `{Catalog}.

(** Where a promotion that names no origin reads from: the one target the
    configuration singles out, else the one candidate that holds the release. *)
Definition deduced_origin (view : ProductView) (packageID : Z) (db : DB) (o : RepoView) : Prop :=
  if hasEnvironments view then
    let stage := inEnvironment (pv_Targets view) (pv_PromotionFrom view) in
    if negb (String.eqb (pv_PromotionFrom view) "") && bool_decide (length stage = 1%nat) then stage = [o]
    else sole_holder (if bool_decide (stage = []) then pv_Targets view else stage) packageID db o
  else
    if bool_decide (length (replicable (pv_Targets view)) = 1%nat) then replicable (pv_Targets view) = [o]
    else sole_holder (replicable (pv_Targets view)) packageID db o.

Definition origin_of (view : ProductView) (req : CreateRequest) (db : DB) (o : RepoView) : Prop :=
  let own := RepositoryByID (pk_SourceRepoID (cr_Row req)) db = inr o in
  if negb (String.eqb (cr_From req) "") then
    targetNamed view (cr_From req) = Some o ∨
    targetNamed view (cr_From req) = None ∧ own ∧
      (configuredName (rv_Name o) = cr_From req ∨ rv_Name o = cr_From req)
  else if cr_Promote req then deduced_origin view (pk_ID (cr_Row req)) db o
  else own.

Lemma promotionOrigin_inr view packageID db o :
  promotionOrigin view packageID db = inr o ↔ deduced_origin view packageID db o.
Proof.
  assert (∀ cs (err : Refusal), (match onlyHolder cs packageID db with Some h => inr h | None => inl err end) = inr o ↔
    sole_holder cs packageID db o) as Hheld.
  { intros cs err. rewrite <-onlyHolder_Some. destruct (onlyHolder cs packageID db); naive_solver. }
  unfold promotionOrigin, deduced_origin. cbv zeta. destruct (hasEnvironments view).
  - unfold exactlyOneIn. destruct (String.eqb_spec (pv_PromotionFrom view) "") as [E|E]; simpl.
    { rewrite Hheld. by destruct (inEnvironment _ _). }
    destruct (inEnvironment _ _) as [|x [|y l]]; simpl; [by rewrite Hheld|naive_solver|by rewrite Hheld].
  - destruct (replicable _) as [|x [|y l]]; simpl; [by rewrite Hheld|naive_solver|by rewrite Hheld].
Qed.

Lemma package_origin_inr req db o :
  package_origin req db = inr o ↔
  RepositoryByID (pk_SourceRepoID (cr_Row req)) db = inr o ∧
  (cr_From req = "" ∨ configuredName (rv_Name o) = cr_From req ∨ rv_Name o = cr_From req).
Proof.
  unfold package_origin. destruct (RepositoryByID _ db) as [c|x]; [naive_solver|].
  rewrite <-!String.eqb_eq, <-!orb_true_iff.
  destruct (_ || _) eqn:E; split; [by intros [= ->]|by intros [[= ->] _]|done|].
  intros [[= ->] E']. congruence.
Qed.

Lemma resolveOrigin_inr view req db o : resolveOrigin view req db = inr o ↔ origin_of view req db o.
Proof.
  unfold resolveOrigin, origin_of. cbv zeta.
  destruct (String.eqb_spec (cr_From req) "") as [E|E]; simpl.
  - destruct (cr_Promote req); [apply promotionOrigin_inr|]. rewrite package_origin_inr. naive_solver.
  - destruct (targetNamed view (cr_From req)) as [t|]; [naive_solver|].
    rewrite package_origin_inr. naive_solver.
Qed.
End origins.

(** C28. A resolved request is what was asked for, and nothing is guessed.  When
    a request resolves, it reads from what it named - a target, or the source
    the package came from - and otherwise from the package's own repository or,
    for a promotion, from the one target the promotion path or the product's
    single ordinary target gives, and only when those do not decide, from the
    one candidate that holds the release.  It writes to the targets it named,
    or to every target of the environment it named, or to the one target that
    is no choice; each has a row of its own other than the origin's, and none
    that only promotion may reach is reached by a replication.  What it does is
    a promotion exactly when it reads from a target. *)
Theorem resolved_requests_are_what_was_asked `{Catalog} req db db' rs :
  Resolve req db = (db', inr rs) →
  ∃ view selected,
    ProductView_of (cr_Product req) db = inr view ∧
    origin_of view req db (rs_Origin rs) ∧
    rs_Operation rs = (if String.eqb (rv_Role (rs_Origin rs)) "target" then "promote" else "replicate") ∧
    (cr_Promote req = true → rs_Operation rs = "promote") ∧
    destinations_of view req (rs_Operation rs) selected ∧ Forall2 registered_as selected (rs_Targets rs) ∧
    rs_Targets rs ≠ [] ∧
    (∀ t, t ∈ rs_Targets rs → rv_RepositoryID t ≠ rv_RepositoryID (rs_Origin rs) ∧
       (rv_PromotionOnly t = true → rs_Operation rs = "promote")) ∧
    0 < rs_Priority rs.
Proof.
  unfold Resolve, resolve_from.
  destruct (ProductView_of _ db) as [e|view] eqn:Hv; [done|]. simpl.
  destruct (resolveOrigin view req db) as [e|o] eqn:Ho; [done|]. simpl.
  destruct (refuse_unless _ _) as [e|u] eqn:Hu; [done|]. simpl. apply refuse_unless_inr in Hu.
  destruct (resolveTargets _ _ _ _ _) as [d r] eqn:Hr.
  intros [= -> (ts & -> & [= <-])%refusal_bind_inr]. simpl.
  apply resolveTargets_inr in Hr as ((sel & Hd & Hreg) & Hne & Hall). apply resolveOrigin_inr in Ho.
  exists view, sel. split_and!; try done.
  - intros Hp. rewrite Hp in Hu. by apply String.eqb_eq.
  - intros t Ht. destruct (Hall t Ht) as [Hn Hp]. split; [done|]. intros Hpo. by apply String.eqb_eq, Hp.
  - unfold priority_of, DefaultPriority. destruct (Z.leb_spec (cr_Priority req) 0); lia.
Qed.

(** The key of a request is its intent.  Unless the digest collides on the
    two materials, two requests have one key exactly when they do the same
    operation on the same package from the same repository to the same
    repositories - in whatever order those are named - at the same priority and
    time.  Ids and priorities are arbitrary integers and the schedule an
    arbitrary string; an operation is a word without a bar. *)
Theorem a_key_is_an_intent (sha256_hex : string → string)
    op pkg origin targets sched priority op' pkg' origin' targets' sched' priority' :
  has_char bar op = false → has_char bar op' = false →
  (let m := key_material op pkg origin targets sched priority in
   let m' := key_material op' pkg' origin' targets' sched' priority' in
   sha256_hex m = sha256_hex m' → m = m') →
  IdempotencyKey sha256_hex op pkg origin targets sched priority =
    IdempotencyKey sha256_hex op' pkg' origin' targets' sched' priority' ↔
  op = op' ∧ pkg = pkg' ∧ origin = origin' ∧ targets ≡ₚ targets' ∧ sched = sched' ∧ priority = priority'.
Proof.
  intros Hop Hop' Hsha. rewrite <-key_material_exact by done. unfold IdempotencyKey.
  split; [exact Hsha|by intros ->].
Qed.

(** A recorded request is one row and one transfer for each destination.
    When the transaction commits, every request and transfer there was is kept
    as it was; the answered request is the only one under the key of this
    intent, and is new exactly when no request had that key; the answered
    transfers are, destination by destination, the only transfers of the request
    to it; and every transfer that is new is of this request, to one of the
    destinations, from its origin, for its package, waiting to be planned.  No
    other table changes. *)
Theorem a_request_opens_one_transfer_each sha256_hex now requestID newID req rs db db' id created ids :
  unique_keys db →
  record_request sha256_hex now requestID newID req rs db = Ok (db', (id, created, ids)) →
  let key := rr_IdempotencyKey (request_row sha256_hex requestID req rs) in
  unique_keys db' ∧ requests db ⊆ requests db' ∧ transfers db ⊆ transfers db' ∧
  db' = db <| requests := requests db' |> <| transfers := transfers db' |> ∧
  (∀ i r, requests db' !! i = Some r → (r_key r = key ↔ i = id)) ∧ is_Some (requests db' !! id) ∧
  (created = true ↔ ∀ i r, requests db !! i = Some r → r_key r ≠ key) ∧
  Forall2 (λ t x, ∀ i tr, transfers db' !! i = Some tr →
     (t_request tr = id ∧ t_target_repo tr = rv_RepositoryID t ↔ i = x)) (rs_Targets rs) ids ∧
  Forall (λ x, is_Some (transfers db' !! x)) ids ∧
  (∀ i tr, transfers db' !! i = Some tr → transfers db !! i = None →
     t_request tr = id ∧ t_source_repo tr = rv_RepositoryID (rs_Origin rs) ∧ t_package tr = pk_ID (cr_Row req) ∧
     t_state tr = TransferPlanning ∧ ∃ t, t ∈ rs_Targets rs ∧ t_target_repo tr = rv_RepositoryID t).
Proof.
  intros Hu. unfold record_request.
  intros ([[d i0] c] & Hreq & ([d2 l] & Hopen & [= -> <- <- <-])%result_bind_Ok)%result_bind_Ok.
  apply CreateTransferRequest_Ok in Hreq as (Hu1 & Hkey & Htr & Hfr & Hsub & Hc); [|done].
  apply open_transfers_opened in Hopen as [[F U K N] T]; [|done]. cbv zeta.
  set (row := request_row sha256_hex requestID req rs) in *.
  assert (requests db' = requests d) as Hrq by by rewrite F.
  apply requestByKey_Ok in Hkey as (r0 & Hr0 & Hk0); [|done]. rewrite Htr in *.
  split_and!; [done|by rewrite Hrq|done| | | | | | |].
  - rewrite F at 1. rewrite Hrq, Hfr. done.
  - intros i r Hr. rewrite Hrq in Hr. split; [|congruence].
    intros Hk. apply (uk_requests d Hu1 i i0 r r0); congruence.
  - rewrite Hrq. by exists r0.
  - destruct c.
    + split; [by intros _; apply Hc|done].
    + split; [done|]. intros Hno. subst d. by destruct (Hno _ _ Hr0).
  - eapply Forall2_impl; [exact T|]. intros t x (y & Hy & Hrest)%TransferIDFor_Ok i tr Htr'; [|done].
    split; [|intros ->; congruence]. intros [H1 H2]. destruct Hrest as [H3 H4].
    apply (uk_transfers db' U i x tr y); congruence.
  - eapply Forall2_Forall_r; [exact T|]. apply Forall_true.
    intros t x (y & Hy & _)%TransferIDFor_Ok; [by exists y|done].
  - intros i tr Hi Hn. destruct (N i tr Hi Hn) as (t & Ht & ->). simpl. eauto 10.
Qed.

(** The same intent: possibly other people, other UUIDs, another order. *)
Definition same_intent (req : CreateRequest) (rs : Resolved) (req' : CreateRequest) (rs' : Resolved) : Prop :=
  pk_ID (cr_Row req') = pk_ID (cr_Row req) ∧ rs_Operation rs' = rs_Operation rs ∧
  rv_RepositoryID (rs_Origin rs') = rv_RepositoryID (rs_Origin rs) ∧
  rv_RepositoryID <$> rs_Targets rs' ≡ₚ rv_RepositoryID <$> rs_Targets rs ∧ rs_Priority rs' = rs_Priority rs.

Lemma same_intent_key sha256_hex i i' req rs req' rs' :
  same_intent req rs req' rs' →
  rr_IdempotencyKey (request_row sha256_hex i' req' rs') = rr_IdempotencyKey (request_row sha256_hex i req rs).
Proof.
  intros (H1 & H2 & H3 & H4%sort_ids_Permutation & H5). simpl. unfold IdempotencyKey, key_material.
  by rewrite H1, H2, H3, H4, H5.
Qed.

Lemma open_transfer_again now row db x :
  TransferIDFor (tr_RequestID row) (tr_TargetRepoID row) db = Ok x → open_transfer now row db = Ok (db, x).
Proof.
  intros Hx. unfold open_transfer, CreateTransfer. rewrite (proj2 (exists_where_true _ _)); [simpl; by rewrite Hx|].
  revert Hx. unfold TransferIDFor. destruct (select_where _ _) as [|[i y] l] eqn:Hs; [done|]. intros _.
  assert ((i, y) ∈ (i, y) :: l) as Hin by left. rewrite <-Hs in Hin.
  apply elem_of_select_where in Hin. by exists i, y.
Qed.

Lemma open_transfers_again now newID requestID req rs i targets db :
  (∀ t, t ∈ targets → ∃ x, TransferIDFor requestID (rv_RepositoryID t) db = Ok x) →
  ∃ ids, open_transfers now newID requestID req rs i targets db = Ok (db, ids) ∧
    Forall2 (λ t x, TransferIDFor requestID (rv_RepositoryID t) db = Ok x) targets ids.
Proof.
  revert i. induction targets as [|t ts IH]; intros i Hall; [exists []; by split; [|constructor]|].
  destruct (Hall t) as [x Hx]; [left|]. destruct (IH (S i)) as (l & Hl & Hf); [intros u Hu; apply Hall; by right|].
  exists (x :: l). split; [|by constructor]. simpl.
  rewrite (open_transfer_again now (transfer_row (newID i) requestID req rs t) db x Hx). simpl. by rewrite Hl.
Qed.

(** C29. A repeated request is one piece of work.  After a request was recorded,
    recording the same intent again - whoever asks, with new UUIDs, at another
    time, and however its destinations are ordered - is answered with the same
    request as not created and, for each destination, with the transfer that
    was answered for it, and changes nothing. *)
Theorem a_repeated_request_creates_nothing sha256_hex now requestID newID req rs db db' id created ids
    now' requestID' newID' req' rs' :
  unique_keys db →
  record_request sha256_hex now requestID newID req rs db = Ok (db', (id, created, ids)) →
  same_intent req rs req' rs' →
  is_ok (request_checks (request_row sha256_hex requestID' req' rs')) = true →
  ∃ ids', record_request sha256_hex now' requestID' newID' req' rs' db' = Ok (db', (id, false, ids')) ∧
    length ids' = length (rs_Targets rs') ∧
    ∀ i j t t', rs_Targets rs !! i = Some t → rs_Targets rs' !! j = Some t' →
      rv_RepositoryID t' = rv_RepositoryID t → ids' !! j = ids !! i.
Proof.
  intros Hu. unfold record_request at 1.
  intros ([[d i0] c] & Hreq & ([d2 l] & Hopen & [= -> <- <- <-])%result_bind_Ok)%result_bind_Ok Hsame Hok.
  apply CreateTransferRequest_Ok in Hreq as (Hu1 & Hkey & _ & _ & _ & _); [|done].
  apply open_transfers_opened in Hopen as [[F U _ _] T]; [|done].
  assert (requests db' = requests d) as Hrq by by rewrite F.
  rewrite <-(same_intent_key sha256_hex requestID requestID' req rs req' rs' Hsame) in Hkey.
  assert (requestByKey (rr_IdempotencyKey (request_row sha256_hex requestID' req' rs')) db' = Ok i0) as Hkey'.
  { unfold requestByKey. rewrite Hrq. exact Hkey. }
  assert (CreateTransferRequest now' (request_row sha256_hex requestID' req' rs') db' = Ok (db', i0, false)) as Hagain.
  { unfold CreateTransferRequest. destruct (is_ok_true _ Hok) as [[] ->].
    apply requestByKey_Ok in Hkey' as Hk; [|done]. destruct Hk as (r & Hr & Hk).
    cbn [mbind result_bind]. rewrite (proj2 (exists_where_true _ _)); [by rewrite Hkey'|].
    exists i0, r. split; [done|]. by apply bool_decide_eq_true. }
  destruct (open_transfers_again now' newID' i0 req' rs' 0 (rs_Targets rs') db') as (ids' & Hids & T').
  { intros t' Ht'. destruct Hsame as (_ & _ & _ & Hp & _).
    assert (rv_RepositoryID t' ∈ rv_RepositoryID <$> rs_Targets rs) as Hin.
    { rewrite <-Hp. by apply list_elem_of_fmap_2. }
    apply list_elem_of_fmap in Hin as (t & -> & [i Hi]%list_elem_of_lookup_1).
    destruct (Forall2_lookup_l _ _ _ _ _ T Hi) as (x & _ & Hx). by exists x. }
  exists ids'. unfold record_request. rewrite Hagain. simpl. rewrite Hids. split; [done|].
  split; [symmetry; by eapply Forall2_length|]. intros i j t t' Ht Ht' E.
  destruct (Forall2_lookup_l _ _ _ _ _ T Ht) as (x & Hx & Hfx).
  destruct (Forall2_lookup_l _ _ _ _ _ T' Ht') as (x' & Hx' & Hfx').
  rewrite Hx, Hx'. rewrite E, Hfx in Hfx'. congruence.
Qed.

(** What the catalog promises about the rows it registers. *)
Class CatalogLaws `{Catalog} : Prop := {
  ensure_frame product t db : let db' := (EnsureTarget product t db).1 in
    db' = db <| repositories := repositories db' |> ∧ repositories db ⊆ repositories db' }.

#[export] Instance resolver_laws `{RowIds} loaded ap ar : @CatalogLaws (resolverImpl loaded ap ar).
Proof.
  split. intros product t db. simpl. unfold resolver_ensure.
  destruct (loaded product) as [p|]; [|by destruct db].
  destruct (productID ap (pr_Name p) db) as [e|id]; [by destruct db|].
  destruct (EnsureRepository _ _ _ _ _ _ db) as [[d x]|e] eqn:He; [|by destruct db].
  apply EnsureRepository_Ok in He as [_ [->|(_ & -> & Hsub & _)]]; [by destruct db|done].
Qed.

Definition registers (db db' : DB) : Prop :=
  db' = db <| repositories := repositories db' |> ∧ repositories db ⊆ repositories db'.

#[export] Instance registers_preorder : PreOrder registers.
Proof.
  split; [by intros []|]. intros d1 d2 d3 [F12 S12] [F23 S23]. split; [|by etrans].
  rewrite F23, F12. done.
Qed.

Lemma register_registers `{CatalogLaws} product ts db : registers db (register product ts db).1.
Proof.
  revert db. induction ts as [|t ts IH]; intros db; simpl; [done|].
  assert (∀ d (r : Refusal + RepoView), registers db d →
    registers db (match r with
      | inl err => (d, inl err)
      | inr t => let '(db, r) := register product ts d in (db, ts ← r; inr (t :: ts))
      end : DB * (Refusal + list RepoView)).1) as Hrest.
  { intros d [e|u] Hd; [exact Hd|]. specialize (IH d). destruct (register product ts d) as [d' r].
    simpl in *. by etrans. }
  destruct (rv_RepositoryID t =? 0); [|by apply (Hrest db (inr t))].
  pose proof (ensure_frame product t db) as He. destruct (EnsureTarget product t db) as [d [e|id]];
    [exact He|by apply (Hrest d (inr _))].
Qed.

Lemma Resolve_registers `{CatalogLaws} req db : registers db (Resolve req db).1.
Proof.
  unfold Resolve. destruct (resolve_from req db) as [e|[view o]]; [done|].
  assert (∀ op, registers db (resolveTargets view req op o db).1) as Hrt.
  { intros op. unfold resolveTargets. destruct (selectTargets _ _ _) as [e|[|t ts]]; [done..|].
    pose proof (register_registers (pv_Name view) (t :: ts) db) as Hr.
    by destruct (register _ _ db) as [d r]. }
  specialize (Hrt (operation_of o)). by destruct (resolveTargets _ _ _ _ db) as [d r].
Qed.

(** Whatever a request is answered, it leaves every table but the repositories
    as it was unless it was recorded: a refused request and a dry run open no
    work. *)
Theorem only_a_recorded_request_makes_work `{CatalogLaws} sha256_hex now requestID newID req db db' r :
  Create sha256_hex now requestID newID req db = (db', r) →
  registers db db' ∨
  cr_ValidateOnly req = false ∧ ∃ d rs id created ids, registers db d ∧ Resolve req db = (d, inr rs) ∧
    rv_RepositoryID (rs_Origin rs) ≠ 0 ∧ Forall (λ t, rv_RepositoryID t ≠ 0) (rs_Targets rs) ∧
    record_request sha256_hex now requestID newID req rs d = Ok (db', (id, created, ids)) ∧
    r = inr (mkCreateResult id created (rs_Operation rs) (rs_Origin rs) (rs_Targets rs) ids).
Proof.
  unfold Create. pose proof (Resolve_registers req db) as Hd. destruct (Resolve req db) as [d [e|rs]] eqn:Hr.
  { intros [= <- _]. by left. }
  destruct (cr_ValidateOnly req); [intros [= <- _]; by left|].
  destruct (Z.eqb_spec (rv_RepositoryID (rs_Origin rs)) 0); [intros [= <- _]; by left|].
  destruct (first_without_row _) as [t|] eqn:Hf; [intros [= <- _]; by left|].
  destruct (record_request _ _ _ _ _ _ d) as [[d' [[id c] ids]]|e] eqn:Hrec; [|intros [= <- _]; by left].
  intros [= <- <-]. right. split; [done|]. exists d, rs, id, c, ids. split_and!; try done.
  apply Forall_forall. intros t Ht Hid. unfold first_without_row in Hf.
  apply head_None in Hf. destruct (not_elem_of_nil t). rewrite <-Hf. by apply list_elem_of_filter.
Qed.

(* -------------------------------------------------------------------- *)
(** ** A product with two labs

    lab-eu has received something before; lab-us and production have no row. *)

Definition example_product : Product :=
  mkProduct "cfx" [mkSourceSpec "nokia" "vendor.example" "generic" true]
    [mkTargetSpec "lab-eu" "lab" "registry.eu" "cfx" "generic" false false true;
     mkTargetSpec "lab-us" "lab" "registry.us" "cfx" "generic" false false true;
     mkTargetSpec "production" "production" "registry.prod" "cfx" "generic" true false true] None.

Definition example_catalog : Catalog :=
  resolverImpl (λ n, if String.eqb n "cfx" then Some example_product else None) (λ _, true) (λ _, true).

Definition catalog_db : DB :=
  empty_db <| products := {[ 1 := "cfx" ]} |>
    <| repositories := {[ 1 := mkRepository 1 "nokia/orbs/cfx" "vendor.example" "orbs/cfx" "generic" "source";
                          2 := mkRepository 1 "lab-eu" "registry.eu" "cfx" "generic" "target" ]} |>.

Definition example_package : PackageRow := mkPackageRow 7 1 1 "23.8" "sha256:root" "" "".

Definition asking (from : string) (to : list string) (promote dry : bool) : CreateRequest :=
  mkCreateRequest "cfx" "23.8" example_package from to "" promote 0 "" "" dry.

Definition created_by (requestID : string) (req : CreateRequest) (db : DB) : DB * (Refusal + CreateResult) :=
  @Create example_catalog (λ m, m) 100 requestID (λ i, words [requestID; "-"; pretty i]) req db.

Definition answered (r : Refusal + CreateResult) : option (string * bool * list string) :=
  match r with inl _ => None | inr c => Some (ct_RequestID c, ct_Created c, ct_TransferIDs c) end.

(** Resolve is documented as writing nothing and a dry run as costing no row;
    a dry run towards a target without one commits one. *)
Example a_dry_run_registers_its_target :
  let '(db, r) := created_by "r" (asking "" ["lab-us"] false true) catalog_db in
  answered r = Some ("", false, []) ∧ rp_name <$> repositories db !! 3 = Some "lab-us" ∧ repositories catalog_db !! 3 = None.
Proof. vm_compute. split_and!; reflexivity. Qed.

(** The origin of a request is compared with its destinations by row, and an
    origin without a row has id zero: a dry run of a promotion from a target to
    itself is accepted, and the promotion is refused for another reason. *)
Example a_target_may_be_promoted_to_itself :
  answered (created_by "r" (asking "lab-us" ["lab-us"] true true) catalog_db).2 = Some ("", false, []) ∧
  (created_by "r" (asking "lab-us" ["lab-us"] true false) catalog_db).2 = inl (OriginHasNoRow "lab-us").
Proof. vm_compute. split; reflexivity. Qed.

(** The destinations of a key are a list and those of a request a set: a
    destination named twice is another request for the work already asked for. *)
Example a_destination_named_twice_is_another_request :
  let '(db, r) := created_by "r" (asking "" ["lab-eu"] false false) catalog_db in
  let '(db, s) := created_by "s" (asking "" ["lab-eu"; "lab-eu"] false false) db in
  answered r = Some ("r", true, ["r-0"]) ∧ answered s = Some ("s", true, ["s-0"; "s-0"]) ∧
  size (transfers db) = 2%nat.
Proof. vm_compute. split_and!; reflexivity. Qed.

(** A configured target is looked up by its name without its role, and sources
    and targets are named independently: a target named like a source that has
    a row is taken for it. *)
Definition namesake_catalog : Catalog :=
  resolverImpl (λ _, Some (mkProduct "cfx" [mkSourceSpec "nokia" "vendor.example" "generic" true]
    [mkTargetSpec "nokia" "" "registry.eu" "cfx" "generic" false false true] None)) (λ _, true) (λ _, true).

Example a_target_is_taken_for_its_source :
  (@Resolve namesake_catalog (asking "" [] false false)
     (catalog_db <| repositories := {[ 1 := mkRepository 1 "nokia" "vendor.example" "orbs/cfx" "generic" "source" ]} |>)).2
  = inl (OriginIsDestination "nokia").
Proof. vm_compute. reflexivity. Qed.

#[local] Abbreviation resolving := (@Resolve example_catalog (asking "" ["lab-us"; "lab-eu"] false false) catalog_db).

(** The request, resolved: both labs, the second given a row. *)
Lemma resolving_ok : ∃ db rs, resolving = (db, inr rs) ∧ unique_keys db ∧
  rv_RepositoryID <$> rs_Targets rs = [3; 2] ∧ rs_Operation rs = "replicate".
Proof.
  assert ((match resolving.2 with inl _ => None | inr rs => Some (rv_RepositoryID <$> rs_Targets rs, rs_Operation rs) end)
    = Some ([3; 2], "replicate")) as E by (vm_compute; reflexivity).
  assert (transfers resolving.1 = ∅ ∧ requests resolving.1 = ∅) as [E1 E2] by (vm_compute; done).
  destruct resolving as [db [e|rs]]; [discriminate E|]. exists db, rs. split; [done|]. simpl in *.
  injection E as <- <-. split; [|done]. split; intros i j r s; rewrite ?E1, ?E2, lookup_empty; done.
Qed.

Lemma resolved_requests_are_what_was_asked_witness :
  ∃ rs, resolving.2 = inr rs ∧ rs_Targets rs ≠ [] ∧
    ∀ t, t ∈ rs_Targets rs → rv_RepositoryID t ≠ rv_RepositoryID (rs_Origin rs).
Proof.
  destruct resolving_ok as (db & rs & E & _).
  destruct (@resolved_requests_are_what_was_asked example_catalog _ _ _ _ E) as (v & s & _ & _ & _ & _ & _ & _ & Hne & Hall & _).
  exists rs. rewrite E. split; [reflexivity|]. split; [exact Hne|]. intros t Ht. apply (Hall t Ht).
Defined.

Lemma a_key_is_an_intent_witness :
  IdempotencyKey (λ m, m) "replicate" 7 1 [2; 3] "" 50 = IdempotencyKey (λ m, m) "replicate" 7 1 [3; 2] "" 50.
Proof.
  apply (a_key_is_an_intent (λ m, m)); [reflexivity|reflexivity|intros m m' E; exact E|].
  split_and!; [reflexivity|reflexivity|reflexivity|apply Permutation_swap|reflexivity|reflexivity].
Defined.

Lemma record_ok : ∃ req rs db db' ids, unique_keys db ∧
  rv_RepositoryID <$> rs_Targets rs = [3; 2] ∧ rs_Operation rs = "replicate" ∧ rs_Priority rs = 50 ∧
  cr_Origin req = "" ∧
  record_request (λ m, m) 100 "r" (λ i, words ["r-"; pretty i]) req rs db = Ok (db', ("r", true, ids)).
Proof.
  destruct resolving_ok as (db & rs & E & Hu & Ht & Hop).
  assert ((λ x : DB * (string * bool * list string), (x.2.1.1, x.2.1.2)) <$>
    match resolving with
    | (d, inr rs) => record_request (λ m, m) 100 "r" (λ i, words ["r-"; pretty i])
                       (asking "" ["lab-us"; "lab-eu"] false false) rs d
    | _ => Err EWorkerRequired
    end = Ok ("r", true)) as Hrec by (vm_compute; reflexivity).
  assert (match resolving.2 with inr rs => rs_Priority rs | _ => 0 end = 50) as Hp by (vm_compute; reflexivity).
  rewrite E in Hrec, Hp. apply result_fmap_Ok in Hrec as ([d' [[i c] ids]] & Hrec & [= <- <-]).
  by exists (asking "" ["lab-us"; "lab-eu"] false false), rs, db, d', ids.
Qed.

Lemma a_request_opens_one_transfer_each_witness :
  ∃ db' ids : _, (length ids = 2)%nat ∧ Forall (λ x, is_Some (transfers db' !! x)) ids.
Proof.
  destruct record_ok as (req & rs & db & db' & ids & Hu & Ht & _ & _ & _ & Hrec).
  destruct (a_request_opens_one_transfer_each _ _ _ _ _ _ _ _ _ _ _ Hu Hrec)
    as (_ & _ & _ & _ & _ & _ & _ & Hf & Hsome & _).
  exists db', ids. split; [|exact Hsome].
  rewrite <-(Forall2_length _ _ _ Hf), <-(length_fmap rv_RepositoryID), Ht. reflexivity.
Defined.

Lemma a_repeated_request_creates_nothing_witness :
  ∃ req rs db' ids', record_request (λ m, m) 900 "s" (λ i, words ["s-"; pretty i]) req rs db' =
    Ok (db', ("r", false, ids')) ∧ length ids' = length (rs_Targets rs).
Proof.
  destruct record_ok as (req & rs & db & db' & ids & Hu & _ & Hop & Hp & Ho & Hrec).
  destruct (a_repeated_request_creates_nothing (λ m, m) 100 "r" (λ i, words ["r-"; pretty i]) req rs db db' "r" true ids
    900 "s" (λ i, words ["s-"; pretty i]) req rs Hu Hrec) as (ids' & Hrec' & Hlen & _).
  - split_and!; reflexivity.
  - unfold request_checks, request_row, or_default. simpl. rewrite Hop, Hp, Ho. vm_compute. reflexivity.
  - exists req, rs, db', ids'. split; [exact Hrec'|exact Hlen].
Defined.
