(* ===== verification/Downloads.v ===== *)
(** * Downloads

    internal/product/download.go, replication.go and the validation of both
    (which target a product's rules and downloads write to, and what a document
    is refused for), internal/discovery/rules.go (the rule a tag fires), and
    internal/download/chain.go: a download's destinations closed over
    [mirror.from] and ordered.  A compiled regular expression is an argument. *)

From S2P Require Import Prelude GoStrings.
Open Scope Z_scope.

(* -------------------------------------------------------------------- *)
(** ** The product document, as far as downloads read it *)

Definition DefaultRulePriority : Z := 50.

Definition ReplicationCopy : string := "copy".
Definition ReplicationMirror : string := "mirror".
Definition ReplicationProxy : string := "proxy".

Record MirrorConfig := mkMirrorConfig {
  mi_From : string;
  mi_ExternalReference : string;
  mi_SyncOnRequest : option bool }.

Record Replication := mkReplication {
  re_Mode : string;
  re_Mirror : option MirrorConfig }.

Record Target := mkTarget {
  ta_Name : string;
  ta_Enabled : option bool;
  ta_Default : bool;
  ta_PromotionOnly : bool;
  ta_Replication : option Replication }.

Record DownloadVerification := mkDownloadVerification {
  dv_Before : option bool;
  dv_After : option bool;
  dv_Policy : string }.

Record Download := mkDownload {
  do_Name : string;
  do_Targets : list string;
  do_Verify : option DownloadVerification;
  do_Priority : option Z;
  do_Default : bool }.

Record Rule := mkRule {
  ru_Name : string;
  ru_Enabled : option bool;
  ru_TagPattern : string;
  ru_Sources : list string;
  ru_Download : string;
  ru_Targets : list string;
  ru_Priority : option Z;
  ru_VerifyBeforeTransfer : option bool }.

Record Product := mkProduct {
  po_Name : string;
  po_Targets : list Target;
  po_Download : list Download;
  po_AutoEnabled : bool;
  po_Rules : list Rule }.

(** A field that is absent is on. *)
Definition unless_off (o : option bool) : bool := default true o.

Definition Target_IsEnabled (t : Target) : bool := unless_off (ta_Enabled t).

Definition EnabledTargets (p : Product) : list Target := filter (λ t, Target_IsEnabled t = true) (po_Targets p).

(** Marked default first; otherwise the only one, unless it is promotion-only. *)
Definition DefaultTarget (p : Product) : option Target :=
  match head (filter (λ t, ta_Default t = true) (EnabledTargets p)) with
  | Some t => Some t
  | None => match EnabledTargets p with
            | [t] => if ta_PromotionOnly t then None else Some t
            | _ => None
            end
  end.

Definition Product_Target (p : Product) (name : string) : option Target :=
  head (filter (λ t, ta_Name t = name) (po_Targets p)).

Definition Target_ReplicationMode (t : Target) : string :=
  match ta_Replication t with
  | None => ReplicationCopy
  | Some r => if String.eqb (re_Mode r) "" then ReplicationCopy else re_Mode r
  end.

Definition Delegated (t : Target) : bool := negb (String.eqb (Target_ReplicationMode t) ReplicationCopy).

Definition MirrorSettings (t : Target) : option MirrorConfig :=
  if negb (String.eqb (Target_ReplicationMode t) ReplicationMirror) then None
  else r ← ta_Replication t; re_Mirror r.

Definition SyncsOnRequest (m : MirrorConfig) : bool := unless_off (mi_SyncOnRequest m).

(** The target a target pulls from, in the form every walk asks it. *)
Definition mirror_from (t : Target) : option string :=
  m ← MirrorSettings t; if String.eqb (mi_From m) "" then None else Some (mi_From m).

Definition Rule_IsEnabled (r : Rule) : bool := unless_off (ru_Enabled r).

Definition UsesLegacyShape (r : Rule) : bool :=
  negb (bool_decide (ru_Targets r = [])) || bool_decide (is_Some (ru_Priority r)) ||
  bool_decide (is_Some (ru_VerifyBeforeTransfer r)).

Definition EffectivePriority (d : Download) : Z := default DefaultRulePriority (do_Priority d).

Definition VerifiesBefore (d : Download) : option bool := v ← do_Verify d; dv_Before v.

Definition VerifiesAfter (d : Download) : option bool := v ← do_Verify d; dv_After v.

Definition VerificationPolicy (d : Download) : string := from_option dv_Policy "" (do_Verify d).

Definition DefaultDownload (p : Product) : option Download :=
  match po_Download p with
  | [] => None
  | [d] => Some d
  | ds => head (filter (λ d, do_Default d = true) ds)
  end.

Definition DownloadNamed (p : Product) (name : string) : option Download :=
  head (filter (λ d, do_Name d = name) (po_Download p)).

Inductive DownloadError :=
  | NoSuchDownload (rule download : string)
  | NothingToRun (rule product : string).

Definition to_targets (names : list string) (priority : option Z) (verify : option DownloadVerification) : Download :=
  mkDownload "" names verify priority false.

Definition DownloadFor (p : Product) (r : Rule) : DownloadError + Download :=
  if negb (String.eqb (ru_Download r) "") then
    match DownloadNamed p (ru_Download r) with
    | Some d => inr d
    | None => inl (NoSuchDownload (ru_Name r) (ru_Download r))
    end
  else if UsesLegacyShape r then
    inr (to_targets (ru_Targets r) (ru_Priority r)
           (match ru_VerifyBeforeTransfer r with
            | Some b => Some (mkDownloadVerification (Some b) None "")
            | None => None
            end))
  else match DefaultDownload p with
  | Some d => inr d
  | None =>
      match DefaultTarget p with
      | Some t => inr (to_targets [ta_Name t] None None)
      | None => inl (NothingToRun (ru_Name r) (po_Name p))
      end
  end.

Definition Product_Rule (p : Product) (name : string) : option Rule :=
  head (filter (λ r, ru_Name r = name) (po_Rules p)).

(* -------------------------------------------------------------------- *)
(** ** The rule a tag fires *)

Section rules.
(** regexp.Compile: what a pattern matches, when it is one. *)
Context (Compile : string → option (string → bool)).

Record ruleSet := mkRuleSet {
  rs_enabled : bool;
  rs_rules : list (Rule * (string → bool)) }.

(** The first pattern that does not compile refuses the set. *)
Fixpoint compile_each (rules : list Rule) : Rule + list (Rule * (string → bool)) :=
  match rules with
  | [] => inr []
  | r :: rules =>
      match Compile (ru_TagPattern r) with
      | None => inl r
      | Some re => match compile_each rules with
                   | inl bad => inl bad
                   | inr set => inr ((r, re) :: set)
                   end
      end
  end.

Definition compileRules (p : Product) : Rule + ruleSet :=
  match compile_each (po_Rules p) with
  | inl bad => inl bad
  | inr set => inr (mkRuleSet (po_AutoEnabled p) set)
  end.

Fixpoint match_rules (rules : list (Rule * (string → bool))) (tag : string) : option Rule :=
  match rules with
  | [] => None
  | (r, pattern) :: rules =>
      if negb (pattern tag) then match_rules rules tag
      else if negb (Rule_IsEnabled r) then match_rules rules tag
      else Some r
  end.

Definition match_tag (s : ruleSet) (tag : string) : option Rule :=
  if negb (rs_enabled s) then None else match_rules (rs_rules s) tag.
End rules.

(* -------------------------------------------------------------------- *)
(** ** The chain of a download *)

(** The map every walk builds: of two targets with one name, the last. *)
Definition declared (p : Product) : gmap string Target :=
  foldl (λ m t, <[ta_Name t := t]> m) ∅ (po_Targets p).

Record Step := mkStep {
  st_Target : string;
  st_Index : Z;
  st_From : string;
  st_Delegated : bool;
  st_NamedByRule : bool }.

Inductive DeriveError :=
  | NoDefaultTarget (product : string)
  | NotDeclared (target product : string)
  | MirrorCycle (target : string).

(** A loop that is given its number of turns. *)
Inductive outcome (A : Type) :=
  | Done (a : A)
  | Refused (e : DeriveError)
  | OutOfFuel.
Arguments Done {A} a.
Arguments Refused {A} e.
Arguments OutOfFuel {A}.

#[export] Instance outcome_ret : MRet outcome := λ A, Done.
#[export] Instance outcome_bind : MBind outcome := λ A B k o,
  match o with
  | Done a => k a
  | Refused e => Refused e
  | OutOfFuel => OutOfFuel
  end.

Record Closure := mkClosure {
  inChain : gset string;
  fromOf : gmap string string;
  order : list string }.

#[export] Instance Closure_eta : Eta Closure := λ c, mkClosure (inChain c) (fromOf c) (order c).

Section chain.
Context (p : Product).

(** One name's turn of the closure: follow [from] until it ends or meets the
    chain. *)
Fixpoint follow (fuel : nat) (cur : string) (c : Closure) : outcome Closure :=
  if String.eqb cur "" then Done c
  else if bool_decide (cur ∈ inChain c) then Done c
  else match fuel with
  | O => OutOfFuel
  | S fuel =>
      match declared p !! cur with
      | None => Refused (NotDeclared cur (po_Name p))
      | Some t =>
          let c := c <| inChain ::= union {[cur]} |> <| order ::= λ l, l ++ [cur] |> in
          match mirror_from t with
          | None => Done c
          | Some from => follow fuel from (c <| fromOf ::= insert cur from |>)
          end
      end
  end.

Fixpoint close_over (names : list string) (c : Closure) : outcome Closure :=
  match names with
  | [] => Done c
  | name :: names => c ← follow (S (size (declared p))) name c; close_over names c
  end.

(** [resolve]: the hops between a target and one that pulls from the sources,
    remembered in [depth]. *)
Fixpoint hops (fuel : nat) (c : Closure) (name : string) (seen : gset string) (depth : gmap string Z)
    : outcome (Z * gmap string Z) :=
  match depth !! name with
  | Some d => Done (d, depth)
  | None =>
      if bool_decide (name ∈ seen) then Refused (MirrorCycle name)
      else match fuel with
      | O => OutOfFuel
      | S fuel =>
          match fromOf c !! name with
          | Some from =>
              if bool_decide (from ∈ inChain c) then
                '(d, depth) ← hops fuel c from ({[name]} ∪ seen) depth;
                Done (d + 1, <[name := d + 1]> depth)
              else Done (0, <[name := 0]> depth)
          | None => Done (0, <[name := 0]> depth)
          end
      end
  end.

Definition chain_step (c : Closure) (namedSet : list string) (name : string) (d : Z) : Step :=
  let from := default "" (fromOf c !! name) in
  mkStep name d (if bool_decide (from ∈ inChain c) then from else "")
    (from_option Delegated false (declared p !! name)) (bool_decide (name ∈ namedSet)).

Fixpoint steps_of (c : Closure) (namedSet names : list string) (depth : gmap string Z) : outcome (list Step) :=
  match names with
  | [] => Done []
  | name :: names =>
      '(d, depth) ← hops (S (size (inChain c))) c name ∅ depth;
      steps ← steps_of c namedSet names depth;
      Done (chain_step c namedSet name d :: steps)
  end.

Definition step_less (a b : Step) : bool :=
  if negb (st_Index a =? st_Index b) then st_Index a <? st_Index b else String.ltb (st_Target a) (st_Target b).

(** What a download that names nothing writes to. *)
Definition named_or_default (named : list string) : outcome (list string) :=
  match named with
  | [] => match DefaultTarget p with
          | Some t => Done [ta_Name t]
          | None => Refused (NoDefaultTarget (po_Name p))
          end
  | _ => Done named
  end.

Definition Derive (named : list string) : outcome (list Step) :=
  named ← named_or_default named;
  c ← close_over named (mkClosure ∅ ∅ []);
  steps ← steps_of c named (order c) ∅;
  Done (slice_stable step_less steps).
End chain.

Definition Targets (c : list Step) : list string := st_Target <$> c.

Definition MaxIndex (c : list Step) : Z := foldl (λ m s, if m <? st_Index s then st_Index s else m) 0 c.

(** The first step of the target that waits for one of the chain. *)
Fixpoint predecessor_among (all c : list Step) (target : string) : option Step :=
  match c with
  | [] => None
  | s :: c =>
      if negb (String.eqb (st_Target s) target) || String.eqb (st_From s) "" then predecessor_among all c target
      else match head (filter (λ q, st_Target q = st_From s) all) with
           | Some q => Some q
           | None => predecessor_among all c target
           end
  end.

Definition Predecessor (c : list Step) (target : string) : option Step := predecessor_among c c target.

(** The steps of one index after another, the names of each sorted. *)
Definition indexes (c : list Step) : list Z :=
  merge_sort Z.le (elements (list_to_set (st_Index <$> c) : gset Z)).

Definition arrow : string := " → ".

Definition Describe (c : list Step) : string :=
  match c with
  | [] => "nothing"
  | _ => String.concat arrow
           ((λ i, String.concat " + " (sort_strings (st_Target <$> filter (λ s, st_Index s = i) c))) <$> indexes c)
  end.

(* -------------------------------------------------------------------- *)
(** ** What a document is refused for

    The checks of the rules, the downloads and the mirrors that decide whether a
    download can be run; what a field is told is a constructor. *)

Definition PolicyEnforce : string := "enforce".
Definition PolicyWarn : string := "warn".

Inductive Problem :=
  | NameRequired
  | NotAResourceID (name : string)
  | Duplicates (name : string) (previous : nat)
  | PriorityRange (priority : Z)
  | NotAPolicy (policy : string)
  | TargetsRequired
  | NotATarget (name : string)
  | OnlyPromoted (name : string)
  | TargetDisabled (name : string)
  | HopDisabled (name hop : string)
  | HopOnlyPromoted (name hop : string)
  | NoneIsDefault
  | SeveralAreDefault (n : nat)
  | TwoUpstreams
  | NoUpstream
  | MirrorsItself
  | UpstreamUndeclared (from : string)
  | UpstreamDisabled (from : string)
  | UpstreamIsProxy (from : string)
  | ReferenceScheme (ref : string)
  | ReferenceDigest (ref : string)
  | ReferenceTag (ref : string)
  | ReferenceWithoutPath (ref : string)
  | FormsCycle (path : list string)
  | RuleFillsProxy (name : string)
  | RuleFillsIdleMirror (name : string).

Record Invalid := mkInvalid {
  iv_Field : string;
  iv_Problem : Problem }.

Definition at_index (field : string) (i : nat) : string := words [field; "["; pretty i; "]"].

Definition in_range (low high : nat) (c : Ascii.ascii) : bool :=
  let n := Ascii.nat_of_ascii c in (low <=? n)%nat && (n <=? high)%nat.

(** [a-z0-9] *)
Definition alphanumeric (c : Ascii.ascii) : bool := in_range 97 122 c || in_range 48 57 c.

(** ^[a-z0-9]([-a-z0-9]*[a-z0-9])?$ *)
Definition nameRE (s : string) : bool :=
  let l := String.list_ascii_of_string s in
  forallb (λ c, alphanumeric c || Ascii.eqb c dash) l &&
  match head l, last l with
  | Some first, Some final => alphanumeric first && alphanumeric final
  | _, _ => false
  end.

Section validation.
Context (p : Product).

(** The hops from [cur] that are not in [seen]. *)
Fixpoint chain_hops (fuel : nat) (cur : string) (seen : gset string) : option (list string) :=
  if String.eqb cur "" || bool_decide (cur ∈ seen) then Some []
  else match fuel with
  | O => None
  | S fuel =>
      match t ← declared p !! cur; mirror_from t with
      | None => Some [cur]
      | Some from => cons cur <$> chain_hops fuel from ({[cur]} ∪ seen)
      end
  end.

Definition chainOf (name : string) : list string :=
  default [] (chain_hops (S (size (declared p))) name ∅).

Definition hop_problems (tpath name hop : string) : list Invalid :=
  match declared p !! hop with
  | None => []
  | Some h =>
      if negb (Target_IsEnabled h) then [mkInvalid tpath (HopDisabled name hop)]
      else if ta_PromotionOnly h then [mkInvalid tpath (HopOnlyPromoted name hop)]
      else []
  end.

Definition target_problems (tpath name : string) : list Invalid :=
  match declared p !! name with
  | None => [mkInvalid tpath (NotATarget name)]
  | Some t =>
      if ta_PromotionOnly t then [mkInvalid tpath (OnlyPromoted name)]
      else if negb (Target_IsEnabled t) then [mkInvalid tpath (TargetDisabled name)]
      else concat (hop_problems tpath name <$> filter (λ hop, hop ≠ name) (chainOf name))
  end.

Definition validateDownloadTargets (path : string) (d : Download) : list Invalid :=
  match do_Targets d with
  | [] => if bool_decide (DefaultTarget p = None) then [mkInvalid (words [path; ".targets"]) TargetsRequired] else []
  | names => concat (imap (λ j name, target_problems (at_index (words [path; ".targets"]) j) name) names)
  end.

(** The index each name was first seen at. *)
Fixpoint first_index (name : string) (i : nat) (ds : list Download) : option nat :=
  match ds with
  | [] => None
  | d :: ds => if String.eqb (do_Name d) name then Some i else first_index name (S i) ds
  end.

Definition download_problems (i : nat) (d : Download) : list Invalid :=
  let path := at_index "spec.download" i in
  (if String.eqb (do_Name d) "" && (1 <? length (po_Download p))%nat then [mkInvalid (words [path; ".name"]) NameRequired]
   else if negb (String.eqb (do_Name d) "") && negb (nameRE (do_Name d))
   then [mkInvalid (words [path; ".name"]) (NotAResourceID (do_Name d))] else []) ++
  (if String.eqb (do_Name d) "" then []
   else match first_index (do_Name d) 0 (take i (po_Download p)) with
        | Some previous => [mkInvalid (words [path; ".name"]) (Duplicates (do_Name d) previous)]
        | None => []
        end) ++
  (let pr := EffectivePriority d in
   if (pr <? 0) || (1000 <? pr) then [mkInvalid (words [path; ".priority"]) (PriorityRange pr)] else []) ++
  (match do_Verify d with
   | Some v => if bool_decide (dv_Policy v ∈ [""; PolicyEnforce; PolicyWarn]) then []
               else [mkInvalid (words [path; ".verify.policy"]) (NotAPolicy (dv_Policy v))]
   | None => []
   end) ++
  validateDownloadTargets path d.

Definition validateDownloads : list Invalid :=
  let defaults := length (filter (λ d, do_Default d = true) (po_Download p)) in
  concat (imap download_problems (po_Download p)) ++
  (if (1 <? length (po_Download p))%nat && (defaults =? 0)%nat then [mkInvalid "spec.download" NoneIsDefault]
   else if (1 <? defaults)%nat then [mkInvalid "spec.download" (SeveralAreDefault defaults)]
   else []).

Definition validateMirrorFrom (path : string) (t : Target) (from : string) : list Invalid :=
  if String.eqb from (ta_Name t) then [mkInvalid path MirrorsItself]
  else match declared p !! from with
  | None => [mkInvalid path (UpstreamUndeclared from)]
  | Some u =>
      if negb (Target_IsEnabled u) then [mkInvalid path (UpstreamDisabled from)]
      else if String.eqb (Target_ReplicationMode u) ReplicationProxy then [mkInvalid path (UpstreamIsProxy from)]
      else []
  end.

Definition validateExternalReference (path ref : string) : list Invalid :=
  let final := match cut_last slash ref with Some (_, b) => b | None => ref end in
  (if Contains ref "://" then [mkInvalid path (ReferenceScheme ref)] else []) ++
  (if Contains ref "@" then [mkInvalid path (ReferenceDigest ref)] else []) ++
  (if has_char colon final then [mkInvalid path (ReferenceTag ref)] else []) ++
  (if negb (has_char slash ref) then [mkInvalid path (ReferenceWithoutPath ref)] else []).

(** validateMirror: exactly one upstream. *)
Definition upstream_problems (i : nat) (t : Target) : list Invalid :=
  let path := words [at_index "spec.targets" i; ".replication.mirror"] in
  match MirrorSettings t with
  | None => []
  | Some m =>
      if negb (String.eqb (mi_From m) "") && negb (String.eqb (mi_ExternalReference m) "") then [mkInvalid path TwoUpstreams]
      else if String.eqb (mi_From m) "" && String.eqb (mi_ExternalReference m) "" then [mkInvalid path NoUpstream]
      else if negb (String.eqb (mi_From m) "") then validateMirrorFrom (words [path; ".from"]) t (mi_From m)
      else validateExternalReference (words [path; ".externalReference"]) (mi_ExternalReference m)
  end.

Definition validateUpstreams : list Invalid := concat (imap upstream_problems (po_Targets p)).

Inductive Colour := Grey | Black.

(** [walk]; a name without a colour is white. *)
Fixpoint walk (fuel : nat) (name : string) (path : list string) (colour : gmap string Colour)
    : option (list Invalid * gmap string Colour) :=
  match colour !! name with
  | Some Black => Some ([], colour)
  | Some Grey => Some ([mkInvalid "spec.targets" (FormsCycle (path ++ [name]))], colour)
  | None =>
      match fuel with
      | O => None
      | S fuel =>
          let colour := <[name := Grey]> colour in
          match t ← declared p !! name; mirror_from t with
          | Some from =>
              if bool_decide (is_Some (declared p !! from)) then
                '(errs, colour) ← walk fuel from (path ++ [name]) colour;
                Some (errs, <[name := Black]> colour)
              else Some ([], <[name := Black]> colour)
          | None => Some ([], <[name := Black]> colour)
          end
      end
  end.

Fixpoint walk_each (ts : list Target) (colour : gmap string Colour) : option (list Invalid) :=
  match ts with
  | [] => Some []
  | t :: ts =>
      if String.eqb (ta_Name t) "" then walk_each ts colour
      else '(errs, colour) ← walk (S (size (declared p))) (ta_Name t) [] colour;
           rest ← walk_each ts colour;
           Some (errs ++ rest)
  end.

Definition validateMirrorChain : option (list Invalid) := walk_each (po_Targets p) ∅.

Definition rule_target_problems (i j : nat) (name : string) : list Invalid :=
  match declared p !! name with
  | None => []
  | Some t =>
      let path := at_index (words [at_index "spec.autoDownload.rules" i; ".targets"]) j in
      if String.eqb (Target_ReplicationMode t) ReplicationProxy then [mkInvalid path (RuleFillsProxy name)]
      else if String.eqb (Target_ReplicationMode t) ReplicationMirror then
        match MirrorSettings t with
        | Some m => if negb (SyncsOnRequest m) then [mkInvalid path (RuleFillsIdleMirror name)] else []
        | None => []
        end
      else []
  end.

Definition validateRuleModes : list Invalid :=
  concat (imap (λ i r,
    concat (imap (rule_target_problems i)
      (match DownloadFor p r with inr d => do_Targets d | inl _ => ru_Targets r end))) (po_Rules p)).
End validation.

(* -------------------------------------------------------------------- *)
(** ** Lemmas: the upstreams of a product *)

(** [b] is what [a] pulls from. *)
Definition upstream (p : Product) (a b : string) : Prop :=
  ∃ t, declared p !! a = Some t ∧ mirror_from t = Some b.

(** What is written to when [named] is: each target and what it waits for. *)
Definition reached (p : Product) (named : list string) (x : string) : Prop :=
  ∃ n, n ∈ named ∧ n ≠ "" ∧ rtc (upstream p) n x.

(** The hops from a target to one that pulls from the sources. *)
Inductive hop_count (p : Product) : string → Z → Prop :=
  | hop_root x : (∀ b, ¬ upstream p x b) → hop_count p x 0
  | hop_next x b d : upstream p x b → hop_count p b d → hop_count p x (d + 1).

Lemma mirror_from_nonempty t b : mirror_from t = Some b → b ≠ "".
Proof.
  unfold mirror_from. destruct (MirrorSettings t) as [m|]; simpl; [|done].
  destruct (String.eqb_spec (mi_From m) ""); [done|]. by intros [= <-].
Qed.

Section upstream.
Context {p : Product}.

Lemma upstream_nonempty a b : upstream p a b → b ≠ "".
Proof. intros (t & _ & Ht). by eapply mirror_from_nonempty. Qed.

Lemma upstream_fun a b c : upstream p a b → upstream p a c → b = c.
Proof. intros (t & Ht & Hb) (u & Hu & Hc). congruence. Qed.

Lemma hop_count_nonneg x d : hop_count p x d → 0 ≤ d.
Proof. induction 1; lia. Qed.

Lemma hop_count_fun x d e : hop_count p x d → hop_count p x e → d = e.
Proof.
  intros Hd. revert e. induction Hd as [x Hx|x b d Hb _ IH]; intros e He; inversion He as [y Hy|y c f Hc Hf]; subst.
  - done.
  - by destruct (Hx c).
  - by destruct (Hy b).
  - rewrite (upstream_fun x c b Hc Hb) in Hf. by rewrite (IH f Hf).
Qed.

Lemma hop_count_upstream x y d : tc (upstream p) x y → hop_count p x d → ∃ e, hop_count p y e ∧ e < d.
Proof.
  intros Hxy. revert d. induction Hxy as [x y Hxy|x y z Hxy _ IH]; intros d Hd;
    inversion Hd as [w Hw|w c f Hc Hf]; subst; try by destruct (Hw y).
  - rewrite (upstream_fun x y c Hxy Hc). exists f. split; [done|lia].
  - rewrite (upstream_fun x c y Hc Hxy) in Hf. destruct (IH f Hf) as (e & He & Hl). exists e. split; [done|lia].
Qed.

(** Where hops can be counted nothing waits for itself. *)
Lemma hop_count_acyclic x d : hop_count p x d → ¬ tc (upstream p) x x.
Proof.
  intros Hd Hx. destruct (hop_count_upstream x x d Hx Hd) as (e & He & Hl).
  rewrite (hop_count_fun x d e Hd He) in Hl. lia.
Qed.
End upstream.

(* -------------------------------------------------------------------- *)
(** ** Lemmas: the closure *)

(** What is true of the closure while [todo] is still to be followed. *)
Record closing (p : Product) (roots : list string) (todo : gset string) (c : Closure) : Prop := {
  cl_nodup : NoDup (order c);
  cl_order x : x ∈ inChain c ↔ x ∈ order c;
  cl_declared x : x ∈ inChain c → is_Some (declared p !! x);
  cl_from x b : fromOf c !! x = Some b ↔ x ∈ inChain c ∧ upstream p x b;
  cl_reached x : x ∈ inChain c → reached p roots x;
  cl_closed x b : x ∈ inChain c → upstream p x b → b ∈ inChain c ∨ b ∈ todo }.

Section closure.
Context {p : Product} (roots : list string).

Lemma closing_size todo c : closing p roots todo c → (size (inChain c) ≤ size (declared p))%nat.
Proof.
  intros H. rewrite <-size_dom. apply subseteq_size. intros x Hx. apply elem_of_dom. by apply (cl_declared _ _ _ _ H).
Qed.

Lemma closing_done todo c : closing p roots todo c → todo ⊆ {[""]} ∪ inChain c → closing p roots ∅ c.
Proof.
  intros [H1 H2 H3 H4 H5 H6] Ht. split; [done..|]. intros x b Hx Hb. destruct (H6 x b Hx Hb) as [?|Hin]; [by left|].
  left. apply upstream_nonempty in Hb. set_solver.
Qed.

(** A turn of the loop: [cur] joins the chain, and what it pulls from is next. *)
Definition joined (cur : string) (t : Target) (c : Closure) : Closure :=
  mkClosure ({[cur]} ∪ inChain c)
    (match mirror_from t with Some from => <[cur := from]> (fromOf c) | None => fromOf c end) (order c ++ [cur]).

Lemma joined_closing cur t c :
  closing p roots {[cur]} c → cur ∉ inChain c → declared p !! cur = Some t → reached p roots cur →
  closing p roots (match mirror_from t with Some from => {[from]} | None => ∅ end) (joined cur t c).
Proof.
  intros [H1 H2 H3 H4 H5 H6] Hcur Ht Hr. split; unfold joined; simpl.
  - apply NoDup_app. split; [done|]. split; [|apply NoDup_singleton].
    intros x Hx Hc%list_elem_of_singleton. subst. by apply Hcur, H2.
  - intros x. rewrite elem_of_app, list_elem_of_singleton, <-H2. set_solver.
  - intros x [->%elem_of_singleton|Hx]%elem_of_union; [by eexists|by apply H3].
  - intros x b. destruct (decide (x = cur)) as [->|Hne].
    + destruct (mirror_from t) as [from|] eqn:Hf.
      * rewrite lookup_insert_eq. split.
        -- intros [= <-]. split; [set_solver|by exists t].
        -- intros [_ (u & Hu & Hb)]. congruence.
      * rewrite H4. split; [set_solver|]. intros [_ (u & Hu & Hb)]. congruence.
    + transitivity (fromOf c !! x = Some b); [by destruct (mirror_from t); rewrite ?lookup_insert_ne by done|].
      rewrite H4. set_solver.
  - intros x [->%elem_of_singleton|Hx]%elem_of_union; [done|by apply H5].
  - intros x b [->%elem_of_singleton|Hx]%elem_of_union Hb.
    + destruct Hb as (u & Hu & Hb). assert (u = t) as -> by congruence. rewrite Hb. set_solver.
    + destruct (H6 x b Hx Hb); set_solver.
Qed.

Definition refusal_of_reached (names : list string) (e : DeriveError) : Prop :=
  ∃ x, e = NotDeclared x (po_Name p) ∧ reached p names x ∧ declared p !! x = None.

(** What a loop that adds to the chain answers. *)
Definition closes_over (c : Closure) (names : list string) (o : outcome Closure) : Prop :=
  match o with
  | Done c' => closing p roots ∅ c' ∧ inChain c ⊆ inChain c' ∧ ∀ n, n ∈ names → n ≠ "" → n ∈ inChain c'
  | Refused e => refusal_of_reached roots e
  | OutOfFuel => False
  end.

Lemma closes_mono c d names o : inChain c ⊆ inChain d → closes_over d names o → closes_over c names o.
Proof. destruct o; simpl; [|done..]. intros ? (? & ? & ?). split; [done|]. split; [set_solver|done]. Qed.

Lemma follow_closes fuel cur c :
  closing p roots {[cur]} c → (cur ≠ "" → reached p roots cur) → (size (declared p) < fuel + size (inChain c))%nat →
  closes_over c [cur] (follow p fuel cur c).
Proof.
  revert cur c. induction fuel as [|fuel IH]; intros cur c Hc Hr Hfuel; simpl;
    (destruct (String.eqb_spec cur "") as [->|Hne];
      [split; [eapply closing_done; [done|set_solver]|]; split; [done|]; by intros ? ->%list_elem_of_singleton|]);
    (case_bool_decide;
      [split; [eapply closing_done; [done|set_solver]|]; split; [done|]; by intros ? ->%list_elem_of_singleton|]).
  { pose proof (closing_size _ _ Hc). lia. }
  destruct (declared p !! cur) as [t|] eqn:Ht; [|by exists cur; auto].
  pose proof (joined_closing cur t c Hc ltac:(done) Ht (Hr ltac:(done))) as Hj. unfold joined in Hj.
  destruct (mirror_from t) as [from|] eqn:Hf.
  - match goal with |- closes_over _ _ (follow _ _ _ ?d) => set (c' := d) end.
    assert (closes_over c' [from] (follow p fuel from c')) as Ho.
    { apply IH; [exact Hj| |].
      - intros _. destruct (Hr ltac:(done)) as (n & Hn & Hne' & Hrtc). exists n. split; [done|]. split; [done|].
        eapply rtc_r; [done|]. by exists t.
      - subst c'. simpl. rewrite size_union, size_singleton by set_solver. lia. }
    destruct (follow p fuel from c') as [c2|e|]; simpl in *; [|done..].
    destruct Ho as (H1 & H2 & _). split; [done|]. subst c'. simpl in H2. split; [set_solver|].
    intros n ->%list_elem_of_singleton. set_solver.
  - split; [exact Hj|]. simpl. split; [set_solver|]. intros n ->%list_elem_of_singleton. set_solver.
Qed.

Lemma close_over_closes names c :
  closing p roots ∅ c → (∀ n, n ∈ names → n ∈ roots) → closes_over c names (close_over p names c).
Proof.
  revert c. induction names as [|name names IH]; intros c Hc Hin; cbn [close_over].
  { split; [done|]. split; [done|]. by intros n []%elem_of_nil. }
  assert (closes_over c [name] (follow p (S (size (declared p))) name c)) as Hf.
  { apply follow_closes; [|intros ?; exists name; split; [apply Hin; left|]; split; [done|apply rtc_refl]|lia].
    destruct Hc as [H1 H2 H3 H4 H5 H6]. split; [done..|]. intros x b Hx Hb. destruct (H6 x b Hx Hb); set_solver. }
  destruct (follow p _ name c) as [c1|e|]; simpl in *; [|done..]. destruct Hf as (H1 & H2 & H3).
  assert (closes_over c1 names (close_over p names c1)) as Hrest.
  { apply IH; [done|]. intros n Hn. apply Hin. by right. }
  destruct (close_over p names c1) as [c2|e|]; simpl in *; [|done..]. destruct Hrest as (H4 & H5 & H6).
  split; [done|]. split; [set_solver|]. intros n [->|Hn]%elem_of_cons Hne; [|by apply H6].
  apply H5, H3; [by left|done].
Qed.

Lemma closing_empty : closing p roots ∅ (mkClosure ∅ ∅ []).
Proof.
  split; simpl; [constructor|set_solver..| |set_solver|set_solver].
  intros x b. rewrite lookup_empty. set_solver.
Qed.
End closure.

(** The closure holds exactly what is reached. *)
Lemma closing_exact p roots c x : closing p roots ∅ c → (∀ n, n ∈ roots → n ≠ "" → n ∈ inChain c) →
  x ∈ inChain c ↔ reached p roots x.
Proof.
  intros Hc Hroots. split; [apply (cl_reached _ _ _ _ Hc)|]. intros (n & Hn & Hne & Hr).
  specialize (Hroots n Hn Hne). clear Hn Hne. induction Hr as [|a b c' Hab _ IH]; [done|]. apply IH.
  destruct (cl_closed _ _ _ _ Hc a b Hroots Hab); set_solver.
Qed.

(* -------------------------------------------------------------------- *)
(** ** Lemmas: the depths *)

Definition depths_true (p : Product) (depth : gmap string Z) : Prop :=
  ∀ x d, depth !! x = Some d → hop_count p x d.

Section depths.
Context {p : Product} (roots : list string) (c : Closure) (Hc : closing p roots ∅ c).

Lemma closed_from x : x ∈ inChain c →
  match fromOf c !! x with
  | Some b => upstream p x b ∧ b ∈ inChain c
  | None => ∀ b, ¬ upstream p x b
  end.
Proof using Hc.
  intros Hx. destruct (fromOf c !! x) as [b|] eqn:Hf.
  - apply (cl_from _ _ _ _ Hc) in Hf as [_ Hb]. split; [done|].
    destruct (cl_closed _ _ _ _ Hc x b Hx Hb); set_solver.
  - intros b Hb. assert (fromOf c !! x = Some b) as E by by apply (cl_from _ _ _ _ Hc). congruence.
Qed.

(** A count of hops is right; a refusal names a target of a cycle. *)
Definition counts (name : string) (o : outcome (Z * gmap string Z)) : Prop :=
  match o with
  | Done (d, depth) => hop_count p name d ∧ depths_true p depth
  | Refused e => ∃ x, e = MirrorCycle x ∧ rtc (upstream p) name x ∧ tc (upstream p) x x
  | OutOfFuel => False
  end.

Lemma depths_true_insert x d depth : hop_count p x d → depths_true p depth → depths_true p (<[x := d]> depth).
Proof.
  intros Hx Ht y e. destruct (decide (y = x)) as [->|Hne].
  - rewrite lookup_insert_eq. by intros [= <-].
  - rewrite lookup_insert_ne by done. apply Ht.
Qed.

Lemma hops_counts fuel name seen depth :
  name ∈ inChain c → seen ⊆ inChain c → (∀ y, y ∈ seen → tc (upstream p) y name) → depths_true p depth →
  (size (inChain c) < fuel + size seen)%nat → counts name (hops fuel c name seen depth).
Proof using Hc.
  revert name seen depth. induction fuel as [|fuel IH]; intros name seen depth Hn Hs Hseen Ht Hfuel; simpl;
    (destruct (depth !! name) as [d|] eqn:Hd; [split; [by apply Ht|done]|]);
    (case_bool_decide as Hin; [exists name; split; [done|]; split; [apply rtc_refl|by apply Hseen]|]).
  { apply subseteq_size in Hs. lia. }
  pose proof (closed_from name Hn) as Hf. destruct (fromOf c !! name) as [b|].
  - destruct Hf as [Hb Hbin]. rewrite bool_decide_true by done.
    assert (counts b (hops fuel c b ({[name]} ∪ seen) depth)) as Ho.
    { apply IH; [done|set_solver| |done|].
      - intros y [->%elem_of_singleton|Hy]%elem_of_union; [by apply tc_once|].
        eapply tc_r; [by apply Hseen|done].
      - rewrite size_union, size_singleton by set_solver. lia. }
    destruct (hops fuel c b _ depth) as [[d depth']|e|]; simpl in *; [| |done].
    + destruct Ho as [Hd1 Hd2]. assert (hop_count p name (d + 1)) by by eapply hop_next.
      split; [done|]. by apply depths_true_insert.
    + destruct Ho as (x & -> & Hr & Hx). exists x. split; [done|]. split; [by eapply rtc_l|done].
  - assert (hop_count p name 0) by by apply hop_root. split; [done|]. by apply depths_true_insert.
Qed.

(** The steps of [names]: each at its count of hops, after what it waits for. *)
Definition step_true (named : list string) (s : Step) : Prop :=
  hop_count p (st_Target s) (st_Index s) ∧
  (if String.eqb (st_From s) "" then ∀ b, ¬ upstream p (st_Target s) b
   else upstream p (st_Target s) (st_From s)) ∧
  st_Delegated s = from_option Delegated false (declared p !! st_Target s) ∧
  st_NamedByRule s = bool_decide (st_Target s ∈ named).

Lemma chain_step_true named x d : x ∈ inChain c → hop_count p x d → step_true named (chain_step p c named x d).
Proof using Hc.
  intros Hx Hd. unfold step_true, chain_step. simpl. split; [done|]. split; [|done].
  pose proof (closed_from x Hx) as Hf. destruct (fromOf c !! x) as [b|]; simpl.
  - destruct Hf as [Hb Hin]. rewrite bool_decide_true by done. apply upstream_nonempty in Hb as Hne.
    by destruct (String.eqb_spec b "").
  - by destruct (bool_decide ("" ∈ inChain c)).
Qed.

Lemma steps_of_spec named names depth :
  (∀ x, x ∈ names → x ∈ inChain c) → depths_true p depth →
  match steps_of p c named names depth with
  | Done steps => st_Target <$> steps = names ∧ ∀ s, s ∈ steps → step_true named s
  | Refused e => ∃ x n, e = MirrorCycle x ∧ n ∈ names ∧ rtc (upstream p) n x ∧ tc (upstream p) x x
  | OutOfFuel => False
  end.
Proof using Hc.
  revert depth. induction names as [|name names IH]; intros depth Hin Ht; cbn [steps_of].
  { split; [done|]. by intros s []%elem_of_nil. }
  assert (counts name (hops (S (size (inChain c))) c name ∅ depth)) as Ho.
  { apply hops_counts; [apply Hin; left|set_solver|set_solver|done|lia]. }
  destruct (hops _ c name ∅ depth) as [[d depth']|e|]; simpl in *; [| |done].
  - destruct Ho as [Hd Ht']. specialize (IH depth' (λ x Hx, Hin x (list_elem_of_further _ _ _ Hx)) Ht').
    destruct (steps_of p c named names depth') as [steps|e|]; simpl in *; [| |done].
    + destruct IH as [H1 H2]. split; [by f_equal|]. intros s [->|Hs]%elem_of_cons; [|by apply H2].
      apply chain_step_true; [apply Hin; left|done].
    + destruct IH as (x & n & ? & ? & ?). exists x, n. split; [done|]. split; [by right|done].
  - destruct Ho as (x & -> & H1 & H2). exists x, name. split; [done|]. split; [left|done].
Qed.
End depths.

#[export] Instance step_less_weak : WeakLess step_less.
Proof.
  apply (weak_lex st_Index Z.eqb Z.ltb (λ a b, String.ltb (st_Target a) (st_Target b))).
  apply (weak_key st_Target String.eqb String.ltb).
Qed.

(** What an ordered chain promises. *)
Record chain_of (p : Product) (named : list string) (c : list Step) : Prop := {
  ch_nodup : NoDup (Targets c);
  ch_reached x : x ∈ Targets c ↔ reached p named x;
  ch_declared x : x ∈ Targets c → is_Some (declared p !! x);
  ch_true s : s ∈ c → step_true named s (p := p);
  ch_sorted : StronglySorted (not_less step_less) c }.

(** Why a download has no chain. *)
Definition no_chain (p : Product) (named : list string) (e : DeriveError) : Prop :=
  (∃ x, e = NotDeclared x (po_Name p) ∧ reached p named x ∧ declared p !! x = None) ∨
  (∃ x, e = MirrorCycle x ∧ reached p named x ∧ tc (upstream p) x x).

Lemma Derive_from p named c0 :
  c0 = (c ← close_over p named (mkClosure ∅ ∅ []); steps ← steps_of p c named (order c) ∅;
        Done (slice_stable step_less steps)) →
  match c0 with Done c => chain_of p named c | Refused e => no_chain p named e | OutOfFuel => False end.
Proof.
  intros ->. pose proof (close_over_closes (p := p) named named (mkClosure ∅ ∅ []) (closing_empty named) (λ n Hn, Hn)) as Hcl.
  destruct (close_over p named _) as [c|e|]; simpl in *; [|by left|done].
  destruct Hcl as (Hc & _ & Hroots).
  pose proof (λ x, closing_exact p named c x Hc (λ n Hn Hne, Hroots n Hn Hne)) as Hex.
  pose proof (steps_of_spec named c Hc named (order c) ∅ (λ x Hx, proj2 (cl_order _ _ _ _ Hc x) Hx)) as Hst.
  assert (depths_true p ∅) as H0 by (intros x d; by rewrite lookup_empty). specialize (Hst H0).
  destruct (steps_of p c named (order c) ∅) as [steps|e|]; simpl in *; [| |done].
  - destruct Hst as [Hn Ht]. set (l := slice_stable step_less steps).
    assert (l ≡ₚ steps) as Hp by apply slice_stable_Permutation.
    assert (Targets l ≡ₚ order c) as Ho by (rewrite <-Hn; unfold Targets; by rewrite Hp).
    split.
    + rewrite Ho. apply (cl_nodup _ _ _ _ Hc).
    + intros x. by rewrite Ho, <-(cl_order _ _ _ _ Hc), Hex.
    + intros x. rewrite Ho, <-(cl_order _ _ _ _ Hc). apply (cl_declared _ _ _ _ Hc).
    + intros s. rewrite Hp. apply Ht.
    + apply slice_stable_sorted, step_less_weak.
  - destruct Hst as (x & n & -> & Hn & Hr & Hx). right. exists x. split; [done|]. split; [|done].
    apply (cl_order _ _ _ _ Hc), (cl_reached _ _ _ _ Hc) in Hn as (m & Hm & Hne & Hmn).
    exists m. split; [done|]. split; [done|]. by etrans.
Qed.

Lemma Derive_cases p named :
  match Derive p named with
  | Done c => ∃ names, named_or_default p named = Done names ∧ chain_of p names c
  | Refused (NoDefaultTarget n) => n = po_Name p ∧ named = [] ∧ DefaultTarget p = None
  | Refused e => ∃ names, named_or_default p named = Done names ∧ no_chain p names e
  | OutOfFuel => False
  end.
Proof.
  unfold Derive. pose proof (λ names, Derive_from p names _ eq_refl) as Hd.
  assert (match named_or_default p named with
    | Done names => named_or_default p named = Done names
    | Refused e => e = NoDefaultTarget (po_Name p) ∧ named = [] ∧ DefaultTarget p = None
    | OutOfFuel => False end) as Hn.
  { unfold named_or_default. destruct named as [|n l]; [|done]. by destruct (DefaultTarget p). }
  destruct (named_or_default p named) as [names|e|]; cbn [mbind outcome_bind]; [|by destruct Hn as (-> & ? & ?)|done].
  specialize (Hd names). destruct (mbind _ (close_over p names _)) as [c|e|]; [by exists names| |done].
  destruct Hd as [(x & -> & H)|(x & -> & H)]; exists names; (split; [done|]); [left|right]; by exists x.
Qed.

Lemma Derive_Done p named c :
  Derive p named = Done c ↔ ∃ names, named_or_default p named = Done names ∧ chain_of p names c ∧ Derive p names = Done c.
Proof.
  split; [|].
  - intros H. pose proof (Derive_cases p named) as Hc. rewrite H in Hc. destruct Hc as (names & Hn & Hch).
    exists names. split; [done|]. split; [done|]. rewrite <-H. unfold named_or_default in Hn.
    destruct named as [|n l]; [|by injection Hn as <-]. destruct (DefaultTarget p) as [t|] eqn:Ht; [|done].
    injection Hn as <-. unfold Derive. simpl. by rewrite Ht.
  - intros (names & Hn & _ & H). rewrite <-H. unfold Derive, named_or_default in *.
    destruct named as [|n l]; [|by injection Hn as <-]. destruct (DefaultTarget p) as [t|]; [|done].
    by injection Hn as <-.
Qed.

Section chain_of.
Context {p : Product} {named : list string} {c : list Step} (Hc : chain_of p named c).

Lemma chain_lookup s t : s ∈ c → t ∈ c → st_Target s = st_Target t → s = t.
Proof using Hc.
  intros [i Hi]%list_elem_of_lookup_1 [j Hj]%list_elem_of_lookup_1 E.
  assert (i = j) as <-; [|congruence].
  apply (NoDup_lookup (Targets c) i j (st_Target s)); [apply (ch_nodup _ _ _ Hc)|..];
    apply list_lookup_fmap_Some; [by exists s|by exists t].
Qed.

Lemma chain_acyclic x : reached p named x → ¬ tc (upstream p) x x.
Proof using Hc.
  intros Hx. apply (ch_reached _ _ _ Hc), list_elem_of_fmap in Hx as (s & -> & Hs).
  eapply hop_count_acyclic. by apply (ch_true _ _ _ Hc).
Qed.

(** The step a step waits for. *)
Lemma chain_waits s : s ∈ c → st_From s ≠ "" →
  ∃ q, q ∈ c ∧ st_Target q = st_From s ∧ st_Index s = st_Index q + 1.
Proof using Hc.
  intros Hs Hne. pose proof (ch_true _ _ _ Hc s Hs) as (Hd & Hf & _).
  destruct (String.eqb_spec (st_From s) ""); [done|].
  assert (st_From s ∈ Targets c) as (q & E & Hq)%list_elem_of_fmap.
  { apply (ch_reached _ _ _ Hc). assert (st_Target s ∈ Targets c) as Ht by by apply list_elem_of_fmap_2.
    apply (ch_reached _ _ _ Hc) in Ht as (m & Hm & Hme & Hr). exists m. split; [done|]. split; [done|].
    by eapply rtc_r. }
  exists q. split; [done|]. split; [done|]. pose proof (ch_true _ _ _ Hc q Hq) as (Hdq & _).
  eapply hop_count_fun; [exact Hd|]. eapply hop_next; [exact Hf|]. by rewrite E.
Qed.

Lemma chain_root s : s ∈ c → st_From s = "" → st_Index s = 0.
Proof using Hc.
  intros Hs E. pose proof (ch_true _ _ _ Hc s Hs) as (Hd & Hf & _). rewrite E in Hf. simpl in Hf.
  inversion Hd as [|x b d Hb]; [done|]. by destruct (Hf b).
Qed.

Lemma chain_before i j s q : c !! i = Some s → c !! j = Some q → st_Index q < st_Index s → (j < i)%nat.
Proof using Hc.
  intros Hi Hj Hl. destruct (decide (j < i)%nat) as [|Hge]; [done|].
  assert (i ≠ j) as Hne by (intros ->; rewrite Hi in Hj; injection Hj as ->; lia).
  pose proof (proj1 (StronglySorted_lookup _ c) (ch_sorted _ _ _ Hc) i j s q ltac:(lia) Hi Hj) as Hn.
  unfold not_less, step_less in Hn. destruct (Z.eqb_spec (st_Index q) (st_Index s)); [lia|]. simpl in Hn. lia.
Qed.

Lemma predecessor_among_chain l s : s ∈ l → (∀ x, x ∈ l → x ∈ c) → st_From s ≠ "" →
  ∀ q, q ∈ c → st_Target q = st_From s → predecessor_among c l (st_Target s) = Some q.
Proof using Hc.
  intros Hs Hl Hne q Hq E. induction l as [|x l IH]; [by apply elem_of_nil in Hs|]. cbn [predecessor_among].
  destruct (String.eqb_spec (st_Target x) (st_Target s)) as [Ex|Ex]; simpl.
  - assert (x = s) as -> by (apply chain_lookup; [apply Hl; left|apply Hl; done|done]).
    destruct (String.eqb_spec (st_From s) ""); [done|].
    destruct (filter _ c) as [|y k] eqn:Ef.
    + assert (q ∈ filter (λ q, st_Target q = st_From s) c) as Hin by by apply list_elem_of_filter.
      rewrite Ef in Hin. by apply elem_of_nil in Hin.
    + assert (y ∈ filter (λ q, st_Target q = st_From s) c) as [Hy1 Hy2]%list_elem_of_filter by (rewrite Ef; left).
      simpl. f_equal. apply chain_lookup; [done..|congruence].
  - apply elem_of_cons in Hs as [->|Hs]; [done|]. apply IH; [done|]. intros y Hy. apply Hl. by right.
Qed.

Lemma predecessor_among_root l s : s ∈ c → (∀ x, x ∈ l → x ∈ c) → st_From s = "" →
  predecessor_among c l (st_Target s) = None.
Proof using Hc.
  intros Hs Hl E. induction l as [|x l IH]; [done|]. cbn [predecessor_among].
  assert (predecessor_among c l (st_Target s) = None) as Hr by (apply IH; intros y Hy; apply Hl; by right).
  destruct (String.eqb_spec (st_Target x) (st_Target s)) as [Ex|Ex]; simpl; [|done].
  assert (x = s) as -> by (apply chain_lookup; [apply Hl; left|done|done]). by rewrite E.
Qed.
End chain_of.

(* -------------------------------------------------------------------- *)
(** ** Chains *)

(** C30. A download's chain is its destinations closed over [mirror.from], each
    once, and in an order that can be run: a step that waits for nothing has
    index zero, and any other comes after the step it waits for, one index
    higher.  [Predecessor] is that step. *)
Theorem a_chain_is_closed_and_ordered p named c :
  Derive p named = Done c →
  ∃ names, named_or_default p named = Done names ∧
    NoDup (Targets c) ∧ (∀ x, x ∈ Targets c ↔ reached p names x) ∧
    ∀ i s, c !! i = Some s →
      (st_NamedByRule s = true ↔ st_Target s ∈ names) ∧
      (∃ t, declared p !! st_Target s = Some t ∧ st_Delegated s = Delegated t) ∧
      if String.eqb (st_From s) "" then
        (∀ b, ¬ upstream p (st_Target s) b) ∧ st_Index s = 0 ∧ Predecessor c (st_Target s) = None
      else
        upstream p (st_Target s) (st_From s) ∧
        ∃ j q, (j < i)%nat ∧ c !! j = Some q ∧ st_Target q = st_From s ∧ st_Index s = st_Index q + 1 ∧
          Predecessor c (st_Target s) = Some q.
Proof.
  intros (names & Hn & Hc & _)%Derive_Done. exists names. split; [done|].
  split; [apply (ch_nodup _ _ _ Hc)|]. split; [apply (ch_reached _ _ _ Hc)|]. intros i s Hi.
  assert (s ∈ c) as Hs by by eapply list_elem_of_lookup_2.
  pose proof (ch_true _ _ _ Hc s Hs) as (_ & Hf & Hd & Hb). rewrite Hb, bool_decide_eq_true. split; [done|]. split.
  { destruct (ch_declared _ _ _ Hc (st_Target s)) as [t Ht]; [by apply list_elem_of_fmap_2|].
    exists t. by rewrite Hd, Ht. }
  destruct (String.eqb_spec (st_From s) "") as [E|E].
  - split; [done|]. split; [by eapply chain_root|]. by eapply predecessor_among_root.
  - split; [done|]. destruct (chain_waits Hc s Hs E) as (q & Hq & Et & Ei).
    destruct (list_elem_of_lookup_1 _ _ Hq) as [j Hj]. exists j, q.
    split; [eapply (chain_before Hc); [done..|lia]|]. split_and!; try done. by eapply predecessor_among_chain.
Qed.

(** C31. A chain is always derived or refused, and refused exactly for a cause.
    What is asked for is what is named, or the default target when nothing is.
    A chain is derived only if there is something to ask for and every target
    reached from it, along what each pulls from, is declared and does not wait for
    itself, and its targets are then exactly those reached; a refusal names the
    cause: nothing named and no default, a target reached that is not declared, or
    one reached that waits for itself. *)
Theorem a_chain_is_refused_for_a_cause p named :
  let asked := match named, DefaultTarget p with [], Some t => [ta_Name t] | _, _ => named end in
  let idle := named = [] ∧ DefaultTarget p = None in
  match Derive p named with
  | Done c =>
      ¬ idle ∧ (∀ x, x ∈ Targets c ↔ reached p asked x) ∧
      ∀ x, reached p asked x → is_Some (declared p !! x) ∧ ¬ tc (upstream p) x x
  | Refused (NoDefaultTarget product) => product = po_Name p ∧ idle
  | Refused (NotDeclared x product) =>
      product = po_Name p ∧ ¬ idle ∧ reached p asked x ∧ declared p !! x = None
  | Refused (MirrorCycle x) => ¬ idle ∧ reached p asked x ∧ tc (upstream p) x x
  | OutOfFuel => False
  end.
Proof.
  intros asked idle. assert (∀ names, named_or_default p named = Done names → names = asked ∧ ¬ idle) as Hasked.
  { unfold named_or_default, asked, idle. destruct named as [|n l]; intros names Hn.
    - destruct (DefaultTarget p); [|done]. injection Hn as <-. split; [done|]. by intros [_ ?].
    - injection Hn as <-. split; [by destruct (DefaultTarget p)|]. by intros [? _]. }
  pose proof (Derive_cases p named) as Hd. destruct (Derive p named) as [c|[n|x n|x]|].
  - destruct Hd as (names & [-> Hn]%Hasked & Hc). split; [done|]. split; [apply (ch_reached _ _ _ Hc)|].
    intros x Hx. split; [by apply (ch_declared _ _ _ Hc), (ch_reached _ _ _ Hc)|by apply (chain_acyclic Hc)].
  - done.
  - destruct Hd as (names & [-> Hn]%Hasked & [(y & [= -> ->] & H1 & H2)|(y & [=] & _)]). done.
  - destruct Hd as (names & [-> Hn]%Hasked & [(y & [=] & _)|(y & [= ->] & H1 & H2)]). done.
  - done.
Qed.

(** A step, as somebody reads it who did not write the download. *)
Definition unattributed (s : Step) : Step := mkStep (st_Target s) (st_Index s) (st_From s) (st_Delegated s) false.

Lemma chain_of_unattributed p names names' c c' :
  chain_of p names c → chain_of p names' c' → (∀ x, reached p names x ↔ reached p names' x) →
  ∀ u, u ∈ unattributed <$> c → u ∈ unattributed <$> c'.
Proof.
  intros Hc Hc' E u (s & -> & Hs)%list_elem_of_fmap.
  assert (st_Target s ∈ Targets c') as (s' & Et & Hs')%list_elem_of_fmap.
  { apply (ch_reached _ _ _ Hc'), E, (ch_reached _ _ _ Hc). by apply list_elem_of_fmap_2. }
  apply list_elem_of_fmap. exists s'. split; [|done].
  pose proof (ch_true _ _ _ Hc s Hs) as (D & F & G & _). pose proof (ch_true _ _ _ Hc' s' Hs') as (D' & F' & G' & _).
  unfold unattributed. rewrite <-Et in *. f_equal; [by eapply hop_count_fun| |congruence].
  destruct (String.eqb_spec (st_From s) "") as [E1|E1], (String.eqb_spec (st_From s') "") as [E2|E2]; try congruence.
  - by destruct (F (st_From s')).
  - by destruct (F' (st_From s)).
  - by eapply upstream_fun.
Qed.

(** C32. Naming the end of a chain names the chain: two downloads that reach the
    same targets, whatever each of them names and in whatever order, derive the
    same steps in the same order, and differ only in which steps were named. *)
Theorem naming_the_end_names_the_chain p names names' c :
  names ≠ [] → names' ≠ [] → (∀ x, reached p names x ↔ reached p names' x) →
  Derive p names = Done c →
  ∃ c', Derive p names' = Done c' ∧ unattributed <$> c' = unattributed <$> c.
Proof.
  intros Hne Hne' E Hd. pose proof (Derive_cases p names) as Hc. rewrite Hd in Hc.
  assert (∀ l, l ≠ [] → named_or_default p l = Done l) as Hnd by by intros [].
  destruct Hc as (n1 & Hn & Hc). rewrite Hnd in Hn by done. injection Hn as <-.
  pose proof (Derive_cases p names') as Hc'.
  destruct (Derive p names') as [c'|e|]; [|exfalso|done].
  - destruct Hc' as (n2 & Hn & Hc'). rewrite Hnd in Hn by done. injection Hn as <-. exists c'. split; [done|].
    apply (StronglySorted_unique_strong (not_less step_less)).
    + intros ? ? (x & -> & Hx)%list_elem_of_fmap Hy Hxy Hyx.
      pose proof (chain_of_unattributed _ _ _ _ _ Hc Hc' E _ Hy) as (y & -> & Hy')%list_elem_of_fmap.
      f_equal. apply (chain_lookup Hc'); [done..|]. unfold not_less, step_less in Hxy, Hyx. simpl in Hxy, Hyx.
      destruct (Z.eqb_spec (st_Index y) (st_Index x)) as [Ei|Ei]; simpl in Hxy.
      * rewrite Ei, Z.eqb_refl in Hyx. simpl in Hyx. destruct (decide (st_Target x = st_Target y)) as [|Ht]; [done|].
        destruct (ll_total (eqb := String.eqb) (st_Target x) (st_Target y) Ht); congruence.
      * destruct (Z.eqb_spec (st_Index x) (st_Index y)); [done|]. simpl in Hyx. lia.
    + eapply StronglySorted_fmap, (ch_sorted _ _ _ Hc'). by intros x y.
    + eapply StronglySorted_fmap, (ch_sorted _ _ _ Hc). by intros x y.
    + assert (∀ l, NoDup (Targets l) → NoDup (unattributed <$> l)) as Hnod.
      { intros l Hl. apply (NoDup_fmap_1 st_Target). rewrite <-list_fmap_compose. exact Hl. }
      apply NoDup_Permutation; [apply Hnod, (ch_nodup _ _ _ Hc')|apply Hnod, (ch_nodup _ _ _ Hc)|]. intros u.
      assert (∀ x, reached p names' x ↔ reached p names x) as E' by (intros x; by rewrite E).
      split; [apply (chain_of_unattributed _ _ _ _ _ Hc' Hc E')|apply (chain_of_unattributed _ _ _ _ _ Hc Hc' E)].
  - assert (∃ x, reached p names x ∧ (declared p !! x = None ∨ tc (upstream p) x x)) as (x & Hx & Hbad).
    { destruct e as [?|y ?|y]; [by destruct Hc' as (_ & -> & _)|..]; destruct Hc' as (n2 & Hn & Hr);
        rewrite Hnd in Hn by done; injection Hn as <-; destruct Hr as [(z & [=] & H1 & H2)|(z & [=] & H1 & H2)];
        subst; exists z; (split; [by apply E|auto]). }
    destruct Hbad as [Hbad|Hbad]; [|by apply (chain_acyclic Hc x)].
    destruct (ch_declared _ _ _ Hc x) as [t Ht]; [by apply (ch_reached _ _ _ Hc)|congruence].
Qed.

(* -------------------------------------------------------------------- *)
(** ** Lemmas: validation *)

Lemma upstream_walk p a b : upstream p a b ↔ (t ← declared p !! a; mirror_from t) = Some b.
Proof. unfold upstream. destruct (declared p !! a); simpl; naive_solver. Qed.

Section chainOf.
Context {p : Product}.

Lemma chain_hops_spec fuel cur seen :
  (∀ x, x ∈ seen → is_Some (declared p !! x)) → (∀ x b, x ∈ seen → upstream p x b → b ∈ seen ∨ b = cur) →
  (size (declared p) < fuel + size seen)%nat →
  ∃ l, chain_hops p fuel cur seen = Some l ∧
    (cur ≠ "" → cur ∈ seen ∨ cur ∈ l) ∧
    (∀ x b, x ∈ seen ∨ x ∈ l → upstream p x b → b ∈ seen ∨ b ∈ l).
Proof.
  revert cur seen. induction fuel as [|fuel IH]; intros cur seen Hd Hs Hfuel; simpl.
  all: destruct (String.eqb_spec cur "") as [->|Hne]; simpl;
    [exists []; split_and!; [done|done|]; intros x b [Hx|[]%elem_of_nil] Hb;
     destruct (Hs x b Hx Hb) as [?| ->]; [by left|by apply upstream_nonempty in Hb]|].
  all: case_bool_decide as Hin;
    [exists []; split_and!; [done|by left|]; intros x b [Hx|[]%elem_of_nil] Hb;
     destruct (Hs x b Hx Hb) as [?| ->]; by left|].
  { assert (size seen ≤ size (declared p))%nat; [|lia].
    rewrite <-size_dom. apply subseteq_size. intros x Hx. by apply elem_of_dom, Hd. }
  destruct (t ← declared p !! cur; mirror_from t) as [from|] eqn:Hf.
  - apply upstream_walk in Hf. destruct (IH from ({[cur]} ∪ seen)) as (l & -> & Hl & Hcl).
    + intros x [->%elem_of_singleton|Hx]%elem_of_union; [|by apply Hd]. destruct Hf as (t & Ht & _). by exists t.
    + intros x b [->%elem_of_singleton|Hx]%elem_of_union Hb; [right; by eapply upstream_fun|].
      destruct (Hs x b Hx Hb); set_solver.
    + rewrite size_union, size_singleton by set_solver. lia.
    + exists (cur :: l). split; [done|]. split; [intros _; right; left|]. intros x b Hx Hb.
      destruct (Hcl x b) as [Hi|Hi]; [set_solver|done| |right; by right]. set_solver.
  - exists [cur]. split; [done|]. split; [intros _; right; left|].
    intros x b [Hx| ->%list_elem_of_singleton] Hb.
    + destruct (Hs x b Hx Hb) as [?| ->]; [by left|right; left].
    + apply upstream_walk in Hb. congruence.
Qed.

(** Every hop a target transitively pulls from. *)
Lemma chainOf_complete name x : name ≠ "" → rtc (upstream p) name x → x ∈ chainOf p name.
Proof.
  intros Hne Hr. unfold chainOf.
  destruct (chain_hops_spec (S (size (declared p))) name ∅) as (l & -> & Hl & Hcl); [set_solver|set_solver|lia|].
  simpl. destruct (Hl Hne) as [Hi|Hi]; [set_solver|]. clear Hl Hne.
  induction Hr as [|a b c Hab _ IH]; [done|]. apply IH. destruct (Hcl a b (or_intror Hi) Hab); [set_solver|done].
Qed.
End chainOf.

(** Nothing that is reached waits for itself. *)
Definition safe (p : Product) (x : string) : Prop := ∀ y, rtc (upstream p) x y → ¬ tc (upstream p) y y.

Section walk.
Context {p : Product}.

Lemma safe_next x b : upstream p x b → safe p b → safe p x.
Proof.
  intros Hb Hs. assert (∀ y, tc (upstream p) x y → rtc (upstream p) b y) as Hstep.
  { intros y Hy. inversion Hy as [? ? Hc|? c ? Hc Hr]; subst; rewrite (upstream_fun x b _ Hb Hc); [done|by apply tc_rtc]. }
  assert (¬ tc (upstream p) x x) as Hx.
  { intros Hx. exact (Hs x (Hstep x Hx) Hx). }
  intros y Hy Hyy. apply rtc_tc in Hy as [->|Hy]; [done|]. exact (Hs y (Hstep y Hy) Hyy).
Qed.

Lemma safe_end x : (∀ b, upstream p x b → declared p !! b = None) → safe p x.
Proof.
  intros Hx.
  assert (∀ y z, tc (upstream p) y z → ∃ b, upstream p y b) as Hfirst.
  { intros y z Hy. inversion Hy as [? ? Hb|? b ? Hb _]; by eexists. }
  assert (∀ b z, upstream p x b → ¬ tc (upstream p) b z) as Hb.
  { intros b z Hb Hz. destruct (Hfirst b z Hz) as (c & t & Ht & _). rewrite (Hx b Hb) in Ht. done. }
  intros y Hy Hyy. inversion Hy as [|? b ? Hxb Hr]; subst.
  - inversion Hyy as [? ? Hc|? c ? Hc Hr]; subst; [by apply (Hb y y Hc)|by apply (Hb c y Hc)].
  - apply rtc_tc in Hr as [->|Hr]; [by apply (Hb y y)|by apply (Hb b y)].
Qed.

(** [path] is being walked and black names are done with. *)
Record walking (path : list string) (colour : gmap string Colour) : Prop := {
  wk_declared x k : colour !! x = Some k → is_Some (declared p !! x);
  wk_grey x : colour !! x = Some Grey ↔ x ∈ path }.

Definition blacks_safe (colour : gmap string Colour) : Prop := ∀ x, colour !! x = Some Black → safe p x.

(** What a walk adds: names that are done with. *)
Definition blackens (colour colour' : gmap string Colour) : Prop :=
  ∀ x, colour' !! x = colour !! x ∨ colour !! x = None ∧ colour' !! x = Some Black ∧ is_Some (declared p !! x).

Definition walked (name : string) (colour : gmap string Colour) (r : option (list Invalid * gmap string Colour)) : Prop :=
  ∃ errs colour', r = Some (errs, colour') ∧ blackens colour colour' ∧
    (errs = [] → colour' !! name = Some Black) ∧
    (errs = [] → blacks_safe colour → blacks_safe colour') ∧
    (errs ≠ [] → ∃ x, tc (upstream p) x x).

Lemma colouring_walked fuel name path colour :
  walking path colour → is_Some (declared p !! name) → (∀ y, y ∈ path → tc (upstream p) y name) →
  (size (declared p) < fuel + size colour)%nat → walked name colour (walk p fuel name path colour).
Proof.
  revert name path colour. induction fuel as [|fuel IH]; intros name path colour Hw Hn Hp Hfuel; simpl.
  all: destruct (colour !! name) as [[]|] eqn:Hc;
    [exists [mkInvalid "spec.targets" (FormsCycle (path ++ [name]))], colour;
     split; [done|]; split; [by left|]; split; [done|]; split; [done|]; intros _; exists name;
     by apply Hp, (wk_grey _ _ Hw)
    |exists [], colour; split; [done|]; split; [by left|]; done|].
  { assert (size colour ≤ size (declared p))%nat; [|lia]. rewrite <-!size_dom. apply subseteq_size.
    intros x [k Hx]%elem_of_dom. apply elem_of_dom. by eapply (wk_declared _ _ Hw). }
  assert (∀ errs c2, blackens (<[name := Grey]> colour) c2 → (errs = [] → blacks_safe colour → safe p name) →
    (errs = [] → blacks_safe colour → blacks_safe c2) → (errs ≠ [] → ∃ x, tc (upstream p) x x) →
    walked name colour (Some (errs, <[name := Black]> c2))) as Hend.
  { intros errs c2 Hbl Hsafe Hbs Hcy. exists errs, (<[name := Black]> c2). split; [done|]. split.
    { intros x. destruct (decide (x = name)) as [->|Hx]; [rewrite lookup_insert_eq; by right|].
      rewrite lookup_insert_ne by done. specialize (Hbl x). by rewrite lookup_insert_ne in Hbl by done. }
    split; [by rewrite lookup_insert_eq|]. split; [|done]. intros E Hb x.
    destruct (decide (x = name)) as [->|Hx]; [intros _; by apply Hsafe|]. rewrite lookup_insert_ne by done.
    by apply Hbs. }
  assert (∀ b, blacks_safe b → blacks_safe (<[name := Grey]> b)) as Hgrey.
  { intros b Hb x. destruct (decide (x = name)) as [->|Hx]; [by rewrite lookup_insert_eq|].
    rewrite lookup_insert_ne by done. apply Hb. }
  destruct (t ← declared p !! name; mirror_from t) as [from|] eqn:Hf.
  - apply upstream_walk in Hf. case_bool_decide as Hd.
    + assert (walked from (<[name := Grey]> colour) (walk p fuel from (path ++ [name]) (<[name := Grey]> colour))) as Ho.
      { apply IH; [|done| |].
        - split.
          + intros x k. destruct (decide (x = name)) as [->|Hx]; [done|]. rewrite lookup_insert_ne by done.
            apply (wk_declared _ _ Hw).
          + intros x. rewrite elem_of_app, list_elem_of_singleton. destruct (decide (x = name)) as [->|Hx].
            * rewrite lookup_insert_eq. by split; [right|].
            * rewrite lookup_insert_ne by done. rewrite (wk_grey _ _ Hw). naive_solver.
        - intros y [Hy| ->%list_elem_of_singleton]%elem_of_app; [|by apply tc_once].
          eapply tc_r; [by apply Hp|done].
        - rewrite map_size_insert_None by done. lia. }
      destruct Ho as (errs & c2 & -> & Hbl & Hblack & Hbs & Hcy). simpl. apply Hend; [done| | |done].
      * intros E Hb. eapply safe_next; [done|]. by apply (Hbs E (Hgrey _ Hb)), Hblack.
      * intros E Hb. apply Hbs; [done|]. by apply Hgrey.
    + simpl. apply (Hend [] (<[name := Grey]> colour)); [by left| | |done].
      * intros _ _. apply safe_end. intros b Hb. rewrite (upstream_fun name b from Hb Hf).
        by apply eq_None_not_Some.
      * intros _. apply Hgrey.
  - simpl. apply (Hend [] (<[name := Grey]> colour)); [by left| | |done].
    + intros _ _. apply safe_end. intros b Hb%upstream_walk. congruence.
    + intros _. apply Hgrey.
Qed.
End walk.

Section declared.
Context {p : Product}.

Lemma declared_lookup x t : declared p !! x = Some t → t ∈ po_Targets p ∧ ta_Name t = x.
Proof.
  unfold declared. assert (∀ l (m : gmap string Target),
    foldl (λ m t, <[ta_Name t := t]> m) m l !! x = Some t → (t ∈ l ∧ ta_Name t = x) ∨ m !! x = Some t) as Hgen.
  { induction l as [|u l IH]; intros m; simpl; [by right|]. intros [[? ?]|Hm]%IH; [left; by split; [right|]|].
    destruct (decide (x = ta_Name u)) as [->|Hx].
    - rewrite lookup_insert_eq in Hm. injection Hm as ->. left. by split; [left|].
    - rewrite lookup_insert_ne in Hm by done. by right. }
  intros [?|Hm]%Hgen; [done|]. by rewrite lookup_empty in Hm.
Qed.

Lemma declared_is_Some t : t ∈ po_Targets p → is_Some (declared p !! ta_Name t).
Proof.
  unfold declared. assert (∀ l (m : gmap string Target), t ∈ l ∨ is_Some (m !! ta_Name t) →
    is_Some (foldl (λ m t, <[ta_Name t := t]> m) m l !! ta_Name t)) as Hgen.
  { induction l as [|u l IH]; intros m; simpl; [by intros [?%elem_of_nil|?]|]. intros Hor. apply IH.
    destruct (decide (ta_Name t = ta_Name u)) as [E|E]; [right; rewrite E; by rewrite lookup_insert_eq|].
    rewrite lookup_insert_ne by done. destruct Hor as [[->|?]%elem_of_cons|?]; [done|by left|by right]. }
  intros Ht. apply Hgen. by left.
Qed.

(** Names are unique: validateTargets refuses a document where they are not. *)
Lemma Product_Target_declared x : NoDup (ta_Name <$> po_Targets p) → Product_Target p x = declared p !! x.
Proof.
  intros Hnd. unfold Product_Target. destruct (declared p !! x) as [t|] eqn:Ht.
  - apply declared_lookup in Ht as [Hin <-].
    destruct (filter _ _) as [|u l] eqn:Hf.
    + assert (t ∈ filter (λ u, ta_Name u = ta_Name t) (po_Targets p)) as Hm by by apply list_elem_of_filter.
      rewrite Hf in Hm. by apply elem_of_nil in Hm.
    + assert (u ∈ filter (λ u, ta_Name u = ta_Name t) (po_Targets p)) as [E Hu]%list_elem_of_filter by (rewrite Hf; left).
      simpl. f_equal. apply list_elem_of_lookup_1 in Hin as [i Hi], Hu as [j Hj].
      assert (i = j) as <-; [|congruence].
      apply (NoDup_lookup (ta_Name <$> po_Targets p) i j (ta_Name t)); [done|..]; apply list_lookup_fmap_Some; eauto.
  - rewrite filter_none; [done|]. intros t Hin E. destruct (declared_is_Some t Hin) as [u Hu]. congruence.
Qed.

Lemma walk_each_spec ts colour :
  walking (p := p) [] colour → (∀ t, t ∈ ts → is_Some (declared p !! ta_Name t)) →
  ∃ errs, walk_each p ts colour = Some errs ∧
    (errs = [] → blacks_safe (p := p) colour → ∀ t, t ∈ ts → ta_Name t ≠ "" → safe p (ta_Name t)) ∧
    (errs ≠ [] → ∃ x, tc (upstream p) x x).
Proof.
  revert colour. induction ts as [|t ts IH]; intros colour Hw Hts; cbn [walk_each].
  { exists []. split_and!; [done| |done]. by intros _ _ t []%elem_of_nil. }
  pose proof (λ u Hu, Hts u (list_elem_of_further _ _ _ Hu)) as Hts'.
  destruct (String.eqb_spec (ta_Name t) "") as [E|E].
  { destruct (IH colour Hw Hts') as (errs & -> & H1 & H2). exists errs. split_and!; [done| |done].
    intros He Hb u [->|Hu]%elem_of_cons Hne; [done|by apply H1]. }
  destruct (colouring_walked (p := p) (S (size (declared p))) (ta_Name t) [] colour) as (errs & c2 & -> & Hbl & Hblack & Hbs & Hcy);
    [done|apply Hts; left|by intros y []%elem_of_nil|lia|].
  destruct (IH c2) as (rest & Hrest & H1 & H2).
  { split.
    - intros x k Hx. destruct (Hbl x) as [Ex|(_ & _ & Hd)]; [|done]. rewrite Ex in Hx. by eapply (wk_declared _ _ Hw).
    - intros x. rewrite <-(wk_grey _ _ Hw). destruct (Hbl x) as [->|(-> & -> & _)]; done. }
  { done. }
  exists (errs ++ rest). cbn [mbind option_bind]. rewrite Hrest. cbn [mbind option_bind]. split; [done|]. split.
  - intros [-> ->]%app_nil Hb u [->|Hu]%elem_of_cons Hne; [by apply Hbs, Hblack|]. by apply H1; [|apply Hbs|..].
  - intros Hne. destruct errs as [|e errs]; [by apply H2|by apply Hcy].
Qed.
End declared.

(** The colouring of the targets answers for every document, and refuses
    exactly those in which a target waits for itself. *)
Theorem exactly_the_cycles_are_refused p :
  ∃ errs, validateMirrorChain p = Some errs ∧ (errs = [] ↔ ∀ x, ¬ tc (upstream p) x x).
Proof.
  destruct (walk_each_spec (p := p) (po_Targets p) ∅) as (errs & He & H1 & H2).
  { split; [intros x k; by rewrite lookup_empty|]. intros x. by rewrite lookup_empty, elem_of_nil. }
  { apply declared_is_Some. }
  exists errs. split; [done|]. split.
  - intros E x Hx.
    assert (blacks_safe (p := p) ∅) as Hb by (intros y; by rewrite lookup_empty).
    assert (∃ t, declared p !! x = Some t) as [t Ht].
    { inversion Hx as [? ? (t & Ht & _)|? ? ? (t & Ht & _)]; by exists t. }
    assert (x ≠ "") as Hne.
    { clear -Hx. induction Hx as [? y Hy|]; [by eapply upstream_nonempty|done]. }
    apply declared_lookup in Ht as [Hin <-]. exact (H1 E Hb t Hin Hne _ (rtc_refl _ _) Hx).
  - intros Hall. destruct errs as [|e errs]; [done|]. destruct (H2 ltac:(done)) as [x Hx]. by destruct (Hall x).
Qed.

Lemma concat_imap_nil {A B} (f : nat → A → list B) l :
  concat (imap f l) = [] → ∀ i x, l !! i = Some x → f i x = [].
Proof.
  revert f. induction l as [|y l IH]; intros f Hc i x; [done|]. cbn [imap concat] in Hc.
  apply app_nil in Hc as [H1 H2]. destruct i as [|i]; simpl; [by intros [= <-]|]. apply (IH (f ∘ S) H2).
Qed.

Lemma concat_fmap_nil {A B} (f : A → list B) l : concat (f <$> l) = [] → ∀ x, x ∈ l → f x = [].
Proof.
  induction l as [|y l IH]; [by intros _ x []%elem_of_nil|]. rewrite fmap_cons. simpl.
  intros [H1 H2]%app_nil x [-> |Hx]%elem_of_cons; [done|by apply IH].
Qed.

(** What validation of the targets and their mirrors leaves. *)
Record validated (p : Product) : Prop := {
  va_unique : NoDup (ta_Name <$> po_Targets p);
  va_named : "" ∉ ta_Name <$> po_Targets p;
  va_acyclic : validateMirrorChain p = Some [];
  va_upstreams : validateUpstreams p = [] }.

(** A target a download may write to. *)
Definition receives (p : Product) (x : string) : Prop :=
  ∃ t, Product_Target p x = Some t ∧ Target_IsEnabled t = true ∧ ta_PromotionOnly t = false.

Section validated.
Context {p : Product} (Hv : validated p).

Lemma validated_declared a b : upstream p a b → is_Some (declared p !! b).
Proof using Hv.
  intros (t & Ht & Hb). apply declared_lookup in Ht as [[i Hi]%list_elem_of_lookup_1 _].
  pose proof (concat_imap_nil _ _ (va_upstreams _ Hv) i t Hi) as Hu. unfold upstream_problems, mirror_from in *.
  destruct (MirrorSettings t) as [m|]; simpl in *; [|done].
  destruct (String.eqb_spec (mi_From m) ""); [done|]. injection Hb as <-. simpl in Hu.
  destruct (String.eqb (mi_ExternalReference m) ""); [|done]. simpl in Hu. unfold validateMirrorFrom in Hu.
  destruct (String.eqb (mi_From m) (ta_Name t)); [done|]. by destruct (declared p !! mi_From m).
Qed.

Lemma target_problems_nil tpath name : target_problems p tpath name = [] →
  ∀ x, rtc (upstream p) name x → is_Some (declared p !! x) ∧ receives p x.
Proof using Hv.
  unfold target_problems, receives. destruct (declared p !! name) as [t|] eqn:Ht; [|done].
  destruct (ta_PromotionOnly t) eqn:Hp; [done|]. destruct (Target_IsEnabled t) eqn:He; [|done]. simpl.
  intros Hh x Hx. rewrite (Product_Target_declared x (va_unique _ Hv)).
  destruct (decide (x = name)) as [->|Hne]; [split; [by exists t|by exists t]|].
  assert (is_Some (declared p !! x)) as [u Hu].
  { apply rtc_inv_r in Hx as [->|(y & _ & Hy)]; [done|]. by eapply validated_declared. }
  split; [by exists u|]. exists u. split; [done|].
  assert (hop_problems p tpath name x = []) as Hhop.
  { apply (concat_fmap_nil _ _ Hh), list_elem_of_filter. split; [done|].
    apply chainOf_complete; [|done]. intros ->. apply (va_named _ Hv).
    apply declared_lookup in Ht as [Hin <-]. by apply list_elem_of_fmap_2. }
  unfold hop_problems in Hhop. rewrite Hu in Hhop. destruct (Target_IsEnabled u); [|done].
  by destruct (ta_PromotionOnly u).
Qed.

Lemma validated_download path d : do_Targets d ≠ [] → validateDownloadTargets p path d = [] →
  ∃ c, Derive p (do_Targets d) = Done c ∧ chain_of p (do_Targets d) c ∧ ∀ x, x ∈ Targets c → receives p x.
Proof using Hv.
  intros Hne Hd.
  assert (∀ x, reached p (do_Targets d) x → is_Some (declared p !! x) ∧ receives p x) as Hr.
  { intros x (n & [i Hi]%list_elem_of_lookup_1 & _ & Hn). unfold validateDownloadTargets in Hd.
    destruct (do_Targets d) as [|y l]; [done|].
    exact (target_problems_nil _ n (concat_imap_nil _ _ Hd i n Hi) x Hn). }
  assert (named_or_default p (do_Targets d) = Done (do_Targets d)) as Hnd by by destruct (do_Targets d).
  pose proof (Derive_cases p (do_Targets d)) as Hc.
  destruct (Derive p (do_Targets d)) as [c|e|]; [|exfalso|done].
  - destruct Hc as (names & Hn & Hc). rewrite Hnd in Hn. injection Hn as <-. exists c. split; [done|].
    split; [done|]. intros x Hx. apply Hr. by apply (ch_reached _ _ _ Hc).
  - destruct e as [n|x n|x]; [by destruct Hc as (_ & ? & _)|..]; destruct Hc as (names & Hn & Hc);
      rewrite Hnd in Hn; injection Hn as <-; destruct Hc as [(y & [=] & H1 & H2)|(y & [=] & H1 & H2)]; subst.
    + destruct (Hr _ H1) as [[t Ht] _]. congruence.
    + destruct (exactly_the_cycles_are_refused p) as (errs & He & Ha). rewrite (va_acyclic _ Hv) in He.
      injection He as <-. by apply (proj1 Ha eq_refl y).
Qed.
End validated.

(** The rule of a tag. *)
Definition fires (Compile : string → option (string → bool)) (tag : string) (r : Rule) : Prop :=
  Rule_IsEnabled r = true ∧ ∃ re, Compile (ru_TagPattern r) = Some re ∧ re tag = true.

Lemma compile_each_inr Compile rules set : compile_each Compile rules = inr set →
  set.*1 = rules ∧ ∀ r re, (r, re) ∈ set → Compile (ru_TagPattern r) = Some re.
Proof.
  revert set. induction rules as [|r rules IH]; intros set; simpl.
  { intros [= <-]. split; [done|]. by intros r re []%elem_of_nil. }
  destruct (Compile (ru_TagPattern r)) as [re|] eqn:Hr; [|done].
  destruct (compile_each Compile rules) as [bad|l]; [done|]. intros [= <-].
  destruct (IH l eq_refl) as [<- Hl]. split; [done|]. intros r' re' [[= -> ->]|Hin]%elem_of_cons; [done|by apply Hl].
Qed.

Lemma match_rules_first rules tag :
  match match_rules rules tag with
  | Some r => ∃ pre post re, rules = pre ++ (r, re) :: post ∧ re tag = true ∧ Rule_IsEnabled r = true ∧
      Forall (λ c : Rule * (string → bool), (c.2 tag && Rule_IsEnabled c.1) = false) pre
  | None => Forall (λ c : Rule * (string → bool), (c.2 tag && Rule_IsEnabled c.1) = false) rules
  end.
Proof.
  induction rules as [|[r re] rules IH]; simpl; [constructor|].
  assert ((re tag && Rule_IsEnabled r) = false →
    match match_rules rules tag with
    | Some r' => ∃ pre post re', (r, re) :: rules = pre ++ (r', re') :: post ∧ re' tag = true ∧
        Rule_IsEnabled r' = true ∧ Forall (λ c : Rule * (string → bool), (c.2 tag && Rule_IsEnabled c.1) = false) pre
    | None => Forall (λ c : Rule * (string → bool), (c.2 tag && Rule_IsEnabled c.1) = false) ((r, re) :: rules)
    end) as Hskip.
  { intros E. destruct (match_rules rules tag) as [r'|]; [|by constructor].
    destruct IH as (pre & post & re' & -> & H1 & H2 & H3). exists ((r, re) :: pre), post, re'.
    split_and!; [done..|]. by constructor. }
  destruct (re tag) eqn:Et; simpl; [|by apply Hskip]. destruct (Rule_IsEnabled r) eqn:Ee; simpl; [|by apply Hskip].
  by exists [], rules, re.
Qed.

(** The rule a tag fires is the first, in the order of the document, that
    is enabled and whose pattern matches; a disabled one lets a later one see the
    tag; and nothing fires when automatic downloads are off. *)
Theorem a_tag_fires_the_first_rule_it_matches Compile p s tag :
  compileRules Compile p = inr s →
  match match_tag s tag with
  | Some r => po_AutoEnabled p = true ∧ ∃ pre post, po_Rules p = pre ++ r :: post ∧ fires Compile tag r ∧
      Forall (λ r', ¬ fires Compile tag r') pre
  | None => po_AutoEnabled p = false ∨ Forall (λ r', ¬ fires Compile tag r') (po_Rules p)
  end.
Proof.
  unfold compileRules. destruct (compile_each Compile (po_Rules p)) as [bad|set] eqn:Hs; [done|]. intros [= <-].
  apply compile_each_inr in Hs as [<- Hc]. unfold match_tag. simpl. destruct (po_AutoEnabled p); simpl; [|by left].
  assert (∀ l, (∀ x, x ∈ l → x ∈ set) → Forall (λ c : Rule * (string → bool), (c.2 tag && Rule_IsEnabled c.1) = false) l →
    Forall (λ r', ¬ fires Compile tag r') l.*1) as Hnone.
  { intros l Hl Hf. apply Forall_fmap, Forall_forall. intros [r re] Hin (He & re' & Hr & Ht).
    rewrite Forall_forall in Hf. specialize (Hf _ Hin). simpl in *. rewrite (Hc r re (Hl _ Hin)) in Hr.
    injection Hr as <-. by rewrite Ht, He in Hf. }
  pose proof (match_rules_first set tag) as Hm. destruct (match_rules set tag) as [r|].
  - destruct Hm as (pre & post & re & -> & Ht & He & Hf). split; [done|]. exists pre.*1, post.*1.
    split; [by rewrite fmap_app|]. split; [|apply Hnone; [|done]].
    + split; [done|]. exists re. split; [|done]. apply Hc. apply elem_of_app. right. left.
    + intros x Hx. apply elem_of_app. by left.
  - right. by apply Hnone.
Qed.

(* -------------------------------------------------------------------- *)
(** ** A product with a hub

    quay mirrors the hub, ocp mirrors quay; prod is written to by promotion. *)

Definition copied (name : string) (is_default promoted : bool) : Target := mkTarget name None is_default promoted None.

Definition mirrors (name from : string) (is_default : bool) : Target :=
  mkTarget name None is_default false (Some (mkReplication "mirror" (Some (mkMirrorConfig from "" None)))).

Definition delivering : Product :=
  mkProduct "cfx" [mirrors "ocp" "quay" false; mirrors "quay" "hub" false; copied "hub" true false; copied "prod" false true]
    [mkDownload "" ["ocp"] None None false] true
    [mkRule "early" (Some false) "rc" ["beta"] "" [] None None; mkRule "ga" None "2" ["stable"] "" [] None None].

(** A pattern here is a prefix of the tags it matches. *)
Definition prefixes (pattern : string) : option (string → bool) := Some (String.prefix pattern).

Example the_chain_is_shown : Describe <$> (match Derive delivering ["ocp"; "hub"] with Done c => Some c | _ => None end)
  = Some "hub → quay → ocp".
Proof. vm_compute. reflexivity. Qed.

(** [chain_step] and [resolve] have a case for an upstream outside the chain,
    said to be a hop another rule fills; a target that is not declared refuses
    the chain before either is reached. *)
Example an_upstream_outside_the_document_is_refused :
  Derive (mkProduct "cfx" [mirrors "ocp" "elsewhere" true] [] false []) ["ocp"] = Refused (NotDeclared "elsewhere" "cfx").
Proof. vm_compute. reflexivity. Qed.

(** A download that names no target is validated without walking the chain of
    the default one, which is walked when it runs. *)
Definition shadowed : Product :=
  mkProduct "cfx" [mirrors "edge" "prod" true; copied "prod" false true] [mkDownload "" [] None None false] false [].

Example an_unnamed_download_is_not_validated :
  validateDownloads shadowed = [] ∧ validateMirrorChain shadowed = Some [] ∧ validateUpstreams shadowed = [] ∧
  Targets <$> (match Derive shadowed [] with Done c => Some c | _ => None end) = Some ["prod"; "edge"] ∧
  ta_PromotionOnly <$> Product_Target shadowed "prod" = Some true.
Proof. vm_compute. split_and!; reflexivity. Qed.

(** The sources a rule names are checked and shown, and never asked: what a tag
    fires depends on the tag alone. *)
Theorem the_sources_of_a_rule_are_not_read Compile p sources s s' tag :
  compileRules Compile p = inr s →
  compileRules Compile (mkProduct (po_Name p) (po_Targets p) (po_Download p) (po_AutoEnabled p)
    ((λ r, mkRule (ru_Name r) (ru_Enabled r) (ru_TagPattern r) (sources r) (ru_Download r) (ru_Targets r)
            (ru_Priority r) (ru_VerifyBeforeTransfer r)) <$> po_Rules p)) = inr s' →
  ru_Name <$> match_tag s' tag = ru_Name <$> match_tag s tag.
Proof.
  unfold compileRules. simpl.
  set (blind := λ r, mkRule (ru_Name r) (ru_Enabled r) (ru_TagPattern r) (sources r) (ru_Download r) (ru_Targets r)
            (ru_Priority r) (ru_VerifyBeforeTransfer r)).
  assert (∀ l set set', compile_each Compile l = inr set → compile_each Compile (blind <$> l) = inr set' →
    ru_Name <$> match_rules set' tag = ru_Name <$> match_rules set tag) as Hgen.
  { induction l as [|r l IH]; intros set set'; simpl; [by intros [= <-] [= <-]|].
    destruct (Compile (ru_TagPattern r)) as [re|]; [|done].
    destruct (compile_each Compile l) as [bad|x]; [done|]. intros [= <-].
    change (list_fmap Rule Rule blind l) with (blind <$> l).
    destruct (compile_each Compile (blind <$> l)) as [bad|y]; [done|]. intros [= <-]. simpl.
    unfold Rule_IsEnabled, blind. simpl. destruct (re tag); simpl; [|by apply IH].
    by destruct (unless_off (ru_Enabled r)); [|apply IH]. }
  destruct (compile_each Compile (po_Rules p)) as [bad|l] eqn:H1; [done|]. intros [= <-].
  destruct (compile_each Compile (blind <$> po_Rules p)) as [bad|l'] eqn:H2; [done|]. intros [= <-].
  unfold match_tag. simpl. destruct (po_AutoEnabled p); simpl; [|done]. by eapply Hgen.
Qed.

Lemma a_chain_is_closed_and_ordered_witness :
  ∃ c, Derive delivering ["ocp"] = Done c ∧ NoDup (Targets c) ∧ reached delivering ["ocp"] "hub".
Proof.
  destruct (Derive delivering ["ocp"]) as [c|e|] eqn:E; [|vm_compute in E; discriminate E..].
  destruct (a_chain_is_closed_and_ordered delivering ["ocp"] c E) as (names & Hn & Hnd & Hr & _).
  assert (names = ["ocp"]) as -> by (injection Hn as <-; reflexivity).
  exists c. split; [reflexivity|]. split; [exact Hnd|]. apply Hr.
  assert (Derive delivering ["ocp"] = Done c) as E2 by exact E. vm_compute in E2. injection E2 as <-.
  unfold Targets. simpl. left.
Defined.

Lemma naming_the_end_names_the_chain_witness :
  ∃ c', Derive delivering ["quay"; "ocp"] = Done c' ∧ length c' = 3%nat.
Proof.
  destruct (Derive delivering ["ocp"]) as [c|e|] eqn:E; [|vm_compute in E; discriminate E..].
  destruct (naming_the_end_names_the_chain delivering ["ocp"] ["quay"; "ocp"] c) as (c' & E' & Hu);
    [discriminate|discriminate| |exact E|].
  - assert (upstream delivering "ocp" "quay") as Hq by (exists (mirrors "ocp" "quay" false); split; vm_compute; reflexivity).
    intros x. split.
    + intros (n & Hn & Hne & Hr). exists n. split; [|split; assumption]. apply list_elem_of_singleton in Hn as ->. right; left.
    + intros (n & Hn & Hne & Hr). exists "ocp". split; [left|]. split; [discriminate|].
      apply elem_of_cons in Hn as [->|Hn]; [by eapply rtc_l|]. apply list_elem_of_singleton in Hn as ->. exact Hr.
  - exists c'. split; [exact E'|]. apply (f_equal length) in Hu. rewrite !length_fmap in Hu. rewrite Hu.
    assert (Derive delivering ["ocp"] = Done c) as E2 by exact E. vm_compute in E2. injection E2 as <-. reflexivity.
Defined.

Lemma a_tag_fires_the_first_rule_it_matches_witness :
  ∃ s r, compileRules prefixes delivering = inr s ∧ match_tag s "23.8" = Some r ∧ fires prefixes "23.8" r.
Proof.
  destruct (compileRules prefixes delivering) as [bad|s] eqn:E; [discriminate E|].
  pose proof (a_tag_fires_the_first_rule_it_matches prefixes delivering s "23.8" E) as H.
  destruct (match_tag s "23.8") as [r|] eqn:Em.
  - exists s, r. split; [reflexivity|]. split; [exact Em|]. destruct H as (_ & pre & post & _ & Hf & _). exact Hf.
  - injection E as <-. discriminate Em.
Defined.
