(* ===== verification/Runs.v ===== *)
(** * Download runs

    internal/download/run.go and service.go, and the part of
    internal/discovery/scanner.go that fires a rule: a download resolved to
    catalog rows, opened as one request with a transfer for each step, and the
    keys that tell one run from another.  The digest, new UUIDs, the loaded
    document and the package a reference names are arguments; the audit row of a
    run is not modelled. *)

From S2P Require Import Prelude GoStrings StateMachine Backoff Schema Dependencies Leasing Completion Layout Planning Requests Downloads.
Open Scope Z_scope.

(* -------------------------------------------------------------------- *)
(** ** Resolving *)

Definition downloadLabel (d : Download) : string :=
  if negb (String.eqb (do_Name d) "") then do_Name d else "the default download".

Record ResolvedStep := mkResolvedStep {
  sp_Name : string;
  sp_RepoID : Z;
  sp_Index : Z;
  sp_DependsOn : string }.

Inductive RunError :=
  | NoChain (download : string) (cause : DeriveError)
  | UnknownTarget (download target : string)
  | ReachesPromotionOnly (download target : string)
  | NotReconciled (target : string)
  | NameAPackage
  | NoDefaultDownload (product : string)
  | NoDownload (product name : string)
  | PackageUnknown (reference : string)
  | NoRule (product name : string)
  | NotAPattern (rule pattern : string)
  | RunNotStored (cause : Error).

#[export] Instance run_ret : MRet (sum RunError) := λ A, inr.
#[export] Instance run_bind : MBind (sum RunError) := λ A B k r,
  match r with inl e => inl e | inr a => k a end.

Lemma run_bind_inr {A B} (k : A → RunError + B) r b : r ≫= k = inr b ↔ ∃ a, r = inr a ∧ k a = inr b.
Proof. destruct r; simpl; naive_solver. Qed.

Fixpoint resolve_steps (p : Downloads.Product) (label : string) (repoIDs : gmap string Z) (steps : list Step)
    : RunError + list ResolvedStep :=
  match steps with
  | [] => inr []
  | step :: steps =>
      match Product_Target p (st_Target step) with
      | None => inl (UnknownTarget label (st_Target step))
      | Some t =>
          if ta_PromotionOnly t then inl (ReachesPromotionOnly label (st_Target step))
          else match repoIDs !! st_Target step with
          | None => inl (NotReconciled (st_Target step))
          | Some id =>
              rest ← resolve_steps p label repoIDs steps;
              inr (mkResolvedStep (st_Target step) id (st_Index step) (st_From step) :: rest)
          end
      end
  end.

(** The turns of [Derive] never run out. *)
Definition derived (p : Downloads.Product) (named : list string) : DeriveError + list Step :=
  match Derive p named with
  | Done c => inr c
  | Refused e => inl e
  | OutOfFuel => inl (NoDefaultTarget (po_Name p))
  end.

Definition Resolve (p : Downloads.Product) (d : Download) (repoIDs : gmap string Z) : RunError + list ResolvedStep :=
  match derived p (do_Targets d) with
  | inl cause => inl (NoChain (downloadLabel d) cause)
  | inr chain => resolve_steps p (downloadLabel d) repoIDs chain
  end.

Definition Names (steps : list ResolvedStep) : list string := sp_Name <$> steps.

Definition RepoIDs (steps : list ResolvedStep) : list Z := sp_RepoID <$> steps.

(* -------------------------------------------------------------------- *)
(** ** Opening *)

Definition TriggerDiscovery : string := "discovery".
Definition TriggerManual : string := "manual".
Definition TriggerSchedule : string := "schedule".

Definition actorKindOf (t : string) : string := if String.eqb t TriggerManual then "user" else "auto_rule".

(** What Open stores; the rest of its argument is for the audit. *)
Record Request := mkRequest {
  rq_ProductID : Z;
  rq_PackageID : Z;
  rq_SourceRepoID : Z;
  rq_RuleName : string;
  rq_Origin : string;
  rq_RequestedBy : string;
  rq_Priority : Z;
  rq_IdempotencyKey : string;
  rq_Steps : list ResolvedStep }.

Definition requestIDFrom (key : string) : string :=
  if (String.length key <? 32)%nat then key else String.append "req_" (String.substring 0 32 key).

Definition run_row (req : Request) : TransferRequestRow :=
  mkTransferRequestRow (requestIDFrom (rq_IdempotencyKey req)) (rq_ProductID req) (rq_PackageID req) "replicate"
    (rq_SourceRepoID req) (rq_Priority req) (rq_IdempotencyKey req) (rq_RequestedBy req) (rq_Origin req) (rq_RuleName req).

(** The ids, assigned before any insert; of two steps with one name the last. *)
Fixpoint assign_ids (newID : nat → string) (i : nat) (steps : list ResolvedStep) (ids : gmap string string)
    : gmap string string :=
  match steps with
  | [] => ids
  | s :: steps => assign_ids newID (S i) steps (<[sp_Name s := newID i]> ids)
  end.

Definition id_of (ids : gmap string string) (name : string) : string := default "" (ids !! name).

Definition step_row (req : Request) (requestID : string) (ids : gmap string string) (s : ResolvedStep) : TransferRow :=
  mkTransferRow (id_of ids (sp_Name s)) requestID (rq_PackageID req) (rq_SourceRepoID req) (sp_RepoID s)
    (rq_Priority req) (sp_Index s) (id_of ids (sp_DependsOn s)).

Fixpoint open_steps (now : Z) (req : Request) (requestID : string) (ids : gmap string string)
    (steps : list ResolvedStep) (db : DB) : result DB :=
  match steps with
  | [] => Ok db
  | s :: steps =>
      '(db, _) ← CreateTransfer now (step_row req requestID ids s) db;
      open_steps now req requestID ids steps db
  end.

(** One transaction: a request that exists already opens nothing. *)
Definition Open (now : Z) (newID : nat → string) (req : Request) (db : DB) : result (DB * (string * bool)) :=
  '(db, requestID, created) ← CreateTransferRequest now (run_row req) db;
  if negb created then Ok (db, (requestID, false))
  else
    db ← open_steps now req requestID (assign_ids newID 0 (rq_Steps req) ∅) (rq_Steps req) db;
    Ok (db, (requestID, true)).

(* -------------------------------------------------------------------- *)
(** ** What a run is keyed on *)

Definition nul : Ascii.ascii := Eval cbv in Ascii.ascii_of_nat 0.

Definition boolPtr (b : option bool) : string :=
  match b with
  | None => "inherit"
  | Some true => "true"
  | Some false => "false"
  end.

(** fmt.Sprint of a slice of numbers *)
Definition Sprint (l : list Z) : string := words ["["; String.concat " " (FormatInt <$> l); "]"].

Section keys.
Context (sha256_hex : string → string).

Definition revision_material (d : Download) : string :=
  String.concat (String nul "")
    [String.append "targets=" (String.concat "," (sort_strings (do_Targets d)));
     String.append "priority=" (FormatInt (EffectivePriority d));
     String.append "before=" (boolPtr (VerifiesBefore d));
     String.append "after=" (boolPtr (VerifiesAfter d));
     String.append "policy=" (VerificationPolicy d)].

Definition Revision (d : Download) : string := String.substring 0 16 (sha256_hex (revision_material d)).

Definition run_material (packageID sourceRepoID : Z) (d : Download) (steps : list ResolvedStep) : string :=
  String.concat (String nul "")
    ["replicate"; FormatInt packageID; FormatInt sourceRepoID; Sprint (RepoIDs steps); Revision d;
     FormatInt (EffectivePriority d)].

Definition KeyFor (packageID sourceRepoID : Z) (d : Download) (steps : list ResolvedStep) : string :=
  sha256_hex (run_material packageID sourceRepoID d steps).

(* -------------------------------------------------------------------- *)
(** ** A rule fires *)

(** openRun: 1 when work was opened. *)
Definition openRun (now : Z) (newID : nat → string) (productID packageID sourceRepoID : Z) (rule : Rule) (dl : Download)
    (steps : list ResolvedStep) (db : DB) : result (DB * Z) :=
  let priority := EffectivePriority dl in
  let key := IdempotencyKey sha256_hex "replicate" packageID sourceRepoID (RepoIDs steps) (Revision dl) priority in
  '(db, (_, created)) ← Open now newID
    (mkRequest productID packageID sourceRepoID (ru_Name rule) "auto_download"
       (String.append "auto_download:" (ru_Name rule)) priority key steps) db;
  Ok (db, if created : bool then 1 else 0).

(** A rule that cannot be applied does not fail the discovery. *)
Definition applyRules (p : Downloads.Product) (rules : ruleSet) (targetIDs : gmap string Z) (now : Z) (newID : nat → string)
    (productID packageID sourceRepoID : Z) (tag : string) (db : DB) : result (DB * Z) :=
  match match_tag rules tag with
  | None => Ok (db, 0)
  | Some rule =>
      match DownloadFor p rule with
      | inl _ => Ok (db, 0)
      | inr dl =>
          match Resolve p dl targetIDs with
          | inl _ => Ok (db, 0)
          | inr steps => openRun now newID productID packageID sourceRepoID rule dl steps db
          end
      end
  end.

(* -------------------------------------------------------------------- *)
(** ** A person asks *)

Record DownloadStatus := mkDownloadStatus {
  ds_Download : Download;
  ds_Chain : DeriveError + list Step;
  ds_Default : bool;
  ds_Revision : string }.

Definition status_of (p : Downloads.Product) (alone : bool) (d : Download) : DownloadStatus :=
  mkDownloadStatus d (derived p (do_Targets d)) (do_Default d || alone) (Revision d).

(** The declared downloads, or the one to the default target. *)
Definition shown_downloads (p : Downloads.Product) : list Download :=
  match po_Download p with
  | [] => match DefaultTarget p with Some t => [to_targets [ta_Name t] None None] | None => [] end
  | ds => ds
  end.

Definition Service_Downloads (p : Downloads.Product) : list DownloadStatus :=
  status_of p (length (shown_downloads p) =? 1)%nat <$> shown_downloads p.

Definition asked_for (name : string) (s : DownloadStatus) : bool :=
  if negb (String.eqb name "") && String.eqb (do_Name (ds_Download s)) name then true
  else String.eqb name "" && ds_Default s.

Definition Service_DownloadNamed (p : Downloads.Product) (name : string) : RunError + DownloadStatus :=
  match head (filter (λ s, asked_for name s = true) (Service_Downloads p)) with
  | Some s => inr s
  | None => inl (if String.eqb name "" then NoDefaultDownload (po_Name p) else NoDownload (po_Name p) name)
  end.

Record RuleStatus := mkRuleStatus {
  rl_Rule : Rule;
  rl_Download : option Download;
  rl_DownloadName : string;
  rl_Chain : (DownloadError + DeriveError) + list Step }.

Definition rule_status (p : Downloads.Product) (r : Rule) : RuleStatus :=
  match DownloadFor p r with
  | inl err => mkRuleStatus r None (ru_Download r) (inl (inl err))
  | inr d =>
      mkRuleStatus r (Some d) (if negb (String.eqb (do_Name d) "") then do_Name d else ru_Download r)
        (match derived p (do_Targets d) with inl err => inl (inr err) | inr c => inr c end)
  end.

Definition Service_Rules (p : Downloads.Product) : list RuleStatus := rule_status p <$> po_Rules p.

Record RunResult := mkRunResult {
  rr_Download : string;
  rr_Chain : list Step;
  rr_Requested : list string;
  rr_Created : list string;
  rr_AlreadyRequested : list string }.

Fixpoint find (GetPackage : string → result (option PackageRow)) (refs : list string) : RunError + list PackageRow :=
  match refs with
  | [] => inr []
  | ref :: refs =>
      match GetPackage ref with
      | Ok None => inl (PackageUnknown ref)
      | Err e => inl (RunNotStored e)
      | Ok (Some row) => rest ← find GetPackage refs; inr (row :: rest)
      end
  end.

(** The packages of the product, listed, whose tag a rule's pattern matches. *)
Definition Matches (Compile : string → option (string → bool)) (p : Downloads.Product) (listed : list PackageRow)
    (ruleName : string) : RunError + list string :=
  match Product_Rule p ruleName with
  | None => inl (NoRule (po_Name p) ruleName)
  | Some rule =>
      match Compile (ru_TagPattern rule) with
      | None => inl (NotAPattern ruleName (ru_TagPattern rule))
      | Some pattern => inr (pk_Tag <$> filter (λ row, pattern (pk_Tag row) = true) listed)
      end
  end.

(** [open]: a transaction for each package; a failure keeps what was opened. *)
Definition open_one (now : Z) (newID : nat → string) (productID : Z) (d : Download) (steps : list ResolvedStep)
    (pkg : PackageRow) (actor : string) (db : DB) : result (DB * (string * bool)) :=
  Open now newID
    (mkRequest productID (pk_ID pkg) (pk_SourceRepoID pkg) "" "api" actor (EffectivePriority d)
       (KeyFor (pk_ID pkg) (pk_SourceRepoID pkg) d steps) steps) db.

Fixpoint open_each (now : Z) (newID : nat → nat → string) (productID : Z) (d : Download) (steps : list ResolvedStep)
    (actor : string) (i : nat) (pkgs : list PackageRow) (res : RunResult) (db : DB) : DB * (RunError + RunResult) :=
  match pkgs with
  | [] => (db, inr res)
  | pkg :: pkgs =>
      match open_one now (newID i) productID d steps pkg actor db with
      | Err e => (db, inl (RunNotStored e))
      | Ok (db, (id, created)) =>
          open_each now newID productID d steps actor (S i) pkgs
            (if created
             then mkRunResult (rr_Download res) (rr_Chain res) (rr_Requested res) (rr_Created res ++ [id]) (rr_AlreadyRequested res)
             else mkRunResult (rr_Download res) (rr_Chain res) (rr_Requested res) (rr_Created res)
                    (rr_AlreadyRequested res ++ [pk_Tag pkg])) db
      end
  end.

(** What is decided before anything is written. *)
Definition prepare (GetPackage : string → result (option PackageRow)) (p : Downloads.Product) (tags : list string)
    (repoIDs : gmap string Z) (name : string)
    : RunError + (Download * list Step * list ResolvedStep * list PackageRow) :=
  match tags with
  | [] => inl NameAPackage
  | _ =>
      status ← Service_DownloadNamed p name;
      chain ← (match ds_Chain status with
               | inl cause => inl (NoChain (downloadLabel (ds_Download status)) cause)
               | inr c => inr c
               end);
      steps ← Resolve p (ds_Download status) repoIDs;
      pkgs ← find GetPackage tags;
      inr (ds_Download status, chain, steps, pkgs)
  end.

Definition Run (GetPackage : string → result (option PackageRow)) (ProductID : string → option Z) (now : Z)
    (newID : nat → nat → string) (p : Downloads.Product) (tags : list string) (repoIDs : gmap string Z)
    (name : string) (validateOnly : bool) (actor : string) (db : DB) : DB * (RunError + RunResult) :=
  match prepare GetPackage p tags repoIDs name with
  | inl err => (db, inl err)
  | inr (d, chain, steps, pkgs) =>
      let res := mkRunResult (downloadLabel d) chain (pk_Tag <$> pkgs) [] [] in
      if validateOnly then (db, inr res)
      else match ProductID (po_Name p) with
      | None => (db, inl (RunNotStored (EMissingRow "products" (po_Name p))))
      | Some productID => open_each now newID productID d steps actor 0 pkgs res db
      end
  end.
End keys.

(* -------------------------------------------------------------------- *)
(** ** Lemmas: resolved steps *)

Lemma derived_inr p named c : derived p named = inr c ↔ Derive p named = Done c.
Proof. unfold derived. destruct (Derive p named); naive_solver. Qed.

(** The step of a chain, with its row. *)
Definition resolved_as (p : Downloads.Product) (repoIDs : gmap string Z) (st : Step) (s : ResolvedStep) : Prop :=
  sp_Name s = st_Target st ∧ sp_Index s = st_Index st ∧ sp_DependsOn s = st_From st ∧
  repoIDs !! st_Target st = Some (sp_RepoID s) ∧
  ∃ t, Product_Target p (st_Target st) = Some t ∧ ta_PromotionOnly t = false.

Lemma resolve_steps_inr p label repoIDs chain steps :
  resolve_steps p label repoIDs chain = inr steps ↔ Forall2 (resolved_as p repoIDs) chain steps.
Proof.
  revert steps. induction chain as [|st chain IH]; intros steps; cbn [resolve_steps].
  { split; [by intros [= <-]|]. intros H. by inversion H. }
  split.
  - destruct (Product_Target p (st_Target st)) as [t|] eqn:Ht; [|done].
    destruct (ta_PromotionOnly t) eqn:Hp; [done|]. destruct (repoIDs !! st_Target st) as [id|] eqn:Hid; [|done].
    intros (rest & Hrest & [= <-])%run_bind_inr. constructor; [|by apply IH].
    split_and!; try done. by exists t.
  - intros H. inversion H as [|? s ? l (H1 & H2 & H3 & H4 & t & Ht & Hp) Hl]; subst.
    rewrite Ht, Hp, H4. apply IH in Hl as ->. simpl. rewrite <-H1, <-H2, <-H3. by destruct s.
Qed.

(** What makes the steps of a run openable one after another. *)
Record ordered (steps : list ResolvedStep) : Prop := {
  or_nodup : NoDup (Names steps);
  or_named : "" ∉ Names steps;
  or_first i s : steps !! i = Some s → sp_DependsOn s = "" → sp_Index s = 0;
  or_waits i s : steps !! i = Some s → sp_DependsOn s ≠ "" →
    ∃ j q, (j < i)%nat ∧ steps !! j = Some q ∧ sp_Name q = sp_DependsOn s ∧ sp_Index s = sp_Index q + 1 }.

Lemma reached_nonempty p names x : reached p names x → x ≠ "".
Proof.
  intros (n & _ & Hne & Hr). apply rtc_inv_r in Hr as [->|(y & _ & Hy)]; [done|]. by eapply upstream_nonempty.
Qed.

Lemma chain_ordered p repoIDs names c steps :
  chain_of p names c → Forall2 (resolved_as p repoIDs) c steps → ordered steps.
Proof.
  intros Hc Hf.
  assert (Names steps = Targets c) as Hn.
  { unfold Names, Targets. clear Hc. induction Hf as [|st s c steps (E & _) _ IH]; [done|]. by rewrite !fmap_cons, E, IH. }
  split.
  - rewrite Hn. apply (ch_nodup _ _ _ Hc).
  - rewrite Hn. intros Hin. apply (ch_reached _ _ _ Hc) in Hin. by apply reached_nonempty in Hin.
  - intros i s Hi E. destruct (Forall2_lookup_r _ _ _ _ _ Hf Hi) as (st & Hst & _ & -> & E2 & _).
    apply (chain_root Hc); [by eapply list_elem_of_lookup_2|congruence].
  - intros i s Hi Hne. destruct (Forall2_lookup_r _ _ _ _ _ Hf Hi) as (st & Hst & _ & E1 & E2 & _).
    destruct (chain_waits Hc st) as (q & Hq & Et & Ei); [by eapply list_elem_of_lookup_2|congruence|].
    apply list_elem_of_lookup_1 in Hq as [j Hj].
    destruct (Forall2_lookup_l _ _ _ _ _ Hf Hj) as (r & Hr & F1 & F2 & _). exists j, r.
    split; [eapply (chain_before Hc); [exact Hst|exact Hj|lia]|]. split_and!; [done|congruence|lia].
Qed.

Lemma Resolve_inr p d repoIDs steps : Resolve p d repoIDs = inr steps →
  ∃ names c, named_or_default p (do_Targets d) = Done names ∧ chain_of p names c ∧
    Derive p (do_Targets d) = Done c ∧ Forall2 (resolved_as p repoIDs) c steps.
Proof.
  unfold Resolve. destruct (derived p (do_Targets d)) as [e|c] eqn:Hd; [done|]. apply derived_inr in Hd.
  intros Hf%resolve_steps_inr. pose proof Hd as (names & Hn & Hc & _)%Derive_Done. by exists names, c.
Qed.

(* -------------------------------------------------------------------- *)
(** ** Lemmas: opening *)

Lemma assign_ids_other newID i steps ids x : x ∉ Names steps → assign_ids newID i steps ids !! x = ids !! x.
Proof.
  revert i ids. induction steps as [|s steps IH]; intros i ids; [done|]. unfold Names. rewrite fmap_cons.
  intros [H1 H2]%not_elem_of_cons. simpl. rewrite IH by done. by rewrite lookup_insert_ne.
Qed.

Lemma assign_ids_lookup newID steps k ids i s : NoDup (Names steps) → steps !! i = Some s →
  assign_ids newID k steps ids !! sp_Name s = Some (newID (k + i)%nat).
Proof.
  revert k ids i. induction steps as [|r steps IH]; intros k ids i; [done|]. unfold Names. rewrite fmap_cons.
  intros [Hr Hnd]%NoDup_cons. destruct i as [|i]; simpl.
  - intros [= ->]. rewrite assign_ids_other by done. rewrite lookup_insert_eq. by rewrite Nat.add_0_r.
  - intros Hi. rewrite (IH (S k) _ i Hnd Hi). do 2 f_equal. lia.
Qed.

Lemma CreateTransfer_opens now row db :
  (∀ x t, transfers db !! x = Some t → t_request t = tr_RequestID row → t_target_repo t ≠ tr_TargetRepoID row) →
  transfers db !! tr_ID row = None → is_Some (requests db !! tr_RequestID row) →
  is_Some (repositories db !! tr_SourceRepoID row) → is_Some (repositories db !! tr_TargetRepoID row) →
  (tr_DependsOn row = "" ∨ is_Some (transfers db !! tr_DependsOn row)) →
  CreateTransfer now row db = Ok (db <| transfers ::= insert (tr_ID row) (new_transfer now row) |>, true).
Proof.
  intros Hno Hid Hr Hs Ht Hd. unfold CreateTransfer.
  rewrite (proj2 (exists_where_false _ _)).
  - rewrite (bool_decide_eq_false_2 (is_Some (transfers db !! tr_ID row))) by (rewrite Hid; by intros [? ?]).
    rewrite !(bool_decide_eq_true_2 (is_Some _)) by done. simpl.
    destruct Hd as [->|Hd]; simpl; [done|]. rewrite (bool_decide_eq_true_2 (is_Some _)) by done.
    by rewrite orb_true_r.
  - intros x t Hx. apply andb_false_iff. destruct (decide (t_request t = tr_RequestID row)) as [E|E].
    + right. apply bool_decide_eq_false. by eapply Hno.
    + left. by apply bool_decide_eq_false.
Qed.

Section opening.
Context (now : Z) (req : Request) (requestID : string) (newID : nat → string).

Definition step_id (ids : gmap string string) (s : ResolvedStep) : string := id_of ids (sp_Name s).

Definition added (ids : gmap string string) (steps : list ResolvedStep) (m : gmap string transfer) : gmap string transfer :=
  foldl (λ m s, <[step_id ids s := new_transfer now (step_row req requestID ids s)]> m) m steps.

Lemma added_out ids steps m x : x ∉ step_id ids <$> steps → added ids steps m !! x = m !! x.
Proof.
  revert m. induction steps as [|s steps IH]; intros m; [done|]. rewrite fmap_cons.
  intros [H1 H2]%not_elem_of_cons. unfold added in *. simpl. rewrite IH by done. by rewrite lookup_insert_ne.
Qed.

Lemma added_in ids steps m s : NoDup (step_id ids <$> steps) → s ∈ steps →
  added ids steps m !! step_id ids s = Some (new_transfer now (step_row req requestID ids s)).
Proof.
  revert m. induction steps as [|r steps IH]; intros m; [by intros _ []%elem_of_nil|]. rewrite fmap_cons.
  intros [Hr Hnd]%NoDup_cons [->|Hs]%elem_of_cons.
  - change (added ids steps (<[step_id ids r := new_transfer now (step_row req requestID ids r)]> m) !! step_id ids r
      = Some (new_transfer now (step_row req requestID ids r))).
    rewrite added_out by done. by rewrite lookup_insert_eq.
  - by apply IH.
Qed.

(** The steps [pre] are stored; those of [post] come next. *)
Lemma open_steps_opens ids pre post db :
  NoDup (RepoIDs (pre ++ post)) → NoDup (step_id ids <$> post) →
  (∀ s, s ∈ pre ++ post → is_Some (repositories db !! sp_RepoID s)) →
  is_Some (requests db !! requestID) → is_Some (repositories db !! rq_SourceRepoID req) →
  (∀ s, s ∈ post → transfers db !! step_id ids s = None) →
  (∀ x t, transfers db !! x = Some t → t_request t = requestID → ∃ s, s ∈ pre ∧ t_target_repo t = sp_RepoID s) →
  (∀ i s, post !! i = Some s → id_of ids (sp_DependsOn s) = "" ∨ is_Some (transfers db !! id_of ids (sp_DependsOn s)) ∨
     ∃ q, q ∈ take i post ∧ id_of ids (sp_DependsOn s) = step_id ids q) →
  open_steps now req requestID ids post db = Ok (db <| transfers ::= added ids post |>).
Proof.
  revert pre db. induction post as [|s post IH]; intros pre db Hrep Hids Hrepo Hreq Hsrc Hfree Hown Hdep.
  { simpl. by destruct db. }
  cbn [open_steps]. rewrite fmap_cons in Hids. apply NoDup_cons in Hids as [Hs Hids].
  assert (∀ r, r ∈ pre → sp_RepoID r ≠ sp_RepoID s) as Hdiff.
  { intros r Hr E. unfold RepoIDs in Hrep. rewrite fmap_app in Hrep. apply NoDup_app in Hrep as (_ & Hrep & _).
    apply (Hrep (sp_RepoID r)); [by apply list_elem_of_fmap_2|]. rewrite fmap_cons, E. left. }
  rewrite CreateTransfer_opens; cbn [step_row tr_ID tr_RequestID tr_SourceRepoID tr_TargetRepoID tr_DependsOn].
  - cbn [mbind result_bind]. rewrite (IH (pre ++ [s])).
    + done.
    + by rewrite <-app_assoc.
    + done.
    + intros r. rewrite <-app_assoc. apply Hrepo.
    + exact Hreq.
    + exact Hsrc.
    + intros r Hr. simpl. rewrite lookup_insert_ne; [apply Hfree; by right|].
      intros E. apply Hs. unfold step_id. rewrite E. by apply (list_elem_of_fmap_2 (step_id ids)).
    + intros x t. simpl. setoid_rewrite elem_of_app. intros [[<- <-]|[_ Hx]]%lookup_insert_Some Et.
      * exists s. split; [right; left|done].
      * destruct (Hown x t Hx Et) as (r & Hr & E). exists r. split; [by left|done].
    + intros i r Hi. simpl. destruct (decide (id_of ids (sp_DependsOn r) = step_id ids s)) as [E|E].
      { right. left. rewrite E. unfold step_id. by rewrite lookup_insert_eq. }
      rewrite lookup_insert_ne by (intros Eq; by apply E).
      destruct (Hdep (S i) r Hi) as [?|[?|(q & Hq & Eq)]]; [by left|by right; left|].
      cbn [take] in Hq. apply elem_of_cons in Hq as [->|Hq]; [done|]. right. right. by exists q.
  - intros x t Hx Et E. destruct (Hown x t Hx Et) as (r & Hr & E'). apply (Hdiff r Hr). congruence.
  - apply Hfree. left.
  - exact Hreq.
  - exact Hsrc.
  - apply Hrepo. apply elem_of_app. right. left.
  - destruct (Hdep 0%nat s eq_refl) as [?|[?|(q & []%elem_of_nil & _)]]; auto.
Qed.
End opening.

(** What the database has to be for a run to be opened: new, and with a row for
    each repository of the chain. *)
Record openable (req : Request) (newID : nat → string) (db : DB) : Prop := {
  op_checks : is_ok (request_checks (run_row req)) = true;
  op_key i r : requests db !! i = Some r → r_key r ≠ rq_IdempotencyKey req;
  op_id : requests db !! requestIDFrom (rq_IdempotencyKey req) = None;
  op_product : is_Some (products db !! rq_ProductID req);
  op_source : is_Some (repositories db !! rq_SourceRepoID req);
  op_repos s : s ∈ rq_Steps req → is_Some (repositories db !! sp_RepoID s);
  op_rows : NoDup (RepoIDs (rq_Steps req));
  op_references x t : transfers db !! x = Some t → is_Some (requests db !! t_request t);
  op_fresh i : (i < length (rq_Steps req))%nat → newID i ≠ "" ∧ transfers db !! newID i = None;
  op_distinct i j : (i < length (rq_Steps req))%nat → (j < length (rq_Steps req))%nat → newID i = newID j → i = j }.

Lemma CreateTransferRequest_opens now req newID db : openable req newID db →
  CreateTransferRequest now (run_row req) db =
    Ok (db <| requests ::= insert (requestIDFrom (rq_IdempotencyKey req)) (new_request now (run_row req)) |>,
        requestIDFrom (rq_IdempotencyKey req), true).
Proof.
  intros Ho. unfold CreateTransferRequest. destruct (is_ok_true _ (op_checks _ _ _ Ho)) as [[] ->].
  cbn [mbind result_bind]. rewrite (proj2 (exists_where_false _ _)).
  - cbn [run_row rr_ID rr_ProductID rr_SourceRepoID]. rewrite (op_id _ _ _ Ho).
    rewrite bool_decide_eq_false_2 by by intros [? ?].
    rewrite !bool_decide_eq_true_2 by apply Ho. done.
  - intros i r Hr. apply bool_decide_eq_false. by apply (op_key _ _ _ Ho i).
Qed.

Section ids.
Context (newID : nat → string) (steps : list ResolvedStep) (Hord : ordered steps).
Context (Hdistinct : ∀ i j, (i < length steps)%nat → (j < length steps)%nat → newID i = newID j → i = j).

#[local] Abbreviation ids := (assign_ids newID 0 steps ∅).

Lemma step_id_lookup i s : steps !! i = Some s → step_id ids s = newID i.
Proof using Hord. intros Hi. unfold step_id, id_of. by rewrite (assign_ids_lookup newID steps 0 ∅ i s (or_nodup _ Hord) Hi). Qed.

Lemma step_ids : step_id ids <$> steps = newID <$> seq 0 (length steps).
Proof using Hord.
  apply list_eq. intros i. rewrite !list_lookup_fmap. destruct (steps !! i) as [s|] eqn:Hi; simpl.
  - rewrite lookup_seq_lt by by apply lookup_lt_Some in Hi. simpl. f_equal. by apply step_id_lookup.
  - by rewrite lookup_seq_ge by by apply lookup_ge_None in Hi.
Qed.

Lemma step_ids_nodup : NoDup (step_id ids <$> steps).
Proof using Hord Hdistinct.
  rewrite step_ids. apply NoDup_alt. intros i j x. rewrite !list_lookup_fmap.
  intros (k & Hk & ->)%fmap_Some (l & Hl & E)%fmap_Some. apply lookup_seq in Hk as [-> Hi], Hl as [-> Hj].
  by apply Hdistinct.
Qed.

Lemma id_of_nothing : id_of ids "" = "".
Proof using Hord. unfold id_of. by rewrite assign_ids_other, lookup_empty by apply Hord. Qed.

(** The step a step waits for has its id among the earlier ones. *)
Lemma id_of_waited i s : steps !! i = Some s → sp_DependsOn s ≠ "" →
  ∃ j q, (j < i)%nat ∧ steps !! j = Some q ∧ sp_Name q = sp_DependsOn s ∧ sp_Index s = sp_Index q + 1 ∧
    id_of ids (sp_DependsOn s) = newID j.
Proof using Hord.
  intros Hi Hne. destruct (or_waits _ Hord i s Hi Hne) as (j & q & Hj & Hq & E & Ei). exists j, q.
  split_and!; try done. rewrite <-E. by apply step_id_lookup.
Qed.
End ids.

(** C34. Opening a run opens its whole chain.  A resolved download whose key is
    new is recorded as one pending request and one transfer for each step, from
    the package's source to the step's repository; a step that waits for nothing
    is to be planned, any other waits for the transfer of the step its target
    pulls from, stored before it and one index lower.  Every other row is kept,
    and the order of the inserts never fails on a missing reference. *)
Theorem a_run_opens_its_chain p d repoIDs now newID req db :
  Resolve p d repoIDs = inr (rq_Steps req) → openable req newID db →
  let id := requestIDFrom (rq_IdempotencyKey req) in
  ∃ db', Open now newID req db = Ok (db', (id, true)) ∧
    db' = db <| requests ::= insert id (new_request now (run_row req)) |> <| transfers := transfers db' |> ∧
    (∀ x, (∀ i, (i < length (rq_Steps req))%nat → newID i ≠ x) → transfers db' !! x = transfers db !! x) ∧
    ∀ i s, rq_Steps req !! i = Some s → ∃ t, transfers db' !! newID i = Some t ∧
      t_request t = id ∧ t_package t = rq_PackageID req ∧ t_source_repo t = rq_SourceRepoID req ∧
      t_target_repo t = sp_RepoID s ∧ t_step_index t = sp_Index s ∧
      if String.eqb (sp_DependsOn s) "" then
        t_state t = TransferPlanning ∧ t_depends_on t = None ∧ sp_Index s = 0
      else ∃ j q, (j < i)%nat ∧ rq_Steps req !! j = Some q ∧ sp_Name q = sp_DependsOn s ∧
        sp_Index s = sp_Index q + 1 ∧ t_state t = TransferWaiting ∧ t_depends_on t = Some (newID j).
Proof.
  intros Hres Ho id. apply Resolve_inr in Hres as (names & c & _ & Hc & _ & Hf).
  pose proof (chain_ordered _ _ _ _ _ Hc Hf) as Hord.
  pose proof (step_ids_nodup newID _ Hord (op_distinct _ _ _ Ho)) as Hnd.
  set (steps := rq_Steps req) in *. set (ids := assign_ids newID 0 steps ∅) in *.
  assert (∀ s, s ∈ steps → ∃ i, (i < length steps)%nat ∧ steps !! i = Some s ∧ step_id ids s = newID i) as Hat.
  { intros s [i Hi]%list_elem_of_lookup_1. exists i. split; [by eapply lookup_lt_Some|].
    split; [done|]. by apply step_id_lookup. }
  eexists. split.
  { unfold Open. rewrite (CreateTransferRequest_opens now req newID db Ho). cbn [mbind result_bind negb].
    rewrite (open_steps_opens now req id ids [] steps); cbn [mbind result_bind].
    - reflexivity.
    - apply Ho.
    - exact Hnd.
    - apply Ho.
    - simpl. rewrite lookup_insert_eq. by eexists.
    - apply Ho.
    - intros s (i & Hi & _ & ->)%Hat. by apply (op_fresh _ _ _ Ho).
    - simpl. intros x t Hx E. pose proof (op_references _ _ _ Ho x t Hx) as [r Hr].
      assert (requests db !! id = None) as Hfree by apply (op_id _ _ _ Ho).
      rewrite E in Hr. congruence.
    - intros i s Hi. destruct (decide (sp_DependsOn s = "")) as [E|E].
      { left. rewrite E. by apply id_of_nothing. }
      destruct (id_of_waited newID steps Hord i s Hi E) as (j & q & Hj & Hq & _ & _ & Eid).
      fold ids in Eid. rewrite Eid. right. right.
      exists q. split; [|symmetry; by apply step_id_lookup]. apply list_elem_of_lookup_2 with j.
      by rewrite lookup_take_lt. }
  split; [by destruct db|]. split.
  - intros x Hx. simpl. apply added_out. intros (s & -> & (i & Hi & _ & E)%Hat)%list_elem_of_fmap. by apply (Hx i Hi).
  - intros i s Hi. exists (new_transfer now (step_row req id ids s)).
    split.
    { simpl. rewrite <-(step_id_lookup newID steps Hord i s Hi). apply added_in; [exact Hnd|].
      by eapply list_elem_of_lookup_2. }
    split_and!; [done..|]. destruct (String.eqb_spec (sp_DependsOn s) "") as [E|E].
    + unfold new_transfer. cbn [step_row tr_DependsOn]. pose proof (id_of_nothing newID steps Hord) as Eid.
      fold ids in Eid. rewrite E, Eid. simpl.
      split_and!; [done..|]. by apply (or_first _ Hord i).
    + destruct (id_of_waited newID steps Hord i s Hi E) as (j & q & Hj & Hq & En & Ei & Eid).
      exists j, q. split_and!; try done; unfold new_transfer; cbn [step_row tr_DependsOn t_state t_depends_on];
        fold ids in Eid; rewrite Eid; destruct (op_fresh _ _ _ Ho j) as [Hne _];
        try (apply lookup_lt_Some in Hi; fold steps; lia).
      * by rewrite bool_decide_eq_false_2.
      * unfold nullIfEmpty. by destruct (newID j).
Qed.

(* -------------------------------------------------------------------- *)
(** ** A validated download *)

(** C33. A download that validation accepts can be run.  In a product whose
    targets and mirrors are accepted, a download whose named targets are accepted
    is never refused once reconciliation has given the targets rows: it resolves
    to one step for each target its chain reaches. *)
Theorem a_validated_download_resolves p path d repoIDs :
  validated p → do_Targets d ≠ [] → validateDownloadTargets p path d = [] →
  (∀ t, t ∈ po_Targets p → is_Some (repoIDs !! ta_Name t)) →
  ∃ steps, Resolve p d repoIDs = inr steps ∧
    (∀ x, x ∈ Names steps ↔ reached p (do_Targets d) x) ∧
    ∀ s, s ∈ steps → repoIDs !! sp_Name s = Some (sp_RepoID s) ∧ receives p (sp_Name s).
Proof.
  intros Hv Hne Hd Hrows. destruct (validated_download Hv path d Hne Hd) as (c & Hc & Hch & Hrec).
  assert (∃ steps, Forall2 (resolved_as p repoIDs) c steps) as [steps Hf].
  { assert (∀ l, (∀ st, st ∈ l → receives p (st_Target st)) → ∃ steps, Forall2 (resolved_as p repoIDs) l steps) as Hgen.
    { induction l as [|st l IH]; intros Hl; [by exists []|].
      destruct IH as [steps IH]; [intros x Hx; apply Hl; by right|].
      destruct (Hl st) as (t & Ht & _ & Hp); [left|].
      assert (t ∈ po_Targets p ∧ ta_Name t = st_Target st) as [Hin E].
      { unfold Product_Target in Ht. apply head_Some_elem_of, list_elem_of_filter in Ht. tauto. }
      destruct (Hrows t Hin) as [id Hid]. rewrite E in Hid.
      exists (mkResolvedStep (st_Target st) id (st_Index st) (st_From st) :: steps). constructor; [|done].
      split_and!; [done..|]. by exists t. }
    apply Hgen. intros st Hst. by apply Hrec, list_elem_of_fmap_2. }
  exists steps. split.
  { unfold Resolve. rewrite (proj2 (derived_inr _ _ _) Hc). by apply resolve_steps_inr. }
  assert (Names steps = Targets c) as Hn.
  { clear -Hf. unfold Names, Targets. induction Hf as [|st s c steps (E & _) _ IH]; [done|]. by rewrite !fmap_cons, E, IH. }
  split; [rewrite Hn; apply (ch_reached _ _ _ Hch)|]. intros s [i Hi]%list_elem_of_lookup_1.
  destruct (Forall2_lookup_r _ _ _ _ _ Hf Hi) as (st & Hst & E & _ & _ & Hid & _). rewrite E. split; [done|].
  apply Hrec, list_elem_of_fmap_2. by eapply list_elem_of_lookup_2.
Qed.

(* -------------------------------------------------------------------- *)
(** ** Lemmas: keys *)

Lemma string_le_antisym : AntiSymm (=) string_le.
Proof.
  intros a b. unfold string_le, String.leb. rewrite (String.compare_antisym a b).
  destruct (String.compare b a) eqn:E; simpl; try done. by apply String.compare_eq_iff in E.
Qed.

Lemma sort_strings_perm l k : sort_strings l = sort_strings k ↔ l ≡ₚ k.
Proof.
  split; intros E.
  - rewrite <-(sort_strings_Permutation l), E. apply sort_strings_Permutation.
  - apply (StronglySorted_unique (AntiSymm0 := string_le_antisym) string_le); try apply sort_strings_sorted.
    by rewrite !sort_strings_Permutation.
Qed.

Lemma has_char_concat c sep l : has_char c sep = false → (∀ s, s ∈ l → has_char c s = false) →
  has_char c (String.concat sep l) = false.
Proof.
  intros Hsep. induction l as [|a [|b l] IH]; intros Hl; [done|apply Hl; left|].
  rewrite concat_cons, !has_char_app, Hsep, (Hl a) by left. apply IH. intros s Hs. apply Hl. by right.
Qed.

(** Names a document may hold: nameRE refuses the others. *)
Definition plain (names : list string) : Prop :=
  ∀ s, s ∈ names → s ≠ "" ∧ has_char comma s = false ∧ has_char nul s = false.

Lemma joined_names_inj l k : plain l → plain k →
  String.concat "," (sort_strings l) = String.concat "," (sort_strings k) ↔ l ≡ₚ k.
Proof.
  intros Hl Hk. rewrite <-sort_strings_perm. split; [|by intros ->]. apply (concat_inj comma).
  intros s [Hs|Hs]%elem_of_app; apply (proj1 (elem_of_sort_strings _ _)) in Hs.
  - by destruct (Hl s Hs) as (? & ? & _).
  - by destruct (Hk s Hs) as (? & ? & _).
Qed.

Lemma boolPtr_inj b b' : boolPtr b = boolPtr b' → b = b'.
Proof. by destruct b as [[]|], b' as [[]|]. Qed.

Lemma boolPtr_plain b : has_char nul (boolPtr b) = false.
Proof. by destruct b as [[]|]. Qed.

Lemma append_cancel a b c : String.append a b = String.append a c → b = c.
Proof. induction a as [|x a IH]; simpl; [done|]. intros [= E]. by apply IH. Qed.

Lemma revision_material_exact d d' : plain (do_Targets d) → plain (do_Targets d') →
  revision_material d = revision_material d' ↔
  do_Targets d ≡ₚ do_Targets d' ∧ EffectivePriority d = EffectivePriority d' ∧ VerifiesBefore d = VerifiesBefore d' ∧
  VerifiesAfter d = VerifiesAfter d' ∧ VerificationPolicy d = VerificationPolicy d'.
Proof.
  intros Hd Hd'. unfold revision_material. rewrite <-(joined_names_inj _ _ Hd Hd').
  split; [|by intros (-> & -> & -> & -> & ->)].
  assert (∀ l, plain l → has_char nul (String.append "targets=" (String.concat "," (sort_strings l))) = false) as Ht.
  { intros l Hl. rewrite has_char_app. apply has_char_concat; [done|]. intros s Hs. apply (proj1 (elem_of_sort_strings _ _)) in Hs.
    by destruct (Hl s Hs) as (_ & _ & ?). }
  assert (∀ z, has_char nul (String.append "priority=" (FormatInt z)) = false) as Hp.
  { intros z. rewrite has_char_app. by rewrite has_char_FormatInt. }
  assert (∀ w b, has_char nul w = false → has_char nul (String.append w (boolPtr b)) = false) as Hb.
  { intros w b Hw. rewrite has_char_app, Hw. apply boolPtr_plain. }
  rewrite !concat_cons. intros E.
  apply (f_equal (cut_first nul)) in E. rewrite !(cut_joined nul) in E by by apply Ht. injection E as E1 E.
  apply (f_equal (cut_first nul)) in E. rewrite !(cut_joined nul) in E by apply Hp. injection E as E2 E.
  apply (f_equal (cut_first nul)) in E. rewrite !(cut_joined nul) in E by by apply Hb. injection E as E3 E.
  apply (f_equal (cut_first nul)) in E. rewrite !(cut_joined nul) in E by by apply Hb. injection E as E4 E5.
  split_and!; [done|by apply FormatInt_inj|by apply boolPtr_inj|by apply boolPtr_inj|done].
Qed.

(** A revision is what a download does.  Unless the shortened digest
    collides on the two materials, two downloads have one revision exactly when
    they name the same targets, in whatever order, at the same priority and with
    the same three verification settings: its name, whether it is the default and
    the rule that fired it are not in it, and any edit of the rest is. *)
Theorem a_revision_is_what_a_download_does sha256_hex d d' :
  plain (do_Targets d) → plain (do_Targets d') →
  (Revision sha256_hex d = Revision sha256_hex d' → revision_material d = revision_material d') →
  Revision sha256_hex d = Revision sha256_hex d' ↔
  do_Targets d ≡ₚ do_Targets d' ∧ EffectivePriority d = EffectivePriority d' ∧ VerifiesBefore d = VerifiesBefore d' ∧
  VerifiesAfter d = VerifiesAfter d' ∧ VerificationPolicy d = VerificationPolicy d'.
Proof.
  intros Hd Hd' Hsha. rewrite <-revision_material_exact by done. split; [exact Hsha|]. unfold Revision. by intros ->.
Qed.

(** A rule and a person key one piece of work differently: the scanner and the
    service join the same fields with different separators. *)
Theorem a_rule_and_a_person_key_apart sha256_hex packageID sourceRepoID d steps :
  (let m := run_material sha256_hex packageID sourceRepoID d steps in
   let m' := key_material "replicate" packageID sourceRepoID (RepoIDs steps) (Revision sha256_hex d) (EffectivePriority d) in
   sha256_hex m = sha256_hex m' → m = m') →
  KeyFor sha256_hex packageID sourceRepoID d steps ≠
    IdempotencyKey sha256_hex "replicate" packageID sourceRepoID (RepoIDs steps) (Revision sha256_hex d) (EffectivePriority d).
Proof.
  intros Hsha E. specialize (Hsha E). unfold run_material, key_material in Hsha. rewrite !concat_cons in Hsha.
  apply (append_cancel "replicate") in Hsha. discriminate Hsha.
Qed.

(* -------------------------------------------------------------------- *)
(** ** A download by hand *)

(** Only requests and transfers are added. *)
Definition adds_work (db db' : DB) : Prop :=
  db' = db <| requests := requests db' |> <| transfers := transfers db' |> ∧
  requests db ⊆ requests db' ∧ transfers db ⊆ transfers db'.

#[export] Instance adds_work_preorder : PreOrder adds_work.
Proof.
  split; [intros []; split_and!; done|]. intros d1 d2 d3 (F & R & T) (F' & R' & T').
  split_and!; [rewrite F', F; done|by etrans|by etrans].
Qed.

Definition has_key (key : string) (db : DB) : Prop := ∃ i r, requests db !! i = Some r ∧ r_key r = key.

Lemma has_key_mono key db db' : adds_work db db' → has_key key db → has_key key db'.
Proof. intros (_ & R & _) (i & r & Hi & Hk). exists i, r. split; [by eapply lookup_weaken|done]. Qed.

Lemma open_steps_adds now req requestID ids steps db db' :
  open_steps now req requestID ids steps db = Ok db' → adds_work db db'.
Proof.
  revert db. induction steps as [|s steps IH]; intros db; cbn [open_steps]; [by intros [= ->]|].
  intros ([d o] & H1 & H2)%result_bind_Ok. etrans; [|by apply IH].
  apply CreateTransfer_inv in H1 as [(_ & -> & _)|(_ & Hfree & -> & _)]; [done|].
  split_and!; [done..|by apply insert_subseteq].
Qed.

Lemma Open_Ok now newID req db db' id created : Open now newID req db = Ok (db', (id, created)) →
  adds_work db db' ∧ has_key (rq_IdempotencyKey req) db' ∧ request_checks (run_row req) = Ok tt.
Proof.
  unfold Open. intros ([[d i] c] & Hreq & Hrest)%result_bind_Ok.
  assert (adds_work db d ∧ has_key (rq_IdempotencyKey req) d ∧ request_checks (run_row req) = Ok tt) as (A & K & C).
  { unfold CreateTransferRequest in Hreq. apply result_bind_Ok in Hreq as ([] & Hchecks & Hreq).
    destruct (exists_where _ _) eqn:He.
    - apply result_bind_Ok in Hreq as (j & _ & [= <- <- <-]). split; [done|]. split; [|done].
      apply exists_where_true in He as (k & r & Hr & Hk%bool_decide_eq_true). by exists k, r.
    - case_bool_decide as Hid; [done|]. destruct (_ && _); [|done]. injection Hreq as <- <- <-.
      apply eq_None_not_Some in Hid. split; [split_and!; [done|by apply insert_subseteq|done]|]. split; [|done].
      exists (rr_ID (run_row req)), (new_request now (run_row req)). simpl. by rewrite lookup_insert_eq. }
  destruct c; simpl in Hrest; [|by injection Hrest as <- <- <-].
  apply result_bind_Ok in Hrest as (d2 & Hs & [= <- <- <-]). apply open_steps_adds in Hs.
  split; [by etrans|]. split; [by eapply has_key_mono|done].
Qed.

Lemma Open_again now newID req db : has_key (rq_IdempotencyKey req) db → request_checks (run_row req) = Ok tt →
  ∃ id, Open now newID req db = Ok (db, (id, false)).
Proof.
  intros (i & r & Hi & Hk) Hc. unfold Open, CreateTransferRequest. rewrite Hc. cbn [mbind result_bind].
  rewrite (proj2 (exists_where_true _ _)) by (exists i, r; split; [done|by apply bool_decide_eq_true]).
  unfold requestByKey. destruct (select_where _ _) as [|[j s] l] eqn:E; [|by exists j].
  destruct (not_elem_of_nil (i, r)). rewrite <-E. apply elem_of_select_where. split; [done|].
  by apply bool_decide_eq_true.
Qed.

Section by_hand.
Context (sha256_hex : string → string) (productID : Z) (d : Download) (steps : list ResolvedStep).

Definition requested (pkg : PackageRow) (db : DB) : Prop :=
  has_key (KeyFor sha256_hex (pk_ID pkg) (pk_SourceRepoID pkg) d steps) db.

Lemma open_each_opens now newID actor i pkgs res db db' res' :
  open_each sha256_hex now newID productID d steps actor i pkgs res db = (db', inr res') →
  adds_work db db' ∧ (∀ pkg, pkg ∈ pkgs → requested pkg db') ∧
  (length (rr_Created res') + length (rr_AlreadyRequested res') =
     length (rr_Created res) + length (rr_AlreadyRequested res) + length pkgs)%nat ∧
  rr_Requested res' = rr_Requested res ∧
  (pkgs ≠ [] → is_ok (request_checks (mkTransferRequestRow "" 0 0 "replicate" 0 (EffectivePriority d) "" "" "api" "")) = true).
Proof.
  revert i res db. induction pkgs as [|pkg pkgs IH]; intros i res db; cbn [open_each].
  { intros [= <- <-]. split; [done|]. split; [by intros pkg []%elem_of_nil|]. split; [simpl; lia|done]. }
  destruct (open_one _ _ _ _ _ _ _ _ _) as [[d1 [id c]]|e] eqn:Ho; [|done].
  unfold open_one in Ho. apply Open_Ok in Ho as (A & K & C).
  intros (A' & K' & L & R & _)%IH. split; [by etrans|]. split.
  { intros p [->|Hp]%elem_of_cons; [|by apply K']. by eapply has_key_mono. }
  split; [destruct c; simpl in *; rewrite ?length_app in L; simpl in L; lia|].
  split; [by destruct c|]. intros _. revert C. unfold request_checks. simpl. clear.
  repeat (destruct (negb _); [done|]). done.
Qed.

Lemma open_each_again now newID actor i pkgs res db :
  (∀ pkg, pkg ∈ pkgs → requested pkg db) →
  is_ok (request_checks (mkTransferRequestRow "" 0 0 "replicate" 0 (EffectivePriority d) "" "" "api" "")) = true →
  open_each sha256_hex now newID productID d steps actor i pkgs res db =
    (db, inr (mkRunResult (rr_Download res) (rr_Chain res) (rr_Requested res) (rr_Created res)
                (rr_AlreadyRequested res ++ (pk_Tag <$> pkgs)))).
Proof.
  intros Hr Hc. revert i res Hr. induction pkgs as [|pkg pkgs IH]; intros i res Hr; cbn [open_each].
  { rewrite app_nil_r. by destruct res. }
  unfold open_one. match goal with |- context [Open now (newID i) ?r db] => destruct (Open_again now (newID i) r db) as [id ->] end.
  - apply (Hr pkg). left.
  - destruct (is_ok_true _ Hc) as [[] E]. revert E. unfold request_checks. simpl.
    repeat (destruct (negb _); [done|]). done.
  - rewrite IH by (intros p Hp; apply Hr; by right). simpl. by rewrite <-app_assoc.
Qed.
End by_hand.

(** C35. A download by hand answers for every package and is one piece of work.
    A dry run changes nothing.  When a download answers, each package asked for has a request under its key, counted once as
    created or as already requested; rows are only added; and the same download
    asked for again - by anybody, at any time - creates nothing and changes
    nothing. *)
Theorem a_download_by_hand_is_one_piece_of_work sha256_hex GetPackage ProductID now newID p tags repoIDs name
    validateOnly actor db db' res :
  Run sha256_hex GetPackage ProductID now newID p tags repoIDs name validateOnly actor db = (db', inr res) →
  ∃ d chain steps pkgs, prepare sha256_hex GetPackage p tags repoIDs name = inr (d, chain, steps, pkgs) ∧
    rr_Requested res = pk_Tag <$> pkgs ∧
    if (validateOnly : bool) then db' = db ∧ rr_Created res = [] ∧ rr_AlreadyRequested res = []
    else
      adds_work db db' ∧ (∀ pkg, pkg ∈ pkgs → requested sha256_hex d steps pkg db') ∧
      (length (rr_Created res) + length (rr_AlreadyRequested res) = length pkgs)%nat ∧
      (pkgs ≠ [] → ∀ now' newID' actor', ∃ res',
         Run sha256_hex GetPackage ProductID now' newID' p tags repoIDs name false actor' db' = (db', inr res') ∧
         rr_Created res' = [] ∧ rr_AlreadyRequested res' = pk_Tag <$> pkgs).
Proof.
  unfold Run. destruct (prepare sha256_hex GetPackage p tags repoIDs name) as [e|[[[d chain] steps] pkgs]]; [done|].
  intros H. exists d, chain, steps, pkgs. split; [done|].
  destruct validateOnly; [by injection H as <- <-|].
  destruct (ProductID (po_Name p)) as [productID|]; [|done].
  apply open_each_opens in H as (A & K & L & R & C). split; [done|]. split_and!; [done..|].
  intros Hne now' newID' actor'. rewrite open_each_again by (try done; by apply C). by eexists.
Qed.

(* -------------------------------------------------------------------- *)
(** ** The product with a hub, downloaded *)

Definition run_db : DB :=
  empty_db <| products := {[ 1 := "cfx" ]} |>
    <| repositories := {[ 1 := mkRepository 1 "nokia" "vendor.example" "orbs/cfx" "generic" "source";
                          2 := mkRepository 1 "hub" "registry.hub" "cfx" "generic" "target";
                          3 := mkRepository 1 "quay" "registry.quay" "cfx" "quay" "target";
                          4 := mkRepository 1 "ocp" "registry.ocp" "cfx" "quay" "target" ]} |>.

Definition run_rows : gmap string Z := {[ "hub" := 2; "quay" := 3; "ocp" := 4 ]}.

Definition to_ocp : Download := mkDownload "" ["ocp"] None None false.
Definition by_hops : Download := mkDownload "" ["hub"; "quay"; "ocp"] None None false.

Definition uuids (run : string) (i : nat) : string := words [run; "-"; pretty i].

Definition found (ref : string) : result (option PackageRow) :=
  Ok (if String.eqb ref "23.8" then Some example_package else None).

Definition by_hand (run : string) (validateOnly : bool) (db : DB) : DB * (RunError + RunResult) :=
  Run (λ m, m) found (λ _, Some 1) 100 (λ _, uuids run) delivering ["23.8"] run_rows "" validateOnly "ada" db.

Definition by_rule (run : string) (db : DB) : result (DB * Z) :=
  match compileRules prefixes delivering with
  | inl _ => Err EWorkerRequired
  | inr rules => applyRules (λ m, m) delivering rules run_rows 100 (uuids run) 1 7 1 "23.8" db
  end.

(** Discovery and a person are to ask for the same piece of work.  The package a
    rule downloaded is downloaded again by hand, to the same three targets. *)
Example a_download_by_hand_repeats_the_rules :
  match by_rule "auto" run_db with
  | Ok (db, n) =>
      n = 1 ∧ size (transfers db) = 3%nat ∧
      match by_hand "hand" false db with
      | (db', inr res) => length (rr_Created res) = 1%nat ∧ rr_AlreadyRequested res = [] ∧
          size (requests db') = 2%nat ∧ size (transfers db') = 6%nat
      | _ => False
      end
  | Err _ => False
  end.
Proof. vm_compute. split_and!; reflexivity. Qed.

(** Naming the end and naming every hop resolve to one list of steps, and are to
    be one piece of work; the revision in the key has the names that were typed. *)
Example naming_every_hop_is_another_run :
  Resolve delivering by_hops run_rows = Resolve delivering to_ocp run_rows ∧
  match Resolve delivering to_ocp run_rows with
  | inr steps => KeyFor (λ m, m) 7 1 by_hops steps ≠ KeyFor (λ m, m) 7 1 to_ocp steps
  | inl _ => False
  end.
Proof. split; vm_compute; [reflexivity|discriminate]. Qed.

(** A download that names no target is not validated against the chain of the
    default one. *)
Example a_validated_default_download_is_refused :
  validateDownloads shadowed = [] ∧
  Resolve shadowed (mkDownload "" [] None None false) {[ "edge" := 2; "prod" := 3 ]} =
    inl (ReachesPromotionOnly "the default download" "prod").
Proof. split; vm_compute; reflexivity. Qed.

Definition first_run (steps : list ResolvedStep) : Request :=
  mkRequest 1 7 1 "" "api" "ada" 50 "key" steps.

Lemma a_run_opens_its_chain_witness :
  ∃ steps db', Resolve delivering to_ocp run_rows = inr steps ∧
    Open 100 (uuids "run") (first_run steps) run_db = Ok (db', ("key", true)).
Proof.
  destruct (Resolve delivering to_ocp run_rows) as [e|steps] eqn:E; [vm_compute in E; discriminate E|].
  exists steps. assert (steps = [mkResolvedStep "hub" 2 0 ""; mkResolvedStep "quay" 3 1 "hub"; mkResolvedStep "ocp" 4 2 "quay"]) as Es.
  { vm_compute in E. injection E as <-. reflexivity. }
  destruct (a_run_opens_its_chain delivering to_ocp run_rows 100 (uuids "run") (first_run steps) run_db) as (db' & Ho & _).
  - exact E.
  - rewrite Es. split; simpl.
    + vm_compute. reflexivity.
    + intros i r Hi. vm_compute in Hi. discriminate Hi.
    + vm_compute. reflexivity.
    + vm_compute. eexists. reflexivity.
    + vm_compute. eexists. reflexivity.
    + intros s Hs. repeat (apply elem_of_cons in Hs as [->|Hs]; [vm_compute; eexists; reflexivity|]).
      apply elem_of_nil in Hs as [].
    + apply (bool_decide_unpack _). vm_compute. exact I.
    + intros x t Hx. vm_compute in Hx. discriminate Hx.
    + intros [|[|[|i]]] Hi; try (split; [discriminate|vm_compute; reflexivity]).
    + intros [|[|[|i]]] [|[|[|j]]] Hi Hj Eq; try lia; try discriminate Eq; reflexivity.
  - exists db'. split; [reflexivity|]. exact Ho.
Defined.

Lemma a_validated_download_resolves_witness :
  validated delivering ∧ ∃ steps, Resolve delivering to_ocp (<["prod" := 5]> run_rows) = inr steps.
Proof.
  assert (validated delivering) as Hv.
  { split; [apply (bool_decide_unpack _); vm_compute; exact I|apply (bool_decide_unpack _); vm_compute; exact I
      |vm_compute; reflexivity|vm_compute; reflexivity]. }
  split; [exact Hv|].
  destruct (a_validated_download_resolves delivering "spec.download[0]" to_ocp (<["prod" := 5]> run_rows) Hv) as (steps & E & _).
  - discriminate.
  - vm_compute. reflexivity.
  - intros t Ht. repeat (apply elem_of_cons in Ht as [->|Ht]; [vm_compute; eexists; reflexivity|]).
    apply elem_of_nil in Ht as [].
  - exists steps. exact E.
Defined.

Lemma a_revision_is_what_a_download_does_witness :
  Revision (λ m, String.substring 12 16 m) to_ocp ≠ Revision (λ m, String.substring 12 16 m) by_hops.
Proof.
  assert (plain ["ocp"] ∧ plain ["hub"; "quay"; "ocp"]) as [H1 H2].
  { split; intros s Hs; repeat (apply elem_of_cons in Hs as [->|Hs]; [split_and!; [discriminate|reflexivity..]|]);
      apply elem_of_nil in Hs as []. }
  intros E. apply (a_revision_is_what_a_download_does (λ m, String.substring 12 16 m) to_ocp by_hops H1 H2) in E as [Hp _].
  - apply Permutation_length in Hp. discriminate Hp.
  - intros E'. vm_compute in E'. discriminate E'.
Defined.

Lemma a_download_by_hand_is_one_piece_of_work_witness :
  ∃ db' res, by_hand "run" false run_db = (db', inr res) ∧ (length (rr_Created res) + length (rr_AlreadyRequested res) = 1)%nat.
Proof.
  destruct (by_hand "run" false run_db) as [db' [e|res]] eqn:E; [vm_compute in E; discriminate E|].
  destruct (a_download_by_hand_is_one_piece_of_work _ _ _ _ _ _ _ _ _ _ _ _ _ _ E)
    as (d & chain & steps & pkgs & Hp & _ & _ & _ & Hl & _).
  exists db', res. split; [reflexivity|]. rewrite Hl. vm_compute in Hp. injection Hp as <- <- <- <-. reflexivity.
Defined.
