(* ===== verification/Retention.v ===== *)
(** * Retention

    internal/store/retention.go and the pass of internal/maintenance/retention.go:
    the history a sweep deletes - settled transfers with what hangs off them,
    requests left empty, log lines, audit rows, placements and all but the newest
    compliance runs of a release.  Of the three tables that hold nothing the queue
    reads, only the columns the sweep compares are kept.  A LIMIT without an order
    takes rows in the map's order. *)

From S2P Require Import Prelude GoStrings StateMachine Backoff Schema Dependencies Leasing Completion Promotions Recovery Control Requests.
Open Scope Z_scope.

(* -------------------------------------------------------------------- *)
(** ** The policy, and what a sweep reports *)

Record RetentionPolicy := mkRetentionPolicy {
  rp_Transfers : Z;
  rp_WorkerLogs : Z;
  rp_AuditEvents : Z;
  rp_Placements : Z;
  rp_ComplianceRuns : Z;
  rp_BatchSize : Z }.

Definition Enabled (p : RetentionPolicy) : bool :=
  (0 <? rp_Transfers p) || (0 <? rp_WorkerLogs p) || (0 <? rp_AuditEvents p) || (0 <? rp_Placements p) ||
  (0 <? rp_ComplianceRuns p).

Record RetentionResult := mkRetentionResult {
  rt_Transfers : nat;
  rt_Requests : nat;
  rt_WorkerLogs : nat;
  rt_AuditEvents : nat;
  rt_Placements : nat;
  rt_ComplianceRuns : nat }.

#[export] Instance RetentionResult_eta : Eta RetentionResult := λ r,
  mkRetentionResult (rt_Transfers r) (rt_Requests r) (rt_WorkerLogs r) (rt_AuditEvents r) (rt_Placements r)
    (rt_ComplianceRuns r).

Definition Rows (r : RetentionResult) : nat :=
  rt_Transfers r + rt_Requests r + rt_WorkerLogs r + rt_AuditEvents r + rt_Placements r + rt_ComplianceRuns r.

(** compliance_runs *)
Record compliance_run := mkComplianceRun {
  cm_package : Z;
  cm_started : Z }.

(** The database of the queue, and the logged_at of worker_logs, the occurred_at
    of audit_events and the rows of compliance_runs. *)
Record History := mkHistory {
  hi_db : DB;
  hi_logs : gmap Z Z;
  hi_audit : gmap Z Z;
  hi_runs : gmap string compliance_run }.

#[export] Instance History_eta : Eta History := λ h, mkHistory (hi_db h) (hi_logs h) (hi_audit h) (hi_runs h).

(* -------------------------------------------------------------------- *)
(** ** The statements *)

(** Whole seconds, and a floor of one. *)
Definition seconds (ttl : Z) : Z :=
  let n := Z.quot ttl 1000000000 in if 0 <? n then n else 1.

(** dialect.TimeAgo *)
Definition cutoff (now ttl : Z) : Z := now - seconds ttl * 1000000000.

(** DELETE FROM transfers WHERE id IN (ids), with what the foreign keys do: jobs,
    edges, promotions and names go, and a step that waited waits for nothing. *)
Definition delete_transfers (ids : list string) (db : DB) : DB :=
  let gone (t : string) := bool_decide (t ∈ ids) in
  let job_gone (j : Z) := match jobs db !! j with Some r => gone (j_transfer r) | None => false end in
  let promotion_gone (i : Z) := match promotions db !! i with Some r => gone (pm_transfer r) | None => false end in
  db <| transfers := update_where (λ _ r, match t_depends_on r with Some d => gone d | None => false end)
          (λ _ r, r <| t_depends_on := None |>) (delete_where (λ i _, gone i) (transfers db)) |>
     <| jobs ::= delete_where (λ _ j, gone (j_transfer j)) |>
     <| dependencies := filter (λ e, (job_gone e.1 || job_gone e.2) = false) (dependencies db) |>
     <| promotions ::= delete_where (λ i _, promotion_gone i) |>
     <| promotion_names ::= delete_where (λ k _, promotion_gone k.1) |>.

Definition is_settled_before (at_ : Z) (_ : string) (t : transfer) : bool :=
  bool_decide (t_state t ∈ [TransferSucceeded; TransferFailed; TransferCancelled]) &&
  match t_completed t with Some c => c <? at_ | None => false end.

Definition settled_transfers (now ttl : Z) (batch : nat) (db : DB) : list string :=
  (take batch (select_where (is_settled_before (cutoff now ttl)) (transfers db))).*1.

Definition deleteSettledTransfers (now ttl : Z) (batch : nat) (db : DB) : DB * nat :=
  let ids := settled_transfers now ttl batch db in (delete_transfers ids db, length ids).

Definition is_orphan_before (at_ : Z) (db : DB) (i : string) (r : request) : bool :=
  (r_created r <? at_) && negb (exists_where (λ _ t, bool_decide (t_request t = i)) (transfers db)).

Definition orphan_requests (now ttl : Z) (batch : nat) (db : DB) : list string :=
  (take batch (select_where (is_orphan_before (cutoff now ttl) db) (requests db))).*1.

Definition deleteOrphanRequests (now ttl : Z) (batch : nat) (db : DB) : DB * nat :=
  let ids := orphan_requests now ttl batch db in
  (db <| requests ::= delete_where (λ i _, bool_decide (i ∈ ids)) |>, length ids).

(** A table by its key and its time column. *)
Definition deleteBatch (now ttl : Z) (batch : nat) (table : gmap Z Z) : gmap Z Z * nat :=
  let ids := (take batch (select_where (λ _ t, t <? cutoff now ttl) table)).*1 in
  (delete_where (λ i _, bool_decide (i ∈ ids)) table, length ids).

Definition deletePlacements (now ttl : Z) (db : DB) : DB * nat :=
  let old (_ : Z * string) (b : placement) := bp_verified b <? cutoff now ttl in
  (db <| placements ::= delete_where old |>, count_where old (placements db)).

(** ORDER BY started_at DESC, id DESC *)
Definition newer_run (a b : string * compliance_run) : bool :=
  if negb (cm_started a.2 =? cm_started b.2) then cm_started b.2 <? cm_started a.2 else String.ltb b.1 a.1.

(** ROW_NUMBER() OVER (PARTITION BY package_id ORDER BY ...) *)
Definition run_rank (runs : gmap string compliance_run) (i : string) (r : compliance_run) : nat :=
  S (count_where (λ j s, bool_decide (cm_package s = cm_package r) && newer_run (j, s) (i, r)) runs).

Definition sweepComplianceRuns (keep : Z) (batch : nat) (runs : gmap string compliance_run)
    : gmap string compliance_run * nat :=
  let keep := Z.to_nat (if keep <? 1 then 1 else keep) in
  let ids := (take batch (select_where (λ i r, (keep <? run_rank runs i r)%nat) runs)).*1 in
  (delete_where (λ i _, bool_decide (i ∈ ids)) runs, length ids).

Definition DefaultBatchSize : Z := 5000.

Definition batch_of (p : RetentionPolicy) : nat :=
  Z.to_nat (if rp_BatchSize p <=? 0 then DefaultBatchSize else rp_BatchSize p).

(** One of the six, when the policy has it. *)
Definition SweepRetention (now : Z) (p : RetentionPolicy) (h : History) : History * RetentionResult :=
  let batch := batch_of p in
  let '(db, transfers, requests) :=
    if 0 <? rp_Transfers p then
      let '(db, n) := deleteSettledTransfers now (rp_Transfers p) batch (hi_db h) in
      let '(db, m) := deleteOrphanRequests now (rp_Transfers p) batch db in (db, n, m)
    else (hi_db h, O, O) in
  let '(logs, lines) :=
    if 0 <? rp_WorkerLogs p then deleteBatch now (rp_WorkerLogs p) batch (hi_logs h) else (hi_logs h, O) in
  let '(audit, events) :=
    if 0 <? rp_AuditEvents p then deleteBatch now (rp_AuditEvents p) batch (hi_audit h) else (hi_audit h, O) in
  let '(db, placed) :=
    if 0 <? rp_Placements p then deletePlacements now (rp_Placements p) db else (db, O) in
  let '(runs, swept) :=
    if 0 <? rp_ComplianceRuns p then sweepComplianceRuns (rp_ComplianceRuns p) batch (hi_runs h) else (hi_runs h, O) in
  (mkHistory db logs audit runs, mkRetentionResult transfers requests lines events placed swept).

(** A turn of the loop: nothing unless this replica leads. *)
Definition sweep_turn (now : Z) (leader : bool) (p : RetentionPolicy) (h : History) : History * option RetentionResult :=
  if Enabled p && leader then let '(h, r) := SweepRetention now p h in (h, Some r) else (h, None).

(* -------------------------------------------------------------------- *)
(** ** Lemmas: a bounded selection *)

Section limited.
Context {K V : Type} `{Countable K} (p : K → V → bool) (n : nat) (m : gmap K V).

Definition limited : list K := (take n (select_where p m)).*1.

Lemma elem_of_limited k : k ∈ limited → ∃ v, m !! k = Some v ∧ p k v = true.
Proof using.
  intros ([k' v] & -> & Hin)%list_elem_of_fmap. apply elem_of_take in Hin as (i & Hi & _).
  exists v. apply elem_of_select_where. by eapply list_elem_of_lookup_2.
Qed.

Lemma NoDup_limited : NoDup limited.
Proof using.
  unfold limited. rewrite fmap_take. apply (sublist_NoDup _ (select_where p m).*1); [apply NoDup_select_where|apply sublist_take].
Qed.

Lemma length_limited : length limited = (n `min` count_where p m)%nat.
Proof using. unfold limited. by rewrite length_fmap, length_take. Qed.

Lemma limited_all k v : (count_where p m ≤ n)%nat → m !! k = Some v → p k v = true → k ∈ limited.
Proof using.
  intros Hn Hk Hp. unfold limited. rewrite take_ge by exact Hn. apply list_elem_of_fmap. exists (k, v).
  split; [done|]. by apply elem_of_select_where.
Qed.

Lemma delete_limited_lookup k v : delete_where (λ i _, bool_decide (i ∈ limited)) m !! k = Some v ↔
  m !! k = Some v ∧ k ∉ limited.
Proof using. by rewrite lookup_delete_where_Some, bool_decide_eq_false. Qed.

Lemma delete_limited_gone k v : m !! k = Some v →
  delete_where (λ i _, bool_decide (i ∈ limited)) m !! k = None → p k v = true.
Proof using.
  intros Hk Hn. apply (proj1 (lookup_delete_where_None _ _ _)) with v in Hn; [|done].
  apply bool_decide_eq_true, elem_of_limited in Hn as (w & Hw & ?). congruence.
Qed.

Lemma delete_limited_size : (size (delete_where (λ i _, bool_decide (i ∈ limited)) m) + length limited = size m)%nat.
Proof using.
  assert (dom (delete_where (λ i _, bool_decide (i ∈ limited)) m) ∪ list_to_set limited = dom m) as Hd.
  { apply set_eq. intros k. rewrite elem_of_union, !elem_of_dom, elem_of_list_to_set. split.
    - intros [[v Hv]|Hk]; [apply delete_limited_lookup in Hv as [Hv _]; by eexists|].
      apply elem_of_limited in Hk as (v & Hv & _). by eexists.
    - intros [v Hv]. destruct (decide (k ∈ limited)); [by right|]. left. exists v. by apply delete_limited_lookup. }
  rewrite <-!size_dom, <-Hd, size_union, size_list_to_set by
    (first [apply NoDup_limited|intros k [v [_ Hv]%delete_limited_lookup]%elem_of_dom Hk%elem_of_list_to_set; done]).
  done.
Qed.
End limited.

(* -------------------------------------------------------------------- *)
(** ** Lemmas: deleting transfers *)

(** Every reference of the schema resolves. *)
Record consistent (db : DB) : Prop := {
  cn_jobs j r : jobs db !! j = Some r → is_Some (transfers db !! j_transfer r);
  cn_edges e : e ∈ dependencies db → is_Some (jobs db !! e.1) ∧ is_Some (jobs db !! e.2);
  cn_steps t r d : transfers db !! t = Some r → t_depends_on r = Some d → is_Some (transfers db !! d);
  cn_requests t r : transfers db !! t = Some r → is_Some (requests db !! t_request r);
  cn_promotions i r : promotions db !! i = Some r → is_Some (transfers db !! pm_transfer r);
  cn_names k r : promotion_names db !! k = Some r → is_Some (promotions db !! k.1) }.

(** A step, when what it waited for is gone. *)
Definition unhooked (gone : string → Prop) `{∀ x, Decision (gone x)} (t : transfer) : transfer :=
  match t_depends_on t with
  | Some d => if decide (gone d) then t <| t_depends_on := None |> else t
  | None => t
  end.

Section delete_transfers.
Context (ids : list string) (db : DB).

#[local] Abbreviation db' := (delete_transfers ids db).

Lemma transfers_deleted t r : transfers db' !! t = Some r ↔
  ∃ r0, transfers db !! t = Some r0 ∧ t ∉ ids ∧ r = unhooked (λ d, d ∈ ids) r0.
Proof using.
  unfold delete_transfers. simpl. rewrite lookup_update_where_Some. unfold unhooked. split.
  - intros (r0 & [Hr Hin%bool_decide_eq_false]%lookup_delete_where_Some & ->). exists r0.
    split_and!; [done..|]. destruct (t_depends_on r0) as [d|]; [|done]. by case_bool_decide; case_decide.
  - intros (r0 & Hr & Hin & ->). exists r0.
    split; [by rewrite lookup_delete_where_Some, bool_decide_eq_false|].
    destruct (t_depends_on r0) as [d|]; [|done]. by case_bool_decide; case_decide.
Qed.

Lemma transfers_deleted_some t : is_Some (transfers db' !! t) ↔ is_Some (transfers db !! t) ∧ t ∉ ids.
Proof using.
  split.
  - intros [r (r0 & ? & ? & _)%transfers_deleted]. split; [by eexists|done].
  - intros [[r0 ?] ?]. eexists. apply transfers_deleted. eauto.
Qed.

Lemma jobs_deleted j r : jobs db' !! j = Some r ↔ jobs db !! j = Some r ∧ j_transfer r ∉ ids.
Proof using. unfold delete_transfers. simpl. by rewrite lookup_delete_where_Some, bool_decide_eq_false. Qed.

Lemma edges_deleted e : e ∈ dependencies db' ↔ e ∈ dependencies db ∧
  (∀ r, jobs db !! e.1 = Some r → j_transfer r ∉ ids) ∧ (∀ r, jobs db !! e.2 = Some r → j_transfer r ∉ ids).
Proof using.
  unfold delete_transfers. simpl. rewrite elem_of_filter, orb_false_iff.
  assert (∀ j, match jobs db !! j with Some r => bool_decide (j_transfer r ∈ ids) | None => false end = false ↔
    ∀ r, jobs db !! j = Some r → j_transfer r ∉ ids) as Hj.
  { intros j. destruct (jobs db !! j) as [r|]; [rewrite bool_decide_eq_false|]; naive_solver. }
  rewrite !Hj. tauto.
Qed.

Lemma promotions_deleted i r : promotions db' !! i = Some r ↔ promotions db !! i = Some r ∧ pm_transfer r ∉ ids.
Proof using.
  unfold delete_transfers. simpl. rewrite lookup_delete_where_Some.
  destruct (promotions db !! i) as [s|]; [|naive_solver]. rewrite bool_decide_eq_false. naive_solver.
Qed.

Lemma names_deleted k r : promotion_names db' !! k = Some r ↔ promotion_names db !! k = Some r ∧
  ∀ q, promotions db !! k.1 = Some q → pm_transfer q ∉ ids.
Proof using.
  unfold delete_transfers. simpl. rewrite lookup_delete_where_Some.
  destruct (promotions db !! k.1) as [s|]; [rewrite bool_decide_eq_false|]; naive_solver.
Qed.

Lemma delete_transfers_consistent : consistent db → consistent db'.
Proof using.
  intros H. split.
  - intros j r [Hj Hin]%jobs_deleted. apply transfers_deleted_some. split; [by eapply (cn_jobs _ H)|done].
  - intros e (He & H1 & H2)%edges_deleted. apply (cn_edges _ H) in He as [[r Hr] [s Hs]].
    split; [exists r|exists s]; apply jobs_deleted; eauto.
  - intros t r d (r0 & Hr & Hin & ->)%transfers_deleted. unfold unhooked. intros Hd. apply transfers_deleted_some.
    destruct (t_depends_on r0) as [d0|] eqn:E; [|congruence]. case_decide; [done|].
    assert (d0 = d) as -> by congruence. split; [by eapply (cn_steps _ H)|done].
  - intros t r (r0 & Hr & _ & ->)%transfers_deleted. change (requests db') with (requests db).
    assert (t_request (unhooked (λ d, d ∈ ids) r0) = t_request r0) as ->.
    { unfold unhooked. destruct (t_depends_on r0); [by case_decide|done]. }
    by eapply (cn_requests _ H).
  - intros i r [Hi Hin]%promotions_deleted. apply transfers_deleted_some. split; [by eapply (cn_promotions _ H)|done].
  - intros k r [Hk Hin]%names_deleted. apply (cn_names _ H) in Hk as [q Hq]. exists q. apply promotions_deleted. eauto.
Qed.
End delete_transfers.

(** What [DeleteTransfer] leaves. *)
#[local] Abbreviation by_hand t db :=
  (delete_transfer_row t (db <| dependencies := filter (λ e, edge_of db t e = false) (dependencies db) |>
                             <| jobs ::= delete_where (job_of_transfer t) |>)).

Section one_row.
Context (t : string) (db : DB).

#[local] Abbreviation d1 := (by_hand t db).

Lemma row_promotions i s : promotions d1 !! i = Some s ↔ promotions db !! i = Some s ∧ pm_transfer s ≠ t.
Proof using.
  unfold delete_transfer_row. simpl. rewrite lookup_delete_where_Some.
  destruct (promotions db !! i) as [q|]; [rewrite bool_decide_eq_false|]; naive_solver.
Qed.

Lemma row_jobs j s : jobs d1 !! j = Some s ↔ jobs db !! j = Some s ∧ j_transfer s ≠ t.
Proof using.
  unfold delete_transfer_row. simpl. rewrite lookup_delete_where_Some. unfold job_of_transfer. by rewrite bool_decide_eq_false.
Qed.

Lemma row_edges e : e ∈ dependencies d1 ↔ e ∈ dependencies db ∧ (∀ s, jobs db !! e.1 = Some s → j_transfer s ≠ t) ∧
  (∀ s, jobs db !! e.2 = Some s → j_transfer s ≠ t).
Proof using.
  unfold delete_transfer_row. simpl. rewrite elem_of_filter. unfold edge_of. rewrite orb_false_iff.
  assert (∀ j, match jobs db !! j with Some s => bool_decide (j_transfer s = t) | None => false end = false ↔
    ∀ s, jobs db !! j = Some s → j_transfer s ≠ t) as Hj; [|rewrite !Hj; tauto].
  intros j. destruct (jobs db !! j) as [s|]; [rewrite bool_decide_eq_false|]; naive_solver.
Qed.

Lemma row_names k r : promotion_names d1 !! k = Some r ↔ promotion_names db !! k = Some r ∧
  ∀ q, promotions db !! k.1 = Some q → pm_transfer q ≠ t.
Proof using.
  unfold delete_transfer_row. simpl. rewrite lookup_delete_where_Some.
  destruct (promotions db !! k.1) as [q|]; [rewrite bool_decide_eq_false|]; naive_solver.
Qed.

Lemma row_transfers u x : transfers d1 !! u = Some x ↔
  ∃ y, transfers db !! u = Some y ∧ u ≠ t ∧
    x = if bool_decide (t_depends_on y = Some t) then y <| t_depends_on := None |> else y.
Proof using.
  unfold delete_transfer_row. simpl. rewrite lookup_update_where_Some. setoid_rewrite lookup_delete_where_Some.
  setoid_rewrite bool_decide_eq_false. naive_solver.
Qed.
End one_row.

Lemma unhooked_row (ids : list string) t y :
  unhooked (λ d, d ∈ ids) (if bool_decide (t_depends_on y = Some t) then y <| t_depends_on := None |> else y) =
    unhooked (λ d, d ∈ t :: ids) y.
Proof.
  unfold unhooked. case_bool_decide as Hd; simpl.
  - rewrite Hd. rewrite decide_True by left. done.
  - destruct (t_depends_on y) as [d|]; [|done].
    rewrite (decide_ext (d ∈ t :: ids) (d ∈ ids)); [done|]. rewrite elem_of_cons. naive_solver.
Qed.

Lemma delete_transfers_row ids t db : delete_transfers ids (by_hand t db) = delete_transfers (t :: ids) db.
Proof.
  set (d1 := by_hand t db).
  assert (transfers (delete_transfers ids d1) = transfers (delete_transfers (t :: ids) db)) as E1.
  { apply map_eq. intros u. apply option_eq. intros x. rewrite !transfers_deleted. unfold d1.
    setoid_rewrite row_transfers. setoid_rewrite not_elem_of_cons. split.
    - intros (y & (z & Hz & Hne & ->) & Hin & ->). exists z. split; [done|]. split; [done|]. apply unhooked_row.
    - intros (z & Hz & [Hne Hin] & ->). eexists. split; [exists z; split_and!; done|]. split; [done|]. by rewrite unhooked_row. }
  assert (jobs (delete_transfers ids d1) = jobs (delete_transfers (t :: ids) db)) as E2.
  { apply map_eq. intros j. apply option_eq. intros s. unfold d1. rewrite !jobs_deleted, row_jobs, not_elem_of_cons. tauto. }
  assert (dependencies (delete_transfers ids d1) = dependencies (delete_transfers (t :: ids) db)) as E3.
  { apply set_eq. intros e. unfold d1. rewrite !edges_deleted, row_edges. setoid_rewrite row_jobs.
    setoid_rewrite not_elem_of_cons. split.
    - intros ((He & H1 & H2) & H3 & H4). split_and!; [done|intros r Hr; split; eauto..].
    - intros (He & H1 & H2). split_and!; [done|intros r Hr; by apply H1|intros r Hr; by apply H2|..];
        intros r [Hr _]; [by apply H1|by apply H2]. }
  assert (promotions (delete_transfers ids d1) = promotions (delete_transfers (t :: ids) db)) as E4.
  { apply map_eq. intros i. apply option_eq. intros s. unfold d1. rewrite !promotions_deleted, row_promotions, not_elem_of_cons. tauto. }
  assert (promotion_names (delete_transfers ids d1) = promotion_names (delete_transfers (t :: ids) db)) as E5.
  { apply map_eq. intros k. apply option_eq. intros s. unfold d1. rewrite !names_deleted, row_names. setoid_rewrite row_promotions.
    setoid_rewrite not_elem_of_cons. split.
    - intros [[Hk H1] H2]. split; [done|]. intros q Hq. split; eauto.
    - intros [Hk H1]. split_and!; [done|intros q Hq; by apply H1|]. intros q [Hq _]. by apply H1. }
  unfold delete_transfers in *. simpl in *. unfold update_field. simpl. f_equal; assumption.
Qed.

(** An operator's delete of a settled transfer is accepted, and leaves the state of
    every other as it was. *)
Lemma DeleteTransfer_settled now t db r :
  transfers db !! t = Some r → t_state r ∈ settled_states →
  fst <$> DeleteTransfer now t db = Ok (by_hand t db) ∧
  ∀ u x, u ≠ t → transfers db !! u = Some x → ∃ x', transfers (by_hand t db) !! u = Some x' ∧ t_state x' = t_state x.
Proof.
  intros Hr Hs. split.
  - unfold DeleteTransfer. rewrite Hr. cbn [of_option mbind result_bind]. by rewrite bool_decide_eq_true_2.
  - intros u x Hu Hx. eexists. split; [apply row_transfers; exists x; split_and!; done|]. by case_bool_decide.
Qed.

Lemma delete_transfers_nil db : delete_transfers [] db = db.
Proof.
  assert (transfers (delete_transfers [] db) = transfers db) as E1.
  { apply map_eq. intros t. apply option_eq. intros r. rewrite transfers_deleted. unfold unhooked. split.
    - intros (r0 & Hr & _ & ->). by destruct (t_depends_on r0).
    - intros Hr. exists r. split; [done|]. split; [apply not_elem_of_nil|]. by destruct (t_depends_on r). }
  assert (jobs (delete_transfers [] db) = jobs db) as E2.
  { apply map_eq. intros j. apply option_eq. intros s. rewrite jobs_deleted. pose proof (not_elem_of_nil (j_transfer s)). tauto. }
  assert (dependencies (delete_transfers [] db) = dependencies db) as E3.
  { apply set_eq. intros e. rewrite edges_deleted. split; [tauto|]. intros He.
    split; [done|]. split; intros r _; apply not_elem_of_nil. }
  assert (promotions (delete_transfers [] db) = promotions db) as E4.
  { apply map_eq. intros i. apply option_eq. intros s. rewrite promotions_deleted. pose proof (not_elem_of_nil (pm_transfer s)). tauto. }
  assert (promotion_names (delete_transfers [] db) = promotion_names db) as E5.
  { apply map_eq. intros k. apply option_eq. intros s. rewrite names_deleted. split; [tauto|]. intros Hk.
    split; [done|]. intros q _. apply not_elem_of_nil. }
  unfold delete_transfers in *. destruct db. simpl in *. unfold update_field. simpl. f_equal; assumption.
Qed.

Lemma delete_each now ids db :
  NoDup ids → (∀ t, t ∈ ids → ∃ r, transfers db !! t = Some r ∧ t_state r ∈ settled_states) →
  fold_result (λ db t, fst <$> DeleteTransfer now t db) ids db = Ok (delete_transfers ids db).
Proof.
  revert db. induction ids as [|t ids IH]; intros db Hnd Hall; [by rewrite delete_transfers_nil|].
  apply NoDup_cons in Hnd as [Ht Hnd]. destruct (Hall t) as (r & Hr & Hs); [left|].
  destruct (DeleteTransfer_settled now t db r Hr Hs) as [Hd Hkeep]. rewrite <-delete_transfers_row.
  cbn [fold_result]. rewrite Hd. cbn. apply IH; [done|]. intros u Hu.
  destruct (Hall u) as (x & Hx & Hxs); [by right|].
  destruct (Hkeep u x) as (x' & Hx' & E); [by intros ->|done|]. exists x'. by rewrite E.
Qed.

Lemma is_settled_before_true at_ t x : is_settled_before at_ t x = true ↔
  t_state x ∈ settled_states ∧ ∃ c, t_completed x = Some c ∧ c < at_.
Proof.
  unfold is_settled_before. rewrite andb_true_iff, bool_decide_eq_true.
  destruct (t_completed x) as [c|]; [rewrite Z.ltb_lt|]; naive_solver.
Qed.

Lemma settled_transfers_old now ttl batch db t : t ∈ settled_transfers now ttl batch db →
  ∃ x, transfers db !! t = Some x ∧ t_state x ∈ settled_states ∧ ∃ c, t_completed x = Some c ∧ c < cutoff now ttl.
Proof.
  intros (x & Hx & Hs%is_settled_before_true)%(elem_of_limited (is_settled_before (cutoff now ttl)) batch). by exists x.
Qed.

(** A sweep deletes what an operator would.  Sweeping the settled transfers
    is deleting each of them by hand, one after another: every one of the deletes
    is accepted, and together they leave the database the sweep leaves. *)
Theorem a_sweep_deletes_as_an_operator_would now ttl batch db :
  fold_result (λ db t, fst <$> DeleteTransfer now t db) (settled_transfers now ttl batch db) db =
    Ok (deleteSettledTransfers now ttl batch db).1.
Proof.
  apply delete_each; [apply NoDup_limited|].
  intros t (x & Hx & Hs & _)%settled_transfers_old. by exists x.
Qed.

Lemma is_orphan_before_true at_ db i x : is_orphan_before at_ db i x = true ↔
  r_created x < at_ ∧ ∀ t y, transfers db !! t = Some y → t_request y ≠ i.
Proof.
  unfold is_orphan_before. rewrite andb_true_iff, Z.ltb_lt, negb_true_iff, exists_where_false.
  setoid_rewrite bool_decide_eq_false. done.
Qed.

Lemma delete_requests_consistent (ids : list string) db : consistent db →
  (∀ i t y, i ∈ ids → transfers db !! t = Some y → t_request y ≠ i) →
  consistent (db <| requests ::= delete_where (λ i _, bool_decide (i ∈ ids)) |>).
Proof.
  intros [H1 H2 H3 H4 H5 H6] Hno. split; try done. intros t r Hr. simpl in *. destruct (H4 t r Hr) as [q Hq].
  exists q. rewrite lookup_delete_where_Some. split; [done|]. apply bool_decide_eq_false. intros Hin.
  by apply (Hno _ t r Hin Hr).
Qed.

(** The two passes over the queue's own tables. *)
Definition sweep_work (now ttl : Z) (batch : nat) (db : DB) : DB :=
  (deleteOrphanRequests now ttl batch (deleteSettledTransfers now ttl batch db).1).1.

(** The sweep, table by table. *)
Lemma sweep_work_tables now ttl batch db :
  let d1 := delete_transfers (settled_transfers now ttl batch db) db in
  let db' := sweep_work now ttl batch db in
  transfers db' = transfers d1 ∧ jobs db' = jobs d1 ∧ dependencies db' = dependencies d1 ∧ promotions db' = promotions d1 ∧
  requests db' = delete_where (λ i _, bool_decide (i ∈ orphan_requests now ttl batch d1)) (requests db) ∧
  promotion_names db' = promotion_names d1 ∧
  db' = db <| transfers := transfers db' |> <| jobs := jobs db' |> <| dependencies := dependencies db' |>
           <| promotions := promotions db' |> <| promotion_names := promotion_names db' |>
           <| requests := requests db' |>.
Proof. by split_and!. Qed.

Lemma orphan_requests_old now ttl batch db i : i ∈ orphan_requests now ttl batch db →
  ∃ x, requests db !! i = Some x ∧ r_created x < cutoff now ttl ∧ ∀ t y, transfers db !! t = Some y → t_request y ≠ i.
Proof. intros (x & Hx & Ho%is_orphan_before_true)%(elem_of_limited (is_orphan_before (cutoff now ttl) db) batch). by exists x. Qed.

Lemma sweep_work_consistent now ttl batch db : consistent db → consistent (sweep_work now ttl batch db).
Proof.
  intros Hc. apply delete_requests_consistent; [by apply delete_transfers_consistent|].
  intros i t y (x & _ & _ & Hno)%orphan_requests_old. apply Hno.
Qed.

(** C36. A sweep takes only what is over and old.  With every reference of the
    schema resolving before, it resolves after.  A transfer that goes had settled
    and was completed before the cutoff; one that stays is as it was, but for a
    step it waited for that is gone; exactly the jobs, edges and promotions of the
    transfers that go go with them, and exactly the names of those promotions; and
    a request goes only when it is that old and nothing is left of it.  Nothing
    else in the queue changes: a placement, which no foreign key ties to a job or
    a transfer, stays. *)
Theorem a_sweep_takes_only_what_is_over now ttl batch db :
  consistent db →
  let db' := sweep_work now ttl batch db in
  consistent db' ∧
  (∀ t x, transfers db !! t = Some x → transfers db' !! t = None →
     t_state x ∈ settled_states ∧ ∃ c, t_completed x = Some c ∧ c < cutoff now ttl) ∧
  (∀ t x', transfers db' !! t = Some x' →
     ∃ x, transfers db !! t = Some x ∧ x' = unhooked (λ d, transfers db' !! d = None) x) ∧
  (∀ j r, jobs db' !! j = Some r ↔ jobs db !! j = Some r ∧ is_Some (transfers db' !! j_transfer r)) ∧
  (∀ e, e ∈ dependencies db' ↔ e ∈ dependencies db ∧ is_Some (jobs db' !! e.1) ∧ is_Some (jobs db' !! e.2)) ∧
  (∀ i r, promotions db' !! i = Some r ↔ promotions db !! i = Some r ∧ is_Some (transfers db' !! pm_transfer r)) ∧
  (∀ k r, promotion_names db' !! k = Some r ↔
     promotion_names db !! k = Some r ∧ is_Some (promotions db' !! k.1)) ∧
  requests db' ⊆ requests db ∧
  (∀ i x, requests db !! i = Some x → requests db' !! i = None →
     r_created x < cutoff now ttl ∧ ∀ t y, transfers db' !! t = Some y → t_request y ≠ i) ∧
  db' = db <| transfers := transfers db' |> <| jobs := jobs db' |> <| dependencies := dependencies db' |>
           <| promotions := promotions db' |> <| promotion_names := promotion_names db' |>
           <| requests := requests db' |>.
Proof.
  intros Hc db'. set (ids := settled_transfers now ttl batch db).
  pose proof (sweep_work_consistent now ttl batch db Hc) as Hc'.
  pose proof (sweep_work_tables now ttl batch db) as (Et & Ej & Ee & Ep & Er & En & E).
  fold ids in Et, Ej, Ee, Ep, Er, En. fold db' in Hc', Et, Ej, Ee, Ep, Er, En, E. clearbody db'.
  assert (∀ t, is_Some (transfers db' !! t) ↔ is_Some (transfers db !! t) ∧ t ∉ ids) as Hsome
    by (intros t; rewrite Et; apply transfers_deleted_some).
  split_and!; [done|..|done].
  - intros t x Hx Hn. destruct (decide (t ∈ ids)) as [Hin|Hin].
    + destruct (settled_transfers_old _ _ _ _ _ Hin) as (y & Hy & Hs). simplify_eq. done.
    + destruct (proj2 (Hsome t) (conj (mk_is_Some _ _ Hx) Hin)) as [y Hy]. congruence.
  - intros t x' Hx. rewrite Et in Hx. apply transfers_deleted in Hx as (x & Hx & Hin & ->). exists x. split; [done|]. unfold unhooked.
    destruct (t_depends_on x) as [d|] eqn:Hd; [|done].
    pose proof (cn_steps _ Hc t x d Hx Hd) as Hdep. pose proof (Hsome d) as Hsd.
    destruct (decide (d ∈ ids)), (decide (transfers db' !! d = None)) as [Hno|Hno]; try done.
    + apply not_eq_None_Some, Hsd in Hno. tauto.
    + destruct (proj2 Hsd (conj Hdep n)). congruence.
  - intros j r. rewrite Hsome, Ej, jobs_deleted. split; [|tauto]. intros [Hj Hin]. split; [done|].
    split; [by eapply (cn_jobs _ Hc)|done].
  - intros e. split; [intros He; split; [|by apply (cn_edges _ Hc')]; rewrite Ee in He; by apply edges_deleted in He as [? _]|].
    rewrite Ej, Ee. intros (He & [r Hr] & [s Hs]). apply jobs_deleted in Hr as [Hr Hri], Hs as [Hs Hsi]. apply edges_deleted.
    split; [done|]. split; intros ? ?; congruence.
  - intros i r. rewrite Hsome, Ep, promotions_deleted. split; [|tauto]. intros [Hi Hin]. split; [done|].
    split; [by eapply (cn_promotions _ Hc)|done].
  - intros k r. rewrite En, Ep, names_deleted. split; intros [Hk Hq]; (split; [done|]).
    + destruct (cn_names _ Hc k r Hk) as [q Hpq]. exists q. apply promotions_deleted. by eauto.
    + destruct Hq as [q [Hpq Hin]%promotions_deleted]. intros q' Hq'. congruence.
  - rewrite Er. apply map_subseteq_spec. intros i x [Hi _]%lookup_delete_where_Some. exact Hi.
  - intros i x Hx Hn. rewrite Er in Hn. apply (proj1 (lookup_delete_where_None _ _ _)) with x in Hn; [|exact Hx].
    apply bool_decide_eq_true, orphan_requests_old in Hn as (y & Hy & Hl & Hno).
    change (requests db !! i = Some y) in Hy. simplify_eq. rewrite Et. done.
Qed.

(* -------------------------------------------------------------------- *)
(** ** Lemmas: counting *)

(** What a table has more of than another: the keys listed. *)
Lemma count_where_less {K V} `{Countable K} (p q : K → V → bool) (m m' : gmap K V) (ids : list K) :
  NoDup ids → (∀ k, k ∈ ids → ∃ v, m !! k = Some v ∧ p k v = true) →
  (∀ k, (∃ v, m' !! k = Some v ∧ q k v = true) ↔ k ∉ ids ∧ ∃ v, m !! k = Some v ∧ p k v = true) →
  (count_where q m' + length ids = count_where p m)%nat.
Proof.
  intros Hnd Hin Hiff. unfold count_where.
  rewrite <-(length_fmap fst (select_where q m')), <-(length_fmap fst (select_where p m)), <-length_app.
  assert (∀ (f : K → V → bool) (n : gmap K V) k, k ∈ (select_where f n).*1 ↔ ∃ v, n !! k = Some v ∧ f k v = true) as Hsel.
  { intros f n k. rewrite list_elem_of_fmap. split.
    - intros ([k' v] & -> & Hk%elem_of_select_where). by exists v.
    - intros [v Hv]. exists (k, v). split; [done|]. by apply elem_of_select_where. }
  apply Permutation_length, NoDup_Permutation.
  - apply NoDup_app. split_and!; [apply NoDup_select_where| |done]. intros k [Hno _]%Hsel%Hiff. exact Hno.
  - apply NoDup_select_where.
  - intros k. rewrite elem_of_app, !Hsel, Hiff. destruct (decide (k ∈ ids)) as [Hk|Hk]; [|tauto].
    pose proof (Hin k Hk). tauto.
Qed.

Section limited_count.
Context {K V : Type} `{Countable K} (p : K → V → bool) (n : nat) (m : gmap K V).

Lemma delete_limited_count :
  (count_where p (delete_where (λ i _, bool_decide (i ∈ limited p n m)) m) + n `min` count_where p m = count_where p m)%nat.
Proof using.
  rewrite <-length_limited. apply count_where_less; [apply NoDup_limited|apply elem_of_limited|].
  intros k. setoid_rewrite delete_limited_lookup. naive_solver.
Qed.
End limited_count.

(* -------------------------------------------------------------------- *)
(** ** Lemmas: the runs of a release *)

Lemma newer_run_irrefl a : newer_run a a = false.
Proof. unfold newer_run. rewrite Z.eqb_refl. apply (ll_irrefl (λ x : string, x) String.eqb String.ltb). Qed.

Lemma newer_run_trans a b c : newer_run a b = true → newer_run b c = true → newer_run a c = true.
Proof.
  unfold newer_run. destruct (Z.eqb_spec (cm_started a.2) (cm_started b.2)) as [E1|E1],
    (Z.eqb_spec (cm_started b.2) (cm_started c.2)) as [E2|E2], (Z.eqb_spec (cm_started a.2) (cm_started c.2)) as [E3|E3];
    simpl; rewrite ?Z.ltb_lt; try lia.
  intros H1 H2. by apply (ll_trans (LinearLess := string_linear)) with b.1.
Qed.

Lemma newer_run_started a b : newer_run a b = true → cm_started b.2 ≤ cm_started a.2.
Proof. unfold newer_run. destruct (Z.eqb_spec (cm_started a.2) (cm_started b.2)); simpl; rewrite ?Z.ltb_lt; lia. Qed.

Lemma newer_run_total a b : a.1 ≠ b.1 → newer_run a b = true ∨ newer_run b a = true.
Proof.
  intros Hne. unfold newer_run. rewrite (Z.eqb_sym (cm_started b.2)).
  destruct (Z.eqb_spec (cm_started a.2) (cm_started b.2)) as [E|E]; simpl; [|rewrite !Z.ltb_lt; lia].
  by apply (ll_total (LinearLess := string_linear)).
Qed.

(** The runs of the same release that are newer. *)
Definition is_newer_peer (i : string) (r : compliance_run) (j : string) (s : compliance_run) : bool :=
  bool_decide (cm_package s = cm_package r) && newer_run (j, s) (i, r).

Lemma is_newer_peer_true i r j s :
  is_newer_peer i r j s = true ↔ cm_package s = cm_package r ∧ newer_run (j, s) (i, r) = true.
Proof. unfold is_newer_peer. by rewrite andb_true_iff, bool_decide_eq_true. Qed.

Section ranks.
Context (runs : gmap string compliance_run).

Lemma rank_newer i r j s : runs !! j = Some s → is_newer_peer i r j s = true → (run_rank runs j s < run_rank runs i r)%nat.
Proof using.
  intros Hj [Hp Hn]%is_newer_peer_true. unfold run_rank. apply -> Nat.succ_lt_mono.
  change (count_where (is_newer_peer j s) runs < count_where (is_newer_peer i r) runs)%nat. unfold count_where.
  apply (submseteq_length ((j, s) :: select_where (is_newer_peer j s) runs)), NoDup_submseteq.
  - apply NoDup_cons. split; [|eapply NoDup_fmap_1, NoDup_select_where].
    intros [_ [_ H]%is_newer_peer_true]%elem_of_select_where. by rewrite newer_run_irrefl in H.
  - intros [k v]. rewrite elem_of_cons, !elem_of_select_where, !is_newer_peer_true.
    intros [[= -> ->]|(Hk & Hq & Hv)]; [done|]. split; [done|]. split; [congruence|].
    by apply newer_run_trans with (j, s).
Qed.

(** The first run too old to stay: everything newer than it stays. *)
Lemma first_too_old k i r : runs !! i = Some r → (k < run_rank runs i r)%nat →
  ∃ j s, runs !! j = Some s ∧ cm_package s = cm_package r ∧ (k < run_rank runs j s)%nat ∧
    ∀ l v, runs !! l = Some v → is_newer_peer j s l v = true → (run_rank runs l v ≤ k)%nat.
Proof using.
  remember (run_rank runs i r) as n eqn:E. revert i r E. induction (lt_wf n) as [n _ IH]; intros i r -> Hi Hk.
  destruct (decide (exists_where (λ l v, is_newer_peer i r l v && (k <? run_rank runs l v)%nat) runs = true)) as [He|He].
  - apply exists_where_true in He as (l & v & Hl & [Hn Hv%Nat.ltb_lt]%andb_true_iff).
    destruct (IH _ (rank_newer i r l v Hl Hn) l v eq_refl Hl Hv) as (j & s & ? & Hp & ?).
    apply is_newer_peer_true in Hn as [Hq _]. exists j, s. split_and!; [done|congruence|tauto..].
  - apply not_true_is_false in He. rewrite exists_where_false in He. exists i, r. split_and!; [done..|].
    intros l v Hl Hn. specialize (He l v Hl). rewrite Hn in He. simpl in He. by apply Nat.ltb_ge in He.
Qed.

(** The oldest run of a release counts them all. *)
Lemma oldest_ranks_last p : (0 < count_where (λ _ s, bool_decide (cm_package s = p)) runs)%nat →
  ∃ i r, runs !! i = Some r ∧ cm_package r = p ∧
    (count_where (λ _ s, bool_decide (cm_package s = p)) runs ≤ run_rank runs i r)%nat.
Proof using.
  intros (i & r & Hi & Hp%bool_decide_eq_true)%count_where_pos.
  set (total := count_where _ runs).
  remember (total - run_rank runs i r)%nat as n eqn:E. revert i r Hi Hp E.
  induction (lt_wf n) as [n _ IH]; intros i r Hi Hp ->.
  destruct (decide (total ≤ run_rank runs i r)%nat) as [|Hlt]; [by exists i, r|].
  assert (¬ (∀ j s, runs !! j = Some s → bool_decide (cm_package s = p) = true → j ≠ i → is_newer_peer i r j s = true)) as Hno.
  { intros Hall. apply Hlt. unfold run_rank, total, count_where. apply (submseteq_length _ ((i, r) :: select_where (is_newer_peer i r) runs)).
    apply NoDup_submseteq; [eapply NoDup_fmap_1, NoDup_select_where|]. intros [j s]. rewrite elem_of_cons, !elem_of_select_where.
    intros [Hj Hs]. destruct (decide (j = i)) as [->|Hne]; [left; congruence|right; split; [done|by apply Hall]]. }
  destruct (exists_where (λ j s, bool_decide (cm_package s = p) && bool_decide (j ≠ i) && negb (is_newer_peer i r j s)) runs) eqn:He.
  - apply exists_where_true in He as (j & s & Hj & [[Hs%bool_decide_eq_true Hne%bool_decide_eq_true]%andb_true_iff Hn%negb_true_iff]%andb_true_iff).
    assert (is_newer_peer j s i r = true) as Hr.
    { apply is_newer_peer_true. split; [congruence|]. destruct (newer_run_total (i, r) (j, s)) as [?|H]; [simpl; congruence|done|].
      apply not_true_iff_false in Hn. destruct Hn. apply is_newer_peer_true. split; [congruence|done]. }
    pose proof (rank_newer j s i r Hi Hr). by apply (IH (total - run_rank runs j s)%nat) with j s; [lia|..].
  - destruct Hno. intros j s Hj Hs Hne. rewrite exists_where_false in He. specialize (He j s Hj).
    rewrite Hs, bool_decide_eq_true_2 in He by done. by apply negb_false_iff in He.
Qed.
End ranks.

(** A row selected from fewer runs has no later a rank. *)
Lemma rank_subseteq runs runs' i r : runs' ⊆ runs → (run_rank runs' i r ≤ run_rank runs i r)%nat.
Proof.
  intros Hsub. unfold run_rank. apply -> Nat.succ_le_mono. unfold count_where.
  apply submseteq_length, NoDup_submseteq; [eapply NoDup_fmap_1, NoDup_select_where|].
  intros [j s]. rewrite !elem_of_select_where. intros [Hj ?]. split; [|done]. by eapply lookup_weaken.
Qed.

(** C37. The newest runs stay.  Of each release the newest `keep` runs stay, one at
    the least, and a run that goes leaves behind that many of its release which
    started no earlier; the pass
    reports how many went, at most a batch; and one that did not fill its batch
    leaves no release with more than `keep`. *)
Theorem the_newest_runs_stay keep batch runs :
  let k := Z.to_nat (keep `max` 1) in
  let '(runs', n) := sweepComplianceRuns keep batch runs in
  runs' ⊆ runs ∧ (size runs' + n = size runs)%nat ∧ (n ≤ batch)%nat ∧
  (∀ i r, runs !! i = Some r → (run_rank runs i r ≤ k)%nat → runs' !! i = Some r) ∧
  (∀ i r, runs !! i = Some r → runs' !! i = None →
     (k ≤ count_where (λ _ s, bool_decide (cm_package s = cm_package r) && (cm_started r <=? cm_started s)%Z) runs')%nat) ∧
  (∀ i r, runs !! i = Some r → ∃ j s, runs' !! j = Some s ∧ cm_package s = cm_package r) ∧
  ((n < batch)%nat → ∀ p, (count_where (λ _ s, bool_decide (cm_package s = p)) runs' ≤ k)%nat).
Proof.
  intros k. unfold sweepComplianceRuns.
  assert (Z.to_nat (if keep <? 1 then 1 else keep) = k) as -> by (unfold k; destruct (Z.ltb_spec keep 1); f_equal; lia).
  assert (1 ≤ k)%nat as Hk by lia. clearbody k.
  set (old := λ i r, (k <? run_rank runs i r)%nat). change ((take batch (select_where old runs)).*1) with (limited old batch runs).
  set (runs' := delete_where _ runs).
  assert (runs' ⊆ runs) as Hsub by (apply map_subseteq_spec; intros i r [? _]%delete_limited_lookup; done).
  assert (∀ i r, runs !! i = Some r → (run_rank runs i r ≤ k)%nat → runs' !! i = Some r) as Hstay.
  { intros i r Hi Hr. apply delete_limited_lookup. split; [done|]. intros (s & Hs & Ho%Nat.ltb_lt)%elem_of_limited.
    simplify_eq. lia. }
  assert (∀ i r, runs !! i = Some r → runs' !! i = None → (k ≤ count_where (is_newer_peer i r) runs')%nat) as Hleft.
  { intros i r Hi Hn. assert (k < run_rank runs i r)%nat as Hr.
    { destruct (decide (run_rank runs i r ≤ k)%nat) as [Hle|]; [|lia]. rewrite (Hstay i r Hi Hle) in Hn. done. }
    destruct (first_too_old runs k i r Hi Hr) as (j & s & Hj & Hp & Hs & Hall). etrans; [apply Nat.lt_succ_r, Hs|].
    unfold count_where. apply submseteq_length, NoDup_submseteq; [eapply NoDup_fmap_1, NoDup_select_where|].
    intros [l v]. rewrite !elem_of_select_where. intros [Hl Hv]. pose proof (Hall l v Hl Hv) as Hle. split; [by apply Hstay|].
    apply is_newer_peer_true in Hv as [Hq Hv]. apply is_newer_peer_true. split; [congruence|].
    destruct (decide (l = i)) as [->|Hne]; [simplify_eq; lia|].
    destruct (newer_run_total (l, v) (i, r)) as [|Hn']; [done..|]. exfalso.
    assert (run_rank runs i r < run_rank runs l v)%nat; [|lia]. apply rank_newer; [done|].
    apply is_newer_peer_true. split; [congruence|done]. }
  split_and!; [done|apply delete_limited_size|rewrite length_limited; lia|done| | |].
  - intros i r Hi Hn. etrans; [by apply (Hleft i r)|]. apply count_where_mono. intros j s _ [Hp Ht]%is_newer_peer_true.
    rewrite andb_true_iff, bool_decide_eq_true, Z.leb_le. split; [done|by apply newer_run_started in Ht].
  - intros i r Hi. destruct (runs' !! i) as [s|] eqn:E; [exists i, s; split; [done|]; eapply lookup_weaken in E; [|done]; congruence|].
    pose proof (Hleft i r Hi E) as Hc. destruct (proj1 (count_where_pos (is_newer_peer i r) runs')) as (j & s & Hj & [? _]%is_newer_peer_true); [lia|].
    by exists j, s.
  - intros Hn p. destruct (decide (0 < count_where (λ _ s, bool_decide (cm_package s = p)) runs')%nat) as [Hc|]; [|lia].
    destruct (oldest_ranks_last runs' p Hc) as (i & r & Hi & Hp & Hle). etrans; [exact Hle|].
    etrans; [by apply rank_subseteq|]. apply delete_limited_lookup in Hi as [Hi Hno].
    destruct (decide (run_rank runs i r ≤ k)%nat) as [|Hgt]; [done|]. destruct Hno.
    rewrite length_limited in Hn. apply limited_all with r; [lia|done|]. unfold old. apply Nat.ltb_lt. lia.
Qed.

(* -------------------------------------------------------------------- *)
(** ** Passes one after another *)

Section passes.
Context (now ttl : Z) (batch : nat).

#[local] Abbreviation pass := (sweep_work now ttl batch).
#[local] Abbreviation overdue db := (count_where (is_settled_before (cutoff now ttl)) (transfers db)).
#[local] Abbreviation orphans db := (count_where (is_orphan_before (cutoff now ttl) db) (requests db)).

Lemma unhooked_settled (gone : string → Prop) `{∀ x, Decision (gone x)} at_ t x :
  is_settled_before at_ t (unhooked gone x) = is_settled_before at_ t x.
Proof using. unfold unhooked. destruct (t_depends_on x); [by case_decide|done]. Qed.

Lemma pass_overdue db : (overdue (pass db) + batch `min` overdue db = overdue db)%nat.
Proof using.
  rewrite <-(length_limited (is_settled_before (cutoff now ttl)) batch). apply count_where_less.
  - apply NoDup_limited.
  - apply elem_of_limited.
  - intros t. change (transfers (pass db)) with (transfers (delete_transfers (settled_transfers now ttl batch db) db)).
    setoid_rewrite transfers_deleted. split.
    + intros (y & (x & Hx & Hin & ->) & Hp). rewrite unhooked_settled in Hp. split; [done|]. by exists x.
    + intros (Hin & x & Hx & Hp). eexists. split; [exists x; split_and!; done|]. by rewrite unhooked_settled.
Qed.

Lemma pass_requests db : requests (pass db) ⊆ requests db.
Proof using. apply map_subseteq_spec. intros i r [Hi _]%lookup_delete_where_Some. exact Hi. Qed.

(** With no transfer to take, the transfers stay and the requests are next. *)
Lemma pass_idle db : overdue db = O →
  settled_transfers now ttl batch db = [] ∧ transfers (pass db) = transfers db ∧
  (orphans (pass db) + batch `min` orphans db = orphans db)%nat.
Proof using.
  intros Ho. assert (settled_transfers now ttl batch db = []) as E.
  { apply length_zero_iff_nil. unfold settled_transfers. fold (limited (is_settled_before (cutoff now ttl)) batch (transfers db)).
    rewrite length_limited. lia. }
  assert ((deleteSettledTransfers now ttl batch db).1 = db) as E1.
  { unfold deleteSettledTransfers. rewrite E. apply delete_transfers_nil. }
  split; [done|]. unfold sweep_work. rewrite E1. split; [done|].
  unfold deleteOrphanRequests, orphan_requests. fold (limited (is_orphan_before (cutoff now ttl) db) batch (requests db)).
  exact (delete_limited_count (is_orphan_before (cutoff now ttl) db) batch (requests db)).
Qed.

Lemma pass_rest db : overdue db = O → orphans db = O → pass db = db.
Proof using.
  intros Ho Hr. unfold sweep_work, deleteSettledTransfers. destruct (pass_idle db Ho) as (-> & _ & _).
  rewrite delete_transfers_nil. cbn [fst]. unfold deleteOrphanRequests.
  assert (orphan_requests now ttl batch db = []) as ->.
  { apply length_zero_iff_nil. etrans; [apply (length_limited (is_orphan_before (cutoff now ttl) db))|lia]. }
  assert (delete_where (λ i _, bool_decide (i ∈ [])) (requests db) = requests db) as Er.
  { apply map_eq. intros i. apply option_eq. intros r. rewrite lookup_delete_where_Some, bool_decide_eq_false.
    pose proof (not_elem_of_nil i). tauto. }
  destruct db. simpl in *. unfold update_field. simpl. f_equal. exact Er.
Qed.

Lemma passes_overdue n db : (overdue (Nat.iter n pass db) ≤ overdue db - n * batch)%nat.
Proof using.
  induction n as [|n IH]; [simpl; lia|]. rewrite Nat.iter_succ. pose proof (pass_overdue (Nat.iter n pass db)). lia.
Qed.

Lemma passes_requests n db : requests (Nat.iter n pass db) ⊆ requests db.
Proof using. induction n as [|n IH]; [done|]. rewrite Nat.iter_succ. etrans; [apply pass_requests|done]. Qed.

Lemma passes_orphans n db : overdue db = O → (orphans (Nat.iter n pass db) ≤ orphans db - n * batch)%nat.
Proof using.
  intros Ho. induction n as [|n IH]; [simpl; lia|]. rewrite Nat.iter_succ.
  pose proof (passes_overdue n db). destruct (pass_idle (Nat.iter n pass db)) as (_ & _ & ?); lia.
Qed.

(** Sweeping catches up.  When the settled transfers past their retention are
    at most `n` batches and the requests that old at most `m`, then after `n + m`
    passes no such transfer is left, no request that old is empty, and another pass
    finds nothing. *)
Theorem sweeps_catch_up n m db :
  (overdue db ≤ n * batch)%nat →
  (count_where (λ _ r, (r_created r <? cutoff now ttl)%Z) (requests db) ≤ m * batch)%nat →
  let db' := Nat.iter (m + n) pass db in
  (∀ t x, transfers db' !! t = Some x → is_settled_before (cutoff now ttl) t x = false) ∧
  (∀ i r, requests db' !! i = Some r → is_orphan_before (cutoff now ttl) db' i r = false) ∧
  pass db' = db'.
Proof using.
  intros Hn Hm db'. unfold db'. rewrite Nat.iter_add. pose proof (passes_overdue n db) as H1.
  pose proof (passes_requests n db) as Hsub. set (d1 := Nat.iter n pass db) in *. assert (overdue d1 = O) as Ho by lia.
  pose proof (passes_overdue m d1) as H2. pose proof (passes_orphans m d1 Ho) as H3.
  assert (orphans d1 ≤ count_where (λ _ r, (r_created r <? cutoff now ttl)%Z) (requests db))%nat as H4.
  { unfold count_where. apply submseteq_length, NoDup_submseteq; [eapply NoDup_fmap_1, NoDup_select_where|].
    intros [i r]. rewrite !elem_of_select_where. unfold is_orphan_before. rewrite andb_true_iff. intros (Hi & Hr & _).
    split; [|done]. by eapply lookup_weaken. }
  split_and!; [apply count_where_zero; lia|apply count_where_zero; lia|apply pass_rest; lia].
Qed.
End passes.

(* -------------------------------------------------------------------- *)
(** ** What a sweep reports *)

Lemma deleteBatch_spec now ttl batch table :
  let '(table', n) := deleteBatch now ttl batch table in
  table' ⊆ table ∧ (size table' + n = size table)%nat ∧ (n ≤ batch)%nat ∧
  (∀ i at_, table !! i = Some at_ → table' !! i = None → at_ < cutoff now ttl) ∧
  ((n < batch)%nat → ∀ i at_, table' !! i = Some at_ → cutoff now ttl ≤ at_).
Proof.
  unfold deleteBatch. set (old := λ (_ : Z) t, t <? cutoff now ttl).
  change ((take batch (select_where old table)).*1) with (limited old batch table).
  split_and!.
  - apply map_subseteq_spec. intros i r [? _]%delete_limited_lookup. done.
  - apply delete_limited_size.
  - rewrite length_limited. lia.
  - intros i at_ Hi Hn. by apply Z.ltb_lt, (delete_limited_gone old batch table i).
  - intros Hn i at_ [Hi Hno]%delete_limited_lookup. rewrite length_limited in Hn.
    destruct (decide (cutoff now ttl ≤ at_)) as [|Hlt]; [done|]. destruct Hno.
    apply limited_all with at_; [lia|done|]. apply Z.ltb_lt. lia.
Qed.

Lemma delete_transfers_size now ttl batch db :
  (size (transfers (delete_transfers (settled_transfers now ttl batch db) db)) + length (settled_transfers now ttl batch db) =
     size (transfers db))%nat.
Proof.
  rewrite <-(delete_limited_size (is_settled_before (cutoff now ttl)) batch (transfers db)). f_equal.
  unfold delete_transfers. simpl. by rewrite <-!size_dom, dom_update_where.
Qed.

Lemma cutoff_floor now ttl : cutoff now ttl ≤ now - 1000000000.
Proof. unfold cutoff, seconds. destruct (Z.ltb_spec 0 (Z.quot ttl 1000000000)); lia. Qed.

(** What one part takes of its table when its TTL is set. *)
Definition expires (now ttl : Z) (batch : nat) (table table' : gmap Z Z) (n : nat) : Prop :=
  if 0 <? ttl then
    table' ⊆ table ∧ (size table' + n = size table)%nat ∧ (n ≤ batch)%nat ∧
    (∀ i at_, table !! i = Some at_ → table' !! i = None → at_ < cutoff now ttl) ∧
    ((n < batch)%nat → ∀ i at_, table' !! i = Some at_ → cutoff now ttl ≤ at_)
  else table' = table ∧ n = O.

Lemma deleteBatch_expires now ttl batch table :
  let '(table', n) := if 0 <? ttl then deleteBatch now ttl batch table else (table, O) in
  expires now ttl batch table table' n.
Proof. unfold expires. destruct (0 <? ttl); [apply deleteBatch_spec|done]. Qed.

Lemma deletePlacements_spec now ttl db :
  let '(db', n) := if 0 <? ttl then deletePlacements now ttl db else (db, O) in
  db' = db <| placements := placements db' |> ∧ (size (placements db') + n = size (placements db))%nat ∧
  ∀ k b, placements db' !! k = Some b ↔ placements db !! k = Some b ∧ (0 < ttl → cutoff now ttl ≤ bp_verified b).
Proof.
  destruct (Z.ltb_spec 0 ttl) as [Ht|Ht]; cycle 1.
  { split; [by destruct db|]. split; [lia|]. intros k b. split; [|tauto]. intros Hk. split; [done|lia]. }
  unfold deletePlacements. set (old := λ (_ : Z * string) b, bp_verified b <? cutoff now ttl). split; [done|].
  change (placements (db <| placements ::= delete_where old |>)) with (delete_where old (placements db)).
  split; [|intros k b; rewrite lookup_delete_where_Some; unfold old; rewrite Z.ltb_ge; naive_solver].
  assert (delete_where old (placements db) =
    delete_where (λ i _, bool_decide (i ∈ limited old (count_where old (placements db)) (placements db))) (placements db)) as ->.
  { apply map_eq. intros k. apply option_eq. intros b. rewrite delete_limited_lookup, lookup_delete_where_Some.
    split; intros [Hk Ho]; (split; [done|]).
    - intros (v & Hv & Hp)%elem_of_limited. congruence.
    - apply not_true_is_false. intros Hp. apply Ho. by apply limited_all with b. }
  etrans; [|apply (delete_limited_size old (count_where old (placements db)))]. rewrite length_limited. lia.
Qed.

Lemma deleteSettled_part now ttl batch db :
  let '(db', n, m) :=
    if 0 <? ttl then
      let '(db, n) := deleteSettledTransfers now ttl batch db in
      let '(db, m) := deleteOrphanRequests now ttl batch db in (db, n, m)
    else (db, O, O) in
  (size (transfers db') + n = size (transfers db) ∧ n ≤ batch)%nat ∧
  (size (requests db') + m = size (requests db) ∧ m ≤ batch)%nat ∧
  placements db' = placements db ∧ (ttl ≤ 0 → db' = db).
Proof.
  destruct (Z.ltb_spec 0 ttl) as [Ht|Ht]; [|split_and!; first [done|lia]].
  unfold deleteSettledTransfers, deleteOrphanRequests. set (d1 := delete_transfers _ db). split.
  { split; [apply delete_transfers_size|]. etrans; [apply Nat.eq_le_incl, (length_limited (is_settled_before (cutoff now ttl)))|lia]. }
  split; [|split; [done|lia]]. split; [apply (delete_limited_size (is_orphan_before (cutoff now ttl) d1) batch (requests db))|].
  etrans; [apply Nat.eq_le_incl, (length_limited (is_orphan_before (cutoff now ttl) d1))|lia].
Qed.

Lemma compliance_part keep batch runs :
  let '(runs', n) := if 0 <? keep then sweepComplianceRuns keep batch runs else (runs, O) in
  (size runs' + n = size runs ∧ n ≤ batch)%nat ∧ (keep ≤ 0 → runs' = runs).
Proof.
  destruct (Z.ltb_spec 0 keep) as [Hk|Hk]; [|split_and!; first [done|lia]].
  unfold sweepComplianceRuns. set (old := λ i r, (_ <? run_rank runs i r)%nat).
  split; [|lia]. split; [apply (delete_limited_size old batch runs)|].
  etrans; [apply Nat.eq_le_incl, (length_limited old)|lia].
Qed.

(** A sweep reports what it took.  Each number is the rows the table lost, and
    no pass but the placements' takes more than a batch.  A log line or audit row
    that goes is older than its cutoff, and a pass that did not fill its batch leaves
    none that old; of the placements exactly those not confirmed since go.  What
    has no retention set is as it was, and nothing written within the last second
    is old, however short the retention. *)
Theorem a_sweep_reports_what_it_took now p h :
  let '(h', r) := SweepRetention now p h in
  let batch := batch_of p in
  (0 < batch)%nat ∧ (∀ ttl, cutoff now ttl ≤ now - 1000000000) ∧
  (size (transfers (hi_db h')) + rt_Transfers r = size (transfers (hi_db h)) ∧ rt_Transfers r ≤ batch)%nat ∧
  (size (requests (hi_db h')) + rt_Requests r = size (requests (hi_db h)) ∧ rt_Requests r ≤ batch)%nat ∧
  expires now (rp_WorkerLogs p) batch (hi_logs h) (hi_logs h') (rt_WorkerLogs r) ∧
  expires now (rp_AuditEvents p) batch (hi_audit h) (hi_audit h') (rt_AuditEvents r) ∧
  (size (placements (hi_db h')) + rt_Placements r = size (placements (hi_db h)))%nat ∧
  (∀ k b, placements (hi_db h') !! k = Some b ↔
     placements (hi_db h) !! k = Some b ∧ (0 < rp_Placements p → cutoff now (rp_Placements p) ≤ bp_verified b)) ∧
  (size (hi_runs h') + rt_ComplianceRuns r = size (hi_runs h) ∧ rt_ComplianceRuns r ≤ batch)%nat ∧
  (rp_ComplianceRuns p ≤ 0 → hi_runs h' = hi_runs h) ∧
  (rp_Transfers p ≤ 0 → hi_db h' = (hi_db h) <| placements := placements (hi_db h') |>) ∧
  (Enabled p = false → h' = h ∧ Rows r = O).
Proof.
  unfold SweepRetention. set (batch := batch_of p).
  assert (0 < batch)%nat as Hb by (unfold batch, batch_of, DefaultBatchSize; destruct (Z.leb_spec (rp_BatchSize p) 0); lia).
  clearbody batch.
  pose proof (deleteSettled_part now (rp_Transfers p) batch (hi_db h)) as Hw.
  pose proof (deleteBatch_expires now (rp_WorkerLogs p) batch (hi_logs h)) as Hl.
  pose proof (deleteBatch_expires now (rp_AuditEvents p) batch (hi_audit h)) as Ha.
  pose proof (compliance_part (rp_ComplianceRuns p) batch (hi_runs h)) as Hr.
  destruct (if 0 <? rp_Transfers p then _ else _) as [[d n] m]. destruct Hw as (Hn & Hm & Hpl & Hnot).
  destruct (if 0 <? rp_WorkerLogs p then _ else _) as [logs lines].
  destruct (if 0 <? rp_AuditEvents p then _ else _) as [audit events].
  destruct (if 0 <? rp_ComplianceRuns p then _ else _) as [runs swept]. destruct Hr as (Hs & Hkeep).
  pose proof (deletePlacements_spec now (rp_Placements p) d) as Hp.
  destruct (if 0 <? rp_Placements p then _ else _) as [d' placed] eqn:Ed. destruct Hp as (Hd & Hsz & Hin).
  rewrite Hpl in Hsz, Hin. cbn [hi_db hi_logs hi_audit hi_runs rt_Transfers rt_Requests rt_WorkerLogs rt_AuditEvents rt_Placements rt_ComplianceRuns].
  assert (transfers d' = transfers d) as -> by (by rewrite Hd). assert (requests d' = requests d) as -> by (by rewrite Hd).
  split_and!; try done; try tauto; [intros ttl; apply cutoff_floor|intros H; by rewrite <-(Hnot H)|].
  unfold Enabled. rewrite !orb_false_iff, !Z.ltb_ge. intros [[[[H1 H2] H3] H4] H5].
  apply Z.ltb_ge in H2 as E2, H3 as E3, H4 as E4. unfold expires in Hl, Ha. rewrite E2 in Hl. rewrite E3 in Ha.
  rewrite E4 in Ed. injection Ed as <- <-. destruct Hl as [-> ->], Ha as [-> ->].
  rewrite (Hkeep H5) in *. rewrite (Hnot H1) in *. unfold Rows. cbn. split; [by destruct h|lia].
Qed.

(* -------------------------------------------------------------------- *)
(** ** Witnesses and examples *)

Definition day : Z := 86400 * 1000000000.

(** A transfer that finished on day `done_`, of the request made the day before. *)
Definition finished (st : TransferState) (done_ : Z) : transfer :=
  (example_transfer st 2) <| t_request := "r" |> <| t_package := 7 |> <| t_source_repo := 1 |> <| t_target_repo := 2 |>
    <| t_created := (done_ - 1) * day |> <| t_completed := Some (done_ * day) |>.

Definition request_made (at_ : Z) : request := new_request (at_ * day) (mkTransferRequestRow "r" 1 7 "replicate" 1 100 "key" "" "" "").

Definition kept_db : DB :=
  catalog_db <| jobs := {[ 1 := example_job "t" KBlob "sha256:b" JobSucceeded 1;
                           2 := example_job "t" KManifest "sha256:m" JobSucceeded 2;
                           3 := example_job "u" KBlob "sha256:b" JobPending 1 ]} |>
    <| dependencies := {[ (2, 1) ]} |>
    <| transfers := {[ "t" := finished TransferSucceeded 10;
                       "u" := (example_transfer TransferRunning 2) <| t_request := "q" |> <| t_depends_on := Some "t" |> ]} |>
    <| requests := {[ "r" := request_made 9; "q" := request_made 100 ]} |>.

Lemma kept_db_consistent : consistent kept_db.
Proof.
  assert (map_Forall (λ _ r, is_Some (transfers kept_db !! j_transfer r)) (jobs kept_db)) as H1
    by (apply (bool_decide_unpack _); vm_compute; exact I).
  assert (set_Forall (λ e, is_Some (jobs kept_db !! e.1) ∧ is_Some (jobs kept_db !! e.2)) (dependencies kept_db)) as H2
    by (apply (bool_decide_unpack _); vm_compute; exact I).
  assert (map_Forall (λ _ r, ∀ d, d ∈ option_list (t_depends_on r) → is_Some (transfers kept_db !! d)) (transfers kept_db)) as H3.
  { eapply map_Forall_impl with (P := λ _ r, Forall (λ d, is_Some (transfers kept_db !! d)) (option_list (t_depends_on r))).
    - apply (bool_decide_unpack _). vm_compute. exact I.
    - intros _ r Hr d Hd. rewrite Forall_forall in Hr. by apply Hr. }
  assert (map_Forall (λ _ r, is_Some (requests kept_db !! t_request r)) (transfers kept_db)) as H4
    by (apply (bool_decide_unpack _); vm_compute; exact I).
  split; [exact H1|exact H2| |exact H4| |].
  - intros t r d Ht Hd. apply (H3 t r Ht). rewrite Hd. left.
  - intros i r Hi. change (promotions kept_db) with (∅ : gmap Z promotion) in Hi. by rewrite lookup_empty in Hi.
  - intros k r Hk. change (promotion_names kept_db) with (∅ : gmap (Z * Z) promotion_name) in Hk. by rewrite lookup_empty in Hk.
Qed.

(** Ninety days on: the transfer goes with its jobs, its request with it, and the
    step that waited for it waits for nothing. *)
Example a_settled_transfer_goes :
  let db := sweep_work (101 * day) (90 * day) 5000 kept_db in
  map_to_list (j_transfer <$> jobs db) = [(3, "u")] ∧ dependencies db = ∅ ∧
  map_to_list (t_depends_on <$> transfers db) = [("u", None)] ∧ (map_to_list (requests db)).*1 = ["q"].
Proof. vm_compute. split_and!; reflexivity. Qed.

(** Only the settled states a transfer is worked to are named: one that was skipped
    or diverged is as terminal and is kept for ever. *)
Example a_skipped_transfer_is_never_swept :
  IsTerminal Transfer TransferSkipped = true ∧ IsTerminal Transfer TransferDiverged = true ∧
  let db := kept_db <| transfers := {[ "t" := finished TransferSkipped 10; "v" := finished TransferDiverged 10 ]} |> in
  settled_transfers (100000 * day) day 5000 db = [].
Proof. vm_compute. split_and!; reflexivity. Qed.

(** Which target holds a release is read from the transfers that succeeded: a
    promotion that found its origin before a sweep is refused after it. *)
Example a_sweep_forgets_what_a_target_holds :
  let ask := asking "" ["production"] true false in
  let db := kept_db <| jobs := ∅ |> <| dependencies := ∅ |> <| transfers ::= delete "u" |> in
  rv_Name ∘ rs_Origin <$> (match (@Resolve example_catalog ask db).2 with inl _ => None | inr rs => Some rs end) = Some "lab-eu" ∧
  ∃ e, (@Resolve example_catalog ask (sweep_work (101 * day) (90 * day) 5000 db)).2 = inl e.
Proof. vm_compute. split; [reflexivity|eexists; reflexivity]. Qed.

Lemma a_sweep_takes_only_what_is_over_witness : consistent (sweep_work (101 * day) (90 * day) 5000 kept_db).
Proof. exact (proj1 (a_sweep_takes_only_what_is_over (101 * day) (90 * day) 5000 kept_db kept_db_consistent)). Defined.

#[local] Abbreviation one := (sweep_work (101 * day) (90 * day) 1).

Lemma sweeps_catch_up_witness : size (transfers (one kept_db)) ≠ size (transfers kept_db) ∧
  one (Nat.iter (1 + 1) one kept_db) = Nat.iter (1 + 1) one kept_db.
Proof.
  split; [vm_compute; discriminate|].
  refine (proj2 (proj2 (sweeps_catch_up (101 * day) (90 * day) 1 1 1 kept_db _ _))); vm_compute; reflexivity || lia.
Defined.
