(* ===== verification/QueueSystem.v ===== *)
(** * The queue as a transition system

    Every operation of the store that writes jobs, as one step of a relation on
    the database, in any order: planning, leasing, heartbeats and progress,
    completions, the fleet's rows, the reaper and the recovery passes, retries, operator
    control, the expander's statements and the retention sweep.  The file proves what no interleaving of them can break: the
    well-formedness of each job row, the identity of its work, and the job
    lifecycle of internal/platform/statemachine. *)

From S2P Require Import Prelude StateMachine Backoff Schema Dependencies Leasing Completion.
From S2P Require Import Promotions Recovery Control Layout Planning Planner Fleet Backlog Retention.
Open Scope Z_scope.

(* -------------------------------------------------------------------- *)
(** ** Well-formed rows and how they may change *)

(** A job has an owner and an expiry exactly while it is leased, a completion
    time exactly when it has ended, a repair level within the ceiling and a
    count of attempts. *)
Definition job_ok (j : job) : Prop :=
  (j_state j = JobLeased ↔ is_Some (j_lease_owner j)) ∧
  (j_state j = JobLeased ↔ is_Some (j_lease_expires j)) ∧
  (job_state_terminal (j_state j) = true ↔ is_Some (j_completed j)) ∧
  0 ≤ j_repair_level j ≤ MaxRepairLevel ∧ 0 ≤ j_attempts j ∧ j_state j ≠ JobStateZero.

#[export] Instance is_Some_option_dec {A} (o : option A) : Decision (is_Some o).
Proof. apply _. Defined.

#[export] Instance job_ok_dec j : Decision (job_ok j).
Proof. unfold job_ok. apply _. Defined.

(** What a job is, fixed when it is planned. *)
Definition work_of (j : job) :=
  (j_transfer j, j_kind j, j_digest j, j_size j, j_media_type j, j_artifact j, j_source_repo j,
   j_target_repo j, j_wave j, j_max_attempts j, j_site_rank j, j_target_tags j,
   j_target_repository j).

(** The state changes one operation may make. *)
Notation moves := (list (JobState * JobState)).

Definition moved (L : moves) (s s' : JobState) : Prop := s' = s ∨ (s, s') ∈ L.

(** Two changes in a row are no more than one. *)
Class Closed (L : moves) : Prop := closed_trans a b c : moved L a b → moved L b c → moved L a c.

Definition closedb (L : moves) : bool :=
  forallb (λ p, forallb (λ q, bool_decide (p.2 = q.1 → q.2 = p.1 ∨ (p.1, q.2) ∈ L)) L) L.

Lemma closedb_sound L : closedb L = true → Closed L.
Proof.
  unfold closedb. rewrite forallb_forall. intros Hall a b c [->|Hab] [->|Hbc]; try (by left); try (by right).
  specialize (Hall _ (proj1 (list_elem_of_In _ _) Hab)). rewrite forallb_forall in Hall.
  specialize (Hall _ (proj1 (list_elem_of_In _ _) Hbc)). apply bool_decide_eq_true in Hall. by apply Hall.
Qed.

#[export] Instance closed_nil : Closed [].
Proof. by apply closedb_sound. Qed.

(** One row under one operation: the same work, a move of [L], and
    well-formed if it was. *)
Definition evolves (L : moves) (j j' : job) : Prop :=
  work_of j' = work_of j ∧ moved L (j_state j) (j_state j') ∧ (job_ok j → job_ok j').

#[export] Instance evolves_reflexive L : Reflexive (evolves L).
Proof. intros j. split_and!; [done|by left|done]. Qed.

#[export] Instance evolves_preorder L `{!Closed L} : PreOrder (evolves L).
Proof.
  split; [apply _|]. intros j1 j2 j3 (W12 & M12 & H12) (W23 & M23 & H23).
  split_and!; [congruence|by eapply closed_trans|tauto].
Qed.

Definition evolve (L : Z → moves) (m m' : gmap Z job) : Prop := rows (λ i, evolves (L i)) m m'.

Lemma evolve_same L m : evolve L m m.
Proof. intros i. destruct (m !! i); by constructor. Qed.

#[export] Instance evolve_preorder L `{!Closed L} : PreOrder (evolve (λ _, L)).
Proof. apply (rows_preorder (λ _ : Z, evolves L)). intros _. apply _. Qed.

Lemma evolve_update_jobs L p f db :
  (∀ i j, jobs db !! i = Some j → p i j = true → evolves (L i) j (f i j)) →
  evolve L (jobs db) (jobs (update_jobs p f db)).
Proof.
  intros Hp i. rewrite lookup_update_jobs. destruct (jobs db !! i) as [j|] eqn:Hj; constructor.
  destruct (p i j) eqn:E; [by apply Hp|done].
Qed.

Lemma evolve_rows L (R : Z → job → job → Prop) m m' :
  (∀ i j j', m !! i = Some j → R i j j' → evolves (L i) j j') → rows R m m' → evolve L m m'.
Proof. intros HR Hr. by apply (rows_mono R (λ i, evolves (L i)) m m' HR). Qed.

(** A row keeps being well-formed if the columns of the invariant do. *)
Lemma evolves_to L j j' :
  work_of j' = work_of j → moved L (j_state j) (j_state j') →
  (job_ok j → (j_state j' = JobLeased ↔ is_Some (j_lease_owner j')) ∧
     (j_state j' = JobLeased ↔ is_Some (j_lease_expires j')) ∧
     (job_state_terminal (j_state j') = true ↔ is_Some (j_completed j')) ∧
     0 ≤ j_repair_level j' ≤ MaxRepairLevel ∧ 0 ≤ j_attempts j' ∧
     j_state j' ≠ JobStateZero) →
  evolves L j j'.
Proof. intros W M H. split_and!; [done|done|]. unfold job_ok in *. tauto. Qed.

Lemma idle_lease j :
  job_ok j → j_state j ≠ JobLeased → j_lease_owner j = None ∧ j_lease_expires j = None.
Proof.
  intros (Ho & He & _) Hs. split; apply eq_None_not_Some; naive_solver.
Qed.

Lemma open_completed j :
  job_ok j → job_state_terminal (j_state j) = false → j_completed j = None.
Proof. intros (_ & _ & Hc & _) Hs. apply eq_None_not_Some. intros ?%Hc. congruence. Qed.

Lemma no_lease_iff {A} s : s ≠ JobLeased → (s = JobLeased ↔ is_Some (@None A)).
Proof. intros Hs. split; [done|by intros []]. Qed.

Lemma open_iff {A} s : job_state_terminal s = false → (job_state_terminal s = true ↔ is_Some (@None A)).
Proof. intros ->. split; [done|by intros []]. Qed.

Lemma ended_iff {A} s (x : A) : job_state_terminal s = true → (job_state_terminal s = true ↔ is_Some (Some x)).
Proof. intros ->. split; [by eexists|done]. Qed.

(** [evolving]: the goal [evolves L j (set j)] for a SET clause, from what the
    clause leaves alone and the membership of its move in [L]. *)
Ltac evolving_columns :=
  intros Hok; simpl;
  try (let Hown := fresh "Hown" in let Hexp := fresh "Hexp" in
       destruct (idle_lease _ Hok) as [Hown Hexp]; [congruence|]; rewrite ?Hown, ?Hexp);
  try (rewrite (open_completed _ Hok) by (by repeat match goal with Hs : j_state _ = _ |- _ => rewrite Hs end));
  destruct Hok as (Ho & He & Hc & Hl & Ha & Hz);
  repeat match goal with
  | |- _ ∧ _ => split
  | |- (?s = JobLeased ↔ is_Some None) => apply no_lease_iff
  | |- (JobLeased = JobLeased ↔ is_Some (Some _)) => split; [by eexists|done]
  | |- (job_state_terminal ?s = true ↔ is_Some None) => apply open_iff
  | |- (job_state_terminal ?s = true ↔ is_Some (Some _)) => apply ended_iff
  end; try done; try lia.

Ltac evolving :=
  apply evolves_to;
  [done
  |simpl; repeat match goal with Hs : j_state _ = _ |- _ => rewrite Hs end; try (right; assumption)
  |evolving_columns].

(* -------------------------------------------------------------------- *)
(** ** The SET clauses *)

Section clauses.
Context (L : moves).

Lemma evolves_leased now o d j :
  (JobPending, JobLeased) ∈ L → j_state j = JobPending → evolves L j (set_leased now o d j).
Proof using Type. intros Hin Hs. evolving. Qed.

Lemma evolves_pending now i j :
  (JobBlocked, JobPending) ∈ L → j_state j = JobBlocked → evolves L j (set_pending now i j).
Proof using Type. intros Hin Hs. evolving. Qed.

Lemma evolves_failed_by_dependency now i j :
  (JobBlocked, JobFailed) ∈ L → j_state j = JobBlocked → evolves L j (fail_by_dependency now i j).
Proof using Type. intros Hin Hs. evolving. Qed.

Lemma evolves_outcome now draw c m j :
  (∀ s, s ∈ [JobSucceeded; JobSkipped; JobFailed; JobCancelled; JobPending] → (JobLeased, s) ∈ L) →
  j_state j = JobLeased → evolves L j (outcome_row now draw c m j).
Proof using Type.
  intros Hin Hs. unfold outcome_row. case_bool_decide as Hf.
  - unfold set_failed. destruct (m <=? j_attempts j); evolving; right; apply Hin; set_solver.
  - unfold set_finished, outcome_state. destruct (c_Outcome c); [| |done|];
      evolving; right; apply Hin; set_solver.
Qed.

(** The refused manifest, failed and put back in one transaction. *)
Lemma evolves_put_back now draw c m j :
  (JobLeased, JobBlocked) ∈ L → j_state j = JobLeased →
  evolves L j (set_reblocked now (set_failed now draw c m j)).
Proof using Type. intros Hin Hs. evolving. Qed.

Lemma evolves_put_back_doomed now draw c m i j :
  (JobLeased, JobFailed) ∈ L → j_state j = JobLeased →
  evolves L j (fail_by_dependency now i (set_reblocked now (set_failed now draw c m j))).
Proof using Type. intros Hin Hs. evolving. Qed.

Lemma evolves_repaired now j :
  (∀ s, s ∈ [JobSucceeded; JobSkipped; JobFailed] → (s, JobPending) ∈ L) →
  j_state j ∈ [JobSucceeded; JobSkipped; JobFailed; JobPending] → j_repair_level j < MaxRepairLevel →
  evolves L j (set_repaired now j).
Proof using Type.
  intros Hin Hs Hlt. evolving.
  rewrite !elem_of_cons, elem_of_nil in Hs.
  destruct Hs as [-> |[-> |[-> |[-> |[]]]]]; [right; apply Hin; set_solver..|by left].
Qed.

Lemma evolves_reaped now delay s j :
  (∀ s, s ∈ [JobPending; JobFailed; JobCancelled] → (JobLeased, s) ∈ L) →
  j_state j = JobLeased → s ∈ [JobPending; JobFailed; JobCancelled] → evolves L j (set_reaped now delay s j).
Proof using Type.
  intros HL Hs Hin. pose proof (HL s Hin) as Hm. unfold set_reaped.
  rewrite !elem_of_cons, elem_of_nil in Hin. destruct Hin as [-> |[-> |[-> |[]]]]; simpl; evolving.
Qed.

Lemma evolves_recovered now s j :
  (∀ s, s ∈ [JobPending; JobCancelled] → (JobLeased, s) ∈ L) →
  j_state j = JobLeased → s ∈ [JobPending; JobCancelled] → evolves L j (set_recovered now s j).
Proof using Type.
  intros HL Hs Hin. pose proof (HL s Hin) as Hm. unfold set_recovered.
  rewrite !elem_of_cons, elem_of_nil in Hin. destruct Hin as [-> |[-> |[]]]; simpl; evolving.
Qed.

Lemma evolves_cleared now i j :
  (JobFailed, JobBlocked) ∈ L → j_state j = JobFailed → evolves L j (clear_failure now i j).
Proof using Type. intros Hin Hs. evolving. Qed.

Lemma evolves_requeued now wave j :
  (JobFailed, JobBlocked) ∈ L → (JobFailed, JobPending) ∈ L →
  j_state j = JobFailed → evolves L j (set_requeued now wave j).
Proof using Type. intros H1 H2 Hs. unfold set_requeued. destruct (j_wave j <=? wave); evolving. Qed.

Lemma evolves_stopped now j :
  (JobPending, JobCancelled) ∈ L → (JobBlocked, JobCancelled) ∈ L →
  j_state j = JobPending ∨ j_state j = JobBlocked → evolves L j (cs_set (stop_spec now) j).
Proof using Type.
  intros H1 H2 Hs. assert (j_state j ≠ JobLeased) by (destruct Hs; congruence). simpl. evolving.
  by destruct Hs as [-> | ->]; right.
Qed.
End clauses.

(** A SET clause that leaves the state and the columns of the invariant. *)
Lemma evolves_aside L j j' :
  work_of j' = work_of j → j_state j' = j_state j → j_lease_owner j' = j_lease_owner j →
  (is_Some (j_lease_expires j) → is_Some (j_lease_expires j')) →
  (is_Some (j_lease_expires j') → j_state j = JobLeased ∨ is_Some (j_lease_expires j)) →
  j_completed j' = j_completed j → j_repair_level j' = j_repair_level j →
  j_attempts j' = j_attempts j → evolves L j j'.
Proof.
  intros W Hs Ho H1 H2 Hc Hl Ha. split_and!; [done|by left|]. unfold job_ok. rewrite Hs, Ho, Hc, Hl, Ha.
  intros (Hown & Hexp & Hrest). naive_solver.
Qed.

(* -------------------------------------------------------------------- *)
(** ** The moves of each operation *)

Definition lease_moves : moves := [(JobPending, JobLeased)].
Definition open_moves : moves := [(JobBlocked, JobPending)].
Definition cascade_moves : moves := [(JobBlocked, JobFailed)].

(** A completion on the reported job: its outcome, a retry, or a wait behind
    the content a repair requeues. *)
Definition report_moves : moves :=
  [(JobLeased, JobSucceeded); (JobLeased, JobSkipped); (JobLeased, JobFailed);
   (JobLeased, JobCancelled); (JobLeased, JobPending); (JobLeased, JobBlocked)].

(** And on the others: promotion and opening, the cascade, the repair. *)
Definition aftermath_moves : moves :=
  [(JobBlocked, JobPending); (JobBlocked, JobFailed);
   (JobSucceeded, JobPending); (JobSkipped, JobPending); (JobFailed, JobPending)].

Definition reap_moves : moves :=
  [(JobLeased, JobPending); (JobLeased, JobFailed); (JobLeased, JobCancelled)].
Definition recover_moves : moves := [(JobLeased, JobPending); (JobLeased, JobCancelled)].
Definition retry_moves : moves :=
  [(JobFailed, JobPending); (JobFailed, JobBlocked); (JobBlocked, JobPending)].
Definition stop_moves : moves := [(JobPending, JobCancelled); (JobBlocked, JobCancelled)].

#[export] Instance closed_retry : Closed retry_moves.
Proof. by apply closedb_sound. Qed.

Ltac listed := repeat first [by apply list_elem_of_here|apply list_elem_of_further].

(* -------------------------------------------------------------------- *)
(** ** The operations *)

Lemma evolve_LeaseJobs dialect now locked req db db' leased :
  LeaseJobs dialect now locked req db = Ok (db', leased) → evolve (λ _, lease_moves) (jobs db) (jobs db').
Proof.
  intros Hl. assert (∃ locked, LeaseJobs DriverPostgres now locked req db = Ok (db', leased)) as [lk Hl'].
  { destruct dialect; [by eauto|]. exists ∅. rewrite LeaseJobs_as_Postgres by done.
    change (LeaseJobs DriverSQLite now ∅ req db = Ok (db', leased)) in Hl.
    by rewrite LeaseJobs_as_Postgres in Hl. }
  revert Hl'. rewrite LeaseJobs_as_Postgres by done. case_bool_decide; [done|].
  destruct (Limit req <=? 0); [intros [= <- <-]; apply evolve_same|].
  cbv zeta. intros [<- _]%Ok_pair_inj. rewrite jobs_startTransfers. intros i.
  rewrite lease_lookup. destruct (jobs db !! i) as [j|] eqn:Hj; constructor.
  case_bool_decide as Hin; [|done].
  apply candidates_eligible in Hin as (j0 & Hj0 & (Hs & _)%leaseCandidatePredicate_true & _).
  simplify_eq. apply evolves_leased; [listed|done].
Qed.

Lemma evolve_RenewLeases now owner ids d db :
  evolve (λ _, []) (jobs db) (jobs (RenewLeases now owner ids d db).1).
Proof.
  unfold RenewLeases. case_bool_decide; [done|]. case_bool_decide; [done|].
  apply evolve_update_jobs. intros i j Hj [Hheld _]%andb_true_iff.
  apply andb_true_iff in Hheld as [_ Hs%bool_decide_eq_true].
  apply evolves_aside; try done; simpl; eauto.
Qed.

Lemma evolve_ReportProgress now id owner bytes db :
  evolve (λ _, []) (jobs db) (jobs (ReportProgress now id owner bytes db)).
Proof. apply evolve_update_jobs. intros i j Hj _. apply evolves_aside; simpl; auto. Qed.

(** What a completion does to a row: the stages of CompleteJob, on the reported
    job and on each of the others. *)
Lemma evolves_neighbour now c res j db i k k' :
  neighbour now c res j db i k k' → evolves aftermath_moves k k'.
Proof.
  intros [|Hq|? Hs|? Hs|? Hs]; [done| |apply evolves_pending; [listed|done]..|
    apply evolves_failed_by_dependency; [listed|done]].
  unfold requeued in Hq. destruct (refused_artifact c j); [|done].
  unfold repairable in Hq. rewrite !andb_true_iff, bool_decide_eq_true, Z.ltb_lt in Hq.
  destruct Hq as [[_ Hks] Hlt]. apply evolves_repaired; [|done|done].
  intros s0. rewrite !elem_of_cons, elem_of_nil. intros [->|[->|[->|[]]]]; listed.
Qed.

Section reported.
Context {now draw : Z} {c : Completion} {db db' db1 db2 db3 : DB}
  {res : CompletionResult} {j : job}.
Context (Hst : stages now draw c db db' res j db1 db2 db3).

Lemma reported_evolves :
  ∃ j', jobs db' !! c_JobID c = Some j' ∧ evolves report_moves j j'.
Proof using Hst.
  pose proof (st_held _ _ _ _ _ _ _ _ _ _ Hst) as [_ Hs]%held_by_true.
  assert (∀ s, s ∈ [JobSucceeded; JobSkipped; JobFailed; JobCancelled; JobPending] →
    (JobLeased, s) ∈ report_moves) as Hall.
  { intros s0. rewrite !elem_of_cons, elem_of_nil. intros [->|[->|[->|[->|[->|[]]]]]]; listed. }
  destruct (decide (rr_Blobs (Repaired res) = O)) as [Hz|Hz].
  { eexists. split; [by apply (stages_final_row Hst)|]. by apply evolves_outcome. }
  destruct (stages_repair Hst) as (Hcount & _ & Hrow). specialize (Hrow (c_JobID c)).
  rewrite bool_decide_eq_true_2, bool_decide_eq_false_2 in Hrow by done.
  assert (c_Outcome c = Failed) as Hf.
  { destruct (decide (c_Outcome c = Failed)); [done|]. destruct Hz. rewrite Hcount, count_where_zero.
    intros i k _. by rewrite requeued_failed. }
  unfold outcome_row in Hrow. rewrite bool_decide_eq_true_2 in Hrow by done.
  destruct (stages_reblocked Hst _ Hf Hrow) as [E|E]; try done; eexists; (split; [exact E|]).
  - apply evolves_put_back; [listed|done].
  - apply evolves_put_back_doomed; [listed|done].
Qed.
End reported.

Lemma evolve_CompleteJob now draw c db db' res :
  CompleteJob now draw c db = Ok (db', res) →
  evolve (λ i, if bool_decide (i = c_JobID c) then report_moves else aftermath_moves) (jobs db) (jobs db').
Proof.
  intros [(j & _ & _ & -> & _)|(_ & j & d1 & d2 & d3 & Hst)]%CompleteJob_stages; [apply evolve_same|].
  intros i. case_bool_decide as Hi.
  - subst i. destruct (reported_evolves Hst) as (j' & Hj' & He).
    rewrite Hj', (st_job _ _ _ _ _ _ _ _ _ _ Hst). by constructor.
  - pose proof (stages_neighbour Hst i Hi) as Hn. destruct (jobs db !! i) as [k|]; [|rewrite Hn; constructor].
    destruct Hn as (k' & -> & Hn). constructor. by eapply evolves_neighbour.
Qed.

Lemma evolve_update_each L g p db :
  (∀ k j, p k j = true → j_state j = JobLeased) →
  (∀ i j, jobs db !! i = Some j → p i j = true → evolves L j (g (i, j) j)) →
  evolve (λ _, L) (jobs db) (jobs (update_each g (select_where p (jobs db)) db)).
Proof.
  intros Hp Hg i. rewrite update_each_select by done.
  destruct (jobs db !! i) as [j|] eqn:Hj; constructor. destruct (p i j) eqn:E; [by apply Hg|done].
Qed.

Lemma evolve_ReapExpiredLeases now draw db :
  evolve (λ _, reap_moves) (jobs db) (jobs (ReapExpiredLeases now draw db).1).
Proof.
  unfold ReapExpiredLeases. cbn [fst].
  apply (evolve_update_each reap_moves (λ r, set_reaped now (retryDelay (j_attempts r.2) (draw r.1)) (reaped_state db r.2))).
  - intros k j. unfold lease_expired. rewrite !andb_true_iff, bool_decide_eq_true. tauto.
  - intros i j Hj Hp. apply evolves_reaped.
    + intros s0. rewrite !elem_of_cons, elem_of_nil. intros [->|[->|[->|[]]]]; listed.
    + unfold lease_expired in Hp. rewrite !andb_true_iff, bool_decide_eq_true in Hp. tauto.
    + unfold reaped_state. simpl. repeat case_match; set_solver.
Qed.

Lemma evolve_recoverLeases now query db : evolve (λ _, recover_moves) (jobs db) (jobs (recoverLeases now query db).1).
Proof.
  unfold recoverLeases. cbn [fst].
  apply (evolve_update_each recover_moves (λ r, set_recovered now (recovered_state db r.2))).
  - intros k j. rewrite !andb_true_iff, bool_decide_eq_true. tauto.
  - intros i j Hj. rewrite !andb_true_iff, bool_decide_eq_true. intros [[Hs _] _].
    apply evolves_recovered; [|done|].
    { intros s0. rewrite !elem_of_cons, elem_of_nil. intros [->|[->|[]]]; listed. }
    unfold recovered_state. simpl. repeat case_match; set_solver.
Qed.

Lemma evolve_FailUnreachable now db : evolve (λ _, cascade_moves) (jobs db) (jobs (failUnreachableEverywhere now db)).
Proof.
  destruct (failUnreachableEverywhere_frame now db) as [Hr _]. eapply evolve_rows; [|exact Hr].
  intros i j j' _ [->|[Hs ->]]; [done|]. apply evolves_failed_by_dependency; [listed|done].
Qed.

(** Passes over transfers whose steps leave the jobs alone. *)
Lemma jobs_foldl {A B} (f : DB * A → B → DB * A) l acc :
  (∀ acc x, jobs (f acc x).1 = jobs acc.1) → jobs (foldl f acc l).1 = jobs acc.1.
Proof. intros Hf. revert acc. induction l as [|x l IH]; intros acc; simpl; [done|]. by rewrite IH, Hf. Qed.

Lemma evolve_SettleStalledTransfers now db :
  evolve (λ _, cascade_moves) (jobs db) (jobs (SettleStalledTransfers now db).1).
Proof.
  unfold SettleStalledTransfers. rewrite (jobs_foldl (settle_stalled now)).
  - apply evolve_FailUnreachable.
  - intros [d l] t. unfold settle_stalled. by destruct (failureSummary t _).
Qed.

Lemma jobs_CloseStalledCancellations now db : jobs (CloseStalledCancellations now db).1 = jobs db.
Proof.
  unfold CloseStalledCancellations. simpl. generalize (ids_where (cancellation_stalled db) db) as l.
  intros l. revert db. induction l as [|t l IH]; intros db; simpl; [done|]. by rewrite IH.
Qed.

Lemma evolve_UnstickTransfers now db : evolve (λ _, open_moves) (jobs db) (jobs (UnstickTransfers now db).1).
Proof.
  destruct (UnstickTransfers_frame now db) as [Hr _]. eapply evolve_rows; [|exact Hr].
  intros i j j' _ [->|(Hs & _ & ->)]; [done|]. apply evolves_pending; [listed|done].
Qed.

Lemma jobs_retry_promotion now t s db : jobs (retry_promotion now t s db).1 = jobs db.
Proof. unfold retry_promotion, reopenPromotion. simpl. by case_bool_decide. Qed.

Lemma evolve_retry_jobs now t wave db : evolve (λ _, retry_moves) (jobs db) (jobs (retry_jobs now t wave db)).
Proof.
  intros i. rewrite lookup_retry_jobs. destruct (jobs db !! i) as [j|] eqn:Hj; constructor.
  destruct (failed_by_dependency t i j) eqn:Hd.
  - apply failed_by_dependency_true in Hd as (_ & Hs & _). apply evolves_cleared; [listed|done].
  - destruct (job_of t [JobFailed] i j) eqn:Hf; [|done].
    apply job_of_true in Hf as [_ Hs%list_elem_of_singleton]. apply evolves_requeued; [listed|listed|done].
Qed.

Lemma evolve_PromoteReadyJobs now t db : evolve (λ _, retry_moves) (jobs db) (jobs (PromoteReadyJobs now t db).1).
Proof.
  apply evolve_update_jobs. intros i j Hj (_ & Hs & _)%ready_with_edges_true.
  apply evolves_pending; [listed|done].
Qed.

Lemma evolve_RetryTransfer now t db db' res :
  RetryTransfer now t db = Ok (db', res) → evolve (λ _, retry_moves) (jobs db) (jobs db').
Proof.
  unfold RetryTransfer. intros (r & Hr & Hrest)%result_bind_Ok. case_bool_decide; [done|].
  case_bool_decide.
  { injection Hrest as Hp. rewrite <-(jobs_retry_promotion now t (t_state r) db), Hp. done. }
  revert Hrest. unfold ClearDependencyFailures at 1. cbv zeta.
  set (wave := retry_wave _ _ _).
  change (update_jobs (failed_by_dependency t) (clear_failure now) db) with
    (ClearDependencyFailures now t db).1.
  pose proof (evolve_retry_jobs now t wave db) as H1. unfold retry_jobs in H1.
  case_bool_decide; intros [= <- <-]; [exact H1|]. rewrite jobs_update_transfer.
  etrans; [exact H1|apply evolve_PromoteReadyJobs].
Qed.

Lemma evolve_AutoRetryTransfers now cooldown maxRounds db :
  evolve (λ _, retry_moves) (jobs db) (jobs (AutoRetryTransfers now cooldown maxRounds db).1).
Proof.
  unfold AutoRetryTransfers. destruct (maxRounds <=? 0); [done|].
  set (l := select_where _ _). clearbody l. change (jobs db) with (jobs (db, @nil AutoRetried).1).
  generalize (db, @nil AutoRetried) as acc. induction l as [|c l IH]; intros acc; [done|].
  simpl. etrans; [|apply IH]. unfold auto_retry_one.
  destruct (RetryTransfer now c.1 acc.1) as [[d res]|e] eqn:Hr; [|done].
  apply evolve_RetryTransfer in Hr. by case_bool_decide.
Qed.

Lemma evolve_control L now t spec db db' res :
  (∀ i j, jobs db !! i = Some j → cs_where spec t i j = true → evolves L j (cs_set spec j)) →
  control now t spec db = Ok (db', res) → evolve (λ _, L) (jobs db) (jobs db').
Proof.
  intros Hset (r & _ & _ & Hj & _)%control_Ok. rewrite Hj.
  exact (evolve_update_jobs (λ _, L) (cs_where spec t) (λ _, cs_set spec) db Hset).
Qed.

Lemma evolve_PauseTransfer now t db db' res :
  PauseTransfer now t db = Ok (db', res) → evolve (λ _, []) (jobs db) (jobs db').
Proof. apply evolve_control. intros i j _ _. apply evolves_aside; simpl; auto. Qed.

Lemma evolve_ResumeTransfer now t db db' res :
  ResumeTransfer now t db = Ok (db', res) → evolve (λ _, []) (jobs db) (jobs db').
Proof. apply evolve_control. intros i j _ _. apply evolves_aside; simpl; auto. Qed.

Lemma evolve_StopTransfer now t db db' res :
  StopTransfer now t db = Ok (db', res) → evolve (λ _, stop_moves) (jobs db) (jobs db').
Proof. apply evolve_control. intros i j _ [_ Hs]%not_started_true. apply evolves_stopped; [listed|listed|done]. Qed.

Lemma evolve_SetTransferPriority now t p db db' res :
  SetTransferPriority now t p db = Ok (db', res) → evolve (λ _, []) (jobs db) (jobs db').
Proof.
  unfold SetTransferPriority. case_bool_decide; [done|].
  intros (r & _ & Hrest)%result_bind_Ok. case_bool_decide; [done|]. injection Hrest as <- _.
  apply (evolve_update_jobs (λ _, []) (not_started t)). intros i j _ _. apply evolves_aside; simpl; auto.
Qed.

(* -------------------------------------------------------------------- *)
(** ** Rows a plan adds *)

(** Every old row is kept and every new one starts well-formed. *)
Definition grows (m m' : gmap Z job) : Prop :=
  m ⊆ m' ∧ ∀ i j, m' !! i = Some j → m !! i = None → job_ok j ∧ j_state j ∈ [JobPending; JobBlocked].

#[export] Instance grows_preorder : PreOrder grows.
Proof.
  split.
  - intros m. split; [done|]. intros i j Hi Hn. congruence.
  - intros m1 m2 m3 [S12 N12] [S23 N23]. split; [by etrans|]. intros i j Hj Hn.
    destruct (m2 !! i) as [k|] eqn:Hk; [|by eapply N23].
    pose proof (lookup_weaken _ _ _ _ Hk S23). simplify_eq. by eapply N12.
Qed.

Lemma grows_InsertJob `{RowIds} now row db db' id created :
  default JobPending (jr_State row) ∈ [JobPending; JobBlocked] →
  InsertJob now row db = Ok (db', id, created) → grows (jobs db) (jobs db').
Proof.
  intros Hs [(_ & -> & _)|(_ & -> & Hfree & _)]%InsertJob_Ok; [done|]. simpl. split.
  - by apply insert_subseteq.
  - intros i j [[<- <-]|[_ Hj]]%lookup_insert_Some Hn; [|congruence]. split; [|exact Hs].
    rewrite !elem_of_cons, elem_of_nil in Hs. unfold job_ok, MaxRepairLevel, RepairStreamOnly. simpl.
    destruct Hs as [-> |[-> |[]]]; (split_and!; [apply no_lease_iff|apply no_lease_iff|by apply open_iff|lia..|done]; done).
Qed.

Lemma grows_plan_jobs `{RowIds} now req tree layout destinations db st :
  plan_jobs now req tree layout destinations db = Ok st → grows (jobs db) (jobs (ps_db st)).
Proof.
  unfold plan_jobs. intros (blobs & _ & (st1 & H1 & H2)%result_bind_Ok)%result_bind_Ok.
  assert (grows (jobs db) (jobs (ps_db st1))) as Hg1.
  { revert H1. apply (fold_result_ind (λ _ st, grows (jobs db) (jobs (ps_db st)))); [done|].
    intros pre b post s1 s2 _ Hg. unfold plan_blob. destruct (bt_placed b); [by intros [= <-]|].
    intros ([[d id] created] & Hins & [= <-])%result_bind_Ok. simpl.
    etrans; [exact Hg|]. eapply grows_InsertJob; [|exact Hins]. left. }
  revert H2. apply (fold_result_ind (λ _ st, grows (jobs db) (jobs (ps_db st)))); [done|].
  intros pre [i a] post s1 s2 _ Hg. unfold plan_artifact.
  apply (fold_result_ind (λ _ st, grows (jobs db) (jobs (ps_db st)))); [done|].
  intros pre' [rank site] post' s3 s4 _ Hg'. unfold plan_site.
  intros (target & _ & ([[d id] created] & Hins & [= <-])%result_bind_Ok)%result_bind_Ok. simpl.
  etrans; [exact Hg'|]. eapply grows_InsertJob; [|exact Hins]. simpl. case_bool_decide; set_solver.
Qed.

(* -------------------------------------------------------------------- *)
(** ** Operations in any order *)

Inductive Op :=
  | OpCreateTransfer (now : Z) (row : TransferRow)
  | OpPlan (now : Z) (req : Request) (tree : ExpandedTree) (places : list Placement)
  | OpLease (dialect : Driver) (now : Z) (locked : gset Z) (req : LeaseRequest)
  | OpRenew (now : Z) (owner : string) (ids : list Z) (d : Z)
  | OpProgress (now id : Z) (owner : string) (bytes : Z)
  | OpComplete (now draw : Z) (c : Completion)
  | OpReap (now : Z) (draw : Z → Z)
  | OpRecoverOrphans (now staleAfter : Z)
  | OpRecoverWorker (now : Z) (owner : string)
  | OpSettleStalled (now : Z)
  | OpCloseCancellations (now : Z)
  | OpUnstick (now : Z)
  | OpFail (now : Z) (t reason : string)
  | OpRetry (now : Z) (t : string)
  | OpAutoRetry (now cooldown maxRounds : Z)
  | OpPause (now : Z) (t : string)
  | OpResume (now : Z) (t : string)
  | OpStop (now : Z) (t : string)
  | OpPriority (now : Z) (t : string) (priority : Z)
  | OpDelete (now : Z) (t : string)
  | OpOpenPromotion (now id : Z) (t promoter : string) (names : list PromotionName)
  | OpClaimPromotion (now : Z) (owner : string)
  | OpNamePromoted (now id position : Z)
  | OpNameFailed (id position : Z) (reason : string)
  | OpBeatPromotion (now id : Z) (owner : string)
  | OpSettlePromotion (now id : Z) (state reason : string)
  | OpRecordWorker (now : Z) (w : WorkerRow)
  | OpTouchWorker (now : Z) (id : string) (active : Z)
  | OpAccrue (now since : Z)
  | OpAdvanceSteps (now : Z)
  | OpRegister (productID : Z) (role name host path registryType : string)
  | OpMarkSyncing (now : Z) (t strategy : string)
  | OpSettleDelegated (now : Z) (t state reason : string)
  | OpSettleRequest (now : Z) (id : string)
  | OpSweep (now ttl : Z) (batch : nat).

(** The database one committed operation leaves. *)
Definition exec `{RowIds} (o : Op) (db : DB) : result DB :=
  match o with
  | OpCreateTransfer now row => fst <$> CreateTransfer now row db
  | OpPlan now req tree places => fst <$> Plan now req tree places db
  | OpLease dialect now locked req => fst <$> LeaseJobs dialect now locked req db
  | OpRenew now owner ids d => Ok (RenewLeases now owner ids d db).1
  | OpProgress now id owner bytes => Ok (ReportProgress now id owner bytes db)
  | OpComplete now draw c => fst <$> CompleteJob now draw c db
  | OpReap now draw => Ok (ReapExpiredLeases now draw db).1
  | OpRecoverOrphans now staleAfter => Ok (RecoverOrphanedLeases now staleAfter db).1
  | OpRecoverWorker now owner => Ok (RecoverWorkerLeases now owner db).1
  | OpSettleStalled now => Ok (SettleStalledTransfers now db).1
  | OpCloseCancellations now => Ok (CloseStalledCancellations now db).1
  | OpUnstick now => Ok (UnstickTransfers now db).1
  | OpFail now t reason => Ok (FailTransfer now t reason db)
  | OpRetry now t => fst <$> RetryTransfer now t db
  | OpAutoRetry now cooldown maxRounds => Ok (AutoRetryTransfers now cooldown maxRounds db).1
  | OpPause now t => fst <$> PauseTransfer now t db
  | OpResume now t => fst <$> ResumeTransfer now t db
  | OpStop now t => fst <$> StopTransfer now t db
  | OpPriority now t priority => fst <$> SetTransferPriority now t priority db
  | OpDelete now t => fst <$> DeleteTransfer now t db
  | OpOpenPromotion now id t promoter names => Open now id t promoter names db
  | OpClaimPromotion now owner => Ok (ClaimPromotion now owner db).1
  | OpNamePromoted now id position => Ok (NamePromoted now id position db)
  | OpNameFailed id position reason => Ok (NameFailed id position reason db)
  | OpBeatPromotion now id owner => Ok (Beat now id owner db)
  | OpSettlePromotion now id state reason => Settle now id state reason db
  | OpRecordWorker now w => Ok (RecordWorker now w db)
  | OpTouchWorker now id active => Ok (TouchWorker now id active db)
  | OpAccrue now since => Ok (AccrueActiveTime now since db).1
  | OpAdvanceSteps now => Ok (AdvanceSteps now db).1
  | OpRegister productID role name host path registryType =>
      fst <$> EnsureRepository productID role name host path registryType db
  | OpMarkSyncing now t strategy => Ok (MarkSyncing now t strategy db)
  | OpSettleDelegated now t state reason => SettleDelegated now t state reason db
  | OpSettleRequest now id => Ok (SettleRequest now id db)
  | OpSweep now ttl batch => Ok (sweep_work now ttl batch db)
  end.

(** A transaction that fails is rolled back. *)
Definition exec_or_rollback `{RowIds} (db : DB) (o : Op) : DB := ok_or db (exec o db).

Definition run `{RowIds} (db : DB) (ops : list Op) : DB := foldl exec_or_rollback db ops.

(** The state changes an operation may make to row [i]. *)
Definition moves_of (o : Op) (i : Z) : moves :=
  match o with
  | OpPlan _ _ _ _ | OpUnstick _ => open_moves
  | OpLease _ _ _ _ => lease_moves
  | OpComplete _ _ c => if bool_decide (i = c_JobID c) then report_moves else aftermath_moves
  | OpReap _ _ => reap_moves
  | OpRecoverOrphans _ _ | OpRecoverWorker _ _ => recover_moves
  | OpSettleStalled _ => cascade_moves
  | OpRetry _ _ | OpAutoRetry _ _ _ => retry_moves
  | OpStop _ _ => stop_moves
  | _ => []
  end.

Definition creates (o : Op) : bool := match o with OpPlan _ _ _ _ => true | _ => false end.
Definition deletes (o : Op) : bool :=
  match o with OpDelete _ _ | OpSweep _ _ _ => true | _ => false end.

(** One row under one operation: a row that stays evolves by the operation's
    moves, only a plan adds rows and only a deletion or a sweep removes them. *)
Definition row_step (o : Op) (i : Z) (before after : option job) : Prop :=
  match before, after with
  | Some j, Some j' => evolves (moves_of o i) j j'
  | None, Some j' => creates o = true ∧ job_ok j' ∧ j_state j' ∈ [JobPending; JobBlocked]
  | Some _, None => deletes o = true
  | None, None => True
  end.

Definition table_step (o : Op) (m m' : gmap Z job) : Prop := ∀ i, row_step o i (m !! i) (m' !! i).

Lemma table_step_evolve o m m' : evolve (moves_of o) m m' → table_step o m m'.
Proof. intros Hr i. by destruct (Hr i). Qed.

Lemma table_step_same o m : table_step o m m.
Proof. apply table_step_evolve, evolve_same. Qed.

Lemma table_step_deleted o m m' :
  deletes o = true → (∀ i j, m' !! i = Some j → m !! i = Some j) → table_step o m m'.
Proof.
  intros Hd Hsub i. unfold row_step. specialize (Hsub i).
  destruct (m' !! i) as [j|]; [by rewrite (Hsub j)|by destruct (m !! i)].
Qed.

Lemma table_step_Plan `{RowIds} now req tree places db db' report :
  Plan now req tree places db = Ok (db', report) →
  table_step (OpPlan now req tree places) (jobs db) (jobs db').
Proof.
  unfold Plan. case_bool_decide; [done|].
  intros ([db1 dest] & Hen & (st & Hpj & [= <- _])%result_bind_Ok)%result_bind_Ok.
  assert (jobs db1 = jobs db) as Hjobs.
  { revert Hen. unfold ensureDestinations.
    change (jobs db1 = jobs db) with (jobs (db1, dest).1 = jobs db).
    apply (fold_result_ind (λ _ s, jobs s.1 = jobs db)); [done|].
    intros pre s post [d o] [d' o'] _ Hd. simpl in *. unfold ensure_site.
    destruct (o !! _); [by intros [= <- <-]|]. destruct (_ || _); [by intros [= <- <-]|].
    intros ([d2 id] & [_ [->|(_ & -> & _)]]%EnsureRepository_Ok & [= <- <-])%result_bind_Ok; done. }
  apply grows_plan_jobs in Hpj. rewrite Hjobs in Hpj. destruct Hpj as [Hsub Hnew].
  set (d := AddJobDependencies _ _).
  assert (jobs d = jobs (ps_db st)) as Hd by (unfold d; by rewrite AddJobDependencies_frame).
  destruct (RecordPlan_rows now (q_TransferID req) (mkPlanTotals (pl_Jobs (ps_plan st))
    (pl_PlannedBytes (ps_plan st)) (pl_DedupeSkippedBytes (ps_plan st)) 0 (pl_MaxWave (ps_plan st))) d)
    as [_ Hrows].
  intros i. unfold row_step. specialize (Hrows i). rewrite Hd in Hrows.
  destruct (jobs db !! i) as [j0|] eqn:Hj0.
  - rewrite (lookup_weaken _ _ _ _ Hj0 Hsub) in Hrows. inversion Hrows as [? j' Hm E1 E2|].
    destruct Hm as [->|(_ & Hs & ->)]; [done|]. apply evolves_pending; [listed|done].
  - inversion Hrows as [j j' Hm E1 E2|]; [|done]. symmetry in E1. destruct (Hnew _ _ E1 Hj0) as [Hok Hs].
    split; [done|]. destruct Hm as [->|(_ & Hb & ->)]; [done|]. split; [|left].
    refine (proj2 (proj2 (evolves_pending open_moves now i j _ Hb)) Hok). listed.
Qed.

Ltac of_result Ho := apply result_fmap_Ok in Ho as ([? ?] & Ho & ->).

Lemma exec_table_step `{RowIds} o db db' : exec o db = Ok db' → table_step o (jobs db) (jobs db').
Proof.
  destruct o; cbn [exec]; intros Ho.
  - of_result Ho. revert Ho. unfold CreateTransfer. repeat case_match; intros [= <- _]; apply table_step_same.
  - of_result Ho. by eapply table_step_Plan.
  - of_result Ho. by eapply table_step_evolve, evolve_LeaseJobs.
  - apply Ok_inj in Ho as <-. apply table_step_evolve, evolve_RenewLeases.
  - apply Ok_inj in Ho as <-. apply table_step_evolve, evolve_ReportProgress.
  - of_result Ho. by eapply table_step_evolve, evolve_CompleteJob.
  - apply Ok_inj in Ho as <-. apply table_step_evolve, evolve_ReapExpiredLeases.
  - apply Ok_inj in Ho as <-. apply table_step_evolve, evolve_recoverLeases.
  - apply Ok_inj in Ho as <-. unfold RecoverWorkerLeases. case_bool_decide; [apply table_step_same|].
    apply table_step_evolve, evolve_recoverLeases.
  - apply Ok_inj in Ho as <-. apply table_step_evolve, evolve_SettleStalledTransfers.
  - apply Ok_inj in Ho as <-. rewrite jobs_CloseStalledCancellations. apply table_step_same.
  - apply Ok_inj in Ho as <-. apply table_step_evolve, evolve_UnstickTransfers.
  - apply Ok_inj in Ho as <-. apply table_step_same.
  - of_result Ho. by eapply table_step_evolve, evolve_RetryTransfer.
  - apply Ok_inj in Ho as <-. apply table_step_evolve, evolve_AutoRetryTransfers.
  - of_result Ho. by eapply table_step_evolve, evolve_PauseTransfer.
  - of_result Ho. by eapply table_step_evolve, evolve_ResumeTransfer.
  - of_result Ho. by eapply table_step_evolve, evolve_StopTransfer.
  - of_result Ho. by eapply table_step_evolve, evolve_SetTransferPriority.
  - of_result Ho. revert Ho. unfold DeleteTransfer. intros (r & _ & Hrest)%result_bind_Ok.
    case_bool_decide; simpl in Hrest; [|done]. injection Hrest as <- _.
    apply table_step_deleted; [done|]. intros i j' Hj'. simpl in Hj'.
    by apply lookup_delete_where_Some in Hj' as [Hj' _].
  - revert Ho. unfold Open. case_bool_decide; [done|]. destruct (exists_where _ _); intros [= <-]; apply table_step_same.
  - apply Ok_inj in Ho as <-. unfold ClaimPromotion. destruct (order_by _ _) as [|[id pm] l]; apply table_step_same.
  - apply Ok_inj in Ho as <-. unfold NamePromoted. case_bool_decide; apply table_step_same.
  - apply Ok_inj in Ho as <-. apply table_step_same.
  - apply Ok_inj in Ho as <-. apply table_step_same.
  - revert Ho. unfold Settle. intros ([s1 s2] & _ & (pm & _ & [= <-])%result_bind_Ok)%result_bind_Ok. apply table_step_same.
  - apply Ok_inj in Ho as <-. unfold RecordWorker. destruct (String.eqb _ _); apply table_step_same.
  - apply Ok_inj in Ho as <-. unfold TouchWorker. destruct (String.eqb _ _); apply table_step_same.
  - apply Ok_inj in Ho as <-. apply table_step_same.
  - apply Ok_inj in Ho as <-. apply table_step_same.
  - of_result Ho. apply EnsureRepository_Ok in Ho as [_ [->|(_ & -> & _)]]; apply table_step_same.
  - apply Ok_inj in Ho as <-. apply table_step_same.
  - revert Ho. unfold SettleDelegated. destruct (delegated_outcome _); intros [= <-]. apply table_step_same.
  - apply Ok_inj in Ho as <-. apply table_step_same.
  - apply Ok_inj in Ho as <-. apply table_step_deleted; [done|]. intros i j' Hj'.
    destruct (sweep_work_tables now ttl batch db) as (_ & Ej & _). rewrite Ej in Hj'.
    by apply jobs_deleted in Hj' as [Hj' _].
Qed.

(** The next database of a run, whether the operation committed or not. *)
Lemma exec_or_rollback_step `{RowIds} o db : table_step o (jobs db) (jobs (exec_or_rollback db o)).
Proof.
  unfold exec_or_rollback. destruct (exec o db) as [d|e] eqn:He; [by eapply exec_table_step|].
  apply table_step_same.
Qed.

Definition rows_ok (db : DB) : Prop := ∀ i j, jobs db !! i = Some j → job_ok j.

Lemma table_step_ok o db db' : table_step o (jobs db) (jobs db') → rows_ok db → rows_ok db'.
Proof.
  intros Hs Hok i j' Hj'. specialize (Hs i). rewrite Hj' in Hs.
  destruct (jobs db !! i) as [j|] eqn:Hj; [|by destruct Hs as (_ & ? & _)].
  destruct Hs as (_ & _ & He). by apply He, (Hok i).
Qed.

Lemma run_ok `{RowIds} ops db : rows_ok db → rows_ok (run db ops).
Proof.
  revert db. induction ops as [|o ops IH]; intros db Hok; [done|]. simpl. apply IH.
  eapply table_step_ok; [apply exec_or_rollback_step|done].
Qed.

Lemma run_take_S `{RowIds} ops db k o :
  ops !! k = Some o → run db (take (S k) ops) = exec_or_rollback (run db (take k ops)) o.
Proof. intros Ho. unfold run. by rewrite (take_S_r _ _ _ Ho), foldl_snoc. Qed.

(** What is done is some sequence of the operations. *)
Section runs.
Context `{RowIds}.

Definition runs (db db' : DB) : Prop := ∃ ops, db' = run db ops.

#[export] Instance runs_preorder : PreOrder runs.
Proof.
  split; [intros db; by exists []|]. intros d1 d2 d3 [o1 ->] [o2 ->].
  exists (o1 ++ o2). unfold run. by rewrite foldl_app.
Qed.

Lemma runs_op o db db' : exec o db = Ok db' → runs db db'.
Proof. intros He. exists [o]. unfold run, exec_or_rollback. simpl. by rewrite He. Qed.

Lemma runs_try o db r : exec o db = r → runs db (ok_or db r).
Proof. intros <-. by exists [o]. Qed.
End runs.

(* -------------------------------------------------------------------- *)
(** ** Theorems *)

(** C4. No interleaving of operations corrupts a job row.  From tables whose
    jobs are well-formed - the empty database, for one - every sequence of the
    operations, committed or rolled back, whoever runs them and with whatever
    clocks, keeps every job with an owner and an expiry exactly while it is
    leased, a completion time exactly when it has ended, a repair level between
    zero and the ceiling, and a non-negative count of attempts. *)
Theorem every_run_keeps_rows_well_formed `{RowIds} ops db :
  (∀ i j, jobs db !! i = Some j → job_ok j) →
  ∀ i j, jobs (run db ops) !! i = Some j →
    (j_state j = JobLeased ↔ is_Some (j_lease_owner j)) ∧
    (j_state j = JobLeased ↔ is_Some (j_lease_expires j)) ∧
    (job_state_terminal (j_state j) = true ↔ is_Some (j_completed j)) ∧
    0 ≤ j_repair_level j ≤ MaxRepairLevel ∧ 0 ≤ j_attempts j.
Proof.
  intros Hok i j Hj. destruct (run_ok ops db Hok i j Hj) as (? & ? & ? & ? & ? & _). done.
Qed.

(** The moves the table of internal/platform/statemachine does not have. *)
Definition unlisted : moves :=
  [(JobBlocked, JobFailed); (JobFailed, JobBlocked); (JobSucceeded, JobPending);
   (JobSkipped, JobPending); (JobLeased, JobBlocked)].

Definition machine_move (s s' : JobState) : bool :=
  existsb (λ e, match Apply Job s e with Ok s1 => bool_decide (s1 = s') | Err _ => false end) all_JobEvent.

(** Every move of every operation is an event of the job machine or one of the
    five, and none leaves cancelled. *)
Lemma moves_listed o i s s' :
  (s, s') ∈ moves_of o i →
  s ≠ JobCancelled ∧ ((∃ e, Apply Job s e = Ok s') ∨ (s, s') ∈ unlisted).
Proof.
  intros Hin.
  assert ((s, s') ∈ lease_moves ++ open_moves ++ cascade_moves ++ report_moves ++ aftermath_moves ++
    reap_moves ++ recover_moves ++ retry_moves ++ stop_moves) as Hall.
  { rewrite !elem_of_app. destruct o; simpl in Hin; try case_bool_decide;
      try (by apply not_elem_of_nil in Hin); tauto. }
  clear Hin. revert Hall. set (l := _ ++ _).
  assert (Forall (λ p, p.1 ≠ JobCancelled ∧ (machine_move p.1 p.2 = true ∨ p ∈ unlisted)) l) as Hl.
  { apply (bool_decide_eq_true_1 _). vm_compute. reflexivity. }
  rewrite Forall_forall in Hl. intros Hin. apply Hl in Hin as [Hc Hm]. simpl in *.
  split; [done|]. destruct Hm as [Hm|]; [left|by right].
  apply existsb_exists in Hm as (e & _ & He). exists e.
  destruct (Apply Job s e); [|done]. by apply bool_decide_eq_true in He as ->.
Qed.

(** C5. The queue refines the job lifecycle, operation by operation.  At every
    step of every run, whatever the database it starts from, a job that stays
    keeps its transfer, kind, digest, size, repositories, wave, budget, rank and
    tags, and its state changes only the way [moves_of] says the operation may
    change it: a lease takes pending to leased; a report takes the job it names
    out of leased, and any other job only from blocked (promoted, opened or
    failed by the cascade) or, by a repair, from succeeded, skipped or failed back
    to pending; the reaper and the recoveries take only leased jobs, a retry only
    failed ones and the blocked behind them, a stop only pending and blocked ones;
    a plan and an unstick open blocked jobs; settling stalled transfers fails
    them; every other operation changes no state.  Each such move is an event of
    the job machine or one of five its table does not list, and none leaves
    cancelled.  Jobs appear by a plan only, pending or blocked, and disappear by
    a deletion or a sweep only. *)
Theorem every_run_refines_the_lifecycle `{RowIds} ops db k o i :
  ops !! k = Some o →
  match jobs (run db (take k ops)) !! i, jobs (run db (take (S k) ops)) !! i with
  | Some j, Some j' =>
      work_of j' = work_of j ∧
      (j_state j' = j_state j ∨
       (j_state j, j_state j') ∈ moves_of o i ∧
       ((∃ e, Apply Job (j_state j) e = Ok (j_state j')) ∨
        (j_state j, j_state j') ∈
          [(JobBlocked, JobFailed); (JobFailed, JobBlocked); (JobSucceeded, JobPending);
           (JobSkipped, JobPending); (JobLeased, JobBlocked)])) ∧
      (j_state j = JobCancelled → j_state j' = JobCancelled)
  | None, Some j' => creates o = true ∧ j_state j' ∈ [JobPending; JobBlocked]
  | Some _, None => deletes o = true
  | None, None => True
  end.
Proof.
  intros Ho. rewrite (run_take_S _ _ _ _ Ho). pose proof (exec_or_rollback_step o (run db (take k ops)) i) as Hs.
  unfold row_step in Hs. destruct (jobs (run db (take k ops)) !! i) as [j|],
    (jobs (exec_or_rollback (run db (take k ops)) o) !! i) as [j'|]; [|tauto..].
  destruct Hs as (Hw & [->|Hm] & _); [split_and!; [done|by left|done]|].
  destruct (moves_listed _ _ _ _ Hm) as (Hc & Hl). split_and!; [done|by right|done].
Qed.

(* -------------------------------------------------------------------- *)
(** ** A transfer from its plan to its end *)

(** [n] jobs reported moved at [now] by worker w; a report of a job w does not
    hold is dropped. *)
Definition report_all (now : Z) (n : nat) : list Op :=
  (λ i, OpComplete now 0 (mkCompletion (Z.of_nat i) "w" Succeeded 10 "" "" "" true 1 8)) <$> seq 1 n.

Definition lease_some (dialect : Driver) (now : Z) : Op :=
  OpLease dialect now ∅ (mkLeaseRequest "w" 10 60).

Definition example_run : list Op :=
  [OpPlan 100 example_request example_tree example_places; lease_some DriverPostgres 200] ++
  report_all 300 6 ++ [lease_some DriverPostgres 400] ++ report_all 500 6 ++
  [lease_some DriverSQLite 600] ++ report_all 700 6.

(** Waves of content first: blobs, component manifests, the root. *)
Example example_run_succeeds :
  t_state <$> transfers (run unplanned_db example_run) !! "t" = Some TransferSucceeded ∧
  (∀ k j, jobs (run unplanned_db example_run) !! k = Some j → j_state j = JobSucceeded).
Proof.
  split; [vm_compute; reflexivity|].
  apply (bool_decide_eq_true_1 (map_Forall (λ _ j, j_state j = JobSucceeded)
    (jobs (run unplanned_db example_run)))).
  vm_compute. reflexivity.
Qed.

Lemma unplanned_rows_ok i j : jobs unplanned_db !! i = Some j → job_ok j.
Proof. intros Hj. discriminate Hj. Qed.

Lemma every_run_keeps_rows_well_formed_witness :
  ∃ j, jobs (run unplanned_db (take 2 example_run)) !! 1 = Some j ∧
    j_state j = JobLeased ∧ is_Some (j_lease_owner j).
Proof.
  destruct (jobs (run unplanned_db (take 2 example_run)) !! 1) as [j|] eqn:Hj;
    [|exfalso; revert Hj; vm_compute; discriminate].
  exists j. split; [reflexivity|].
  assert (j_state j = JobLeased) as Hs.
  { assert (j_state <$> jobs (run unplanned_db (take 2 example_run)) !! 1 = Some JobLeased) as E
      by (vm_compute; reflexivity). rewrite Hj in E. by injection E. }
  split; [exact Hs|].
  destruct (every_run_keeps_rows_well_formed (take 2 example_run) unplanned_db unplanned_rows_ok 1 j Hj)
    as (Ho & _). by apply Ho.
Defined.

(** The first lease of the example, on the row of job 1. *)
Lemma every_run_refines_the_lifecycle_witness :
  ∃ j j', jobs (run unplanned_db (take 1 example_run)) !! 1 = Some j ∧ j_state j = JobPending ∧
    jobs (run unplanned_db (take 2 example_run)) !! 1 = Some j' ∧ j_state j' = JobLeased ∧
    work_of j' = work_of j.
Proof.
  pose proof (every_run_refines_the_lifecycle example_run unplanned_db 1 (lease_some DriverPostgres 200) 1
    eq_refl) as Hstep.
  assert (j_state <$> jobs (run unplanned_db (take 1 example_run)) !! 1 = Some JobPending) as E1
    by (vm_compute; reflexivity).
  assert (j_state <$> jobs (run unplanned_db (take 2 example_run)) !! 1 = Some JobLeased) as E2
    by (vm_compute; reflexivity).
  destruct (jobs (run unplanned_db (take 1 example_run)) !! 1) as [j|]; [|discriminate E1].
  destruct (jobs (run unplanned_db (take 2 example_run)) !! 1) as [j'|]; [|discriminate E2].
  exists j, j'. injection E1 as E1. injection E2 as E2. destruct Hstep as (Hw & _). split_and!; done.
Defined.
