(* ===== verification/Identity.v ===== *)
(** * Who is calling and what they were granted

    pkg/authz/identity.go, pkg/authz/verifier.go (the role claims),
    internal/api/middleware/auth.go, scope.go and oidc.go: the identity a token
    is read into, the grants its two tiers of roles become, and the question
    every permission check asks - may this caller perform this action in this
    scope.  A Go map is a [gmap]; where a function ranges over one, the order is
    that of [map_to_list], or an argument when the result depends on it. *)

From S2P Require Import Prelude GoStrings.
Open Scope Z_scope.

(* -------------------------------------------------------------------- *)
(** ** Actions, scopes and grants *)

Inductive Action := ActionRead | ActionOperate | ActionApply | ActionAdmin | ActionWork.

#[export] Instance Action_eq_dec : EqDecision Action.
Proof. solve_decision. Defined.

(** The roles with a meaning of their own are strings like any other. *)
Definition RoleViewer : string := "viewer".
Definition RoleOperator : string := "operator".
Definition RoleAdmin : string := "admin".

Record Scope := mkScope { sc_Tenant : string; sc_Product : string }.

#[export] Instance Scope_eq_dec : EqDecision Scope.
Proof. solve_decision. Defined.

Record Grant := mkGrant { g_Action : Action; g_Scope : Scope }.

#[export] Instance Grant_eq_dec : EqDecision Grant.
Proof. solve_decision. Defined.

(** The identity the handlers read (middleware.Identity). *)
Record Identity := mkIdentity {
  Subject : string;
  Name : string;
  Email : string;
  Roles : list string;
  ProductRoles : gmap string (list string);
  Method : string;
  Tenant : string;
  Grants : list Grant }.

Definition Anonymous : Identity :=
  mkIdentity "anonymous" "" "" [RoleAdmin] ∅ "none" "" [].

Definition IsMember (i : Identity) : bool :=
  bool_decide (Roles i ≠ []) || bool_decide (ProductRoles i ≠ ∅).

Definition ProductNames (i : Identity) : list string :=
  sort_strings (map_to_list (ProductRoles i)).*1.

Definition HasRole (want : string) (i : Identity) : bool :=
  existsb (λ r, String.eqb r want || String.eqb r RoleAdmin ||
                (String.eqb r RoleOperator && String.eqb want RoleViewer)) (Roles i).

Definition roleFor (a : Action) : string :=
  match a with
  | ActionRead => RoleViewer
  | ActionOperate | ActionApply => RoleOperator
  | _ => RoleAdmin
  end.

Definition covers (g want : Scope) : bool :=
  if negb (String.eqb (sc_Tenant g) "") && negb (String.eqb (sc_Tenant g) (sc_Tenant want)) then false
  else if negb (String.eqb (sc_Product g) "") && negb (String.eqb (sc_Product g) (sc_Product want)) then false
  else if String.eqb (sc_Tenant g) "" && String.eqb (sc_Product g) "" then true
  else negb (String.eqb (sc_Tenant want) "") || negb (String.eqb (sc_Product want) "").

Definition Can (a : Action) (scope : Scope) (i : Identity) : bool :=
  existsb (λ g, bool_decide (g_Action g = a) && covers (g_Scope g) scope) (Grants i)
  || HasRole (roleFor a) i.

Definition CanAny (a : Action) (i : Identity) : bool :=
  existsb (λ g, bool_decide (g_Action g = a)) (Grants i) || HasRole (roleFor a) i.

(** The products of the grants of an action, each once, in the order found. *)
Fixpoint granted_products (a : Action) (seen : gset string) (gs : list Grant) : list string :=
  match gs with
  | [] => []
  | g :: gs =>
      if negb (bool_decide (g_Action g = a)) || String.eqb (sc_Product (g_Scope g)) "" ||
         bool_decide (sc_Product (g_Scope g) ∈ seen)
      then granted_products a seen gs
      else sc_Product (g_Scope g) :: granted_products a ({[ sc_Product (g_Scope g) ]} ∪ seen) gs
  end.

(** Nothing means unrestricted. *)
Definition VisibleProducts (i : Identity) : list string :=
  if Can ActionRead (mkScope "" "") i || Can ActionRead (mkScope (Tenant i) "") i then []
  else granted_products ActionRead ∅ (Grants i).

Definition WorkloadOnly (i : Identity) : bool :=
  match Grants i with
  | [] => false
  | gs => forallb (λ g, bool_decide (g_Action g = ActionWork)) gs
  end.

(* -------------------------------------------------------------------- *)
(** ** From a token's roles *)

(** The identity the verifier builds (authz.Identity). *)
Record AuthzIdentity := mkAuthzIdentity {
  a_Subject : string;
  a_Tenant : string;
  a_OrgRoles : list string;
  a_Products : gmap string (list string);
  a_Email : string;
  a_Name : string;
  a_Method : string }.

#[export] Instance AuthzIdentity_eta : Eta AuthzIdentity := λ r,
  mkAuthzIdentity (a_Subject r) (a_Tenant r) (a_OrgRoles r) (a_Products r) (a_Email r) (a_Name r)
    (a_Method r).

Definition splitProductRole (key : string) : option (string * string) :=
  match cut_first colon key with
  | Some (product, role) =>
      if String.eqb product "" || String.eqb role "" then None else Some (product, role)
  | None => None
  end.

Definition add_product_role (product role : string) (a : AuthzIdentity) : AuthzIdentity :=
  a <| a_Products ::= λ m, <[product := default [] (m !! product) ++ [role]]> m |>.

Definition add_org_role (key : string) (a : AuthzIdentity) : AuthzIdentity :=
  a <| a_OrgRoles := a_OrgRoles a ++ [key] |>.

(** One role key of one claim, with the domains of the organizations under it
    in the order the map is ranged over: only the first is looked at. *)
Definition read_role (st : gset string * AuthzIdentity) (r : string * list string)
    : gset string * AuthzIdentity :=
  let '(seen, a) := st in
  let '(key, domains) := r in
  let a := match domains with
           | d :: _ => if String.eqb (a_Tenant a) ""
                       then a <| a_Tenant := match cut_first dot d with Some (t, _) => t | None => d end |>
                       else a
           | [] => a
           end in
  if bool_decide (key ∈ seen) then (seen, a)
  else ({[ key ]} ∪ seen,
        match splitProductRole key with
        | Some (product, role) => add_product_role product role a
        | None => add_org_role key a
        end).

(** Whether a claim holds roles. *)
Definition role_claim (claim : string) : bool :=
  HasPrefix claim "urn:zitadel:iam:org:project:" && HasSuffix claim ":roles".

(** The claims in the order the map is ranged over; a claim whose value is not
    a map of maps of strings is [None] and skipped. *)
Definition readRoles (all : list (string * option (list (string * list string)))) (a : AuthzIdentity)
    : AuthzIdentity :=
  (foldl (λ st c, match c.2 with
                  | Some roles => if role_claim c.1 then foldl read_role st roles else st
                  | None => st
                  end) (∅, a) all).2.

(** Whether a token's tenant is refused. *)
Definition wrongTenant (have want : string) : bool :=
  negb (String.eqb want "") && negb (EqualFold have want).

(** The level at the end of a role's name. *)
Definition suffix (role : string) : string :=
  match cut_last dash role with Some (_, level) => level | None => role end.

Definition actionsFor (role : string) : list Action :=
  let level := suffix role in
  if String.eqb level "admin" || String.eqb level "owner"
  then [ActionRead; ActionOperate; ActionApply; ActionAdmin; ActionWork]
  else if String.eqb level "operator" then [ActionRead; ActionOperate]
  else if String.eqb level "security" || String.eqb level "reader" || String.eqb level "viewer"
  then [ActionRead]
  else if String.eqb level "worker" then [ActionWork]
  else [].

Definition grants_of (tenant product : string) (roles : list string) : list Grant :=
  roles ≫= λ role, (λ act, mkGrant act (mkScope tenant product)) <$> actionsFor role.

Definition fromAuthz (a : AuthzIdentity) : Identity :=
  mkIdentity (a_Subject a) (a_Name a) (a_Email a) (a_OrgRoles a) (a_Products a) "oidc" (a_Tenant a)
    (grants_of (a_Tenant a) "" (a_OrgRoles a) ++
     (map_to_list (a_Products a) ≫= λ p, grants_of (a_Tenant a) p.1 p.2)).

(** The identity the policy engine is asked about. *)
Definition principal (i : Identity) : AuthzIdentity :=
  mkAuthzIdentity (Subject i) (Tenant i) (Roles i) (ProductRoles i) (Email i) (Name i) (Method i).

(** What the engine is given: each product role once. *)
Fixpoint distinct (seen : gset string) (l : list string) : list string :=
  match l with
  | [] => []
  | r :: l => if bool_decide (r ∈ seen) then distinct seen l else r :: distinct ({[ r ]} ∪ seen) l
  end.

Definition AllRoles (a : AuthzIdentity) : list string :=
  a_OrgRoles a ++ distinct ∅ (map_to_list (a_Products a) ≫= snd).

(* -------------------------------------------------------------------- *)
(** ** Scopes *)

Lemma covers_true g want :
  covers g want = true ↔
    (sc_Tenant g = "" ∨ sc_Tenant g = sc_Tenant want) ∧
    (sc_Product g = "" ∨ sc_Product g = sc_Product want) ∧
    (sc_Tenant g = "" ∧ sc_Product g = "" ∨ sc_Tenant want ≠ "" ∨ sc_Product want ≠ "").
Proof.
  unfold covers.
  destruct (String.eqb_spec (sc_Tenant g) ""), (String.eqb_spec (sc_Product g) ""),
    (String.eqb_spec (sc_Tenant g) (sc_Tenant want)), (String.eqb_spec (sc_Product g) (sc_Product want)),
    (String.eqb_spec (sc_Tenant want) ""), (String.eqb_spec (sc_Product want) ""); simpl; naive_solver.
Qed.

Lemma Can_true act scope i :
  Can act scope i = true ↔
    (∃ g, g ∈ Grants i ∧ g_Action g = act ∧ covers (g_Scope g) scope = true) ∨
    HasRole (roleFor act) i = true.
Proof.
  unfold Can. rewrite orb_true_iff, existsb_exists. setoid_rewrite <-list_elem_of_In.
  setoid_rewrite andb_true_iff. setoid_rewrite bool_decide_eq_true. done.
Qed.

Lemma CanAny_true act i :
  CanAny act i = true ↔ (∃ g, g ∈ Grants i ∧ g_Action g = act) ∨ HasRole (roleFor act) i = true.
Proof.
  unfold CanAny. rewrite orb_true_iff, existsb_exists. setoid_rewrite <-list_elem_of_In.
  by setoid_rewrite bool_decide_eq_true.
Qed.

Lemma elem_of_granted_products act seen gs p :
  p ∈ granted_products act seen gs ↔
    p ≠ "" ∧ p ∉ seen ∧ ∃ g, g ∈ gs ∧ g_Action g = act ∧ sc_Product (g_Scope g) = p.
Proof.
  revert seen. induction gs as [|g gs IH]; intros seen; simpl; [set_solver|].
  destruct (decide (g_Action g = act)) as [Ha|Ha];
    [rewrite (bool_decide_true _ Ha)|rewrite (bool_decide_false _ Ha)]; simpl.
  2: { rewrite IH. set_solver. }
  destruct (String.eqb_spec (sc_Product (g_Scope g)) "") as [He|He]; simpl.
  { rewrite IH. set_solver. }
  case_bool_decide as Hs; [rewrite IH; set_solver|].
  rewrite elem_of_cons, IH. destruct (decide (p = sc_Product (g_Scope g))); set_solver.
Qed.

Lemma NoDup_granted_products act seen gs : NoDup (granted_products act seen gs).
Proof.
  revert seen. induction gs as [|g gs IH]; intros seen; simpl; [constructor|].
  destruct (_ || _); [done|]. constructor; [|done]. rewrite elem_of_granted_products. set_solver.
Qed.

Lemma elem_of_grants_of tenant product roles g :
  g ∈ grants_of tenant product roles ↔
    ∃ role, role ∈ roles ∧ g_Action g ∈ actionsFor role ∧ g_Scope g = mkScope tenant product.
Proof.
  unfold grants_of. rewrite list_elem_of_bind. setoid_rewrite list_elem_of_fmap. split.
  - intros (role & (act & -> & Hact) & Hr). by exists role.
  - intros (role & Hr & Hact & Hs). exists role. split; [|done]. exists (g_Action g).
    split; [|done]. destruct g. simpl in *. by subst.
Qed.

(** The grants of an identity read from a token. *)
Lemma elem_of_Grants a g :
  g ∈ Grants (fromAuthz a) ↔
    (∃ role, role ∈ a_OrgRoles a ∧ g_Action g ∈ actionsFor role ∧ g_Scope g = mkScope (a_Tenant a) "") ∨
    (∃ p roles role, a_Products a !! p = Some roles ∧ role ∈ roles ∧
       g_Action g ∈ actionsFor role ∧ g_Scope g = mkScope (a_Tenant a) p).
Proof.
  simpl. rewrite elem_of_app, elem_of_grants_of, list_elem_of_bind. f_equiv. split.
  - intros ([p roles] & Hg%elem_of_grants_of & Hp%elem_of_map_to_list). naive_solver.
  - intros (p & roles & role & Hp & Hr & Hrest). exists (p, roles).
    rewrite elem_of_grants_of, elem_of_map_to_list. eauto.
Qed.

Lemma HasRole_nil want i : Roles i = [] → HasRole want i = false.
Proof. unfold HasRole. by intros ->. Qed.

(** The caller holds a role with the action on the product. *)
Definition holds_on (a : AuthzIdentity) (act : Action) (product : string) : Prop :=
  ∃ roles role, a_Products a !! product = Some roles ∧ role ∈ roles ∧ act ∈ actionsFor role.

(** A caller of the product tier, of a tenant. *)
Record product_tier (a : AuthzIdentity) : Prop := {
  tier_org : a_OrgRoles a = [];
  tier_tenant : a_Tenant a ≠ "";
  tier_named p : is_Some (a_Products a !! p) → p ≠ "" }.

Lemma product_grants a g :
  product_tier a → g ∈ Grants (fromAuthz a) ↔
    holds_on a (g_Action g) (sc_Product (g_Scope g)) ∧ sc_Tenant (g_Scope g) = a_Tenant a.
Proof.
  intros [Horg _ _]. rewrite elem_of_Grants, Horg. split.
  - intros [(role & Hr%elem_of_nil & _)|(p & roles & role & Hp & Hr & Ha & Hs)]; [done|].
    rewrite Hs. simpl. split; [|done]. by exists roles, role.
  - intros [(roles & role & Hp & Hr & Ha) Ht]. right. exists (sc_Product (g_Scope g)), roles, role.
    split_and!; try done. destruct (g_Scope g). simpl in *. by subst.
Qed.

Lemma product_Can a act tenant product :
  product_tier a →
  Can act (mkScope tenant product) (fromAuthz a) = true ↔
    tenant = a_Tenant a ∧ product ≠ "" ∧ holds_on a act product.
Proof.
  intros Hp. destruct (Hp) as [Horg Ht Hne]. rewrite Can_true, HasRole_nil by done. split.
  - intros [(g & Hg & Hact & Hc)|]; [|done]. apply (product_grants _ _ Hp) in Hg as [Hh Hs].
    apply covers_true in Hc. rewrite Hs in Hc. simpl in Hc.
    assert (sc_Product (g_Scope g) ≠ "") as Hp' by (destruct Hh as (? & ? & ? & _); apply Hne; eauto).
    destruct Hc as ([He | <-] & [Hf | Hf] & _); [done..|]. by rewrite <-Hf, <-Hact.
  - intros (-> & Hpn & Hh). left. exists (mkGrant act (mkScope (a_Tenant a) product)).
    split; [by apply (product_grants _ _ Hp)|]. split; [done|]. apply covers_true. simpl. auto.
Qed.

(** Two tiers and nothing between them.  A caller whose roles are product
    roles only, in a tenant, may act exactly where one of them says: the action
    on that product, in that tenant; never on another product, never on the
    estate, never in another tenant, whatever the roles are called.  A role of
    the organization reaches every product of its tenant, known or not. *)
Theorem product_roles_stay_on_products a act tenant product :
  a_Tenant a ≠ "" →
  (product_tier a → Can act (mkScope tenant product) (fromAuthz a) = true ↔
     tenant = a_Tenant a ∧ product ≠ "" ∧ holds_on a act product) ∧
  (∀ role, role ∈ a_OrgRoles a → act ∈ actionsFor role →
     Can act (mkScope (a_Tenant a) product) (fromAuthz a) = true).
Proof.
  intros Ht. split; [apply product_Can|]. intros role Hr Ha. apply Can_true. left.
  exists (mkGrant act (mkScope (a_Tenant a) "")). split; [|split; [done|]].
  - apply elem_of_Grants. left. by exists role.
  - apply covers_true. simpl. auto.
Qed.

(* -------------------------------------------------------------------- *)
(** ** Role keys *)

(** A role key says which product it is for.  A key is a product role exactly
    when it is a product without a colon, a colon and a role, neither of them
    empty, and then those are what it is read as; so writing a product role as
    its key and reading it back gives it again. *)
Theorem product_role_roundtrip key product role :
  splitProductRole key = Some (product, role) ↔
    key = String.append product (String colon role) ∧
    has_char colon product = false ∧ product ≠ "" ∧ role ≠ "".
Proof.
  unfold splitProductRole. split.
  - destruct (cut_first colon key) as [[p r]|] eqn:Hcut; [|done].
    destruct (String.eqb_spec p ""), (String.eqb_spec r ""); simpl; try done.
    intros [= <- <-]. by apply cut_first_Some in Hcut as [-> ?].
  - intros (-> & Hc & Hp%String.eqb_neq & Hr%String.eqb_neq). rewrite cut_first_app by done.
    by rewrite Hp, Hr.
Qed.

(** The role keys of a token, in the order they are read. *)
Definition role_keys (all : list (string * option (list (string * list string))))
    : list (string * list string) :=
  all ≫= λ c, match c.2 with Some roles => if role_claim c.1 then roles else [] | None => [] end.

Lemma readRoles_keys all a : readRoles all a = (foldl read_role (∅, a) (role_keys all)).2.
Proof.
  unfold readRoles, role_keys. f_equal. generalize (∅ : gset string, a). induction all as [|[c v] l IH]; [done|].
  intros st. rewrite bind_cons, foldl_app. simpl. rewrite <-IH. f_equal.
  destruct v; [|done]. by destruct (role_claim c).
Qed.

(** What the roles held so far say of the keys read so far. *)
Record roles_read (seen : gset string) (a : AuthzIdentity) : Prop := {
  read_org key : key ∈ a_OrgRoles a ↔ key ∈ seen ∧ splitProductRole key = None;
  read_org_once : NoDup (a_OrgRoles a);
  read_product p r : (∃ roles, a_Products a !! p = Some roles ∧ r ∈ roles) ↔
    ∃ key, key ∈ seen ∧ splitProductRole key = Some (p, r);
  read_product_once p roles : a_Products a !! p = Some roles → NoDup roles ∧ roles ≠ [] }.

Lemma splitProductRole_inj key key' p r :
  splitProductRole key = Some (p, r) → splitProductRole key' = Some (p, r) → key = key'.
Proof.
  unfold splitProductRole. intros H1 H2.
  destruct (cut_first colon key) as [[p1 r1]|] eqn:E1; [|done].
  destruct (cut_first colon key') as [[p2 r2]|] eqn:E2; [|done].
  apply cut_first_Some in E1 as [-> _], E2 as [-> _].
  destruct (_ || _); [done|]. destruct (_ || _); [done|]. by simplify_eq.
Qed.

Lemma roles_read_tenant seen a t : roles_read seen a → roles_read seen (a <| a_Tenant := t |>).
Proof. by intros []. Qed.

Lemma roles_read_org seen a key :
  roles_read seen a → key ∉ seen → splitProductRole key = None →
  roles_read ({[ key ]} ∪ seen) (add_org_role key a).
Proof.
  intros [Ho Hon Hp Hpn] Hk Hs. split; simpl.
  - intros k. rewrite elem_of_app, list_elem_of_singleton, Ho. set_solver.
  - apply NoDup_app. split; [done|]. split; [|by apply NoDup_singleton].
    intros k Hin ->%list_elem_of_singleton. apply Ho in Hin. tauto.
  - intros p r. rewrite Hp. split; [set_solver|]. intros (k & Hin & Hk'). exists k. split; [|done].
    apply elem_of_union in Hin as [->%elem_of_singleton|]; [congruence|done].
  - done.
Qed.

Lemma roles_read_product seen a key p r :
  roles_read seen a → key ∉ seen → splitProductRole key = Some (p, r) →
  roles_read ({[ key ]} ∪ seen) (add_product_role p r a).
Proof.
  intros [Ho Hon Hp Hpn] Hk Hs. split; simpl.
  - intros k. rewrite Ho. split; [set_solver|]. intros [Hin Hk']. split; [|done].
    apply elem_of_union in Hin as [->%elem_of_singleton|]; [congruence|done].
  - done.
  - intros q x. destruct (decide (q = p)) as [->|Hq].
    + rewrite lookup_insert_eq. split.
      * intros (roles & [= <-] & [Hin| ->%list_elem_of_singleton]%elem_of_app); [|set_solver].
        destruct (a_Products a !! p) as [roles|] eqn:E; [|by apply elem_of_nil in Hin].
        destruct (proj1 (Hp p x)) as (k & ? & ?); [eauto|]. set_solver.
      * intros (k & Hin & Hk'). eexists. split; [done|]. rewrite elem_of_app, list_elem_of_singleton.
        apply elem_of_union in Hin as [->%elem_of_singleton|Hin]; [right; congruence|left].
        destruct (proj2 (Hp p x)) as (roles & Hroles & Hx); [eauto|]. by rewrite Hroles.
    + rewrite lookup_insert_ne by done. rewrite Hp. split; [set_solver|].
      intros (k & Hin & Hk'). exists k. split; [|done].
      apply elem_of_union in Hin as [->%elem_of_singleton|]; [congruence|done].
  - intros q roles. destruct (decide (q = p)) as [->|Hq];
      [|rewrite lookup_insert_ne by done; apply Hpn].
    rewrite lookup_insert_eq. intros [= <-]. split; [|by destruct (default _ _)].
    apply NoDup_app. split; [|split; [|by apply NoDup_singleton]].
    + destruct (a_Products a !! p) eqn:E; [by apply (Hpn p)|constructor].
    + intros x Hin ->%list_elem_of_singleton.
      destruct (a_Products a !! p) as [roles|] eqn:E; [|by apply elem_of_nil in Hin].
      destruct (proj1 (Hp p r)) as (k & Hk' & Hks); [eauto|].
      by rewrite (splitProductRole_inj _ _ _ _ Hs Hks) in Hk.
Qed.

Lemma roles_read_step st r :
  roles_read st.1 st.2 → roles_read (read_role st r).1 (read_role st r).2 ∧
  (read_role st r).1 = {[ r.1 ]} ∪ st.1.
Proof.
  destruct st as [seen a], r as [key domains]. intros Hr. unfold read_role. cbn [fst snd] in *.
  set (a' := match domains with [] => a | d :: _ => _ end).
  assert (roles_read seen a') as Hr'.
  { subst a'. destruct domains as [|d ?]; [done|]. destruct (String.eqb _ _); [|done].
    by apply roles_read_tenant. }
  clearbody a'. case_bool_decide as Hin; [split; [done|set_solver]|]. split; [|done].
  destruct (splitProductRole key) as [[p r]|] eqn:Hs; cbn [fst snd].
  - by apply roles_read_product.
  - by apply roles_read_org.
Qed.

Lemma roles_read_fold l st :
  roles_read st.1 st.2 →
  roles_read (list_to_set l.*1 ∪ st.1) (foldl read_role st l).2.
Proof.
  revert st. induction l as [|r l IH]; intros st Hr; simpl.
  - by rewrite (left_id_L ∅ (∪)).
  - destruct (roles_read_step st r Hr) as [Hr' Hseen]. apply IH in Hr'. rewrite Hseen in Hr'.
    replace (_ ∪ _ ∪ _) with (list_to_set l.*1 ∪ ({[ r.1 ]} ∪ st.1) : gset string); [exact Hr'|].
    apply set_eq. intros k. change (list_fmap _ _ fst l) with l.*1. set_solver.
Qed.

(** Every role of a token is held once, at its own tier.  Whatever order the
    claims and their keys come in, and however many claims repeat them, a key
    that names a product gives its role on that product exactly once, any other
    key gives one tenant-wide role, and nothing else gives any. *)
Theorem readRoles_exact all a :
  a_OrgRoles a = [] → a_Products a = ∅ →
  let held := readRoles all a in
  (∀ key, key ∈ a_OrgRoles held ↔ key ∈ (role_keys all).*1 ∧ splitProductRole key = None) ∧
  NoDup (a_OrgRoles held) ∧
  (∀ p r, (∃ roles, a_Products held !! p = Some roles ∧ r ∈ roles) ↔
     ∃ key, key ∈ (role_keys all).*1 ∧ splitProductRole key = Some (p, r)) ∧
  (∀ p roles, a_Products held !! p = Some roles → NoDup roles ∧ roles ≠ []).
Proof.
  intros Horg Hprod held.
  assert (roles_read (list_to_set (role_keys all).*1 ∪ ∅) held) as [H1 H2 H3 H4].
  { unfold held. rewrite readRoles_keys. apply (roles_read_fold _ (∅, a)). simpl.
    split.
    - intros key. rewrite Horg. split; [by intros ?%elem_of_nil|by intros [?%elem_of_empty _]].
    - rewrite Horg. constructor.
    - intros p r. rewrite Hprod, lookup_empty. split; [by intros (? & ? & _)|].
      by intros (? & ?%elem_of_empty & _).
    - intros p roles. by rewrite Hprod, lookup_empty. }
  rewrite (right_id_L ∅ (∪)) in *. setoid_rewrite elem_of_list_to_set in H1.
  setoid_rewrite elem_of_list_to_set in H3. done.
Qed.

(* -------------------------------------------------------------------- *)
(** ** Examples *)

Definition roles_claim : string := "urn:zitadel:iam:org:project:roles".
Definition project_claim : string := "urn:zitadel:iam:org:project:389770422465331204:roles".

Definition signed_in (tenant : string) : AuthzIdentity :=
  mkAuthzIdentity "u1" tenant [] ∅ "" "" "oidc".

(** A product owner whose role is under two claims. *)
Definition owner_claims : list (string * option (list (string * list string))) :=
  [(roles_claim, Some [("software-01:product-owner", ["default.localhost"])]);
   ("email", None);
   (project_claim, Some [("software-01:product-owner", ["default.localhost"])])].

(** A role another organization granted is held here all the same. *)
Example foreign_grant_is_held :
  a_OrgRoles (readRoles [(roles_claim, Some [("org-admin", ["acme.localhost"])])] (signed_in "default")) =
  ["org-admin"] ∧
  Can ActionAdmin (mkScope "default" "")
    (fromAuthz (readRoles [(roles_claim, Some [("org-admin", ["acme.localhost"])])] (signed_in "default")))
  = true.
Proof. vm_compute. auto. Qed.

Lemma readRoles_exact_witness :
  ∃ roles, a_Products (readRoles owner_claims (signed_in "default")) !! "software-01" = Some roles ∧
    "product-owner" ∈ roles ∧ NoDup roles.
Proof.
  destruct (readRoles_exact owner_claims (signed_in "default") eq_refl eq_refl) as (_ & _ & Hp & Hn).
  destruct (proj2 (Hp "software-01" "product-owner")) as (roles & Hr & Hin).
  - exists "software-01:product-owner". split; [left|vm_compute; reflexivity].
  - exists roles. split; [exact Hr|]. split; [exact Hin|exact (proj1 (Hn _ _ Hr))].
Defined.

Definition example_owner : AuthzIdentity :=
  mkAuthzIdentity "u1" "default" [] {[ "software-01" := ["product-owner"] ]} "" "" "oidc".

Lemma example_owner_tier : product_tier example_owner.
Proof. split; [done|done|]. intros p [roles Hp] ->. vm_compute in Hp. discriminate. Qed.

Lemma product_roles_stay_on_products_witness :
  Can ActionApply (mkScope "default" "software-01") (fromAuthz example_owner) = true ∧
  Can ActionRead (mkScope "default" "software-02") (fromAuthz example_owner) ≠ true.
Proof.
  pose proof (λ act p, proj1 (product_roles_stay_on_products example_owner act "default" p
    ltac:(done)) example_owner_tier) as Hall.
  split.
  - apply Hall. split; [done|]. split; [done|]. exists ["product-owner"], "product-owner".
    split; [reflexivity|]. split; [left|]. right. right. left.
  - intros (_ & _ & roles & role & Hr & _)%Hall. vm_compute in Hr. discriminate.
Defined.
