(* ===== verification/Routes.v ===== *)
(** * What a request needs

    internal/api/middleware/resource.go (a route as a policy question),
    authorize.go (the requirement of a request), permissions.go (the permission
    catalogue), workload.go and auth.go (the worker's and the public paths).  A
    request is its method and its decoded URL path: nothing here reads more. *)

From S2P Require Import Prelude GoStrings Identity.
Open Scope Z_scope.

Record HttpRequest := mkHttp { r_Method : string; r_Path : string }.

(** A route as a policy question. *)
Record PolicyResource := mkPolicy { p_Kind : string; p_Action : string; p_Product : string }.

#[export] Instance PolicyResource_eq_dec : EqDecision PolicyResource.
Proof. solve_decision. Defined.

(* -------------------------------------------------------------------- *)
(** ** Paths *)

(** The part of a segment before its last colon, unless that is empty. *)
Definition without_verb (seg : string) : string :=
  match cut_last colon seg with
  | Some (EmptyString, _) | None => seg
  | Some (name, _) => name
  end.

(** The product of /api/v1/products/<product>... *)
Definition productIn (path : string) : string :=
  match split_slash (trim_slash path) with
  | api :: v1 :: products :: seg :: _ =>
      if String.eqb api "api" && String.eqb v1 "v1" && String.eqb products "products"
      then let seg := without_verb seg in default seg (PathUnescape seg)
      else ""
  | _ => ""
  end.

Definition verbOf (p : string) : string :=
  match cut_last colon p with
  | Some (EmptyString, _) | None => ""
  | Some (_, verb) => verb
  end.

Definition is_write (r : HttpRequest) : bool :=
  negb (String.eqb (r_Method r) "GET") && negb (String.eqb (r_Method r) "HEAD").

(* -------------------------------------------------------------------- *)
(** ** The policy question of a route *)

(** The routes under /api/v1/transfers. *)
Definition transfer_question (p verb : string) (write : bool) : string * string :=
  ("software_download",
   if String.eqb verb "retry" then "retry"
   else if String.eqb p "/api/v1/transfers" && write then "request"
   else if write then "cancel" else "view").

(** The routes under /api/v1/products. *)
Definition product_question (p verb : string) (write : bool) : string * string :=
  if Contains p "/replication" || Contains p "/targets/" then
    ("replication", if String.eqb verb "apply" then "apply" else if String.eqb verb "sync" then "sync"
                    else if String.eqb verb "cancelSync" then "cancel_sync" else "view")
  else if Contains p "/security" then
    ("security_report", if HasSuffix p "/export" then "export" else "view")
  else if Contains p "/compliance" then
    ("compliance_report", if String.eqb verb "run" then "run" else if String.eqb verb "cancel" then "cancel"
                          else if HasSuffix p "/export" then "export" else "view")
  else if Contains p "/autoDownloadRules" then ("download_rule", "view")
  else if Contains p "/downloads" then ("software_download", if write then "request" else "view")
  else if Contains p "/packages" then
    if String.eqb verb "discover" then ("product", "discover")
    else ("package", if write then "inspect" else "view")
  else
    ("product", if String.eqb verb "discover" then "discover"
                else if String.eqb verb "calibrate" then "calibrate"
                else if String.eqb verb "checkConnectivity" then "check_connectivity" else "view").

(** The first prefix that matches decides. *)
Definition question (r : HttpRequest) : string * string :=
  let p := r_Path r in
  let write := is_write r in
  let verb := verbOf p in
  if HasPrefix p "/api/v1/auditEvents" then ("audit_event", "view")
  else if HasPrefix p "/api/v1/reports" then ("report", "view")
  else if HasPrefix p "/api/v1/workers" then ("worker", "view")
  else if HasPrefix p "/api/v1/policies" then ("policy_catalogue", "view")
  else if HasPrefix p "/api/v1/discovery" then ("product", "view")
  else if HasPrefix p "/api/v1/replication" then ("replication", "view")
  else if HasPrefix p "/api/v1/autoDownloadRules" then ("download_rule", "view")
  else if HasPrefix p "/api/v1/downloads" then ("software_download", "view")
  else if HasPrefix p "/api/v1/packages" then ("package", "view")
  else if HasPrefix p "/api/v1/system" then ("system", "view")
  else if HasPrefix p "/api/v1/events" then ("software_download", "view")
  else if HasPrefix p "/api/v1/transfers" then transfer_question p verb write
  else if HasPrefix p "/api/v1/products" then product_question p verb write
  else if HasPrefix p "/api/v1/comparisons" then ("package", "view")
  else ("system", if write then "write" else "view").

(** The object asked about is always the whole collection. *)
Definition PolicyFor (r : HttpRequest) : PolicyResource :=
  mkPolicy (question r).1 (question r).2 (productIn (r_Path r)).

(* -------------------------------------------------------------------- *)
(** ** The requirement of a request *)

Record Requirement := mkRequirement {
  q_Action : Action;
  q_Product : string;
  q_Kind : string;
  q_PolicyAction : string;
  q_AnyScope : bool }.

Definition AlwaysAllowed (r : HttpRequest) : bool :=
  bool_decide (r_Path r ∈ ["/api/v1/whoami"; "/api/v1/system/version"; "/api/v1/system/ping"]).

Definition PublicPaths (r : HttpRequest) : bool :=
  bool_decide (r_Path r ∈ ["/healthz"; "/readyz"; "/livez"; "/metrics"; "/api/v1/system/ping"]).

Definition WorkerPlane (r : HttpRequest) : bool :=
  String.eqb (r_Method r) "POST" &&
  (String.eqb (r_Path r) "/api/v1/jobs:lease" || HasPrefix (r_Path r) "/api/v1/jobs/" ||
   HasPrefix (r_Path r) "/api/v1/workers/").

Definition actionForMethod (r : HttpRequest) : Action :=
  if is_write r then ActionOperate else ActionRead.

(** The routes whose handlers narrow what they touch. *)
Definition any_scope_routes : list (string * string) :=
  [("GET", "/api/v1/products"); ("GET", "/api/v1/auditEvents"); ("GET", "/api/v1/discovery");
   ("GET", "/api/v1/packages"); ("GET", "/api/v1/events"); ("GET", "/api/v1/downloads");
   ("GET", "/api/v1/autoDownloadRules"); ("GET", "/api/v1/replication");
   ("POST", "/api/v1/products:discover"); ("POST", "/api/v1/products:checkConnectivity");
   ("POST", "/api/v1/transfers")].

Definition RequiredFor (r : HttpRequest) : Requirement :=
  let res := PolicyFor r in
  mkRequirement
    (if HasSuffix (r_Path r) ":apply" then ActionApply else actionForMethod r)
    (productIn (r_Path r)) (p_Kind res) (p_Action res)
    (bool_decide ((r_Method r, r_Path r) ∈ any_scope_routes)).

(* -------------------------------------------------------------------- *)
(** ** The permission catalogue *)

Record PermissionDef := mkPermission {
  d_Name : string;
  d_Kind : string;
  d_Action : string;
  d_Scoped : bool;
  d_Title : string;
  d_Fallback : Action }.

#[export] Instance PermissionDef_eq_dec : EqDecision PermissionDef.
Proof. solve_decision. Defined.

Definition Catalogue : list PermissionDef :=
  [mkPermission "product.view" "product" "view" true "view products" ActionRead;
   mkPermission "product.discover" "product" "discover" true "run discovery" ActionOperate;
   mkPermission "product.calibrate" "product" "calibrate" true "measure a transfer path" ActionOperate;
   mkPermission "product.check_connectivity" "product" "check_connectivity" true "probe a registry" ActionOperate;
   mkPermission "package.view" "package" "view" true "view releases" ActionRead;
   mkPermission "package.inspect" "package" "inspect" true "inspect a release" ActionOperate;
   mkPermission "software_download.view" "software_download" "view" true "view downloads" ActionRead;
   mkPermission "software_download.request" "software_download" "request" true "request a download" ActionOperate;
   mkPermission "software_download.retry" "software_download" "retry" true "retry a download" ActionOperate;
   mkPermission "software_download.cancel" "software_download" "cancel" true "pause, resume or stop a download" ActionOperate;
   mkPermission "software_download.promote" "software_download" "promote" true "promote a release" ActionApply;
   mkPermission "software_download.apply" "software_download" "apply" true "apply a download to a registry" ActionApply;
   mkPermission "download_rule.view" "download_rule" "view" true "view automatic download rules" ActionRead;
   mkPermission "replication.view" "replication" "view" true "view mirror configuration" ActionRead;
   mkPermission "replication.sync" "replication" "sync" true "sync a mirror" ActionOperate;
   mkPermission "replication.cancel_sync" "replication" "cancel_sync" true "stop a mirror sync" ActionOperate;
   mkPermission "replication.apply" "replication" "apply" true "apply mirror configuration" ActionApply;
   mkPermission "security_report.view" "security_report" "view" true "view security findings" ActionRead;
   mkPermission "security_report.export" "security_report" "export" true "export security findings" ActionRead;
   mkPermission "compliance_report.view" "compliance_report" "view" true "view compliance verdicts" ActionRead;
   mkPermission "compliance_report.export" "compliance_report" "export" true "export compliance verdicts" ActionRead;
   mkPermission "compliance_report.run" "compliance_report" "run" true "run a compliance check" ActionOperate;
   mkPermission "compliance_report.cancel" "compliance_report" "cancel" true "stop a compliance check" ActionOperate;
   mkPermission "audit_event.view" "audit_event" "view" true "view the audit trail" ActionRead;
   mkPermission "report.view" "report" "view" false "view reports" ActionRead;
   mkPermission "worker.view" "worker" "view" false "view the worker fleet" ActionRead;
   mkPermission "policy_catalogue.view" "policy_catalogue" "view" false "view the policy catalogue" ActionRead;
   mkPermission "system.view" "system" "view" false "view deployment settings" ActionRead;
   mkPermission "system.write" "system" "write" false "change the deployment" ActionAdmin].

(** The catalogue by the question a route asks; a later entry would win. *)
Definition byQuestion : gmap (string * string) PermissionDef :=
  foldl (λ m d, <[(d_Kind d, d_Action d) := d]> m) ∅ Catalogue.

Definition PermissionFor (kind action : string) : option PermissionDef :=
  byQuestion !! (kind, action).

(* -------------------------------------------------------------------- *)
(** ** Every question has a permission *)

(** The questions a route can ask. *)
Ltac by_question :=
  unfold question, transfer_question, product_question;
  repeat match goal with
  | |- context [if ?b then _ else _] => destruct b
  end.

Lemma question_catalogued r : is_Some (byQuestion !! question r).
Proof. by_question; vm_compute; eauto. Qed.

Lemma PermissionFor_question r :
  PermissionFor (p_Kind (PolicyFor r)) (p_Action (PolicyFor r)) = byQuestion !! question r.
Proof. unfold PermissionFor, PolicyFor. cbn [p_Kind p_Action]. by rewrite <-surjective_pairing. Qed.

Lemma byQuestion_spec q d : byQuestion !! q = Some d → d ∈ Catalogue ∧ (d_Kind d, d_Action d) = q.
Proof.
  unfold byQuestion.
  assert (∀ l (m : gmap (string * string) PermissionDef), (∀ d, d ∈ l → d ∈ Catalogue) →
    (∀ q d, m !! q = Some d → d ∈ Catalogue ∧ (d_Kind d, d_Action d) = q) →
    foldl (λ m d, <[(d_Kind d, d_Action d) := d]> m) m l !! q = Some d →
    d ∈ Catalogue ∧ (d_Kind d, d_Action d) = q) as Hfold.
  { clear. induction l as [|x l IH]; intros m Hl Hm; simpl; [apply Hm|]. apply IH.
    - intros d' Hd. apply Hl. by right.
    - intros q' d' [[<- <-]|[_ Hq]]%lookup_insert_Some; [|by apply Hm]. split; [|done]. apply Hl. left. }
  apply Hfold; [done|]. intros q' d'. by rewrite lookup_empty.
Qed.

Lemma catalogue_lookup d : d ∈ Catalogue → PermissionFor (d_Kind d) (d_Action d) = Some d.
Proof.
  assert (forallb (λ d, bool_decide (PermissionFor (d_Kind d) (d_Action d) = Some d)) Catalogue = true)
    as Hall by (vm_compute; reflexivity).
  intros Hd. rewrite forallb_forall in Hall. apply (bool_decide_eq_true_1 _), Hall.
  by apply list_elem_of_In.
Qed.

(** A request names a product only on a path under /api/v1/products/. *)
Lemma productIn_prefix p :
  is_rooted p = true → productIn p ≠ "" → HasPrefix p "/api/v1/products/" = true.
Proof.
  destruct p as [|c p]; simpl; [done|]. intros Hc. unfold productIn. simpl.
  rewrite Hc. destruct (Ascii.eqb_spec c slash) as [->|]; [|done].
  destruct (split_slash p) as [|api [|v1 [|products [|seg l]]]] eqn:E; try done.
  destruct (String.eqb_spec api "api") as [->|]; [|done].
  destruct (String.eqb_spec v1 "v1") as [->|]; [|done].
  destruct (String.eqb_spec products "products") as [->|]; [|done]. intros _.
  apply split_slash_inv in E as [_ [[? _]|(p1 & -> & E)]]; [done|].
  symmetry in E. apply split_slash_inv in E as [_ [[? _]|(p2 & -> & E)]]; [done|].
  symmetry in E. apply split_slash_inv in E as [_ [[? _]|(p3 & -> & _)]]; [done|].
  apply HasPrefix_app. by exists p3.
Qed.

Lemma product_question_scoped r def :
  is_rooted (r_Path r) = true → p_Product (PolicyFor r) ≠ "" →
  byQuestion !! question r = Some def → d_Scoped def = true.
Proof.
  intros Hroot Hprod. simpl in Hprod. apply productIn_prefix in Hprod; [|done].
  apply HasPrefix_app in Hprod as [t Ht]. destruct r as [m path]. simpl in Ht. subst path.
  unfold question. simpl. unfold product_question.
  repeat match goal with |- context [if ?b then _ else _] => destruct b end;
    intros Hdef; vm_compute in Hdef; by injection Hdef as <-.
Qed.

(** C13. No route is without a permission, and no estate question is asked about a
    product.  Whatever the method and the path, known or not, the question the
    policy engine is asked is one the catalogue has a permission for; and a
    request on a rooted path that names a product is only ever asked about a
    permission that can be held on one. *)
Theorem every_request_has_a_permission r :
  ∃ def, PermissionFor (p_Kind (PolicyFor r)) (p_Action (PolicyFor r)) = Some def ∧
    def ∈ Catalogue ∧
    (is_rooted (r_Path r) = true → p_Product (PolicyFor r) ≠ "" → d_Scoped def = true).
Proof.
  destruct (question_catalogued r) as [def Hdef]. exists def. rewrite PermissionFor_question.
  split; [done|]. split; [by apply (byQuestion_spec _ _ Hdef)|].
  intros Hroot Hprod. by eapply product_question_scoped.
Qed.

(* -------------------------------------------------------------------- *)
(** ** Product names and the words of the routes *)

Definition route_words : list string :=
  ["replication"; "security"; "compliance"; "autoDownloadRules"; "downloads"; "packages"].

(** A product name that is one plain segment and no route word begins. *)
Definition plain_product (p : string) : Prop :=
  p ≠ "" ∧ has_char slash p = false ∧ has_char colon p = false ∧ has_char percent p = false ∧
  ∀ w, w ∈ route_words → String.prefix w p = false.

Definition product_path (p verb : string) : string :=
  String.append "/api/v1/products/" (String.append p (String colon verb)).

Lemma productIn_verb p verb :
  p ≠ "" → has_char slash p = false → has_char percent p = false →
  has_char slash verb = false → has_char colon verb = false →
  productIn (product_path p verb) = p.
Proof.
  intros Hp Hs Hpc Hv Hvc. unfold productIn, product_path. 
  change (trim_slash _) with (String.append "api" (String slash (String.append "v1" (String slash
    (String.append "products" (String slash (String.append p (String colon verb)))))))).
  rewrite !split_slash_app by done.
  destruct (split_slash (String.append p (String colon verb))) as [|seg l] eqn:E.
  - exfalso. destruct p as [|c p]; [done|]. simpl in E. destruct (Ascii.eqb c slash); [done|].
    by destruct (split_slash _).
  - apply split_slash_inv in E as [_ [[-> <-]|(t & E & ->)]].
    + simpl. unfold without_verb. rewrite cut_last_app by done. destruct p as [|c p]; [done|].
      by rewrite PathUnescape_plain.
    + exfalso. assert (has_char slash (String.append p (String colon verb)) = true) as Hc.
      { rewrite E, has_char_app. simpl. by rewrite orb_true_r. }
      rewrite has_char_app in Hc. cbn [has_char] in Hc. rewrite Hs, Hv in Hc. done.
Qed.

Lemma product_path_segments p verb :
  product_path p verb = String.append "" (String slash (String.append "api" (String slash
    (String.append "v1" (String slash (String.append "products" (String slash
      (String.append p (String colon verb))))))))).
Proof. reflexivity. Qed.

(** A path under a plain product and no deeper holds none of the route words. *)
Lemma Contains_product_path p verb w :
  has_char slash w = false → has_char colon w = false → has_char slash p = false →
  has_char slash verb = false →
  String.prefix w p = false → w ≠ "" →
  String.prefix w "api/v1/products" = false → String.prefix w "v1/products" = false →
  String.prefix w "products" = false →
  Contains (product_path p verb) (String slash w) = false.
Proof.
  intros Hs Hc Hp Hv Hw Hne Ha Hb Hd. 
  set (tail := String.append p (String colon verb)).
  assert (has_char slash tail = false) as Htail.
  { unfold tail. rewrite has_char_app. cbn [has_char]. by rewrite Hp, Hv. }
  assert (String.prefix w tail = false) as Hwt by (unfold tail; by rewrite prefix_before).
  rewrite product_path_segments. fold tail.
  rewrite !Contains_segment by done. rewrite !prefix_before by done.
  rewrite Hwt, (Contains_absent slash w tail) by done.
  pose proof (prefix_before w "api" slash "v1/products" Hs) as E1.
  pose proof (prefix_before w "v1" slash "products" Hs) as E2.
  change (String.append "api" (String slash "v1/products")) with "api/v1/products" in E1.
  change (String.append "v1" (String slash "products")) with "v1/products" in E2.
  rewrite Ha in E1. rewrite Hb in E2. rewrite <-E1, <-E2, Hd. destruct w; [done|reflexivity].
Qed.

(** A verb on a product asks for its own permission, on that product.  For a
    product whose name is one plain segment that no route word begins, running
    discovery, measuring a path and probing connectivity are each judged as that
    action on that product, whatever the method. *)
Theorem product_verbs_ask_their_permission m p verb act :
  plain_product p →
  (verb, act) ∈ [("discover", "discover"); ("calibrate", "calibrate");
                 ("checkConnectivity", "check_connectivity")] →
  PolicyFor (mkHttp m (product_path p verb)) = mkPolicy "product" act p.
Proof.
  intros (Hne & Hs & Hc & Hpc & Hwords) Hverb.
  assert (has_char slash verb = false ∧ has_char colon verb = false ∧
    (if String.eqb verb "discover" then "discover" else if String.eqb verb "calibrate" then "calibrate"
     else if String.eqb verb "checkConnectivity" then "check_connectivity" else "view") = act)
    as (Hvs & Hvc & Hact).
  { rewrite !elem_of_cons, elem_of_nil in Hverb. destruct Hverb as [[= -> ->]|[[= -> ->]|[[= -> ->]|[]]]]; done. }
  unfold PolicyFor. cbn [r_Path]. rewrite productIn_verb by done.
  assert (question (mkHttp m (product_path p verb)) = ("product", act)) as ->; [|done].
  assert (verbOf (product_path p verb) = verb) as Hv.
  { unfold verbOf, product_path. rewrite append_assoc.
    rewrite cut_last_app by done. done. }
  assert (∀ w, w ∈ route_words → Contains (product_path p verb) (String slash w) = false) as Hno.
  { intros w Hw. assert (String.prefix w p = false) as Hwp by auto.
    unfold route_words in Hw. rewrite !elem_of_cons, elem_of_nil in Hw.
    destruct Hw as [-> |[-> |[-> |[-> |[-> |[-> |[]]]]]]]; by apply Contains_product_path. }
  assert (Contains (product_path p verb) "/targets/" = false) as Hnt.
  { rewrite product_path_segments. change "/targets/" with (String slash "targets/").
    rewrite !Contains_segment by done.
    assert (has_char slash (String.append p (String colon verb)) = false) as Htail.
    { rewrite has_char_app. cbn [has_char]. by rewrite Hs, Hvs. }
    rewrite (prefix_absent slash "targets/" _ eq_refl Htail), (Contains_absent _ _ _ Htail). reflexivity. }
  unfold question. cbn [r_Path]. rewrite Hv.
  transitivity (product_question (product_path p verb) verb (is_write (mkHttp m (product_path p verb))));
    [reflexivity|].
  unfold product_question. rewrite Hnt.
  change "/replication" with (String slash "replication"). change "/security" with (String slash "security").
  change "/compliance" with (String slash "compliance").
  change "/autoDownloadRules" with (String slash "autoDownloadRules").
  change "/downloads" with (String slash "downloads"). change "/packages" with (String slash "packages").
  rewrite !Hno by set_solver. simpl orb. cbv iota. by rewrite Hact.
Qed.

(** A product a route word begins is misjudged: measuring a path on it is judged as
    reading its security report, scanning it as reading a mirror. *)
Example route_word_misleads :
  PolicyFor (mkHttp "POST" "/api/v1/products/security-suite:calibrate") =
    mkPolicy "security_report" "view" "security-suite" ∧
  PolicyFor (mkHttp "POST" "/api/v1/products/replication-hub/packages:discover") =
    mkPolicy "replication" "view" "replication-hub" ∧
  PolicyFor (mkHttp "POST" "/api/v1/products/suite:calibrate") =
    mkPolicy "product" "calibrate" "suite".
Proof. vm_compute. auto. Qed.

Lemma product_verbs_ask_their_permission_witness :
  PolicyFor (mkHttp "POST" (product_path "software-01" "calibrate")) =
    mkPolicy "product" "calibrate" "software-01".
Proof.
  apply (product_verbs_ask_their_permission "POST" "software-01" "calibrate" "calibrate").
  - split; [done|]. split; [reflexivity|]. split; [reflexivity|]. split; [reflexivity|].
    intros w Hw. unfold route_words in Hw. rewrite !elem_of_cons, elem_of_nil in Hw.
    destruct Hw as [-> |[-> |[-> |[-> |[-> |[-> |[]]]]]]]; reflexivity.
  - right. left.
Defined.
