(* ===== verification/Access.v ===== *)
(** * The gate in front of the API

    pkg/authz/engine.go (the policy engine interface, the Cerbos client over an
    abstract policy decision point, batches), internal/api/middleware
    workload.go (Confine), authorize.go (Authorize, decide, Permits, Refusal)
    and permissions.go (ResolveAccess).  The gate is the two middlewares in the
    router's order; serving a request carries the products the handler may
    touch, none meaning all. *)

From S2P Require Import Prelude GoStrings Identity Routes.
Open Scope Z_scope.

(* -------------------------------------------------------------------- *)
(** ** Engines *)

Record Resource := mkResource { rs_Kind : string; rs_ID : string; rs_Product : string }.

Record Query := mkQuery { q_Resource : Resource; q_Actions : list string }.

(** Which actions are allowed: a Go map[string]bool, a missing key being false. *)
Notation Answer := (gmap string bool).

Definition allows (m : Answer) (action : string) : bool := default false (m !! action).

(** [None] is an error.  An engine may also answer many questions at once. *)
Record Engine := mkEngine {
  Check : AuthzIdentity → Resource → list string → option Answer;
  BatchCheck : option (AuthzIdentity → list Query → option (list Answer)) }.

Definition Allowed (e : Engine) (id : AuthzIdentity) (res : Resource) (action : string) : option bool :=
  (λ m, allows m action) <$> Check e id res [action].

Fixpoint check_each (e : Engine) (id : AuthzIdentity) (queries : list Query) : option (list Answer) :=
  match queries with
  | [] => Some []
  | q :: queries =>
      got ← Check e id (q_Resource q) (q_Actions q);
      out ← check_each e id queries;
      Some (got :: out)
  end.

Definition CheckMany (e : Engine) (id : AuthzIdentity) (queries : list Query) : option (list Answer) :=
  match BatchCheck e with
  | Some batch => batch id queries
  | None => check_each e id queries
  end.

(** What the clients of an engine rely on: a question about several actions is
    answered like one about each, and a batch like its questions. *)
Class LawfulEngine (e : Engine) : Prop := {
  check_alone id res actions action m : action ∈ actions →
    Check e id res actions = Some m →
    Allowed e id res action = Some (allows m action);
  batch_each id queries answers : CheckMany e id queries = Some answers →
    Forall2 (λ q m, Check e id (q_Resource q) (q_Actions q) = Some m) queries answers }.

Definition refuseAll (actions : list string) : Answer :=
  foldl (λ m a, <[a := false]> m) ∅ actions.

Definition allowAll (actions : list string) : Answer :=
  foldl (λ m a, <[a := true]> m) ∅ actions.

Definition AllowAll : Engine :=
  mkEngine (λ _ _ actions, Some (allowAll actions))
    (Some (λ _ queries, Some ((λ q, allowAll (q_Actions q)) <$> queries))).

(* -------------------------------------------------------------------- *)
(** ** Cerbos *)

(** One entry of the request: the resource with its attributes, the actions. *)
Record Entry := mkEntry {
  e_Kind : string;
  e_ID : string;
  e_Tenant : string;
  e_Product : option string;
  e_Actions : list string }.

(** The policy decision point: principal id, roles, tenant and products, and the
    entries; [None] when it cannot be reached or answers something else; one
    effect per action for each entry it answered. *)
Definition DecisionPoint :=
  string → list string → string → list string → list Entry → option (list (gmap string string)).

Definition orStar (s : string) : string := if String.eqb s "" then "*" else s.

(** The deployment's tenant labels the resource, the caller's when it has none. *)
Definition entry_of (tenant : string) (id : AuthzIdentity) (res : Resource) (actions : list string) : Entry :=
  mkEntry (rs_Kind res) (orStar (rs_ID res)) (if String.eqb tenant "" then a_Tenant id else tenant)
    (if String.eqb (rs_Product res) "" then None else Some (rs_Product res)) actions.

Definition post (pdp : DecisionPoint) (id : AuthzIdentity) (entries : list Entry)
    : option (list (gmap string string)) :=
  pdp (a_Subject id) (AllRoles id) (a_Tenant id) (map_to_list (a_Products id)).*1 entries.

Definition read_effects (actions : list string) (effects : gmap string string) : Answer :=
  foldl (λ m a, <[a := bool_decide (effects !! a = Some "EFFECT_ALLOW")]> m) ∅ actions.

Definition cerbos_check (pdp : DecisionPoint) (tenant : string) (id : AuthzIdentity) (res : Resource)
    (actions : list string) : option Answer :=
  if bool_decide (AllRoles id = []) || bool_decide (actions = []) then Some (refuseAll actions)
  else match post pdp id [entry_of tenant id res actions] with
       | None => None
       | Some [] => Some (refuseAll actions)
       | Some (effects :: _) => Some (read_effects actions effects)
       end.

(** The entries asked about, and the answers put back at their questions: one
    with no actions is not asked, one the point left out is refused. *)
Fixpoint place_answers (queries : list Query) (results : list (gmap string string)) : list Answer :=
  match queries with
  | [] => []
  | q :: queries =>
      if bool_decide (q_Actions q = []) then ∅ :: place_answers queries results
      else match results with
           | effects :: results => read_effects (q_Actions q) effects :: place_answers queries results
           | [] => refuseAll (q_Actions q) :: place_answers queries []
           end
  end.

Definition asked (queries : list Query) : list Query :=
  filter (λ q, q_Actions q ≠ []) queries.

Definition cerbos_many (pdp : DecisionPoint) (tenant : string) (id : AuthzIdentity)
    (queries : list Query) : option (list Answer) :=
  if bool_decide (AllRoles id = []) then Some ((λ q, refuseAll (q_Actions q)) <$> queries)
  else match asked queries with
       | [] => Some ((λ _, ∅) <$> queries)
       | qs => place_answers queries <$>
                 post pdp id ((λ q, entry_of tenant id (q_Resource q) (q_Actions q)) <$> qs)
       end.

Definition Cerbos (pdp : DecisionPoint) (tenant : string) : Engine :=
  mkEngine (cerbos_check pdp tenant) (Some (cerbos_many pdp tenant)).

(* -------------------------------------------------------------------- *)
(** ** The gate *)

(** The three refusals of a person, and the two of the data plane's fence. *)
Inductive Denial :=
  | NotProvisioned
  | NothingGranted
  | LacksPermission (permission product : string)
  | EngineUnreachable
  | NotAWorker
  | WorkerOnly.

#[export] Instance Denial_eq_dec : EqDecision Denial.
Proof. solve_decision. Defined.

(** Served with the products the handler may touch ([] is all), or denied. *)
Inductive Verdict :=
  | Served (permitted : list string)
  | Denied (why : Denial).

#[export] Instance Verdict_eq_dec : EqDecision Verdict.
Proof. solve_decision. Defined.

Definition action_name (a : Action) : string :=
  match a with
  | ActionRead => "read" | ActionOperate => "operate" | ActionApply => "apply"
  | ActionAdmin => "admin" | ActionWork => "work"
  end.

Definition requiredPermission (req : Requirement) : string :=
  match PermissionFor (q_Kind req) (q_PolicyAction req) with
  | Some def => d_Name def
  | None => action_name (q_Action req)
  end.

Definition Refusal (id : Identity) (req : Requirement) : Denial :=
  if negb (IsMember id) then NotProvisioned
  else if bool_decide (Grants id = []) then NothingGranted
  else LacksPermission (requiredPermission req) (q_Product req).

(** The products the engine says yes for, in order; an error ends the question. *)
Fixpoint permitted_products (e : Engine) (id : AuthzIdentity) (kind action : string)
    (products : list string) : option (list string) :=
  match products with
  | [] => Some []
  | p :: products =>
      ok ← Allowed e id (mkResource kind "*" p) action;
      rest ← permitted_products e id kind action products;
      Some (if (ok : bool) then p :: rest else rest)
  end.

Definition decide_request (e : Engine) (id : Identity) (r : HttpRequest) (req : Requirement)
    : option (bool * list string) :=
  let res := PolicyFor r in
  ok ← Allowed e (principal id) (mkResource (p_Kind res) "*" (p_Product res)) (p_Action res);
  if ok || negb (q_AnyScope req) then Some (ok, [])
  else
    permitted ← permitted_products e (principal id) (p_Kind res) (p_Action res)
                  (map_to_list (ProductRoles id)).*1;
    let permitted := sort_strings permitted in
    Some (bool_decide (permitted ≠ []), permitted).

Definition ladderProducts (id : Identity) (a : Action) : list string :=
  sort_strings (granted_products a ∅ (Grants id)).

Definition Authorize (engine : option Engine) (id : Identity) (r : HttpRequest) : Verdict :=
  if WorkerPlane r || AlwaysAllowed r then Served []
  else
    let req := RequiredFor r in
    match engine with
    | Some e =>
        if String.eqb (Method id) "" || String.eqb (Method id) "none" then Served []
        else match decide_request e id r req with
             | None => Denied EngineUnreachable
             | Some (true, permitted) => Served permitted
             | Some (false, _) => Denied (Refusal id req)
             end
    | None =>
        if Can (q_Action req) (mkScope (Tenant id) (q_Product req)) id then Served []
        else if q_AnyScope req && CanAny (q_Action req) id then Served (ladderProducts id (q_Action req))
        else Denied (Refusal id req)
    end.

Definition Confine (id : Identity) (r : HttpRequest) : option Denial :=
  if WorkerPlane r then
    if negb (Can ActionWork (mkScope (Tenant id) "") id) then Some NotAWorker else None
  else if WorkloadOnly id then Some WorkerOnly else None.

(** Confine first, then Authorize. *)
Definition gate (engine : option Engine) (id : Identity) (r : HttpRequest) : Verdict :=
  match Confine id r with
  | Some why => Denied why
  | None => Authorize engine id r
  end.

(** Authentication before the gate: [None] is a request whose credential was not
    accepted; a public path is asked for none. *)
Inductive Reply :=
  | Unauthenticated
  | Judged (v : Verdict).

Definition Auth (authenticate : HttpRequest → option Identity) (engine : option Engine)
    (r : HttpRequest) : Reply :=
  if PublicPaths r then Judged (gate engine Anonymous r)
  else match authenticate r with
       | None => Unauthenticated
       | Some id => Judged (gate engine id r)
       end.

(** The authenticator of a deployment without authentication. *)
Definition AnonymousAuthenticator (r : HttpRequest) : option Identity := Some Anonymous.

(** A question a handler asks later, by the same authority. *)
Definition Permits (engine : option Engine) (id : Identity) (req : Requirement) : option bool :=
  match engine with
  | Some e =>
      if String.eqb (Method id) "" || String.eqb (Method id) "none"
      then Some (Can (q_Action req) (mkScope (Tenant id) (q_Product req)) id)
      else Allowed e (principal id) (mkResource (q_Kind req) "*" (q_Product req)) (q_PolicyAction req)
  | None => Some (Can (q_Action req) (mkScope (Tenant id) (q_Product req)) id)
  end.

(* -------------------------------------------------------------------- *)
(** ** The permission set an interface renders from *)

Record AccessSet := mkAccess {
  Global : list string;
  ByProduct : gmap string (list string);
  Unavailable : bool }.

(** The kinds asked about, in the order first seen, each with its actions. *)
Definition kinds_of (defs : list PermissionDef) : list string := distinct ∅ (d_Kind <$> defs).

Definition actions_of (kind : string) (defs : list PermissionDef) : list string :=
  d_Action <$> filter (λ d, d_Kind d = kind) defs.

Definition checkAll (e : Engine) (id : AuthzIdentity) (product : string) (defs : list PermissionDef)
    : option (list string) :=
  if bool_decide (defs = []) then Some []
  else
    let kinds := kinds_of defs in
    answers ← CheckMany e id
      ((λ kind, mkQuery (mkResource kind "*" product) (actions_of kind defs)) <$> kinds);
    let allowed := list_to_map (zip kinds answers) : gmap string Answer in
    Some (sort_strings (d_Name <$>
      filter (λ d, allows (default ∅ (allowed !! d_Kind d)) (d_Action d) = true) defs)).

(** Each product in turn; an error ends the question. *)
Fixpoint access_by_product (e : Engine) (id : AuthzIdentity) (scoped : list PermissionDef)
    (products : list string) : option (gmap string (list string)) :=
  match products with
  | [] => Some ∅
  | p :: products =>
      held ← checkAll e id p scoped;
      rest ← access_by_product e id scoped products;
      Some (if bool_decide (held = []) then rest else <[p := held]> rest)
  end.

Definition resolveFromLadder (id : Identity) : AccessSet :=
  let global := sort_strings (d_Name <$>
    filter (λ d, Can (d_Fallback d) (mkScope (Tenant id) "") id = true) Catalogue) in
  let held p := sort_strings (d_Name <$>
    filter (λ d, d_Scoped d = true ∧ d_Name d ∉ global ∧
                 Can (d_Fallback d) (mkScope (Tenant id) p) id = true) Catalogue) in
  mkAccess global
    (foldl (λ m p, if bool_decide (held p = []) then m else <[p := held p]> m) ∅ (ProductNames id)) false.

Definition unavailable : AccessSet := mkAccess [] ∅ true.

Definition ResolveAccess (engine : option Engine) (id : Identity) : AccessSet :=
  match engine with
  | None => resolveFromLadder id
  | Some e =>
      match checkAll e (principal id) "" Catalogue with
      | None => unavailable
      | Some global =>
          let scoped := filter (λ d, d_Scoped d = true ∧ d_Name d ∉ global) Catalogue in
          match access_by_product e (principal id) scoped (ProductNames id) with
          | None => unavailable
          | Some byProduct => mkAccess global byProduct false
          end
      end
  end.

(* -------------------------------------------------------------------- *)
(** ** Who decides *)

Lemma permitted_products_Some e id kind action products out :
  permitted_products e id kind action products = Some out ↔
    (∀ p, p ∈ products → is_Some (Allowed e id (mkResource kind "*" p) action)) ∧
    out = filter (λ p, Allowed e id (mkResource kind "*" p) action = Some true) products.
Proof.
  revert out. induction products as [|p products IH]; intros out; cbn [permitted_products].
  - split; [intros [= <-]; split; [by intros ? ?%elem_of_nil|done]|by intros [_ ->]].
  - rewrite filter_cons. destruct (Allowed e id (mkResource kind "*" p) action) as [ok|] eqn:Hok.
    + cbn [mbind option_bind]. destruct (permitted_products e id kind action products) as [rest|] eqn:Hrest.
      * destruct (proj1 (IH rest) eq_refl) as [Hall ->]. cbn [mbind option_bind]. split.
        { intros [= <-]. split; [|by destruct ok].
          intros q [->|Hq]%elem_of_cons; [by rewrite Hok|by apply Hall]. }
        { intros [_ ->]. by destruct ok. }
      * split; [done|]. intros [Hall ->]. exfalso. discriminate (proj2 (IH _) (conj (λ q Hq, Hall q (list_elem_of_further q p _ Hq)) eq_refl)).
    + split; [done|]. intros [Hall _]. destruct (Hall p) as [x Hx]; [left|]. congruence.
Qed.

Definition engine_governs (id : Identity) (r : HttpRequest) : Prop :=
  Method id ∉ [""; "none"] ∧ WorkerPlane r = false ∧ AlwaysAllowed r = false.

Lemma Authorize_engine e id r :
  engine_governs id r →
  Authorize (Some e) id r =
    match decide_request e id r (RequiredFor r) with
    | None => Denied EngineUnreachable
    | Some (true, permitted) => Served permitted
    | Some (false, _) => Denied (Refusal id (RequiredFor r))
    end.
Proof.
  intros (Hm & Hw & Ha). unfold Authorize. rewrite Hw, Ha. simpl.
  destruct (String.eqb_spec (Method id) ""); [set_solver|].
  destruct (String.eqb_spec (Method id) "none"); [set_solver|]. done.
Qed.


Lemma product_CanAny a act :
  product_tier a → CanAny act (fromAuthz a) = true ↔ ∃ p, holds_on a act p.
Proof.
  intros Hp. rewrite CanAny_true, HasRole_nil by apply Hp. split.
  - intros [(g & Hg & <-)|]; [|done]. apply (product_grants _ _ Hp) in Hg as [Hh _]. eauto.
  - intros [p Hh]. left. exists (mkGrant act (mkScope (a_Tenant a) p)). split; [|done].
    by apply (product_grants _ _ Hp).
Qed.

Lemma product_ladderProducts a act p :
  product_tier a → p ∈ ladderProducts (fromAuthz a) act ↔ holds_on a act p.
Proof.
  intros Hp. unfold ladderProducts. rewrite elem_of_sort_strings, elem_of_granted_products. split.
  - intros (_ & _ & g & Hg & <- & <-). by apply (product_grants _ _ Hp) in Hg as [? _].
  - intros Hh. split; [destruct Hh as (? & ? & ? & _); eapply tier_named; eauto|].
    split; [set_solver|]. exists (mkGrant act (mkScope (a_Tenant a) p)). split; [|done].
    by apply (product_grants _ _ Hp).
Qed.

(** Without an engine a product's people stay on their products.  A caller of
    the product tier is served exactly a request that names a product it holds
    the action on, or, holding the action somewhere, a route that narrows
    itself - and then with the products it holds the action on, each once and at
    least one, so that the list is never mistaken for no restriction. *)
Theorem product_callers_are_narrowed a r :
  product_tier a → WorkerPlane r = false → AlwaysAllowed r = false →
  let req := RequiredFor r in
  let named := q_Product req ≠ "" ∧ holds_on a (q_Action req) (q_Product req) in
  (named → Authorize None (fromAuthz a) r = Served []) ∧
  (¬ named → ∀ ps, Authorize None (fromAuthz a) r = Served ps ↔
     q_AnyScope req = true ∧ (∃ p, holds_on a (q_Action req) p) ∧
     ps = ladderProducts (fromAuthz a) (q_Action req)) ∧
  (∀ p, p ∈ ladderProducts (fromAuthz a) (q_Action req) ↔ holds_on a (q_Action req) p) ∧
  NoDup (ladderProducts (fromAuthz a) (q_Action req)).
Proof.
  intros Hp Hw Ha req named. unfold Authorize. rewrite Hw, Ha. simpl orb. cbv iota. fold req.
  assert (Can (q_Action req) (mkScope (a_Tenant a) (q_Product req)) (fromAuthz a) = true ↔ named) as Hcan.
  { rewrite product_Can by done. unfold named. naive_solver. }
  change (Tenant (fromAuthz a)) with (a_Tenant a). split; [|split; [|split]].
  - intros Hn. by rewrite (proj2 Hcan Hn).
  - intros Hn ps. destruct (Can _ _ _); [naive_solver|]. rewrite <-product_CanAny by done.
    destruct (q_AnyScope req), (CanAny _ _); simpl; split; try done; try naive_solver.
  - intros p. by apply product_ladderProducts.
  - unfold ladderProducts, sort_strings. rewrite merge_sort_Permutation. apply NoDup_granted_products.
Qed.

Lemma Anonymous_passes engine r : gate engine Anonymous r = Served [].
Proof.
  assert (∀ act p, Can act (mkScope "" p) Anonymous = true) as Hcan by (intros []; reflexivity).
  unfold gate, Confine, Authorize. change (WorkloadOnly Anonymous) with false.
  change (Tenant Anonymous) with "". rewrite !Hcan. destruct (WorkerPlane r); [done|].
  destruct (AlwaysAllowed r); [done|]. by destruct engine.
Qed.

(** C11. The front door.  With any authenticator and any engine: a public path is
    served to everyone, and nothing else is without an identity the
    authenticator accepted.  A credential granted nothing but work is served on
    the worker plane and nowhere else; the worker plane serves exactly the
    identities that may work in their own tenant; and with authentication
    switched off every request is served. *)
Theorem the_fence_holds authenticate engine r :
  (PublicPaths r = true → Auth authenticate engine r = Judged (Served [])) ∧
  (PublicPaths r = false → authenticate r = None → Auth authenticate engine r = Unauthenticated) ∧
  (PublicPaths r = false → ∀ id, authenticate r = Some id →
     (WorkloadOnly id = true → ∀ ps, Auth authenticate engine r = Judged (Served ps) → WorkerPlane r = true) ∧
     (WorkerPlane r = true →
        Auth authenticate engine r =
          Judged (if Can ActionWork (mkScope (Tenant id) "") id then Served [] else Denied NotAWorker))) ∧
  Auth AnonymousAuthenticator engine r = Judged (Served []).
Proof.
  unfold Auth. split; [|split; [|split]].
  - intros ->. by rewrite Anonymous_passes.
  - by intros -> ->.
  - intros -> id ->. unfold gate, Confine. split.
    + intros Hw ps. destruct (WorkerPlane r); [done|]. by rewrite Hw.
    + intros Hw. unfold Authorize. rewrite Hw. simpl. by destruct (Can _ _ _).
  - simpl. rewrite Anonymous_passes. by destruct (PublicPaths r).
Qed.

(* -------------------------------------------------------------------- *)
(** ** Cerbos *)

Lemma fold_answer (f : string → bool) actions (m : Answer) a :
  default false (foldl (λ m a, <[a := f a]> m) m actions !! a) =
    if bool_decide (a ∈ actions) then f a else default false (m !! a).
Proof.
  revert m. induction actions as [|b l IH]; intros m; simpl; [done|]. rewrite IH.
  destruct (decide (a ∈ l)) as [Hl|Hl].
  - rewrite !bool_decide_true; [done|by right|done].
  - rewrite (bool_decide_false (a ∈ l)) by done. destruct (decide (a = b)) as [->|Hab].
    + rewrite lookup_insert_eq, bool_decide_true by left. done.
    + rewrite lookup_insert_ne, bool_decide_false by set_solver. done.
Qed.

Lemma refuseAll_allows actions a : allows (refuseAll actions) a = false.
Proof.
  unfold refuseAll, allows. rewrite (fold_answer (λ _, false)), lookup_empty. by case_bool_decide.
Qed.

Lemma read_effects_allows actions effects a :
  allows (read_effects actions effects) a = true ↔
    a ∈ actions ∧ effects !! a = Some "EFFECT_ALLOW".
Proof.
  unfold allows, read_effects. rewrite (fold_answer (λ a, bool_decide (effects !! a = Some "EFFECT_ALLOW"))).
  case_bool_decide; [|naive_solver]. rewrite bool_decide_eq_true. naive_solver.
Qed.

(** Answer number [n] of the point is for question number [n] that has actions. *)
Lemma place_answers_allows queries results i q m a :
  queries !! i = Some q → place_answers queries results !! i = Some m → allows m a = true →
  a ∈ q_Actions q ∧ ∃ effects, results !! length (asked (take i queries)) = Some effects ∧
    effects !! a = Some "EFFECT_ALLOW".
Proof.
  revert results i. induction queries as [|q0 queries IH]; intros results i; [done|].
  cbn [place_answers]. unfold asked. case_bool_decide as Hq0.
  - destruct i as [|i]; simpl.
    + intros [= ->] [= <-]. by unfold allows; rewrite lookup_empty.
    + intros Hq Hm Ha. rewrite filter_cons_False by tauto. by eapply IH.
  - destruct results as [|effects results].
    + destruct i as [|i]; simpl.
      * intros [= ->] [= <-]. by rewrite refuseAll_allows.
      * intros Hq Hm Ha. rewrite filter_cons_True by done. simpl.
        destruct (IH _ _ Hq Hm Ha) as (_ & e & He & _). by rewrite lookup_nil in He.
    + destruct i as [|i]; simpl.
      * intros [= ->] [= <-] [? ?]%read_effects_allows. split; [done|]. by exists effects.
      * intros Hq Hm Ha. rewrite filter_cons_True by done. simpl. by eapply IH.
Qed.

(** Cerbos permits only what the decision point said.  An action is allowed
    only to a caller with a role, only when it was asked about, and only by an
    explicit allow in the answer for that very entry, alone or in a batch; a
    point that cannot be reached is an error, and every other silence - an
    unknown effect, an entry left out - is a refusal. *)
Theorem Cerbos_fails_closed pdp tenant id :
  (∀ res actions m a, Check (Cerbos pdp tenant) id res actions = Some m → allows m a = true →
     AllRoles id ≠ [] ∧ a ∈ actions ∧
     ∃ effects rest, post pdp id [entry_of tenant id res actions] = Some (effects :: rest) ∧
       effects !! a = Some "EFFECT_ALLOW") ∧
  (∀ queries answers i q m a, CheckMany (Cerbos pdp tenant) id queries = Some answers →
     queries !! i = Some q → answers !! i = Some m → allows m a = true →
     AllRoles id ≠ [] ∧ a ∈ q_Actions q ∧
     ∃ results effects,
       post pdp id ((λ q, entry_of tenant id (q_Resource q) (q_Actions q)) <$> asked queries) = Some results ∧
       results !! length (asked (take i queries)) = Some effects ∧
       effects !! a = Some "EFFECT_ALLOW").
Proof.
  split.
  - intros res actions m a. simpl. unfold cerbos_check.
    destruct (bool_decide (AllRoles id = [])) eqn:Hr; simpl.
    { intros [= <-]. by rewrite refuseAll_allows. }
    apply bool_decide_eq_false in Hr.
    case_bool_decide as Hact; [intros [= <-]; by rewrite refuseAll_allows|].
    destruct (post _ _ _) as [[|effects rest]|] eqn:Hpost; [| |done].
    + intros [= <-]. by rewrite refuseAll_allows.
    + intros [= <-] [Hin Ha]%read_effects_allows. eauto 10.
  - intros queries answers i q m a. unfold CheckMany. simpl. unfold cerbos_many.
    case_bool_decide as Hr.
    { intros [= <-] Hq. rewrite list_lookup_fmap, Hq. intros [= <-]. by rewrite refuseAll_allows. }
    destruct (asked queries) as [|q0 qs] eqn:Hasked.
    { intros [= <-] Hq. rewrite list_lookup_fmap, Hq. intros [= <-]. by unfold allows; rewrite lookup_empty. }
    rewrite <-Hasked. destruct (post _ _ _) as [results|] eqn:Hpost; [|done].
    intros [= <-] Hq Hm Ha. destruct (place_answers_allows _ _ _ _ _ _ Hq Hm Ha) as (? & e & ? & ?).
    eauto 10.
Qed.

(* -------------------------------------------------------------------- *)
(** ** What the interface is told *)

Lemma elem_of_distinct seen l x : x ∈ distinct seen l ↔ x ∈ l ∧ x ∉ seen.
Proof.
  revert seen. induction l as [|y l IH]; intros seen; simpl; [set_solver|].
  case_bool_decide; rewrite ?elem_of_cons, IH; [set_solver|].
  destruct (decide (x = y)); set_solver.
Qed.

Lemma NoDup_distinct seen l : NoDup (distinct seen l).
Proof.
  revert seen. induction l as [|y l IH]; intros seen; simpl; [constructor|].
  case_bool_decide; [done|]. constructor; [|done]. rewrite elem_of_distinct. set_solver.
Qed.

Section access.
Context (e : Engine) `{!LawfulEngine e} (id : AuthzIdentity).

(** An answered batch holds the engine's answer to each of its questions. *)
Lemma answers_lookup product defs answers d :
  CheckMany e id ((λ kind, mkQuery (mkResource kind "*" product) (actions_of kind defs)) <$> kinds_of defs)
    = Some answers →
  d ∈ defs →
  ∃ m, list_to_map (M := gmap string Answer) (zip (kinds_of defs) answers) !! d_Kind d = Some m ∧
    Allowed e id (mkResource (d_Kind d) "*" product) (d_Action d) = Some (allows m (d_Action d)).
Proof using Type*.
  intros Hmany Hin. pose proof (batch_each _ _ _ Hmany) as Hall.
  assert (length answers = length (kinds_of defs)) as Hlen.
  { apply Forall2_length in Hall. by rewrite length_fmap in Hall. }
  assert (d_Kind d ∈ kinds_of defs) as Hk.
  { apply elem_of_distinct. split; [by apply list_elem_of_fmap_2|set_solver]. }
  apply list_elem_of_lookup_1 in Hk as [i Hi].
  destruct (Forall2_lookup_l _ _ _ i (mkQuery (mkResource (d_Kind d) "*" product)
    (actions_of (d_Kind d) defs)) Hall) as (m & Hm & Hcheck); [by rewrite list_lookup_fmap, Hi|].
  exists m. split.
  - apply elem_of_list_to_map_1; [rewrite fst_zip by lia; apply NoDup_distinct|].
    apply list_elem_of_lookup. exists i. rewrite lookup_zip_with_Some. eauto.
  - eapply check_alone; [|exact Hcheck]. simpl. apply list_elem_of_fmap. exists d.
    split; [done|]. by apply list_elem_of_filter.
Qed.

Lemma checkAll_answered product defs held d :
  checkAll e id product defs = Some held → d ∈ defs →
  is_Some (Allowed e id (mkResource (d_Kind d) "*" product) (d_Action d)).
Proof using Type*.
  unfold checkAll. case_bool_decide as Hnil; [rewrite Hnil; by intros _ ?%elem_of_nil|].
  destruct (CheckMany e id _) as [answers|] eqn:Hmany; [|done]. intros _ Hin.
  destruct (answers_lookup _ _ _ _ Hmany Hin) as (m & _ & ->). eauto.
Qed.

Lemma checkAll_Some product defs held name :
  checkAll e id product defs = Some held →
  name ∈ held ↔ ∃ d, d ∈ defs ∧ d_Name d = name ∧
    Allowed e id (mkResource (d_Kind d) "*" product) (d_Action d) = Some true.
Proof using Type*.
  unfold checkAll. case_bool_decide as Hnil.
  { intros [= <-]. rewrite Hnil. split; [by intros ?%elem_of_nil|by intros (? & ?%elem_of_nil & _)]. }
  destruct (CheckMany e id _) as [answers|] eqn:Hmany; [|done]. cbn [mbind option_bind].
  intros [= <-]. rewrite elem_of_sort_strings, list_elem_of_fmap.
  pose proof (λ d, answers_lookup _ _ _ d Hmany) as Hd.
  split.
  - intros (d & -> & [Ha Hin]%list_elem_of_filter). exists d. split; [done|]. split; [done|].
    destruct (Hd d Hin) as (m & Hm & ->). rewrite Hm in Ha. simpl in Ha. by rewrite Ha.
  - intros (d & Hin & <- & Ha). exists d. split; [done|]. apply list_elem_of_filter. split; [|done].
    destruct (Hd d Hin) as (m & -> & Hok). simpl. congruence.
Qed.

Lemma access_by_product_Some scoped products m p name :
  access_by_product e id scoped products = Some m → NoDup products → p ∈ products →
  name ∈ default [] (m !! p) ↔ ∃ d, d ∈ scoped ∧ d_Name d = name ∧
    Allowed e id (mkResource (d_Kind d) "*" p) (d_Action d) = Some true.
Proof using Type*.
  assert (∀ products m p, access_by_product e id scoped products = Some m → p ∉ products → m !! p = None) as Hout.
  { clear. induction products as [|q l IH]; intros m p; cbn [access_by_product]; [by intros [= <-]|].
    destruct (checkAll _ _ _ _) as [held|]; [|done]. cbn [mbind option_bind].
    destruct (access_by_product _ _ _ _) as [rest|] eqn:Hr; [|done]. cbn [mbind option_bind].
    intros [= <-] Hp. assert (rest !! p = None) by (apply IH; set_solver).
    case_bool_decide; [done|]. rewrite lookup_insert_ne by set_solver. done. }
  revert m. induction products as [|q l IH]; intros m; cbn [access_by_product]; [by intros _ _ ?%elem_of_nil|].
  destruct (checkAll _ _ _ _) as [held|] eqn:Hheld; [|done]. cbn [mbind option_bind].
  destruct (access_by_product _ _ _ _) as [rest|] eqn:Hr; [|done]. cbn [mbind option_bind].
  intros [= <-] [Hq Hnd]%NoDup_cons Hp.
  destruct (decide (p = q)) as [->|Hne].
  - rewrite <-(checkAll_Some _ _ _ name Hheld). case_bool_decide as Hh.
    + rewrite (Hout _ _ _ Hr Hq), Hh. done.
    + by rewrite lookup_insert_eq.
  - apply elem_of_cons in Hp as [?|Hp]; [done|]. rewrite <-(IH rest eq_refl Hnd Hp).
    case_bool_decide; [done|]. by rewrite lookup_insert_ne.
Qed.

Lemma access_by_product_answered scoped products m p d :
  access_by_product e id scoped products = Some m → p ∈ products → d ∈ scoped →
  is_Some (Allowed e id (mkResource (d_Kind d) "*" p) (d_Action d)).
Proof using Type*.
  revert m. induction products as [|q l IH]; intros m; cbn [access_by_product]; [by intros _ ?%elem_of_nil|].
  destruct (checkAll _ _ _ _) as [held|] eqn:Hheld; [|done]. cbn [mbind option_bind].
  destruct (access_by_product _ _ _ _) as [rest|]; [|done]. intros _ [->|Hp]%elem_of_cons Hd.
  - by eapply checkAll_answered.
  - by eapply IH.
Qed.
End access.

Lemma Catalogue_names d d' : d ∈ Catalogue → d' ∈ Catalogue → d_Name d = d_Name d' → d = d'.
Proof.
  assert (bool_decide (NoDup (d_Name <$> Catalogue)) = true) as Hnd%bool_decide_eq_true by (vm_compute; reflexivity).
  intros [i Hi]%list_elem_of_lookup_1 [j Hj]%list_elem_of_lookup_1 Heq.
  assert (i = j) as ->; [|congruence]. eapply NoDup_lookup; [exact Hnd| |].
  - by rewrite list_lookup_fmap, Hi.
  - by rewrite list_lookup_fmap, Hj, Heq.
Qed.

Lemma Authorize_unrestricted e id r :
  engine_governs id r →
  Authorize (Some e) id r = Served [] ↔
    Allowed e (principal id) (mkResource (p_Kind (PolicyFor r)) "*" (p_Product (PolicyFor r)))
      (p_Action (PolicyFor r)) = Some true.
Proof.
  intros Hg. rewrite (Authorize_engine e id r Hg). unfold decide_request.
  destruct (Allowed _ _ _ _) as [[]|]; cbn [mbind option_bind orb]; [done| |done].
  destruct (negb _); [done|]. destruct (permitted_products _ _ _ _ _) as [l|]; [|done].
  cbn [mbind option_bind]. case_bool_decide as Hne; [|done]. split; [|done]. intros [= Hs]. done.
Qed.

(** The routes that narrow themselves ask about the whole estate, for a
    permission that can be held on a product. *)
Lemma any_scope_scoped r def :
  q_AnyScope (RequiredFor r) = true → byQuestion !! question r = Some def →
  d_Scoped def = true ∧ p_Product (PolicyFor r) = "".
Proof.
  simpl. rewrite bool_decide_eq_true. destruct r as [m p]. simpl. unfold any_scope_routes.
  rewrite !elem_of_cons, elem_of_nil. intros Hin Hdef.
  repeat destruct Hin as [[= -> ->]|Hin]; try done; vm_compute in Hdef; by injection Hdef as <-.
Qed.

(** What is published of one permission, against the engine's own answers. *)
Lemma ResolveAccess_answers e id def :
  LawfulEngine e → def ∈ Catalogue → Unavailable (ResolveAccess (Some e) id) = false →
  let s := ResolveAccess (Some e) id in
  let ask p := Allowed e (principal id) (mkResource (d_Kind def) "*" p) (d_Action def) in
  is_Some (ask "") ∧ (d_Name def ∈ Global s ↔ ask "" = Some true) ∧
  (d_Scoped def = true → d_Name def ∉ Global s → ∀ p, p ∈ ProductNames id →
     is_Some (ask p) ∧ (d_Name def ∈ default [] (ByProduct s !! p) ↔ ask p = Some true)).
Proof.
  intros Hlaw Hin. unfold ResolveAccess.
  destruct (checkAll e (principal id) "" Catalogue) as [global|] eqn:Hglobal; [|done].
  destruct (access_by_product _ _ _ _) as [m|] eqn:Hm; [|done]. cbn [Global ByProduct]. intros _.
  split; [by eapply checkAll_answered|]. split.
  - rewrite (checkAll_Some e _ _ _ _ _ Hglobal). split.
    + intros (d & Hd & Hname & Hok). by rewrite <-(Catalogue_names d def Hd Hin Hname).
    + intros Hok. by exists def.
  - intros Hsc Hno p Hp. assert (def ∈ filter (λ d, d_Scoped d = true ∧ d_Name d ∉ global) Catalogue) as Hf
      by by apply list_elem_of_filter.
    split; [by eapply access_by_product_answered|].
    rewrite (access_by_product_Some e _ _ _ _ _ _ Hm); [| |done].
    + split.
      * intros (d & [_ Hd]%list_elem_of_filter & Hname & Hok).
        by rewrite <-(Catalogue_names d def Hd Hin Hname).
      * intros Hok. by exists def.
    + unfold ProductNames, sort_strings. rewrite merge_sort_Permutation. apply NoDup_fst_map_to_list.
Qed.


(* -------------------------------------------------------------------- *)
(** ** Lawful engines *)

Lemma fold_allowAll actions (m : Answer) a :
  foldl (λ (m : Answer) a, <[a := true]> m) m actions !! a =
    if bool_decide (a ∈ actions) then Some true else m !! a.
Proof.
  revert m. induction actions as [|b l IH]; intros m; cbn [foldl].
  - by rewrite bool_decide_false by set_solver.
  - rewrite IH. destruct (decide (a ∈ l)) as [Hl|Hl].
    + rewrite !bool_decide_true by set_solver. done.
    + rewrite (bool_decide_false (a ∈ l)) by done. destruct (decide (a = b)) as [->|Hab].
      * rewrite lookup_insert_eq, bool_decide_true by left. done.
      * rewrite lookup_insert_ne, bool_decide_false by set_solver. done.
Qed.

Lemma allowAll_allows actions a : allows (allowAll actions) a = bool_decide (a ∈ actions).
Proof. unfold allows, allowAll. rewrite fold_allowAll. by case_bool_decide. Qed.

#[export] Instance AllowAll_lawful : LawfulEngine AllowAll.
Proof.
  split.
  - intros id res actions a m Ha. cbn. intros [= <-].
    change (<[a:=true]> ∅) with (allowAll [a]). rewrite !allowAll_allows. by rewrite (bool_decide_true (a ∈ actions)), bool_decide_true by set_solver.
  - intros id queries answers. cbn. intros [= <-]. apply Forall2_fmap_r, Forall_Forall2_diag.
    by apply Forall_true.
Qed.

(** A decision point that judges each action of each entry on its own, as a
    stateless one does: by the principal, and the entry without its actions. *)
Definition stateless (effect : string → list string → string → list string →
    string → string → string → option string → string → string) : DecisionPoint :=
  λ subject roles tenant products entries, Some ((λ e,
    list_to_map ((λ a, (a, effect subject roles tenant products
      (e_Kind e) (e_ID e) (e_Tenant e) (e_Product e) a)) <$> e_Actions e)) <$> entries).

Lemma map_of_actions (f : string → string) actions a :
  (list_to_map ((λ a, (a, f a)) <$> actions) : gmap string string) !! a =
    if bool_decide (a ∈ actions) then Some (f a) else None.
Proof.
  induction actions as [|b l IH]; cbn [fmap list_fmap list_to_map foldr].
  - by rewrite bool_decide_false by set_solver.
  - cbn. destruct (decide (a = b)) as [->|Hab].
    + rewrite lookup_insert_eq, bool_decide_true by left. done.
    + rewrite lookup_insert_ne by done. cbn in IH. rewrite IH.
      destruct (decide (a ∈ l)); [rewrite !bool_decide_true by set_solver|rewrite !bool_decide_false by set_solver]; done.
Qed.

Section stateless.
Context (effect : string → list string → string → list string →
  string → string → string → option string → string → string).
Context (tenant : string).

(** What a stateless point says of one action on one resource. *)
Definition verdict_of (id : AuthzIdentity) (res : Resource) (a : string) : bool :=
  let e := entry_of tenant id res [] in
  bool_decide (effect (a_Subject id) (AllRoles id) (a_Tenant id) (map_to_list (a_Products id)).*1
    (e_Kind e) (e_ID e) (e_Tenant e) (e_Product e) a = "EFFECT_ALLOW").

Lemma read_stateless id res actions a :
  allows (read_effects actions (list_to_map ((λ a, (a,
    effect (a_Subject id) (AllRoles id) (a_Tenant id) (map_to_list (a_Products id)).*1
      (rs_Kind res) (orStar (rs_ID res)) (if String.eqb tenant "" then a_Tenant id else tenant)
      (if String.eqb (rs_Product res) "" then None else Some (rs_Product res)) a)) <$> actions))) a =
  bool_decide (a ∈ actions) && verdict_of id res a.
Proof.
  apply eq_bool_prop_intro. rewrite !Is_true_true, read_effects_allows, map_of_actions, andb_true_iff.
  unfold verdict_of. cbn. rewrite !bool_decide_eq_true.
  case_bool_decide; [|tauto]. split; [intros [? [= ->]]|intros [? ->]]; done.
Qed.

(** A stateless point makes the client lawful: one call or a batch, the same
    answers. *)
#[export] Instance Cerbos_lawful : LawfulEngine (Cerbos (stateless effect) tenant).
Proof.
  assert (∀ id res actions, AllRoles id ≠ [] → actions ≠ [] →
    Check (Cerbos (stateless effect) tenant) id res actions =
      Some (read_effects actions (list_to_map ((λ a, (a,
        effect (a_Subject id) (AllRoles id) (a_Tenant id) (map_to_list (a_Products id)).*1
          (rs_Kind res) (orStar (rs_ID res)) (if String.eqb tenant "" then a_Tenant id else tenant)
          (if String.eqb (rs_Product res) "" then None else Some (rs_Product res)) a)) <$> actions))))
    as Hcheck.
  { intros id res actions Hr Ha. simpl. unfold cerbos_check.
    by rewrite !bool_decide_false by done. }
  assert (∀ id res actions, AllRoles id = [] →
    Check (Cerbos (stateless effect) tenant) id res actions = Some (refuseAll actions)) as Hnone.
  { intros id res actions Hr. simpl. unfold cerbos_check. by rewrite bool_decide_true. }
  split.
  - intros id res actions a m Ha. assert (actions ≠ []) by (intros ->; by apply elem_of_nil in Ha).
    unfold Allowed. destruct (decide (AllRoles id = [])) as [Hr|Hr].
    + rewrite !Hnone by done. intros [= <-]. simpl. by rewrite !refuseAll_allows.
    + rewrite !Hcheck by done. intros [= <-]. cbn [fmap option_fmap option_map].
      f_equal. rewrite !read_stateless.
      by rewrite (bool_decide_true (a ∈ actions)), (bool_decide_true (a ∈ [a])) by (done || left).
  - intros id queries answers. unfold CheckMany. simpl. unfold cerbos_many.
    case_bool_decide as Hr.
    { intros [= <-]. apply Forall2_fmap_r, Forall_Forall2_diag, Forall_forall. intros q _. by apply Hnone. }
    assert (∀ qs results, results = (λ q, (list_to_map ((λ a, (a,
        effect (a_Subject id) (AllRoles id) (a_Tenant id) (map_to_list (a_Products id)).*1
          (rs_Kind (q_Resource q)) (orStar (rs_ID (q_Resource q)))
          (if String.eqb tenant "" then a_Tenant id else tenant)
          (if String.eqb (rs_Product (q_Resource q)) "" then None else Some (rs_Product (q_Resource q))) a))
        <$> q_Actions q) : gmap string string)) <$> asked qs →
      Forall2 (λ q m, Check (Cerbos (stateless effect) tenant) id (q_Resource q) (q_Actions q) = Some m)
        qs (place_answers qs results)) as Hplace.
    { induction qs as [|q qs IH]; intros results ->; [constructor|]. unfold asked.
      cbn [place_answers]. case_bool_decide as Hq.
      - rewrite filter_cons_False by tauto. constructor; [|by apply IH].
        rewrite Hq. simpl. unfold cerbos_check. by rewrite bool_decide_false.
      - rewrite filter_cons_True by done. cbn [fmap list_fmap]. constructor; [by apply Hcheck|by apply IH]. }
    destruct (asked queries) as [|q0 qs] eqn:Hasked.
    + intros [= <-]. assert ((λ _, ∅) <$> queries = place_answers queries []) as ->.
      { clear Hplace. revert Hasked. unfold asked. induction queries as [|q queries IH]; [done|].
        cbn [place_answers fmap list_fmap]. case_bool_decide as Hq.
        - rewrite filter_cons_False by tauto. intros. f_equal. by apply IH.
        - by rewrite filter_cons_True by done. }
      apply Hplace. by rewrite Hasked.
    + rewrite <-Hasked. unfold post, stateless. simpl. intros [= <-]. apply Hplace.
      by rewrite <-list_fmap_compose.
Qed.
End stateless.

(* -------------------------------------------------------------------- *)
(** ** Examples *)

Definition get_product : HttpRequest := mkHttp "GET" "/api/v1/products/software-01".

(** A point that lets the readers of an organisation view a security report. *)
Definition security_readers : Engine :=
  Cerbos (stateless (λ _ roles _ _ kind _ _ _ action,
    if bool_decide ("org-security" ∈ roles ∧ kind = "security_report" ∧ action = "view")
    then "EFFECT_ALLOW" else "EFFECT_DENY")) "default".

Definition example_reader : AuthzIdentity :=
  mkAuthzIdentity "u2" "default" ["org-security"] ∅ "" "" "oidc".

(** Because the route's words are found in the product's name, a caller who may
    only read security reports measures the paths of one product and not of
    another. *)
Example reader_measures_a_path :
  gate (Some security_readers) (fromAuthz example_reader)
    (mkHttp "POST" "/api/v1/products/security-suite:calibrate") = Served [] ∧
  gate (Some security_readers) (fromAuthz example_reader)
    (mkHttp "POST" "/api/v1/products/suite:calibrate") =
    Denied (LacksPermission "product.calibrate" "suite").
Proof. vm_compute. auto. Qed.


Lemma product_callers_are_narrowed_witness :
  Authorize None (fromAuthz example_owner) get_product = Served [].
Proof.
  destruct (product_callers_are_narrowed example_owner get_product example_owner_tier
    eq_refl eq_refl) as [Hserved _]. apply Hserved.
  split; [vm_compute; discriminate|].
  exists ["product-owner"], "product-owner". split; [reflexivity|]. split; [left|]. vm_compute. left.
Defined.

