(* ===== verification/Findings.v ===== *)
(** * Vulnerability findings and what several scanners said

    internal/security/severity.go, finding.go and merge.go: the severity
    ladder, the account of a set of findings, the identities of a finding, the
    merge of two scanners' reports about one release.  A string type with named
    values is an inductive type with a constructor for every other spelling;
    scores are integers in any fixed unit, since the code only compares them;
    a time is nanoseconds, 0 being Go's zero time, before every other. *)

From S2P Require Import Prelude GoStrings.
Open Scope Z_scope.

(* -------------------------------------------------------------------- *)
(** ** The ladder *)

Inductive Severity :=
  | SeverityCritical
  | SeverityHigh
  | SeverityMedium
  | SeverityLow
  | SeverityUnknown
  | SeverityOther (spelling : string).

#[export] Instance Severity_eq_dec : EqDecision Severity.
Proof. solve_decision. Defined.

Definition Severities : list Severity :=
  [SeverityCritical; SeverityHigh; SeverityMedium; SeverityLow; SeverityUnknown].

Definition Rank (s : Severity) : Z :=
  match s with
  | SeverityCritical => 5
  | SeverityHigh => 4
  | SeverityMedium => 3
  | SeverityLow => 2
  | SeverityUnknown => 1
  | SeverityOther _ => 0
  end.

Definition Weight (s : Severity) : Z :=
  match s with
  | SeverityCritical => 1000
  | SeverityHigh => 100
  | SeverityMedium => 10
  | SeverityLow => 1
  | _ => 0
  end.

Definition ParseSeverity (s : string) : Severity :=
  let s := fold_string (TrimSpace s) in
  if String.eqb s "critical" then SeverityCritical
  else if bool_decide (s ∈ ["high"; "important"]) then SeverityHigh
  else if bool_decide (s ∈ ["medium"; "moderate"]) then SeverityMedium
  else if bool_decide (s ∈ ["low"; "negligible"; "informational"; "information"; "info"]) then SeverityLow
  else SeverityUnknown.

Record SeverityCounts := mkSeverityCounts {
  n_Critical : Z;
  n_High : Z;
  n_Medium : Z;
  n_Low : Z;
  n_Unknown : Z }.

#[export] Instance SeverityCounts_eta : Eta SeverityCounts := λ r,
  mkSeverityCounts (n_Critical r) (n_High r) (n_Medium r) (n_Low r) (n_Unknown r).

#[export] Instance SeverityCounts_eq_dec : EqDecision SeverityCounts.
Proof. solve_decision. Defined.

Definition no_severities : SeverityCounts := mkSeverityCounts 0 0 0 0 0.

Definition AddSeverity (s : Severity) (n : Z) (c : SeverityCounts) : SeverityCounts :=
  match s with
  | SeverityCritical => c <| n_Critical ::= Z.add n |>
  | SeverityHigh => c <| n_High ::= Z.add n |>
  | SeverityMedium => c <| n_Medium ::= Z.add n |>
  | SeverityLow => c <| n_Low ::= Z.add n |>
  | _ => c <| n_Unknown ::= Z.add n |>
  end.

Definition Get (c : SeverityCounts) (s : Severity) : Z :=
  match s with
  | SeverityCritical => n_Critical c
  | SeverityHigh => n_High c
  | SeverityMedium => n_Medium c
  | SeverityLow => n_Low c
  | _ => n_Unknown c
  end.

Definition SeverityTotal (c : SeverityCounts) : Z :=
  n_Critical c + n_High c + n_Medium c + n_Low c + n_Unknown c.

Definition SeverityWeight (c : SeverityCounts) : Z :=
  foldl (λ total s, total + Get c s * Weight s) 0 Severities.

Definition SeverityPlus (c o : SeverityCounts) : SeverityCounts :=
  foldl (λ c s, AddSeverity s (Get o s) c) c Severities.

(* -------------------------------------------------------------------- *)
(** ** The account of a set of findings *)

Record Counts := mkCounts {
  k_Total : Z;
  k_Fixable : Z;
  k_NonFixable : Z;
  k_KEV : Z;
  k_KEVFixable : Z;
  k_BySeverity : SeverityCounts;
  k_FixableBySeverity : SeverityCounts;
  k_KEVBySeverity : SeverityCounts }.

#[export] Instance Counts_eta : Eta Counts := λ r,
  mkCounts (k_Total r) (k_Fixable r) (k_NonFixable r) (k_KEV r) (k_KEVFixable r)
    (k_BySeverity r) (k_FixableBySeverity r) (k_KEVBySeverity r).

#[export] Instance Counts_eq_dec : EqDecision Counts.
Proof. solve_decision. Defined.

Definition no_counts : Counts :=
  mkCounts 0 0 0 0 0 no_severities no_severities no_severities.

Record Grade := mkGrade { g_Severity : Severity; g_Fixable : bool; g_KEV : bool }.

Definition AddGrade (g : Grade) (c : Counts) : Counts :=
  let c := c <| k_Total ::= Z.add 1 |> <| k_BySeverity ::= AddSeverity (g_Severity g) 1 |> in
  let c := if g_KEV g then
             let c := c <| k_KEV ::= Z.add 1 |> <| k_KEVBySeverity ::= AddSeverity (g_Severity g) 1 |> in
             if g_Fixable g then c <| k_KEVFixable ::= Z.add 1 |> else c
           else c in
  if g_Fixable g
  then c <| k_Fixable ::= Z.add 1 |> <| k_FixableBySeverity ::= AddSeverity (g_Severity g) 1 |>
  else c <| k_NonFixable ::= Z.add 1 |>.

(** Counts.Add: a finding of unknown exploitation. *)
Definition AddCount (s : Severity) (fixable : bool) (c : Counts) : Counts :=
  AddGrade (mkGrade s fixable false) c.

Definition Plus (c o : Counts) : Counts :=
  mkCounts (k_Total c + k_Total o) (k_Fixable c + k_Fixable o) (k_NonFixable c + k_NonFixable o)
    (k_KEV c + k_KEV o) (k_KEVFixable c + k_KEVFixable o)
    (SeverityPlus (k_BySeverity c) (k_BySeverity o))
    (SeverityPlus (k_FixableBySeverity c) (k_FixableBySeverity o))
    (SeverityPlus (k_KEVBySeverity c) (k_KEVBySeverity o)).

(* -------------------------------------------------------------------- *)
(** ** Findings *)

Inductive Status :=
  | StatusScanned
  | StatusNotScanned
  | StatusUnsupported
  | StatusDisabled
  | StatusUnavailable
  | StatusOther (spelling : string).

#[export] Instance Status_eq_dec : EqDecision Status.
Proof. solve_decision. Defined.

Record Component := mkComponent {
  co_ID : string;
  co_Name : string;
  co_Version : string;
  co_Type : string;
  co_Path : string }.

#[export] Instance Component_eq_dec : EqDecision Component.
Proof. solve_decision. Defined.

#[export] Instance Component_eta : Eta Component := λ r,
  mkComponent (co_ID r) (co_Name r) (co_Version r) (co_Type r) (co_Path r).

Definition ComponentKey (c : Component) : string :=
  if negb (String.eqb (co_ID c) "") then co_ID c
  else if negb (String.eqb (co_Type c) "") then String.append (co_Type c) (String.append "://" (co_Name c))
  else co_Name c.

Record EPSS := mkEPSS { ep_Score : Z; ep_Percentile : Z }.

#[export] Instance EPSS_eq_dec : EqDecision EPSS.
Proof. solve_decision. Defined.

Record Observation := mkObservation {
  ob_Provider : string;
  ob_Source : string;
  ob_Severity : Severity;
  ob_Score : Z;
  ob_Vector : string }.

#[export] Instance Observation_eq_dec : EqDecision Observation.
Proof. solve_decision. Defined.

(** string(s) *)
Definition severity_spelling (s : Severity) : string :=
  match s with
  | SeverityCritical => "critical"
  | SeverityHigh => "high"
  | SeverityMedium => "medium"
  | SeverityLow => "low"
  | SeverityUnknown => "unknown"
  | SeverityOther s => s
  end.

Definition ObservationKey (o : Observation) : string :=
  String.concat "|" [ob_Provider o; ob_Source o; severity_spelling (ob_Severity o); ob_Vector o].

Record Finding := mkFinding {
  f_CVE : string;
  f_ID : string;
  f_Severity : Severity;
  f_Summary : string;
  f_Description : string;
  f_Component : Component;
  f_FixedIn : list string;
  f_Fixable : bool;
  f_CVSSScore : Z;
  f_CVSSVector : string;
  f_KEV : bool;
  f_KEVSource : string;
  f_EPSS : option EPSS;
  f_WillNotFix : bool;
  f_Observations : list Observation;
  f_References : list string;
  f_Published : option Z;
  f_Provider : string;
  f_Policy : string;
  f_Sources : list string }.

#[export] Instance Finding_eq_dec : EqDecision Finding.
Proof. solve_decision. Defined.

#[export] Instance Finding_eta : Eta Finding := λ r,
  mkFinding (f_CVE r) (f_ID r) (f_Severity r) (f_Summary r) (f_Description r) (f_Component r)
    (f_FixedIn r) (f_Fixable r) (f_CVSSScore r) (f_CVSSVector r) (f_KEV r) (f_KEVSource r)
    (f_EPSS r) (f_WillNotFix r) (f_Observations r) (f_References r) (f_Published r)
    (f_Provider r) (f_Policy r) (f_Sources r).

Definition GradeOf (f : Finding) : Grade := mkGrade (f_Severity f) (f_Fixable f) (f_KEV f).

Definition SourceSet (f : Finding) : list string :=
  match f_Sources f with
  | [] => if String.eqb (f_Provider f) "" then [] else [f_Provider f]
  | l => l
  end.

Definition Identifier (f : Finding) : string :=
  if String.eqb (f_CVE f) "" then f_ID f else f_CVE f.

Definition bar : Ascii.ascii := Eval cbv in Ascii.ascii_of_nat 124.

(** One problem in one package, whatever the version. *)
Definition Key (f : Finding) : string :=
  String.append (Identifier f) (String bar (ComponentKey (f_Component f))).

(** One stored row: the version too. *)
Definition StorageKey (f : Finding) : string :=
  String.append (Identifier f) (String bar (String.append (ComponentKey (f_Component f))
    (String bar (co_Version (f_Component f))))).

Record ArtifactRef := mkArtifactRef {
  ar_Name : string;
  ar_Tag : string;
  ar_Digest : string;
  ar_Repository : string;
  ar_Registry : string;
  ar_MediaType : string;
  ar_Kind : string;
  ar_SizeBytes : Z;
  ar_Platform : string }.

#[export] Instance ArtifactRef_eq_dec : EqDecision ArtifactRef.
Proof. solve_decision. Defined.

(** What two releases are aligned on. *)
Definition ArtifactKey (a : ArtifactRef) : string :=
  if negb (String.eqb (ar_Name a) "") then ar_Name a
  else if negb (String.eqb (ar_Repository a) "") then ar_Repository a
  else ar_Digest a.

(** The identity within one release. *)
Definition Ref (a : ArtifactRef) : string :=
  if negb (String.eqb (ar_Digest a) "") then ar_Digest a
  else if negb (String.eqb (ar_Repository a) "") && negb (String.eqb (ar_Tag a) "")
  then String.append (ar_Repository a) (String colon (ar_Tag a))
  else ArtifactKey a.

(* -------------------------------------------------------------------- *)
(** ** One row from several *)

Definition mergeStrings (a b : list string) : list string :=
  if bool_decide (b = []) then a else firsts id ∅ (filter (λ s, s ≠ "") (a ++ b)).

Definition mergeObservations (a b : list Observation) : list Observation :=
  if bool_decide (b = []) then a else firsts ObservationKey ∅ (a ++ b).

(** The first value unless it is empty. *)
Definition or_else (a b : string) : string := if String.eqb a "" then b else a.

(** Every field is set from the two findings as they were. *)
Definition enrich (kept f : Finding) : Finding :=
  let higher := f_CVSSScore kept <? f_CVSSScore f in
  let claims := negb (f_KEV kept) && f_KEV f in
  {| f_Severity := if Rank (f_Severity kept) <? Rank (f_Severity f) then f_Severity f else f_Severity kept;
     f_Fixable := f_Fixable kept || f_Fixable f;
     f_FixedIn := mergeStrings (f_FixedIn kept) (f_FixedIn f);
     f_Sources := mergeStrings (f_Sources kept) (f_Sources f);
     f_References := mergeStrings (f_References kept) (f_References f);
     f_KEV := if claims then true else f_KEV kept;
     f_KEVSource := if claims then f_KEVSource f else f_KEVSource kept;
     f_WillNotFix := f_WillNotFix kept || f_WillNotFix f;
     f_Summary := or_else (f_Summary kept) (f_Summary f);
     f_Description := or_else (f_Description kept) (f_Description f);
     f_ID := or_else (f_ID kept) (f_ID f);
     f_CVE := or_else (f_CVE kept) (f_CVE f);
     f_Policy := or_else (f_Policy kept) (f_Policy f);
     f_Component := (f_Component kept)
       <| co_Path := or_else (co_Path (f_Component kept)) (co_Path (f_Component f)) |>;
     f_Published := match f_Published kept with Some p => Some p | None => f_Published f end;
     f_CVSSScore := if higher then f_CVSSScore f else f_CVSSScore kept;
     f_CVSSVector := if higher then f_CVSSVector f else or_else (f_CVSSVector kept) (f_CVSSVector f);
     f_EPSS := match f_EPSS kept, f_EPSS f with
               | None, e => e
               | Some k, Some e => if ep_Score k <? ep_Score e then Some e else Some k
               | Some k, None => Some k
               end;
     f_Observations := mergeObservations (f_Observations kept) (f_Observations f);
     f_Provider := f_Provider kept |}.

(** The loop of DedupeFindings and MergeFindings: where each key is in the
    output, and the output. *)
Definition dedupe_step (st : gmap string nat * list Finding) (f : Finding)
    : gmap string nat * list Finding :=
  match st.1 !! StorageKey f with
  | None => (<[StorageKey f := length st.2]> st.1, st.2 ++ [f])
  | Some i => (st.1, alter (λ kept, enrich kept f) i st.2)
  end.

Definition dedupe (l : list Finding) : list Finding := (foldl dedupe_step (∅, []) l).2.

Definition DedupeFindings (l : list Finding) : list Finding :=
  if (length l <? 2)%nat then l else dedupe l.

Definition MergeFindings (l : list Finding) : list Finding :=
  if (length l <? 2)%nat then l
  else (λ f, f <| f_Sources ::= sort_strings |>) <$> dedupe l.

(** The comparison of SortFindings. *)
Definition finding_less (a b : Finding) : bool :=
  if negb (Bool.eqb (f_KEV a) (f_KEV b)) then f_KEV a
  else if negb (Rank (f_Severity a) =? Rank (f_Severity b)) then Rank (f_Severity b) <? Rank (f_Severity a)
  else if negb (Bool.eqb (f_Fixable a) (f_Fixable b)) then f_Fixable a
  else if negb (String.eqb (Identifier a) (Identifier b)) then String.ltb (Identifier a) (Identifier b)
  else String.ltb (ComponentKey (f_Component a)) (ComponentKey (f_Component b)).

Definition SortFindings (l : list Finding) : list Finding := slice_stable finding_less l.

(* -------------------------------------------------------------------- *)
(** ** Reports *)

Record Violation := mkViolation {
  v_ID : string;
  v_Type : string;
  v_Severity : Severity;
  v_Watch : string;
  v_Policy : string;
  v_Rule : string;
  v_Summary : string;
  v_Description : string;
  v_CVE : string;
  v_Component : Component;
  v_FixedIn : list string;
  v_Created : option Z;
  v_Provider : string }.

Record DocumentSummary := mkDocumentSummary {
  ds_Kind : string;
  ds_Provider : string;
  ds_Available : bool;
  ds_ContentType : string;
  ds_SourceBytes : Z;
  ds_FetchedAt : string;
  ds_Message : string }.

Record Report := mkReport {
  r_Artifact : ArtifactRef;
  r_Status : Status;
  r_Provider : string;
  r_Message : string;
  r_Findings : list Finding;
  r_Counts : Counts;
  r_Malware : list Finding;
  r_Violations : list Violation;
  r_Documents : list DocumentSummary;
  r_Missing : bool;
  r_ScannedAt : option Z;
  r_RetrievedAt : Z;
  r_FromCache : bool }.

#[export] Instance Report_eta : Eta Report := λ r,
  mkReport (r_Artifact r) (r_Status r) (r_Provider r) (r_Message r) (r_Findings r) (r_Counts r)
    (r_Malware r) (r_Violations r) (r_Documents r) (r_Missing r) (r_ScannedAt r) (r_RetrievedAt r)
    (r_FromCache r).

Definition count_findings (l : list Finding) : Counts :=
  foldl (λ c f, AddGrade (GradeOf f) c) no_counts l.

Definition Recount (r : Report) : Report := r <| r_Counts := count_findings (r_Findings r) |>.

(** The comparison of sortReports (service.go). *)
Definition report_less (a b : Report) : bool :=
  let wa := SeverityWeight (k_BySeverity (r_Counts a)) in
  let wb := SeverityWeight (k_BySeverity (r_Counts b)) in
  if negb (wa =? wb) then wb <? wa
  else String.ltb (ArtifactKey (r_Artifact a)) (ArtifactKey (r_Artifact b)).

Definition sortReports (l : list Report) : list Report := slice_stable report_less l.

(* -------------------------------------------------------------------- *)
(** ** Merging scanners *)

Definition stampFinding (provider : string) (f : Finding) : Finding :=
  let f := if String.eqb (f_Provider f) "" then f <| f_Provider := provider |> else f in
  if bool_decide (f_Sources f = []) && negb (String.eqb (f_Provider f) "")
  then f <| f_Sources := [f_Provider f] |> else f.

Definition stampSource (r : Report) : Report :=
  r <| r_Findings ::= fmap (stampFinding (r_Provider r)) |>
    <| r_Malware ::= fmap (stampFinding (r_Provider r)) |>.

Definition statusRank (s : Status) : Z :=
  match s with
  | StatusScanned => 5
  | StatusUnsupported => 4
  | StatusNotScanned => 3
  | StatusUnavailable => 2
  | StatusDisabled => 1
  | StatusOther _ => 0
  end.

(** The older of two scan times, a missing one being no scan. *)
Definition older (a b : option Z) : option Z :=
  match b, a with
  | Some t, None => Some t
  | Some t, Some s => if t <? s then Some t else Some s
  | None, a => a
  end.

Definition mergeInto (dst src : Report) : Report :=
  let other := stampSource src in
  let dst := dst <| r_Findings := r_Findings dst ++ r_Findings other |>
                 <| r_Malware := r_Malware dst ++ r_Malware other |>
                 <| r_Violations := r_Violations dst ++ r_Violations other |>
                 <| r_Documents := r_Documents dst ++ r_Documents other |> in
  let dst := if statusRank (r_Status dst) <? statusRank (r_Status other)
             then dst <| r_Status := r_Status other |> <| r_Message := r_Message other |>
                      <| r_Provider := r_Provider other |>
             else dst <| r_Message := or_else (r_Message dst) (r_Message other) |> in
  let dst := dst <| r_Missing := r_Missing dst && r_Missing other |>
                 <| r_ScannedAt := older (r_ScannedAt dst) (r_ScannedAt other) |> in
  let dst := if (r_RetrievedAt other <? r_RetrievedAt dst) || (r_RetrievedAt dst =? 0)
             then dst <| r_RetrievedAt := r_RetrievedAt other |> else dst in
  dst <| r_FromCache := r_FromCache dst && r_FromCache other |>.

(** One report folded into the running merge: the refs in the order first
    seen, and what is merged at each. *)
Definition merge_step (st : list string * gmap string Report) (r : Report)
    : list string * gmap string Report :=
  let key := Ref (r_Artifact r) in
  match st.2 !! key with
  | None => (st.1 ++ [key], <[key := stampSource r]> st.2)
  | Some existing => (st.1, <[key := mergeInto existing r]> st.2)
  end.

Definition finish_report (r : Report) : Report :=
  let r := Recount (r <| r_Findings ::= MergeFindings |> <| r_Malware ::= MergeFindings |>) in
  r <| r_Findings ::= SortFindings |>.

Definition MergeReports (bySource : list (list Report)) : list Report :=
  match filter (λ l, l ≠ []) bySource with
  | [] => []
  | [l] => l
  | nonEmpty =>
      let '(order, merged) := foldl merge_step ([], ∅) (mjoin nonEmpty) in
      sortReports (finish_report <$> omap (λ key, merged !! key) order)
  end.

(* -------------------------------------------------------------------- *)
(** ** The posture of a release *)

Record Coverage := mkCoverage {
  cv_Artifacts : Z;
  cv_Scanned : Z;
  cv_NotScanned : Z;
  cv_Unsupported : Z;
  cv_Unavailable : Z;
  cv_Disabled : Z;
  cv_Missing : Z }.

#[export] Instance Coverage_eta : Eta Coverage := λ r,
  mkCoverage (cv_Artifacts r) (cv_Scanned r) (cv_NotScanned r) (cv_Unsupported r)
    (cv_Unavailable r) (cv_Disabled r) (cv_Missing r).

#[export] Instance Coverage_eq_dec : EqDecision Coverage.
Proof. solve_decision. Defined.

(** Every artifact that could be scanned was. *)
Definition Complete (c : Coverage) : bool :=
  (0 <? cv_Scanned c) && (cv_NotScanned c =? 0) && (cv_Unavailable c =? 0) &&
  (cv_Disabled c =? 0) && (cv_Missing c =? 0).

Definition Any (c : Coverage) : bool := 0 <? cv_Scanned c.

Definition Scannable (c : Coverage) : Z := Z.max 0 (cv_Artifacts c - cv_Unsupported c).

Record SourceCounts := mkSourceCounts {
  sn_Provider : string;
  sn_Counts : Counts;
  sn_UniqueCVEs : Z;
  sn_OnlyHere : Z;
  sn_KEVs : Z;
  sn_Artifacts : Z }.

#[export] Instance SourceCounts_eta : Eta SourceCounts := λ r,
  mkSourceCounts (sn_Provider r) (sn_Counts r) (sn_UniqueCVEs r) (sn_OnlyHere r) (sn_KEVs r)
    (sn_Artifacts r).

Record Posture := mkPosture {
  po_Reports : list Report;
  po_Counts : Counts;
  po_UniqueCounts : Counts;
  po_UniqueCVEs : Z;
  po_UniqueCVECounts : Counts;
  po_KEVs : Z;
  po_KEVFixable : Z;
  po_KEVSeverity : SeverityCounts;
  po_Coverage : Coverage;
  po_BySource : list SourceCounts;
  po_Providers : list string;
  po_ScannedAt : option Z }.

(** What the pass over the reports accumulates. *)
Record tally := mkTally {
  ta_Coverage : Coverage;
  ta_Providers : list string;
  ta_ScannedAt : option Z;
  ta_Counts : Counts;
  ta_unique : gmap string Severity;
  ta_uniqueFixable : gset string;
  ta_cves : gset string;
  ta_cveSeverity : gmap string Severity;
  ta_cveFixable : gset string;
  ta_cveKEV : gset string;
  ta_bySource : gmap string SourceCounts;
  ta_saw : gmap string (gset string) }.

#[export] Instance tally_eta : Eta tally := λ r,
  mkTally (ta_Coverage r) (ta_Providers r) (ta_ScannedAt r) (ta_Counts r) (ta_unique r)
    (ta_uniqueFixable r) (ta_cves r) (ta_cveSeverity r) (ta_cveFixable r) (ta_cveKEV r)
    (ta_bySource r) (ta_saw r).

Definition no_tally : tally :=
  mkTally (mkCoverage 0 0 0 0 0 0 0) [] None no_counts ∅ ∅ ∅ ∅ ∅ ∅ ∅ ∅.

Definition cover (r : Report) (c : Coverage) : Coverage :=
  let c := c <| cv_Artifacts ::= Z.add 1 |> in
  match r_Status r with
  | StatusScanned => c <| cv_Scanned ::= Z.add 1 |>
  | StatusNotScanned => if r_Missing r then c <| cv_Missing ::= Z.add 1 |>
                        else c <| cv_NotScanned ::= Z.add 1 |>
  | StatusUnsupported => c <| cv_Unsupported ::= Z.add 1 |>
  | StatusDisabled => c <| cv_Disabled ::= Z.add 1 |>
  | StatusUnavailable => c <| cv_Unavailable ::= Z.add 1 |>
  | StatusOther _ => c
  end.

(** The worst grade of a key so far. *)
Definition grade_at (k : string) (s : Severity) (m : gmap string Severity) : gmap string Severity :=
  match m !! k with
  | None => <[k := s]> m
  | Some prev => if Rank prev <? Rank s then <[k := s]> m else m
  end.

Definition count_source (f : SourceCounts → SourceCounts) (src : string)
    (m : gmap string SourceCounts) : gmap string SourceCounts :=
  <[src := f (default (mkSourceCounts src no_counts 0 0 0 0) (m !! src))]> m.

Definition add_if (b : bool) (k : string) (s : gset string) : gset string :=
  if b then {[ k ]} ∪ s else s.

Definition tally_finding (t : tally) (f : Finding) : tally :=
  let t := t <| ta_unique ::= grade_at (Key f) (f_Severity f) |>
             <| ta_uniqueFixable ::= add_if (f_Fixable f) (Key f) |> in
  let id := Identifier f in
  let t := if String.eqb id "" then t
           else t <| ta_cves ::= add_if true id |>
                  <| ta_cveSeverity ::= grade_at id (f_Severity f) |>
                  <| ta_cveFixable ::= add_if (f_Fixable f) id |>
                  <| ta_cveKEV ::= add_if (f_KEV f) id |>
                  <| ta_saw ::= (λ saw, foldl (λ saw src,
                       <[id := {[ src ]} ∪ default ∅ (saw !! id)]> saw) saw (SourceSet f)) |> in
  t <| ta_bySource ::= (λ m, foldl (λ m src,
         count_source (λ sc, sc <| sn_Counts ::= AddGrade (GradeOf f) |>) src m) m (SourceSet f)) |>.

Definition sourcesOf (r : Report) : list string :=
  if String.eqb (r_Provider r) "" then [] else [r_Provider r].

Definition tally_report (t : tally) (r : Report) : tally :=
  let t := t <| ta_Coverage ::= cover r |> in
  let t := if negb (String.eqb (r_Provider r) "") && negb (bool_decide (r_Provider r ∈ ta_Providers t))
           then t <| ta_Providers := ta_Providers t ++ [r_Provider r] |> else t in
  if negb (bool_decide (r_Status r = StatusScanned)) then t
  else
    let t := t <| ta_ScannedAt := older (ta_ScannedAt t) (r_ScannedAt r) |>
               <| ta_Counts := Plus (ta_Counts t) (r_Counts r) |>
               <| ta_bySource ::= (λ m, foldl (λ m src,
                    count_source (λ sc, sc <| sn_Artifacts ::= Z.add 1 |>) src m) m (sourcesOf r)) |> in
    foldl tally_finding t (r_Findings r).

(** One advisory and one scanner that saw it. *)
Definition saw_source (kev alone : bool) (src : string) (m : gmap string SourceCounts)
    : gmap string SourceCounts :=
  match m !! src with
  | None => m
  | Some sc =>
      let sc := sc <| sn_UniqueCVEs ::= Z.add 1 |> in
      let sc := if alone then sc <| sn_OnlyHere ::= Z.add 1 |> else sc in
      <[src := if kev then sc <| sn_KEVs ::= Z.add 1 |> else sc]> m
  end.

Definition Summarize (reports : list Report) : Posture :=
  let t := foldl tally_report no_tally reports in
  let unique := map_fold (λ k s c, AddCount s (bool_decide (k ∈ ta_uniqueFixable t)) c)
                  no_counts (ta_unique t) in
  let cves := map_fold (λ id s c, AddGrade (mkGrade s (bool_decide (id ∈ ta_cveFixable t))
                                              (bool_decide (id ∈ ta_cveKEV t))) c)
                no_counts (ta_cveSeverity t) in
  let bySource := map_fold (λ id srcs m, set_fold (saw_source (bool_decide (id ∈ ta_cveKEV t))
                              (bool_decide (size srcs = 1%nat))) m srcs)
                    (ta_bySource t) (ta_saw t) in
  mkPosture reports (ta_Counts t) unique (Z.of_nat (size (ta_cves t))) cves
    (Z.of_nat (size (ta_cveKEV t))) (k_KEVFixable cves) (k_KEVBySeverity cves) (ta_Coverage t)
    (if (1 <? size bySource)%nat
     then omap (λ p, bySource !! p) (sort_strings (map_to_list bySource).*1) else [])
    (sort_strings (ta_Providers t)) (ta_ScannedAt t).

(* -------------------------------------------------------------------- *)
(** ** Counting *)

Lemma SeverityPlus_eq c o :
  SeverityPlus c o = mkSeverityCounts (n_Critical c + n_Critical o) (n_High c + n_High o)
    (n_Medium c + n_Medium o) (n_Low c + n_Low o) (n_Unknown c + n_Unknown o).
Proof. destruct c, o. unfold SeverityPlus. simpl. f_equal; lia. Qed.

Lemma AddSeverity_Plus s n c : AddSeverity s n c = SeverityPlus c (AddSeverity s n no_severities).
Proof. rewrite SeverityPlus_eq. destruct c, s; simpl; f_equal; lia. Qed.

Lemma SeverityWeight_eq c :
  SeverityWeight c = 1000 * n_Critical c + 100 * n_High c + 10 * n_Medium c + n_Low c.
Proof. unfold SeverityWeight. simpl. lia. Qed.

#[export] Instance SeverityPlus_assoc : Assoc (=) SeverityPlus.
Proof. intros a b c. rewrite !SeverityPlus_eq. simpl. f_equal; lia. Qed.

#[export] Instance SeverityPlus_comm : Comm (=) SeverityPlus.
Proof. intros a b. rewrite !SeverityPlus_eq. f_equal; lia. Qed.

#[export] Instance Plus_assoc : Assoc (=) Plus.
Proof. intros a b c. unfold Plus. simpl. f_equal; (lia || apply (assoc_L SeverityPlus)). Qed.

#[export] Instance Plus_comm : Comm (=) Plus.
Proof. intros a b. unfold Plus. f_equal; (lia || apply (comm_L SeverityPlus)). Qed.

Lemma Plus_none c : Plus c no_counts = c.
Proof. destruct c as [????? [] [] []]. unfold Plus. simpl. rewrite !SeverityPlus_eq. simpl. repeat f_equal; lia. Qed.

(** One finding's account. *)
Definition account (g : Grade) : Counts := AddGrade g no_counts.

Lemma AddGrade_Plus g c : AddGrade g c = Plus c (account g).
Proof.
  destruct c as [????? [] [] []], g as [s [] []], s; unfold account, Plus, AddGrade; simpl;
    rewrite !SeverityPlus_eq; simpl; f_equal; (lia || (f_equal; lia)).
Qed.

Lemma fold_counts {A} (f : A → Grade) l c :
  foldl (λ c x, AddGrade (f x) c) c l = Plus c (foldl (λ c x, AddGrade (f x) c) no_counts l).
Proof.
  revert c. induction l as [|x l IH]; intros c; simpl; [by rewrite Plus_none|].
  rewrite IH, (IH (AddGrade (f x) no_counts)), AddGrade_Plus. by rewrite (assoc_L Plus).
Qed.

Lemma count_findings_app l k : count_findings (l ++ k) = Plus (count_findings l) (count_findings k).
Proof. unfold count_findings. by rewrite foldl_app, fold_counts. Qed.

Lemma count_findings_cons f l : count_findings (f :: l) = Plus (account (GradeOf f)) (count_findings l).
Proof. unfold count_findings. simpl. by rewrite fold_counts. Qed.

#[export] Instance count_findings_Permutation : Proper ((≡ₚ) ==> (=)) count_findings.
Proof.
  intros l k Hp. induction Hp as [| |f g l|]; rewrite ?count_findings_cons; try congruence.
  by rewrite !(assoc_L Plus), (comm_L Plus (account (GradeOf f))).
Qed.

(** An account that adds up: every finding is graded once, is fixable or not,
    and what is counted as fixable or exploited is part of it. *)
Definition within (a b : SeverityCounts) : Prop := ∀ s, 0 ≤ Get a s ≤ Get b s.

Record adds_up (c : Counts) : Prop := {
  graded_once : k_Total c = SeverityTotal (k_BySeverity c);
  fixable_or_not : k_Total c = k_Fixable c + k_NonFixable c;
  fixable_graded : k_Fixable c = SeverityTotal (k_FixableBySeverity c);
  exploited_graded : k_KEV c = SeverityTotal (k_KEVBySeverity c);
  fixable_within : within (k_FixableBySeverity c) (k_BySeverity c);
  exploited_within : within (k_KEVBySeverity c) (k_BySeverity c);
  exploited_fixable : 0 ≤ k_KEVFixable c ≤ k_KEV c ∧ k_KEVFixable c ≤ k_Fixable c }.

Lemma Get_Plus a b s : Get (SeverityPlus a b) s = Get a s + Get b s.
Proof. rewrite SeverityPlus_eq. by destruct s. Qed.

Lemma Total_Plus a b : SeverityTotal (SeverityPlus a b) = SeverityTotal a + SeverityTotal b.
Proof. rewrite SeverityPlus_eq. unfold SeverityTotal. simpl. lia. Qed.

Lemma adds_up_none : adds_up no_counts.
Proof. split; try reflexivity; try (intros []; simpl; lia). simpl. lia. Qed.

Lemma adds_up_Plus a b : adds_up a → adds_up b → adds_up (Plus a b).
Proof.
  intros [] []. split; unfold Plus; simpl; rewrite ?Total_Plus; try lia;
    intros s; rewrite !Get_Plus; unfold within in *;
    repeat match goal with H : ∀ s, 0 ≤ Get _ s ≤ _ |- _ => specialize (H s) end; lia.
Qed.

Lemma adds_up_account g : adds_up (account g).
Proof.
  destruct g as [s [] []], s; (split; try reflexivity; try (intros []; simpl; lia); simpl; lia).
Qed.

Lemma adds_up_AddGrade g c : adds_up c → adds_up (AddGrade g c).
Proof. intros Hc. rewrite AddGrade_Plus. by apply adds_up_Plus, adds_up_account. Qed.

Lemma adds_up_findings l : adds_up (count_findings l).
Proof.
  induction l as [|f l IH]; [apply adds_up_none|]. rewrite count_findings_cons.
  by apply adds_up_Plus; [apply adds_up_account|].
Qed.

Lemma count_findings_Total l : k_Total (count_findings l) = Z.of_nat (length l).
Proof.
  induction l as [|f l IH]; [done|]. rewrite count_findings_cons. simpl. rewrite IH.
  destruct (GradeOf f) as [? [] []]; simpl; lia.
Qed.

(** A weight is additive, so a report's is its findings'. *)
Lemma count_findings_Weight l :
  SeverityWeight (k_BySeverity (count_findings l)) =
    foldr (λ f w, Weight (f_Severity f) + w) 0 l.
Proof.
  induction l as [|f l IH]; [done|]. rewrite count_findings_cons. simpl. rewrite <-IH.
  rewrite !SeverityWeight_eq, SeverityPlus_eq. unfold account, GradeOf.
  destruct (f_Severity f), (f_Fixable f), (f_KEV f); simpl; lia.
Qed.

(** A thousand and one lows outweigh a critical. *)
Example lows_outweigh_a_critical :
  SeverityWeight (AddSeverity SeverityCritical 1 no_severities) <
  SeverityWeight (AddSeverity SeverityLow 1001 no_severities).
Proof. reflexivity. Qed.

(* -------------------------------------------------------------------- *)
(** ** Groups *)

Section group.
Context {A : Type} (key : A → string).

Definition group (k : string) (l : list A) : list A := filter (λ x, key x = k) l.

Definition group_keys (l : list A) : list string := firsts id ∅ (key <$> l).

Lemma elem_of_group_keys k l : k ∈ group_keys l ↔ k ∈ key <$> l.
Proof.
  unfold group_keys. rewrite <-(list_fmap_id (firsts id ∅ _)), elem_of_firsts, list_fmap_id. set_solver.
Qed.

Lemma NoDup_group_keys l : NoDup (group_keys l).
Proof. unfold group_keys. rewrite <-(list_fmap_id (firsts id ∅ _)). apply NoDup_firsts. Qed.

Lemma group_keys_snoc l x :
  group_keys (l ++ [x]) = group_keys l ++ (if bool_decide (key x ∈ group_keys l) then [] else [key x]).
Proof.
  unfold group_keys at 1. rewrite fmap_app. simpl. rewrite firsts_snoc. f_equal. unfold id.
  erewrite bool_decide_ext; [done|]. rewrite elem_of_group_keys, list_fmap_id. set_solver.
Qed.

Lemma group_snoc k l x : group k (l ++ [x]) = group k l ++ (if decide (key x = k) then [x] else []).
Proof. unfold group. by rewrite filter_app, filter_cons, filter_nil. Qed.

End group.

Section groups.
Context {A B : Type} (key : A → string) (init : A → B) (comb : B → A → B).

(** What is known of a key: its first element, taken by [init], with the later
    ones folded in by [comb]. *)
Definition gather (k : string) (l : list A) : option B :=
  match group key k l with
  | [] => None
  | x :: l => Some (foldl comb (init x) l)
  end.

Lemma gather_snoc k l x :
  gather k (l ++ [x]) =
    if decide (key x = k) then Some (match gather k l with Some b => comb b x | None => init x end)
    else gather k l.
Proof.
  unfold gather. rewrite group_snoc. case_decide; [|by rewrite app_nil_r].
  destruct (group key k l) as [|y l']; [done|]. simpl. by rewrite foldl_app.
Qed.

Lemma gather_None k l : gather k l = None ↔ k ∉ group_keys key l.
Proof.
  rewrite elem_of_group_keys, list_elem_of_fmap. unfold gather.
  destruct (group key k l) as [|x l'] eqn:E; unfold group in E; split; try done.
  - intros _ (y & -> & Hy). assert (y ∈ filter (λ x, key x = key y) l) as Hin
      by (by apply list_elem_of_filter). rewrite E in Hin. by apply elem_of_nil in Hin.
  - intros Hk. exfalso. apply Hk. exists x.
    assert (x ∈ filter (λ x, key x = k) l) as [<- Hx]%list_elem_of_filter by (rewrite E; left). done.
Qed.

(** A list with what is gathered at each key, in the keys' order. *)
Definition gathers (l : list A) (out : list B) : Prop :=
  Forall2 (λ k b, gather k l = Some b) (group_keys key l) out.

Lemma gathers_elem l out b : gathers l out → b ∈ out → ∃ k, k ∈ group_keys key l ∧ gather k l = Some b.
Proof.
  intros Hg [i Hi]%list_elem_of_lookup_1. destruct (Forall2_lookup_r _ _ _ _ _ Hg Hi) as (k & Hk & Hb).
  exists k. split; [by eapply list_elem_of_lookup_2|done].
Qed.

(** When folding keeps the key, the gathered list has each key once. *)
Lemma gathers_keys (bkey : B → string) l out :
  gathers l out →
  (∀ k b, gather k l = Some b → bkey b = k) → bkey <$> out = group_keys key l.
Proof.
  unfold gathers. intros Hg Hk. induction Hg as [|k b ks bs Hb _ IH]; [done|].
  rewrite fmap_cons. f_equal; [by apply Hk|done].
Qed.
End groups.

(* -------------------------------------------------------------------- *)
(** ** One row per key *)

Lemma dedupe_gathers l : gathers StorageKey id enrich l (dedupe l).
Proof.
  unfold dedupe.
  cut (gathers StorageKey id enrich l (foldl dedupe_step (∅, []) l).2 ∧
       ∀ k i, (foldl dedupe_step (∅, []) l).1 !! k = Some i ↔ group_keys StorageKey l !! i = Some k);
    [by intros []|].
  induction l as [|x l [IHg IHat]] using rev_ind.
  { split; [constructor|]. intros k i. simpl. by rewrite lookup_empty. }
  rewrite foldl_app. simpl. set (st := foldl dedupe_step (∅, []) l) in *.
  unfold gathers in *. rewrite group_keys_snoc. unfold dedupe_step.
  assert (length st.2 = length (group_keys StorageKey l)) as Hlen by (symmetry; by eapply Forall2_length).
  pose proof (NoDup_group_keys StorageKey l) as Hnd.
  destruct (st.1 !! StorageKey x) as [i|] eqn:Hat; simpl.
  - apply IHat in Hat as Hi. rewrite bool_decide_true by (by eapply list_elem_of_lookup_2).
    rewrite app_nil_r. split; [|done]. apply Forall2_same_length_lookup. rewrite length_alter.
    split; [done|]. intros j k b Hk Hb. rewrite gather_snoc.
    rewrite list_lookup_alter in Hb. destruct (decide (StorageKey x = k)) as [Hx|Hx].
    + assert (j = i) as -> by (eapply NoDup_lookup; [done|exact Hk|congruence]).
      rewrite decide_True in Hb by done. apply fmap_Some in Hb as (b0 & Hb0 & ->).
      by rewrite (Forall2_lookup_lr _ _ _ _ _ _ IHg Hk Hb0).
    + rewrite decide_False in Hb by congruence. by eapply (Forall2_lookup_lr _ _ _ _ _ _ IHg).
  - assert (StorageKey x ∉ group_keys StorageKey l) as Hno.
    { intros [i Hi]%list_elem_of_lookup_1. apply IHat in Hi. congruence. }
    rewrite bool_decide_false by done. split.
    + apply Forall2_app.
      * apply Forall2_same_length_lookup. split; [done|]. intros j k b Hk Hb.
        rewrite gather_snoc, decide_False; [by eapply (Forall2_lookup_lr _ _ _ _ _ _ IHg)|].
        intros <-. apply Hno. by eapply list_elem_of_lookup_2.
      * constructor; [|constructor]. rewrite gather_snoc, decide_True by done.
        by rewrite (proj2 (gather_None StorageKey id enrich _ l) Hno).
    + intros k i. rewrite lookup_insert_Some, lookup_app_Some, IHat, Hlen. split.
      * intros [[<- <-]|[Hk Hi]]; [right|by left]. split; [done|]. by rewrite Nat.sub_diag.
      * intros [Hi|[Hle Hi]].
        -- right. split; [|done]. intros <-. apply Hno. by eapply list_elem_of_lookup_2.
        -- left. apply list_lookup_singleton_Some in Hi as [? <-]. split; [done|lia].
Qed.

(* -------------------------------------------------------------------- *)
(** ** What a merge knows *)

Definition worst (l : list Finding) : Z := foldr (λ f w, Z.max (Rank (f_Severity f)) w) 0 l.

(** A row that says all a group of findings says: the worst grade, the union of
    the facts, the highest score. *)
Record knows (b : Finding) (l : list Finding) : Prop := {
  knows_worst : Rank (f_Severity b) = worst l;
  knows_fixable : f_Fixable b = existsb f_Fixable l;
  knows_exploited : f_KEV b = existsb f_KEV l;
  knows_declined : f_WillNotFix b = existsb f_WillNotFix l;
  knows_fixes v : v ≠ "" → v ∈ f_FixedIn b ↔ ∃ f, f ∈ l ∧ v ∈ f_FixedIn f;
  knows_sources v : v ≠ "" → v ∈ f_Sources b ↔ ∃ f, f ∈ l ∧ v ∈ f_Sources f;
  knows_references v : v ≠ "" → v ∈ f_References b ↔ ∃ f, f ∈ l ∧ v ∈ f_References f;
  knows_score : (∀ f, f ∈ l → f_CVSSScore f ≤ f_CVSSScore b) ∧ ∃ f, f ∈ l ∧ f_CVSSScore f = f_CVSSScore b;
  knows_prose : f_Description b = "" ↔ ∀ f, f ∈ l → f_Description f = "" }.

Lemma Rank_nonneg s : 0 ≤ Rank s.
Proof. destruct s; simpl; lia. Qed.

Lemma worst_snoc l f : worst (l ++ [f]) = Z.max (worst l) (Rank (f_Severity f)).
Proof.
  unfold worst. induction l as [|g l IH]; simpl; [pose proof (Rank_nonneg (f_Severity f)); lia|].
  rewrite IH. lia.
Qed.

Lemma elem_of_mergeStrings a b v : v ≠ "" → v ∈ mergeStrings a b ↔ v ∈ a ∨ v ∈ b.
Proof.
  intros Hv. unfold mergeStrings. case_bool_decide as Hb.
  - rewrite Hb. split; [by left|]. intros [?|?%elem_of_nil]; done.
  - rewrite <-(list_fmap_id (firsts id ∅ _)), elem_of_firsts, list_fmap_id.
    rewrite list_elem_of_filter, elem_of_app. set_solver.
Qed.

Lemma or_else_empty a b : or_else a b = "" ↔ a = "" ∧ b = "".
Proof. unfold or_else. destruct (String.eqb_spec a ""); naive_solver. Qed.

Lemma knows_one f : knows f [f].
Proof.
  split; simpl; rewrite ?orb_false_r; try done.
  - pose proof (Rank_nonneg (f_Severity f)). lia.
  - intros v _. setoid_rewrite list_elem_of_singleton. naive_solver.
  - intros v _. setoid_rewrite list_elem_of_singleton. naive_solver.
  - intros v _. setoid_rewrite list_elem_of_singleton. naive_solver.
  - setoid_rewrite list_elem_of_singleton. split; [by intros ? ->|eauto].
  - setoid_rewrite list_elem_of_singleton. naive_solver.
Qed.

Lemma elem_of_snoc {A} (P : A → Prop) l x :
  (∃ y, y ∈ l ++ [x] ∧ P y) ↔ (∃ y, y ∈ l ∧ P y) ∨ P x.
Proof. setoid_rewrite elem_of_app. setoid_rewrite list_elem_of_singleton. naive_solver. Qed.

Lemma knows_enrich b l f : knows b l → knows (enrich b f) (l ++ [f]).
Proof.
  intros []. split; simpl; rewrite ?existsb_app; simpl; rewrite ?orb_false_r.
  - rewrite worst_snoc, <-knows_worst0. destruct (Z.ltb_spec (Rank (f_Severity b)) (Rank (f_Severity f))); lia.
  - congruence.
  - rewrite <-knows_exploited0. by destruct (f_KEV b), (f_KEV f).
  - congruence.
  - intros v Hv. rewrite elem_of_mergeStrings, elem_of_snoc, knows_fixes0 by done. done.
  - intros v Hv. rewrite elem_of_mergeStrings, elem_of_snoc, knows_sources0 by done. done.
  - intros v Hv. rewrite elem_of_mergeStrings, elem_of_snoc, knows_references0 by done. done.
  - destruct knows_score0 as [Hall (g & Hg & Hs)].
    destruct (Z.ltb_spec (f_CVSSScore b) (f_CVSSScore f)); (split; [|apply elem_of_snoc]).
    + intros x [Hx| ->%list_elem_of_singleton]%elem_of_app; [|lia]. specialize (Hall x Hx). lia.
    + by right.
    + intros x [Hx| ->%list_elem_of_singleton]%elem_of_app; [by apply Hall|lia].
    + left. eauto.
  - rewrite or_else_empty, knows_prose0. setoid_rewrite elem_of_app.
    setoid_rewrite list_elem_of_singleton. naive_solver.
Qed.

Lemma gather_knows k l b :
  gather StorageKey id enrich k l = Some b → knows b (group StorageKey k l).
Proof.
  revert b. induction l as [|x l IH] using rev_ind; intros b; [done|].
  rewrite gather_snoc, group_snoc. case_decide; [|rewrite app_nil_r; apply IH].
  destruct (gather StorageKey id enrich k l) as [b0|] eqn:Hb0.
  - intros [= <-]. by apply knows_enrich, IH.
  - intros [= <-]. apply gather_None in Hb0.
    assert (group StorageKey k l = []) as ->; [|apply knows_one].
    apply filter_none. intros y Hy <-. apply Hb0, elem_of_group_keys. by apply list_elem_of_fmap_2.
Qed.

(** No identifier holds the byte the keys are joined with. *)
Definition plain (f : Finding) : Prop := has_char bar (Identifier f) = false.

Lemma cut_once c a b x y :
  has_char c a = false → has_char c b = false →
  String.append a (String c x) = String.append b (String c y) → a = b ∧ x = y.
Proof.
  intros Ha Hb E. apply (f_equal (cut_first c)) in E. rewrite !cut_first_app in E by done. by injection E.
Qed.

Lemma enrich_key b f :
  plain b → plain f → StorageKey b = StorageKey f →
  StorageKey (enrich b f) = StorageKey b ∧ Key (enrich b f) = Key b ∧ plain (enrich b f).
Proof.
  intros Hb Hf Hk. apply cut_once in Hk as [Hid _]; [|done|done].
  assert (Identifier (enrich b f) = Identifier b) as Hi.
  { revert Hid. unfold Identifier, enrich, or_else. simpl.
    destruct (String.eqb_spec (f_CVE b) ""), (String.eqb_spec (f_CVE f) "");
      destruct (String.eqb_spec (f_ID b) ""); simpl; intros; simplify_eq/=;
      repeat match goal with |- context [String.eqb ?a ?b] => destruct (String.eqb_spec a b) end; congruence. }
  assert (ComponentKey (f_Component (enrich b f)) = ComponentKey (f_Component b)) as Hc by done.
  unfold StorageKey, Key, plain. rewrite Hi, Hc. done.
Qed.

Lemma gather_key k l b :
  Forall plain l → gather StorageKey id enrich k l = Some b → StorageKey b = k ∧ plain b.
Proof.
  revert b. induction l as [|x l IH] using rev_ind; intros b; [done|].
  intros [Hl Hx]%Forall_app. apply Forall_cons in Hx as [Hx _]. rewrite gather_snoc. case_decide as Hk; [|by apply IH].
  destruct (gather StorageKey id enrich k l) as [b0|]; [|by intros [= <-]].
  intros [= <-]. destruct (IH b0 Hl eq_refl) as [Hb0 Hp].
  destruct (enrich_key b0 x Hp Hx) as (-> & _ & ?); [congruence|done].
Qed.

Definition set_Sources (f : Finding) : Finding := f <| f_Sources ::= sort_strings |>.

Lemma knows_sorted b l : knows b l → knows (set_Sources b) l.
Proof. intros []. split; simpl; try done. intros v Hv. rewrite elem_of_sort_strings. by apply knows_sources0. Qed.

(** A merged list: each key of the findings once, each row knowing its group. *)
Definition merged (l out : list Finding) : Prop :=
  NoDup (StorageKey <$> out) ∧
  (∀ k, k ∈ StorageKey <$> out ↔ k ∈ StorageKey <$> l) ∧
  (∀ b, b ∈ out → knows b (group StorageKey (StorageKey b) l)).

Lemma dedupe_merged l : Forall plain l → merged l (dedupe l).
Proof.
  intros Hl. pose proof (dedupe_gathers l) as Hg.
  assert (StorageKey <$> dedupe l = group_keys StorageKey l) as Hkeys.
  { eapply gathers_keys; [exact Hg|]. intros k b Hb. by apply (gather_key k l b Hl). }
  split; [rewrite Hkeys; apply NoDup_group_keys|]. split.
  - intros k. by rewrite Hkeys, elem_of_group_keys.
  - intros b (k & _ & Hb)%(gathers_elem _ _ _ _ _ _ Hg).
    destruct (gather_key k l b Hl Hb) as [-> _]. by apply gather_knows.
Qed.

Lemma merged_sorted l out : merged l out → merged l (set_Sources <$> out).
Proof.
  intros (Hnd & Hk & Hall). unfold merged. rewrite <-list_fmap_compose.
  change (StorageKey ∘ set_Sources) with StorageKey. split; [done|]. split; [done|].
  intros b (x & -> & Hx)%list_elem_of_fmap. change (StorageKey (set_Sources x)) with (StorageKey x).
  by apply knows_sorted, Hall.
Qed.

Lemma short_merged l : (length l < 2)%nat → merged l l.
Proof.
  intros Hl. destruct l as [|x [|y l]]; simpl in Hl; [| |lia].
  - split; [constructor|]. split; [done|]. intros b ?%elem_of_nil. done.
  - split; [apply NoDup_singleton|]. split; [done|]. intros b ->%list_elem_of_singleton.
    unfold group. rewrite filter_cons_True by done. apply knows_one.
Qed.

Lemma MergeFindings_merged l : Forall plain l → merged l (MergeFindings l).
Proof.
  intros Hl. unfold MergeFindings. destruct (Nat.ltb_spec (length l) 2); [by apply short_merged|].
  by apply merged_sorted, dedupe_merged.
Qed.

(** Merging collapses rows and loses nothing.  For findings whose
    identifiers do not hold the byte the keys are joined with, the merge has one
    row for each stored identity - advisory, package and version - of the input
    and no other; the row carries the worst grade of its group, is fixable,
    exploited or declined if any of the group is, and names exactly the fixed
    versions, the scanners and the references the group names, with its highest
    score and a description if any has one.  The same holds of a provider's
    own deduplication. *)
Theorem MergeFindings_exact l :
  Forall plain l → merged l (MergeFindings l) ∧ merged l (DedupeFindings l).
Proof.
  intros Hl. split; [by apply MergeFindings_merged|]. unfold DedupeFindings.
  destruct (Nat.ltb_spec (length l) 2); [by apply short_merged|by apply dedupe_merged].
Qed.

(* -------------------------------------------------------------------- *)
(** ** The order of the scanners *)

Definition of_rank (r : Z) : Severity :=
  if r =? 5 then SeverityCritical else if r =? 4 then SeverityHigh
  else if r =? 3 then SeverityMedium else if r =? 2 then SeverityLow else SeverityUnknown.

Lemma account_of_rank f :
  account (GradeOf f) = account (mkGrade (of_rank (Rank (f_Severity f))) (f_Fixable f) (f_KEV f)).
Proof. unfold GradeOf. by destruct (f_Severity f). Qed.

Definition group_account (l : list Finding) (k : string) : Counts :=
  let g := group StorageKey k l in
  account (mkGrade (of_rank (worst g)) (existsb f_Fixable g) (existsb f_KEV g)).

Definition sum_accounts (l : list Counts) : Counts := foldr Plus no_counts l.

#[export] Instance sum_accounts_Permutation : Proper ((≡ₚ) ==> (=)) sum_accounts.
Proof.
  intros l k Hp. induction Hp; simpl; try congruence.
  by rewrite !(assoc_L Plus), (comm_L Plus x y).
Qed.

Lemma count_findings_sum l : count_findings l = sum_accounts ((λ f, account (GradeOf f)) <$> l).
Proof. induction l as [|f l IH]; [done|]. rewrite count_findings_cons. simpl. by rewrite IH. Qed.

Lemma merged_count l out :
  merged l out → count_findings out = sum_accounts (group_account l <$> (StorageKey <$> out)).
Proof.
  intros (_ & _ & Hall). rewrite count_findings_sum, <-list_fmap_compose. f_equal.
  apply list_fmap_ext. intros i b Hb. destruct (Hall b) as [Hw Hf Hk _ _ _ _ _ _];
    [by eapply list_elem_of_lookup_2|].
  rewrite account_of_rank, Hw, Hf, Hk. done.
Qed.

#[export] Instance worst_Permutation : Proper ((≡ₚ) ==> (=)) worst.
Proof. intros l k Hp. unfold worst. induction Hp; simpl; lia. Qed.

#[export] Instance existsb_Permutation {A} (p : A → bool) : Proper ((≡ₚ) ==> (=)) (existsb p).
Proof. intros l k Hp. induction Hp; simpl; try congruence. by rewrite !orb_assoc, (orb_comm (p x)). Qed.

Lemma group_account_Permutation l l' k : l ≡ₚ l' → group_account l k = group_account l' k.
Proof. intros Hp. unfold group_account, group. by rewrite Hp. Qed.

(** Two rows that agree on everything that is sorted, counted and compared. *)
Definition agree (a b : Finding) : Prop :=
  Rank (f_Severity a) = Rank (f_Severity b) ∧ f_Fixable a = f_Fixable b ∧ f_KEV a = f_KEV b ∧
  f_WillNotFix a = f_WillNotFix b ∧ f_CVSSScore a = f_CVSSScore b ∧
  (∀ v, v ≠ "" → v ∈ f_FixedIn a ↔ v ∈ f_FixedIn b) ∧
  (∀ v, v ≠ "" → v ∈ f_Sources a ↔ v ∈ f_Sources b).

Lemma knows_agree a b l l' : l ≡ₚ l' → knows a l → knows b l' → agree a b.
Proof.
  intros Hp [] [].
  assert (∀ (P : Finding → Prop), (∃ f, f ∈ l ∧ P f) ↔ ∃ f, f ∈ l' ∧ P f) as Hex
    by (intros P; by setoid_rewrite Hp).
  split; [by rewrite knows_worst0, knows_worst1, Hp|].
  split; [by rewrite knows_fixable0, knows_fixable1, Hp|].
  split; [by rewrite knows_exploited0, knows_exploited1, Hp|].
  split; [by rewrite knows_declined0, knows_declined1, Hp|].
  split; [|split].
  - destruct knows_score0 as [Ha (f & Hf & Ea)], knows_score1 as [Hb (g & Hg & Eb)].
    rewrite Hp in Hf. rewrite <-Hp in Hg. specialize (Ha g Hg). specialize (Hb f Hf). lia.
  - intros v Hv. by rewrite knows_fixes0, knows_fixes1, Hex by done.
  - intros v Hv. by rewrite knows_sources0, knows_sources1, Hex by done.
Qed.

(** What a merge keeps does not depend on who was asked first.  Merging the
    same findings in another order gives rows for the same identities, any two
    rows of one identity agree on their grade, their fixes, their exploitation,
    their sources and their score, and the two merges count the same. *)
Theorem merge_order_does_not_matter l l' :
  Forall plain l → l ≡ₚ l' →
  count_findings (MergeFindings l) = count_findings (MergeFindings l') ∧
  StorageKey <$> MergeFindings l ≡ₚ StorageKey <$> MergeFindings l' ∧
  ∀ a b, a ∈ MergeFindings l → b ∈ MergeFindings l' → StorageKey a = StorageKey b → agree a b.
Proof.
  intros Hl Hp. assert (Forall plain l') as Hl' by by rewrite <-Hp.
  pose proof (MergeFindings_merged l Hl) as Hm. pose proof (MergeFindings_merged l' Hl') as Hm'.
  assert (StorageKey <$> MergeFindings l ≡ₚ StorageKey <$> MergeFindings l') as Hkeys.
  { apply NoDup_Permutation; [apply Hm|apply Hm'|]. intros k.
    rewrite (proj1 (proj2 Hm)), (proj1 (proj2 Hm')). by rewrite Hp. }
  split; [|split; [done|]].
  - rewrite (merged_count _ _ Hm), (merged_count _ _ Hm'), Hkeys. f_equal.
    apply list_fmap_ext. intros i k _. by apply group_account_Permutation.
  - intros a b Ha Hb Hab. eapply knows_agree; [|by apply Hm|by apply Hm'].
    rewrite Hab. unfold group. by rewrite Hp.
Qed.

(* -------------------------------------------------------------------- *)
(** ** One report per artifact *)

Definition report_ref (r : Report) : string := Ref (r_Artifact r).

Lemma mergeInto_ref dst src : report_ref (mergeInto dst src) = report_ref dst.
Proof.
  unfold report_ref, mergeInto.
  repeat match goal with |- context [if ?b then _ else _] => destruct b end; reflexivity.
Qed.

Lemma merge_step_gathers l :
  let st := foldl merge_step ([], ∅) l in
  st.1 = group_keys report_ref l ∧ ∀ k, st.2 !! k = gather report_ref stampSource mergeInto k l.
Proof.
  simpl. induction l as [|r l [IHo IHm]] using rev_ind.
  { split; [done|]. intros k. simpl. by rewrite lookup_empty. }
  rewrite foldl_app. simpl. set (st := foldl merge_step ([], ∅) l) in *. unfold merge_step.
  fold (report_ref r). rewrite group_keys_snoc.
  destruct (st.2 !! report_ref r) as [dst|] eqn:E; simpl.
  - rewrite IHm in E. rewrite bool_decide_true, app_nil_r.
    2: { apply dec_stable. intros Hno. apply (gather_None _ stampSource mergeInto) in Hno. congruence. }
    split; [done|]. intros k. rewrite gather_snoc. case_decide as Hk.
    + rewrite <-Hk, lookup_insert_eq, E. done.
    + by rewrite lookup_insert_ne.
  - rewrite IHm in E. rewrite bool_decide_false by by apply (gather_None _ stampSource mergeInto).
    split; [by rewrite IHo|]. intros k. rewrite gather_snoc. case_decide as Hk.
    + rewrite <-Hk, lookup_insert_eq, E. done.
    + by rewrite lookup_insert_ne.
Qed.

Definition stamped (r : Report) : list Finding := stampFinding (r_Provider r) <$> r_Findings r.

(** What the reports about one artifact come to: the best status, missing and
    cached only if all are, the oldest scan, every finding. *)
Record sums_up (b : Report) (g : list Report) : Prop := {
  best_status : (∀ r, r ∈ g → statusRank (r_Status r) ≤ statusRank (r_Status b)) ∧
                ∃ r, r ∈ g ∧ r_Status r = r_Status b;
  all_missing : r_Missing b = forallb r_Missing g;
  all_cached : r_FromCache b = forallb r_FromCache g;
  oldest_scan t : r_ScannedAt b = Some t → (∃ r, r ∈ g ∧ r_ScannedAt r = Some t) ∧
                  ∀ r s, r ∈ g → r_ScannedAt r = Some s → t ≤ s;
  no_scan : r_ScannedAt b = None → ∀ r, r ∈ g → r_ScannedAt r = None;
  all_findings : r_Findings b = g ≫= stamped }.

Lemma sums_up_one r : sums_up (stampSource r) [r].
Proof.
  split; simpl; rewrite ?andb_true_r; try done.
  - setoid_rewrite list_elem_of_singleton. split; [by intros ? ->|eauto].
  - intros t Ht. setoid_rewrite list_elem_of_singleton. split; [eauto|].
    intros ? s -> Hs. rewrite Ht in Hs. injection Hs as <-. lia.
  - intros Hn r0 ->%list_elem_of_singleton. done.
  - by rewrite app_nil_r.
Qed.

(** The fields of a merged report. *)
Lemma mergeInto_fields b r :
  let m := mergeInto b r in
  r_Status m = (if statusRank (r_Status b) <? statusRank (r_Status r) then r_Status r else r_Status b) ∧
  r_Missing m = r_Missing b && r_Missing r ∧ r_FromCache m = r_FromCache b && r_FromCache r ∧
  r_ScannedAt m = older (r_ScannedAt b) (r_ScannedAt r) ∧ r_Findings m = r_Findings b ++ stamped r.
Proof.
  unfold mergeInto. simpl.
  repeat match goal with |- context [if ?b then _ else _] => destruct b end; done.
Qed.

Lemma older_None a b : older a b = None ↔ a = None ∧ b = None.
Proof. unfold older. destruct b as [t|], a as [s|]; try destruct (t <? s); naive_solver. Qed.

Lemma older_Some a b t :
  older a b = Some t ↔ (a = Some t ∨ b = Some t) ∧ (∀ s, a = Some s → t ≤ s) ∧ (∀ s, b = Some s → t ≤ s).
Proof.
  unfold older. destruct b as [u|], a as [s|].
  - destruct (Z.ltb_spec u s); split.
    + intros [= <-]. split; [by right|]. split; intros ? [= <-]; lia.
    + intros ([[= ->]|[= ->]] & H1 & H2); [|done]. specialize (H2 u eq_refl). lia.
    + intros [= <-]. split; [by left|]. split; intros ? [= <-]; lia.
    + intros ([[= ->]|[= ->]] & H1 & H2); [done|]. specialize (H1 s eq_refl). f_equal. lia.
  - split; [intros [= <-]|naive_solver]. split; [by right|]. split; [done|]. intros ? [= <-]; lia.
  - split; [intros [= <-]|naive_solver]. split; [by left|]. split; [|done]. intros ? [= <-]; lia.
  - naive_solver.
Qed.

Lemma sums_up_snoc b g r : sums_up b g → sums_up (mergeInto b r) (g ++ [r]).
Proof.
  intros [[Hle (r0 & Hr0 & Hst)] Hm Hc Ho Hn Hf].
  destruct (mergeInto_fields b r) as (Es & Em & Ec & Et & Ef). split.
  - rewrite Es, elem_of_snoc. destruct (Z.ltb_spec (statusRank (r_Status b)) (statusRank (r_Status r))).
    + split; [|by right]. intros x [Hx| ->%list_elem_of_singleton]%elem_of_app; [|lia].
      specialize (Hle x Hx). lia.
    + split; [|left; eauto]. intros x [Hx| ->%list_elem_of_singleton]%elem_of_app; [by apply Hle|lia].
  - rewrite Em, forallb_app, Hm. simpl. by rewrite andb_true_r.
  - rewrite Ec, forallb_app, Hc. simpl. by rewrite andb_true_r.
  - intros t. rewrite Et, older_Some, elem_of_snoc. intros (Hor & Ha & Hb). split.
    + destruct Hor as [Hb0|]; [|by right]. left. by apply Ho.
    + intros x s [Hx| ->%list_elem_of_singleton]%elem_of_app Hs; [|by apply Hb].
      destruct (r_ScannedAt b) as [u|] eqn:E; [|by rewrite (Hn eq_refl x Hx) in Hs].
      specialize (Ha u eq_refl). destruct (Ho u eq_refl) as [_ Hu]. specialize (Hu x s Hx Hs). lia.
  - rewrite Et, older_None. intros [Hb Hr] x [Hx| ->%list_elem_of_singleton]%elem_of_app; [by apply Hn|done].
  - rewrite Ef, Hf, bind_app. f_equal. simpl. by rewrite app_nil_r.
Qed.

Lemma gather_sums_up k l b :
  gather report_ref stampSource mergeInto k l = Some b →
  sums_up b (group report_ref k l) ∧ report_ref b = k.
Proof.
  revert b. induction l as [|r l IH] using rev_ind; intros b; [done|].
  rewrite gather_snoc, group_snoc. case_decide as Hk; [|rewrite app_nil_r; apply IH].
  destruct (gather report_ref stampSource mergeInto k l) as [b0|] eqn:Hb0; intros [= <-].
  - destruct (IH b0 eq_refl) as [Hs Hb]. rewrite mergeInto_ref. split; [by apply sums_up_snoc|done].
  - apply gather_None in Hb0. assert (group report_ref k l = []) as ->; [|by split; [apply sums_up_one|]].
    apply filter_none. intros y Hy <-. apply Hb0, elem_of_group_keys. by apply list_elem_of_fmap_2.
Qed.

Lemma merged_Permutation l out out' : out ≡ₚ out' → merged l out → merged l out'.
Proof.
  intros Hp (Hnd & Hk & Hall). split; [by rewrite <-Hp|]. split.
  - intros k. by rewrite <-Hp.
  - intros b. rewrite <-Hp. apply Hall.
Qed.

Lemma stampFinding_key p f : StorageKey (stampFinding p f) = StorageKey f ∧ Key (stampFinding p f) = Key f
  ∧ Identifier (stampFinding p f) = Identifier f.
Proof.
  unfold stampFinding. repeat match goal with |- context [if ?b then _ else _] => destruct b end; done.
Qed.

Lemma stamped_plain g : Forall (λ r, Forall plain (r_Findings r)) g → Forall plain (g ≫= stamped).
Proof.
  rewrite !Forall_forall. intros Hg f (r & Hf & Hr)%list_elem_of_bind.
  apply list_elem_of_fmap in Hf as (f0 & -> & Hf0). unfold plain.
  rewrite (proj2 (proj2 (stampFinding_key _ _))). specialize (Hg r Hr). rewrite Forall_forall in Hg.
  by apply Hg.
Qed.

Lemma join_nonempty {A} (ls : list (list A)) : mjoin (filter (λ l, l ≠ []) ls) = mjoin ls.
Proof.
  induction ls as [|l ls IH]; [done|]. rewrite filter_cons. case_decide as Hl; simpl; [by rewrite IH|].
  by rewrite Hl, IH.
Qed.

Lemma omap_keys {A} (key : A → string) (g : string → option A) (ks : list string) :
  (∀ k, k ∈ ks → ∃ x, g k = Some x ∧ key x = k) → key <$> omap g ks = ks.
Proof.
  induction ks as [|k ks IH]; intros Hk; [done|]. simpl.
  destruct (Hk k) as (x & -> & Hx); [left|]. simpl. f_equal; [done|apply IH].
  intros k' Hk'. apply Hk. by right.
Qed.

(** A finished report: what the group says, counted from what it lists. *)
Record reported (r : Report) (g : list Report) : Prop := {
  report_sums : ∃ b, sums_up b g ∧ report_ref b = report_ref r ∧ r_Status r = r_Status b ∧
                  r_Missing r = r_Missing b ∧ r_FromCache r = r_FromCache b ∧
                  r_ScannedAt r = r_ScannedAt b;
  report_rows : merged (g ≫= stamped) (r_Findings r);
  report_count : r_Counts r = count_findings (r_Findings r) }.

Lemma finish_reported b g :
  Forall (λ r, Forall plain (r_Findings r)) g → sums_up b g → reported (finish_report b) g.
Proof.
  intros Hg Hs. assert (MergeFindings (r_Findings b) ≡ₚ r_Findings (finish_report b)) as Hp.
  { symmetry. apply merge_sort_Permutation. }
  split; [by exists b| |].
  - eapply merged_Permutation; [exact Hp|]. rewrite (all_findings _ _ Hs).
    by apply MergeFindings_merged, stamped_plain.
  - by rewrite <-Hp.
Qed.

(** Two scanners become one report per artifact.  When at least two scanners
    answered, the merge has exactly one report for each artifact any of them
    reported on; its status is the best any scanner reached, it is missing only
    if every scanner says so, its scan time is the oldest; its findings are the
    merge of every scanner's, nothing lost and nothing invented, and its counts
    are those of its findings. *)
Theorem MergeReports_exact bySource :
  Forall (λ r, Forall plain (r_Findings r)) (mjoin bySource) →
  (2 ≤ length (filter (λ l, l ≠ []) bySource))%nat →
  let out := MergeReports bySource in
  NoDup (report_ref <$> out) ∧
  (∀ k, k ∈ report_ref <$> out ↔ k ∈ report_ref <$> mjoin bySource) ∧
  (∀ r, r ∈ out → reported r (group report_ref (report_ref r) (mjoin bySource))).
Proof.
  intros Hplain Hlen out. set (all := mjoin bySource) in *.
  destruct (merge_step_gathers all) as [Ho Hm].
  set (st := foldl merge_step ([], ∅) all) in *.
  assert (out ≡ₚ finish_report <$> omap (λ k, gather report_ref stampSource mergeInto k all)
            (group_keys report_ref all)) as Hout.
  { unfold out, MergeReports. pose proof (join_nonempty bySource) as Hj.
    destruct (filter (λ l, l ≠ []) bySource) as [|l1 [|l2 ls]]; simpl in Hlen; try lia.
    rewrite Hj. fold all st. destruct st as [order merged0]. simpl in Ho, Hm. subst order.
    unfold sortReports, slice_stable. rewrite merge_sort_Permutation. f_equiv.
    assert (∀ ks, omap (λ key, merged0 !! key) ks =
      omap (λ k, gather report_ref stampSource mergeInto k all) ks) as ->; [|done].
    induction ks as [|k ks IH]; [done|]. simpl. rewrite Hm.
    destruct (gather _ _ _ k all); [f_equal|]; exact IH. }
  assert (∀ r, r ∈ out → ∃ b, r = finish_report b ∧
    gather report_ref stampSource mergeInto (report_ref r) all = Some b) as Hin.
  { intros r. rewrite Hout. intros (b & -> & (k & Hk & Hb)%list_elem_of_omap)%list_elem_of_fmap.
    exists b. split; [done|]. change (report_ref (finish_report b)) with (report_ref b).
    destruct (gather_sums_up _ _ _ Hb) as [_ ->]. done. }
  assert (report_ref <$> out ≡ₚ group_keys report_ref all) as Hkeys.
  { rewrite Hout, <-list_fmap_compose. change (report_ref ∘ finish_report) with report_ref.
    rewrite omap_keys; [done|]. intros k Hk.
    destruct (gather report_ref stampSource mergeInto k all) as [b|] eqn:Hb.
    - exists b. split; [done|]. by apply (gather_sums_up k all).
    - by apply gather_None in Hb. }
  split; [rewrite Hkeys; apply NoDup_group_keys|]. split.
  - intros k. by rewrite Hkeys, elem_of_group_keys.
  - intros r (b & -> & Hb)%Hin. apply finish_reported; [|by apply (gather_sums_up _ _ _ Hb)].
    rewrite Forall_forall in Hplain |- *. intros x [_ Hx]%list_elem_of_filter. by apply Hplain.
Qed.

(* -------------------------------------------------------------------- *)
(** ** The numbers of a posture *)

Definition tally_findings (fs : list Finding) (t : tally) : tally := foldl tally_finding t fs.

(** What a pass over findings leaves alone. *)
Lemma tally_finding_frame t f :
  let t' := tally_finding t f in
  ta_Coverage t' = ta_Coverage t ∧ ta_Counts t' = ta_Counts t ∧
  ta_Providers t' = ta_Providers t ∧ ta_ScannedAt t' = ta_ScannedAt t.
Proof. unfold tally_finding. simpl. by destruct (String.eqb (Identifier f) ""). Qed.

Definition named (f : Finding) : Prop := Identifier f ≠ "".

(** The sets and the grades a tally holds of the findings it saw. *)
Record tallied (t : tally) (fs : list Finding) : Prop := {
  tallied_keys k : is_Some (ta_unique t !! k) ↔ k ∈ Key <$> fs;
  tallied_cves k : k ∈ ta_cves t ↔ ∃ f, f ∈ fs ∧ named f ∧ Identifier f = k;
  tallied_grades k : is_Some (ta_cveSeverity t !! k) ↔ k ∈ ta_cves t;
  tallied_kev k : k ∈ ta_cveKEV t ↔ ∃ f, f ∈ fs ∧ named f ∧ f_KEV f = true ∧ Identifier f = k;
  tallied_worst k s : ta_unique t !! k = Some s → Rank s = worst (group Key k fs);
  tallied_cve_worst k s : ta_cveSeverity t !! k = Some s → Rank s = worst (group Identifier k fs) }.

Lemma grade_at_Some k k' s m :
  is_Some (grade_at k s m !! k') ↔ k' = k ∨ is_Some (m !! k').
Proof.
  unfold grade_at. destruct (decide (k' = k)) as [->|Hne].
  - split; [by left|]. intros _. destruct (m !! k) as [p|] eqn:E; [|by rewrite lookup_insert_eq].
    destruct (Rank p <? Rank s); [by rewrite lookup_insert_eq|by rewrite E].
  - assert (∀ v, <[k:=v]> m !! k' = m !! k') as Hi by (intros v; by rewrite lookup_insert_ne).
    destruct (m !! k) as [p|]; [destruct (Rank p <? Rank s)|]; rewrite ?Hi; naive_solver.
Qed.

Lemma grade_at_worst (key : Finding → string) k f fs (m : gmap string Severity) s :
  (∀ k s, m !! k = Some s → Rank s = worst (group key k fs)) →
  (key f ∈ key <$> fs → is_Some (m !! key f)) →
  grade_at (key f) (f_Severity f) m !! k = Some s → Rank s = worst (group key k (fs ++ [f])).
Proof.
  intros Hm Hdom. unfold grade_at. rewrite group_snoc. case_decide as Hk.
  - subst k. rewrite worst_snoc. destruct (m !! key f) as [p|] eqn:E.
    + rewrite <-(Hm _ _ E). destruct (Z.ltb_spec (Rank p) (Rank (f_Severity f))).
      * rewrite lookup_insert_eq. intros [= <-]. lia.
      * rewrite E. intros [= <-]. lia.
    + rewrite lookup_insert_eq. intros [= <-].
      assert (group key (key f) fs = []) as ->; [|pose proof (Rank_nonneg (f_Severity f)); simpl; lia].
      apply filter_none. intros y Hy Hyf. destruct Hdom as [? ?]; [|done].
      rewrite <-Hyf. by apply list_elem_of_fmap_2.
  - rewrite app_nil_r. assert (∀ v, <[key f:=v]> m !! k = m !! k) as Hi
      by (intros v; by rewrite lookup_insert_ne).
    destruct (m !! key f) as [p|]; [destruct (Rank p <? Rank (f_Severity f))|]; rewrite ?Hi; apply Hm.
Qed.

Lemma elem_of_add_if b k k' s : k' ∈ add_if b k s ↔ (b = true ∧ k' = k) ∨ k' ∈ s.
Proof. unfold add_if. destruct b; set_solver. Qed.

Lemma tallied_none : tallied no_tally [].
Proof.
  split; simpl; intros k; rewrite ?lookup_empty, ?elem_of_empty; try done; split; try done;
    try (by intros []); try (by intros ?%elem_of_nil);
    by intros (? & ?%elem_of_nil & _).
Qed.

(** The columns of a finding's tally. *)
Lemma tally_finding_columns t f :
  let t' := tally_finding t f in
  ta_unique t' = grade_at (Key f) (f_Severity f) (ta_unique t) ∧
  (named f → ta_cves t' = {[ Identifier f ]} ∪ ta_cves t ∧
             ta_cveSeverity t' = grade_at (Identifier f) (f_Severity f) (ta_cveSeverity t) ∧
             ta_cveKEV t' = add_if (f_KEV f) (Identifier f) (ta_cveKEV t)) ∧
  (¬ named f → ta_cves t' = ta_cves t ∧ ta_cveSeverity t' = ta_cveSeverity t ∧ ta_cveKEV t' = ta_cveKEV t).
Proof.
  unfold tally_finding, named. simpl. destruct (String.eqb_spec (Identifier f) ""); simpl; naive_solver.
Qed.

Lemma tallied_snoc t fs f : tallied t fs → tallied (tally_finding t f) (fs ++ [f]).
Proof.
  intros [Hk Hc Hg Hv Hw Hcw].
  destruct (tally_finding_columns t f) as (Eu & En & Ea).
  assert (∀ k, (∃ x, x ∈ fs ++ [f] ∧ named x ∧ Identifier x = k) ↔
    k ∈ ta_cves t ∨ (named f ∧ Identifier f = k)) as Hids.
  { intros k. rewrite (elem_of_snoc (λ x, named x ∧ Identifier x = k)). by rewrite Hc. }
  assert (∀ k, (∃ x, x ∈ fs ++ [f] ∧ named x ∧ f_KEV x = true ∧ Identifier x = k) ↔
    k ∈ ta_cveKEV t ∨ (named f ∧ f_KEV f = true ∧ Identifier f = k)) as Hkevs.
  { intros k. rewrite (elem_of_snoc (λ x, named x ∧ f_KEV x = true ∧ Identifier x = k)). by rewrite Hv. }
  assert (Key f ∈ Key <$> fs → is_Some (ta_unique t !! Key f)) as Hin by apply Hk.
  destruct (decide (named f)) as [Hn|Hn]; unfold named in Hn.
  - destruct (En Hn) as (Ec & Es & Ev). split; intros k; rewrite ?Eu, ?Ec, ?Es, ?Ev.
    + rewrite grade_at_Some, Hk, fmap_app, elem_of_app. simpl. rewrite list_elem_of_singleton. tauto.
    + rewrite Hids, elem_of_union, elem_of_singleton. naive_solver.
    + rewrite grade_at_Some, Hg, elem_of_union, elem_of_singleton. done.
    + rewrite Hkevs, elem_of_add_if. naive_solver.
    + intros s. by apply grade_at_worst.
    + intros s. apply grade_at_worst; [done|]. intros (x & Ex & Hx)%list_elem_of_fmap.
      apply Hg, Hc. exists x. split; [done|]. unfold named. by rewrite <-Ex.
  - destruct (Ea Hn) as (Ec & Es & Ev). split; intros k; rewrite ?Eu, ?Ec, ?Es, ?Ev.
    + rewrite grade_at_Some, Hk, fmap_app, elem_of_app. simpl. rewrite list_elem_of_singleton. tauto.
    + rewrite Hids. naive_solver.
    + done.
    + rewrite Hkevs. naive_solver.
    + intros s. by apply grade_at_worst.
    + intros s Hs. rewrite (Hcw _ _ Hs), group_snoc. case_decide as Hx; [|by rewrite app_nil_r].
      exfalso. assert (k ∈ ta_cves t) as (y & _ & Hy & <-)%Hc by (apply Hg; eauto).
      apply Hn. unfold named in Hy. by rewrite Hx.
Qed.

Lemma tallied_findings t fs gs : tallied t fs → tallied (tally_findings gs t) (fs ++ gs).
Proof.
  revert t fs. induction gs as [|g gs IH]; intros t fs Ht; [by rewrite app_nil_r|].
  simpl. replace (fs ++ g :: gs) with ((fs ++ [g]) ++ gs) by by rewrite <-(assoc_L app).
  by apply IH, tallied_snoc.
Qed.

Definition scanned_findings (reports : list Report) : list Finding :=
  filter (λ r, r_Status r = StatusScanned) reports ≫= r_Findings.

Lemma tallied_ext t t' fs :
  ta_unique t = ta_unique t' → ta_cves t = ta_cves t' → ta_cveSeverity t = ta_cveSeverity t' →
  ta_cveKEV t = ta_cveKEV t' → tallied t fs → tallied t' fs.
Proof. intros E1 E2 E3 E4 []. split; intros k; rewrite <-?E1, <-?E2, <-?E3, <-?E4; auto. Qed.

Lemma tally_findings_frame fs t :
  let t' := tally_findings fs t in
  ta_Coverage t' = ta_Coverage t ∧ ta_Counts t' = ta_Counts t.
Proof.
  revert t. induction fs as [|f fs IH]; intros t; [done|]. simpl.
  destruct (IH (tally_finding t f)) as [-> ->]. by destruct (tally_finding_frame t f) as (-> & -> & _).
Qed.

Lemma tally_reports_spec reports :
  let t := foldl tally_report no_tally reports in
  ta_Coverage t = foldl (λ c r, cover r c) (ta_Coverage no_tally) reports ∧
  ta_Counts t = sum_accounts (r_Counts <$> filter (λ r, r_Status r = StatusScanned) reports) ∧
  tallied t (scanned_findings reports).
Proof.
  simpl. induction reports as [|r reports (Hcov & Hc & Ht)] using rev_ind.
  { split; [done|]. split; [done|]. apply tallied_none. }
  rewrite !foldl_app. simpl. rewrite <-Hcov. set (t := foldl tally_report no_tally reports) in *.
  unfold scanned_findings in *. rewrite filter_app, filter_cons, filter_nil.
  assert (∀ c l, sum_accounts (l ++ [c]) = Plus (sum_accounts l) c) as Hsnoc.
  { intros c l. induction l as [|x l IH]; simpl; [by rewrite Plus_none, (comm_L Plus), Plus_none|].
    by rewrite IH, (assoc_L Plus). }
  unfold tally_report.
  destruct (negb (String.eqb (r_Provider r) "") && _) eqn:Hp; clear Hp;
    case_bool_decide as Hs; simpl; rewrite ?decide_True, ?decide_False by done;
    rewrite ?app_nil_r; try (split; [done|]; split; [done|]; by eapply tallied_ext; [..|exact Ht]).
  all: rewrite fmap_app, bind_app; simpl; rewrite app_nil_r, Hsnoc, <-Hc.
  all: match goal with |- context [foldl tally_finding ?t' _] => 
    destruct (tally_findings_frame (r_Findings r) t') as [E1 E2]; unfold tally_findings in E1, E2;
    rewrite E1, E2; split; [done|]; split; [done|]; apply tallied_findings;
    by eapply tallied_ext; [..|exact Ht] end.
Qed.

Definition distinct_count (l : list string) : Z := Z.of_nat (size (list_to_set l : gset string)).

Lemma size_add (x : string) (X : gset string) : x ∉ X → size ({[ x ]} ∪ X) = S (size X).
Proof. intros Hx. rewrite size_union, size_singleton by set_solver. done. Qed.

Lemma distinct_count_le l : distinct_count l ≤ Z.of_nat (length l).
Proof.
  unfold distinct_count. induction l as [|x l IH]; [done|]. simpl list_to_set.
  destruct (decide (x ∈ (list_to_set l : gset string))) as [Hx|Hx].
  - rewrite (subseteq_union_1_L {[x]}) by set_solver. simpl. lia.
  - rewrite size_add by done. simpl length. lia.
Qed.

Lemma distinct_count_set l (s : gset string) :
  (∀ k, k ∈ s ↔ k ∈ l) → Z.of_nat (size s) = distinct_count l.
Proof. intros Hs. unfold distinct_count. do 2 f_equal. apply set_eq. intros k. by rewrite Hs, elem_of_list_to_set. Qed.

(** Grading each key of a map once. *)
Lemma fold_grades (K : gset string) (g : string → Severity → Grade) (m : gmap string Severity) :
  (∀ k s, g_KEV (g k s) = bool_decide (k ∈ K)) →
  let c := map_fold (λ k s c, AddGrade (g k s) c) no_counts m in
  adds_up c ∧ k_Total c = Z.of_nat (size m) ∧ k_KEV c = Z.of_nat (size (dom m ∩ K)).
Proof.
  intros Hg. apply (map_fold_weak_ind (λ c m, adds_up c ∧ k_Total c = Z.of_nat (size m) ∧
    k_KEV c = Z.of_nat (size (dom m ∩ K)))).
  - split; [apply adds_up_none|]. rewrite map_size_empty, dom_empty_L.
    split; [done|]. by rewrite (left_absorb_L ∅ (∩)).
  - intros i x m' c Hi (Ha & Ht & Hk). split; [by apply adds_up_AddGrade|].
    rewrite map_size_insert_None, dom_insert_L by done.
    pose proof (Hg i x) as Hgx. destruct (g i x) as [sv fx kv]. simpl in Hgx. subst kv.
    rewrite AddGrade_Plus. unfold Plus, account. simpl. apply not_elem_of_dom in Hi.
    rewrite Ht, Hk. case_bool_decide as HiK.
    + replace (({[i]} ∪ dom m') ∩ K) with ({[i]} ∪ dom m' ∩ K) by set_solver.
      rewrite size_add by set_solver. destruct fx; simpl; lia.
    + replace (({[i]} ∪ dom m') ∩ K) with (dom m' ∩ K) by set_solver. destruct fx; simpl; lia.
Qed.

(** The statuses a scanner reports. *)
Definition known_status (r : Report) : Prop := ∀ s, r_Status r ≠ StatusOther s.

Lemma coverage_counts reports :
  Forall known_status reports →
  let c := foldl (λ c r, cover r c) (ta_Coverage no_tally) reports in
  cv_Artifacts c = Z.of_nat (length reports) ∧
  cv_Scanned c = Z.of_nat (length (filter (λ r, r_Status r = StatusScanned) reports)) ∧
  cv_Artifacts c = cv_Scanned c + cv_NotScanned c + cv_Unsupported c + cv_Unavailable c
                   + cv_Disabled c + cv_Missing c.
Proof.
  cbv zeta. induction reports as [|r reports IH] using rev_ind; [done|].
  intros [Hl Hr]%Forall_app. apply Forall_cons in Hr as [Hr _]. specialize (IH Hl).
  rewrite foldl_app, filter_app, filter_cons, filter_nil, !length_app. cbn [foldl length].
  generalize dependent (foldl (λ c r, cover r c) (ta_Coverage no_tally) reports).
  intros c (Ha & Hs & Ht). unfold cover. specialize (Hr : ∀ s, r_Status r ≠ StatusOther s).
  destruct (r_Status r) eqn:E; [..|by specialize (Hr spelling)]; try destruct (r_Missing r);
    simpl; lia.
Qed.

Lemma sum_of_reports l :
  Forall (λ r, r_Counts r = count_findings (r_Findings r)) l →
  sum_accounts (r_Counts <$> l) = count_findings (l ≫= r_Findings).
Proof.
  induction 1 as [|r l Hr _ IH]; [done|]. rewrite bind_cons, count_findings_app, <-IH, <-Hr. done.
Qed.

(** The numbers of a release's posture agree with each other.  The count is
    the account of every finding of every scanned report; the distinct problems,
    advisories and exploited advisories it quotes are the distinct keys and
    identifiers of those findings, graded once each; no distinct number exceeds
    the count; and every artifact is in exactly one bucket of the coverage. *)
Theorem posture_numbers_agree reports :
  Forall (λ r, r_Counts r = count_findings (r_Findings r)) reports →
  Forall known_status reports →
  let fs := scanned_findings reports in
  let ids := Identifier <$> filter named fs in
  let p := Summarize reports in
  po_Counts p = count_findings fs ∧
  (adds_up (po_UniqueCounts p) ∧ k_Total (po_UniqueCounts p) = distinct_count (Key <$> fs)) ∧
  (adds_up (po_UniqueCVECounts p) ∧ k_Total (po_UniqueCVECounts p) = distinct_count ids ∧
   po_UniqueCVEs p = distinct_count ids) ∧
  (po_KEVs p = distinct_count (Identifier <$> filter (λ f, named f ∧ f_KEV f = true) fs) ∧
   k_KEV (po_UniqueCVECounts p) = po_KEVs p ∧ po_KEVFixable p ≤ po_KEVs p ≤ po_UniqueCVEs p) ∧
  po_UniqueCVEs p ≤ k_Total (po_Counts p) ∧ k_Total (po_UniqueCounts p) ≤ k_Total (po_Counts p) ∧
  let c := po_Coverage p in
  cv_Artifacts c = Z.of_nat (length reports) ∧
  cv_Artifacts c = cv_Scanned c + cv_NotScanned c + cv_Unsupported c + cv_Unavailable c
                   + cv_Disabled c + cv_Missing c.
Proof.
  intros Hcounts Hknown fs ids p. unfold p, Summarize.
  destruct (tally_reports_spec reports) as (Hcov & Hc & [Hk Hids Hg Hv _ _]).
  set (t := foldl tally_report no_tally reports) in *. fold fs in Hk, Hids, Hv.
  pose proof (fold_grades ∅ (λ k s, mkGrade s (bool_decide (k ∈ ta_uniqueFixable t)) false)
    (ta_unique t) (λ k s, eq_sym (bool_decide_false (k ∈ ∅) (not_elem_of_empty k)))) as (Hu1 & Hu2 & _).
  pose proof (fold_grades (ta_cveKEV t) (λ id s, mkGrade s (bool_decide (id ∈ ta_cveFixable t))
    (bool_decide (id ∈ ta_cveKEV t))) (ta_cveSeverity t) (λ k s, eq_refl)) as (Hc1 & Hc2 & Hc3).
  cbn [po_Counts po_UniqueCounts po_UniqueCVEs po_UniqueCVECounts po_KEVs po_KEVFixable po_Coverage].
  unfold AddCount in *. set (u := map_fold _ no_counts (ta_unique t)) in *.
  set (cv := map_fold _ no_counts (ta_cveSeverity t)) in *.
  assert (∀ k, k ∈ ids ↔ ∃ f, f ∈ fs ∧ named f ∧ Identifier f = k) as Hin.
  { intros k. unfold ids. rewrite list_elem_of_fmap. setoid_rewrite list_elem_of_filter. naive_solver. }
  assert (Z.of_nat (size (ta_cves t)) = distinct_count ids) as Ncves.
  { apply distinct_count_set. intros k. by rewrite Hids, Hin. }
  assert (ta_cveKEV t ⊆ dom (ta_cveSeverity t)) as Hsub.
  { intros k (f & Hf & Hn & _ & <-)%Hv. apply elem_of_dom, Hg, Hids. eauto. }
  assert (dom (ta_cveSeverity t) = ta_cves t) as Hdom.
  { apply set_eq. intros k. by rewrite elem_of_dom, Hg. }
  assert (po_Counts p = count_findings fs) as Ncounts.
  { unfold p, Summarize. cbn [po_Counts]. fold t. rewrite Hc. apply sum_of_reports.
    rewrite Forall_forall in Hcounts |- *. intros r [_ Hr]%list_elem_of_filter. by apply Hcounts. }
  split; [exact Ncounts|]. split.
  { split; [done|]. rewrite Hu2, <-size_dom. apply distinct_count_set. intros k.
    by rewrite elem_of_dom, Hk. }
  split; [split; [done|]; rewrite Hc2, <-size_dom, Hdom; done|]. split.
  { split; [|split].
    - apply distinct_count_set. intros k. rewrite Hv, list_elem_of_fmap.
      setoid_rewrite list_elem_of_filter. naive_solver.
    - rewrite Hc3. do 2 f_equal. set_solver.
    - pose proof (exploited_fixable _ Hc1) as [? _]. rewrite Hc3 in *.
      replace (dom (ta_cveSeverity t) ∩ ta_cveKEV t) with (ta_cveKEV t) in * by set_solver.
      split; [lia|]. rewrite <-Hdom. apply inj_le, subseteq_size, Hsub. }
  fold t. change (ta_Counts t) with (po_Counts p). rewrite Ncounts, count_findings_Total.
  split; [|split; [|rewrite Hcov; by destruct (coverage_counts reports Hknown) as (? & _ & ?)]].
  - rewrite Ncves. etrans; [apply distinct_count_le|]. unfold ids. rewrite length_fmap.
    apply inj_le, length_filter.
  - rewrite Hu2, <-size_dom. rewrite (distinct_count_set (Key <$> fs)).
    + etrans; [apply distinct_count_le|]. by rewrite length_fmap.
    + intros k. by rewrite elem_of_dom, Hk.
Qed.

(* -------------------------------------------------------------------- *)
(** ** Examples *)

Definition openssl (version : string) : Component :=
  mkComponent "deb://openssl" "openssl" version "deb" "".

Definition found (cve : string) (c : Component) (s : Severity) (fixes : list string) (summary provider : string)
    : Finding :=
  mkFinding cve "" s summary "" c fixes (negb (bool_decide (fixes = []))) 0 "" false "" None false [] []
    None provider "" [provider].

Definition xray_finding : Finding :=
  found "CVE-1" (openssl "1.1") SeverityMedium ["1.2"] "seen by xray" "jfrog-xray".

Definition anchore_finding : Finding :=
  found "CVE-1" (openssl "1.1") SeverityHigh ["1.3"] "seen by anchore" "anchore".

(** The prose and the order of the fixes are whichever scanner was read first. *)
Example first_scanner_is_quoted :
  f_Summary <$> MergeFindings [xray_finding; anchore_finding] = ["seen by xray"] ∧
  f_Summary <$> MergeFindings [anchore_finding; xray_finding] = ["seen by anchore"] ∧
  f_FixedIn <$> MergeFindings [xray_finding; anchore_finding] = [["1.2"; "1.3"]] ∧
  f_FixedIn <$> MergeFindings [anchore_finding; xray_finding] = [["1.3"; "1.2"]].
Proof. vm_compute. auto. Qed.

Lemma MergeFindings_exact_witness :
  merged [xray_finding; anchore_finding] (MergeFindings [xray_finding; anchore_finding]).
Proof. apply MergeFindings_exact. repeat constructor. Defined.

Lemma merge_order_does_not_matter_witness :
  count_findings (MergeFindings [xray_finding; anchore_finding]) =
  count_findings (MergeFindings [anchore_finding; xray_finding]).
Proof.
  apply (merge_order_does_not_matter [xray_finding; anchore_finding] [anchore_finding; xray_finding]).
  - repeat constructor.
  - apply Permutation_swap.
Defined.

Definition image (name digest : string) : ArtifactRef :=
  mkArtifactRef name "" digest "" "" "" "" 0 "".

Definition scanned (a : ArtifactRef) (provider : string) (l : list Finding) : Report :=
  mkReport a StatusScanned provider "" l (count_findings l) [] [] [] false None 1 false.

Definition unscanned (a : ArtifactRef) (provider : string) : Report :=
  mkReport a StatusNotScanned provider "" [] no_counts [] [] [] false None 1 false.

Definition two_scanners : list (list Report) :=
  [[scanned (image "main" "sha256:1") "jfrog-xray" [xray_finding]; unscanned (image "side" "sha256:2") "jfrog-xray"];
   [scanned (image "main" "sha256:1") "anchore" [anchore_finding]]].

Lemma MergeReports_exact_witness :
  Forall (λ r, reported r (group report_ref (report_ref r) (mjoin two_scanners)))
    (MergeReports two_scanners).
Proof.
  apply Forall_forall. apply MergeReports_exact; [repeat constructor|vm_compute; lia].
Defined.

Definition example_release : list Report :=
  [scanned (image "main" "sha256:1") "anchore" [anchore_finding]; unscanned (image "side" "sha256:2") "anchore"].

Lemma posture_numbers_agree_witness :
  po_UniqueCVEs (Summarize example_release) = 1 ∧
  po_Counts (Summarize example_release) = count_findings (scanned_findings example_release).
Proof.
  split; [vm_compute; reflexivity|]. apply posture_numbers_agree.
  - repeat constructor.
  - repeat constructor; intros s; discriminate.
Defined.
