(* ===== verification/ReleaseDiff.v ===== *)
(** * Is the new release better than the old one

    internal/security/compare.go: the alignment of two releases' artifacts, the
    fate of every finding, the severity-weighted score, the verdict and its
    words.  Where the code ranges over a map of findings the order is that of
    [map_to_list]; the changes are sorted afterwards. *)

From S2P Require Import Prelude GoStrings Findings.
Open Scope Z_scope.

Inductive Verdict := VerdictBetter | VerdictWorse | VerdictUnchanged | VerdictInconclusive.

#[export] Instance Verdict_eq_dec : EqDecision Verdict.
Proof. solve_decision. Defined.

Inductive ChangeType :=
  | ChangeIntroduced
  | ChangeResolved
  | ChangeUnchanged
  | ChangeSeverityIncreased
  | ChangeSeverityDecreased
  | ChangeRemediation
  | ChangeRemovedArtifact.

#[export] Instance ChangeType_eq_dec : EqDecision ChangeType.
Proof. solve_decision. Defined.

Inductive ArtifactChange := ArtifactCommon | ArtifactUpgraded | ArtifactAdded | ArtifactRemoved.

#[export] Instance ArtifactChange_eq_dec : EqDecision ArtifactChange.
Proof. solve_decision. Defined.

(** The zero severity of the grades only a re-grading sets. *)
Definition no_severity : Severity := SeverityOther "".

Record Change := mkChange {
  ch_Type : ChangeType;
  ch_CVE : string;
  ch_ID : string;
  ch_Severity : Severity;
  ch_FromSeverity : Severity;
  ch_ToSeverity : Severity;
  ch_Fixable : bool;
  ch_FixedIn : list string;
  ch_Summary : string;
  ch_Description : string;
  ch_Component : Component;
  ch_Artifact : ArtifactRef;
  ch_ArtifactChange : ArtifactChange;
  ch_ViaRemoval : bool;
  ch_KEV : bool;
  ch_Sources : list string;
  ch_Provider : string }.

#[export] Instance Change_eta : Eta Change := λ r,
  mkChange (ch_Type r) (ch_CVE r) (ch_ID r) (ch_Severity r) (ch_FromSeverity r) (ch_ToSeverity r)
    (ch_Fixable r) (ch_FixedIn r) (ch_Summary r) (ch_Description r) (ch_Component r) (ch_Artifact r)
    (ch_ArtifactChange r) (ch_ViaRemoval r) (ch_KEV r) (ch_Sources r) (ch_Provider r).

Definition newChange (t : ChangeType) (f : Finding) (artifact : ArtifactRef) (ac : ArtifactChange) : Change :=
  mkChange t (f_CVE f) (f_ID f) (f_Severity f) no_severity no_severity (f_Fixable f) (f_FixedIn f)
    (f_Summary f) (f_Description f) (f_Component f) artifact ac false (f_KEV f) (SourceSet f) (f_Provider f).

Record ArtifactDelta := mkArtifactDelta {
  ad_Key : string;
  ad_Change : ArtifactChange;
  ad_A : option ArtifactRef;
  ad_B : option ArtifactRef;
  ad_StatusA : Status;
  ad_StatusB : Status;
  ad_CountsA : Counts;
  ad_CountsB : Counts;
  ad_Introduced : Z;
  ad_Resolved : Z;
  ad_Unchanged : Z;
  ad_SeverityChanged : Z;
  ad_Comparable : bool }.

#[export] Instance ArtifactDelta_eta : Eta ArtifactDelta := λ r,
  mkArtifactDelta (ad_Key r) (ad_Change r) (ad_A r) (ad_B r) (ad_StatusA r) (ad_StatusB r)
    (ad_CountsA r) (ad_CountsB r) (ad_Introduced r) (ad_Resolved r) (ad_Unchanged r)
    (ad_SeverityChanged r) (ad_Comparable r).

Record ArtifactSummary := mkArtifactSummary {
  as_Common : Z;
  as_Upgraded : Z;
  as_Added : Z;
  as_Removed : Z;
  as_NotComparable : Z }.

#[export] Instance ArtifactSummary_eta : Eta ArtifactSummary := λ r,
  mkArtifactSummary (as_Common r) (as_Upgraded r) (as_Added r) (as_Removed r) (as_NotComparable r).

Record Comparison := mkComparison {
  cm_Verdict : Verdict;
  cm_Headline : string;
  cm_Explanation : string;
  cm_Caveats : list string;
  cm_Introduced : Counts;
  cm_Resolved : Counts;
  cm_Unchanged : Counts;
  cm_SeverityIncreased : Counts;
  cm_SeverityDecreased : Counts;
  cm_RemediationChanged : Counts;
  cm_RemovedArtifact : Counts;
  cm_NetScore : Z;
  cm_Changes : list Change;
  cm_Artifacts : list ArtifactDelta;
  cm_CoverageA : Coverage;
  cm_CoverageB : Coverage;
  cm_Summary : ArtifactSummary;
  cm_NameA : string;
  cm_NameB : string }.

#[export] Instance Comparison_eta : Eta Comparison := λ r,
  mkComparison (cm_Verdict r) (cm_Headline r) (cm_Explanation r) (cm_Caveats r) (cm_Introduced r)
    (cm_Resolved r) (cm_Unchanged r) (cm_SeverityIncreased r) (cm_SeverityDecreased r)
    (cm_RemediationChanged r) (cm_RemovedArtifact r) (cm_NetScore r) (cm_Changes r) (cm_Artifacts r)
    (cm_CoverageA r) (cm_CoverageB r) (cm_Summary r) (cm_NameA r) (cm_NameB r).

(** Records a change and folds it into the right total. *)
Definition append (ch : Change) (c : Comparison) : Comparison :=
  let c := c <| cm_Changes := cm_Changes c ++ [ch] |> in
  match ch_Type ch with
  | ChangeIntroduced => c <| cm_Introduced ::= AddCount (ch_Severity ch) (ch_Fixable ch) |>
  | ChangeResolved => c <| cm_Resolved ::= AddCount (ch_Severity ch) (ch_Fixable ch) |>
  | ChangeUnchanged => c <| cm_Unchanged ::= AddCount (ch_Severity ch) (ch_Fixable ch) |>
  | ChangeSeverityIncreased => c <| cm_SeverityIncreased ::= AddCount (ch_ToSeverity ch) (ch_Fixable ch) |>
  | ChangeSeverityDecreased => c <| cm_SeverityDecreased ::= AddCount (ch_ToSeverity ch) (ch_Fixable ch) |>
  | ChangeRemediation => c <| cm_RemediationChanged ::= AddCount (ch_Severity ch) (ch_Fixable ch) |>
  | ChangeRemovedArtifact => c <| cm_RemovedArtifact ::= AddCount (ch_Severity ch) (ch_Fixable ch) |>
  end.

(* -------------------------------------------------------------------- *)
(** ** Alignment *)

(** One artifact key's two sides. *)
Record pair := mkPair {
  pr_key : string;
  pr_change : ArtifactChange;
  pr_a : option Report;
  pr_b : option Report }.

Definition index_step (out : gmap string Report) (r : Report) : gmap string Report :=
  let k := ArtifactKey (r_Artifact r) in
  match out !! k with
  | None => <[k := r]> out
  | Some existing =>
      let existing := existing <| r_Findings := r_Findings existing ++ r_Findings r |> in
      let existing := if bool_decide (r_Status r = StatusScanned)
                      then existing <| r_Status := StatusScanned |> else existing in
      <[k := Recount existing]> out
  end.

Definition indexReports (reports : list Report) : gmap string Report := foldl index_step ∅ reports.

Definition sorted_keys (m : gmap string Report) : list string := sort_strings (map_to_list m).*1.

(** The first unused artifact, by key, with these bytes. *)
Fixpoint find_in (m : gmap string Report) (digest : string) (used : gset string) (keys : list string)
    : option (string * Report) :=
  match keys with
  | [] => None
  | k :: keys =>
      if bool_decide (k ∈ used) then find_in m digest used keys
      else match m !! k with
           | Some r => if String.eqb (ar_Digest (r_Artifact r)) digest then Some (k, r)
                       else find_in m digest used keys
           | None => find_in m digest used keys
           end
  end.

Definition findByDigest (m : gmap string Report) (digest : string) (used : gset string)
    : option (string * Report) :=
  if String.eqb digest "" then None else find_in m digest used (sorted_keys m).

Definition pair_step (a b : gmap string Report) (st : list pair * gset string) (k : string)
    : list pair * gset string :=
  let '(pairs, usedB) := st in
  match a !! k with
  | None => st
  | Some ra =>
      match b !! k with
      | Some rb =>
          let change := if String.eqb (Ref (r_Artifact ra)) (Ref (r_Artifact rb))
                        then ArtifactCommon else ArtifactUpgraded in
          (pairs ++ [mkPair k change (Some ra) (Some rb)], {[ k ]} ∪ usedB)
      | None =>
          match findByDigest b (ar_Digest (r_Artifact ra)) usedB with
          | Some (key, rb) => (pairs ++ [mkPair k ArtifactCommon (Some ra) (Some rb)], {[ key ]} ∪ usedB)
          | None => (pairs ++ [mkPair k ArtifactRemoved (Some ra) None], usedB)
          end
      end
  end.

Definition pairArtifacts (a b : gmap string Report) : list pair :=
  let '(pairs, usedB) := foldl (pair_step a b) ([], ∅) (sorted_keys a) in
  pairs ++ ((λ k, mkPair k ArtifactAdded None (b !! k)) <$>
              filter (λ k, k ∉ usedB) (sorted_keys b)).

Definition adoptFindings (onto from : Report) : Report :=
  onto <| r_Status := r_Status from |>
       <| r_Findings := r_Findings from |>
       <| r_Malware := r_Malware from |>
       <| r_Counts := r_Counts from |>
       <| r_ScannedAt := r_ScannedAt from |>
       <| r_RetrievedAt := r_RetrievedAt from |>
       <| r_Provider := r_Provider from |>
       <| r_Message := "Identical bytes to the other release's copy, so its scan result is used for both." |>.

Definition is_scanned (r : Report) : bool := bool_decide (r_Status r = StatusScanned).

Definition digest_of (r : Report) : string := TrimSpace (fold_string (ar_Digest (r_Artifact r))).

Definition shareDigestResult (p : pair) : pair :=
  match pr_a p, pr_b p with
  | Some a, Some b =>
      if String.eqb (digest_of a) "" || negb (String.eqb (digest_of a) (digest_of b)) then p
      else if is_scanned a && negb (is_scanned b)
      then mkPair (pr_key p) (pr_change p) (Some a) (Some (adoptFindings b a))
      else if is_scanned b && negb (is_scanned a)
      then mkPair (pr_key p) (pr_change p) (Some (adoptFindings a b)) (Some b)
      else p
  | _, _ => p
  end.

(** Whether a pair that could not be compared is a missing answer. *)
Definition fixableGap (p : pair) : bool :=
  let scannable (r : Report) := negb (bool_decide (r_Status r ∈ [StatusUnsupported; StatusDisabled])) in
  match pr_a p, pr_b p with
  | Some a, Some b => scannable a && scannable b && (negb (is_scanned a) || negb (is_scanned b))
  | _, _ => false
  end.

(* -------------------------------------------------------------------- *)
(** ** The fate of a finding *)

(** The worst finding of each key. *)
Definition worst_of (old : gmap string Finding) (f : Finding) : gmap string Finding :=
  match old !! Key f with
  | Some prev => if Rank (f_Severity prev) <? Rank (f_Severity f) then <[Key f := f]> old else old
  | None => <[Key f := f]> old
  end.

Definition regraded (t : ChangeType) (prev f : Finding) (artifact : ArtifactRef) (ac : ArtifactChange) : Change :=
  (newChange t f artifact ac) <| ch_FromSeverity := f_Severity prev |> <| ch_ToSeverity := f_Severity f |>.

(** A finding of the new artifact, given the old one's of the same key. *)
Definition classify_new (prev : option Finding) (artifact : ArtifactRef) (ac : ArtifactChange) (f : Finding)
    (st : Comparison * ArtifactDelta) : Comparison * ArtifactDelta :=
  let '(cmp, delta) := st in
  match prev with
  | None => (append (newChange ChangeIntroduced f artifact ac) cmp, delta <| ad_Introduced ::= Z.add 1 |>)
  | Some prev =>
      if Rank (f_Severity prev) <? Rank (f_Severity f) then
        (append (regraded ChangeSeverityIncreased prev f artifact ac) cmp, delta <| ad_SeverityChanged ::= Z.add 1 |>)
      else if Rank (f_Severity f) <? Rank (f_Severity prev) then
        (append (regraded ChangeSeverityDecreased prev f artifact ac) cmp, delta <| ad_SeverityChanged ::= Z.add 1 |>)
      else if negb (Bool.eqb (f_Fixable f) (f_Fixable prev)) then
        (append (newChange ChangeRemediation f artifact ac) cmp, delta <| ad_Unchanged ::= Z.add 1 |>)
      else (append (newChange ChangeUnchanged f artifact ac) cmp, delta <| ad_Unchanged ::= Z.add 1 |>)
  end.

Definition classify_step (old : gmap string Finding) (artifact : ArtifactRef) (ac : ArtifactChange)
    (st : (Comparison * ArtifactDelta) * gset string) (f : Finding)
    : (Comparison * ArtifactDelta) * gset string :=
  let '(st, seen) := st in
  if bool_decide (Key f ∈ seen) then (st, seen)
  else (classify_new (old !! Key f) artifact ac f st, {[ Key f ]} ∪ seen).

Definition classifyPair (change : ArtifactChange) (a b : Report) (st : Comparison * ArtifactDelta)
    : Comparison * ArtifactDelta :=
  let old := foldl worst_of ∅ (r_Findings a) in
  let '(st, seen) := foldl (classify_step old (r_Artifact b) change) (st, ∅) (r_Findings b) in
  foldl (λ st kf, if bool_decide (kf.1 ∈ seen) then st
                  else (append (newChange ChangeResolved kf.2 (r_Artifact a) change) st.1,
                        st.2 <| ad_Resolved ::= Z.add 1 |>))
    st (map_to_list old).

(** A finding of an artifact the new release does not ship: moved, gone, or
    gone as far as anybody looked. *)
Definition classify_removed (presentInB : gset string) (removalConclusive : bool) (a : Report)
    (st : Comparison * ArtifactDelta) (f : Finding) : Comparison * ArtifactDelta :=
  let '(cmp, delta) := st in
  if bool_decide (Key f ∈ presentInB) then
    (append (newChange ChangeUnchanged f (r_Artifact a) ArtifactRemoved) cmp, delta <| ad_Unchanged ::= Z.add 1 |>)
  else if removalConclusive then
    (append ((newChange ChangeResolved f (r_Artifact a) ArtifactRemoved) <| ch_ViaRemoval := true |>) cmp,
     delta <| ad_Resolved ::= Z.add 1 |>)
  else (append (newChange ChangeRemovedArtifact f (r_Artifact a) ArtifactRemoved) cmp, delta).

Definition new_delta (p : pair) : ArtifactDelta :=
  mkArtifactDelta (pr_key p) (pr_change p) (r_Artifact <$> pr_a p) (r_Artifact <$> pr_b p)
    (match pr_a p with Some a => r_Status a | None => StatusOther "" end)
    (match pr_b p with Some b => r_Status b | None => StatusOther "" end)
    (match pr_a p with Some a => r_Counts a | None => no_counts end)
    (match pr_b p with Some b => r_Counts b | None => no_counts end) 0 0 0 0 false.

(** The switch over what happened to the artifact. *)
Definition classify_artifact (presentInB : gset string) (removalConclusive : bool) (p : pair)
    (st : Comparison * ArtifactDelta) : Comparison * ArtifactDelta :=
  let comparable (st : Comparison * ArtifactDelta) := (st.1, st.2 <| ad_Comparable := true |>) in
  match pr_change p, pr_a p, pr_b p with
  | ArtifactAdded, _, Some b =>
      if is_scanned b then
        foldl (λ st f, (append (newChange ChangeIntroduced f (r_Artifact b) ArtifactAdded) st.1,
                        st.2 <| ad_Introduced ::= Z.add 1 |>)) (comparable st) (r_Findings b)
      else st
  | ArtifactRemoved, Some a, _ =>
      if is_scanned a
      then foldl (classify_removed presentInB removalConclusive a) (comparable st) (r_Findings a)
      else st
  | ArtifactCommon, Some a, Some b | ArtifactUpgraded, Some a, Some b =>
      if is_scanned a && is_scanned b then classifyPair (pr_change p) a b (comparable st) else st
  | _, _, _ => st
  end.

Definition summarize_pair (p : pair) (delta : ArtifactDelta) (s : ArtifactSummary) : ArtifactSummary :=
  let s := if negb (ad_Comparable delta) && bool_decide (pr_change p ∈ [ArtifactCommon; ArtifactUpgraded])
              && fixableGap p
           then s <| as_NotComparable ::= Z.add 1 |> else s in
  match pr_change p with
  | ArtifactCommon => s <| as_Common ::= Z.add 1 |>
  | ArtifactUpgraded => s <| as_Upgraded ::= Z.add 1 |>
  | ArtifactAdded => s <| as_Added ::= Z.add 1 |>
  | ArtifactRemoved => s <| as_Removed ::= Z.add 1 |>
  end.

Definition compare_pair (presentInB : gset string) (removalConclusive : bool) (cmp : Comparison) (p : pair)
    : Comparison :=
  let '(cmp, delta) := classify_artifact presentInB removalConclusive p (cmp, new_delta p) in
  cmp <| cm_Summary ::= summarize_pair p delta |> <| cm_Artifacts := cm_Artifacts cmp ++ [delta] |>.

(** Every key B holds on a scanned artifact. *)
Definition present_in (pairs : list pair) : gset string :=
  list_to_set (Key <$> (pairs ≫= λ p, match pr_b p with
                                     | Some b => if is_scanned b then r_Findings b else []
                                     | None => []
                                     end)).

(* -------------------------------------------------------------------- *)
(** ** The score and the verdict *)

Definition is_regrading (t : ChangeType) : bool :=
  bool_decide (t ∈ [ChangeSeverityIncreased; ChangeSeverityDecreased]).

Definition netScore (c : Comparison) : Z :=
  foldl (λ score ch, if is_regrading (ch_Type ch)
                     then score + (Weight (ch_ToSeverity ch) - Weight (ch_FromSeverity ch)) else score)
    (SeverityWeight (k_BySeverity (cm_Introduced c)) - SeverityWeight (k_BySeverity (cm_Resolved c)))
    (cm_Changes c).

Definition displayName (name fallback : string) : string :=
  if String.eqb (TrimSpace name) "" then fallback else name.

Definition countNoun (n : Z) (singular plural : string) : string :=
  if n =? 1 then words ["1 "; singular] else words [pretty n; " "; plural].

Definition coverageCaveat (who : string) (a b : Coverage) : string :=
  if (0 <? cv_Disabled a) || (0 <? cv_Disabled b)
  then words [who; " has security scanning enabled, so there is nothing to compare."]
  else words [who; " has been scanned, so there is nothing to compare."].

(** The artifacts of one side without a result. *)
Definition unanswered (c : Coverage) : Z := cv_NotScanned c + cv_Unavailable c + cv_Disabled c.

Definition unanswered_caveat (c : Coverage) (name : string) : list string :=
  if 0 <? unanswered c
  then [words [pretty (unanswered c); " of "; pretty (Scannable c); " artifacts in "; name; " have no scan result."]]
  else [].

Definition caveats_of (c : Comparison) (a b : Coverage) : list string :=
  unanswered_caveat a (displayName (cm_NameA c) "the base release") ++
  unanswered_caveat b (displayName (cm_NameB c) "the new release") ++
  (let n := as_NotComparable (cm_Summary c) in
   if 0 <? n then
     [words [countNoun n "image" "images"; " in both releases "; (if n =? 1 then "has" else "have");
             " no scan result yet, so "; (if n =? 1 then "it is" else "they are");
             " left out of the comparison. Syncing the release that is missing them brings ";
             (if n =? 1 then "it" else "them"); " in."]]
   else []) ++
  (if negb (k_Total (cm_RemovedArtifact c) =? 0) then
     [words [pretty (k_Total (cm_RemovedArtifact c));
             " findings belong to artifacts that are no longer present in this release. They are listed separately rather than counted as resolved, because the scan data does not confirm the removal as an improvement."]]
   else []) ++
  (if 0 <? n_Unknown (k_BySeverity (cm_Introduced c)) + n_Unknown (k_BySeverity (cm_Resolved c))
   then ["Some findings carry no severity grade and do not affect the verdict."] else []).

Definition decide_verdict (c : Comparison) (a b : Coverage) : Verdict * list string :=
  if negb (Any a) && negb (Any b) then (VerdictInconclusive, [coverageCaveat "Neither release" a b])
  else if negb (Any a) then
    (VerdictInconclusive, [words ["There are no scan results for "; displayName (cm_NameA c) "the base release";
                                  ", so there is nothing to compare against."]])
  else if negb (Any b) then
    (VerdictInconclusive, [words ["There are no scan results for "; displayName (cm_NameB c) "the new release";
                                  ", so its security cannot be judged."]])
  else
    let complete := Complete a && Complete b && (as_NotComparable (cm_Summary c) =? 0) in
    let verdict := if cm_NetScore c <? 0 then VerdictBetter
                   else if 0 <? cm_NetScore c then VerdictWorse
                   else if negb complete then VerdictInconclusive
                   else VerdictUnchanged in
    (verdict, caveats_of c a b).

(* -------------------------------------------------------------------- *)
(** ** The words *)

Definition SameArtifacts (c : Comparison) : bool :=
  let s := cm_Summary c in
  (0 <? as_Common s) && (as_Upgraded s =? 0) && (as_Added s =? 0) && (as_Removed s =? 0) &&
  (as_NotComparable s =? 0).

(** strings.ToLower(s.Label()) *)
Definition severity_label (s : Severity) : string :=
  match s with
  | SeverityCritical => "critical"
  | SeverityHigh => "high"
  | SeverityMedium => "medium"
  | SeverityLow => "low"
  | _ => "unknown"
  end.

Definition joinClauses (parts : list string) : string :=
  match parts with
  | [] => ""
  | [a] => a
  | [a; b] => words [a; " and "; b]
  | _ => words [String.concat ", " (removelast parts); " and "; List.last parts ""]
  end.

Definition phrase (counts : SeverityCounts) (singular plural : string) : string :=
  let parts := omap (λ s, let n := Get counts s in
                          if n =? 0 then None else Some (words [pretty n; " "; severity_label s])) Severities in
  if bool_decide (parts = []) then words ["no "; plural]
  else words [joinClauses parts; " "; if SeverityTotal counts =? 1 then singular else plural].

Definition firstCaveat (c : Comparison) : string :=
  match cm_Caveats c with
  | first :: _ => first
  | [] => "The available scan data is not enough to compare the two releases."
  end.

Definition headline_of (c : Comparison) : string :=
  let newName := displayName (cm_NameB c) "The new release" in
  let oldName := displayName (cm_NameA c) "the previous release" in
  match cm_Verdict c with
  | VerdictBetter => words [newName; " is better than "; oldName; "."]
  | VerdictWorse => words [newName; " is worse than "; oldName; "."]
  | VerdictUnchanged =>
      if SameArtifacts c then words [newName; " and "; oldName; " are identical."]
      else words [newName; " is unchanged from "; oldName; "."]
  | VerdictInconclusive =>
      words ["Whether "; newName; " is better or worse than "; oldName; " cannot be determined."]
  end.

Definition clauses_of (c : Comparison) : list string :=
  (if negb (k_Total (cm_Resolved c) =? 0)
   then [words ["resolves "; phrase (k_BySeverity (cm_Resolved c)) "vulnerability" "vulnerabilities"]] else []) ++
  (if negb (k_Total (cm_Introduced c) =? 0)
   then [words ["introduces "; phrase (k_BySeverity (cm_Introduced c)) "vulnerability" "vulnerabilities"]] else []) ++
  (if 0 <? k_Total (cm_SeverityIncreased c)
   then [words ["has "; countNoun (k_Total (cm_SeverityIncreased c)) "vulnerability" "vulnerabilities";
                " that became more severe"]] else []) ++
  (if 0 <? k_Total (cm_SeverityDecreased c)
   then [words ["has "; countNoun (k_Total (cm_SeverityDecreased c)) "vulnerability" "vulnerabilities";
                " that became less severe"]] else []).

Definition explain (c : Comparison) : string * string :=
  let headline := headline_of c in
  let clauses := clauses_of c in
  let unchanged := countNoun (k_Total (cm_Unchanged c)) "vulnerability" "vulnerabilities" in
  let explanation :=
    if bool_decide (clauses = []) then
      if bool_decide (cm_Verdict c = VerdictInconclusive) then words [headline; " "; firstCaveat c]
      else if SameArtifacts c then
        words [headline; " They contain the same "; countNoun (as_Common (cm_Summary c)) "image" "images";
               ", and the same "; unchanged; " in them."]
      else words [headline; " No vulnerabilities were resolved or introduced, and "; unchanged; " remain in both."]
    else words [headline; " It "; joinClauses clauses; "."] in
  (headline,
   if (0 <? k_Total (cm_Unchanged c)) && negb (bool_decide (clauses = []))
   then words [explanation; " "; unchanged; " carry over unchanged."] else explanation).

(* -------------------------------------------------------------------- *)
(** ** The whole comparison *)

Definition type_order (t : ChangeType) : Z :=
  match t with
  | ChangeSeverityIncreased => 0
  | ChangeIntroduced => 1
  | ChangeRemovedArtifact => 2
  | ChangeResolved => 3
  | ChangeSeverityDecreased => 4
  | ChangeRemediation => 5
  | ChangeUnchanged => 6
  end.

Definition change_less (a b : Change) : bool :=
  if negb (type_order (ch_Type a) =? type_order (ch_Type b))
  then type_order (ch_Type a) <? type_order (ch_Type b)
  else if negb (Bool.eqb (ch_KEV a) (ch_KEV b)) then ch_KEV a
  else if negb (Rank (ch_Severity a) =? Rank (ch_Severity b)) then Rank (ch_Severity b) <? Rank (ch_Severity a)
  else if negb (String.eqb (ch_CVE a) (ch_CVE b)) then String.ltb (ch_CVE a) (ch_CVE b)
  else if negb (String.eqb (ComponentKey (ch_Component a)) (ComponentKey (ch_Component b)))
  then String.ltb (ComponentKey (ch_Component a)) (ComponentKey (ch_Component b))
  else String.ltb (ArtifactKey (ch_Artifact a)) (ArtifactKey (ch_Artifact b)).

Definition sortChanges (l : list Change) : list Change := slice_stable change_less l.

Definition delta_less (a b : ArtifactDelta) : bool := String.ltb (ad_Key a) (ad_Key b).

Definition new_comparison (coverageA coverageB : Coverage) (nameA nameB : string) : Comparison :=
  mkComparison VerdictInconclusive "" "" [] no_counts no_counts no_counts no_counts no_counts no_counts
    no_counts 0 [] [] coverageA coverageB (mkArtifactSummary 0 0 0 0 0) nameA nameB.

(** The pairs with their results shared, classified in order. *)
Definition classify (A B : list Report) (nameA nameB : string) : Comparison :=
  let coverageA := po_Coverage (Summarize A) in
  let coverageB := po_Coverage (Summarize B) in
  let pairs := shareDigestResult <$> pairArtifacts (indexReports A) (indexReports B) in
  foldl (compare_pair (present_in pairs) (Complete coverageB && Any coverageA))
    (new_comparison coverageA coverageB nameA nameB) pairs.

Definition Compare (A B : list Report) (nameA nameB : string) : Comparison :=
  let cmp := classify A B nameA nameB in
  let cmp := cmp <| cm_Changes ::= sortChanges |> <| cm_Artifacts ::= slice_stable delta_less |> in
  let cmp := cmp <| cm_NetScore := netScore cmp |> in
  let '(verdict, caveats) := decide_verdict cmp (cm_CoverageA cmp) (cm_CoverageB cmp) in
  let cmp := cmp <| cm_Verdict := verdict |> <| cm_Caveats := caveats |> in
  let '(headline, explanation) := explain cmp in
  cmp <| cm_Headline := headline |> <| cm_Explanation := explanation |>.

(* -------------------------------------------------------------------- *)
(** ** What a comparison is made of *)

Definition append_all (l : list Change) (c : Comparison) : Comparison :=
  foldl (λ c ch, append ch c) c l.

Definition total_of (t : ChangeType) (c : Comparison) : Counts :=
  match t with
  | ChangeIntroduced => cm_Introduced c
  | ChangeResolved => cm_Resolved c
  | ChangeUnchanged => cm_Unchanged c
  | ChangeSeverityIncreased => cm_SeverityIncreased c
  | ChangeSeverityDecreased => cm_SeverityDecreased c
  | ChangeRemediation => cm_RemediationChanged c
  | ChangeRemovedArtifact => cm_RemovedArtifact c
  end.

(** The grade a change is counted at. *)
Definition graded (ch : Change) : Severity :=
  if is_regrading (ch_Type ch) then ch_ToSeverity ch else ch_Severity ch.

Definition change_account (ch : Change) : Counts := account (mkGrade (graded ch) (ch_Fixable ch) false).

Definition of_type (t : ChangeType) (l : list Change) : list Change := filter (λ ch, ch_Type ch = t) l.

(** What a list of changes comes to, by type. *)
Definition account_of (t : ChangeType) (l : list Change) : Counts :=
  sum_accounts (change_account <$> of_type t l).

(** What a change adds to the score. *)
Definition score_of (ch : Change) : Z :=
  match ch_Type ch with
  | ChangeIntroduced => Weight (ch_Severity ch)
  | ChangeResolved => - Weight (ch_Severity ch)
  | ChangeSeverityIncreased | ChangeSeverityDecreased => Weight (ch_ToSeverity ch) - Weight (ch_FromSeverity ch)
  | _ => 0
  end.

Definition score (l : list Change) : Z := foldr (λ ch s, score_of ch + s) 0 l.

#[export] Instance score_Permutation : Proper ((≡ₚ) ==> (=)) score.
Proof. intros l k Hp. unfold score. induction Hp; simpl; lia. Qed.

Lemma score_app l k : score (l ++ k) = score l + score k.
Proof. unfold score. induction l as [|ch l IH]; simpl; lia. Qed.

#[export] Instance of_type_Permutation t : Proper ((≡ₚ) ==> (≡ₚ)) (of_type t).
Proof. intros l k Hp. unfold of_type. by rewrite Hp. Qed.

#[export] Instance account_of_Permutation t : Proper ((≡ₚ) ==> (=)) (account_of t).
Proof. intros l k Hp. unfold account_of. by rewrite Hp. Qed.

Lemma append_Changes ch c : cm_Changes (append ch c) = cm_Changes c ++ [ch].
Proof. unfold append. by destruct (ch_Type ch). Qed.

Lemma append_total t ch c :
  total_of t (append ch c) =
    if decide (ch_Type ch = t) then Plus (total_of t c) (change_account ch) else total_of t c.
Proof.
  unfold append, change_account, graded, is_regrading, AddCount.
  destruct (ch_Type ch) eqn:E; destruct t; simpl; try done; by rewrite <-AddGrade_Plus.
Qed.

(** The fields no change touches. *)
Lemma append_frame ch c :
  cm_Summary (append ch c) = cm_Summary c ∧ cm_Artifacts (append ch c) = cm_Artifacts c ∧
  cm_CoverageA (append ch c) = cm_CoverageA c ∧ cm_CoverageB (append ch c) = cm_CoverageB c ∧
  cm_NameA (append ch c) = cm_NameA c ∧ cm_NameB (append ch c) = cm_NameB c.
Proof. unfold append. by destruct (ch_Type ch). Qed.

Definition tallies (c : Comparison) : Prop := ∀ t, total_of t c = account_of t (cm_Changes c).

Lemma tallies_append ch c : tallies c → tallies (append ch c).
Proof.
  intros Hc t. rewrite append_total, append_Changes. unfold account_of, of_type.
  rewrite filter_app, filter_cons, filter_nil. case_decide as Ht.
  - rewrite fmap_app, Hc. unfold account_of, of_type.
    generalize (change_account <$> filter (λ ch, ch_Type ch = t) (cm_Changes c)). simpl.
    intros l. induction l as [|x l IH]; simpl; [by rewrite Plus_none, (comm_L Plus), Plus_none|].
    by rewrite <-(assoc_L Plus), IH.
  - by rewrite app_nil_r, Hc.
Qed.

Lemma append_all_spec l c :
  cm_Changes (append_all l c) = cm_Changes c ++ l ∧ (tallies c → tallies (append_all l c)) ∧
  cm_Summary (append_all l c) = cm_Summary c ∧ cm_Artifacts (append_all l c) = cm_Artifacts c ∧
  cm_CoverageA (append_all l c) = cm_CoverageA c ∧ cm_CoverageB (append_all l c) = cm_CoverageB c.
Proof.
  revert c. induction l as [|ch l IH]; intros c; [by rewrite app_nil_r|]. simpl.
  destruct (IH (append ch c)) as (-> & Ht & -> & -> & -> & ->).
  destruct (append_frame ch c) as (-> & -> & -> & -> & _). rewrite append_Changes, <-(assoc_L (++)).
  split; [done|]. split; [|done]. intros Hc. by apply Ht, tallies_append.
Qed.

Lemma append_all_app l k c : append_all (l ++ k) c = append_all k (append_all l c).
Proof. apply foldl_app. Qed.

(* -------------------------------------------------------------------- *)
(** ** The fates, as a list *)

Definition fate (prev : option Finding) (artifact : ArtifactRef) (ac : ArtifactChange) (f : Finding) : Change :=
  match prev with
  | None => newChange ChangeIntroduced f artifact ac
  | Some prev =>
      if Rank (f_Severity prev) <? Rank (f_Severity f) then regraded ChangeSeverityIncreased prev f artifact ac
      else if Rank (f_Severity f) <? Rank (f_Severity prev) then regraded ChangeSeverityDecreased prev f artifact ac
      else if negb (Bool.eqb (f_Fixable f) (f_Fixable prev)) then newChange ChangeRemediation f artifact ac
      else newChange ChangeUnchanged f artifact ac
  end.

Definition worst_findings (l : list Finding) : gmap string Finding := foldl worst_of ∅ l.

(** One change for each key of either side. *)
Definition fates (ac : ArtifactChange) (a b : Report) : list Change :=
  let old := worst_findings (r_Findings a) in
  ((λ f, fate (old !! Key f) (r_Artifact b) ac f) <$> firsts Key ∅ (r_Findings b)) ++
  ((λ kf, newChange ChangeResolved kf.2 (r_Artifact a) ac) <$>
     filter (λ kf, kf.1 ∉ (list_to_set (Key <$> r_Findings b) : gset string)) (map_to_list old)).

Definition removed_fate (presentInB : gset string) (removalConclusive : bool) (a : Report) (f : Finding) : Change :=
  if bool_decide (Key f ∈ presentInB) then newChange ChangeUnchanged f (r_Artifact a) ArtifactRemoved
  else if removalConclusive
  then (newChange ChangeResolved f (r_Artifact a) ArtifactRemoved) <| ch_ViaRemoval := true |>
  else newChange ChangeRemovedArtifact f (r_Artifact a) ArtifactRemoved.

Definition pair_changes (presentInB : gset string) (removalConclusive : bool) (p : pair) : list Change :=
  match pr_change p, pr_a p, pr_b p with
  | ArtifactAdded, _, Some b =>
      if is_scanned b then (λ f, newChange ChangeIntroduced f (r_Artifact b) ArtifactAdded) <$> r_Findings b else []
  | ArtifactRemoved, Some a, _ =>
      if is_scanned a then removed_fate presentInB removalConclusive a <$> r_Findings a else []
  | ArtifactCommon, Some a, Some b | ArtifactUpgraded, Some a, Some b =>
      if is_scanned a && is_scanned b then fates (pr_change p) a b else []
  | _, _, _ => []
  end.

(** The row a list of changes leaves in an artifact's arithmetic. *)
Definition count_type (t : ChangeType) (l : list Change) : Z := Z.of_nat (length (of_type t l)).

Definition counted (d : ArtifactDelta) (l : list Change) : Prop :=
  ad_Introduced d = count_type ChangeIntroduced l ∧ ad_Resolved d = count_type ChangeResolved l ∧
  ad_Unchanged d = count_type ChangeUnchanged l + count_type ChangeRemediation l ∧
  ad_SeverityChanged d = count_type ChangeSeverityIncreased l + count_type ChangeSeverityDecreased l.

Lemma count_type_snoc t l ch :
  count_type t (l ++ [ch]) = count_type t l + if decide (ch_Type ch = t) then 1 else 0.
Proof.
  unfold count_type, of_type. rewrite filter_app, filter_cons, filter_nil, length_app.
  case_decide; simpl; lia.
Qed.

(** A step of a classification: one change, counted. *)
Definition steps (st st' : Comparison * ArtifactDelta) (l0 l : list Change) : Prop :=
  st'.1 = append_all l st.1 ∧ (counted st.2 l0 → counted st'.2 (l0 ++ l)) ∧
  ad_Comparable st'.2 = ad_Comparable st.2 ∧ ad_Key st'.2 = ad_Key st.2.

Lemma steps_nil st l0 : steps st st l0 [].
Proof. unfold steps. by rewrite app_nil_r. Qed.

Lemma steps_trans st1 st2 st3 l0 l1 l2 :
  steps st1 st2 l0 l1 → steps st2 st3 (l0 ++ l1) l2 → steps st1 st3 l0 (l1 ++ l2).
Proof.
  intros (E1 & C1 & Q1 & K1) (E2 & C2 & Q2 & K2). unfold steps.
  rewrite append_all_app, <-E1, E2, Q2, K2, (assoc_L (++)). split; [done|]. split; [|done].
  intros H. by apply C2, C1.
Qed.

Lemma classify_new_steps prev artifact ac f st l0 :
  steps st (classify_new prev artifact ac f st) l0 [fate prev artifact ac f].
Proof.
  destruct st as [cmp delta]. unfold classify_new, fate, steps, counted.
  destruct prev as [prev|]; [repeat match goal with |- context [if ?b then _ else _] => destruct b end|];
    (split; [done|]; split; [|done]); rewrite !count_type_snoc; simpl; lia.
Qed.

Lemma classify_removed_steps P rc a f st l0 :
  steps st (classify_removed P rc a st f) l0 [removed_fate P rc a f].
Proof.
  destruct st as [cmp delta]. unfold classify_removed, removed_fate, steps, counted.
  repeat match goal with |- context [if ?b then _ else _] => destruct b end;
    (split; [done|]; split; [|done]); rewrite !count_type_snoc; simpl; lia.
Qed.

Lemma fold_steps {X} (step : Comparison * ArtifactDelta → X → Comparison * ArtifactDelta) (g : X → option Change) l :
  (∀ st x l0, steps st (step st x) l0 (option_list (g x))) →
  ∀ st l0, steps st (foldl step st l) l0 (omap g l).
Proof.
  intros Hstep. induction l as [|x l IH]; intros st l0; [apply steps_nil|]. simpl.
  pose proof (steps_trans _ _ _ _ _ _ (Hstep st x l0) (IH (step st x) _)) as Hs.
  by destruct (g x).
Qed.

Lemma omap_Some {X Y} (g : X → Y) (l : list X) : omap (λ x, Some (g x)) l = g <$> l.
Proof. induction l as [|x l IH]; simpl; [done|]. by f_equal. Qed.

Lemma omap_filter {X Y} (P : X → Prop) `{∀ x, Decision (P x)} (g : X → Y) (l : list X) :
  omap (λ x, if decide (P x) then Some (g x) else None) l = g <$> filter P l.
Proof.
  induction l as [|x l IH]; [done|]. rewrite filter_cons. simpl. case_decide; simpl; [f_equal|]; exact IH.
Qed.

Lemma classify_step_steps old artifact ac l st seen l0 :
  let out := foldl (classify_step old artifact ac) (st, seen) l in
  steps st out.1 l0 ((λ f, fate (old !! Key f) artifact ac f) <$> firsts Key seen l) ∧
  out.2 = list_to_set (Key <$> l) ∪ seen.
Proof.
  simpl. revert st seen l0. induction l as [|f l IH]; intros st seen l0; simpl.
  { split; [apply steps_nil|set_solver]. }
  case_bool_decide as Hf.
  - destruct (IH st seen l0) as [Hs ->]. split; [done|set_solver].
  - destruct (IH (classify_new (old !! Key f) artifact ac f st) ({[Key f]} ∪ seen)
      (l0 ++ [fate (old !! Key f) artifact ac f])) as [Hs ->].
    split; [|set_solver]. rewrite fmap_cons.
    change (?x :: ?l) with ([x] ++ l). eapply steps_trans; [apply classify_new_steps|exact Hs].
Qed.

Lemma classifyPair_steps ac a b st l0 : steps st (classifyPair ac a b st) l0 (fates ac a b).
Proof.
  unfold classifyPair, fates. fold (worst_findings (r_Findings a)). set (old := worst_findings (r_Findings a)).
  destruct (classify_step_steps old (r_Artifact b) ac (r_Findings b) st ∅ l0) as [Hs Hseen].
  destruct (foldl (classify_step old (r_Artifact b) ac) (st, ∅) (r_Findings b)) as [st1 seen].
  simpl in Hs, Hseen. eapply steps_trans; [exact Hs|].
  rewrite <-(omap_filter (λ kf, kf.1 ∉ (list_to_set (Key <$> r_Findings b) : gset string))).
  apply (fold_steps _ (λ kf, if decide (kf.1 ∉ (list_to_set (Key <$> r_Findings b) : gset string))
                             then Some (newChange ChangeResolved kf.2 (r_Artifact a) ac) else None)).
  intros [c d] [k f] l1. simpl. rewrite Hseen, (right_id_L ∅ (∪)).
  case_bool_decide as Hk; [rewrite decide_False by tauto; apply steps_nil|].
  rewrite decide_True by done. unfold steps, counted. simpl.
  split; [done|]. split; [|done]. rewrite !count_type_snoc. simpl. lia.
Qed.

Lemma classify_artifact_steps P rc p st l0 :
  (classify_artifact P rc p st).1 = append_all (pair_changes P rc p) st.1 ∧
  (counted st.2 l0 → counted (classify_artifact P rc p st).2 (l0 ++ pair_changes P rc p)).
Proof.
  assert (∀ st st' l, steps (st.1, st.2 <| ad_Comparable := true |>) st' l0 l →
    st'.1 = append_all l st.1 ∧ (counted st.2 l0 → counted st'.2 (l0 ++ l))) as Hof.
  { intros s s' l (E & C & _). split; [exact E|]. intros H. by apply C. }
  assert (st.1 = append_all [] st.1 ∧ (counted st.2 l0 → counted st.2 (l0 ++ []))) as Hnone
    by (by rewrite app_nil_r).
  unfold classify_artifact, pair_changes.
  destruct (pr_change p), (pr_a p) as [a|], (pr_b p) as [b|]; try exact Hnone;
    repeat match goal with |- context [if ?b then _ else _] => destruct b; try exact Hnone end;
    apply Hof; try apply classifyPair_steps.
  all: try (rewrite <-omap_Some; apply fold_steps; intros ???; apply classify_removed_steps).
  all: rewrite <-omap_Some; apply fold_steps; intros [c d] f l1; unfold steps, counted; simpl;
    (split; [done|]; split; [|done]); rewrite !count_type_snoc; simpl; lia.
Qed.

(** Where a comparison is after some pairs. *)
Lemma compare_pairs_spec P rc pairs c :
  let c' := foldl (compare_pair P rc) c pairs in
  cm_Changes c' = cm_Changes c ++ (pairs ≫= pair_changes P rc) ∧ (tallies c → tallies c') ∧
  cm_CoverageA c' = cm_CoverageA c ∧ cm_CoverageB c' = cm_CoverageB c ∧
  ∃ ds, cm_Artifacts c' = cm_Artifacts c ++ ds ∧
        Forall2 (λ p d, counted d (pair_changes P rc p)) pairs ds.
Proof.
  simpl. revert c. induction pairs as [|p pairs IH]; intros c.
  { rewrite app_nil_r. repeat split; try done. exists []. by rewrite app_nil_r. }
  cbn [foldl]. pose proof (classify_artifact_steps P rc p (c, new_delta p) []) as [E C]. simpl in E, C.
  unfold compare_pair at 2 4 6 8 10.
  destruct (classify_artifact P rc p (c, new_delta p)) as [c1 d] eqn:Hc. simpl in E, C.
  set (c2 := c1 <| cm_Summary ::= summarize_pair p d |> <| cm_Artifacts := cm_Artifacts c1 ++ [d] |>).
  destruct (append_all_spec (pair_changes P rc p) c) as (Hch & Ht & _ & Ha & HA & HB).
  rewrite <-E in Hch, Ht, Ha, HA, HB.
  destruct (IH c2) as (-> & Htl & -> & -> & ds & -> & Hds).
  split; [by rewrite bind_cons, (assoc_L (++)), <-Hch|].
  split; [intros H; apply Htl; intros t; specialize (Ht H t); by destruct t|].
  split; [done|]. split; [done|]. exists (d :: ds).
  split; [simpl; by rewrite Ha, <-(assoc_L (++))|]. constructor; [|done].
  apply C. repeat split.
Qed.

Lemma account_of_cons t ch l :
  account_of t (ch :: l) = if decide (ch_Type ch = t) then Plus (change_account ch) (account_of t l)
                           else account_of t l.
Proof. unfold account_of, of_type. rewrite filter_cons. by case_decide. Qed.

Lemma SeverityWeight_Plus a b : SeverityWeight (SeverityPlus a b) = SeverityWeight a + SeverityWeight b.
Proof. rewrite !SeverityWeight_eq, SeverityPlus_eq. simpl. lia. Qed.

Lemma account_Weight g : SeverityWeight (k_BySeverity (account g)) = Weight (g_Severity g).
Proof. rewrite SeverityWeight_eq. destruct g as [s [] []], s; reflexivity. Qed.

Lemma is_regrading_eq t :
  is_regrading t = match t with ChangeSeverityIncreased | ChangeSeverityDecreased => true | _ => false end.
Proof. by destruct t. Qed.

Definition regrades (l : list Change) : Z :=
  foldr (λ ch s, (if is_regrading (ch_Type ch) then Weight (ch_ToSeverity ch) - Weight (ch_FromSeverity ch)
                  else 0) + s) 0 l.

Lemma regrades_spec l n :
  foldl (λ score ch, if is_regrading (ch_Type ch)
    then score + (Weight (ch_ToSeverity ch) - Weight (ch_FromSeverity ch)) else score) n l = n + regrades l.
Proof.
  revert n. induction l as [|ch l IH]; intros n; simpl; [lia|]. rewrite IH. destruct (is_regrading _); lia.
Qed.

(** The weights of the rows counted as introduced and resolved, and the
    re-gradings, are the score. *)
Lemma netScore_score c : tallies c → netScore c = score (cm_Changes c).
Proof.
  intros Hc. unfold netScore. rewrite (Hc ChangeIntroduced : cm_Introduced c = _).
  rewrite (Hc ChangeResolved : cm_Resolved c = _). clear Hc. generalize (cm_Changes c) as l. clear c.
  induction l as [|ch l IH]; [done|]. rewrite regrades_spec in IH |- *. rewrite !account_of_cons.
  change (score (ch :: l)) with (score_of ch + score l). rewrite <-IH. cbn [regrades foldr].
  fold (regrades l). unfold score_of, change_account. unfold graded. rewrite is_regrading_eq.
  destruct (ch_Type ch) eqn:E; repeat case_decide; try done;
    unfold Plus; cbn [k_BySeverity]; rewrite ?SeverityWeight_Plus, ?account_Weight; cbn [g_Severity]; lia.
Qed.

(** The verdict, from the score, the missing answers and the coverage. *)
Definition verdict_of (net gaps : Z) (a b : Coverage) : Verdict :=
  if negb (Any a) || negb (Any b) then VerdictInconclusive
  else if net <? 0 then VerdictBetter
  else if 0 <? net then VerdictWorse
  else if Complete a && Complete b && (gaps =? 0) then VerdictUnchanged
  else VerdictInconclusive.

Lemma decide_verdict_of c a b :
  (decide_verdict c a b).1 = verdict_of (cm_NetScore c) (as_NotComparable (cm_Summary c)) a b.
Proof.
  unfold decide_verdict, verdict_of. destruct (Any a), (Any b); simpl; try done.
  destruct (cm_NetScore c <? 0), (0 <? cm_NetScore c); try done. by destruct (_ && _ && _).
Qed.

(** Everything but the words is fixed before them. *)
Lemma Compare_fields A B nameA nameB :
  let c := classify A B nameA nameB in
  let cmp := Compare A B nameA nameB in
  cm_Changes cmp = sortChanges (cm_Changes c) ∧ cm_Artifacts cmp = slice_stable delta_less (cm_Artifacts c) ∧
  (∀ t, total_of t cmp = total_of t c) ∧ cm_Summary cmp = cm_Summary c ∧
  cm_NetScore cmp = netScore (c <| cm_Changes ::= sortChanges |>) ∧
  cm_Verdict cmp = verdict_of (cm_NetScore cmp) (as_NotComparable (cm_Summary c)) (cm_CoverageA c) (cm_CoverageB c).
Proof.
  cbv zeta. unfold Compare. generalize (classify A B nameA nameB) as c. intros c.
  destruct (decide_verdict _ _ _) as [verdict caveats] eqn:Ev.
  apply (f_equal fst) in Ev. rewrite decide_verdict_of in Ev. cbn [fst] in Ev. subst verdict.
  destruct (explain _) as [headline explanation].
  repeat (split; [done|]). done.
Qed.

#[export] Instance change_less_weak : WeakLess change_less.
Proof.
  apply (weak_lex (λ c, type_order (ch_Type c)) Z.eqb Z.ltb), (weak_flag ch_KEV),
    (weak_lex (λ c, Rank (ch_Severity c)) Z.eqb (λ x y, y <? x)),
    (weak_lex ch_CVE String.eqb String.ltb),
    (weak_lex (λ c, ComponentKey (ch_Component c)) String.eqb String.ltb),
    (weak_key (λ c, ArtifactKey (ch_Artifact c)) String.eqb String.ltb).
Qed.

(** C14. The headline is the table.  The rows of a comparison are the fates of
    the findings of its aligned artifacts, each of them and no other, in reading order; each
    total is the account of the rows of its type; the score is the rows' weights
    added up - what was introduced, less what was resolved, plus what was
    re-graded - and decides the verdict, better below zero and worse above it,
    unless a side has no results at all, while zero is unchanged only over
    complete data; and each artifact's own arithmetic counts its rows. *)
Theorem comparison_is_its_changes A B nameA nameB :
  let pairs := shareDigestResult <$> pairArtifacts (indexReports A) (indexReports B) in
  let conclusive := Complete (po_Coverage (Summarize B)) && Any (po_Coverage (Summarize A)) in
  let changes := pairs ≫= pair_changes (present_in pairs) conclusive in
  let cmp := Compare A B nameA nameB in
  cm_Changes cmp ≡ₚ changes ∧ StronglySorted (not_less change_less) (cm_Changes cmp) ∧
  (∀ t, total_of t cmp = account_of t changes) ∧
  cm_NetScore cmp = score changes ∧
  cm_Verdict cmp = verdict_of (score changes) (as_NotComparable (cm_Summary cmp))
                     (po_Coverage (Summarize A)) (po_Coverage (Summarize B)) ∧
  ∃ deltas, cm_Artifacts cmp ≡ₚ deltas ∧
    Forall2 (λ p d, counted d (pair_changes (present_in pairs) conclusive p)) pairs deltas.
Proof.
  intros pairs conclusive changes cmp.
  destruct (Compare_fields A B nameA nameB) as (Ech & Ear & Et & Es & En & Ev).
  fold cmp in Ech, Ear, Et, Es, En, Ev.
  set (c := classify A B nameA nameB) in *.
  destruct (compare_pairs_spec (present_in pairs) conclusive pairs (new_comparison (po_Coverage (Summarize A))
    (po_Coverage (Summarize B)) nameA nameB)) as (Hch & Htal & HA & HB & ds & Hds & HF).
  change (foldl _ _ pairs) with c in Hch, Htal, HA, HB, Hds. simpl in Hch, HA, HB, Hds. fold changes in Hch.
  assert (tallies c) as Ht by (apply Htal; by intros []).
  assert (sortChanges (cm_Changes c) ≡ₚ changes) as Hp.
  { rewrite <-Hch. apply merge_sort_Permutation. }
  assert (cm_NetScore cmp = score changes) as Hscore.
  { rewrite En, netScore_score; [simpl; by rewrite Hp|]. intros t.
    transitivity (total_of t c); [by destruct t|]. rewrite (Ht t). simpl. by rewrite Hp, Hch. }
  split; [by rewrite Ech|]. split; [rewrite Ech; apply slice_stable_sorted, _|].
  split; [intros t; by rewrite Et, (Ht t), Hch|]. split; [done|].
  split; [by rewrite Ev, Hscore, Es, HA, HB|].
  exists ds. split; [|done]. rewrite Ear, Hds. apply merge_sort_Permutation.
Qed.

(* -------------------------------------------------------------------- *)
(** ** One fate for each problem *)

Definition change_key (ch : Change) : string :=
  String.append (if String.eqb (ch_CVE ch) "" then ch_ID ch else ch_CVE ch)
    (String bar (ComponentKey (ch_Component ch))).

Lemma fate_key prev artifact ac f : change_key (fate prev artifact ac f) = Key f.
Proof.
  unfold fate. destruct prev as [prev|]; [|done].
  repeat match goal with |- context [if ?b then _ else _] => destruct b end; done.
Qed.

(** The worst finding of each key of a list. *)
Lemma worst_findings_spec l k :
  match worst_findings l !! k with
  | Some g => g ∈ l ∧ Key g = k ∧ Rank (f_Severity g) = worst (group Key k l)
  | None => k ∉ Key <$> l
  end.
Proof.
  induction l as [|x l IH] using rev_ind.
  { unfold worst_findings. simpl. rewrite lookup_empty. by intros ?%elem_of_nil. }
  unfold worst_findings in *. rewrite foldl_app. simpl. set (old := foldl worst_of ∅ l) in *.
  assert (k ∈ Key <$> l ++ [x] ↔ k ∈ Key <$> l ∨ k = Key x) as Hkeys
    by (rewrite fmap_app, elem_of_app; simpl; by rewrite list_elem_of_singleton).
  rewrite group_snoc.
  assert (∀ g, g ∈ l → g ∈ l ++ [x]) as Hin by (intros g Hg; apply elem_of_app; by left).
  assert (x ∈ l ++ [x]) as Hx by (apply elem_of_app; right; left).
  unfold worst_of. destruct (decide (Key x = k)) as [Hk|Hk].
  - subst k. rewrite worst_snoc. destruct (old !! Key x) as [prev|] eqn:E.
    + destruct IH as (Hp & Hpk & Hr). destruct (Z.ltb_spec (Rank (f_Severity prev)) (Rank (f_Severity x))).
      * rewrite lookup_insert_eq. split; [done|]. split; [done|]. lia.
      * rewrite E. split; [auto|]. split; [done|]. lia.
    + rewrite lookup_insert_eq. split; [done|]. split; [done|].
      assert (group Key (Key x) l = []) as ->; [|pose proof (Rank_nonneg (f_Severity x)); simpl; lia].
      apply filter_none. intros y Hy Hyx. apply IH. rewrite <-Hyx. by apply list_elem_of_fmap_2.
  - rewrite app_nil_r. assert (∀ v, <[Key x:=v]> old !! k = old !! k) as Hi
      by (intros v; by rewrite lookup_insert_ne).
    assert (match old !! k with
            | Some g => g ∈ l ++ [x] ∧ Key g = k ∧ Rank (f_Severity g) = worst (group Key k l)
            | None => k ∉ Key <$> l ++ [x] end) as Hgoal.
    { destruct (old !! k); [destruct IH as (? & ? & ?); auto|]. intros [?|?]%Hkeys; [done|congruence]. }
    destruct (old !! Key x) as [prev|]; [destruct (_ <? _)|]; rewrite ?Hi; exact Hgoal.
Qed.

Lemma worst_findings_Some l k : is_Some (worst_findings l !! k) ↔ k ∈ Key <$> l.
Proof.
  pose proof (worst_findings_spec l k) as Hs. destruct (worst_findings l !! k) as [g|] eqn:E.
  - destruct Hs as (Hg & <- & _). split; [|eauto]. intros _. by apply list_elem_of_fmap_2.
  - split; [by intros []|done].
Qed.

Definition weight_of (l : list Finding) : Z := foldr (λ f w, Weight (f_Severity f) + w) 0 l.

#[export] Instance weight_of_Permutation : Proper ((≡ₚ) ==> (=)) weight_of.
Proof. intros l k Hp. unfold weight_of. induction Hp; simpl; lia. Qed.

Lemma weight_of_app l k : weight_of (l ++ k) = weight_of l + weight_of k.
Proof. unfold weight_of. induction l as [|f l IH]; simpl; lia. Qed.

Lemma Weight_Rank s s' : Rank s = Rank s' → Weight s = Weight s'.
Proof. by destruct s, s'. Qed.

(** The score of a fate is the new weight less the old. *)
Lemma fate_score prev artifact ac f :
  score_of (fate prev artifact ac f) =
    Weight (f_Severity f) - match prev with Some p => Weight (f_Severity p) | None => 0 end.
Proof.
  unfold fate. destruct prev as [p|]; [|unfold score_of; simpl; lia].
  destruct (Z.ltb_spec (Rank (f_Severity p)) (Rank (f_Severity f))); [done|].
  destruct (Z.ltb_spec (Rank (f_Severity f)) (Rank (f_Severity p))); [done|].
  rewrite (Weight_Rank (f_Severity p) (f_Severity f)) by lia.
  destruct (negb _); unfold score_of; simpl; lia.
Qed.

Lemma score_fates old artifact ac l :
  score ((λ f, fate (old !! Key f) artifact ac f) <$> l) =
    weight_of l - weight_of (omap (λ f, (old : gmap string Finding) !! Key f) l).
Proof.
  induction l as [|f l IH]; [done|]. rewrite fmap_cons.
  change (score (?x :: ?l)) with (score_of x + score l). rewrite IH, fate_score.
  set (g := λ f, old !! Key f) in *.
  assert (omap g (f :: l) = match g f with Some y => y :: omap g l | None => omap g l end) as -> by done.
  change (old !! Key f) with (g f). change (weight_of (f :: l)) with (Weight (f_Severity f) + weight_of l).
  destruct (g f) as [y|]; [|lia].
  change (weight_of (y :: ?k)) with (Weight (f_Severity y) + weight_of k). lia.
Qed.

Lemma score_resolved artifact ac (l : list (string * Finding)) :
  score ((λ kf, newChange ChangeResolved kf.2 artifact ac) <$> l) = - weight_of l.*2.
Proof.
  induction l as [|kf l IH]; [done|]. rewrite !fmap_cons.
  change (score (?x :: ?l)) with (score_of x + score l). rewrite IH.
  change (weight_of (?x :: ?l)) with (Weight (f_Severity x) + weight_of l).
  unfold score_of. cbn [ch_Type newChange ch_Severity]. lia.
Qed.

(** The worst findings of a list, one for each key. *)
Definition worst_list (l : list Finding) : list Finding := (map_to_list (worst_findings l)).*2.

Lemma worst_listed l k f :
  (k, f) ∈ map_to_list (worst_findings l) → f ∈ l ∧ Key f = k.
Proof.
  intros Hin. apply elem_of_map_to_list in Hin. pose proof (worst_findings_spec l k) as Hs.
  rewrite Hin in Hs. tauto.
Qed.

(** The old findings whose keys the new ones have, found from either side. *)
Lemma matched_weight old_l new_l :
  weight_of (omap (λ f, worst_findings old_l !! Key f) (firsts Key ∅ new_l)) +
  weight_of (filter (λ kf, kf.1 ∉ (list_to_set (Key <$> new_l) : gset string))
               (map_to_list (worst_findings old_l))).*2 = weight_of (worst_list old_l).
Proof.
  set (old := worst_findings old_l). set (news := list_to_set (Key <$> new_l) : gset string).
  assert (omap (λ f, old !! Key f) (firsts Key ∅ new_l) ≡ₚ
          (filter (λ kf, kf.1 ∈ news) (map_to_list old)).*2) as ->.
  { assert (omap (λ f, (λ g, (Key f, g)) <$> old !! Key f) (firsts Key ∅ new_l) ≡ₚ
      filter (λ kf, kf.1 ∈ news) (map_to_list old)) as Hp.
    { apply NoDup_Permutation.
      - apply (NoDup_fmap_1 fst).
        assert (∀ l, NoDup (Key <$> l) →
          NoDup (omap (λ f, (λ g, (Key f, g)) <$> old !! Key f) l).*1 ∧
          ∀ k, k ∈ (omap (λ f, (λ g, (Key f, g)) <$> old !! Key f) l).*1 → k ∈ Key <$> l) as Hnd.
        { induction l as [|f l IH]; [split; [constructor|done]|]. rewrite fmap_cons.
          intros [Hf Hl]%NoDup_cons. destruct (IH Hl) as [Hn Hk]. simpl.
          destruct (old !! Key f); simpl; [|split; [done|]; intros; right; auto].
          split; [constructor; auto|]. intros k. rewrite !elem_of_cons. intros [?|?]; auto. }
        apply Hnd, NoDup_firsts.
      - apply (NoDup_fmap_1 fst), NoDup_fst_filter, NoDup_fst_map_to_list.
      - intros [k g]. rewrite list_elem_of_omap, list_elem_of_filter, elem_of_map_to_list. simpl.
        assert (k ∈ news ↔ k ∈ Key <$> firsts Key ∅ new_l) as ->.
        { unfold news. rewrite elem_of_list_to_set, elem_of_firsts. set_solver. }
        rewrite list_elem_of_fmap. split.
        + intros (f & Hf & (g' & Hg & [= -> ->])%fmap_Some). eauto.
        + intros [(f & -> & Hf) Hg]. exists f. by rewrite Hg. }
    rewrite <-Hp. clear. generalize (firsts Key ∅ new_l) as l. induction l as [|f l IH]; [done|].
    simpl. destruct (old !! Key f); simpl; [|exact IH]. by apply perm_skip. }
  rewrite <-weight_of_app, <-fmap_app. unfold worst_list. fold old.
  by rewrite (filter_app_complement (λ kf : string * Finding, kf.1 ∈ news)).
Qed.

(** Every problem of an artifact shipped in both releases has one fate.  Of
    the findings of the old copy and the new one, each distinct problem - an
    advisory in a package - gets exactly one row: introduced if only the new copy
    has it, resolved if only the old one does, otherwise re-graded, newly fixable
    or unchanged; and the rows' score is the weight of the new copy's problems
    less the weight of the old copy's. *)
Theorem every_problem_has_one_fate ac a b st :
  let old := r_Findings a in
  let new := r_Findings b in
  ∃ rows, (classifyPair ac a b st).1 = append_all rows st.1 ∧
    NoDup (change_key <$> rows) ∧
    (∀ k, k ∈ change_key <$> rows ↔ k ∈ Key <$> old ∨ k ∈ Key <$> new) ∧
    (∀ ch, ch ∈ rows →
       (ch_Type ch = ChangeIntroduced ↔ change_key ch ∉ Key <$> old) ∧
       (ch_Type ch = ChangeResolved ↔ change_key ch ∉ Key <$> new)) ∧
    score rows = weight_of (firsts Key ∅ new) - weight_of (worst_list old).
Proof.
  intros old new. exists (fates ac a b). split; [apply (classifyPair_steps ac a b st [])|].
  unfold fates. fold old new. set (m := worst_findings old).
  set (left := filter (λ kf, kf.1 ∉ (list_to_set (Key <$> new) : gset string)) (map_to_list m)).
  assert (change_key <$> ((λ f, fate (m !! Key f) (r_Artifact b) ac f) <$> firsts Key ∅ new) =
          Key <$> firsts Key ∅ new) as E1.
  { rewrite <-list_fmap_compose. apply list_fmap_ext. intros i f _. apply fate_key. }
  assert (∀ k f, (k, f) ∈ left ↔ m !! k = Some f ∧ k ∉ Key <$> new) as Hleft.
  { intros k f. unfold left. rewrite list_elem_of_filter, elem_of_map_to_list. simpl.
    rewrite elem_of_list_to_set. tauto. }
  assert (change_key <$> ((λ kf, newChange ChangeResolved kf.2 (r_Artifact a) ac) <$> left) = left.*1) as E2.
  { rewrite <-list_fmap_compose. apply list_fmap_ext. intros i [k f] Hi. simpl.
    apply list_elem_of_lookup_2, Hleft in Hi as [Hi _]. apply elem_of_map_to_list in Hi.
    by destruct (worst_listed _ _ _ Hi) as [_ <-]. }
  assert (∀ k, k ∈ left.*1 ↔ k ∈ Key <$> old ∧ k ∉ Key <$> new) as Hleftk.
  { intros k. rewrite list_elem_of_fmap. rewrite <-worst_findings_Some. fold m. split.
    - intros ([k' f] & -> & [? ?]%Hleft). eauto.
    - intros [[f Hf] Hk]. exists (k, f). split; [done|]. by apply Hleft. }
  assert (∀ k, k ∈ Key <$> firsts Key ∅ new ↔ k ∈ Key <$> new) as Hfirst.
  { intros k. rewrite elem_of_firsts. set_solver. }
  rewrite fmap_app, E1, E2. split; [|split; [|split]].
  - apply NoDup_app. split; [apply NoDup_firsts|]. split.
    + intros k Hk%Hfirst Hl%Hleftk. tauto.
    + apply NoDup_fst_filter, NoDup_fst_map_to_list.
  - intros k. rewrite elem_of_app, Hfirst, Hleftk. destruct (decide (k ∈ Key <$> new)); tauto.
  - intros ch [Hch|Hch]%elem_of_app.
    + apply list_elem_of_fmap in Hch as (f & -> & Hf). rewrite fate_key.
      assert (Key f ∈ Key <$> new) as Hk by (apply Hfirst; by apply list_elem_of_fmap_2).
      rewrite <-worst_findings_Some. fold m.
      assert (∀ p, ch_Type (fate (Some p) (r_Artifact b) ac f) ≠ ChangeIntroduced ∧
                   ch_Type (fate (Some p) (r_Artifact b) ac f) ≠ ChangeResolved) as Hp.
      { intros p. unfold fate.
        repeat match goal with |- context [if ?b then _ else _] => destruct b end; done. }
      destruct (m !! Key f) as [p|]; [destruct (Hp p)|]; split; split; try done; try (by intros []).
    + apply list_elem_of_fmap in Hch as ([k f] & -> & Hkf). apply Hleft in Hkf as [Hm Hk].
      apply elem_of_map_to_list in Hm. destruct (worst_listed _ _ _ Hm) as [Hf <-]. simpl.
      change (change_key _) with (Key f). split; [split; [done|]|done].
      intros Hn. destruct Hn. by apply list_elem_of_fmap_2.
  - rewrite score_app, score_fates, score_resolved. pose proof (matched_weight old new) as Hw.
    fold m left in Hw. lia.
Qed.

(* -------------------------------------------------------------------- *)
(** ** What left with an artifact *)

Lemma elem_of_sorted_keys m k : k ∈ sorted_keys m ↔ is_Some (m !! k).
Proof.
  unfold sorted_keys. rewrite elem_of_sort_strings, list_elem_of_fmap. split.
  - intros ([k' r] & -> & Hin%elem_of_map_to_list). eauto.
  - intros [r Hr]. exists (k, r). split; [done|]. by apply elem_of_map_to_list.
Qed.

Lemma findByDigest_Some m digest used k r : findByDigest m digest used = Some (k, r) → m !! k = Some r.
Proof.
  unfold findByDigest. destruct (String.eqb digest ""); [done|].
  generalize (sorted_keys m) as keys. induction keys as [|x keys IH]; simpl; [done|].
  case_bool_decide; [done|]. destruct (m !! x) as [r'|] eqn:E; [|done].
  destruct (String.eqb _ digest); [|done]. by intros [= <- <-].
Qed.

(** Every artifact of the new release is in some pair. *)
Lemma pairs_cover_b a b k rb :
  b !! k = Some rb → ∃ p, p ∈ pairArtifacts a b ∧ pr_b p = Some rb.
Proof.
  intros Hb. unfold pairArtifacts.
  assert (∀ keys st, (∀ k, k ∈ st.2 → ∃ p, p ∈ st.1 ∧ pr_b p = b !! k) →
    ∀ k, k ∈ (foldl (pair_step a b) st keys).2 →
      ∃ p, p ∈ (foldl (pair_step a b) st keys).1 ∧ pr_b p = b !! k) as Hinv.
  { induction keys as [|x keys IH]; intros [pairs used] Hst; [done|]. cbn [foldl]. apply IH. clear IH.
    simpl in Hst. unfold pair_step. destruct (a !! x) as [ra|]; [|done].
    assert (∀ y p, pr_b p = b !! y → ∀ k, k ∈ {[ y ]} ∪ used →
      ∃ p0, p0 ∈ pairs ++ [p] ∧ pr_b p0 = b !! k) as Hadd.
    { intros y p Hp z [->%elem_of_singleton|Hz]%elem_of_union.
      - exists p. split; [apply elem_of_app; right; left|done].
      - destruct (Hst z Hz) as (p0 & ? & ?). exists p0. split; [apply elem_of_app; by left|done]. }
    destruct (b !! x) as [rx|] eqn:Ex; [by apply Hadd|].
    destruct (findByDigest b _ used) as [[y ry]|] eqn:Ey.
    - apply Hadd. simpl. symmetry. by eapply findByDigest_Some.
    - simpl. intros z Hz. destruct (Hst z Hz) as (p0 & ? & ?). exists p0.
      split; [apply elem_of_app; by left|done]. }
  specialize (Hinv (sorted_keys a) ([], ∅)).
  destruct (foldl (pair_step a b) ([], ∅) (sorted_keys a)) as [pairs used]. simpl in Hinv.
  destruct (decide (k ∈ used)) as [Hk|Hk].
  - destruct (Hinv ltac:(set_solver) k Hk) as (p & Hp & Hpb). exists p.
    split; [apply elem_of_app; by left|by rewrite Hpb].
  - exists (mkPair k ArtifactAdded None (b !! k)). split; [|done]. apply elem_of_app. right.
    apply list_elem_of_fmap. exists k. split; [done|]. apply list_elem_of_filter.
    split; [done|]. apply elem_of_sorted_keys. eauto.
Qed.

(** A scanned report's findings are in its group's, which counts as scanned. *)
Lemma indexReports_scanned l r :
  r ∈ l → r_Status r = StatusScanned →
  ∃ g, indexReports l !! ArtifactKey (r_Artifact r) = Some g ∧ r_Status g = StatusScanned ∧
    ∀ f, f ∈ r_Findings r → f ∈ r_Findings g.
Proof.
  unfold indexReports. induction l as [|x l IH] using rev_ind; [by intros ?%elem_of_nil|].
  rewrite foldl_app. simpl. set (out := foldl index_step ∅ l) in *. intros Hr Hs.
  unfold index_step. set (k := ArtifactKey (r_Artifact x)).
  apply elem_of_app in Hr as [Hr | ->%list_elem_of_singleton].
  - destruct (IH Hr Hs) as (g & Hg & Hgs & Hgf).
    destruct (decide (k = ArtifactKey (r_Artifact r))) as [Hk|Hk].
    + rewrite <-Hk in Hg |- *. rewrite Hg, lookup_insert_eq. eexists. split; [done|].
      unfold Recount. case_bool_decide; simpl; (split; [done|]); intros f Hf; apply elem_of_app; left; auto.
    + exists g. split; [|done]. destruct (out !! k); by rewrite lookup_insert_ne.
  - fold k. destruct (out !! k) as [g|]; rewrite lookup_insert_eq; eexists; (split; [done|]).
    + unfold Recount. rewrite Hs. simpl. split; [done|]. intros f Hf. apply elem_of_app. by right.
    + done.
Qed.

Lemma shareDigestResult_b p b :
  pr_b p = Some b → r_Status b = StatusScanned → pr_b (shareDigestResult p) = Some b.
Proof.
  intros Hb Hs. unfold shareDigestResult. rewrite Hb. destruct (pr_a p) as [a|]; [|done].
  destruct (_ || _); [done|]. assert (is_scanned b = true) as -> by by apply bool_decide_eq_true.
  simpl. rewrite andb_false_r. by destruct (negb (is_scanned a)).
Qed.

(** Only what is gone is resolved by a removal.  A row that counts a finding
    as resolved because its artifact is no longer shipped is written only when
    everything of the new release that can be scanned was scanned, and never for
    a problem that any scanned artifact of the new release still has. *)
Theorem removal_resolves_only_what_is_gone A B nameA nameB ch :
  ch ∈ cm_Changes (Compare A B nameA nameB) → ch_ViaRemoval ch = true →
  ch_Type ch = ChangeResolved ∧ Complete (po_Coverage (Summarize B)) = true ∧
  ∀ r, r ∈ B → r_Status r = StatusScanned → change_key ch ∉ Key <$> r_Findings r.
Proof.
  set (pairs := shareDigestResult <$> pairArtifacts (indexReports A) (indexReports B)).
  set (rc := Complete (po_Coverage (Summarize B)) && Any (po_Coverage (Summarize A))).
  destruct (Compare_fields A B nameA nameB) as (-> & _).
  destruct (compare_pairs_spec (present_in pairs) rc pairs (new_comparison (po_Coverage (Summarize A))
    (po_Coverage (Summarize B)) nameA nameB)) as (Hch & _).
  change (foldl _ _ pairs) with (classify A B nameA nameB) in Hch.
  unfold sortChanges, slice_stable. rewrite merge_sort_Permutation, Hch. simpl.
  intros (p & Hin & _)%list_elem_of_bind Hvia.
  assert (∃ a f, ch = removed_fate (present_in pairs) rc a f) as (a & f & ->).
  { unfold pair_changes in Hin. unfold fates in Hin.
    destruct (pr_change p), (pr_a p) as [a|], (pr_b p) as [b|]; try (by apply elem_of_nil in Hin);
      repeat match goal with H : _ ∈ (if ?x then _ else _) |- _ => destruct x end;
      try (by apply elem_of_nil in Hin); try apply elem_of_app in Hin as [Hin|Hin];
      apply list_elem_of_fmap in Hin as (x & -> & _); try (by simpl in Hvia); try (by eauto);
      exfalso; revert Hvia; unfold fate;
      destruct (worst_findings (r_Findings a) !! Key x);
      repeat match goal with |- context [if ?b then _ else _] => destruct b end; done. }
  unfold removed_fate in *. case_bool_decide as Hp; [done|].
  destruct rc eqn:Hrc; [|done]. unfold rc in Hrc. apply andb_true_iff in Hrc as [Hrc _].
  split; [done|]. split; [done|]. change (change_key _) with (Key f).
  intros r Hr Hs Hk. apply Hp. unfold present_in. rewrite elem_of_list_to_set.
  destruct (indexReports_scanned B r Hr Hs) as (g & Hg & Hgs & Hgf).
  destruct (pairs_cover_b (indexReports A) _ _ _ Hg) as (p0 & Hp0 & Hpb).
  apply list_elem_of_fmap in Hk as (x & -> & Hx). apply list_elem_of_fmap_2, list_elem_of_bind.
  exists (shareDigestResult p0). split; [|by apply list_elem_of_fmap_2].
  rewrite (shareDigestResult_b p0 g Hpb Hgs). unfold is_scanned. rewrite Hgs. by apply Hgf.
Qed.

(* -------------------------------------------------------------------- *)
(** ** Examples *)

Definition tls_finding (s : Severity) : Finding := found "CVE-1" (openssl "1.1") s [] "" "anchore".

Definition old_release : list Report :=
  [scanned (image "main" "sha256:1") "anchore" [anchore_finding];
   scanned (image "side" "sha256:2") "anchore" [found "CVE-2" (openssl "1.1") SeverityHigh [] "" "anchore"]].

Definition new_release : list Report := [scanned (image "main" "sha256:1") "anchore" [anchore_finding]].

(** The artifact left, and its problem with it. *)
Definition gone : Change :=
  (newChange ChangeResolved (found "CVE-2" (openssl "1.1") SeverityHigh [] "" "anchore")
     (image "side" "sha256:2") ArtifactRemoved) <| ch_ViaRemoval := true |>.

Example dropping_an_image_is_better :
  cm_Verdict (Compare old_release new_release "1.0" "1.1") = VerdictBetter ∧
  cm_NetScore (Compare old_release new_release "1.0" "1.1") = - Weight SeverityHigh ∧
  cm_Headline (Compare old_release new_release "1.0" "1.1") = "1.1 is better than 1.0.".
Proof. vm_compute. auto. Qed.

Lemma removal_resolves_only_what_is_gone_witness :
  gone ∈ cm_Changes (Compare old_release new_release "1.0" "1.1") ∧
  ch_Type gone = ChangeResolved.
Proof.
  assert (gone ∈ cm_Changes (Compare old_release new_release "1.0" "1.1")) as H.
  { vm_compute. left. }
  split; [exact H|].
  exact (proj1 (removal_resolves_only_what_is_gone old_release new_release "1.0" "1.1" gone H eq_refl)).
Defined.

(** One name scanned twice, the same problem graded low and then high: the old
    side is read at its worst grade and the new one at its first, so a release
    is better than itself. *)
Definition scanned_twice : list Report :=
  [scanned (image "main" "sha256:1") "anchore" [tls_finding SeverityLow];
   scanned (image "main" "sha256:1") "jfrog-xray" [tls_finding SeverityHigh]].

Example better_than_itself :
  cm_Verdict (Compare scanned_twice scanned_twice "1.0" "1.0") = VerdictBetter.
Proof. vm_compute. reflexivity. Qed.

(** [x] was renamed to [y] while the old [y] was dropped: the bytes of [x] rescue
    the new [y], and then its name takes it again. *)
Definition before_rename : list Report :=
  [scanned (image "x" "sha256:1") "anchore" [tls_finding SeverityHigh];
   scanned (image "y" "sha256:2") "anchore" []].

Definition after_rename : list Report :=
  [scanned (image "y" "sha256:1") "anchore" [tls_finding SeverityHigh]].

Example paired_twice :
  (λ p, (pr_key p, ar_Digest ∘ r_Artifact <$> pr_b p)) <$>
    pairArtifacts (indexReports before_rename) (indexReports after_rename) =
    [("x", Some "sha256:1"); ("y", Some "sha256:1")] ∧
  cm_Verdict (Compare before_rename after_rename "1.0" "1.1") = VerdictWorse.
Proof. vm_compute. auto. Qed.

(** New problems nobody graded, all data in: the verdict is unchanged. *)
Definition ungraded_release : list Report :=
  [scanned (image "main" "sha256:1") "anchore"
     [anchore_finding; found "CVE-9" (openssl "1.1") SeverityUnknown [] "" "anchore"]].

Example ungraded_is_unchanged :
  cm_Verdict (Compare new_release ungraded_release "1.0" "1.1") = VerdictUnchanged ∧
  k_Total (cm_Introduced (Compare new_release ungraded_release "1.0" "1.1")) = 1.
Proof. vm_compute. auto. Qed.
