(* ===== verification/Registry.v ===== *)
(** * Registries: content addresses, classified errors, a client

    internal/registry/descriptor.go and errors.go, the interface of registry.go,
    and the reading half of internal/registry/generic (manifests.go, tags.go)
    over an HTTP server.  Bodies are byte strings; the server's answers, the hash
    and the parsed headers are arguments. *)

From S2P Require Import Prelude GoStrings.
Open Scope Z_scope.

(* -------------------------------------------------------------------- *)
(** ** Errors *)

(** What errors.Is can find in an error: the package's sentinels, and those of
    context, net, io and syscall; [NetTimeout] is a net.Error that timed out. *)
Inductive Cause :=
  | ErrNotFound | ErrUnauthorized | ErrForbidden | ErrRateLimited | ErrUnavailable | ErrTimeout
  | ErrDigestMismatch | ErrUnsupported | ErrMountUnsupported | ErrMalformedResponse | ErrConnectionLost
  | Canceled | DeadlineExceeded | NetTimeout
  | EOF | UnexpectedEOF | NetClosed | ECONNRESET | EPIPE | ECONNABORTED.

#[export] Instance Cause_eq_dec : EqDecision Cause.
Proof. solve_decision. Defined.

Definition cause_text (c : Cause) : string :=
  match c with
  | ErrNotFound => "not found"
  | ErrUnauthorized => "unauthorized"
  | ErrForbidden => "forbidden"
  | ErrRateLimited => "rate limited"
  | ErrUnavailable => "registry unavailable"
  | ErrTimeout => "timeout"
  | ErrDigestMismatch => "digest mismatch"
  | ErrUnsupported => "unsupported by registry"
  | ErrMountUnsupported => "cross-repository mount declined"
  | ErrMalformedResponse => "malformed registry response"
  | ErrConnectionLost => "connection lost"
  | Canceled => "context canceled"
  | DeadlineExceeded => "context deadline exceeded"
  | NetTimeout => "i/o timeout"
  | EOF => "EOF"
  | UnexpectedEOF => "unexpected EOF"
  | NetClosed => "use of closed network connection"
  | ECONNRESET => "connection reset by peer"
  | EPIPE => "broken pipe"
  | ECONNABORTED => "software caused connection abort"
  end.

(** A Go error: its words, and what it wraps. *)
Record Fault := mkFault { ft_Message : string; ft_Wraps : list Cause }.

#[export] Instance Fault_eq_dec : EqDecision Fault.
Proof. solve_decision. Defined.

(** errors.Is *)
Definition Is (e : Fault) (c : Cause) : bool := bool_decide (c ∈ ft_Wraps e).

Definition sentinel (c : Cause) : Fault := mkFault (cause_text c) [c].

(** fmt.Errorf of a text that wraps nothing *)
Definition plainf (l : list string) : Fault := mkFault (words l) [].

(** fmt.Errorf("...: %w", err) *)
Definition wrapf (l : list string) (e : Fault) : Fault :=
  mkFault (words [words l; ": "; ft_Message e]) (ft_Wraps e).

(** fmt.Errorf("%w: %w", a, b) *)
Definition wrap2 (a b : Fault) : Fault :=
  mkFault (words [ft_Message a; ": "; ft_Message b]) (ft_Wraps a ++ ft_Wraps b).

Inductive Class :=
  | ClassNotFound | ClassAuth | ClassRateLimited | ClassUnavailable | ClassTimeout | ClassIntegrity
  | ClassUnsupported | ClassMalformed | ClassNetwork | ClassUnclassified.

#[export] Instance Class_eq_dec : EqDecision Class.
Proof. solve_decision. Defined.

Definition ClassOf (err : option Fault) : Class :=
  match err with
  | None => ClassUnclassified
  | Some e =>
      if Is e ErrNotFound then ClassNotFound
      else if Is e ErrUnauthorized || Is e ErrForbidden then ClassAuth
      else if Is e ErrRateLimited then ClassRateLimited
      else if Is e ErrUnavailable then ClassUnavailable
      else if Is e ErrTimeout then ClassTimeout
      else if Is e ErrDigestMismatch then ClassIntegrity
      else if Is e ErrUnsupported then ClassUnsupported
      else if Is e ErrMalformedResponse then ClassMalformed
      else if Is e ErrConnectionLost then ClassNetwork
      else ClassUnclassified
  end.

Definition class_text (c : Class) : string :=
  match c with
  | ClassNotFound => "not_found"
  | ClassAuth => "auth"
  | ClassRateLimited => "rate_limited"
  | ClassUnavailable => "unavailable"
  | ClassTimeout => "timeout"
  | ClassIntegrity => "integrity"
  | ClassUnsupported => "unsupported"
  | ClassMalformed => "malformed"
  | ClassNetwork => "network"
  | ClassUnclassified => "unclassified"
  end.

Definition Retryable (err : option Fault) : bool :=
  match ClassOf err with
  | ClassRateLimited | ClassUnavailable | ClassTimeout | ClassNetwork | ClassUnclassified => true
  | ClassIntegrity => true
  | _ => false
  end.

(** registry.Error *)
Record Failure := mkFailure {
  fa_Op : string;
  fa_Repository : string;
  fa_Reference : string;
  fa_StatusCode : Z;
  fa_RetryAfter : Z;
  fa_Detail : string;
  fa_Err : option Fault }.

Definition detailStates (detail : string) (err : Fault) : bool :=
  if String.eqb detail "" then false else Contains (fold_string detail) (fold_string (ft_Message err)).

(** Its Error method. *)
Definition failure_text (e : Failure) : string :=
  let msg := fa_Op e in
  let msg := if String.eqb (fa_Repository e) "" then msg else words [msg; " "; fa_Repository e] in
  let msg := if String.eqb (fa_Reference e) "" then msg else words [msg; ":"; fa_Reference e] in
  let msg := if fa_StatusCode e =? 0 then msg else words [msg; ": HTTP "; pretty (fa_StatusCode e)] in
  let msg := if String.eqb (fa_Detail e) "" then msg else words [msg; ": "; fa_Detail e] in
  match fa_Err e with
  | Some err => if detailStates (fa_Detail e) err then msg else words [msg; ": "; ft_Message err]
  | None => msg
  end.

(** A failure as an error: Unwrap gives the error inside. *)
Definition raise (e : Failure) : Fault :=
  mkFault (failure_text e) (match fa_Err e with Some err => ft_Wraps err | None => [] end).

Definition ClassifyStatus (status : Z) : option Cause :=
  if status =? 404 then Some ErrNotFound
  else if status =? 401 then Some ErrUnauthorized
  else if status =? 403 then Some ErrForbidden
  else if status =? 429 then Some ErrRateLimited
  else if 500 <=? status then Some ErrUnavailable
  else if 400 <=? status then Some ErrUnsupported
  else None.

Definition droppedConnectionPhrases : list string :=
  ["unexpected eof"; "connection reset by peer"; "broken pipe"; "connection forcibly closed";
   "use of closed network connection"; "http2: stream closed"; "server closed idle connection";
   "transport connection broken"; "unexpected end of stream"; "with body length"].

Definition ClassifyTransport (err : Fault) : option Cause :=
  if Is err UnexpectedEOF || Is err EOF then Some ErrConnectionLost
  else if Is err NetClosed then Some ErrConnectionLost
  else if Is err ECONNRESET || Is err EPIPE || Is err ECONNABORTED then Some ErrConnectionLost
  else if Is err NetTimeout then Some ErrTimeout
  else if Is err DeadlineExceeded then Some ErrTimeout
  else if existsb (Contains (fold_string (ft_Message err))) droppedConnectionPhrases then Some ErrConnectionLost
  else None.

(** A client-side failure; an error somebody classified keeps its class. *)
Definition transportError (err : Fault) : Fault :=
  if Is err Canceled || Is err DeadlineExceeded then err
  else if negb (bool_decide (ClassOf (Some err) = ClassUnclassified)) then err
  else if Is err NetTimeout then
    mkFault (words [cause_text ErrTimeout; ": "; ft_Message err;
        " (no response headers within the deadline; if this registry is simply slow, raise network.timeouts.responseHeader - it defaults to 30s)"])
      (ErrTimeout :: ft_Wraps err)
  else wrap2 (sentinel ErrUnavailable) err.

(* -------------------------------------------------------------------- *)
(** ** Content addresses and descriptors *)

Definition is_hex (c : Ascii.ascii) : bool :=
  let n := Ascii.nat_of_ascii c in
  ((48 <=? n) && (n <=? 57) || (97 <=? n) && (n <=? 102))%nat.

Fixpoint first_non_hex (s : string) : option Ascii.ascii :=
  match s with
  | EmptyString => None
  | String c s => if is_hex c then first_non_hex s else Some c
  end.

(** The error of a malformed digest, none for a well formed one. *)
Definition Validate (d : string) : option Fault :=
  match cut_first colon d with
  | None => Some (plainf ["digest "; quoted d; ": missing algorithm prefix"])
  | Some (algo, hex) =>
      if negb (String.eqb algo "sha256")
      then Some (plainf ["digest "; quoted d; ": unsupported algorithm "; quoted algo])
      else if negb (Nat.eqb (String.length hex) 64)
      then Some (plainf ["digest "; quoted d; ": expected 64 hex characters, got "; pretty (String.length hex)])
      else match first_non_hex hex with
           | Some c => Some (plainf ["digest "; quoted d; ": '"; String c EmptyString; "' is not lowercase hex"])
           | None => None
           end
  end.

Definition valid (d : string) : Prop := Validate d = None.

Definition Short (d : string) : string :=
  match cut_first colon d with
  | Some (algo, hex) =>
      if (String.length hex <? 12)%nat then d else words [algo; ":"; String.substring 0 12 hex]
  | None => d
  end.

Record Platform := mkPlatform {
  pf_OS : string;
  pf_Architecture : string;
  pf_Variant : string;
  pf_OSVersion : string;
  pf_OSFeatures : list string }.

Record Descriptor := mkDescriptor {
  d_MediaType : string;
  d_Digest : string;
  d_Size : Z;
  d_ArtifactType : string;
  d_Annotations : gmap string string;
  d_Platform : option Platform }.

#[export] Instance Descriptor_eta : Eta Descriptor := λ r,
  mkDescriptor (d_MediaType r) (d_Digest r) (d_Size r) (d_ArtifactType r) (d_Annotations r) (d_Platform r).

Definition MediaTypeOCIIndex : string := "application/vnd.oci.image.index.v1+json".
Definition MediaTypeOCIManifest : string := "application/vnd.oci.image.manifest.v1+json".
Definition MediaTypeDockerList : string := "application/vnd.docker.distribution.manifest.list.v2+json".

Definition IsIndex (mediaType : string) : bool :=
  String.eqb mediaType MediaTypeOCIIndex || String.eqb mediaType MediaTypeDockerList.

(* -------------------------------------------------------------------- *)
(** ** A repository *)

(** The capabilities its readers use; a repository may not list tags. *)
Record Repository := mkRepository {
  ResolveTag : string → Fault + Descriptor;
  FetchManifest : string → Fault + (Descriptor * string);
  ListTags : option (string → Z → Fault + (list string * string)) }.

(** What a reader relies on: what is served at a digest has that digest, and
    every address that comes back is well formed. *)
Class Verified (r : Repository) : Prop := {
  fetched_as_asked ref d raw : valid ref → FetchManifest r ref = inr (d, raw) → d_Digest d = ref;
  fetched_valid ref d raw : FetchManifest r ref = inr (d, raw) → valid (d_Digest d);
  resolved_valid tag d : ResolveTag r tag = inr d → valid (d_Digest d) }.

(* -------------------------------------------------------------------- *)
(** ** The generic client *)

(** An HTTP answer: the status, the headers as parsed, what registryErrorDetail
    reads in an error's body, and the body or the error reading it. *)
Record Response := mkResponse {
  rs_StatusCode : Z;
  rs_ContentType : string;
  rs_ContentDigest : string;
  rs_ContentLength : option Z;
  rs_RetryAfter : Z;
  rs_Detail : string;
  rs_Body : Fault + string }.

(** 8 << 20 *)
Definition maxManifestBytes : Z := 8388608.

Section client.
Context (name : string) (sha256 : string → string) (head get : string → Fault + Response).

Definition NewDigestFromBytes (raw : string) : string := words ["sha256:"; sha256 raw].

Definition wrap (op ref : string) (status : Z) (resp : option Response) (err : option Fault) : Fault :=
  raise (mkFailure op name ref status (from_option rs_RetryAfter 0 resp) (from_option rs_Detail "" resp) err).

Definition content_type (resp : Response) : string :=
  if String.eqb (rs_ContentType resp) "" then MediaTypeOCIManifest else rs_ContentType resp.

Definition descriptorFromHeaders (resp : Response) : Fault + Descriptor :=
  let dgst := rs_ContentDigest resp in
  if String.eqb dgst "" then
    inl (mkFault (words [cause_text ErrMalformedResponse; ": response has no Docker-Content-Digest header"])
           [ErrMalformedResponse])
  else match Validate dgst with
  | Some err => inl (wrap2 (sentinel ErrMalformedResponse) err)
  | None => inr (mkDescriptor (content_type resp) dgst (default 0 (rs_ContentLength resp)) "" ∅ None)
  end.

Definition resolve_tag (tag : string) : Fault + Descriptor :=
  if String.eqb tag "" then inl (plainf ["tag is required"])
  else match head tag with
  | inl err => inl (wrap "resolve tag" tag 0 None (Some (transportError err)))
  | inr resp =>
      if negb (rs_StatusCode resp =? 200)
      then inl (wrap "resolve tag" tag (rs_StatusCode resp) (Some resp)
                  (sentinel <$> ClassifyStatus (rs_StatusCode resp)))
      else match descriptorFromHeaders resp with
      | inl err => inl (wrap "resolve tag" tag (rs_StatusCode resp) None (Some err))
      | inr desc => inr desc
      end
  end.

Definition mismatch (who claimed actual : string) : Fault :=
  mkFault (words [cause_text ErrDigestMismatch; ": "; who; " "; Short claimed; ", content hashes to "; Short actual])
    [ErrDigestMismatch].

Definition fetch_manifest (ref : string) : Fault + (Descriptor * string) :=
  if String.eqb ref "" then inl (plainf ["reference is required"])
  else match get ref with
  | inl err => inl (wrap "fetch manifest" ref 0 None (Some (transportError err)))
  | inr resp =>
      let fail := wrap "fetch manifest" ref (rs_StatusCode resp) None in
      if negb (rs_StatusCode resp =? 200)
      then inl (wrap "fetch manifest" ref (rs_StatusCode resp) (Some resp)
                  (sentinel <$> ClassifyStatus (rs_StatusCode resp)))
      else match rs_Body resp with
      | inl err => inl (fail (Some (transportError err)))
      | inr raw =>
          let actual := NewDigestFromBytes raw in
          let claimed := rs_ContentDigest resp in
          if maxManifestBytes <? Z.of_nat (String.length raw) then
            inl (fail (Some (mkFault (words [cause_text ErrMalformedResponse; ": manifest exceeds ";
                                             pretty maxManifestBytes; " bytes"]) [ErrMalformedResponse])))
          else if negb (String.eqb claimed "") && negb (String.eqb claimed actual)
          then inl (fail (Some (mismatch "registry claimed" claimed actual)))
          else if has_char colon ref && bool_decide (Validate ref = None) && negb (String.eqb ref actual)
          then inl (fail (Some (mismatch "requested" ref actual)))
          else inr (mkDescriptor (content_type resp) actual (Z.of_nat (String.length raw)) "" ∅ None, raw)
      end
  end.

Definition client (list : option (string → Z → Fault + (list string * string))) : Repository :=
  mkRepository resolve_tag fetch_manifest list.
End client.

(** The tags of a listing's pages, each once; a page that fails fails the list. *)
Fixpoint list_pages (pages : nat) (lister : string → Z → Fault + (list string * string))
    (last : string) (all : list string) (seen : gset string) : Fault + list string :=
  match pages with
  | O => inr all
  | S pages =>
      match lister last 200 with
      | inl err => inl err
      | inr (tags, next) =>
          let all := all ++ firsts id seen tags in
          if String.eqb next "" || String.eqb next last then inr all
          else list_pages pages lister next all (list_to_set tags ∪ seen)
      end
  end.

Definition ListAllTags (lister : string → Z → Fault + (list string * string)) (maxPages : Z)
    : Fault + list string :=
  list_pages (Z.to_nat (if maxPages <=? 0 then 1000 else maxPages)) lister "" [] ∅.

(* -------------------------------------------------------------------- *)
(** ** What the client promises *)

Lemma valid_has_colon d : valid d → has_char colon d = true.
Proof.
  unfold valid, Validate. destruct (cut_first colon d) as [[a b]|] eqn:E; [|done]. intros _.
  apply cut_first_Some in E as [-> _]. by rewrite has_char_app; simpl; rewrite orb_true_r.
Qed.

Lemma descriptorFromHeaders_valid resp d : descriptorFromHeaders resp = inr d → valid (d_Digest d).
Proof.
  unfold descriptorFromHeaders. destruct (String.eqb _ _); [done|].
  destruct (Validate _) eqn:E; [done|]. by intros [= <-].
Qed.

Section client_facts.
Context (name : string) (sha256 : string → string) (head get : string → Fault + Response).

(** A manifest the client accepts, and why. *)
Record accepted (ref : string) (resp : Response) (raw : string) : Prop := {
  ac_ref : ref ≠ "";
  ac_status : rs_StatusCode resp = 200;
  ac_body : rs_Body resp = inr raw;
  ac_size : Z.of_nat (String.length raw) ≤ maxManifestBytes;
  ac_claim : rs_ContentDigest resp = "" ∨ rs_ContentDigest resp = NewDigestFromBytes sha256 raw;
  ac_asked : valid ref → ref = NewDigestFromBytes sha256 raw }.

Lemma fetch_manifest_inr ref d raw :
  fetch_manifest name sha256 get ref = inr (d, raw) ↔
  ∃ resp, get ref = inr resp ∧ accepted ref resp raw ∧
    d = mkDescriptor (content_type resp) (NewDigestFromBytes sha256 raw) (Z.of_nat (String.length raw)) "" ∅ None.
Proof.
  unfold fetch_manifest. destruct (String.eqb_spec ref "") as [->|Hr].
  { split; [done|]. intros (? & ? & [] & ?). done. }
  destruct (get ref) as [err|resp]; [split; [done|naive_solver]|].
  destruct (Z.eqb_spec (rs_StatusCode resp) 200) as [Hs|Hs]; simpl.
  2:{ split; [done|]. intros (? & [= <-] & [] & ?). done. }
  destruct (rs_Body resp) as [err|raw'] eqn:Hb.
  { split; [done|]. intros (? & [= <-] & [? ? E] & ?). by rewrite Hb in E. }
  destruct (Z.ltb_spec maxManifestBytes (Z.of_nat (String.length raw'))) as [Hl|Hl].
  { split; [done|]. intros (? & [= <-] & [? ? E ?] & ?). rewrite Hb in E. injection E as ->. lia. }
  destruct (negb (String.eqb (rs_ContentDigest resp) "") && _) eqn:Hc.
  { apply andb_true_iff in Hc as [H1 H2]. apply negb_true_iff, String.eqb_neq in H1, H2.
    split; [done|]. intros (? & [= <-] & [? ? E ? [|]] & ?); [done|]. rewrite Hb in E. by injection E as ->. }
  destruct (has_char colon ref && _ && _) eqn:Ha.
  { apply andb_true_iff in Ha as [[_ H1]%andb_true_iff H2]. apply bool_decide_eq_true in H1.
    apply negb_true_iff, String.eqb_neq in H2. split; [done|].
    intros (? & [= <-] & [? ? E ? ? Hv] & ?). rewrite Hb in E. injection E as ->. by destruct H2; apply Hv. }
  split.
  - intros [= <- <-]. exists resp. split; [done|]. split; [|done]. constructor; try done.
    + apply andb_false_iff in Hc as [H|H]; apply negb_false_iff, String.eqb_eq in H; auto.
    + intros Hv. rewrite (valid_has_colon _ Hv) in Ha. rewrite bool_decide_eq_true_2 in Ha by done.
      simpl in Ha. by apply negb_false_iff, String.eqb_eq in Ha.
  - intros (? & [= <-] & [? ? E] & ->). rewrite Hb in E. by injection E as ->.
Qed.

(** The client is a repository whose readers are never lied to. *)
#[export] Instance client_verified list :
  (∀ raw, valid (NewDigestFromBytes sha256 raw)) → Verified (client name sha256 head get list).
Proof.
  intros Hsha. constructor; simpl.
  - intros ref d raw Hv (resp & _ & [] & ->)%fetch_manifest_inr. simpl. symmetry. auto.
  - intros ref d raw (resp & _ & _ & ->)%fetch_manifest_inr. apply Hsha.
  - intros tag d. unfold resolve_tag. destruct (String.eqb tag ""); [done|].
    destruct (head tag) as [|resp]; [done|]. destruct (negb _); [done|].
    destruct (descriptorFromHeaders resp) eqn:E; [done|]. intros [= ->].
    by eapply descriptorFromHeaders_valid.
Qed.

Lemma Is_raise e c : Is (raise e) c = match fa_Err e with Some err => Is err c | None => false end.
Proof. unfold Is, raise. simpl. by destruct (fa_Err e). Qed.

Lemma ClassOf_raise e : ClassOf (Some (raise e)) = ClassOf (fa_Err e).
Proof. unfold ClassOf. rewrite !Is_raise. by destruct (fa_Err e). Qed.

(** The class of an answer that is not 200. *)
Definition status_class (s : Z) : Class :=
  if s =? 404 then ClassNotFound
  else if (s =? 401) || (s =? 403) then ClassAuth
  else if s =? 429 then ClassRateLimited
  else if 500 <=? s then ClassUnavailable
  else if 400 <=? s then ClassUnsupported else ClassUnclassified.

Lemma status_class_sentinel s : ClassOf (sentinel <$> ClassifyStatus s) = status_class s.
Proof.
  unfold ClassifyStatus, status_class. destruct (s =? 404); [done|].
  destruct (s =? 401); [done|]. destruct (s =? 403); [done|]. simpl. destruct (s =? 429); [done|].
  destruct (500 <=? s); [done|]. by destruct (400 <=? s).
Qed.

(** The class of a failure on the way to the server: the one it has, if it has
    one; that of a cancelled or expired context is left alone; else a time-out
    if the network says so, and an unavailable registry. *)
Definition transport_class (err : Fault) : Class :=
  if bool_decide (ClassOf (Some err) = ClassUnclassified) then
    if Is err Canceled || Is err DeadlineExceeded then ClassUnclassified
    else if Is err NetTimeout then ClassTimeout else ClassUnavailable
  else ClassOf (Some err).

Lemma ClassOf_transportError err : ClassOf (Some (transportError err)) = transport_class err.
Proof.
  unfold transportError, transport_class.
  destruct (Is err Canceled || Is err DeadlineExceeded); [by case_bool_decide|].
  case_bool_decide as Hc; [|done]. cbn [negb].
  assert (∀ c, c ∈ [ErrNotFound; ErrUnauthorized; ErrForbidden; ErrRateLimited; ErrUnavailable; ErrTimeout] →
    Is err c = false) as Hno.
  { unfold ClassOf in Hc. intros c. rewrite !elem_of_cons, elem_of_nil.
    intros [->|[->|[->|[->|[->|[->|[]]]]]]]; apply not_true_iff_false; intros E; rewrite E in Hc;
      repeat (try rewrite orb_true_r in Hc; try case_match; try done). }
  assert (∀ c d m, Is (mkFault m (d :: ft_Wraps err)) c = bool_decide (c = d) || Is err c) as Hcons.
  { intros c d m. unfold Is. simpl. repeat case_bool_decide; set_solver. }
  assert (∀ d m, d ∈ [ErrTimeout; ErrUnavailable] →
    ClassOf (Some (mkFault m (d :: ft_Wraps err))) = ClassOf (Some (sentinel d))) as Hclass.
  { intros d m. rewrite !elem_of_cons, elem_of_nil. intros [->|[->|[]]]; unfold ClassOf; rewrite !Hcons;
      rewrite (Hno ErrNotFound), (Hno ErrUnauthorized), (Hno ErrForbidden), (Hno ErrRateLimited),
        (Hno ErrUnavailable), ?(Hno ErrTimeout) by set_solver; reflexivity. }
  destruct (Is err NetTimeout); apply Hclass; set_solver.
Qed.

(** Why a manifest is refused, and the class of the refusal. *)
Inductive refused (ref : string) : Class → Prop :=
  | refused_unreached err : get ref = inl err → refused ref (transport_class err)
  | refused_status resp : get ref = inr resp → rs_StatusCode resp ≠ 200 →
      refused ref (status_class (rs_StatusCode resp))
  | refused_cut resp err : get ref = inr resp → rs_StatusCode resp = 200 → rs_Body resp = inl err →
      refused ref (transport_class err)
  | refused_large resp raw : get ref = inr resp → rs_StatusCode resp = 200 → rs_Body resp = inr raw →
      maxManifestBytes < Z.of_nat (String.length raw) → refused ref ClassMalformed
  | refused_other resp raw : get ref = inr resp → rs_StatusCode resp = 200 → rs_Body resp = inr raw →
      Z.of_nat (String.length raw) ≤ maxManifestBytes →
      (rs_ContentDigest resp ≠ "" ∧ rs_ContentDigest resp ≠ NewDigestFromBytes sha256 raw ∨
       valid ref ∧ ref ≠ NewDigestFromBytes sha256 raw) → refused ref ClassIntegrity.

Lemma ClassOf_wrap op ref s resp err : ClassOf (Some (wrap name op ref s resp err)) = ClassOf err.
Proof. unfold wrap. apply ClassOf_raise. Qed.

Lemma fetch_manifest_inl ref e :
  ref ≠ "" → fetch_manifest name sha256 get ref = inl e → refused ref (ClassOf (Some e)).
Proof.
  unfold fetch_manifest. intros Hr%String.eqb_neq. rewrite Hr.
  destruct (get ref) as [err|resp] eqn:Hg.
  { intros [= <-]. rewrite ClassOf_wrap, ClassOf_transportError. by constructor. }
  destruct (Z.eqb_spec (rs_StatusCode resp) 200) as [Hs|Hs]; cbn [negb].
  2: { intros [= <-]. rewrite ClassOf_wrap, status_class_sentinel. by constructor. }
  destruct (rs_Body resp) as [err|raw] eqn:Hb.
  { intros [= <-]. rewrite ClassOf_wrap, ClassOf_transportError. by eapply refused_cut. }
  destruct (Z.ltb_spec maxManifestBytes (Z.of_nat (String.length raw))) as [Hl|Hl].
  { intros [= <-]. rewrite ClassOf_wrap. by eapply refused_large. }
  destruct (negb (String.eqb (rs_ContentDigest resp) "") && _) eqn:Hc.
  { intros [= <-]. rewrite ClassOf_wrap. apply andb_true_iff in Hc as [H1 H2].
    apply negb_true_iff, String.eqb_neq in H1, H2. eapply refused_other; eauto. }
  destruct (has_char colon ref && _ && _) eqn:Ha; [|done].
  intros [= <-]. rewrite ClassOf_wrap. apply andb_true_iff in Ha as [[_ H1]%andb_true_iff H2].
  apply bool_decide_eq_true in H1. apply negb_true_iff, String.eqb_neq in H2. eapply refused_other; eauto.
Qed.

(** C15. The client returns a manifest exactly when the server answered 200
    with at most 8 MiB whose hash is the digest the headers claim, if they do,
    and the digest that was asked for, if a digest was; and what it returns is
    the descriptor of those bytes.  So it is a repository whose readers are never
    given anything but what they asked for.  Every other answer to a request for
    a reference is a refusal of the class of its cause: a status other than 200
    by its number, a failure of the transport or a body cut short by what the
    error is (unavailable when it says nothing), a manifest over the limit as
    malformed, bytes of another digest as an integrity failure. *)
Theorem client_serves_what_was_asked list :
  (∀ raw, valid (NewDigestFromBytes sha256 raw)) →
  let r := client name sha256 head get list in
  Verified r ∧
  (∀ ref d raw, FetchManifest r ref = inr (d, raw) ↔
    ∃ resp, get ref = inr resp ∧ accepted ref resp raw ∧
      d = mkDescriptor (content_type resp) (NewDigestFromBytes sha256 raw) (Z.of_nat (String.length raw)) "" ∅ None) ∧
  (∀ ref e, ref ≠ "" → FetchManifest r ref = inl e → refused ref (ClassOf (Some e))).
Proof.
  intros Hsha. split; [by apply client_verified|]. split; [intros; apply fetch_manifest_inr|].
  intros ref e. apply fetch_manifest_inl.
Qed.

(** An answer other than 200 is a refusal of one class, whichever way it
    was asked: 404 is missing, 401 and 403 are credentials, 429 is a rate limit,
    5xx is the registry, and it is retried unless it is one of the other 4xx. *)
Theorem refusals_are_classified ref resp :
  ref ≠ "" → rs_StatusCode resp ≠ 200 →
  let s := rs_StatusCode resp in
  let c := if s =? 404 then ClassNotFound
           else if (s =? 401) || (s =? 403) then ClassAuth
           else if s =? 429 then ClassRateLimited
           else if 500 <=? s then ClassUnavailable
           else if 400 <=? s then ClassUnsupported else ClassUnclassified in
  ∀ e, (get ref = inr resp ∧ fetch_manifest name sha256 get ref = inl e) ∨
       (head ref = inr resp ∧ resolve_tag name head ref = inl e) →
  ClassOf (Some e) = c ∧ (Retryable (Some e) = true ↔ s = 429 ∨ 500 <= s ∨ s < 400).
Proof.
  intros Hr%String.eqb_neq Hs%Z.eqb_neq s c e He.
  assert (e = wrap name "fetch manifest" ref s (Some resp) (sentinel <$> ClassifyStatus s) ∨
          e = wrap name "resolve tag" ref s (Some resp) (sentinel <$> ClassifyStatus s)) as Heq.
  { destruct He as [[Hg He]|[Hg He]]; [left; unfold fetch_manifest in He|right; unfold resolve_tag in He];
      rewrite Hr, Hg in He; fold s in He, Hs; rewrite Hs in He; simpl in He; by injection He as <-. }
  assert (ClassOf (Some e) = ClassOf (sentinel <$> ClassifyStatus s)) as Hc
    by (destruct Heq as [-> | ->]; apply ClassOf_raise).
  unfold Retryable. rewrite Hc. unfold c, ClassifyStatus. clear.
  destruct (Z.eqb_spec s 404); [split; [done|split; [done|lia]]|].
  destruct (Z.eqb_spec s 401); [split; [done|split; [done|lia]]|].
  destruct (Z.eqb_spec s 403); [split; [done|split; [done|lia]]|].
  destruct (Z.eqb_spec s 429); [split; [done|split; [auto|done]]|].
  destruct (Z.leb_spec 500 s); [split; [done|split; [auto|done]]|].
  destruct (Z.leb_spec 400 s); (split; [done|]); (split; [|]); try done; try lia; auto.
Qed.
End client_facts.

(* -------------------------------------------------------------------- *)
(** ** Examples *)

Definition toy_get (ref : string) : Fault + Response :=
  if String.eqb ref "gone" then inr (mkResponse 404 "" "" None 0 "" (inr ""))
  else inr (mkResponse 200 "" "" None 0 "" (inr "{}")).

Definition zeros : string := Eval vm_compute in String.concat "" (replicate 64 "0").

(** A hash of the right shape, that ignores its input. *)
Definition flat_hash (raw : string) : string := zeros.

Lemma client_serves_what_was_asked_witness :
  Verified (client "near/orbs" flat_hash toy_get toy_get None) ∧
  FetchManifest (client "near/orbs" flat_hash toy_get toy_get None) "1.0" =
    inr (mkDescriptor MediaTypeOCIManifest (words ["sha256:"; zeros]) 2 "" ∅ None, "{}").
Proof.
  split; [|vm_compute; reflexivity].
  exact (proj1 (client_serves_what_was_asked "near/orbs" flat_hash toy_get toy_get None (λ _, eq_refl))).
Defined.

Lemma refusals_are_classified_witness :
  ClassOf (Some (wrap "near/orbs" "resolve tag" "gone" 404 (Some (mkResponse 404 "" "" None 0 "" (inr "")))
                   (Some (sentinel ErrNotFound)))) = ClassNotFound.
Proof.
  apply (refusals_are_classified "near/orbs" flat_hash toy_get toy_get "gone"
           (mkResponse 404 "" "" None 0 "" (inr ""))); [done|done|].
  right. split; vm_compute; reflexivity.
Defined.
