(* ===== verification/Tree.v ===== *)
(** * A package's manifest tree

    internal/oci: tree.go (one manifest's record, the listing discovery keeps,
    the transfer size), walk.go (the breadth-first walk, strict or tolerant of
    children the registry will not serve) and kind.go.  The repository is a
    [Repository] of Registry.v; the JSON decoder and the timestamp parser are
    arguments.  A level is fetched in parallel and recorded in level order, so the
    walk's result does not depend on the concurrency; what does, the order of its
    progress reports, is in TreeDiff.v. *)

From S2P Require Import Prelude GoStrings Registry.
Open Scope Z_scope.

(* -------------------------------------------------------------------- *)
(** ** What an artifact is *)

Definition KindIndex : string := "index".
Definition KindImage : string := "image".
Definition KindChart : string := "chart".
Definition KindFile : string := "file".
Definition KindSignature : string := "signature".
Definition KindArtifact : string := "artifact".

Definition Classify (mediaType artifactType configMediaType : string) : string :=
  let artifactType := if String.eqb artifactType "" then configMediaType else artifactType in
  if IsIndex mediaType then KindIndex
  else if Contains artifactType "helm" || Contains mediaType "helm" then KindChart
  else if Contains artifactType "signature" || Contains artifactType "sig" then KindSignature
  else if Contains artifactType "generic" then KindFile
  else if String.eqb mediaType "" then KindArtifact
  else KindImage.

Definition KindOrder : list string :=
  [KindIndex; KindImage; KindChart; KindFile; KindSignature; KindArtifact].

Definition RankOf (kind : string) : nat :=
  match list_find (λ k, k = kind) KindOrder with
  | Some (i, _) => i
  | None => length KindOrder
  end.

(* -------------------------------------------------------------------- *)
(** ** The tree *)

Inductive BlobKind := BlobConfig | BlobLayer.

#[export] Instance BlobKind_eq_dec : EqDecision BlobKind.
Proof. solve_decision. Defined.

Record BlobRef := mkBlobRef { bl_Descriptor : Descriptor; bl_Kind : BlobKind; bl_Ordinal : Z }.

(** A manifest of the tree: [None] bytes mean listed and not fetched. *)
Record Artifact := mkArtifact {
  at_Descriptor : Descriptor;
  at_Raw : option string;
  at_Parent : Z;
  at_Depth : Z;
  at_Blobs : list BlobRef }.

Definition at_Digest (a : Artifact) : string := d_Digest (at_Descriptor a).

Definition ConfigMediaType (a : Artifact) : string :=
  match list_find (λ b, bl_Kind b = BlobConfig) (at_Blobs a) with
  | Some (_, b) => d_MediaType (bl_Descriptor b)
  | None => ""
  end.

Record Tree := mkTree {
  tr_Artifacts : list Artifact;
  tr_TotalBytes : option Z;
  tr_BlobCount : option Z;
  tr_PublishedAt : option string }.

Record manifestBody := mkBody {
  mb_MediaType : string;
  mb_ArtifactType : string;
  mb_Config : option Descriptor;
  mb_Layers : list Descriptor;
  mb_Manifests : list Descriptor;
  mb_Annotations : gmap string string }.

(** A manifest an index references, to be walked. *)
Record queuedChild := mkChild { q_desc : Descriptor; q_parent : Z; q_depth : Z }.

Definition maxListedArtifacts : Z := 512.
Definition maxTreeDepth : Z := 4.

(** Later sources win. *)
Definition mergeAnnotations (sources : list (gmap string string)) : gmap string string :=
  foldl (λ out m, m ∪ out) ∅ sources.

(** Each distinct digest once, at the size first seen; the blobs counted. *)
Definition measure_blob (st : Z * Z * gset string) (b : BlobRef) : Z * Z * gset string :=
  let '(bytes, blobs, counted) := st in
  let digest := d_Digest (bl_Descriptor b) in
  if bool_decide (digest ∈ counted) then st
  else (bytes + d_Size (bl_Descriptor b), blobs + 1, {[ digest ]} ∪ counted).

Definition measure_artifact (st : Z * Z * gset string) (a : Artifact) : Z * Z * gset string :=
  let '(bytes, blobs, counted) := st in
  let st := if bool_decide (at_Digest a ∈ counted) then st
            else (bytes + Z.of_nat (String.length (default "" (at_Raw a))), blobs, {[ at_Digest a ]} ∪ counted) in
  foldl measure_blob st (at_Blobs a).

Definition measure (artifacts : list Artifact) : option Z * option Z :=
  if bool_decide (Exists (λ a, at_Raw a = None) artifacts) then (None, None)
  else let '(bytes, blobs, _) := foldl measure_artifact (0, 0, ∅) artifacts in (Some bytes, Some blobs).

Section walk.
Context (unmarshal : string → string + manifestBody) (rfc3339 : string → option string).
Context (repo : Repository).

Definition AnnotationCreated : string := "org.opencontainers.image.created".

(** The root's build time, where it is a timestamp, as one in UTC. *)
Definition publishedAt (artifacts : list Artifact) : option string :=
  match artifacts with
  | [] => None
  | root :: _ =>
      v ← d_Annotations (at_Descriptor root) !! AnnotationCreated;
      if String.eqb (TrimSpace v) "" then None else rfc3339 (TrimSpace v)
  end.

(** What a fetched manifest is, from what named it, what was served and what
    it says itself. *)
Definition describe (from desc : Descriptor) (body : manifestBody) : Descriptor :=
  mkDescriptor
    (if negb (String.eqb (mb_MediaType body) "") then mb_MediaType body
     else if String.eqb (d_MediaType desc) "" then d_MediaType from else d_MediaType desc)
    (d_Digest desc) (d_Size desc)
    (if negb (String.eqb (mb_ArtifactType body) "") then mb_ArtifactType body else d_ArtifactType desc)
    (mergeAnnotations [d_Annotations from; d_Annotations desc; mb_Annotations body])
    (match d_Platform desc with Some p => Some p | None => d_Platform from end).

(** The first malformed digest of a list, with its position. *)
Definition first_invalid (l : list Descriptor) : option (nat * Fault) :=
  head (omap (λ ix : nat * Descriptor, (λ err, (ix.1, err)) <$> Validate (d_Digest ix.2)) (imap pair l)).

(** The config and the layers of a manifest that is not an index. *)
Definition blobs_of (desc : Descriptor) (body : manifestBody) : Fault + list BlobRef :=
  let layers (config : list BlobRef) :=
    match first_invalid (mb_Layers body) with
    | Some (i, err) => inl (wrapf ["manifest "; Short (d_Digest desc); " layer "; pretty i] err)
    | None => inr (config ++ imap (λ i layer, mkBlobRef layer BlobLayer (Z.of_nat i)) (mb_Layers body))
    end in
  match mb_Config body with
  | Some config =>
      if String.eqb (d_Digest config) "" then layers []
      else match Validate (d_Digest config) with
      | Some err => inl (wrapf ["manifest "; Short (d_Digest desc); " config"] err)
      | None => layers [mkBlobRef config BlobConfig 0]
      end
  | None => layers []
  end.

(** Records a fetched manifest: its artifact and the children to walk. *)
Definition appendArtifact (t : list Artifact) (from desc : Descriptor) (raw : string) (parent depth : Z)
    : Fault + (list Artifact * list queuedChild) :=
  match unmarshal raw with
  | inl err => inl (mkFault (words ["parse manifest "; Short (d_Digest desc); ": ";
                                    cause_text ErrMalformedResponse; ": "; err]) [ErrMalformedResponse])
  | inr body =>
      let desc := describe from desc body in
      if IsIndex (d_MediaType desc) then
        if maxTreeDepth <=? depth
        then inl (plainf ["manifest Tree deeper than "; pretty maxTreeDepth; " levels"])
        else match first_invalid (mb_Manifests body) with
        | Some (_, err) => inl (wrapf ["index "; Short (d_Digest desc)] err)
        | None => inr (t ++ [mkArtifact desc (Some raw) parent depth []],
                       (λ child, mkChild child (Z.of_nat (length t)) (depth + 1)) <$> mb_Manifests body)
        end
      else match blobs_of desc body with
      | inl err => inl err
      | inr blobs => inr (t ++ [mkArtifact desc (Some raw) parent depth blobs], [])
      end
  end.

(* -------------------------------------------------------------------- *)
(** ** The listing discovery keeps *)

Definition q_digest (q : queuedChild) : string := d_Digest (q_desc q).

Definition listed (q : queuedChild) : Artifact := mkArtifact (q_desc q) None (q_parent q) (q_depth q) [].

Definition finish (t : list Artifact) (published : option string) : Tree :=
  mkTree t (measure t).1 (measure t).2 published.

(** The tag's own manifest, and what it lists without fetching it. *)
Definition FetchRoot (root : Descriptor) : Fault + Tree :=
  match FetchManifest repo (d_Digest root) with
  | inl err => inl (wrapf ["fetch manifest "; Short (d_Digest root)] err)
  | inr (desc, raw) =>
      match appendArtifact [] root desc raw (-1) 0 with
      | inl err => inl err
      | inr (t, children) =>
          if maxListedArtifacts <? Z.of_nat (length children)
          then inl (plainf ["index lists "; pretty (length children); " artifacts, more than the ";
                            pretty maxListedArtifacts; " cap"])
          else let t := t ++ (listed <$> firsts q_digest (list_to_set (at_Digest <$> t)) children) in
               inr (finish t (publishedAt t))
      end
  end.

(* -------------------------------------------------------------------- *)
(** ** The walk *)

(** A manifest an index references and the registry would not serve. *)
Record Missing := mkMissing {
  ms_Descriptor : Descriptor;
  ms_Parent : Z;
  ms_Depth : Z;
  ms_Err : Fault }.

(** What the walk has so far; [wk_levels] is, for each level, what had been
    fetched before it and how many it asks for. *)
Record walking := mkWalking {
  wk_tree : list Artifact;
  wk_missing : list Missing;
  wk_fetched : Z;
  wk_levels : list (Z * Z) }.

#[export] Instance walking_eta : Eta walking := λ r,
  mkWalking (wk_tree r) (wk_missing r) (wk_fetched r) (wk_levels r).

Definition lost (q : queuedChild) (err : Fault) : Missing :=
  mkMissing (q_desc q) (q_parent q) (q_depth q) err.

(** A level's answers, in order: the walk so far with its error, or with the
    next level. *)
Fixpoint collect (tolerant : bool) (level : list queuedChild) (w : walking) (next : list queuedChild)
    : (walking * Fault) + (walking * list queuedChild) :=
  match level with
  | [] => inr (w, next)
  | q :: level =>
      match FetchManifest repo (q_digest q) with
      | inl err =>
          if negb tolerant || (q_parent q <? 0)
          then inl (w, wrapf ["fetch manifest "; Short (q_digest q)] err)
          else collect tolerant level (w <| wk_missing ::= (.++ [lost q err]) |>) next
      | inr (desc, raw) =>
          let w := w <| wk_fetched ::= Z.add 1 |> in
          match appendArtifact (wk_tree w) (q_desc q) desc raw (q_parent q) (q_depth q) with
          | inl err =>
              if negb tolerant then inl (w, err)
              else collect tolerant level (w <| wk_missing ::= (.++ [lost q err]) |>) next
          | inr (t, children) => collect tolerant level (w <| wk_tree := t |>) (next ++ children)
          end
      end
  end.

Fixpoint walk_levels (fuel : nat) (tolerant : bool) (level : list queuedChild) (seen : gset string)
    (w : walking) : option ((walking * Fault) + walking) :=
  match fuel with
  | O => None
  | S fuel =>
      let pending := firsts q_digest seen level in
      match pending with
      | [] => Some (inr w)
      | q :: _ =>
          if maxListedArtifacts <? Z.of_nat (length (wk_tree w)) + Z.of_nat (length pending)
          then Some (inl (w, plainf ["manifest tree exceeds "; pretty maxListedArtifacts; " artifacts"]))
          else if maxTreeDepth <? q_depth q
          then Some (inl (w, plainf ["manifest tree deeper than "; pretty maxTreeDepth; " levels"]))
          else
            let w := w <| wk_levels ::= (.++ [(wk_fetched w, Z.of_nat (length pending))]) |> in
            match collect tolerant pending w [] with
            | inl e => Some (inl e)
            | inr (w, next) =>
                walk_levels fuel tolerant next (list_to_set (q_digest <$> pending) ∪ seen) w
            end
      end
  end.

(** As many rounds as a tree may have levels, and one to see there is no more. *)
Definition walk_fuel : nat := Z.to_nat (maxTreeDepth + 2).

Definition walk (tolerant : bool) (root : Descriptor) : option ((walking * Fault) + walking) :=
  walk_levels walk_fuel tolerant [mkChild root (-1) 0] ∅ (mkWalking [] [] 0 []).

(** The tree, and how many manifests were fetched. *)
Definition Walk (root : Descriptor) : option (Fault + (Tree * Z)) :=
  match walk false root with
  | Some (inr w) => Some (inr (finish (wk_tree w) None, wk_fetched w))
  | Some (inl (_, err)) => Some (inl err)
  | None => None
  end.

(** The tree and what it names that cannot be had. *)
Definition WalkPartial (root : Descriptor) : option (Fault + (Tree * list Missing * Z)) :=
  match walk true root with
  | Some (inr w) => Some (inr (finish (wk_tree w) None, wk_missing w, wk_fetched w))
  | Some (inl (_, err)) => Some (inl err)
  | None => None
  end.
End walk.

(* -------------------------------------------------------------------- *)
(** ** What a walk is *)

Section walked.
Context (unmarshal : string → string + manifestBody) (repo : Repository).

(** What an artifact of the tree says it consists of. *)
Definition children_of (a : Artifact) : list Descriptor :=
  match unmarshal (default "" (at_Raw a)) with
  | inr body => if IsIndex (d_MediaType (at_Descriptor a)) then mb_Manifests body else []
  | inl _ => []
  end.

(** [a] is what the registry serves at the address [from]. *)
Definition recorded (from : Descriptor) (a : Artifact) : Prop :=
  ∃ desc raw body,
    FetchManifest repo (d_Digest from) = inr (desc, raw) ∧ unmarshal raw = inr body ∧
    at_Raw a = Some raw ∧ at_Descriptor a = describe from desc body ∧
    if IsIndex (d_MediaType (at_Descriptor a))
    then at_Blobs a = [] ∧ Forall (λ d, valid (d_Digest d)) (mb_Manifests body)
    else blobs_of (at_Descriptor a) body = inr (at_Blobs a).

(** The registry does not serve [from], or serves what cannot be a manifest. *)
Definition refused (from : Descriptor) (parent depth : Z) : Prop :=
  match FetchManifest repo (d_Digest from) with
  | inl _ => True
  | inr (desc, raw) => ∃ err, appendArtifact unmarshal [] from desc raw parent depth = inl err
  end.

(** An earlier artifact of the tree lists [from]. *)
Definition named (t : list Artifact) (from : Descriptor) (parent depth : Z) : Prop :=
  ∃ p a, t !! p = Some a ∧ parent = Z.of_nat p ∧ depth = at_Depth a + 1 ∧ from ∈ children_of a.

Definition wk_digests (w : walking) : list string :=
  (at_Digest <$> wk_tree w) ++ (d_Digest ∘ ms_Descriptor <$> wk_missing w).

(** A walk's result, but for what is still [ahead] of it. *)
Record walked (root : Descriptor) (ahead : list string) (w : walking) : Prop := {
  wd_once : NoDup (wk_digests w);
  wd_root a : wk_tree w !! 0%nat = Some a → at_Parent a = -1 ∧ at_Depth a = 0 ∧ recorded root a;
  wd_listed i a : wk_tree w !! S i = Some a →
    ∃ from, named (take (S i) (wk_tree w)) from (at_Parent a) (at_Depth a) ∧ recorded from a;
  wd_lost m : m ∈ wk_missing w → refused (ms_Descriptor m) (ms_Parent m) (ms_Depth m) ∧
    (ms_Descriptor m = root ∧ ms_Parent m = -1 ∧ ms_Depth m = 0 ∧ wk_tree w = [] ∨ named (wk_tree w) (ms_Descriptor m) (ms_Parent m) (ms_Depth m));
  wd_closed a d : a ∈ wk_tree w → d ∈ children_of a → d_Digest d ∈ wk_digests w ∨ d_Digest d ∈ ahead;
  wd_depth a : a ∈ wk_tree w → 0 <= at_Depth a <= maxTreeDepth;
  wd_fetched : wk_fetched w <= Z.of_nat (length (wk_digests w)) }.

Definition waiting (root : Descriptor) (w : walking) (queue : list queuedChild) : Prop :=
  (queue = [mkChild root (-1) 0] ∧ wk_tree w = [] ∧ wk_missing w = []) ∨
  (wk_digests w ≠ [] ∧ ∀ q, q ∈ queue → named (wk_tree w) (q_desc q) (q_parent q) (q_depth q)).

Lemma first_invalid_None l : first_invalid l = None → Forall (λ d, valid (d_Digest d)) l.
Proof.
  unfold first_invalid. intros H. apply Forall_forall. intros d [i Hi]%list_elem_of_lookup.
  unfold valid. destruct (Validate (d_Digest d)) as [err|] eqn:E; [|done].
  assert ((i, err) ∈ omap (λ ix : nat * Descriptor, (λ err, (ix.1, err)) <$> Validate (d_Digest ix.2))
                       (imap pair l)) as Hin.
  { apply list_elem_of_omap. exists (i, d). simpl. rewrite E. split; [|done].
    apply list_elem_of_lookup. exists i. by rewrite list_lookup_imap, Hi. }
  destruct (omap _ _); [by apply elem_of_nil in Hin|done].
Qed.

Lemma children_of_eq a raw body :
  at_Raw a = Some raw → unmarshal raw = inr body →
  children_of a = if IsIndex (d_MediaType (at_Descriptor a)) then mb_Manifests body else [].
Proof. unfold children_of. intros -> Hu. simpl. by rewrite Hu. Qed.

Lemma append_recorded t from desc raw parent depth t' children :
  FetchManifest repo (d_Digest from) = inr (desc, raw) →
  appendArtifact unmarshal t from desc raw parent depth = inr (t', children) →
  ∃ a, t' = t ++ [a] ∧ at_Parent a = parent ∧ at_Depth a = depth ∧ recorded from a ∧
    at_Digest a = d_Digest desc ∧
    children = (λ d, mkChild d (Z.of_nat (length t)) (depth + 1)) <$> children_of a ∧
    Forall (λ d, valid (d_Digest d)) (children_of a) ∧ (children ≠ [] → depth < maxTreeDepth).
Proof.
  unfold appendArtifact. intros Hf. destruct (unmarshal raw) as [|body] eqn:Hu; [done|].
  destruct (IsIndex (d_MediaType (describe from desc body))) eqn:Hi.
  - destruct (Z.leb_spec maxTreeDepth depth); [done|].
    destruct (first_invalid (mb_Manifests body)) as [[? ?]|] eqn:Hv; [done|]. intros [= <- <-].
    apply first_invalid_None in Hv. set (a := mkArtifact _ _ _ _ _).
    assert (IsIndex (d_MediaType (at_Descriptor a)) = true) as Ha by exact Hi.
    pose proof (children_of_eq a raw body eq_refl Hu) as Hc. rewrite Ha in Hc. rewrite <-Hc.
    exists a. split_and!; try done; [|by rewrite Hc]. exists desc, raw, body. by rewrite Ha.
  - destruct (blobs_of _ body) as [|blobs] eqn:Hb; [done|]. intros [= <- <-].
    set (a := mkArtifact _ _ _ _ _).
    assert (IsIndex (d_MediaType (at_Descriptor a)) = false) as Ha by exact Hi.
    pose proof (children_of_eq a raw body eq_refl Hu) as Hc. rewrite Ha in Hc.
    exists a. rewrite Hc. split_and!; try done. exists desc, raw, body. by rewrite Ha.
Qed.

Lemma append_refused t from desc raw parent depth err :
  FetchManifest repo (d_Digest from) = inr (desc, raw) →
  appendArtifact unmarshal t from desc raw parent depth = inl err → refused from parent depth.
Proof.
  unfold refused. intros ->. unfold appendArtifact. destruct (unmarshal raw); [eauto|].
  destruct (IsIndex _).
  - destruct (_ <=? _); [eauto|]. destruct (first_invalid _) as [[]|]; [eauto|done].
  - destruct (blobs_of _ _); [eauto|done].
Qed.

Lemma named_app t t' from parent depth : named t from parent depth → named (t ++ t') from parent depth.
Proof.
  intros (p & a & Hp & ?). exists p, a. split; [|done]. by apply lookup_app_l_Some.
Qed.

(** One more artifact, or one more that cannot be had. *)
Lemma walked_record root q ahead w desc raw t children `{!Verified repo} :
  walked root (q_digest q :: ahead) w → waiting root w [q] → valid (q_digest q) →
  q_digest q ∉ wk_digests w → 0 <= q_depth q <= maxTreeDepth → FetchManifest repo (q_digest q) = inr (desc, raw) →
  appendArtifact unmarshal (wk_tree w) (q_desc q) desc raw (q_parent q) (q_depth q) = inr (t, children) →
  let w' := w <| wk_fetched ::= Z.add 1 |> <| wk_tree := t |> in
  walked root (ahead ++ (q_digest <$> children)) w' ∧ waiting root w' children ∧
  wk_digests w' ≡ₚ q_digest q :: wk_digests w ∧
  (∃ a, t = wk_tree w ++ [a]) ∧ Forall (λ c, valid (q_digest c) ∧ q_depth c = q_depth q + 1) children.
Proof.
  intros [Ho Hr Hl Hm Hc Hdp Hn] Hwait Hv Hq Hqd Hf Happ.
  pose proof (fetched_as_asked _ _ _ Hv Hf) as Hdesc.
  destruct (append_recorded _ _ _ _ _ _ _ _ Hf Happ) as (a & -> & Hp & Hd & Hrec & Hdig & Hch & Hval & _).
  set (w' := _ <| wk_tree := _ |>). simpl.
  assert (wk_digests w' ≡ₚ q_digest q :: wk_digests w) as Hperm.
  { unfold wk_digests, w'. cbn [wk_tree wk_missing walking_eta update_field].
    rewrite fmap_app, list_fmap_singleton, Hdig, Hdesc, <-(assoc (++)). symmetry. apply Permutation_middle. }
  assert (∀ c, c ∈ children → named (wk_tree w') (q_desc c) (q_parent c) (q_depth c)) as Hnamed.
  { intros c Hin. rewrite Hch in Hin. apply list_elem_of_fmap in Hin as (d & -> & Hd'). simpl.
    exists (length (wk_tree w)), a. unfold w'. simpl. rewrite lookup_app_r, Nat.sub_diag by done.
    by rewrite Hd. }
  split; [|split; [right; split; [|done]; intros E; rewrite E in Hperm; by apply Permutation_nil_cons in Hperm|]].
  - constructor.
    + rewrite Hperm. by constructor.
    + intros a0. unfold w'. simpl. destruct Hwait as [(Hq0 & Ht & _)|[Hne Hnm]].
      * rewrite Ht. intros [= <-]. injection Hq0 as ->. by rewrite Hp, Hd.
      * destruct (wk_tree w) as [|b t0] eqn:Et; [|exact (Hr a0)].
        destruct (Hnm q) as (p & b & Hb & _); [left|]. by rewrite lookup_nil in Hb.
    + intros i a0. unfold w'. simpl. intros Hi.
      destruct (decide (S i < length (wk_tree w))%nat) as [Hlt|Hge].
      * rewrite lookup_app_l in Hi by done. rewrite take_app_le by lia. by apply Hl.
      * assert (S i = length (wk_tree w)) as Hlen.
        { apply lookup_lt_Some in Hi. rewrite length_app in Hi. simpl in Hi. lia. }
        rewrite Hlen in Hi |- *. rewrite list_lookup_middle in Hi by done. injection Hi as <-.
        rewrite take_app_length. exists (q_desc q). rewrite Hp, Hd. split; [|done].
        destruct Hwait as [(_ & Ht & _)|[_ Hnm]]; [by rewrite Ht in Hlen|]. apply Hnm. left.
    + intros m Hin. change (m ∈ wk_missing w) in Hin. destruct (Hm m Hin) as [? Hmn]. split; [done|]. right.
      destruct Hmn as [(_ & _ & _ & Ht)|Hmn]; [|by apply named_app].
      destruct Hwait as [(_ & _ & Hmis)|[_ Hnm]]; [by rewrite Hmis in Hin; apply elem_of_nil in Hin|].
      destruct (Hnm q) as (p & b & Hb & _); [left|]. by rewrite Ht, lookup_nil in Hb.
    + intros b d Hb Hin. unfold w' in Hb. simpl in Hb.
      rewrite Hperm, elem_of_cons, elem_of_app. apply elem_of_app in Hb as [Hb|Hb%list_elem_of_singleton].
      * destruct (Hc _ _ Hb Hin) as [?|[?|?]%elem_of_cons]; auto.
      * subst b. right. right. apply list_elem_of_fmap. exists (mkChild d (Z.of_nat (length (wk_tree w))) (q_depth q + 1)).
        split; [done|]. rewrite Hch. apply list_elem_of_fmap. by exists d.
    + intros b [Hb|Hb%list_elem_of_singleton]%elem_of_app; [by apply Hdp|]. subst b. by rewrite Hd.
    + rewrite Hperm. unfold w'. simpl. lia.
  - split; [done|]. split; [by exists a|]. rewrite Hch. apply Forall_fmap. eapply Forall_impl; [exact Hval|].
    intros d Hd'. by split.
Qed.

Lemma walked_lose root q ahead w w' err :
  walked root (q_digest q :: ahead) w → waiting root w [q] → q_digest q ∉ wk_digests w →
  refused (q_desc q) (q_parent q) (q_depth q) →
  wk_tree w' = wk_tree w → wk_missing w' = wk_missing w ++ [lost q err] →
  wk_fetched w' <= wk_fetched w + 1 →
  walked root ahead w' ∧ wk_digests w' ≡ₚ q_digest q :: wk_digests w.
Proof.
  intros [Ho Hr Hl Hm Hc Hdp Hn] Hwait Hq Href Ht' Hm' Hf'.
  assert (wk_digests w' ≡ₚ q_digest q :: wk_digests w) as Hperm.
  { unfold wk_digests. rewrite Ht', Hm', fmap_app, (assoc (++)), (comm (++)). done. }
  split; [|done]. constructor; rewrite ?Ht', ?Hm'.
  - rewrite Hperm. by constructor.
  - exact Hr.
  - exact Hl.
  - intros m [Hin | ->%list_elem_of_singleton]%elem_of_app; [by apply Hm|]. split; [done|].
    destruct Hwait as [(Hq0 & Ht & _)|[_ Hnm]]; [left; by injection Hq0 as -> |].
    right. apply Hnm. left.
  - intros a d Ha Hd. rewrite Hperm, elem_of_cons. destruct (Hc a d Ha Hd) as [?|[?|?]%elem_of_cons]; auto.
  - exact Hdp.
  - rewrite Hperm. simpl. lia.
Qed.

Lemma waiting_single root w q rest :
  waiting root w (q :: rest) → waiting root w [q] ∧ (rest = [] ∨ wk_digests w ≠ []).
Proof.
  intros [([= -> ->] & ?)|[Hne Hnm]]; [split; [by left|auto]|].
  split; [|auto]. right. split; [done|]. intros q' ->%list_elem_of_singleton. apply Hnm. left.
Qed.

Lemma waiting_grow root w w' t' m' q rest :
  waiting root w (q :: rest) → wk_tree w' = wk_tree w ++ t' → wk_missing w' = wk_missing w ++ m' →
  wk_digests w' ≠ [] → waiting root w' rest.
Proof.
  intros [([= -> ->] & ?)|[Hne Hnm]] Ht Hm Hd; right; (split; [done|]).
  - by intros q ?%elem_of_nil.
  - intros q' Hq'. rewrite Ht. apply named_app, Hnm. by right.
Qed.

Definition queued (w : walking) (q : queuedChild) : Prop :=
  named (wk_tree w) (q_desc q) (q_parent q) (q_depth q).

Lemma queued_grow w w' t' q : wk_tree w' = wk_tree w ++ t' → queued w q → queued w' q.
Proof. unfold queued. intros ->. apply named_app. Qed.

(** A child of the level, to be asked for at the next. *)
Definition child_of (level : list queuedChild) (q : queuedChild) : Prop :=
  valid (q_digest q) ∧ ∃ q0, q0 ∈ level ∧ q_depth q = q_depth q0 + 1.

(** A level's answers recorded, in a tolerant walk or a strict one. *)
Lemma collect_walked tolerant root level next w w' next' `{!Verified repo} :
  walked root ((q_digest <$> level) ++ (q_digest <$> next)) w → waiting root w level →
  (∀ q, q ∈ next → queued w q) →
  NoDup (q_digest <$> level) → (∀ q, q ∈ level → valid (q_digest q) ∧ q_digest q ∉ wk_digests w) →
  (∀ q, q ∈ level → 0 <= q_depth q <= maxTreeDepth) →
  collect unmarshal repo tolerant level w next = inr (w', next') →
  walked root (q_digest <$> next') w' ∧
  (∀ q, q ∈ next' → queued w' q ∧ (q ∈ next ∨ child_of level q)) ∧
  (∀ k, k ∈ wk_digests w' ↔ k ∈ wk_digests w ∨ k ∈ q_digest <$> level) ∧
  (tolerant = false → wk_missing w' = wk_missing w).
Proof.
  revert next w. induction level as [|q level IH]; intros next w Hw Hwait Hnext Hnd Hv Hdp; cbn [collect].
  { intros [= <- <-]. split_and!; try done; [by auto|]. intros k. simpl. rewrite elem_of_nil. tauto. }
  destruct (waiting_single _ _ _ _ Hwait) as [Hq _]. destruct (Hv q) as [Hqv Hqn]; [left|].
  rewrite fmap_cons in Hnd. apply NoDup_cons in Hnd as [Hqd Hnd].
  (* what is left to do once the first answer is in [w1], with [c] its children *)
  assert (∀ w1 c t m, walked root ((q_digest <$> level) ++ (q_digest <$> next ++ c)) w1 →
    wk_tree w1 = wk_tree w ++ t → wk_missing w1 = wk_missing w ++ m → (tolerant = false → m = []) →
    wk_digests w1 ≡ₚ q_digest q :: wk_digests w →
    (∀ x, x ∈ c → queued w1 x ∧ valid (q_digest x) ∧ q_depth x = q_depth q + 1) →
    collect unmarshal repo tolerant level w1 (next ++ c) = inr (w', next') →
    walked root (q_digest <$> next') w' ∧
    (∀ x, x ∈ next' → queued w' x ∧ (x ∈ next ∨ child_of (q :: level) x)) ∧
    (∀ k, k ∈ wk_digests w' ↔ k ∈ wk_digests w ∨ k ∈ q_digest <$> q :: level) ∧
    (tolerant = false → wk_missing w' = wk_missing w)) as Hrest.
  { intros w1 c t m Hw1 Ht Hm Hst Hperm Hc Hcol.
    assert (wk_digests w1 ≠ []) as Hne by (intros E; rewrite E in Hperm; by apply Permutation_nil_cons in Hperm).
    destruct (IH (next ++ c) w1) as (H1 & H2 & H3 & H4); try done.
    - by eapply waiting_grow.
    - intros x [Hx|Hx]%elem_of_app; [by eapply queued_grow, Hnext|by apply Hc].
    - intros x Hx. split; [by apply Hv; right|]. rewrite Hperm. apply not_elem_of_cons.
      split; [|by apply Hv; right]. intros E. apply Hqd. rewrite <-E. by apply list_elem_of_fmap_2.
    - intros x Hx. apply Hdp. by right.
    - split; [done|]. split; [|split].
      + intros x Hx. destruct (H2 x Hx) as [? [[?|?]%elem_of_app|(? & q0 & ? & ?)]]; (split; [done|]).
        * by left.
        * right. destruct (Hc x) as (_ & ? & ?); [done|]. split; [done|]. exists q. split; [left|done].
        * right. split; [done|]. exists q0. split; [by right|done].
      + intros k. rewrite H3, Hperm, fmap_cons, !elem_of_cons. tauto.
      + intros E. rewrite (H4 E), Hm, (Hst E). apply app_nil_r. }
  assert (∀ w1 err, wk_tree w1 = wk_tree w → wk_missing w1 = wk_missing w ++ [lost q err] →
    wk_fetched w1 <= wk_fetched w + 1 → refused (q_desc q) (q_parent q) (q_depth q) →
    tolerant = true → collect unmarshal repo tolerant level w1 next = inr (w', next') →
    walked root (q_digest <$> next') w' ∧
    (∀ x, x ∈ next' → queued w' x ∧ (x ∈ next ∨ child_of (q :: level) x)) ∧
    (∀ k, k ∈ wk_digests w' ↔ k ∈ wk_digests w ∨ k ∈ q_digest <$> q :: level) ∧
    (tolerant = false → wk_missing w' = wk_missing w)) as Hlose.
  { intros w1 err Ht Hm Hf Href -> Hcol.
    destruct (walked_lose root q ((q_digest <$> level) ++ (q_digest <$> next)) w w1 err) as [H1 H2]; try done.
    apply (Hrest w1 [] [] [lost q err]); try done.
    - by rewrite app_nil_r.
    - by rewrite app_nil_r.
    - by intros x ?%elem_of_nil.
    - by rewrite app_nil_r. }
  destruct (FetchManifest repo (q_digest q)) as [err|[desc raw]] eqn:Hf.
  { destruct tolerant; simpl; [|done]. destruct (_ <? _); [done|].
    apply (Hlose _ err); try done; [simpl; lia|]. unfold refused. unfold q_digest in Hf. by rewrite Hf. }
  destruct (appendArtifact _ _ _ _ _ _ _) as [err|[t c]] eqn:Happ.
  { destruct tolerant; simpl; [|done].
    apply (Hlose _ err); try done; [simpl; lia|]. by eapply append_refused. }
  destruct (walked_record root q ((q_digest <$> level) ++ (q_digest <$> next)) w desc raw t c)
    as (H1 & H2 & H3 & (a & Ht) & H4); try done.
  { apply Hdp. left. }
  intros Hcol. apply (Hrest _ c [a] []) in Hcol; try done.
  - by rewrite fmap_app, (assoc (++)).
  - by rewrite app_nil_r.
  - intros x Hx. rewrite Forall_forall in H4. split; [|by apply H4].
    destruct H2 as [(-> & E & _)|[_ H2]]; [|by apply H2]. simpl in E. subst t. by destruct (wk_tree w).
Qed.

Lemma collect_length tolerant level next w w' next' :
  collect unmarshal repo tolerant level w next = inr (w', next') →
  (length (wk_tree w') <= length (wk_tree w) + length level)%nat.
Proof.
  revert next w. induction level as [|q level IH]; intros next w; cbn [collect].
  { intros [= <- <-]. simpl. lia. }
  destruct (FetchManifest repo (q_digest q)) as [err|[desc raw]] eqn:Hf.
  { destruct (_ || _); [done|]. intros ?%IH. simpl in *. lia. }
  destruct (appendArtifact _ _ _ _ _ _ _) as [err|[t c]] eqn:Happ.
  { destruct (negb _); [done|]. intros ?%IH. simpl in *. lia. }
  intros ?%IH. simpl in *.
  destruct (append_recorded _ _ _ _ _ _ _ _ Hf Happ) as (a & -> & _). rewrite length_app in *. simpl in *. lia.
Qed.

Lemma walk_levels_walked fuel tolerant root level seen w w' d `{!Verified repo} :
  walked root (q_digest <$> level) w → waiting root w level →
  (∀ q, q ∈ level → valid (q_digest q) ∧ q_depth q = d) → 0 <= d →
  (∀ k, k ∈ seen ↔ k ∈ wk_digests w) →
  Z.of_nat (length (wk_tree w)) <= maxListedArtifacts →
  walk_levels unmarshal repo fuel tolerant level seen w = Some (inr w') →
  walked root [] w' ∧ (∀ k, k ∈ wk_digests w ∨ k ∈ q_digest <$> level → k ∈ wk_digests w') ∧
  Z.of_nat (length (wk_tree w')) <= maxListedArtifacts ∧
  (tolerant = false → wk_missing w' = wk_missing w).
Proof.
  revert level seen w d. induction fuel as [|fuel IH]; [done|].
  intros level seen w d Hw Hwait Hv Hd Hseen Hlen. cbn [walk_levels].
  set (pending := firsts q_digest seen level).
  assert (∀ q, q ∈ pending → q ∈ level) as Hsub by (intros q; apply firsts_subset).
  assert (∀ k, k ∈ q_digest <$> level → k ∈ wk_digests w ∨ k ∈ q_digest <$> pending) as Hpend.
  { intros k Hk. destruct (decide (k ∈ seen)) as [Hs|Hs]; [left; by apply Hseen|right].
    unfold pending. by apply elem_of_firsts. }
  assert (walked root (q_digest <$> pending) w) as Hw'.
  { destruct Hw as [Ho Hr Hl Hm Hc Hdp Hn]. constructor; try done.
    intros a c Ha Hc'. destruct (Hc a c Ha Hc') as [?|Hk]; [by left|]. apply Hpend in Hk. tauto. }
  destruct pending as [|q rest] eqn:Ep.
  { intros [= <-]. split_and!; try done. intros k [?|Hk%Hpend]; [done|]. simpl in Hk. rewrite elem_of_nil in Hk. tauto. }
  destruct (Z.ltb_spec maxListedArtifacts (Z.of_nat (length (wk_tree w)) + Z.of_nat (length (q :: rest)))); [done|].
  destruct (Z.ltb_spec maxTreeDepth (q_depth q)) as [|Hdepth]; [done|].
  assert (q_depth q = d) as Hqd by (apply Hv, Hsub; left). rewrite Hqd in Hdepth.
  set (w1 := w <| wk_levels ::= _ |>).
  destruct (collect _ _ _ _ _ _) as [|[w2 next]] eqn:Hcol; [done|]. intros Hwalk.
  assert (NoDup (q_digest <$> q :: rest)) as Hnd by (rewrite <-Ep; apply NoDup_firsts).
  assert (∀ x, x ∈ q :: rest → valid (q_digest x) ∧ q_digest x ∉ wk_digests w1) as Hnew.
  { intros x Hx. split; [by apply Hv, Hsub|]. change (wk_digests w1) with (wk_digests w).
    rewrite <-Hseen. intros Hs. rewrite <-Ep in Hx. apply (list_elem_of_fmap_2 q_digest) in Hx.
    apply elem_of_firsts in Hx as [_ Hx]. done. }
  destruct (collect_walked tolerant root (q :: rest) [] w1 w2 next) as (H1 & H2 & H3 & H4); try done.
  - rewrite app_nil_r. destruct Hw' as [Ho Hr Hl Hm Hc Hdp Hn]. by constructor.
  - destruct Hwait as [(-> & Ht & Hm)|[Hne Hnm]].
    + left. split; [|done]. specialize (Hsub q). rewrite <-Ep in Hsub |- *.
      unfold pending in *. cbn [firsts] in *. case_bool_decide; [|done]. done.
    + right. split; [done|]. intros x Hx. by apply Hnm, Hsub.
  - by intros x ?%elem_of_nil.
  - intros x Hx. assert (q_depth x = d) as -> by (by apply Hv, Hsub). lia.
  - destruct (IH next (list_to_set (q_digest <$> q :: rest) ∪ seen) w2 (d + 1)) as (H5 & H8 & H6 & H7); try done.
    + right. split; [|intros x Hx; by apply H2].
      intros E. assert (q_digest q ∈ wk_digests w2) as Hin by (apply H3; right; left).
      rewrite E in Hin. by apply elem_of_nil in Hin.
    + intros x Hx. destruct (H2 x Hx) as [_ [?%elem_of_nil|(? & q0 & Hq0 & ->)]]; [done|].
      split; [done|]. f_equal. by apply Hv, Hsub.
    + lia.
    + intros k. rewrite H3, elem_of_union, elem_of_list_to_set, Hseen. change (wk_digests w1) with (wk_digests w).
      tauto.
    + apply collect_length in Hcol. simpl in *. lia.
    + split; [done|]. split; [|split; [done|]].
      { intros k [Hk|Hk%Hpend]; apply H8; left; apply H3; [by left|]. by destruct Hk; [left|right]. }
      intros E. rewrite (H7 E), (H4 E). done.
Qed.
End walked.

(* -------------------------------------------------------------------- *)
(** ** The walk's theorems *)

Section walks.
Context (unmarshal : string → string + manifestBody) (rfc3339 : string → option string) (repo : Repository).

Lemma walk_walked tolerant root w `{!Verified repo} :
  valid (d_Digest root) → walk unmarshal repo tolerant root = Some (inr w) →
  walked unmarshal repo root [] w ∧ d_Digest root ∈ wk_digests w ∧
  Z.of_nat (length (wk_tree w)) <= maxListedArtifacts ∧ (tolerant = false → wk_missing w = []).
Proof.
  intros Hv Hw. unfold walk in Hw.
  eapply (walk_levels_walked unmarshal repo _ _ root _ _ _ _ 0) in Hw as (H1 & H2 & H3 & H4); try done.
  - split; [done|]. split; [|done]. apply H2. right. by left.
  - constructor; simpl; try done;
      first [by apply NoDup_nil | by intros ? ?%elem_of_nil | by intros ? ? ?%elem_of_nil].
  - by left.
  - by intros q ->%list_elem_of_singleton.
  - intros k. split; [by intros ?%elem_of_empty|by intros ?%elem_of_nil].
Qed.

(** C16. A walk that succeeds has the tree, exactly: each digest once; the root
    first; every other artifact at the place an earlier one lists it, being what
    the registry serves there; everything an artifact lists in the tree or among
    the missing; each missing one refused by the registry; none missing from a
    strict walk; at most 512 artifacts at depths up to 4. *)
Theorem walk_exact tolerant root w `{!Verified repo} :
  valid (d_Digest root) → walk unmarshal repo tolerant root = Some (inr w) →
  walked unmarshal repo root [] w ∧ d_Digest root ∈ wk_digests w ∧
  Z.of_nat (length (wk_tree w)) <= maxListedArtifacts ∧ (tolerant = false → wk_missing w = []).
Proof. intros Hv Hw. by apply walk_walked. Qed.

Lemma collect_depth tolerant level next w w' next' :
  collect unmarshal repo tolerant level w next = inr (w', next') →
  ∀ q, q ∈ next' → q ∈ next ∨ ∃ q0, q0 ∈ level ∧ q_depth q = q_depth q0 + 1.
Proof.
  revert next w. induction level as [|q0 level IH]; intros next w; cbn [collect].
  { intros [= <- <-]. auto. }
  assert (∀ next w, collect unmarshal repo tolerant level w next = inr (w', next') →
    ∀ q, q ∈ next' → q ∈ next ∨ ∃ q1, q1 ∈ q0 :: level ∧ q_depth q = q_depth q1 + 1) as Hrest.
  { intros n v Hc q Hq. destruct (IH _ _ Hc q Hq) as [?|(q1 & ? & ?)]; [by left|right].
    exists q1. split; [by right|done]. }
  destruct (FetchManifest repo (q_digest q0)) as [err|[desc raw]] eqn:Hf.
  { destruct (_ || _); [done|]. apply Hrest. }
  destruct (appendArtifact _ _ _ _ _ _ _) as [err|[t c]] eqn:Happ.
  { destruct (negb _); [done|]. apply Hrest. }
  destruct (append_recorded _ _ _ _ _ _ _ _ _ _ Hf Happ) as (a & _ & _ & _ & _ & _ & -> & _).
  intros Hc q Hq. destruct (Hrest _ _ Hc q Hq) as [[?|Hin]%elem_of_app|?]; [by left| |by right].
  apply list_elem_of_fmap in Hin as (d & -> & _). right. exists q0. split; [left|done].
Qed.

Lemma walk_levels_returns fuel tolerant level seen w d :
  (∀ q, q ∈ level → q_depth q = d) → maxTreeDepth + 2 <= Z.of_nat fuel + d → (0 < fuel)%nat →
  is_Some (walk_levels unmarshal repo fuel tolerant level seen w).
Proof.
  revert level seen w d. induction fuel as [|fuel IH]; intros level seen w d Hd Hf Hpos; [lia|].
  cbn [walk_levels].
  assert (∀ q, q ∈ firsts q_digest seen level → q_depth q = d) as Hp
    by (intros q Hq; eapply Hd, firsts_subset, Hq).
  destruct (firsts q_digest seen level) as [|q rest]; [done|].
  destruct (_ <? _); [done|]. destruct (Z.ltb_spec maxTreeDepth (q_depth q)); [done|].
  rewrite (Hp q) in * by left.
  destruct (collect _ _ _ _ _ _) as [|[w2 next]] eqn:Hc; [done|].
  apply (IH _ _ _ (d + 1)); [|lia|unfold maxTreeDepth in *; lia].
  intros x Hx. destruct (collect_depth _ _ _ _ _ _ Hc x Hx) as [?%elem_of_nil|(q0 & ? & ->)]; [done|].
  by rewrite (Hp q0).
Qed.

Lemma walk_some tolerant root : is_Some (walk unmarshal repo tolerant root).
Proof.
  apply (walk_levels_returns _ _ _ _ _ 0); [|done|unfold walk_fuel, maxTreeDepth; lia].
  by intros q ->%list_elem_of_singleton.
Qed.

(** C17. A walk returns, whatever the registry serves: five levels and one more
    look are all it ever takes, in a cyclic registry too. *)
Theorem walk_returns tolerant root : is_Some (walk unmarshal repo tolerant root).
Proof. apply walk_some. Qed.

Lemma collect_lost tolerant level w next w' next' :
  collect unmarshal repo tolerant level w next = inr (w', next') →
  ∃ l, wk_missing w' = wk_missing w ++ l.
Proof.
  revert w next. induction level as [|q level IH]; intros w next; cbn [collect].
  { intros [= <- <-]. exists []. by rewrite app_nil_r. }
  destruct (FetchManifest repo (q_digest q)) as [err|[desc raw]]; simpl.
  { destruct (_ || _); [done|]. intros (l & ->)%IH. exists (lost q err :: l). simpl. by rewrite <-(assoc (++)). }
  destruct (appendArtifact _ _ _ _ _ _ _) as [err|[t c]].
  { destruct (negb _); [done|]. intros (l & ->)%IH. exists (lost q err :: l). simpl. by rewrite <-(assoc (++)). }
  intros (l & ->)%IH. by exists l.
Qed.

Lemma lost_more {A} (l : list A) m k : (l ++ [m]) ++ k ≠ l.
Proof. intros E%(f_equal length). rewrite !length_app in E. simpl in E. lia. Qed.

Lemma collect_strict level w next w' next' :
  collect unmarshal repo false level w next = inr (w', next') ↔
  collect unmarshal repo true level w next = inr (w', next') ∧ wk_missing w' = wk_missing w.
Proof.
  revert w next. induction level as [|q level IH]; intros w next; cbn [collect].
  { split; [by intros [= <- <-]|by intros [[= <- <-] _]]. }
  destruct (FetchManifest repo (q_digest q)) as [err|[desc raw]]; simpl.
  { split; [done|]. destruct (_ <? _); [by intros []|].
    intros [(l & ->)%collect_lost E]. by apply lost_more in E. }
  destruct (appendArtifact _ _ _ _ _ _ _) as [err|[t c]]; simpl.
  { split; [done|]. intros [(l & ->)%collect_lost E]. by apply lost_more in E. }
  exact (IH (mkWalking t (wk_missing w) (1 + wk_fetched w) (wk_levels w)) (next ++ c)).
Qed.

Lemma walk_levels_lost fuel tolerant level seen w w' :
  walk_levels unmarshal repo fuel tolerant level seen w = Some (inr w') →
  ∃ l, wk_missing w' = wk_missing w ++ l.
Proof.
  revert level seen w. induction fuel as [|fuel IH]; intros level seen w; [done|]. cbn [walk_levels].
  destruct (firsts _ _ _) as [|q rest]; [intros [= <-]; exists []; by rewrite app_nil_r|].
  destruct (_ <? _); [done|]. destruct (_ <? _); [done|].
  destruct (collect _ _ _ _ _ _) as [|[w2 next]] eqn:Hc; [done|].
  apply collect_lost in Hc as (l1 & Hc). intros (l2 & ->)%IH. rewrite Hc. simpl.
  exists (l1 ++ l2). by rewrite (assoc (++)).
Qed.

Lemma walk_levels_strict fuel level seen w w' :
  walk_levels unmarshal repo fuel false level seen w = Some (inr w') ↔
  walk_levels unmarshal repo fuel true level seen w = Some (inr w') ∧ wk_missing w' = wk_missing w.
Proof.
  revert level seen w. induction fuel as [|fuel IH]; intros level seen w; [by split; [|intros []]|].
  cbn [walk_levels].
  destruct (firsts _ _ _) as [|q rest]; [split; [by intros [= <-]|by intros []]|].
  destruct (_ <? _); [by split; [|intros []]|]. destruct (_ <? _); [by split; [|intros []]|].
  set (w1 := w <| wk_levels ::= _ |>).
  destruct (collect _ _ true _ _ _) as [e|[w2 next]] eqn:Ht.
  - split; [|by intros []]. destruct (collect _ _ false _ _ _) as [|[w3 n]] eqn:Hs; [done|].
    apply collect_strict in Hs as [Hs _]. by rewrite Ht in Hs.
  - destruct (collect _ _ false _ _ _) as [|[w3 n]] eqn:Hs.
    + split; [done|]. intros [Hw E]. exfalso.
      destruct (collect_lost _ _ _ _ _ _ Ht) as [[|m l] Hl]; [rewrite app_nil_r in Hl|].
      * assert (collect unmarshal repo false (q :: rest) w1 [] = inr (w2, next)) as E'
          by (by apply collect_strict). by rewrite Hs in E'.
      * destruct (walk_levels_lost _ _ _ _ _ _ Hw) as [k Hk]. rewrite Hk, Hl in E. simpl in E.
        apply (f_equal length) in E. rewrite !length_app in E. simpl in E. lia.
    + apply collect_strict in Hs as [Hs E]. rewrite Ht in Hs. injection Hs as <- <-.
      rewrite IH, E. done.
Qed.

(** A strict walk succeeds exactly when a tolerant one does and misses
    nothing, and they return the same tree. *)
Theorem strict_walk_misses_nothing root w :
  walk unmarshal repo false root = Some (inr w) ↔
  walk unmarshal repo true root = Some (inr w) ∧ wk_missing w = [].
Proof. apply walk_levels_strict. Qed.

(* -------------------------------------------------------------------- *)
(** ** The listing and the sizes *)

Lemma recorded_unique from a b :
  recorded unmarshal repo from a → recorded unmarshal repo from b →
  at_Descriptor a = at_Descriptor b ∧ at_Raw a = at_Raw b ∧ at_Blobs a = at_Blobs b.
Proof.
  intros (d & r & y & Hf & Hu & Hr & Hd & Hb) (d' & r' & y' & Hf' & Hu' & Hr' & Hd' & Hb').
  rewrite Hf in Hf'. injection Hf' as <- <-. rewrite Hu in Hu'. injection Hu' as <-.
  rewrite Hd, Hd', Hr, Hr' in *. split; [done|]. split; [done|].
  destruct (IsIndex _); [by destruct Hb as [-> _], Hb' as [-> _]|]. rewrite Hb in Hb'. by injection Hb'.
Qed.

(** What discovery lists under a tag is the top of the tree a transfer
    walks: the root is the same artifact, and every digest listed is in the tree
    or known to be missing; each is listed once. *)
Theorem listing_is_the_top_of_the_tree root t w `{!Verified repo} :
  valid (d_Digest root) → FetchRoot unmarshal rfc3339 repo root = inr t →
  walk unmarshal repo true root = Some (inr w) →
  (∃ a, head (tr_Artifacts t) = Some a ∧ head (wk_tree w) = Some a) ∧
  NoDup (at_Digest <$> tr_Artifacts t) ∧
  ∀ k, k ∈ at_Digest <$> tr_Artifacts t → k ∈ wk_digests w.
Proof.
  intros Hv Hroot Hwalk. destruct (walk_walked true root w Hv Hwalk) as ([_ Hr _ Hm Hc _ _] & Hin & _).
  unfold FetchRoot in Hroot.
  destruct (FetchManifest repo (d_Digest root)) as [|[desc raw]] eqn:Hf; [done|].
  destruct (appendArtifact _ [] _ _ _ _ _) as [|[l children]] eqn:Happ; [done|].
  destruct (_ <? _); [done|]. injection Hroot as <-.
  destruct (append_recorded _ _ _ _ _ _ _ _ _ _ Hf Happ) as (a & -> & Hp & Hd & Hrec & _ & -> & _).
  cbn [tr_Artifacts finish app].
  (* the walk's first artifact is the same *)
  assert (∃ b, wk_tree w !! 0%nat = Some b) as [b Hb].
  { destruct (wk_tree w) as [|b t] eqn:Et; [exfalso|by exists b]. unfold wk_digests in Hin.
    rewrite Et in Hin. apply list_elem_of_fmap in Hin as (m & _ & Hmis).
    destruct (Hm m Hmis) as [Href [(Em & Ep & Ed & _)|(p & c & Hn & _)]]; [|by rewrite lookup_nil in Hn].
    unfold refused in Href. rewrite Em, Ep, Ed, Hf, Happ in Href. by destruct Href. }
  destruct (Hr b Hb) as (Hbp & Hbd & Hbr).
  destruct (recorded_unique root a b Hrec Hbr) as (E1 & E2 & E3).
  assert (a = b) as -> by (destruct a, b; simpl in *; congruence).
  set (listed_children := firsts _ _ _).
  assert (at_Digest <$> b :: (listed <$> listed_children) =
    at_Digest b :: (q_digest <$> listed_children)) as ->.
  { rewrite fmap_cons, <-list_fmap_compose. done. }
  assert (∀ k, k ∈ q_digest <$> listed_children → k ∈ d_Digest <$> children_of unmarshal b ∧ k ≠ at_Digest b) as Hl.
  { intros k [Hk Hb']%elem_of_firsts. rewrite <-list_fmap_compose in Hk. set_solver. }
  split; [|split].
  - exists b. split; [done|]. by destruct (wk_tree w); simplify_eq/=.
  - constructor; [by intros [_ ?]%Hl|apply NoDup_firsts].
  - intros k [->|Hk]%elem_of_cons.
    + unfold wk_digests. apply elem_of_app. left. apply list_elem_of_fmap_2. by eapply list_elem_of_lookup_2.
    + apply Hl in Hk as [(d & -> & Hd')%list_elem_of_fmap _].
      destruct (Hc b d) as [?|?%elem_of_nil]; [by eapply list_elem_of_lookup_2|done..].
Qed.
End walks.

(** A tree's contents in document order: digest, size, and whether it is a blob. *)
Definition contents (a : Artifact) : list (string * (Z * bool)) :=
  (at_Digest a, (Z.of_nat (String.length (default "" (at_Raw a))), false)) ::
  ((λ b, (d_Digest (bl_Descriptor b), (d_Size (bl_Descriptor b), true))) <$> at_Blobs a).

Definition bytes_of (l : list (string * (Z * bool))) : Z := foldr (λ e s, e.2.1 + s) 0 l.

Definition blobs_in (l : list (string * (Z * bool))) : Z := Z.of_nat (length (filter (λ e, e.2.2 = true) l)).

Definition measure_one (st : Z * Z * gset string) (e : string * (Z * bool)) : Z * Z * gset string :=
  let '(bytes, blobs, counted) := st in
  if bool_decide (e.1 ∈ counted) then st
  else (bytes + e.2.1, blobs + (if e.2.2 then 1 else 0), {[ e.1 ]} ∪ counted).

Lemma measure_ones l bytes blobs counted :
  (foldl measure_one (bytes, blobs, counted) l).1 =
    (bytes + bytes_of (firsts fst counted l), blobs + blobs_in (firsts fst counted l)).
Proof.
  revert bytes blobs counted. induction l as [|[k [n b]] l IH]; intros bytes blobs counted; simpl.
  - unfold blobs_in. simpl. f_equal; lia.
  - case_bool_decide; [apply IH|]. rewrite IH. unfold blobs_in. rewrite filter_cons. simpl.
    destruct b; simpl; f_equal; lia.
Qed.

Lemma measure_artifact_ones st a : measure_artifact st a = foldl measure_one st (contents a).
Proof.
  destruct st as [[bytes blobs] counted]. unfold contents, measure_artifact. cbn [foldl].
  assert (∀ l st, foldl measure_blob st l =
    foldl measure_one st ((λ b, (d_Digest (bl_Descriptor b), (d_Size (bl_Descriptor b), true))) <$> l)) as H.
  { clear. induction l as [|b l IH]; intros [[x y] z]; [done|]. cbn [foldl fmap list_fmap]. by rewrite <-IH. }
  rewrite H. f_equal. unfold measure_one. simpl. case_bool_decide; [done|]. by rewrite Z.add_0_r.
Qed.

(** The transfer size of a fetched tree counts every distinct digest once,
    at the size it is first given, and the blobs among them; of a tree with a
    manifest nobody fetched, neither is known. *)
Theorem sizes_count_each_digest_once artifacts :
  let once := firsts fst ∅ (artifacts ≫= contents) in
  (Forall (λ a, is_Some (at_Raw a)) artifacts →
     measure artifacts = (Some (bytes_of once), Some (blobs_in once))) ∧
  (¬ Forall (λ a, is_Some (at_Raw a)) artifacts → measure artifacts = (None, None)).
Proof.
  intros once. unfold measure. split; intros Hf.
  - rewrite bool_decide_eq_false_2.
    2:{ intros (a & Ha & Hr)%Exists_exists. rewrite Forall_forall in Hf. specialize (Hf a Ha). rewrite Hr in Hf.
        by destruct Hf. }
    assert (∀ l st, foldl measure_artifact st l = foldl measure_one st (l ≫= contents)) as H.
    { induction l as [|a l IH]; intros st; [done|]. cbn [foldl]. rewrite IH, measure_artifact_ones.
      change ((a :: l) ≫= contents) with (contents a ++ (l ≫= contents)). by rewrite foldl_app. }
    rewrite H. pose proof (measure_ones (artifacts ≫= contents) 0 0 ∅) as Hm.
    destruct (foldl measure_one _ _) as [[x y] z]. simpl in Hm. injection Hm as -> ->. done.
  - rewrite bool_decide_eq_true_2; [done|]. apply not_Forall_Exists in Hf; [|intros a; apply _].
    eapply Exists_impl; [exact Hf|]. intros a Ha. simpl in Ha. by apply eq_None_not_Some.
Qed.

(* -------------------------------------------------------------------- *)
(** ** Examples *)

Definition address (n : string) : string :=
  words ["sha256:"; String.concat "" (replicate 63 "0"); n].

Definition at_address (mediaType n : string) : Descriptor := mkDescriptor mediaType (address n) 10 "" ∅ None.

(** An index over an image, itself, and a chart nobody has. *)
Definition toy_unmarshal (raw : string) : string + manifestBody :=
  if String.eqb raw "index" then
    inr (mkBody MediaTypeOCIIndex "" None []
           [at_address MediaTypeOCIManifest "1"; at_address MediaTypeOCIIndex "0"; at_address "" "2"] ∅)
  else if String.eqb raw "image" then
    inr (mkBody MediaTypeOCIManifest "" (Some (at_address "config" "8"))
           [at_address "layer" "9"; at_address "layer" "9"] [] ∅)
  else inl "unexpected end of JSON input".

Definition toy_fetch (ref : string) : Fault + (Descriptor * string) :=
  if String.eqb ref (address "0") then inr (at_address MediaTypeOCIIndex "0", "index")
  else if String.eqb ref (address "1") then inr (at_address MediaTypeOCIManifest "1", "image")
  else if String.eqb ref (address "3") then inr (at_address MediaTypeOCIManifest "3", "{")
  else inl (sentinel ErrNotFound).

Definition toy_registry : Repository := mkRepository (λ _, inl (sentinel ErrNotFound)) toy_fetch None.

Lemma toy_fetch_address ref d raw : toy_fetch ref = inr (d, raw) → d_Digest d = ref ∧ valid (d_Digest d).
Proof.
  unfold toy_fetch. destruct (String.eqb_spec ref (address "0")) as [->|]; [by intros [= <- _]|].
  destruct (String.eqb_spec ref (address "1")) as [->|]; [by intros [= <- _]|].
  destruct (String.eqb_spec ref (address "3")) as [->|]; [by intros [= <- _]|done].
Qed.

#[export] Instance toy_verified : Verified toy_registry.
Proof.
  constructor; [| |done].
  - intros ref d raw _ H. by apply toy_fetch_address in H as [].
  - intros ref d raw H. by apply toy_fetch_address in H as [].
Qed.

Definition toy_root : Descriptor := at_address MediaTypeOCIIndex "0".

(** The shared layer is counted once, and the index that lists itself is walked
    once. *)
Example a_cyclic_index :
  (λ r, match r with
        | inr (t, missing, fetched) =>
            (length (tr_Artifacts t), d_Digest ∘ ms_Descriptor <$> missing, fetched, tr_TotalBytes t, tr_BlobCount t)
        | inl _ => (0%nat, [], 0, None, None)
        end) <$> WalkPartial toy_unmarshal toy_registry toy_root =
  Some (2%nat, [address "2"], 2, Some 30, Some 2).
Proof. vm_compute. reflexivity. Qed.

(** A root that is served but is no manifest is tolerated: the tree is empty. *)
Example a_malformed_root_is_tolerated :
  (λ r, match r with inr (t, missing, _) => (length (tr_Artifacts t), length missing) | inl _ => (9%nat, 9%nat) end)
    <$> WalkPartial toy_unmarshal toy_registry (at_address MediaTypeOCIManifest "3") = Some (0%nat, 1%nat).
Proof. vm_compute. reflexivity. Qed.

(** The toy walk's result. *)
Definition toy_walk : walking := Eval vm_compute in
  match walk toy_unmarshal toy_registry true toy_root with
  | Some (inr w) => w
  | _ => mkWalking [] [] 0 []
  end.

Lemma walk_exact_witness :
  NoDup (wk_digests toy_walk) ∧ wk_fetched toy_walk = 2.
Proof.
  split; [|vm_compute; reflexivity].
  exact (wd_once _ _ _ _ _ (proj1 (walk_exact toy_unmarshal toy_registry true toy_root toy_walk eq_refl eq_refl))).
Defined.

Lemma listing_is_the_top_of_the_tree_witness :
  at_Digest <$> wk_tree toy_walk = [address "0"; address "1"] ∧
  ∀ k, k ∈ [address "0"; address "1"; address "2"] → k ∈ wk_digests toy_walk.
Proof.
  split; [vm_compute; reflexivity|].
  exact (proj2 (proj2 (listing_is_the_top_of_the_tree toy_unmarshal (λ _, None) toy_registry toy_root
    (mkTree (match FetchRoot toy_unmarshal (λ _, None) toy_registry toy_root with
             | inr t => tr_Artifacts t | inl _ => [] end) None None None) toy_walk eq_refl eq_refl eq_refl))).
Defined.
