(* ===== verification/TreeDiff.v ===== *)
(** * Two places compared, component by component

    internal/compare: compare.go (where each side is walked from, its inventory
    of components, the sites they answer to, the tags nothing accounts for, the
    rows and the report) and files.go.  Both sides' registries are answered from
    the [Repository]s a client factory gives; the walk is Tree.v's.  A side's
    progress is a sequence of calls to its reporter, whose order within a phase
    is the scheduler's. *)

From S2P Require Import Prelude GoStrings Layout Registry Tree.
Open Scope Z_scope.

(* -------------------------------------------------------------------- *)
(** ** What to compare *)

Record SideSpec := mkSideSpec {
  ss_Label : string;
  ss_Repository : string;
  ss_References : list string;
  ss_BasePath : string;
  ss_PublishesComponentsByName : bool }.

Definition SideSpec_String (s : SideSpec) : string :=
  let ref := default "" (head (ss_References s)) in
  if String.eqb (ss_Repository s) "" then ref else words [ss_Repository s; ":"; ref].

Definition Classifier : Type := string → string → string → gmap string string → string.

Definition OCIOnly : Classifier := λ mediaType artifactType configMediaType _,
  Classify mediaType artifactType configMediaType.

Record Options := mkOptions {
  op_A : SideSpec;
  op_B : SideSpec;
  op_Concurrency : Z;
  op_Classify : option Classifier }.

Definition ClientFactory : Type := string → Fault + Repository.

(* -------------------------------------------------------------------- *)
(** ** Progress *)

Definition PhaseManifests : string := "reading manifests".
Definition PhaseNames : string := "checking component names".
Definition PhaseTags : string := "checking for unaccounted tags".
Definition PhaseDone : string := "finished".

Record Progress := mkProgress {
  pg_Key : string;
  pg_Side : string;
  pg_Phase : string;
  pg_Done : Z;
  pg_Total : Z;
  pg_Estimated : bool;
  pg_Concurrency : Z }.

Record sideReporter := mkReporter {
  rp_key : string;
  rp_side : string;
  rp_concurrency : Z;
  rp_phase : string;
  rp_done : Z;
  rp_known : Z;
  rp_estimated : bool }.

#[export] Instance sideReporter_eta : Eta sideReporter := λ r,
  mkReporter (rp_key r) (rp_side r) (rp_concurrency r) (rp_phase r) (rp_done r) (rp_known r) (rp_estimated r).

Definition newSideReporter (key side : string) (concurrency : Z) : sideReporter :=
  mkReporter key side concurrency "" 0 0 true.

Definition emit (r : sideReporter) : Progress :=
  mkProgress (rp_key r) (rp_side r) (rp_phase r) (rp_done r) (rp_known r) (rp_estimated r) (rp_concurrency r).

(** A call to the reporter, and the position it reports, if it does. *)
Inductive call :=
  | walked_call (fetched known : Z)
  | expect_call (phase : string) (units : Z)
  | did_call (phase : string) (n : Z)
  | settled_call.

Definition report_call (c : call) (r : sideReporter) : sideReporter * option Progress :=
  let reported (r : sideReporter) := (r, Some (emit r)) in
  match c with
  | walked_call fetched known =>
      reported (r <| rp_phase := PhaseManifests |> <| rp_done ::= (λ d, if d <? fetched then fetched else d) |>
                  <| rp_known ::= (λ k, if k <? known then known else k) |>)
  | expect_call phase units =>
      if units <=? 0 then (r, None) else reported (r <| rp_phase := phase |> <| rp_known ::= Z.add units |>)
  | did_call phase n =>
      if n <=? 0 then (r, None)
      else let r := r <| rp_phase := phase |> <| rp_done ::= Z.add n |> in
           reported (r <| rp_known ::= (λ k, if k <? rp_done r then rp_done r else k) |>)
  | settled_call =>
      reported (r <| rp_phase := PhaseDone |> <| rp_known := rp_done r |> <| rp_estimated := false |>)
  end.

Fixpoint report_calls (l : list call) (r : sideReporter) : sideReporter * list Progress :=
  match l with
  | [] => (r, [])
  | c :: l =>
      let '(r, p) := report_call c r in
      let '(r, ps) := report_calls l r in
      (r, option_list p ++ ps)
  end.

(* -------------------------------------------------------------------- *)
(** ** Components *)

Record Layer := mkLayer { ly_Digest : string; ly_Size : Z; ly_MediaType : string; ly_Title : string }.

(** The place a component answers to its own name. *)
Record Site := mkNamedSite {
  st_Repository : string;
  st_Present : bool;
  st_TagDigest : string;
  st_Error : string }.

#[export] Instance Site_eta : Eta Site := λ r,
  mkNamedSite (st_Repository r) (st_Present r) (st_TagDigest r) (st_Error r).

Record Item := mkItem {
  it_Key : string;
  it_Type : string;
  it_Kind : string;
  it_Name : string;
  it_Tag : string;
  it_Digest : string;
  it_Size : Z;
  it_Repository : string;
  it_Depth : Z;
  it_Named : option Site;
  it_Layers : list Layer;
  it_Unreachable : string }.

#[export] Instance Item_eta : Eta Item := λ r,
  mkItem (it_Key r) (it_Type r) (it_Kind r) (it_Name r) (it_Tag r) (it_Digest r) (it_Size r)
    (it_Repository r) (it_Depth r) (it_Named r) (it_Layers r) (it_Unreachable r).

Definition NUL : string := String (Ascii.ascii_of_nat 0) EmptyString.

Definition rootKey : string := words [NUL; "root"].

Definition annotationTitle : string := "org.opencontainers.image.title".

Record refName := mkRef { rf_repository : string; rf_tag : string }.

(** The colon is a tag's only after the last slash. *)
Definition parseRefName (v : string) : refName :=
  let v := TrimSpace v in
  if String.eqb v "" then mkRef "" ""
  else match cut_last colon v with
  | Some (repository, tag) => if has_char slash tag then mkRef v "" else mkRef repository tag
  | None => mkRef v ""
  end.

Definition quoteTag (tag : string) : string := if String.eqb tag "" then "nothing" else tag.

Definition space : Ascii.ascii := Eval cbv in Ascii.ascii_of_nat 32.

(** [(s[:i], s[i+2:])] for [i := strings.LastIndex(s, ": ")], if it is not -1 *)
Fixpoint cut_last_cause (s : string) : option (string * string) :=
  match s with
  | EmptyString => None
  | String c rest =>
      match cut_last_cause rest with
      | Some (a, b) => Some (String c a, b)
      | None =>
          match rest with
          | String d tail => if Ascii.eqb c colon && Ascii.eqb d space then Some (EmptyString, tail) else None
          | EmptyString => None
          end
      end
  end.

Definition summarise (err : Fault) : string :=
  let msg := ft_Message err in
  match cut_last_cause msg with
  | Some (a, b) =>
      if (0 <? Z.of_nat (String.length a)) && (Z.of_nat (String.length msg) - Z.of_nat (String.length a) <? 80)
      then TrimSpace b else msg
  | None => msg
  end.

(** The same function as Digest.Short. *)
Definition short (digest : string) : string := Short digest.

Definition kindOf (desc : Descriptor) : string :=
  if negb (String.eqb (d_ArtifactType desc) "") then d_ArtifactType desc else d_MediaType desc.

Definition classify (with_ : option Classifier) (desc : Descriptor) (configMediaType : string) : string :=
  (default OCIOnly with_) (d_MediaType desc) (d_ArtifactType desc) configMediaType (d_Annotations desc).

Definition contentSize (a : Artifact) : Z :=
  match at_Blobs a with
  | [] => d_Size (at_Descriptor a)
  | blobs => foldl (λ total b, total + d_Size (bl_Descriptor b))
               (Z.of_nat (String.length (default "" (at_Raw a)))) blobs
  end.

Definition layers_of (a : Artifact) : list Layer :=
  omap (λ b, let d := bl_Descriptor b in
             if bool_decide (bl_Kind b = BlobLayer)
             then Some (mkLayer (d_Digest d) (d_Size d) (d_MediaType d)
                          (default "" (d_Annotations d !! annotationTitle)))
             else None) (at_Blobs a).

Definition itemFrom (a : Artifact) (spec : SideSpec) (rootRef : string) (isRoot : bool)
    (with_ : option Classifier) : Item :=
  let desc := at_Descriptor a in
  let ref := parseRefName (default "" (d_Annotations desc !! AnnotationRefName)) in
  let kind := kindOf desc in
  let key_name_tag :=
    if isRoot then (rootKey, ss_Repository spec, if String.eqb (rf_tag ref) "" then rootRef else rf_tag ref)
    else if negb (String.eqb (rf_repository ref) "")
    then (words [fold_string (rf_repository ref); NUL; kind], rf_repository ref, rf_tag ref)
    else (words [NUL; "digest/"; at_Digest a], Short (at_Digest a), rf_tag ref) in
  let '(key, name, tag) := key_name_tag in
  mkItem key (classify with_ desc (ConfigMediaType a)) kind name tag (at_Digest a) (contentSize a)
    (ss_Repository spec) (at_Depth a)
    (if negb (String.eqb (rf_repository ref) "") && negb isRoot && ss_PublishesComponentsByName spec
     then Some (mkNamedSite (destinationPath (ss_BasePath spec) (rf_repository ref)) false "" "")
     else None)
    (layers_of a) "".

Notation inventory := (gmap string Item).

(** Two components that want one key are kept apart by the tag of the second. *)
Definition add (inv : inventory) (item : Item) : inventory :=
  match inv !! it_Key item with
  | None => <[it_Key item := item]> inv
  | Some held =>
      if String.eqb (it_Digest held) (it_Digest item) then inv
      else
        let key := words [it_Key item; NUL; it_Tag item] in
        match inv !! key with
        | None => <[key := item <| it_Key := key |>]> inv
        | Some _ => inv
        end
  end.

(** Everything a walk found, and everything it could not have. *)
Definition take_inventory (spec : SideSpec) (ref : string) (with_ : option Classifier)
    (artifacts : list Artifact) (missing : list Missing) : inventory :=
  let found := imap (λ i a, itemFrom a spec ref (Nat.eqb i 0) with_) artifacts in
  let absent := (λ m, (itemFrom (mkArtifact (ms_Descriptor m) None 0 (ms_Depth m) []) spec ref false with_)
                        <| it_Unreachable := summarise (ms_Err m) |>) <$> missing in
  foldl add ∅ (found ++ absent).

(** One component's own site, asked. *)
Definition probe_site (client : ClientFactory) (it : Item) (site : Site) : Site :=
  match client (st_Repository site) with
  | inl err => site <| st_Error := ft_Message err |>
  | inr repo =>
      let site := match FetchManifest repo (it_Digest it) with
                  | inr _ => site <| st_Present := true |>
                  | inl err => if Is err ErrNotFound then site else site <| st_Error := summarise err |>
                  end in
      if String.eqb (it_Tag it) "" then site
      else match ResolveTag repo (it_Tag it) with
      | inr desc => site <| st_TagDigest := d_Digest desc |>
      | inl _ => site
      end
  end.

Definition probe_item (client : ClientFactory) (it : Item) : Item :=
  it <| it_Named ::= fmap (probe_site client it) |>.

Definition probeNamedSites (client : ClientFactory) (inv : inventory) : inventory := probe_item client <$> inv.

(* -------------------------------------------------------------------- *)
(** ** Tags nothing accounts for *)

Definition accountedDigests (inv : inventory) (also : list string) : gset string :=
  list_to_set ((map_to_list inv ≫= λ ki, it_Digest ki.2 :: (ly_Digest <$> it_Layers ki.2)) ++ also).

Definition maxResolvedTags : nat := 2000.

(** At most 20 pages; [None] when one fails. *)
Fixpoint list_tag_pages (pages : nat) (lister : string → Z → Fault + (list string * string)) (last : string)
    : option (list string) :=
  match pages with
  | O => Some []
  | S pages =>
      match lister last 200 with
      | inl _ => None
      | inr (tags, next) =>
          if String.eqb next "" then Some tags
          else rest ← list_tag_pages pages lister next; Some (tags ++ rest)
      end
  end.

Definition unaccounted (repo : Repository) (accounted : gset string) (tag : string) : bool :=
  match ResolveTag repo tag with
  | inr desc => negb (bool_decide (d_Digest desc ∈ accounted))
  | inl _ => true
  end.

Definition extraTags (repo : Repository) (inv : inventory) (also : list string) : list string * bool :=
  match ListTags repo with
  | None => ([], false)
  | Some lister =>
      match list_tag_pages 20 lister "" with
      | None => ([], false)
      | Some listed =>
          (sort_strings (filter (λ t, unaccounted repo (accountedDigests inv also) t = true)
                           (take maxResolvedTags listed)),
           bool_decide (maxResolvedTags < length listed)%nat)
      end
  end.

(* -------------------------------------------------------------------- *)
(** ** Where the sides are walked from *)

Record rootChoice := mkChoice {
  rc_repo : Repository;
  rc_holds : gmap string Descriptor;
  rc_order : list string }.

Definition resolveOne (repo : Repository) (reference : string) : Fault + Descriptor :=
  if has_char colon reference then
    match FetchManifest repo reference with
    | inl err => inl (wrapf ["fetch "; reference] err)
    | inr (desc, _) => inr desc
    end
  else match ResolveTag repo reference with
    | inl err => inl (wrapf ["resolve "; reference] err)
    | inr desc => inr desc
    end.

(** Every candidate asked about. *)
Definition held_references (repo : Repository) (references : list string) : gmap string Descriptor :=
  foldl (λ holds reference, match resolveOne repo reference with
                            | inr desc => <[reference := desc]> holds
                            | inl _ => holds
                            end) ∅ references.

Definition probeRoot (client : ClientFactory) (spec : SideSpec) : Fault + rootChoice :=
  match ss_References spec with
  | [] => inl (plainf ["no reference to compare from"])
  | first :: _ =>
      match client (ss_Repository spec) with
      | inl err => inl (wrapf ["build a client for "; ss_Repository spec] err)
      | inr repo =>
          let holds := held_references repo (ss_References spec) in
          if bool_decide (holds = ∅) then
            match resolveOne repo first with
            | inl err => inl err
            | inr _ => inl (plainf [ss_Repository spec; " holds none of ";
                                    String.concat ", " (ss_References spec)])
            end
          else inr (mkChoice repo holds (ss_References spec))
      end
  end.

Definition holds (c : rootChoice) (ref : string) : bool := bool_decide (is_Some (rc_holds c !! ref)).

(** The first reference of a list a predicate accepts. *)
Definition first_such (p : string → bool) (l : list string) : option string := head (filter (λ r, p r = true) l).

Definition firstHeld (c : rootChoice) : string := default "" (first_such (holds c) (rc_order c)).

(** What each side is walked from: the most complete reference both hold. *)
Definition chosen_roots (a b : rootChoice) : string * string :=
  let ref := default "" (first_such (λ ref, holds a ref && holds b ref) (rc_order a)) in
  if String.eqb ref "" then (firstHeld a, firstHeld b) else (ref, ref).

Definition referenceNotes (a b : rootChoice) (chosenA chosenB : string) : list string :=
  let shared := filter (λ ref, ref ∈ rc_order b) (rc_order a) in
  let out := omap (λ ref, if holds a ref && negb (holds b ref)
                          then Some (words [ref; " resolves on the first side and not on the second"])
                          else if holds b ref && negb (holds a ref)
                          then Some (words [ref; " resolves on the second side and not on the first"])
                          else None) shared in
  match out with
  | [] => []
  | _ => out ++ [if String.eqb chosenA chosenB
                 then words ["compared from "; chosenA; ", which both sides hold"]
                 else words ["no reference is held by both sides, so "; chosenA; " and "; chosenB;
                             " were walked - these are two artifacts rather than two copies of one"]]
  end.

(** The descriptor of a reference, the zero one for a reference not held. *)
Definition held_desc (c : rootChoice) (ref : string) : Descriptor :=
  default (mkDescriptor "" "" 0 "" ∅ None) (rc_holds c !! ref).

(* -------------------------------------------------------------------- *)
(** ** Rows *)

Inductive Verdict := VerdictSame | VerdictChanged | VerdictOnlyA | VerdictOnlyB.

#[export] Instance Verdict_eq_dec : EqDecision Verdict.
Proof. solve_decision. Defined.

Record FileDiff := mkFileDiff {
  fd_Path : string;
  fd_Verdict : Verdict;
  fd_SizeA : Z;
  fd_SizeB : Z;
  fd_DigestA : string;
  fd_DigestB : string }.

Record Row := mkRow {
  rw_Key : string;
  rw_Type : string;
  rw_Name : string;
  rw_Verdict : Verdict;
  rw_A : option Item;
  rw_B : option Item;
  rw_Differences : list string;
  rw_Files : list FileDiff }.

#[export] Instance Row_eta : Eta Row := λ r,
  mkRow (rw_Key r) (rw_Type r) (rw_Name r) (rw_Verdict r) (rw_A r) (rw_B r) (rw_Differences r) (rw_Files r).

Definition IsRoot (r : Row) : bool := String.eqb (rw_Key r) rootKey.

Definition first_side : string := "the first side".
Definition second_side : string := "the second side".

Definition unreachable_note (label : string) (it : Item) : list string :=
  if String.eqb (it_Unreachable it) "" then []
  else [words ["referenced by the index on "; label; " but not served there: "; it_Unreachable it]].

(** A component not pullable under its own name. *)
Definition site_note (label : string) (it : Item) : list string :=
  match it_Named it with
  | None => []
  | Some site =>
      if negb (String.eqb (it_Unreachable it) "") then []
      else if negb (String.eqb (st_Error site) "")
      then [words [label; " could not be asked about "; st_Repository site; ": "; st_Error site]]
      else if negb (st_Present site) then [words ["not published as "; st_Repository site; " on "; label]]
      else if negb (String.eqb (it_Tag it) "") && String.eqb (st_TagDigest site) ""
      then [words [st_Repository site; " is not tagged "; it_Tag it; " on "; label]]
      else if negb (String.eqb (st_TagDigest site) "") && negb (String.eqb (st_TagDigest site) (it_Digest it))
      then [words [st_Repository site; ":"; it_Tag it; " points at "; short (st_TagDigest site); " on "; label;
                   ", not "; short (it_Digest it)]]
      else []
  end.

Definition siteDifferences (a b : Item) : list string := site_note first_side a ++ site_note second_side b.

Definition item_differences (a b : Item) : list string :=
  unreachable_note first_side a ++ unreachable_note second_side b ++
  (if String.eqb (it_Digest a) (it_Digest b) then []
   else [words ["content differs: "; short (it_Digest a); " and "; short (it_Digest b)]]) ++
  (if String.eqb (it_Tag a) (it_Tag b) then []
   else [words ["named "; quoteTag (it_Tag a); " and "; quoteTag (it_Tag b)]]) ++
  siteDifferences a b.

(** How one component's sides relate; there is always one. *)
Definition compareItems (a b : option Item) : option Row :=
  match a, b with
  | Some a, None => Some (mkRow (it_Key a) (it_Type a) (it_Name a) VerdictOnlyA (Some a) None
                            ["present on the first side only"] [])
  | None, Some b => Some (mkRow (it_Key b) (it_Type b) (it_Name b) VerdictOnlyB None (Some b)
                            ["present on the second side only"] [])
  | Some a, Some b =>
      let differences := item_differences a b in
      Some (mkRow (it_Key a) (it_Type a) (it_Name a)
              (if bool_decide (differences = []) then VerdictSame else VerdictChanged) (Some a) (Some b)
              differences [])
  | None, None => None
  end.

Definition rank (v : Verdict) : Z :=
  match v with
  | VerdictOnlyA => 0
  | VerdictOnlyB => 1
  | VerdictChanged => 2
  | VerdictSame => 3
  end.

Definition row_less (x y : Row) : bool :=
  if negb (rank (rw_Verdict x) =? rank (rw_Verdict y)) then rank (rw_Verdict x) <? rank (rw_Verdict y)
  else if negb (String.eqb (rw_Type x) (rw_Type y)) then String.ltb (rw_Type x) (rw_Type y)
  else String.ltb (rw_Name x) (rw_Name y).

(** The findings about the roots themselves, on the root's row. *)
Definition note_root (rootNotes : list string) (key : string) (row : Row) : Row :=
  if String.eqb key rootKey && negb (bool_decide (rootNotes = [])) then
    row <| rw_Differences ::= (.++ rootNotes) |>
        <| rw_Verdict ::= (λ v, if bool_decide (v = VerdictSame) then VerdictChanged else v) |>
  else row.

Definition align (a b : inventory) (rootNotes : list string) : list Row :=
  slice_stable row_less
    (omap (λ key, note_root rootNotes key <$> compareItems (a !! key) (b !! key)) (elements (dom a ∪ dom b))).

(* -------------------------------------------------------------------- *)
(** ** Files *)

Definition byPath (item : option Item) : gmap string Layer :=
  match item with
  | None => ∅
  | Some item => foldl (λ out layer, if String.eqb (ly_Title layer) "" then out
                                     else <[ly_Title layer := layer]> out) ∅ (it_Layers item)
  end.

Definition fileDiff (inA inB : gmap string Layer) (path : string) : FileDiff :=
  let left := inA !! path in
  let right := inB !! path in
  mkFileDiff path
    (match left, right with
     | _, None => VerdictOnlyA
     | None, Some _ => VerdictOnlyB
     | Some l, Some r => if String.eqb (ly_Digest l) (ly_Digest r) then VerdictSame else VerdictChanged
     end)
    (from_option ly_Size 0 left) (from_option ly_Size 0 right)
    (from_option ly_Digest "" left) (from_option ly_Digest "" right).

Definition diffFiles (a b : option Item) : list FileDiff :=
  let inA := byPath a in
  let inB := byPath b in
  fileDiff inA inB <$> sort_strings (elements (dom inA) ++ filter (λ p, p ∉ dom inA) (elements (dom inB))).

Definition inspectFiles (rows : list Row) : list Row :=
  (λ row, if bool_decide (rw_Verdict row = VerdictSame) then row
          else row <| rw_Files := diffFiles (rw_A row) (rw_B row) |>) <$> rows.

(* -------------------------------------------------------------------- *)
(** ** The report *)

Record Report := mkReport {
  rt_A : SideSpec;
  rt_B : SideSpec;
  rt_ResolvedA : string;
  rt_ResolvedB : string;
  rt_Rows : list Row;
  rt_Same : Z;
  rt_Changed : Z;
  rt_OnlyA : Z;
  rt_OnlyB : Z;
  rt_ExtraTagsA : list string;
  rt_ExtraTagsB : list string;
  rt_ExtraTruncatedA : bool;
  rt_ExtraTruncatedB : bool }.

Definition Differences (r : Report) : Z := rt_Changed r + rt_OnlyA r + rt_OnlyB r.

Definition Identical (r : Report) : bool :=
  (Differences r =? 0) && bool_decide (rt_ExtraTagsA r = []) && bool_decide (rt_ExtraTagsB r = []).

Definition walkedReference (spec : SideSpec) (resolved : string) : string :=
  if String.eqb resolved "" then SideSpec_String spec
  else if String.eqb (ss_Repository spec) "" then resolved
  else if has_char colon resolved then words [ss_Repository spec; "@"; resolved]
  else words [ss_Repository spec; ":"; resolved].

Definition ReferenceA (r : Report) : string := walkedReference (rt_A r) (rt_ResolvedA r).
Definition ReferenceB (r : Report) : string := walkedReference (rt_B r) (rt_ResolvedB r).

Definition tally (v : Verdict) (rows : list Row) : Z :=
  Z.of_nat (length (filter (λ r, rw_Verdict r = v) rows)).

Section run.
Context (unmarshal : string → string + manifestBody) (rfc3339 : string → option string).

Definition tree_digests (t : Tree) : list string :=
  tr_Artifacts t ≫= λ a, at_Digest a :: (d_Digest ∘ bl_Descriptor <$> at_Blobs a).

(** What hangs off the roots a side holds and was not walked from. *)
Definition unwalkedRoots (c : rootChoice) (chosen : string) : list string :=
  rc_order c ≫= λ ref,
    match rc_holds c !! ref with
    | None => []
    | Some desc =>
        if String.eqb ref chosen then []
        else match FetchRoot unmarshal rfc3339 (rc_repo c) desc with
        | inl _ => [d_Digest desc]
        | inr t => tree_digests t
        end
    end.

(** One side's components, and its unexplained tags. *)
Definition readSide (client : ClientFactory) (spec : SideSpec) (c : rootChoice) (chosen : string)
    (with_ : option Classifier) : option (Fault + (inventory * (list string * bool))) :=
  walked ← WalkPartial unmarshal (rc_repo c) (held_desc c chosen);
  Some match walked with
  | inl err => inl (wrapf ["walk "; SideSpec_String spec] err)
  | inr (tree, missing, _) =>
      let inv := probeNamedSites client (take_inventory spec chosen with_ (tr_Artifacts tree) missing) in
      if negb (ss_PublishesComponentsByName spec) then inr (inv, ([], false))
      else inr (inv, extraTags (rc_repo c) inv (unwalkedRoots c chosen))
  end.

Definition report_of (opts : Options) (chosenA chosenB : string) (rows : list Row)
    (extraA extraB : list string * bool) : Report :=
  mkReport (op_A opts) (op_B opts) chosenA chosenB rows
    (tally VerdictSame rows) (tally VerdictChanged rows) (tally VerdictOnlyA rows) (tally VerdictOnlyB rows)
    extraA.1 extraB.1 extraA.2 extraB.2.

(** The comparison; both sides are read before either's error is looked at. *)
Definition Run (clientA clientB : ClientFactory) (opts : Options) : option (Fault + Report) :=
  match probeRoot clientA (op_A opts), probeRoot clientB (op_B opts) with
  | inl err, _ => Some (inl (wrapf ["read "; ss_Label (op_A opts)] err))
  | inr _, inl err => Some (inl (wrapf ["read "; ss_Label (op_B opts)] err))
  | inr a, inr b =>
      let '(chosenA, chosenB) := chosen_roots a b in
      sideA ← readSide clientA (op_A opts) a chosenA (op_Classify opts);
      sideB ← readSide clientB (op_B opts) b chosenB (op_Classify opts);
      Some match sideA, sideB with
      | inl err, _ => inl (wrapf ["read "; ss_Label (op_A opts)] err)
      | inr _, inl err => inl (wrapf ["read "; ss_Label (op_B opts)] err)
      | inr (invA, extraA), inr (invB, extraB) =>
          let rows := inspectFiles (align invA invB (referenceNotes a b chosenA chosenB)) in
          inr (report_of opts chosenA chosenB rows extraA extraB)
      end
  end.
End run.

(* -------------------------------------------------------------------- *)
(** ** Progress never goes backwards *)

(** The calls one level of a walk makes, in the order its fetches end. *)
Definition level_calls (lv : Z * Z) : list call :=
  (λ i, walked_call (lv.1 + i) (lv.1 + lv.2)) <$> seqZ 1 lv.2.

(** The calls reading a side makes: a level after another, each in any order,
    then its names, then its tags when it is asked about them. *)
Definition side_calls (levels : list (Z * Z)) (names : nat) (tags : option nat) (l : list call) : Prop :=
  ∃ walk, Forall2 (λ lv cs, cs ≡ₚ level_calls lv) levels walk ∧
    l = mjoin walk ++
        expect_call PhaseNames (2 * Z.of_nat names) :: replicate names (did_call PhaseNames 2) ++
        match tags with
        | None => []
        | Some n => expect_call PhaseTags (Z.of_nat n) :: replicate n (did_call PhaseTags 1)
        end ++ [settled_call].

Definition behind (d k : Z) (p : Progress) : Prop := d <= pg_Done p ∧ k <= pg_Total p.

Definition no_later (p q : Progress) : Prop := behind (pg_Done p) (pg_Total p) q.

(** No call takes the reporter back. *)
Fixpoint rises (l : list call) (r : sideReporter) : Prop :=
  match l with
  | [] => True
  | c :: l =>
      let r' := (report_call c r).1 in
      rp_done r <= rp_done r' ∧ rp_known r <= rp_known r' ∧ rp_done r' <= rp_known r' ∧ rises l r'
  end.

Lemma report_calls_app l k r :
  report_calls (l ++ k) r =
    ((report_calls k (report_calls l r).1).1, (report_calls l r).2 ++ (report_calls k (report_calls l r).1).2).
Proof.
  revert r. induction l as [|c l IH]; intros r; simpl; [by destruct (report_calls k r)|].
  destruct (report_call c r) as [r1 p]. rewrite IH.
  destruct (report_calls l r1) as [r2 ps]. simpl. by rewrite (assoc (++)).
Qed.

Lemma rises_app l k r : rises (l ++ k) r ↔ rises l r ∧ rises k (report_calls l r).1.
Proof.
  revert r. induction l as [|c l IH]; intros r; simpl; [tauto|].
  destruct (report_call c r) as [r1 p]. simpl. rewrite IH. destruct (report_calls l r1). simpl. tauto.
Qed.

Lemma report_call_emits c r p : (report_call c r).2 = Some p → p = emit (report_call c r).1.
Proof. destruct c; simpl; try (destruct (_ <=? 0); simpl; [done|]); by intros [= <-]. Qed.

Lemma rises_sorted l r ps r' :
  rises l r → report_calls l r = (r', ps) →
  StronglySorted no_later ps ∧ Forall (behind (rp_done r) (rp_known r)) ps ∧
  Forall (λ p, pg_Done p <= pg_Total p) ps.
Proof.
  revert r ps. induction l as [|c l IH]; intros r ps; simpl.
  { intros _ [= <- <-]. repeat constructor. }
  intros (H1 & H2 & H3 & Hl). destruct (report_call c r) as [r1 p] eqn:Ec.
  destruct (report_calls l r1) as [r2 qs] eqn:El. intros [= <- <-]. simpl in *.
  destruct (IH r1 qs Hl El) as (Hs & Hb & Ht).
  assert (Forall (behind (rp_done r) (rp_known r)) qs) as Hb'.
  { eapply Forall_impl; [exact Hb|]. intros q []. split; lia. }
  destruct p as [p|]; simpl; [|done].
  assert (p = emit r1) as -> by (rewrite (report_call_emits c r p); rewrite Ec; done).
  split_and!.
  - constructor; [done|]. exact Hb.
  - constructor; [by split|done].
  - by constructor.
Qed.

Lemma walked_step f k r :
  let r1 := (report_call (walked_call f k) r).1 in
  rp_done r1 = Z.max (rp_done r) f ∧ rp_known r1 = Z.max (rp_known r) k.
Proof. simpl. destruct (Z.ltb_spec (rp_done r) f), (Z.ltb_spec (rp_known r) k); lia. Qed.

Lemma did_step phase u r :
  0 < u → let r1 := (report_call (did_call phase u) r).1 in
  rp_done r1 = rp_done r + u ∧ rp_known r1 = Z.max (rp_known r) (rp_done r + u).
Proof.
  intros Hu. cbn [report_call]. assert ((u <=? 0) = false) as -> by (apply Z.leb_gt; lia). simpl.
  destruct (Z.ltb_spec (rp_known r) (u + rp_done r)); lia.
Qed.

Lemma expect_step phase u r :
  0 < u → let r1 := (report_call (expect_call phase u) r).1 in
  rp_done r1 = rp_done r ∧ rp_known r1 = rp_known r + u.
Proof.
  intros Hu. cbn [report_call]. assert ((u <=? 0) = false) as -> by (apply Z.leb_gt; lia). simpl. lia.
Qed.

Lemma walked_calls_rise cs r M :
  rp_done r <= rp_known r →
  (∀ c, c ∈ cs → ∃ f, c = walked_call f M ∧ f <= M) →
  rises cs r ∧ let r' := (report_calls cs r).1 in
  rp_done r' <= Z.max (rp_done r) M ∧ rp_known r' <= Z.max (rp_known r) M ∧
  rp_done r <= rp_done r' ∧ rp_known r <= rp_known r' ∧
  ∀ f, walked_call f M ∈ cs → f <= rp_done r' ∧ M <= rp_known r'.
Proof.
  revert r. induction cs as [|c cs IH]; intros r Hr Hcs; cbn [rises report_calls].
  { simpl. split_and!; try done; try lia. by intros f ?%elem_of_nil. }
  destruct (Hcs c) as (f & -> & Hf); [left|]. destruct (walked_step f M r) as [H1 H2].
  destruct (report_call (walked_call f M) r) as [r1 p]. cbn [fst] in *.
  destruct (IH r1) as (Hrise & H3 & H4 & H5 & H6 & H7); [lia|by intros c Hc; apply Hcs; right|].
  destruct (report_calls cs r1) as [r2 ps]. cbn [fst] in *.
  split; [split_and!; try done; lia|]. split_and!; try lia.
  intros g [[= ->]|Hg]%elem_of_cons; [lia|by apply H7].
Qed.

Lemma levels_rise levels walk r :
  rp_done r = rp_known r → Forall2 (λ lv cs, cs ≡ₚ level_calls lv) levels walk →
  rises (mjoin walk) r ∧
  rp_done (report_calls (mjoin walk) r).1 = rp_known (report_calls (mjoin walk) r).1.
Proof.
  intros Hr Hw. revert r Hr. induction Hw as [|lv cs levels walk Hcs Hw IH]; intros r Hr; [done|].
  change (mjoin (cs :: walk)) with (cs ++ mjoin walk). rewrite rises_app, report_calls_app. cbn [fst].
  destruct (walked_calls_rise cs r (lv.1 + lv.2)) as (H1 & H2 & H3 & H4 & H5 & H6).
  - lia.
  - intros c Hc. rewrite Hcs in Hc. apply list_elem_of_fmap in Hc as (i & -> & Hi%elem_of_seqZ).
    exists (lv.1 + i). split; [done|lia].
  - assert (rp_done (report_calls cs r).1 = rp_known (report_calls cs r).1) as E.
    { destruct (decide (lv.2 <= 0)) as [Hn|Hn].
      - assert (cs = []) as ->; [|done]. apply Permutation_nil_r. rewrite Hcs. unfold level_calls.
        by rewrite seqZ_nil by lia.
      - destruct (H6 (lv.1 + lv.2)) as [? ?]; [|lia]. rewrite Hcs. apply list_elem_of_fmap.
        exists lv.2. split; [done|]. apply elem_of_seqZ. lia. }
    destruct (IH _ E) as [H7 H8]. done.
Qed.

Lemma dids_rise phase u n r :
  0 < u → rp_done r + u * Z.of_nat n <= rp_known r →
  let l := replicate n (did_call phase u) in
  rises l r ∧ rp_done (report_calls l r).1 = rp_done r + u * Z.of_nat n ∧
  rp_known (report_calls l r).1 = rp_known r.
Proof.
  intros Hu. revert r. induction n as [|n IH]; intros r Hn; [simpl; split_and!; try done; lia|].
  cbn [replicate rises report_calls]. destruct (did_step phase u r Hu) as [H1 H2].
  destruct (report_call (did_call phase u) r) as [r1 p]. cbn [fst] in *.
  destruct (IH r1) as (H3 & H4 & H5); [lia|].
  destruct (report_calls _ r1) as [r2 ps]. cbn [fst] in *. split_and!; try done; lia.
Qed.

(** A phase announced and done. *)
Lemma phase_rises phase u n r :
  0 < u → rp_done r = rp_known r →
  let l := expect_call phase (u * Z.of_nat n) :: replicate n (did_call phase u) in
  rises l r ∧ rp_done (report_calls l r).1 = rp_known (report_calls l r).1.
Proof.
  intros Hu Hr. destruct n as [|n]; [simpl; rewrite Z.mul_0_r; simpl; split_and!; try done; lia|].
  cbn [rises report_calls]. destruct (expect_step phase (u * Z.of_nat (S n)) r) as [H1 H2]; [lia|].
  destruct (report_call (expect_call phase (u * Z.of_nat (S n))) r) as [r1 p]. cbn [fst] in *.
  destruct (dids_rise phase u (S n) r1 Hu) as (H3 & H4 & H5); [lia|].
  destruct (report_calls _ r1) as [r2 ps]. cbn [fst] in *. split_and!; try done; lia.
Qed.

Lemma settled_rises r : rp_done r = rp_known r → rises [settled_call] r.
Proof. intros E. simpl. lia. Qed.

Lemma settled_last r : ∃ p, (report_calls [settled_call] r).2 = [p] ∧
  pg_Done p = pg_Total p ∧ pg_Estimated p = false ∧ pg_Phase p = PhaseDone.
Proof. by eexists. Qed.

(** A side's reported position never goes backwards.  However the fetches
    of a level, the probes and the resolutions are scheduled, neither the number
    done nor the number known ever falls, done never passes known, and the last
    report says everything known is done. *)
Theorem progress_never_goes_backwards key side concurrency levels names tags l r ps :
  side_calls levels names tags l →
  report_calls l (newSideReporter key side concurrency) = (r, ps) →
  StronglySorted no_later ps ∧ Forall (λ p, pg_Done p <= pg_Total p) ps ∧
  ∃ p, last ps = Some p ∧ pg_Done p = pg_Total p ∧ pg_Estimated p = false ∧ pg_Phase p = PhaseDone.
Proof.
  intros (walk & Hwalk & ->) Hrep. set (r0 := newSideReporter key side concurrency) in *.
  destruct (levels_rise levels walk r0) as [H1 E1]; [done..|].
  set (names_calls := expect_call PhaseNames (2 * Z.of_nat names) :: replicate names (did_call PhaseNames 2)).
  set (tags_calls := match tags with None => [] | Some n => expect_call PhaseTags (Z.of_nat n) ::
                       replicate n (did_call PhaseTags 1) end).
  change (mjoin walk ++ _ :: _ ++ _ ++ _) with (mjoin walk ++ names_calls ++ tags_calls ++ [settled_call]) in Hrep.
  set (r1 := (report_calls (mjoin walk) r0).1) in *.
  destruct (phase_rises PhaseNames 2 names r1) as [H2 E2]; [done..|].
  set (r2 := (report_calls names_calls r1).1).
  assert (rises tags_calls r2 ∧ rp_done (report_calls tags_calls r2).1 = rp_known (report_calls tags_calls r2).1)
    as [H3 E3].
  { destruct tags as [n|]; [|done]. pose proof (phase_rises PhaseTags 1 n r2) as H. rewrite Z.mul_1_l in H.
    by apply H. }
  set (r3 := (report_calls tags_calls r2).1) in *.
  assert (rises (mjoin walk ++ names_calls ++ tags_calls ++ [settled_call]) r0) as Hrise.
  { rewrite !rises_app. split; [done|]. split; [done|]. split; [done|]. by apply settled_rises. }
  destruct (rises_sorted _ _ _ _ Hrise Hrep) as (Hs & _ & Ht). split; [done|]. split; [done|].
  assert (ps = (report_calls (mjoin walk ++ names_calls ++ tags_calls ++ [settled_call]) r0).2) as ->
    by (by rewrite Hrep).
  rewrite !report_calls_app. cbn [fst snd].
  edestruct settled_last as (p & -> & Hp). exists p. by rewrite !(assoc (++)), last_snoc.
Qed.

(* -------------------------------------------------------------------- *)
(** ** The rows *)

(** Every component is under its own key. *)
Definition keyed (inv : inventory) : Prop := ∀ k it, inv !! k = Some it → it_Key it = k.

(** A component's own site serves it. *)
Definition site_ok (it : Item) : Prop :=
  match it_Named it with
  | None => True
  | Some site => st_Error site = "" ∧ st_Present site = true ∧
      (it_Tag it ≠ "" → st_TagDigest site ≠ "") ∧
      (st_TagDigest site ≠ "" → st_TagDigest site = it_Digest it)
  end.

(** Two sides hold one component alike. *)
Record alike (x y : Item) : Prop := {
  al_digest : it_Digest x = it_Digest y;
  al_tag : it_Tag x = it_Tag y;
  al_reachable : it_Unreachable x = "" ∧ it_Unreachable y = "";
  al_sites : site_ok x ∧ site_ok y }.

Lemma site_note_nil label it : it_Unreachable it = "" → site_note label it = [] ↔ site_ok it.
Proof.
  intros Hu. unfold site_note, site_ok. rewrite Hu. simpl. destruct (it_Named it) as [site|]; [|done].
  destruct (String.eqb_spec (st_Error site) "") as [E1|E1]; simpl; [|split; [done|naive_solver]].
  destruct (st_Present site); simpl; [|split; [done|naive_solver]].
  destruct (String.eqb_spec (it_Tag it) "") as [E2|E2], (String.eqb_spec (st_TagDigest site) "") as [E3|E3]; simpl;
    try (destruct (String.eqb_spec (st_TagDigest site) (it_Digest it)) as [E4|E4]; simpl); naive_solver.
Qed.

Lemma item_differences_nil x y : item_differences x y = [] ↔ alike x y.
Proof.
  unfold item_differences, siteDifferences, unreachable_note.
  destruct (String.eqb_spec (it_Unreachable x) "") as [E1|E1]; [|split; [done|intros [? ? [? ?] ?]; done]].
  destruct (String.eqb_spec (it_Unreachable y) "") as [E2|E2]; [|split; [done|intros [? ? [? ?] ?]; done]].
  destruct (String.eqb_spec (it_Digest x) (it_Digest y)) as [E3|E3]; [|split; [done|intros []; done]].
  destruct (String.eqb_spec (it_Tag x) (it_Tag y)) as [E4|E4]; [|split; [done|intros []; done]].
  simpl. rewrite app_nil, !site_note_nil by done. split; [by intros []; constructor|by intros []].
Qed.

(** A row says what its two components are. *)
Record row_of (a b : inventory) (notes : list string) (key : string) (r : Row) : Prop := {
  ro_key : rw_Key r = key;
  ro_sides : rw_A r = a !! key ∧ rw_B r = b !! key;
  ro_onlyA : rw_Verdict r = VerdictOnlyA ↔ is_Some (a !! key) ∧ b !! key = None;
  ro_onlyB : rw_Verdict r = VerdictOnlyB ↔ a !! key = None ∧ is_Some (b !! key);
  ro_same : rw_Verdict r = VerdictSame ↔ rw_Differences r = [];
  ro_differences x y : a !! key = Some x → b !! key = Some y →
    rw_Differences r = item_differences x y ++ (if String.eqb key rootKey then notes else []) }.

Lemma note_root_row_of a b notes key r0 :
  keyed a → keyed b → compareItems (a !! key) (b !! key) = Some r0 →
  row_of a b notes key (note_root notes key r0).
Proof.
  intros Ha Hb Hr0.
  assert (row_of a b [] key r0) as [H1 [H2 H2'] H3 H4 H5 H6].
  { destruct (a !! key) as [x|] eqn:Ea, (b !! key) as [y|] eqn:Eb; simpl in Hr0; try done; injection Hr0 as <-.
    - constructor; simpl; rewrite ?Ea, ?Eb; try done.
      + by apply Ha.
      + case_bool_decide; naive_solver.
      + case_bool_decide; naive_solver.
      + by case_bool_decide.
      + intros x' y' [= <-] [= <-]. destruct (String.eqb key rootKey); by rewrite app_nil_r.
    - constructor; simpl; rewrite ?Ea, ?Eb; try done; [by apply Ha|naive_solver..].
    - constructor; simpl; rewrite ?Ea, ?Eb; try done; [by apply Hb|naive_solver..]. }
  unfold note_root. destruct (String.eqb key rootKey) eqn:Ek; simpl; [|by constructor; rewrite ?Ek].
  case_bool_decide as Hn; simpl; [subst notes; by constructor; rewrite ?Ek|].
  constructor; simpl; try done.
  - rewrite <-H3. case_bool_decide as E; [rewrite E; split; [done|by intros ?]|done].
  - rewrite <-H4. case_bool_decide as E; [rewrite E; split; [done|by intros ?]|done].
  - split.
    + case_bool_decide as E; [done|intros ?; done].
    + intros E. by apply app_eq_nil in E as [_ E].
  - intros x y Hx Hy. rewrite (H6 x y Hx Hy), Ek. by rewrite app_nil_r.
Qed.

#[export] Instance row_less_weak : WeakLess row_less.
Proof.
  apply (weak_lex (λ r, rank (rw_Verdict r)) Z.eqb Z.ltb), (weak_lex rw_Type String.eqb String.ltb),
    (weak_key rw_Name String.eqb String.ltb).
Qed.

Lemma rows_align a b notes :
  keyed a → keyed b →
  let rows := align a b notes in
  NoDup (rw_Key <$> rows) ∧
  (∀ k, k ∈ rw_Key <$> rows ↔ is_Some (a !! k) ∨ is_Some (b !! k)) ∧
  (∀ r, r ∈ rows → row_of a b notes (rw_Key r) r) ∧
  StronglySorted (not_less row_less) rows.
Proof.
  intros Ha Hb rows.
  set (F := λ key, note_root notes key <$> compareItems (a !! key) (b !! key)).
  set (keys := elements (dom a ∪ dom b)).
  assert (∀ k, k ∈ keys ↔ is_Some (a !! k) ∨ is_Some (b !! k)) as Hkeys.
  { intros k. unfold keys. by rewrite elem_of_elements, elem_of_union, !elem_of_dom. }
  assert (∀ k, k ∈ keys → ∃ r, F k = Some r ∧ row_of a b notes k r) as HF.
  { intros k Hk. unfold F. destruct (compareItems (a !! k) (b !! k)) as [r|] eqn:E.
    - exists (note_root notes k r). split; [done|]. by apply note_root_row_of.
    - apply Hkeys in Hk. destruct (a !! k), (b !! k); try done. by destruct Hk as [[]|[]]. }
  assert (rows ≡ₚ omap F keys) as Hrows by apply slice_stable_Permutation.
  assert (rw_Key <$> rows ≡ₚ keys) as Hk.
  { rewrite Hrows. clear Hrows Hkeys. induction keys as [|k l IH]; [done|].
    destruct (HF k) as (r & E & Hr); [left|]. cbn [omap list_omap]. rewrite E, fmap_cons, (ro_key _ _ _ _ _ Hr), IH;
      [done|]. intros k' Hk'. apply HF. by right. }
  split; [rewrite Hk; apply NoDup_elements|]. split; [intros k; by rewrite Hk, Hkeys|].
  split; [|apply slice_stable_sorted, _].
  intros r Hr. rewrite Hrows in Hr. apply list_elem_of_omap in Hr as (k & Hk' & E).
  destruct (HF k Hk') as (r' & E' & Hr'). rewrite E in E'. injection E' as <-.
  by rewrite (ro_key _ _ _ _ _ Hr').
Qed.

(** The rows are the two inventories.  Every component of either side has
    exactly one row, holding both sides' copies, and no other row is there; it is
    on one side only exactly when the other side lacks it; and the rows are in
    reading order, what differs before what agrees. *)
Theorem rows_are_the_inventories a b notes :
  keyed a → keyed b →
  let rows := align a b notes in
  NoDup (rw_Key <$> rows) ∧
  (∀ k, k ∈ rw_Key <$> rows ↔ is_Some (a !! k) ∨ is_Some (b !! k)) ∧
  (∀ r, r ∈ rows → row_of a b notes (rw_Key r) r) ∧
  StronglySorted (not_less row_less) rows.
Proof. apply rows_align. Qed.

(* -------------------------------------------------------------------- *)
(** ** The inventory *)

Lemma add_keyed inv it : keyed inv → keyed (add inv it).
Proof.
  intros Hk k x. unfold add. destruct (inv !! it_Key it) as [held|] eqn:E.
  - destruct (String.eqb _ _); [apply Hk|]. destruct (inv !! words _) eqn:E'; [apply Hk|].
    intros [[<- <-]|[_ H]]%lookup_insert_Some; [done|by apply Hk].
  - intros [[<- <-]|[_ H]]%lookup_insert_Some; [done|by apply Hk].
Qed.

Lemma probe_keyed client inv : keyed inv → keyed (probeNamedSites client inv).
Proof.
  intros Hk k x. unfold probeNamedSites. rewrite lookup_fmap. intros (y & Hy & ->)%fmap_Some.
  by apply (Hk k y).
Qed.

Lemma take_inventory_keyed spec ref c artifacts missing : keyed (take_inventory spec ref c artifacts missing).
Proof.
  unfold take_inventory. generalize (imap (λ i a, itemFrom a spec ref (Nat.eqb i 0) c) artifacts ++
    ((λ m, (itemFrom (mkArtifact (ms_Descriptor m) None 0 (ms_Depth m) []) spec ref false c)
       <| it_Unreachable := summarise (ms_Err m) |>) <$> missing)) as l.
  intros l. assert (keyed (∅ : inventory)) as H by (by intros k x).
  revert H. generalize (∅ : inventory) as inv. induction l as [|x l IH]; intros inv H; [done|].
  apply IH. by apply add_keyed.
Qed.

(** Where an inventory may hold a component. *)
Definition second_key (it : Item) : string := words [it_Key it; NUL; it_Tag it].

(** A component is there, under its key or under its key and its tag. *)
Definition present (inv : inventory) (it : Item) : Prop :=
  (∃ x, inv !! it_Key it = Some x ∧ it_Digest x = it_Digest it) ∨ inv !! second_key it = Some (it <| it_Key := second_key it |>).

(** Both its names are other content's. *)
Definition crowded_out (inv : inventory) (it : Item) : Prop :=
  (∃ x, inv !! it_Key it = Some x ∧ it_Digest x ≠ it_Digest it) ∧ is_Some (inv !! second_key it).

Lemma add_keeps inv it k x : inv !! k = Some x → add inv it !! k = Some x.
Proof.
  intros Hx. unfold add. destruct (inv !! it_Key it) as [held|] eqn:E.
  - destruct (String.eqb _ _); [done|]. destruct (inv !! words _) eqn:E'; [done|].
    rewrite lookup_insert_ne; [done|]. intros <-. congruence.
  - rewrite lookup_insert_ne; [done|]. intros <-. congruence.
Qed.

Lemma adds_keep l inv k x : inv !! k = Some x → foldl add inv l !! k = Some x.
Proof. revert inv. induction l as [|it l IH]; intros inv Hx; [done|]. by apply IH, add_keeps. Qed.

(** No component is dropped from an inventory but one whose key and whose
    key with its tag both belong to other content; and an inventory holds
    nothing but the components it was given. *)
Theorem inventory_keeps_components l :
  let inv := foldl add ∅ l in
  (∀ it, it ∈ l → present inv it ∨ crowded_out inv it) ∧
  (∀ k x, inv !! k = Some x → ∃ it, it ∈ l ∧ (x = it ∨ x = it <| it_Key := second_key it |>)).
Proof.
  intros inv. split.
  - intros it Hin. apply list_elem_of_split in Hin as (l1 & l2 & El).
    assert (inv = foldl add (add (foldl add ∅ l1) it) l2) as Ei by (unfold inv; by rewrite El, foldl_app).
    set (inv1 := foldl add ∅ l1) in Ei.
    assert (∀ k x, add inv1 it !! k = Some x → inv !! k = Some x) as Hkeep
      by (intros k x ?; rewrite Ei; by apply adds_keep).
    unfold add in Hkeep. destruct (inv1 !! it_Key it) as [held|] eqn:E.
    + destruct (String.eqb_spec (it_Digest held) (it_Digest it)) as [Ed|Ed].
      * left. left. exists held. auto.
      * destruct (inv1 !! words _) as [other|] eqn:E'.
        -- right. split; [exists held; auto|]. exists other. auto.
        -- left. right. apply Hkeep, lookup_insert_eq.
    + left. left. exists it. split; [|done]. apply Hkeep, lookup_insert_eq.
  - unfold inv. clear inv. induction l as [|it l IH] using rev_ind; [done|].
    intros k x. rewrite foldl_app. cbn [foldl]. set (inv := foldl add ∅ l) in *.
    assert (∀ k x, inv !! k = Some x → ∃ y, y ∈ l ++ [it] ∧ (x = y ∨ x = y <| it_Key := second_key y |>)) as IH'.
    { intros k' x' H. destruct (IH k' x' H) as (y & Hy & ?). exists y. split; [|done]. apply elem_of_app. by left. }
    assert (it ∈ l ++ [it]) as Hin by (apply elem_of_app; right; left).
    unfold add. destruct (inv !! it_Key it) as [held|] eqn:E.
    + destruct (String.eqb _ _); [apply IH'|]. destruct (inv !! words _) eqn:E'; [apply IH'|].
      intros [[<- <-]|[_ H]]%lookup_insert_Some; [|by eapply IH']. exists it. auto.
    + intros [[<- <-]|[_ H]]%lookup_insert_Some; [|by eapply IH']. exists it. auto.
Qed.

(* -------------------------------------------------------------------- *)
(** ** The report *)

(** The two sides of a key, as a comparison without a difference has them. *)
Definition no_difference (x y : option Item) : Prop :=
  match x, y with
  | Some x, Some y => alike x y
  | None, None => True
  | _, _ => False
  end.

Lemma tally_sum rows :
  tally VerdictSame rows + tally VerdictChanged rows + tally VerdictOnlyA rows + tally VerdictOnlyB rows =
  Z.of_nat (length rows).
Proof.
  unfold tally. induction rows as [|r rows IH]; [done|]. rewrite !filter_cons.
  destruct (rw_Verdict r); simpl; lia.
Qed.

Lemma tally_fmap f v (rows : list Row) :
  (∀ r, rw_Verdict (f r) = rw_Verdict r) → tally v (f <$> rows) = tally v rows.
Proof.
  intros Hf. unfold tally. f_equal. induction rows as [|r rows IH]; [done|].
  rewrite fmap_cons, !filter_cons, Hf. case_decide; simpl; by rewrite IH.
Qed.

Lemma tally_inspect v rows : tally v (inspectFiles rows) = tally v rows.
Proof. apply tally_fmap. intros r. by case_bool_decide. Qed.

Lemma tally_zero v rows : tally v rows = 0 ↔ ∀ r, r ∈ rows → rw_Verdict r ≠ v.
Proof.
  unfold tally. split.
  - intros H r Hr E. assert (r ∈ filter (λ r, rw_Verdict r = v) rows) as Hin by by apply list_elem_of_filter.
    destruct (filter _ rows); [by apply elem_of_nil in Hin|simpl in H; lia].
  - intros H. rewrite filter_none; [done|]. intros r Hr. by apply H.
Qed.

(** The rows of two inventories without notes agree exactly where they are alike. *)
Lemma differences_zero a b notes :
  keyed a → keyed b →
  let rows := align a b notes in
  tally VerdictChanged rows + tally VerdictOnlyA rows + tally VerdictOnlyB rows = 0 ↔
  (∀ k, no_difference (a !! k) (b !! k)) ∧ (is_Some (a !! rootKey) → notes = []).
Proof.
  intros Ha Hb rows. destruct (rows_align a b notes Ha Hb) as (_ & Hk & Hr & _). fold rows in Hk, Hr.
  assert (∀ v, 0 <= tally v rows) as Hpos by (intros; unfold tally; lia).
  assert (tally VerdictChanged rows + tally VerdictOnlyA rows + tally VerdictOnlyB rows = 0 ↔
    ∀ r, r ∈ rows → rw_Verdict r = VerdictSame) as ->.
  { pose proof (Hpos VerdictChanged). pose proof (Hpos VerdictOnlyA). pose proof (Hpos VerdictOnlyB). split.
    - intros H' r Hin. destruct (rw_Verdict r) eqn:E; [done|..]; exfalso.
      + by apply (proj1 (tally_zero VerdictChanged rows) ltac:(lia) r Hin).
      + by apply (proj1 (tally_zero VerdictOnlyA rows) ltac:(lia) r Hin).
      + by apply (proj1 (tally_zero VerdictOnlyB rows) ltac:(lia) r Hin).
    - intros H'. rewrite !(proj2 (tally_zero _ rows)); [done|intros r Hin; by rewrite (H' r Hin)..]. }
  split.
  - intros Hall.
    assert (∀ k, is_Some (a !! k) ∨ is_Some (b !! k) → ∃ x y, a !! k = Some x ∧ b !! k = Some y ∧ alike x y ∧
      (k = rootKey → notes = [])) as Hsame.
    { intros k Hin. apply Hk, list_elem_of_fmap in Hin as (r & -> & Hin).
      destruct (Hr r Hin) as [_ _ HoA HoB Hs Hd]. specialize (Hall r Hin). rewrite Hall in HoA, HoB.
      assert (rw_Key r ∈ rw_Key <$> rows) as Hex by by apply list_elem_of_fmap_2. apply Hk in Hex.
      destruct (a !! rw_Key r) as [x|] eqn:Ex, (b !! rw_Key r) as [y|] eqn:Ey.
      - exists x, y. split; [done|]. split; [done|]. pose proof (Hd x y eq_refl eq_refl) as E.
        rewrite (proj1 Hs Hall) in E. symmetry in E. apply app_eq_nil in E as [E1 E2].
        apply item_differences_nil in E1. split; [done|]. intros Ek. rewrite Ek in E2.
        by rewrite String.eqb_refl in E2.
      - exfalso. assert (VerdictSame = VerdictOnlyA) by (apply HoA; eauto). done.
      - exfalso. assert (VerdictSame = VerdictOnlyB) by (apply HoB; eauto). done.
      - by destruct Hex as [[]|[]]. }
    split.
    + intros k. destruct (a !! k) as [x|] eqn:Ex, (b !! k) as [y|] eqn:Ey; simpl; try done.
      all: destruct (Hsame k) as (x' & y' & E1 & E2 & E3 & _); [rewrite ?Ex, ?Ey; eauto|simplify_eq; done].
    + intros Hroot. destruct (Hsame rootKey) as (_ & _ & _ & _ & _ & H'); auto.
  - intros [Hno Hnotes] r Hin. destruct (Hr r Hin) as [_ _ HoA HoB Hs Hd]. apply Hs.
    assert (rw_Key r ∈ rw_Key <$> rows) as Hex by by apply list_elem_of_fmap_2. apply Hk in Hex.
    specialize (Hno (rw_Key r)).
    destruct (a !! rw_Key r) as [x|] eqn:Ex, (b !! rw_Key r) as [y|] eqn:Ey; try done; [|by destruct Hex as [[]|[]]].
    rewrite (Hd x y eq_refl eq_refl). simpl in Hno. apply item_differences_nil in Hno as ->.
    destruct (String.eqb_spec (rw_Key r) rootKey) as [Ek|]; [|done]. simpl. apply Hnotes. rewrite <-Ek, Ex. eauto.
Qed.

(** The rows' keys are both sides'. *)
Lemma align_length a b notes :
  keyed a → keyed b → length (align a b notes) = size (dom a ∪ dom b).
Proof.
  intros Ha Hb. destruct (rows_align a b notes Ha Hb) as (Hnd & Hk & _).
  rewrite <-(length_fmap rw_Key), <-(size_list_to_set (C := gset string) _ Hnd). f_equal. apply leibniz_equiv.
  intros k. by rewrite elem_of_list_to_set, Hk, elem_of_union, !elem_of_dom.
Qed.

Section compared.
Context (unmarshal : string → string + manifestBody) (rfc3339 : string → option string).
Context (clientA clientB : ClientFactory) (opts : Options).

Lemma readSide_keyed client spec c chosen with_ inv extra :
  readSide unmarshal rfc3339 client spec c chosen with_ = Some (inr (inv, extra)) → keyed inv.
Proof.
  unfold readSide. destruct (WalkPartial _ _ _) as [[err|[[tree missing] n]]|]; simpl; [done| |done].
  destruct (ss_PublishesComponentsByName spec); intros [= <- _]; apply probe_keyed, take_inventory_keyed.
Qed.

(** A side is always read, or refused. *)
Lemma readSide_returns client spec c chosen with_ : is_Some (readSide unmarshal rfc3339 client spec c chosen with_).
Proof.
  unfold readSide, WalkPartial. destruct (walk_some unmarshal (rc_repo c) true (held_desc c chosen)) as [[[]|w] ->]; simpl; eauto.
Qed.

(** A comparison ends: with a report, or with the side that could not be
    read named, the first side's refusal before the second's. *)
Theorem comparison_returns :
  match Run unmarshal rfc3339 clientA clientB opts with
  | None => False
  | Some (inl err) => ∃ label cause, label ∈ [ss_Label (op_A opts); ss_Label (op_B opts)] ∧
      err = wrapf ["read "; label] cause
  | Some (inr report) => rt_A report = op_A opts ∧ rt_B report = op_B opts
  end.
Proof.
  unfold Run. destruct (probeRoot clientA _) as [err|a]; [exists (ss_Label (op_A opts)), err; by split; [left|]|].
  destruct (probeRoot clientB _) as [err|b]; [exists (ss_Label (op_B opts)), err; by split; [right; left|]|].
  destruct (chosen_roots a b) as [chosenA chosenB].
  destruct (readSide_returns clientA (op_A opts) a chosenA (op_Classify opts)) as [sideA ->].
  destruct (readSide_returns clientB (op_B opts) b chosenB (op_Classify opts)) as [sideB ->]. simpl.
  destruct sideA as [err|[invA extraA]]; [exists (ss_Label (op_A opts)), err; by split; [left|]|].
  destruct sideB as [err|[invB extraB]]; [exists (ss_Label (op_B opts)), err; by split; [right; left|]|].
  done.
Qed.

(** What a comparison that reports stands on: both roots probed, the roots
    chosen, and both sides read from them. *)
Record compared (report : Report) (a b : rootChoice) (invA invB : inventory) : Prop := mkCompared {
  cp_probed_a : probeRoot clientA (op_A opts) = inr a;
  cp_probed_b : probeRoot clientB (op_B opts) = inr b;
  cp_resolved : (rt_ResolvedA report, rt_ResolvedB report) = chosen_roots a b;
  cp_read_a : readSide unmarshal rfc3339 clientA (op_A opts) a (rt_ResolvedA report) (op_Classify opts) =
              Some (inr (invA, (rt_ExtraTagsA report, rt_ExtraTruncatedA report)));
  cp_read_b : readSide unmarshal rfc3339 clientB (op_B opts) b (rt_ResolvedB report) (op_Classify opts) =
              Some (inr (invB, (rt_ExtraTagsB report, rt_ExtraTruncatedB report)))  }.

(** C18. A report is the two places' own content.  It stands on two inventories
    that were read; every component of either is counted once, as the same or as
    a difference; and no difference is reported exactly when the components are
    the same, under the same names, reachable and published under them on both
    sides, and no reference resolves on one side only. *)
Theorem a_report_is_the_two_places report :
  Run unmarshal rfc3339 clientA clientB opts = Some (inr report) →
  ∃ a b invA invB,
    compared report a b invA invB ∧
    rt_Same report + Differences report = Z.of_nat (size (dom invA ∪ dom invB)) ∧
    (Differences report = 0 ↔
      (∀ k, no_difference (invA !! k) (invB !! k)) ∧
      (is_Some (invA !! rootKey) → referenceNotes a b (rt_ResolvedA report) (rt_ResolvedB report) = [])).
Proof.
  unfold Run. destruct (probeRoot clientA _) as [|a] eqn:Ea; [done|].
  destruct (probeRoot clientB _) as [|b] eqn:Eb; [done|].
  destruct (chosen_roots a b) as [chosenA chosenB] eqn:Ec.
  destruct (readSide _ _ clientA _ _ _ _) as [[|[invA extraA]]|] eqn:EA; simpl; [|..|done].
  { by destruct (readSide _ _ clientB _ _ _ _) as [[]|]. }
  destruct (readSide _ _ clientB _ _ _ _) as [[|[invB extraB]]|] eqn:EB; simpl; [done| |done].
  intros [= <-]. pose proof (readSide_keyed _ _ _ _ _ _ _ EA) as HA. pose proof (readSide_keyed _ _ _ _ _ _ _ EB) as HB.
  set (notes := referenceNotes a b chosenA chosenB).
  exists a, b, invA, invB. split; [by constructor; destruct extraA, extraB|].
  unfold Differences. simpl. rewrite !tally_inspect, <-(align_length _ _ notes HA HB). split.
  - rewrite <-tally_sum. lia.
  - by apply differences_zero.
Qed.

(** Like is compared with like.  When some named reference is held by both
    sides, both are walked from one such reference, the first in the first
    side's order; and nothing is said of the references exactly when no
    reference both sides were asked for resolves on one of them only. *)
Theorem like_is_compared_with_like (a b : rootChoice) :
  (∀ ref, ref ∈ rc_order a → ref ≠ "") →
  (∀ ref, ref ∈ rc_order a → holds a ref = true → holds b ref = true →
    ∃ l ref' r, chosen_roots a b = (ref', ref') ∧ rc_order a = l ++ ref' :: r ∧
      holds a ref' = true ∧ holds b ref' = true ∧ ∀ x, x ∈ l → holds a x && holds b x = false) ∧
  (∀ chosenA chosenB, referenceNotes a b chosenA chosenB = [] ↔
    ∀ ref, ref ∈ rc_order a → ref ∈ rc_order b → holds a ref = holds b ref).
Proof.
  intros Hne. split.
  - intros ref Hin Ha Hb. unfold chosen_roots, first_such. revert Hne Hin.
    generalize (rc_order a) as order. induction order as [|x order IH]; intros Hne Hin.
    + by apply elem_of_nil in Hin.
    + rewrite filter_cons. destruct (holds a x && holds b x) eqn:Ex.
      * rewrite decide_True by done. simpl. destruct (String.eqb_spec x "") as [->|_]; [by destruct (Hne ""); [left|]|].
        apply andb_true_iff in Ex as [? ?]. exists [], x, order. repeat split; try done. intros y Hy. by apply elem_of_nil in Hy.
      * rewrite decide_False by done. apply elem_of_cons in Hin as [->|Hin]; [by rewrite Ha, Hb in Ex|].
        destruct IH as (l & ref' & r & -> & -> & ? & ? & Hl); [intros y Hy; apply Hne; by right|done|].
        exists (x :: l), ref', r. repeat split; try done. intros y [->|Hy]%elem_of_cons; [done|by apply Hl].
  - intros chosenA chosenB. unfold referenceNotes. set (F := λ ref, if holds a ref && negb (holds b ref) then _ else _).
    set (shared := filter _ (rc_order a)).
    assert (omap F shared = [] ↔ ∀ ref, ref ∈ rc_order a → ref ∈ rc_order b → holds a ref = holds b ref) as <-.
    { assert (∀ ref, F ref = None ↔ holds a ref = holds b ref) as HF
        by (intros ref; unfold F; by destruct (holds a ref), (holds b ref)).
      split.
      - intros H ref Ha Hb. apply HF. destruct (F ref) as [s|] eqn:E; [|done].
        assert (s ∈ omap F shared) as Hs by (apply list_elem_of_omap; exists ref; split; [by apply list_elem_of_filter|done]).
        rewrite H in Hs. by apply elem_of_nil in Hs.
      - intros H. destruct (omap F shared) as [|s l] eqn:E; [done|].
        assert (s ∈ omap F shared) as Hs by (rewrite E; left).
        apply list_elem_of_omap in Hs as (ref & [? ?]%list_elem_of_filter & Hs). rewrite (proj2 (HF ref)) in Hs; auto. done. }
    destruct (omap F shared); [done|]. by split.
Qed.
End compared.

(* -------------------------------------------------------------------- *)
(** ** Files *)

(** The file a side serves at a path: the last layer of that title. *)
Definition served_file (item : option Item) (path : string) : option Layer :=
  if String.eqb path "" then None
  else it ← item; last (filter (λ l, ly_Title l = path) (it_Layers it)).

Lemma byPath_served item path : byPath item !! path = served_file item path.
Proof.
  unfold served_file. destruct item as [it|]; [|by destruct (String.eqb path "")]. simpl.
  unfold byPath. induction (it_Layers it) as [|l ls IH] using rev_ind; [by destruct (String.eqb path "")|].
  rewrite foldl_app, filter_app, filter_cons. simpl. rewrite filter_nil.
  destruct (String.eqb_spec path "") as [->|Hp].
  - destruct (String.eqb_spec (ly_Title l) "") as [|E]; [done|]. by rewrite lookup_insert_ne.
  - destruct (String.eqb_spec (ly_Title l) "") as [E|E].
    + rewrite decide_False by congruence. by rewrite app_nil_r.
    + destruct (decide (ly_Title l = path)) as [<-|]; [by rewrite lookup_insert_eq, last_snoc|].
      by rewrite lookup_insert_ne, app_nil_r.
Qed.

(** A file diff is the two file lists.  Every titled file of either side has
    exactly one entry, in the order of its path, and an untitled one has none; it
    is the same when both sides serve it with one digest, changed when with two, and
    on one side only when the other does not serve it; of several layers at one
    path the last is the file. *)
Theorem file_diff_is_the_two_lists a b :
  let files := diffFiles a b in
  NoDup (fd_Path <$> files) ∧ StronglySorted string_le (fd_Path <$> files) ∧
  (∀ p, p ∈ fd_Path <$> files ↔ is_Some (served_file a p) ∨ is_Some (served_file b p)) ∧
  (∀ f, f ∈ files →
    match fd_Verdict f with
    | VerdictOnlyA => served_file b (fd_Path f) = None
    | VerdictOnlyB => served_file a (fd_Path f) = None
    | VerdictSame => ∃ l r, served_file a (fd_Path f) = Some l ∧ served_file b (fd_Path f) = Some r ∧ ly_Digest l = ly_Digest r
    | VerdictChanged => ∃ l r, served_file a (fd_Path f) = Some l ∧ served_file b (fd_Path f) = Some r ∧ ly_Digest l ≠ ly_Digest r
    end).
Proof.
  intros files.  set (paths := sort_strings (elements (dom (byPath a)) ++
    filter (λ p, p ∉ dom (byPath a)) (elements (dom (byPath b))))).
  assert (fd_Path <$> files = paths) as Ep by (unfold files, diffFiles; fold paths; rewrite <-list_fmap_compose; apply list_fmap_id).
  rewrite Ep. assert (∀ p, p ∈ paths ↔ is_Some (served_file a p) ∨ is_Some (served_file b p)) as Hp.
  { intros p. unfold paths. rewrite sort_strings_Permutation, elem_of_app, list_elem_of_filter, !elem_of_elements, !elem_of_dom,
      !byPath_served. destruct (served_file a p), (served_file b p); naive_solver. }
  split_and!; [| |done|].
  - unfold paths. rewrite sort_strings_Permutation. apply NoDup_app. split_and!; [apply NoDup_elements| |apply NoDup_filter, NoDup_elements].
    intros p Hin%elem_of_elements [? _]%list_elem_of_filter. done.
  - apply sort_strings_sorted.
  - intros f Hf. unfold files, diffFiles in Hf. fold paths in Hf. apply list_elem_of_fmap in Hf as (p & -> & Hin).
    apply Hp in Hin. unfold fileDiff. simpl. rewrite !byPath_served.
    destruct (served_file a p) as [l|] eqn:El, (served_file b p) as [r|] eqn:Er; simpl; rewrite ?El, ?Er; try done.
    destruct (String.eqb_spec (ly_Digest l) (ly_Digest r)); eauto.
Qed.

(* -------------------------------------------------------------------- *)
(** ** Examples *)

Definition toy_client : ClientFactory := λ repository,
  if String.eqb repository "store" then inr toy_registry else inl (sentinel ErrNotFound).

Definition toy_side (label : string) (references : list string) : SideSpec :=
  mkSideSpec label "store" references "" false.

Definition toy_options (a b : list string) : Options := mkOptions (toy_side "a" a) (toy_side "b" b) 4 None.

Definition toy_run (a b : list string) : option (Fault + Report) :=
  Run toy_unmarshal (λ _, None) toy_client toy_client (toy_options a b).

(** The index beside itself: what it lists and does not hold is the one
    difference. *)
Definition toy_report : Report := Eval vm_compute in
  match toy_run [address "0"] [address "0"] with
  | Some (inr r) => r
  | _ => report_of (toy_options [] []) "" "" [] ([], false) ([], false)
  end.

Example an_incomplete_place_differs_from_itself :
  (rt_Same toy_report, Differences toy_report, rw_Verdict <$> rt_Rows toy_report) =
  (2, 1, [VerdictChanged; VerdictSame; VerdictSame]).
Proof. vm_compute. reflexivity. Qed.

(** The index beside the image it lists: two artifacts rather than one. *)
Example two_artifacts :
  match toy_run [address "0"] [address "1"] with
  | Some (inr r) => Some (rt_Same r, rt_Changed r, rt_OnlyA r, rt_OnlyB r)
  | _ => None
  end = Some (0, 1, 2, 0).
Proof. vm_compute. reflexivity. Qed.

Definition toy_item (digest : string) : Item :=
  mkItem "nginx" "Container image" "image" "nginx" "1.2" digest 10 "store" 1 None [] "".

(** The tag keeps two components of one key apart, and loses the third. *)
Example the_third_component_is_lost :
  (map_to_list (foldl add ∅ [toy_item "x"; toy_item "y"; toy_item "z"])).*2 ≡ₚ
    [toy_item "x"; (toy_item "y") <| it_Key := second_key (toy_item "y") |>].
Proof. vm_compute. solve_Permutation. Qed.

(** The version alone is a repository to a comparison and a tag to a transfer. *)
Example a_bare_version_is_read_twice :
  parseRefName "25.7" = mkRef "25.7" "" ∧ Layout.parseRefName "25.7" = Layout.mkRefName "" "25.7".
Proof. by split. Qed.

(** A repository served in pages of fifty tags, without end. *)
Definition endless_tags : Repository :=
  mkRepository (λ _, inl (sentinel ErrNotFound)) (λ _, inl (sentinel ErrNotFound))
    (Some (λ _ _, inr (replicate 50 "v1", "v1"))).

Example unlisted_tags_are_not_said_truncated :
  (λ r, (length r.1, r.2)) (extraTags endless_tags ∅ []) = (1000%nat, false).
Proof. vm_compute. reflexivity. Qed.

(* -------------------------------------------------------------------- *)
(** ** Witnesses *)

Lemma progress_never_goes_backwards_witness :
  let l := [walked_call 1 1; walked_call 3 3; walked_call 2 3;
            expect_call PhaseNames 2; did_call PhaseNames 2; expect_call PhaseTags 1; did_call PhaseTags 1; settled_call] in
  (report_calls l (newSideReporter "k" "a" 4)).1 = mkReporter "k" "a" 4 PhaseDone 6 6 false ∧
  StronglySorted no_later (report_calls l (newSideReporter "k" "a" 4)).2.
Proof.
  intros l. split; [vm_compute; reflexivity|].
  refine (proj1 (progress_never_goes_backwards "k" "a" 4 [(0, 1); (1, 2)] 1 (Some 1%nat) l _ _ _ (surjective_pairing _))).
  exists [level_calls (0, 1); [walked_call 3 3; walked_call 2 3]]. split; [|reflexivity].
  repeat constructor.
Defined.

Lemma rows_are_the_inventories_witness :
  NoDup (rw_Key <$> align {["nginx" := toy_item "x"]} {["nginx" := toy_item "y"]} ["note"]).
Proof.
  assert (∀ d, keyed {["nginx" := toy_item d]}) as Hk by (intros d k x [<- <-]%lookup_singleton_Some; reflexivity).
  exact (proj1 (rows_are_the_inventories _ _ ["note"] (Hk "x") (Hk "y"))).
Defined.

Lemma a_report_is_the_two_places_witness :
  ∃ a b invA invB,
    compared toy_unmarshal (λ _, None) toy_client toy_client (toy_options [address "0"] [address "0"])
      toy_report a b invA invB ∧ 3 = Z.of_nat (size (dom invA ∪ dom invB)).
Proof.
  destruct (a_report_is_the_two_places toy_unmarshal (λ _, None) toy_client toy_client
    (toy_options [address "0"] [address "0"]) toy_report) as (a & b & invA & invB & Hc & Hn & _);
    [vm_compute; reflexivity|].
  exists a, b, invA, invB. split; [exact Hc|exact Hn].
Defined.

Lemma like_is_compared_with_like_witness :
  let a := mkChoice toy_registry {["2.0" := toy_root; "1.0" := toy_root]} ["2.0"; "1.0"] in
  let b := mkChoice toy_registry {["1.0" := toy_root]} ["2.0"; "1.0"] in
  chosen_roots a b = ("1.0", "1.0") ∧ referenceNotes a b "1.0" "1.0" ≠ [].
Proof.
  intros a b. split; [vm_compute; reflexivity|]. intros H.
  assert (∀ ref, ref ∈ rc_order a → ref ≠ "") as Hne.
  { intros ref Hin. simpl in Hin. intros ->. set_solver. }
  pose proof (proj1 (proj2 (like_is_compared_with_like a b Hne) "1.0" "1.0") H "2.0") as Hbad.
  assert (holds a "2.0" = holds b "2.0") as E by (apply Hbad; left). vm_compute in E. discriminate E.
Defined.
