(* ===== verification/Contents.v ===== *)
(** * What a package consists of, recorded

    internal/store/packages.go, from InsertArtifact to RecordExpandedTree, with
    ReadExpandedTree; internal/expand/expand.go; and writeTree of
    internal/discovery/scanner.go: the rows a package's tree is kept in, the
    listing discovery writes, the walked tree written over it, and the tree a
    transfer plans from, read back.  The tables are a record of their own; the
    queue's [artifact_blobs] and [blobs] are projections of them. *)

From S2P Require Import Prelude GoStrings Completion Layout Planning Registry Tree Requests.
Open Scope Z_scope.

(* -------------------------------------------------------------------- *)
(** ** The tables *)

#[export] Instance BlobKind_countable : Countable BlobKind.
Proof.
  apply (inj_countable' (λ k, match k with BlobConfig => true | BlobLayer => false end)
    (λ b : bool, if b then BlobConfig else BlobLayer)). by intros [].
Defined.

(** package_artifacts *)
Record artifact_row := mkArtifactRow {
  ar_package : Z;
  ar_parent : option Z;
  ar_digest : string;
  ar_media_type : string;
  ar_artifact_type : option string;
  ar_size : Z;
  ar_platform : option string;
  ar_depth : Z;
  ar_raw : option string;
  ar_annotations : option (gmap string string);
  ar_fetched : option Z;
  ar_raw_bytes : Z;
  ar_raw_used : option Z }.

(** What setPackageMeasurement writes of packages. *)
Record measurement := mkMeasurement {
  me_artifact_count : Z;
  me_total_bytes : option Z;
  me_blob_count : option Z;
  me_expanded : option Z }.

(** package_artifacts; artifact_blobs by its primary key, with the ordinal and
    the title; blobs, with the size and the media type. *)
Record Contents := mkContents {
  artifacts : gmap Z artifact_row;
  links : gmap (Z * string * BlobKind) (Z * option string);
  catalogue : gmap string (Z * option string);
  measured : gmap Z measurement }.

#[export] Instance Contents_eta : Eta Contents := λ c,
  mkContents (artifacts c) (links c) (catalogue c) (measured c).

(** The sequence of package_artifacts. *)
Class ArtifactIds := {
  next_artifact : gmap Z artifact_row → Z;
  next_artifact_pos m : 0 < next_artifact m;
  next_artifact_fresh m : m !! next_artifact m = None }.

#[export] Program Instance serial_artifacts : ArtifactIds := {|
  next_artifact m := largest m + 1 |}.
Next Obligation. intros m. pose proof (largest_nonneg m). lia. Qed.
Next Obligation. intros m. apply largest_fresh. Qed.

(* -------------------------------------------------------------------- *)
(** ** Writing *)

(** store.ArtifactRow; no bytes are the empty string. *)
Record ArtifactRow := mkRow {
  aw_ID : Z;
  aw_PackageID : Z;
  aw_ParentID : option Z;
  aw_Digest : string;
  aw_MediaType : string;
  aw_ArtifactType : string;
  aw_SizeBytes : Z;
  aw_Platform : string;
  aw_Depth : Z;
  aw_Annotations : gmap string string;
  aw_Raw : string;
  aw_Fetched : bool;
  aw_Cached : bool }.

#[export] Instance ArtifactRow_eta : Eta ArtifactRow := λ r,
  mkRow (aw_ID r) (aw_PackageID r) (aw_ParentID r) (aw_Digest r) (aw_MediaType r) (aw_ArtifactType r)
    (aw_SizeBytes r) (aw_Platform r) (aw_Depth r) (aw_Annotations r) (aw_Raw r) (aw_Fetched r) (aw_Cached r).

(** store.BlobRef *)
Record StoredBlob := mkStoredBlob {
  sb_Digest : string;
  sb_MediaType : string;
  sb_SizeBytes : Z;
  sb_Kind : BlobKind;
  sb_Ordinal : Z;
  sb_Title : string }.

(** store.ExpandedArtifact, and its tree with the totals. *)
Record StoredArtifact := mkStoredArtifact {
  sa_Row : ArtifactRow;
  sa_Parent : Z;
  sa_Blobs : list StoredBlob }.

Record StoredTree := mkStoredTree {
  st_Artifacts : list StoredArtifact;
  st_TotalBytes : option Z;
  st_BlobCount : option Z }.

Definition sa_Digest (a : StoredArtifact) : string := aw_Digest (sa_Row a).

Definition coalesce {A} (a b : option A) : option A := match a with Some _ => a | None => b end.

Definition rawOrNull (raw : string) : option string := if String.eqb raw "" then None else Some raw.

Definition annotationsJSON (m : gmap string string) : option (gmap string string) :=
  if bool_decide (m = ∅) then None else Some m.

(** fetched_at, raw_bytes, raw_used_at *)
Definition fetchStamps (now : Z) (raw : string) : option Z * Z * option Z :=
  if String.eqb raw "" then (None, 0, None) else (Some now, Z.of_nat (String.length raw), Some now).

Definition new_artifact (now : Z) (a : ArtifactRow) : artifact_row :=
  let '(fetched, bytes, used) := fetchStamps now (aw_Raw a) in
  mkArtifactRow (aw_PackageID a) (aw_ParentID a) (aw_Digest a) (aw_MediaType a) (nullIfEmpty (aw_ArtifactType a))
    (aw_SizeBytes a) (nullIfEmpty (aw_Platform a)) (aw_Depth a) (rawOrNull (aw_Raw a))
    (annotationsJSON (aw_Annotations a)) fetched bytes used.

(** The columns of ON CONFLICT DO UPDATE: [x] is EXCLUDED. *)
Definition fill_artifact (x r : artifact_row) : artifact_row :=
  mkArtifactRow (ar_package r) (ar_parent x) (ar_digest r) (ar_media_type x)
    (coalesce (ar_artifact_type x) (ar_artifact_type r)) (ar_size x)
    (coalesce (ar_platform x) (ar_platform r)) (ar_depth x) (coalesce (ar_raw x) (ar_raw r))
    (coalesce (ar_annotations x) (ar_annotations r)) (coalesce (ar_fetched r) (ar_fetched x))
    (match ar_raw x with None => ar_raw_bytes r | Some _ => ar_raw_bytes x end)
    (coalesce (ar_raw_used x) (ar_raw_used r)).

(** UNIQUE (package_id, digest) *)
Definition artifact_rows (packageID : Z) (digest : string) (c : Contents) : list (Z * artifact_row) :=
  select_where (λ _ r, bool_decide (ar_package r = packageID) && bool_decide (ar_digest r = digest)) (artifacts c).

Definition parent_exists (a : ArtifactRow) (c : Contents) : bool :=
  match aw_ParentID a with None => true | Some p => bool_decide (is_Some (artifacts c !! p)) end.

Definition missing_parent (a : ArtifactRow) : Error := EMissingRow "package_artifacts" (aw_Digest a).

Definition InsertArtifact `{ArtifactIds} (now : Z) (a : ArtifactRow) (c : Contents) : result (Contents * Z) :=
  match artifact_rows (aw_PackageID a) (aw_Digest a) c with
  | (id, _) :: _ => Ok (c, id)
  | [] =>
      if parent_exists a c then
        let id := next_artifact (artifacts c) in
        Ok (c <| artifacts ::= insert id (new_artifact now a) |>, id)
      else Err (missing_parent a)
  end.

Definition upsertArtifact `{ArtifactIds} (now : Z) (a : ArtifactRow) (c : Contents) : result (Contents * Z) :=
  if parent_exists a c then
    match artifact_rows (aw_PackageID a) (aw_Digest a) c with
    | (id, r) :: _ => Ok (c <| artifacts ::= insert id (fill_artifact (new_artifact now a) r) |>, id)
    | [] =>
        let id := next_artifact (artifacts c) in
        Ok (c <| artifacts ::= insert id (new_artifact now a) |>, id)
    end
  else Err (missing_parent a).

Definition insert_absent {K V} `{Countable K} (k : K) (v : V) (m : gmap K V) : gmap K V :=
  match m !! k with Some _ => m | None => <[k := v]> m end.

Definition link_blob (id : Z) (c : Contents) (b : StoredBlob) : Contents :=
  c <| catalogue ::= insert_absent (sb_Digest b) (sb_SizeBytes b, nullIfEmpty (sb_MediaType b)) |>
    <| links ::= insert_absent (id, sb_Digest b, sb_Kind b) (sb_Ordinal b, nullIfEmpty (sb_Title b)) |>.

Definition LinkBlobs (id : Z) (refs : list StoredBlob) (c : Contents) : Contents :=
  foldl (link_blob id) c refs.

Definition setPackageMeasurement (now packageID : Z) (count : Z) (total blobs : option Z) (c : Contents)
    : Contents :=
  c <| measured ::= insert packageID (mkMeasurement count total blobs
         (match total with Some _ => Some now | None => measured c !! packageID ≫= me_expanded end)) |>.

(** The row of the artifact at a position: its parent's row is already known. *)
Definition row_for (packageID : Z) (ids : list Z) (a : StoredArtifact) : ArtifactRow :=
  let row := (sa_Row a) <| aw_PackageID := packageID |> in
  if 0 <=? sa_Parent a then row <| aw_ParentID := Some (default 0 (ids !! Z.to_nat (sa_Parent a))) |> else row.

Definition write_artifact (write : ArtifactRow → Contents → result (Contents * Z)) (packageID : Z)
    (st : Contents * list Z) (a : StoredArtifact) : result (Contents * list Z) :=
  let '(c, ids) := st in
  '(c, id) ← write (row_for packageID ids a) c;
  Ok (LinkBlobs id (sa_Blobs a) c, ids ++ [id]).

Definition RecordExpandedTree `{ArtifactIds} (now packageID : Z) (t : StoredTree) (c : Contents) : result Contents :=
  '(c, _) ← fold_result (write_artifact (upsertArtifact now) packageID) (st_Artifacts t) (c, []);
  Ok (setPackageMeasurement now packageID (Z.of_nat (length (st_Artifacts t))) (st_TotalBytes t) (st_BlobCount t) c).

(* -------------------------------------------------------------------- *)
(** ** Reading *)

(** ORDER BY depth, id *)
Definition tree_rows (packageID : Z) (c : Contents) : list (Z * artifact_row) :=
  order_by (λ r : Z * artifact_row, [ar_depth r.2; r.1])
    (select_where (λ _ r, bool_decide (ar_package r = packageID)) (artifacts c)).

Definition row_of (id : Z) (r : artifact_row) : ArtifactRow :=
  mkRow id 0 None (ar_digest r) (ar_media_type r) (default "" (ar_artifact_type r)) (ar_size r)
    (default "" (ar_platform r)) (ar_depth r) (default ∅ (ar_annotations r)) (default "" (ar_raw r))
    (bool_decide (is_Some (ar_fetched r))) (negb (String.eqb (default "" (ar_raw r)) "")).

(** The blobs of one artifact, ORDER BY kind, ordinal, joined with the catalogue. *)
Definition kind_order (k : BlobKind) : Z := match k with BlobConfig => 0 | BlobLayer => 1 end.

Definition blob_order (b : StoredBlob) : list Z := [kind_order (sb_Kind b); sb_Ordinal b].

Definition linked (c : Contents) (r : (Z * string * BlobKind) * (Z * option string)) : option StoredBlob :=
  let '((_, digest, kind), (ordinal, _)) := r in
  '(size, media) ← catalogue c !! digest;
  Some (mkStoredBlob digest (default "" media) size kind ordinal "").

Definition blobs_for (id : Z) (c : Contents) : list StoredBlob :=
  order_by blob_order (omap (linked c) (select_where (λ k _, bool_decide (k.1.1 = id)) (links c))).

(** A parent is one of the rows before: the position it was given. *)
Definition read_artifact (c : Contents) (st : gmap Z nat * list StoredArtifact)
    (r : Z * artifact_row) : gmap Z nat * list StoredArtifact :=
  let '(index, tree) := st in
  let parent := match ar_parent r.2 with
                | Some p => from_option Z.of_nat (-1) (index !! p)
                | None => -1
                end in
  (<[r.1 := length tree]> index, tree ++ [mkStoredArtifact (row_of r.1 r.2) parent (blobs_for r.1 c)]).

(** Every digest once. *)
Definition measure_stored_blob (st : Z * gset string) (b : StoredBlob) : Z * gset string :=
  if bool_decide (sb_Digest b ∈ st.2) then st else (st.1 + sb_SizeBytes b, {[ sb_Digest b ]} ∪ st.2).

Definition measure_stored (st : Z * gset string) (a : StoredArtifact) : Z * gset string :=
  let st := if bool_decide (sa_Digest a ∈ st.2) then st
            else (st.1 + aw_SizeBytes (sa_Row a), {[ sa_Digest a ]} ∪ st.2) in
  foldl measure_stored_blob st (sa_Blobs a).

Definition measureExpanded (l : list StoredArtifact) : option Z * option Z :=
  if forallb (λ a, aw_Fetched (sa_Row a)) l then
    (Some (foldl measure_stored (0, ∅) l).1,
     Some (Z.of_nat (size (list_to_set (l ≫= λ a, sb_Digest <$> sa_Blobs a) : gset string))))
  else (None, None).

(** The tree, and whether every artifact of it was fetched. *)
Definition ReadExpandedTree (packageID : Z) (c : Contents) : StoredTree * bool :=
  let rows := tree_rows packageID c in
  let '(_, l) := foldl (read_artifact c) (∅, []) rows in
  match l with
  | [] => (mkStoredTree [] None None, false)
  | _ => (mkStoredTree l (measureExpanded l).1 (measureExpanded l).2,
          forallb (λ r, bool_decide (is_Some (ar_fetched r.2))) rows)
  end.

(* -------------------------------------------------------------------- *)
(** ** internal/expand *)

Definition Platform_String (p : option Platform) : string :=
  match p with
  | None => ""
  | Some p => words ([pf_OS p; "/"; pf_Architecture p] ++
                     if String.eqb (pf_Variant p) "" then [] else ["/"; pf_Variant p])
  end.

Definition AnnotationTitle : string := "org.opencontainers.image.title".

Definition stored_blob (b : Tree.BlobRef) : StoredBlob :=
  mkStoredBlob (d_Digest (bl_Descriptor b)) (d_MediaType (bl_Descriptor b)) (d_Size (bl_Descriptor b))
    (bl_Kind b) (bl_Ordinal b) (default "" (d_Annotations (bl_Descriptor b) !! AnnotationTitle)).

Definition stored_artifact (a : Artifact) : StoredArtifact :=
  let d := at_Descriptor a in
  let raw := default "" (at_Raw a) in
  mkStoredArtifact
    (mkRow 0 0 None (d_Digest d) (d_MediaType d) (d_ArtifactType d)
       (if d_Size d =? 0 then Z.of_nat (String.length raw) else d_Size d)
       (Platform_String (d_Platform d)) (at_Depth a) (d_Annotations d) raw false false)
    (at_Parent a) (stored_blob <$> at_Blobs a).

Definition ToStoreTree (t : Tree) : StoredTree :=
  mkStoredTree (stored_artifact <$> tr_Artifacts t) (tr_TotalBytes t) (tr_BlobCount t).

(** What a package's tree is walked from. *)
Definition Root (pkg : PackageRow) : Fault + Descriptor :=
  let digest := if String.eqb (pk_TransferRootDigest pkg) "" then pk_ManifestDigest pkg else pk_TransferRootDigest pkg in
  let mediaType := if String.eqb (pk_TransferRootDigest pkg) "" then pk_MediaType pkg else MediaTypeOCIIndex in
  match Validate digest with
  | Some err => inl (wrapf ["package "; pretty (pk_ID pkg); " has an unusable root digest"] err)
  | None => inr (mkDescriptor mediaType digest 0 "" ∅ None)
  end.

(** The first artifact of depth 0 is the root asked for. *)
Definition rootedAt (t : StoredTree) (root : Descriptor) : bool :=
  match head (filter (λ a, aw_Depth (sa_Row a) = 0) (st_Artifacts t)) with
  | Some a => String.eqb (sa_Digest a) (d_Digest root)
  | None => false
  end.

Record Expansion := mkExpansion { ex_Tree : StoredTree; ex_Fetched : Z; ex_FromRecord : bool }.

(** What an expansion fails with: a fault of the walk, or an error of the store.
    A walk out of fuel there is not (Tree.walk_returns). *)
Inductive ExpandError := ExpandFault (f : Fault) | ExpandStore (e : Error) | ExpandUnending.

Definition not_expanded (packageID : Z) : Fault :=
  plainf ["package "; pretty packageID; " has not been expanded and no source client was supplied"].

Definition Ensure `{ArtifactIds} (unmarshal : string → string + manifestBody) (now packageID : Z)
    (root : Descriptor) (src : option Registry.Repository) (c : Contents)
    : Contents * (ExpandError + Expansion) :=
  let '(recorded, complete) := ReadExpandedTree packageID c in
  if complete && rootedAt recorded root then (c, inr (mkExpansion recorded 0 true))
  else match src with
  | None => (c, inl (ExpandFault (not_expanded packageID)))
  | Some repo =>
      match Tree.Walk unmarshal repo root with
      | None => (c, inl ExpandUnending)
      | Some (inl err) => (c, inl (ExpandFault (wrapf ["walk package "; pretty packageID] err)))
      | Some (inr (t, fetched)) =>
          match RecordExpandedTree now packageID (ToStoreTree t) c with
          | Err e => (c, inl (ExpandStore e))
          | Ok c => (c, inr (mkExpansion (ReadExpandedTree packageID c).1 fetched false))
          end
      end
  end.

(** The listing discovery writes of a tag: what is already there stays. *)
Definition listed_artifact (a : Artifact) : StoredArtifact :=
  let d := at_Descriptor a in
  mkStoredArtifact
    (mkRow 0 0 None (d_Digest d) (d_MediaType d) (d_ArtifactType d) (d_Size d) (Platform_String (d_Platform d))
       (at_Depth a) (d_Annotations d) (default "" (at_Raw a)) false false)
    (at_Parent a)
    ((λ b, mkStoredBlob (d_Digest (bl_Descriptor b)) (d_MediaType (bl_Descriptor b)) (d_Size (bl_Descriptor b))
             (bl_Kind b) (bl_Ordinal b) "") <$> at_Blobs a).

Definition writeTree `{ArtifactIds} (now packageID : Z) (t : Tree) (c : Contents) : result Contents :=
  fst <$> fold_result (write_artifact (InsertArtifact now) packageID) (listed_artifact <$> tr_Artifacts t) (c, []).

(** What the planner reads of a stored artifact. *)
Definition as_planned (a : StoredArtifact) : ExpandedArtifact :=
  Layout.mkArtifact (aw_ID (sa_Row a)) (sa_Digest a) (aw_MediaType (sa_Row a)) (aw_SizeBytes (sa_Row a))
    (aw_Depth (sa_Row a)) (aw_Annotations (sa_Row a)) (sa_Parent a)
    ((λ b, Layout.mkBlobRef (sb_Digest b) (sb_MediaType b) (sb_SizeBytes b)) <$> sa_Blobs a).

(* -------------------------------------------------------------------- *)
(** ** Lemmas: tables filled first-wins *)

Definition insert_absents {K V} `{Countable K} (l : list (K * V)) (m : gmap K V) : gmap K V :=
  foldl (λ m kv, insert_absent kv.1 kv.2 m) m l.

Lemma lookup_insert_absents {K V} `{Countable K} (l : list (K * V)) (m : gmap K V) k :
  insert_absents l m !! k =
  match m !! k with Some v => Some v | None => snd <$> head (filter (λ kv, kv.1 = k) l) end.
Proof.
  unfold insert_absents. revert m. induction l as [|[k' v'] l IH]; intros m; simpl; [by destruct (m !! k)|].
  rewrite IH, filter_cons. unfold insert_absent. case_decide as Hk; simpl in *; [subst k'|].
  - destruct (m !! k) eqn:E; [by rewrite E|]. by rewrite lookup_insert_eq.
  - destruct (m !! k') eqn:E; [done|]. by rewrite lookup_insert_ne.
Qed.

Lemma insert_absents_app {K V} `{Countable K} (l k : list (K * V)) (m : gmap K V) :
  insert_absents (l ++ k) m = insert_absents k (insert_absents l m).
Proof. apply foldl_app. Qed.

Lemma default_nullIfEmpty s : default "" (nullIfEmpty s) = s.
Proof. unfold nullIfEmpty. by destruct (String.eqb_spec s ""). Qed.

Lemma NoDup_omap_inj {A B} (f : A → option B) l :
  NoDup l → (∀ x y z, x ∈ l → y ∈ l → f x = Some z → f y = Some z → x = y) → NoDup (omap f l).
Proof.
  induction 1 as [|x l Hx Hl IH]; intros Hinj; simpl; [constructor|].
  assert (NoDup (omap f l)) as Hn by (apply IH; intros; eapply Hinj; eauto; by right).
  destruct (f x) as [z|] eqn:E; [|done]. constructor; [|done].
  intros (y & Hy & Hz)%list_elem_of_omap. apply Hx.
  by rewrite (Hinj x y z) by (eauto; first [by left|by right]).
Qed.

(** An element of [firsts] is the first of its key. *)
Lemma elem_of_firsts_head {A} (key : A → string) seen l x :
  x ∈ firsts key seen l ↔ key x ∉ seen ∧ head (filter (λ y, key y = key x) l) = Some x.
Proof.
  revert seen. induction l as [|y l IH]; intros seen; cbn [firsts].
  { rewrite elem_of_nil. split; [done|]. by intros [_ ?]. }
  rewrite filter_cons. destruct (bool_decide_reflect (key y ∈ seen)) as [Hy|Hy].
  - rewrite IH. destruct (decide (key y = key x)) as [E|E]; [|done].
    split; intros [Hn _]; by rewrite <-E in Hn.
  - rewrite elem_of_cons, IH. case_decide as E.
    + simpl. split.
      * intros [->|[Hn _]]; [done|set_solver].
      * intros [_ [= ->]]. by left.
    + split; [intros [->|[Hn Hh]]; [done|set_solver]|]. intros [Hn Hh]. right. split; [set_solver|done].
Qed.

Definition link_entry (id : Z) (b : StoredBlob) : (Z * string * BlobKind) * (Z * option string) :=
  ((id, sb_Digest b, sb_Kind b), (sb_Ordinal b, nullIfEmpty (sb_Title b))).

Definition catalogue_entry (b : StoredBlob) : string * (Z * option string) :=
  (sb_Digest b, (sb_SizeBytes b, nullIfEmpty (sb_MediaType b))).

Lemma LinkBlobs_tables id bs c :
  artifacts (LinkBlobs id bs c) = artifacts c ∧ measured (LinkBlobs id bs c) = measured c ∧
  links (LinkBlobs id bs c) = insert_absents (link_entry id <$> bs) (links c) ∧
  catalogue (LinkBlobs id bs c) = insert_absents (catalogue_entry <$> bs) (catalogue c).
Proof.
  unfold LinkBlobs. revert c. induction bs as [|b bs IH]; intros c; [done|]. simpl.
  destruct (IH (link_blob id c b)) as (-> & -> & -> & ->). done.
Qed.

(* -------------------------------------------------------------------- *)
(** ** Lemmas: one artifact *)

(** UNIQUE (package_id, digest) *)
Definition unique_artifacts (m : gmap Z artifact_row) : Prop :=
  ∀ i j r s, m !! i = Some r → m !! j = Some s →
    ar_package r = ar_package s → ar_digest r = ar_digest s → i = j.

(** What a row holds of the artifact written last. *)
Record holds (packageID : Z) (parent : option Z) (a : StoredArtifact) (r : artifact_row) : Prop := {
  ho_package : ar_package r = packageID;
  ho_digest : ar_digest r = sa_Digest a;
  ho_parent : ar_parent r = parent;
  ho_media : ar_media_type r = aw_MediaType (sa_Row a);
  ho_size : ar_size r = aw_SizeBytes (sa_Row a);
  ho_depth : ar_depth r = aw_Depth (sa_Row a);
  ho_raw : aw_Raw (sa_Row a) ≠ "" → ar_raw r = Some (aw_Raw (sa_Row a)) ∧ is_Some (ar_fetched r);
  ho_annotations : aw_Annotations (sa_Row a) ≠ ∅ → ar_annotations r = Some (aw_Annotations (sa_Row a)) }.

Lemma artifact_rows_nil packageID digest c i r :
  artifact_rows packageID digest c = [] → artifacts c !! i = Some r →
  ar_package r = packageID → ar_digest r = digest → False.
Proof.
  intros Hn Hr Hp Hd. apply (not_elem_of_nil (i, r)). rewrite <-Hn.
  apply elem_of_select_where. by rewrite !bool_decide_eq_true_2.
Qed.

Lemma artifact_rows_cons packageID digest c i r l :
  artifact_rows packageID digest c = (i, r) :: l →
  artifacts c !! i = Some r ∧ ar_package r = packageID ∧ ar_digest r = digest.
Proof.
  intros Hc. assert ((i, r) ∈ artifact_rows packageID digest c) as Hin by (rewrite Hc; left).
  apply elem_of_select_where in Hin as [Hr Hp]. by rewrite andb_true_iff, !bool_decide_eq_true in Hp.
Qed.

Lemma row_for_fields packageID ids a :
  let row := row_for packageID ids a in
  aw_PackageID row = packageID ∧ aw_Digest row = sa_Digest a ∧ aw_MediaType row = aw_MediaType (sa_Row a) ∧
  aw_SizeBytes row = aw_SizeBytes (sa_Row a) ∧ aw_Depth row = aw_Depth (sa_Row a) ∧
  aw_Raw row = aw_Raw (sa_Row a) ∧ aw_Annotations row = aw_Annotations (sa_Row a) ∧
  aw_ArtifactType row = aw_ArtifactType (sa_Row a) ∧ aw_Platform row = aw_Platform (sa_Row a).
Proof. unfold row_for. by destruct (0 <=? sa_Parent a). Qed.

Lemma new_artifact_fields now a :
  let r := new_artifact now a in
  ar_package r = aw_PackageID a ∧ ar_parent r = aw_ParentID a ∧ ar_digest r = aw_Digest a ∧
  ar_media_type r = aw_MediaType a ∧ ar_size r = aw_SizeBytes a ∧ ar_depth r = aw_Depth a ∧
  ar_raw r = rawOrNull (aw_Raw a) ∧ ar_annotations r = annotationsJSON (aw_Annotations a) ∧
  (aw_Raw a ≠ "" → ar_fetched r = Some now).
Proof.
  unfold new_artifact, fetchStamps. by destruct (String.eqb_spec (aw_Raw a) ""); simpl.
Qed.

Lemma upsertArtifact_Ok `{ArtifactIds} now packageID ids a c c' id :
  unique_artifacts (artifacts c) →
  upsertArtifact now (row_for packageID ids a) c = Ok (c', id) →
  ∃ r, c' = c <| artifacts ::= insert id r |> ∧ unique_artifacts (artifacts c') ∧
    holds packageID (aw_ParentID (row_for packageID ids a)) a r ∧
    (artifacts c !! id = None ∨
     ∃ o, artifacts c !! id = Some o ∧ ar_package o = packageID ∧ ar_digest o = sa_Digest a).
Proof.
  intros Hu. set (x := row_for packageID ids a).
  destruct (row_for_fields packageID ids a) as (Fp & Fd & Fm & Fs & Fdp & Fr & Fa & _). fold x in Fp, Fd, Fm, Fs, Fdp, Fr, Fa.
  destruct (new_artifact_fields now x) as (Np & Npar & Nd & Nm & Ns & Ndp & Nr & Na & Nf).
  assert (∀ i r, ar_package r = packageID → ar_digest r = sa_Digest a →
    (∀ j s, artifacts c !! j = Some s → ar_package s = packageID → ar_digest s = sa_Digest a → j = i) →
    unique_artifacts (<[i := r]> (artifacts c))) as Hins.
  { intros i r Hp Hd Hone j k s t.
    intros [[<- <-]|[Hj Hs]]%lookup_insert_Some [[<- <-]|[Hk Ht]]%lookup_insert_Some Ep Ed; [done| | |by eapply Hu].
    - symmetry. eapply Hone; [exact Ht|congruence|congruence].
    - eapply Hone; [exact Hs|congruence|congruence]. }
  unfold upsertArtifact. destruct (parent_exists x c); [|done]. rewrite Fp, Fd.
  destruct (artifact_rows packageID (sa_Digest a) c) as [|[i r] l] eqn:Hrows.
  - intros [= <- <-]. exists (new_artifact now x). split; [done|]. split; [|split].
    + apply Hins; [congruence|congruence|]. intros j s Hs Hp Hd. by destruct (artifact_rows_nil _ _ _ _ _ Hrows Hs Hp Hd).
    + split; try congruence.
      * rewrite <-Fr. intros Hne. rewrite Nr, Nf by done. unfold rawOrNull.
        rewrite (proj2 (String.eqb_neq _ _) Hne). by split; [|eexists].
      * rewrite <-Fa. intros Hne. rewrite Na. unfold annotationsJSON. by rewrite bool_decide_eq_false_2.
    + left. apply next_artifact_fresh.
  - apply artifact_rows_cons in Hrows as (Hr & Hp & Hd). intros [= <- <-].
    exists (fill_artifact (new_artifact now x) r). split; [done|]. split; [|split].
    + apply Hins; [done|done|]. intros j s Hs Hp' Hd'. apply (Hu j i s r); congruence.
    + split; simpl; try congruence.
      * rewrite <-Fr. intros Hne. rewrite Nr, Nf by done. unfold rawOrNull.
        rewrite (proj2 (String.eqb_neq _ _) Hne). split; [done|]. destruct (ar_fetched r); by eexists.
      * rewrite <-Fa. intros Hne. rewrite Na. unfold annotationsJSON. by rewrite bool_decide_eq_false_2.
    + right. by exists r.
Qed.

(* -------------------------------------------------------------------- *)
(** ** Lemmas: a tree written *)

(** A tree as a walk gives it: each digest once, the root first and alone at
    depth 0, every other artifact one below an earlier one, and the blobs of
    each in the order a manifest lists them. *)
Definition blob_before (x y : StoredBlob) : Prop :=
  lex_le (blob_order x) (blob_order y) = true ∧ blob_order x ≠ blob_order y.

Record tree_ok (t : list StoredArtifact) : Prop := {
  to_digests : NoDup (sa_Digest <$> t);
  to_root a : t !! 0%nat = Some a → sa_Parent a = -1 ∧ aw_Depth (sa_Row a) = 0;
  to_listed i a : t !! S i = Some a → ∃ p b, sa_Parent a = Z.of_nat p ∧ (p ≤ i)%nat ∧ t !! p = Some b ∧
    aw_Depth (sa_Row a) = aw_Depth (sa_Row b) + 1;
  to_orphan a : a ∈ t → aw_ParentID (sa_Row a) = None;
  to_blobs a : a ∈ t → StronglySorted blob_before (sa_Blobs a) }.

(** The parent column of the artifact at a position. *)
Definition parent_id (ids : list Z) (a : StoredArtifact) : option Z :=
  if 0 <=? sa_Parent a then ids !! Z.to_nat (sa_Parent a) else None.

Lemma row_for_parent packageID ids a :
  aw_ParentID (sa_Row a) = None → (sa_Parent a < Z.of_nat (length ids)) →
  aw_ParentID (row_for packageID ids a) = parent_id ids a.
Proof.
  intros Hn Hlt. unfold row_for, parent_id. destruct (Z.leb_spec 0 (sa_Parent a)); simpl; [|done].
  destruct (lookup_lt_is_Some_2 ids (Z.to_nat (sa_Parent a))) as [x ->]; [lia|done].
Qed.

Lemma parent_id_grows ids x a :
  (sa_Parent a < Z.of_nat (length ids)) → parent_id (ids ++ [x]) a = parent_id ids a.
Proof.
  intros Hlt. unfold parent_id. destruct (Z.leb_spec 0 (sa_Parent a)); [|done]. apply lookup_app_l. lia.
Qed.

Lemma tree_parent_lt t i a : tree_ok t → t !! i = Some a → sa_Parent a < Z.of_nat i ∨ sa_Parent a = -1.
Proof.
  intros Ht Hi. destruct i as [|i]; [right; by apply (to_root t Ht)|].
  destruct (to_listed t Ht i a Hi) as (p & b & -> & Hp & _). left. lia.
Qed.

(** What [n] artifacts of the tree written over [c0] leave. *)
Record written (packageID : Z) (t : list StoredArtifact) (c0 : Contents) (n : nat) (c : Contents) (ids : list Z)
    : Prop := {
  wr_length : length ids = n;
  wr_unique : unique_artifacts (artifacts c);
  wr_rows i a id : t !! i = Some a → ids !! i = Some id →
    ∃ r, artifacts c !! id = Some r ∧ holds packageID (parent_id ids a) a r;
  wr_kept id o : artifacts c0 !! id = Some o →
    ∃ r, artifacts c !! id = Some r ∧ ar_package r = ar_package o ∧ ar_digest r = ar_digest o;
  wr_others id r : artifacts c !! id = Some r → id ∉ ids → artifacts c0 !! id = Some r;
  wr_links : links c = insert_absents (zip ids (take n t) ≫= λ x, link_entry x.1 <$> sa_Blobs x.2) (links c0);
  wr_catalogue : catalogue c = insert_absents (take n t ≫= λ a, catalogue_entry <$> sa_Blobs a) (catalogue c0) }.

Lemma written_start packageID t c : unique_artifacts (artifacts c) → written packageID t c 0 c [].
Proof.
  intros Hu. split; try done. eauto.
Qed.

Lemma written_step `{ArtifactIds} now packageID t c0 n c ids a c' ids' :
  tree_ok t → t !! n = Some a → written packageID t c0 n c ids →
  write_artifact (upsertArtifact now) packageID (c, ids) a = Ok (c', ids') →
  written packageID t c0 (S n) c' ids'.
Proof.
  intros Ht Hn [Hlen Hu Hrows Hkept Hothers Hl Hcat]. simpl.
  intros ([c1 id] & (r & E1 & Hu1 & Hholds & Hid)%upsertArtifact_Ok & Hrest)%result_bind_Ok; [|done].
  assert (artifacts c1 = <[id := r]> (artifacts c) ∧ links c1 = links c ∧ catalogue c1 = catalogue c)
    as (A1 & L1 & C1) by by rewrite E1.
  destruct (LinkBlobs_tables id (sa_Blobs a) c1) as (La & _ & Ll & Lc). rewrite A1 in La.
  clear E1. rewrite L1 in Ll. rewrite C1 in Lc.
  injection Hrest as <- <-.
  assert (sa_Parent a < Z.of_nat (length ids)) as Hpar by (destruct (tree_parent_lt t n a Ht Hn); lia).
  rewrite row_for_parent in Hholds; [|by eapply to_orphan, list_elem_of_lookup_2|done].
  assert (id ∉ ids) as Hnew.
  { intros [i Hi]%list_elem_of_lookup_1. apply lookup_lt_Some in Hi as Hlt. rewrite Hlen in Hlt.
    destruct (lookup_lt_is_Some_2 t i) as [b Hb]; [apply lookup_lt_Some in Hn; lia|].
    destruct (Hrows i b id Hb Hi) as (o & Ho & Hob). destruct Hid as [Hnone|(o' & Ho' & _ & Hd)]; [congruence|].
    assert (sa_Digest b = sa_Digest a) as E by (rewrite <-(ho_digest _ _ _ _ Hob); congruence).
    assert (i = n); [|lia].
    eapply (NoDup_lookup (sa_Digest <$> t)); [apply Ht|rewrite list_lookup_fmap, Hb; done|].
    rewrite list_lookup_fmap, Hn. simpl. by rewrite E. }
  split.
  - rewrite length_app. simpl. lia.
  - by rewrite La, <-A1.
  - intros i b x Hb Hx. rewrite La.
    assert (i < S n)%nat as Hi by (apply lookup_lt_Some in Hx; rewrite length_app in Hx; simpl in Hx; lia).
    destruct (decide (i = n)) as [->|Hne].
    + simplify_eq. rewrite lookup_app_r in Hx by lia. rewrite Nat.sub_diag in Hx. injection Hx as <-.
      exists r. rewrite lookup_insert_eq. split; [done|]. by rewrite parent_id_grows.
    + rewrite lookup_app_l in Hx by lia. destruct (Hrows i b x Hb Hx) as (o & Ho & Hob).
      exists o. rewrite lookup_insert_ne by (intros ->; by eapply Hnew, list_elem_of_lookup_2).
      split; [done|]. rewrite parent_id_grows; [done|]. destruct (tree_parent_lt t i b Ht Hb); lia.
  - intros x o Ho. rewrite La. destruct (Hkept x o Ho) as (s & Hs & Hp & Hd). destruct (decide (id = x)) as [<-|Hne].
    + exists r. rewrite lookup_insert_eq. split; [done|]. destruct Hid as [Hnone|(o' & Ho' & Hp' & Hd')]; [congruence|].
      rewrite (ho_package _ _ _ _ Hholds), (ho_digest _ _ _ _ Hholds). simplify_eq. split; congruence.
    + exists s. by rewrite lookup_insert_ne.
  - intros x s. rewrite La.
    intros [[<- _]|[Hx Hs]]%lookup_insert_Some Hnin; [set_solver|]. apply Hothers; [done|set_solver].
  - rewrite Ll, Hl, <-insert_absents_app.
    rewrite (take_S_r _ _ _ Hn), zip_with_app by (rewrite length_take; apply lookup_lt_Some in Hn; lia).
    rewrite bind_app. simpl. by rewrite app_nil_r.
  - rewrite Lc, Hcat, <-insert_absents_app.
    rewrite (take_S_r _ _ _ Hn), bind_app. simpl. by rewrite app_nil_r.
Qed.

Lemma write_all `{ArtifactIds} now packageID t c0 c' ids :
  tree_ok t → unique_artifacts (artifacts c0) →
  fold_result (write_artifact (upsertArtifact now) packageID) t (c0, []) = Ok (c', ids) →
  written packageID t c0 (length t) c' ids.
Proof.
  intros Ht Hu.
  apply (fold_result_ind (λ done st, written packageID t c0 (length done) st.1 st.2)).
  - by apply written_start.
  - intros pre a post [c i] [d j] -> Hw Hs. rewrite length_app. simpl. rewrite Nat.add_1_r.
    eapply written_step; [done| |exact Hw|exact Hs]. by apply list_lookup_middle.
Qed.

(** The parent a row is about to name is there. *)
Lemma write_artifact_ok `{ArtifactIds} now packageID t c0 n c ids a :
  tree_ok t → t !! n = Some a → written packageID t c0 n c ids →
  ∃ c' ids', write_artifact (upsertArtifact now) packageID (c, ids) a = Ok (c', ids').
Proof.
  intros Ht Hn [Hlen _ Hrows _ _ _ _]. unfold write_artifact, upsertArtifact.
  assert (sa_Parent a < Z.of_nat (length ids)) as Hpar by (destruct (tree_parent_lt t n a Ht Hn); lia).
  assert (parent_exists (row_for packageID ids a) c = true) as ->.
  { unfold parent_exists. rewrite row_for_parent; [|by eapply to_orphan, list_elem_of_lookup_2|done].
    unfold parent_id. destruct (Z.leb_spec 0 (sa_Parent a)) as [Hp|]; [|done].
    destruct (lookup_lt_is_Some_2 ids (Z.to_nat (sa_Parent a))) as [x Hx]; [lia|]. rewrite Hx.
    destruct (lookup_lt_is_Some_2 t (Z.to_nat (sa_Parent a))) as [b Hb]; [apply lookup_lt_Some in Hn; lia|].
    destruct (Hrows _ b x Hb Hx) as (o & Ho & _). by apply bool_decide_eq_true_2. }
  destruct (artifact_rows _ _ c) as [|[i r] l]; simpl; eauto.
Qed.

Lemma write_all_ok `{ArtifactIds} now packageID t c0 :
  tree_ok t → unique_artifacts (artifacts c0) →
  ∃ c' ids, fold_result (write_artifact (upsertArtifact now) packageID) t (c0, []) = Ok (c', ids).
Proof.
  intros Ht Hu.
  assert (∀ post pre c ids, t = pre ++ post → written packageID t c0 (length pre) c ids →
    ∃ c' ids', fold_result (write_artifact (upsertArtifact now) packageID) post (c, ids) = Ok (c', ids')) as Hgen.
  { induction post as [|a post IH]; intros pre c ids Heq Hw; [simpl; eauto|].
    assert (t !! length pre = Some a) as Hn by (rewrite Heq; by apply list_lookup_middle).
    destruct (write_artifact_ok now _ _ _ _ _ _ _ Ht Hn Hw) as (d & j & Hd).
    destruct (IH (pre ++ [a]) d j) as (d' & j' & Hr); [by rewrite Heq, <-(assoc (++))| |].
    - rewrite length_app. simpl. rewrite Nat.add_1_r. by eapply written_step.
    - exists d', j'. cbn [fold_result]. by rewrite Hd. }
  apply (Hgen t [] c0 []); [done|]. by apply written_start.
Qed.

(* -------------------------------------------------------------------- *)
(** ** Lemmas: a tree read *)

(** The position of a parent among the rows before. *)
Definition read_parent (rows : list (Z * artifact_row)) (j : nat) (r : artifact_row) (x : Z) : Prop :=
  match ar_parent r with
  | None => x = -1
  | Some p => (∃ q, (q < j)%nat ∧ rows.*1 !! q = Some p ∧ x = Z.of_nat q) ∨
              (∀ q, (q < j)%nat → rows.*1 !! q ≠ Some p) ∧ x = -1
  end.

Lemma read_rows c rows :
  NoDup rows.*1 →
  let st := foldl (read_artifact c) (∅, []) rows in
  length st.2 = length rows ∧
  (∀ id j, st.1 !! id = Some j ↔ rows.*1 !! j = Some id) ∧
  ∀ j id r, rows !! j = Some (id, r) →
    ∃ x, st.2 !! j = Some (mkStoredArtifact (row_of id r) x (blobs_for id c)) ∧ read_parent rows j r x.
Proof.
  induction rows as [|[id r] rows IH] using rev_ind; intros Hnd.
  { simpl. split_and!; [done|intros; by rewrite lookup_empty, lookup_nil|done]. }
  rewrite fmap_app in Hnd. apply NoDup_app in Hnd as (Hnd & Hnew & _). specialize (IH Hnd).
  cbv zeta in *. rewrite foldl_app. destruct (foldl (read_artifact c) (∅, []) rows) as [index l].
  destruct IH as (Hlen & Hidx & Hrows). simpl in Hlen, Hidx, Hrows |- *.
  assert (∀ k, index !! k = Some (length l) → False) as Hlast.
  { intros k Hk%Hidx. apply lookup_lt_Some in Hk. rewrite length_fmap in Hk. lia. }
  split_and!.
  - rewrite !length_app. simpl. lia.
  - intros k j. rewrite fmap_app. simpl. rewrite lookup_insert_Some, Hidx. split.
    + intros [[<- <-]|[Hne Hk]].
      * rewrite lookup_app_r by (rewrite length_fmap; lia). by rewrite length_fmap, Hlen, Nat.sub_diag.
      * by rewrite lookup_app_l by (by eapply lookup_lt_Some).
    + intros [Hk|[Hj Hk]]%lookup_app_Some.
      * right. split; [|done]. intros <-. apply (Hnew id); [by eapply list_elem_of_lookup_2|]. by left.
      * rewrite length_fmap in Hj, Hk. destruct (j - length rows)%nat eqn:E; simpl in Hk; [|done].
        injection Hk as <-. left. split; [done|lia].
  - intros j k s [Hj|[Hj Hk]]%lookup_app_Some.
    + destruct (Hrows j k s Hj) as (x & Hx & Hp). exists x.
      apply lookup_lt_Some in Hj as Hlt. split; [by rewrite lookup_app_l by lia|].
      revert Hp. unfold read_parent. destruct (ar_parent s) as [p|]; [|done].
      assert (∀ q, (q < j)%nat → (rows ++ [(id, r)]).*1 !! q = rows.*1 !! q) as Hsame.
      { intros q Hq. rewrite fmap_app. apply lookup_app_l. rewrite length_fmap. lia. }
      intros [(q & Hq & Hrest)|[Hno ->]]; [left; exists q; by rewrite Hsame|right].
      split; [|done]. intros q Hq. rewrite Hsame by done. by apply Hno.
    + destruct (j - length rows)%nat eqn:E; simpl in Hk; [|done]. injection Hk as <- <-.
      eexists. split; [rewrite lookup_app_r by lia; by rewrite Hlen, E|].
      assert (j = length rows) as -> by lia.
      assert (∀ q, (q < length rows)%nat → (rows ++ [(id, r)]).*1 !! q = rows.*1 !! q) as Hsame.
      { intros q Hq. rewrite fmap_app. apply lookup_app_l. rewrite length_fmap. lia. }
      unfold read_parent. destruct (ar_parent r) as [p|]; [|done].
      destruct (index !! p) as [q|] eqn:Hq; simpl.
      * left. exists q. apply Hidx in Hq as Hq'. apply lookup_lt_Some in Hq' as Hlt. rewrite length_fmap in Hlt.
        rewrite Hsame by done. done.
      * right. split; [|done]. intros q Hlt. rewrite Hsame by done. intros Hq'%Hidx. congruence.
Qed.

(* -------------------------------------------------------------------- *)
(** ** Lemmas: the blobs of an artifact *)

(** A kind and a digest as one key. *)
Definition blob_key (b : StoredBlob) : string :=
  String.append (match sb_Kind b with BlobConfig => "c" | BlobLayer => "l" end) (sb_Digest b).

(** What is read of a blob: the title is not. *)
Definition untitled (b : StoredBlob) : StoredBlob :=
  mkStoredBlob (sb_Digest b) (sb_MediaType b) (sb_SizeBytes b) (sb_Kind b) (sb_Ordinal b) "".

(** The blobs a manifest lists, each once. *)
Definition distinct_blobs (a : StoredArtifact) : list StoredBlob := firsts blob_key ∅ (sa_Blobs a).

Lemma blob_key_eq x y : blob_key x = blob_key y ↔ sb_Digest x = sb_Digest y ∧ sb_Kind x = sb_Kind y.
Proof.
  unfold blob_key. destruct (sb_Kind x), (sb_Kind y); simpl;
    (split; [by intros [=]; auto|by intros [-> ?]]).
Qed.

Lemma StronglySorted_firsts {A} (R : relation A) (key : A → string) seen l :
  StronglySorted R l → StronglySorted R (firsts key seen l).
Proof.
  intros Hs. revert seen. induction Hs as [|x l Hs IH Hx]; intros seen; simpl; [constructor|].
  case_bool_decide; [done|]. constructor; [done|]. rewrite Forall_forall in *.
  intros y Hy%firsts_subset. by apply Hx.
Qed.

Lemma blob_before_inj l x y :
  StronglySorted blob_before l → x ∈ l → y ∈ l → blob_order x = blob_order y → x = y.
Proof.
  intros Hs. induction Hs as [|z l Hs IH Hz]; [by intros []%elem_of_nil|]. rewrite Forall_forall in Hz.
  rewrite !elem_of_cons. intros [->|Hx] [->|Hy] E; [done| | |by apply IH].
  - by destruct (Hz y Hy) as [_ []].
  - destruct (Hz x Hx) as [_ []]. congruence.
Qed.

Lemma filter_link_entries id d k (bs : list StoredBlob) :
  filter (λ kv : (Z * string * BlobKind) * (Z * option string), kv.1 = (id, d, k)) (link_entry id <$> bs) =
  link_entry id <$> filter (λ b, sb_Digest b = d ∧ sb_Kind b = k) bs.
Proof.
  induction bs as [|b bs IH]; [done|]. rewrite fmap_cons, !filter_cons. cbn [link_entry fst].
  do 2 case_decide; try (exfalso; naive_solver); [by rewrite IH|done].
Qed.

Lemma filter_other_entries id id' d k (bs : list StoredBlob) :
  id' ≠ id →
  filter (λ kv : (Z * string * BlobKind) * (Z * option string), kv.1 = (id, d, k)) (link_entry id' <$> bs) = [].
Proof. intros Hne. apply filter_none. intros x (b & -> & _)%list_elem_of_fmap. simpl. congruence. Qed.

Lemma filter_entries (l : list (Z * StoredArtifact)) i id a d k :
  NoDup l.*1 → l !! i = Some (id, a) →
  filter (λ kv : (Z * string * BlobKind) * (Z * option string), kv.1 = (id, d, k))
    (l ≫= λ x, link_entry x.1 <$> sa_Blobs x.2) =
  link_entry id <$> filter (λ b, sb_Digest b = d ∧ sb_Kind b = k) (sa_Blobs a).
Proof.
  revert i. induction l as [|[id' a'] l IH]; intros i; [by rewrite lookup_nil|].
  rewrite fmap_cons. intros [Hnew Hnd]%NoDup_cons Hi. rewrite bind_cons, filter_app. simpl in Hnew.
  destruct i as [|i]; simpl in Hi.
  - injection Hi as -> ->. rewrite filter_link_entries. rewrite (filter_none _ (l ≫= _)), app_nil_r; [done|].
    intros x ([j b] & (e & -> & _)%list_elem_of_fmap & Hj)%list_elem_of_bind. simpl.
    intros [= -> _ _]. apply Hnew. by apply (list_elem_of_fmap_2 fst) in Hj.
  - rewrite filter_other_entries; [by apply (IH i)|]. simpl. intros ->. apply Hnew.
    apply list_elem_of_lookup_2 in Hi. by apply (list_elem_of_fmap_2 fst) in Hi.
Qed.

(** What is recorded of a package is of the content its tree has: no artifact
    the tree has not, the blobs and sizes that the digests stand for. *)
Record agrees (packageID : Z) (t : list StoredArtifact) (c : Contents) : Prop := {
  ag_unique : unique_artifacts (artifacts c);
  ag_within id r : artifacts c !! id = Some r → ar_package r = packageID → ar_digest r ∈ sa_Digest <$> t;
  ag_links id d k v : links c !! (id, d, k) = Some v → ∃ r, artifacts c !! id = Some r ∧
    (ar_package r = packageID → ∀ a, a ∈ t → sa_Digest a = ar_digest r →
       ∃ b, b ∈ distinct_blobs a ∧ sb_Digest b = d ∧ sb_Kind b = k ∧ sb_Ordinal b = v.1);
  ag_sizes a b v : a ∈ t → b ∈ sa_Blobs a → catalogue c !! sb_Digest b = Some v →
    v = (sb_SizeBytes b, nullIfEmpty (sb_MediaType b));
  ag_one_size a b a' b' : a ∈ t → b ∈ sa_Blobs a → a' ∈ t → b' ∈ sa_Blobs a' → sb_Digest b' = sb_Digest b →
    sb_SizeBytes b' = sb_SizeBytes b ∧ sb_MediaType b' = sb_MediaType b }.

Section recorded.
Context (packageID : Z) (t : list StoredArtifact) (c0 c : Contents) (ids : list Z).
Context (Ht : tree_ok t) (Hag : agrees packageID t c0) (Hw : written packageID t c0 (length t) c ids).

Lemma digest_inj a b : a ∈ t → b ∈ t → sa_Digest a = sa_Digest b → a = b.
Proof using Ht.
  intros [i Hi]%list_elem_of_lookup_1 [j Hj]%list_elem_of_lookup_1 E.
  assert (i = j); [|by simplify_eq].
  eapply (NoDup_lookup (sa_Digest <$> t)); [apply Ht|by rewrite list_lookup_fmap, Hi|].
  rewrite list_lookup_fmap, Hj. simpl. by rewrite E.
Qed.

Lemma id_row i id : ids !! i = Some id →
  ∃ a r, t !! i = Some a ∧ artifacts c !! id = Some r ∧ holds packageID (parent_id ids a) a r.
Proof using Hw.
  intros Hi. apply lookup_lt_Some in Hi as Hlt. rewrite (wr_length _ _ _ _ _ _ Hw) in Hlt.
  destruct (lookup_lt_is_Some_2 t i Hlt) as [a Ha].
  destruct (wr_rows _ _ _ _ _ _ Hw i a id Ha Hi) as (r & Hr & Hh). by exists a, r.
Qed.

Lemma NoDup_ids : NoDup ids.
Proof using Ht Hw.
  apply NoDup_alt. intros i j id Hi Hj.
  destruct (id_row i id Hi) as (a & r & Ha & Hr & Hh), (id_row j id Hj) as (b & s & Hb & Hs & Hh').
  eapply (NoDup_lookup (sa_Digest <$> t)); [apply Ht|by rewrite list_lookup_fmap, Ha|].
  rewrite list_lookup_fmap, Hb. simpl. f_equal.
  rewrite <-(ho_digest _ _ _ _ Hh), <-(ho_digest _ _ _ _ Hh'). congruence.
Qed.

Lemma package_row id r : artifacts c !! id = Some r → ar_package r = packageID → ∃ i, ids !! i = Some id.
Proof using Ht Hag Hw.
  intros Hr Hp. destruct (decide (id ∈ ids)) as [Hin|Hn]; [by apply list_elem_of_lookup_1|exfalso].
  assert (artifacts c0 !! id = Some r) as H0 by by eapply wr_others.
  pose proof (ag_within _ _ _ Hag id r H0 Hp) as Hd. apply list_elem_of_fmap in Hd as (a & Hd & [i Ha]%list_elem_of_lookup_1).
  destruct (lookup_lt_is_Some_2 ids i) as [id' Hid'].
  { rewrite (wr_length _ _ _ _ _ _ Hw). by eapply lookup_lt_Some. }
  destruct (wr_rows _ _ _ _ _ _ Hw i a id' Ha Hid') as (s & Hs & Hh).
  assert (id = id') as ->; [|by apply Hn; eapply list_elem_of_lookup_2].
  eapply (wr_unique _ _ _ _ _ _ Hw); [exact Hr|exact Hs| |].
  - rewrite (ho_package _ _ _ _ Hh). done.
  - rewrite (ho_digest _ _ _ _ Hh). done.
Qed.

Lemma catalogue_row a b : a ∈ t → b ∈ sa_Blobs a →
  catalogue c !! sb_Digest b = Some (sb_SizeBytes b, nullIfEmpty (sb_MediaType b)).
Proof using Hag Hw.
  intros Ha Hb. rewrite (wr_catalogue _ _ _ _ _ _ Hw), lookup_insert_absents.
  destruct (catalogue c0 !! sb_Digest b) as [v|] eqn:H0.
  { by rewrite (ag_sizes _ _ _ Hag a b v Ha Hb H0). }
  rewrite firstn_all. destruct (head (filter _ _)) as [[d v]|] eqn:Hh.
  - apply head_Some_elem_of, list_elem_of_filter in Hh as [Hd Hin]. simpl in *. subst d.
    apply list_elem_of_bind in Hin as (a' & (b' & [= E ->] & Hb')%list_elem_of_fmap & Ha').
    destruct (ag_one_size _ _ _ Hag a b a' b' Ha Hb Ha' Hb') as [-> ->]; [done|]. done.
  - apply head_None in Hh. exfalso. apply (not_elem_of_nil (catalogue_entry b)). rewrite <-Hh.
    apply list_elem_of_filter. split; [done|]. apply list_elem_of_bind. exists a. split; [|done].
    by apply list_elem_of_fmap_2.
Qed.

(** A link of an artifact is one of its blobs, as first listed. *)
Lemma link_row i a id d k v : t !! i = Some a → ids !! i = Some id →
  links c !! (id, d, k) = Some v →
  ∃ b, b ∈ distinct_blobs a ∧ sb_Digest b = d ∧ sb_Kind b = k ∧ sb_Ordinal b = v.1.
Proof using Ht Hag Hw.
  intros Ha Hid. rewrite (wr_links _ _ _ _ _ _ Hw), lookup_insert_absents.
  destruct (links c0 !! (id, d, k)) as [w|] eqn:H0.
  - intros [= ->]. destruct (ag_links _ _ _ Hag id d k v H0) as (o & Ho & Hb).
    destruct (wr_kept _ _ _ _ _ _ Hw id o Ho) as (r & Hr & Hp & Hd).
    destruct (wr_rows _ _ _ _ _ _ Hw i a id Ha Hid) as (r' & Hr' & Hh). simplify_eq.
    apply Hb; [|by eapply list_elem_of_lookup_2|].
    + rewrite <-Hp. apply Hh.
    + rewrite <-Hd. symmetry. apply Hh.
  - rewrite firstn_all, (filter_entries _ i id a); [|rewrite fst_zip; [apply NoDup_ids|]|].
    + destruct (filter _ (sa_Blobs a)) as [|b l] eqn:Hf; [done|]. intros [= <-]. simpl.
      assert (b ∈ filter (λ b, sb_Digest b = d ∧ sb_Kind b = k) (sa_Blobs a)) as Hin by (rewrite Hf; left).
      apply list_elem_of_filter in Hin as [[Hd Hk] _].
      exists b. split; [|done]. unfold distinct_blobs. apply elem_of_firsts_head. split; [set_solver|].
      rewrite (list_filter_iff _ (λ y, sb_Digest y = d ∧ sb_Kind y = k)); [by rewrite Hf|].
      intros y. rewrite blob_key_eq. by rewrite Hd, Hk.
    + by rewrite (wr_length _ _ _ _ _ _ Hw).
    + apply lookup_zip_with_Some. by exists id, a.
Qed.

Lemma link_exists i a id b : t !! i = Some a → ids !! i = Some id → b ∈ sa_Blobs a →
  is_Some (links c !! (id, sb_Digest b, sb_Kind b)).
Proof using Ht Hw.
  intros Ha Hid Hb. rewrite (wr_links _ _ _ _ _ _ Hw), lookup_insert_absents.
  destruct (links c0 !! _); [done|].
  rewrite firstn_all, (filter_entries _ i id a); [|rewrite fst_zip; [apply NoDup_ids|]|].
  - destruct (filter _ (sa_Blobs a)) as [|x l] eqn:Hf; [exfalso|by eexists].
    apply (not_elem_of_nil b). rewrite <-Hf. by apply list_elem_of_filter.
  - by rewrite (wr_length _ _ _ _ _ _ Hw).
  - apply lookup_zip_with_Some. by exists id, a.
Qed.

Lemma blobs_read i a id : t !! i = Some a → ids !! i = Some id →
  blobs_for id c = untitled <$> distinct_blobs a.
Proof using Ht Hag Hw.
  intros Ha Hid. assert (a ∈ t) as Hat by by eapply list_elem_of_lookup_2.
  pose proof (to_blobs _ Ht a Hat) as Hsorted.
  assert (∀ b, b ∈ distinct_blobs a → b ∈ sa_Blobs a) as Hsub by (intros b; apply firsts_subset).
  assert (∀ x, x ∈ blobs_for id c ↔ x ∈ untitled <$> distinct_blobs a) as Heq.
  { intros x. unfold blobs_for. rewrite elem_of_order_by, list_elem_of_omap, list_elem_of_fmap. split.
    - intros ([[[id' d] k] [o tt]] & [Hl E]%elem_of_select_where & Hlk). simpl in E.
      apply bool_decide_eq_true in E as ->.
      destruct (link_row i a id d k (o, tt) Ha Hid Hl) as (b & Hb & <- & <- & Ho). simpl in Ho. subst o.
      exists b. split; [|done]. unfold linked in Hlk. rewrite (catalogue_row a b Hat (Hsub b Hb)) in Hlk.
      simpl in Hlk. injection Hlk as <-. by rewrite default_nullIfEmpty.
    - intros (b & -> & Hb). destruct (link_exists i a id b Ha Hid (Hsub b Hb)) as [[o tt] Hl].
      exists ((id, sb_Digest b, sb_Kind b), (o, tt)). split.
      + apply elem_of_select_where. by rewrite bool_decide_eq_true_2.
      + destruct (link_row i a id _ _ _ Ha Hid Hl) as (b' & Hb' & Hd & Hk & Ho). simpl in Ho. subst o.
        assert (b' = b) as ->.
        { unfold distinct_blobs in Hb, Hb'. apply elem_of_firsts_head in Hb as [_ Hb], Hb' as [_ Hb'].
          rewrite (proj2 (blob_key_eq b' b)) in Hb' by done. congruence. }
        unfold linked. rewrite (catalogue_row a b Hat (Hsub b Hb)). simpl. by rewrite default_nullIfEmpty. }
  assert (StronglySorted blob_before (distinct_blobs a)) as Hsf by by apply StronglySorted_firsts.
  apply (StronglySorted_unique_strong (key_le blob_order)).
  - intros x1 x2 H1%Heq H2 L12 L21. apply list_elem_of_fmap in H1 as (b1 & -> & H1), H2 as (b2 & -> & H2).
    f_equal. apply (blob_before_inj _ _ _ Hsf H1 H2). by apply lex_le_antisymm.
  - apply order_by_sorted.
  - eapply (StronglySorted_fmap untitled blob_before); [|exact Hsf]. by intros x y [Hle _].
  - apply NoDup_Permutation; [| |exact Heq].
    + unfold blobs_for. rewrite order_by_Permutation.
      apply NoDup_omap_inj; [eapply (NoDup_fmap_1 fst), NoDup_select_where|].
      intros [[[i1 d1] k1] v1] [[[i2 d2] k2] v2] z [H1 E1]%elem_of_select_where [H2 E2]%elem_of_select_where.
      simpl in E1, E2. apply bool_decide_eq_true in E1 as ->, E2 as ->. unfold linked.
      destruct v1 as [o1 w1], v2 as [o2 w2].
      destruct (catalogue c !! d1) as [[s1 m1]|]; [|done]. destruct (catalogue c !! d2) as [[s2 m2]|]; [|done].
      simpl. intros Z1 Z2. assert (d1 = d2 ∧ k1 = k2) as [-> ->] by (split; congruence). congruence.
    + apply NoDup_fmap_2_strong; [|by eapply (NoDup_fmap_1 blob_key), NoDup_firsts].
      intros x y Hx Hy E. apply (blob_before_inj _ _ _ Hsf Hx Hy). unfold untitled in E. unfold blob_order. congruence.
Qed.
End recorded.

(* -------------------------------------------------------------------- *)
(** ** Lemmas: the tree read back *)

(** The tree read is the tree written, in the order of its depths: the same
    digests, each artifact what was written of it, under the same parent. *)
Record same_artifact (a x : StoredArtifact) : Prop := {
  sf_digest : sa_Digest x = sa_Digest a;
  sf_media : aw_MediaType (sa_Row x) = aw_MediaType (sa_Row a);
  sf_size : aw_SizeBytes (sa_Row x) = aw_SizeBytes (sa_Row a);
  sf_depth : aw_Depth (sa_Row x) = aw_Depth (sa_Row a);
  sf_raw : aw_Raw (sa_Row a) ≠ "" → aw_Raw (sa_Row x) = aw_Raw (sa_Row a) ∧ aw_Fetched (sa_Row x) = true;
  sf_annotations : aw_Annotations (sa_Row a) ≠ ∅ → aw_Annotations (sa_Row x) = aw_Annotations (sa_Row a);
  sf_blobs : sa_Blobs x = untitled <$> distinct_blobs a }.

Definition same_parent (t t' : list StoredArtifact) (a : StoredArtifact) (j : nat) (x : StoredArtifact) : Prop :=
  (sa_Parent a = -1 ∧ sa_Parent x = -1) ∨
  ∃ p b q y, sa_Parent a = Z.of_nat p ∧ t !! p = Some b ∧
    sa_Parent x = Z.of_nat q ∧ (q < j)%nat ∧ t' !! q = Some y ∧ sa_Digest y = sa_Digest b.

Record same_tree (t t' : list StoredArtifact) : Prop := {
  sm_digests : sa_Digest <$> t' ≡ₚ sa_Digest <$> t;
  sm_depths : StronglySorted (λ x y, aw_Depth (sa_Row x) <= aw_Depth (sa_Row y)) t';
  sm_artifacts j x : t' !! j = Some x → ∃ i a, t !! i = Some a ∧ same_artifact a x ∧ same_parent t t' a j x }.

Section read_back.
Context (packageID : Z) (t : list StoredArtifact) (c0 c : Contents) (ids : list Z).
Context (Ht : tree_ok t) (Hag : agrees packageID t c0) (Hw : written packageID t c0 (length t) c ids).

Lemma tree_rows_elem id r :
  (id, r) ∈ tree_rows packageID c ↔ artifacts c !! id = Some r ∧ ar_package r = packageID.
Proof. unfold tree_rows. by rewrite elem_of_order_by, elem_of_select_where, bool_decide_eq_true. Qed.

Lemma NoDup_tree_rows : NoDup (tree_rows packageID c).*1.
Proof. unfold tree_rows. rewrite order_by_Permutation. apply NoDup_select_where. Qed.

Lemma tree_rows_ids : (tree_rows packageID c).*1 ≡ₚ ids.
Proof using Ht Hag Hw.
  apply NoDup_Permutation; [apply NoDup_tree_rows|by eapply NoDup_ids|]. intros id. split.
  - intros ([x r] & -> & [Hr Hp]%tree_rows_elem)%list_elem_of_fmap. simpl.
    destruct (package_row _ _ _ _ _ Ht Hag Hw _ _ Hr Hp) as [i Hi]. by eapply list_elem_of_lookup_2.
  - intros [i Hi]%list_elem_of_lookup_1. destruct (id_row _ _ _ _ _ Hw i id Hi) as (a & r & _ & Hr & Hh).
    apply list_elem_of_fmap. exists (id, r). split; [done|]. apply tree_rows_elem. split; [done|apply Hh].
Qed.

(** Every row read, with the artifact it was written for. *)
Lemma tree_row j id r : tree_rows packageID c !! j = Some (id, r) →
  ∃ i a, t !! i = Some a ∧ ids !! i = Some id ∧ holds packageID (parent_id ids a) a r.
Proof using Ht Hag Hw.
  intros Hj. assert ((id, r) ∈ tree_rows packageID c) as [Hr Hp]%tree_rows_elem by by eapply list_elem_of_lookup_2.
  destruct (package_row _ _ _ _ _ Ht Hag Hw _ _ Hr Hp) as [i Hi].
  destruct (id_row _ _ _ _ _ Hw i id Hi) as (a & r' & Ha & Hr' & Hh). simplify_eq. by exists i, a.
Qed.

Lemma tree_rows_depths j k r s : (j < k)%nat →
  tree_rows packageID c !! j = Some r → tree_rows packageID c !! k = Some s → ar_depth r.2 <= ar_depth s.2.
Proof.
  intros Hjk Hr Hs.
  pose proof (order_by_sorted (λ r : Z * artifact_row, [ar_depth r.2; r.1])
    (select_where (λ _ r, bool_decide (ar_package r = packageID)) (artifacts c))) as Hsort.
  rewrite StronglySorted_lookup in Hsort. pose proof (Hsort j k r s Hjk Hr Hs) as Hle.
  unfold key_le in Hle. simpl in Hle. destruct (Z.eqb_spec (ar_depth r.2) (ar_depth s.2)); lia.
Qed.

Let l := (foldl (read_artifact c) (∅, []) (tree_rows packageID c)).2.

Lemma read_row j x : l !! j = Some x →
  ∃ id r i a, tree_rows packageID c !! j = Some (id, r) ∧ t !! i = Some a ∧ ids !! i = Some id ∧
    holds packageID (parent_id ids a) a r ∧ read_parent (tree_rows packageID c) j r (sa_Parent x) ∧
    sa_Row x = row_of id r ∧ sa_Blobs x = untitled <$> distinct_blobs a.
Proof using Ht Hag Hw.
  intros Hx. destruct (read_rows c (tree_rows packageID c) NoDup_tree_rows) as (Hlen & _ & Hrows).
  apply lookup_lt_Some in Hx as Hlt. unfold l in Hx, Hlt. rewrite Hlen in Hlt.
  destruct (lookup_lt_is_Some_2 _ _ Hlt) as [[id r] Hj]. destruct (Hrows j id r Hj) as (p & Hp & Hpar).
  destruct (tree_row j id r Hj) as (i & a & Ha & Hid & Hh).
  exists id, r, i, a. simplify_eq/=. split_and!; try done. by eapply blobs_read.
Qed.

Lemma read_digests : sa_Digest <$> l ≡ₚ sa_Digest <$> t.
Proof using Ht Hag Hw.
  destruct (read_rows c (tree_rows packageID c) NoDup_tree_rows) as (Hlen & _ & Hrows). fold l in Hlen, Hrows.
  assert (sa_Digest <$> l = (λ r : Z * artifact_row, ar_digest r.2) <$> tree_rows packageID c) as ->.
  { apply list_eq_same_length with (n := length l); [by rewrite !length_fmap|by rewrite length_fmap|].
    intros j x y Hj. rewrite !list_lookup_fmap.
    destruct (lookup_lt_is_Some_2 (tree_rows packageID c) j) as [[id r] Hr]; [lia|].
    destruct (Hrows j id r Hr) as (p & Hp & _). rewrite Hp, Hr. by intros [= <-] [= <-]. }
  assert ((λ r : Z * artifact_row, ar_digest r.2) <$> tree_rows packageID c =
    (λ id, from_option ar_digest "" (artifacts c !! id)) <$> (tree_rows packageID c).*1) as ->.
  { rewrite <-list_fmap_compose. apply list_fmap_ext. intros j [id r] Hj. simpl.
    assert ((id, r) ∈ tree_rows packageID c) as [Hr _]%tree_rows_elem by by eapply list_elem_of_lookup_2.
    by rewrite Hr. }
  rewrite tree_rows_ids. apply reflexive_eq.
  apply list_eq_same_length with (n := length t); [by rewrite length_fmap|by rewrite length_fmap, (wr_length _ _ _ _ _ _ Hw)|].
  intros j x y Hj. rewrite !list_lookup_fmap.
  destruct (lookup_lt_is_Some_2 ids j) as [id Hid]; [by rewrite (wr_length _ _ _ _ _ _ Hw)|].
  destruct (id_row _ _ _ _ _ Hw j id Hid) as (a & r & Ha & Hr & Hh). rewrite Hid, Ha. simpl. rewrite Hr. simpl.
  rewrite (ho_digest _ _ _ _ Hh). congruence.
Qed.

Lemma read_same_tree : same_tree t l.
Proof using Ht Hag Hw.
  split; [apply read_digests| |].
  - apply StronglySorted_lookup. intros j k x y Hjk Hx Hy.
    destruct (read_row j x Hx) as (id & r & _ & _ & Hr & _ & _ & _ & _ & Hrow & _).
    destruct (read_row k y Hy) as (id' & s & _ & _ & Hs & _ & _ & _ & _ & Hrow' & _).
    rewrite Hrow, Hrow'. exact (tree_rows_depths j k _ _ Hjk Hr Hs).
  - intros j x Hx. destruct (read_row j x Hx) as (id & r & i & a & Hr & Ha & Hid & Hh & Hpar & Hrow & Hblobs).
    exists i, a. split; [done|]. split.
    { split; [unfold sa_Digest at 1; rewrite Hrow|rewrite Hrow..|done]; simpl; [apply Hh..| |].
      - intros Hne. destruct (ho_raw _ _ _ _ Hh Hne) as [-> Hf]. split; [done|by apply bool_decide_eq_true_2].
      - intros Hne. by rewrite (ho_annotations _ _ _ _ Hh Hne). }
    unfold read_parent in Hpar. rewrite (ho_parent _ _ _ _ Hh) in Hpar. unfold parent_id in Hpar.
    destruct i as [|i].
    { destruct (to_root _ Ht a Ha) as [Hp _]. left. rewrite Hp in Hpar |- *. done. }
    destruct (to_listed _ Ht i a Ha) as (p & b & Hp & Hlt & Hb & Hdepth). right.
    rewrite Hp in Hpar. rewrite (proj2 (Z.leb_le 0 _)), Nat2Z.id in Hpar by lia.
    destruct (lookup_lt_is_Some_2 ids p) as [pid Hpid].
    { rewrite (wr_length _ _ _ _ _ _ Hw). by eapply lookup_lt_Some. }
    rewrite Hpid in Hpar.
    assert (pid ∈ (tree_rows packageID c).*1) as [q Hq]%list_elem_of_lookup_1.
    { rewrite tree_rows_ids. by eapply list_elem_of_lookup_2. }
    rewrite list_lookup_fmap in Hq. apply fmap_Some in Hq as ([pid' s] & Hs & ->). simpl in Hpar, Hpid.
    destruct (tree_row q pid' s Hs) as (p' & b' & Hb' & Hpid' & Hh').
    assert (p' = p) as -> by (eapply (NoDup_lookup ids); [by eapply NoDup_ids|done|done]). simplify_eq.
    assert ((q < j)%nat) as Hqj.
    { destruct (decide (q < j)%nat) as [|Hge]; [done|exfalso].
      destruct (decide (q = j)) as [->|Hne].
      - rewrite Hr in Hs. injection Hs as <- <-. assert (p = S i); [|lia].
        eapply (NoDup_lookup ids); [by eapply NoDup_ids|exact Hpid|exact Hid].
      - pose proof (tree_rows_depths j q _ _ ltac:(lia) Hr Hs) as Hd. simpl in Hd.
        rewrite (ho_depth _ _ _ _ Hh), (ho_depth _ _ _ _ Hh') in Hd. lia. }
    destruct Hpar as [(q' & Hq' & Hrows & Hx')|[Hno _]].
    2: { destruct (Hno q Hqj). by rewrite list_lookup_fmap, Hs. }
    assert (q' = q) as ->.
    { eapply (NoDup_lookup (tree_rows packageID c).*1); [apply NoDup_tree_rows|exact Hrows|].
      by rewrite list_lookup_fmap, Hs. }
    destruct (read_rows c (tree_rows packageID c) NoDup_tree_rows) as (_ & _ & Hl). fold l in Hl.
    destruct (Hl q pid' s Hs) as (z & Hz & _). eexists p, b, q, _. split_and!; [done|done|done|done|exact Hz|].
    unfold sa_Digest. simpl. apply Hh'.
Qed.
End read_back.

(** The transaction commits. *)
Lemma tree_recorded_ok `{ArtifactIds} now packageID t c0 :
  tree_ok (st_Artifacts t) → unique_artifacts (artifacts c0) →
  ∃ c ids, RecordExpandedTree now packageID t c0 =
    Ok (setPackageMeasurement now packageID (Z.of_nat (length (st_Artifacts t))) (st_TotalBytes t) (st_BlobCount t) c) ∧
    written packageID (st_Artifacts t) c0 (length (st_Artifacts t)) c ids.
Proof.
  intros Ht Hu. destruct (write_all_ok now packageID (st_Artifacts t) c0 Ht Hu) as (c & ids & Hall).
  exists c, ids. split; [unfold RecordExpandedTree; by rewrite Hall|]. by eapply write_all.
Qed.

(** The measurement is not read. *)
Lemma read_measured packageID now p n total blobs c :
  ReadExpandedTree packageID (setPackageMeasurement now p n total blobs c) = ReadExpandedTree packageID c.
Proof. done. Qed.

Lemma read_back `{ArtifactIds} now packageID t c0 :
  tree_ok (st_Artifacts t) → st_Artifacts t ≠ [] → agrees packageID (st_Artifacts t) c0 →
  (∀ a, a ∈ st_Artifacts t → aw_Raw (sa_Row a) ≠ "") →
  ∃ c, RecordExpandedTree now packageID t c0 = Ok c ∧
    same_tree (st_Artifacts t) (st_Artifacts (ReadExpandedTree packageID c).1) ∧
    (ReadExpandedTree packageID c).2 = true.
Proof.
  intros Ht Hne Hag Hraw.
  destruct (tree_recorded_ok now packageID t c0 Ht (ag_unique _ _ _ Hag)) as (c & ids & Hrec & Hw).
  eexists. split; [exact Hrec|]. rewrite read_measured.
  pose proof (read_same_tree _ _ _ _ _ Ht Hag Hw) as Hsame. unfold ReadExpandedTree.
  destruct (foldl (read_artifact c) (∅, []) (tree_rows packageID c)) as [index l] eqn:Hl. simpl in Hsame.
  destruct l as [|x l].
  { destruct Hne. pose proof (sm_digests _ _ Hsame) as Hp. simpl in Hp.
    by apply Permutation_nil_l, symmetry, fmap_nil_inv in Hp. }
  split; [exact Hsame|]. apply forallb_forall. intros [id r] [j Hj]%list_elem_of_In%list_elem_of_lookup_1.
  destruct (tree_row _ _ _ _ _ Ht Hag Hw j id r Hj) as (i & a & Ha & _ & Hh). apply bool_decide_eq_true_2.
  by apply (ho_raw _ _ _ _ Hh), Hraw, list_elem_of_lookup_2 with i.
Qed.

(* -------------------------------------------------------------------- *)
(** ** A tree listed first *)

(** Discovery's listing of the same tree keeps to the content the tree has. *)
Lemma InsertArtifact_agrees `{ArtifactIds} now packageID t ids x c :
  agrees packageID t c → sa_Digest x ∈ sa_Digest <$> t → parent_exists (row_for packageID ids x) c = true →
  ∃ c' id r, InsertArtifact now (row_for packageID ids x) c = Ok (c', id) ∧ agrees packageID t c' ∧
    artifacts c' !! id = Some r ∧ ar_package r = packageID ∧ ar_digest r = sa_Digest x ∧
    artifacts c ⊆ artifacts c'.
Proof.
  intros Hag Hx Hpar. pose proof Hag as [Hu Hin Hl Hs H1]. unfold InsertArtifact. rewrite Hpar.
  destruct (row_for_fields packageID ids x) as (Fp & Fd & _).
  destruct (new_artifact_fields now (row_for packageID ids x)) as (Np & _ & Nd & _). rewrite Fp, Fd in *.
  destruct (artifact_rows packageID (sa_Digest x) c) as [|[id r] l] eqn:Hrows.
  2: { apply artifact_rows_cons in Hrows as (Hr & Hp & Hd). exists c, id, r. done. }
  set (new := new_artifact now (row_for packageID ids x)) in *.
  set (id := next_artifact (artifacts c)). pose proof (next_artifact_fresh (artifacts c)) as Hfresh. fold id in Hfresh.
  eexists _, id, new. split; [done|]. simpl. split; [|rewrite lookup_insert_eq; split_and!; try done; by apply insert_subseteq].
  split; simpl; [| | |done|done].
  - intros i j r1 r2 [[<- <-]|[_ Hi]]%lookup_insert_Some [[<- <-]|[_ Hj]]%lookup_insert_Some Ep Ed; [done| | |by eapply Hu].
    + exfalso. eapply (artifact_rows_nil _ _ _ _ _ Hrows Hj); congruence.
    + exfalso. eapply (artifact_rows_nil _ _ _ _ _ Hrows Hi); congruence.
  - intros i r1 [[<- <-]|[_ Hi]]%lookup_insert_Some Hp; [by rewrite Nd|by eapply Hin].
  - intros i d k v Hlk. destruct (Hl i d k v Hlk) as (r1 & Hr1 & Hb). exists r1.
    rewrite lookup_insert_ne by congruence. done.
Qed.

Lemma filter_untitled d k (bs : list StoredBlob) :
  untitled <$> filter (λ b, sb_Digest b = d ∧ sb_Kind b = k) bs =
  filter (λ b, sb_Digest b = d ∧ sb_Kind b = k) (untitled <$> bs).
Proof.
  induction bs as [|b bs IH]; [done|]. rewrite fmap_cons, !filter_cons. simpl.
  case_decide; [by rewrite fmap_cons, IH|done].
Qed.

Lemma LinkBlobs_agrees packageID t c id r a bs :
  tree_ok t → agrees packageID t c → artifacts c !! id = Some r → a ∈ t → ar_digest r = sa_Digest a →
  untitled <$> bs = untitled <$> sa_Blobs a → agrees packageID t (LinkBlobs id bs c).
Proof.
  intros Ht [Hu Hin Hl Hs H1] Hr Ha Hd Hbs. destruct (LinkBlobs_tables id bs c) as (La & _ & Ll & Lc).
  split; rewrite ?La; try done.
  - intros i d k v. rewrite Ll, lookup_insert_absents.
    destruct (links c !! (i, d, k)) as [w|] eqn:H0; [intros [= <-]; by eapply Hl|].
    destruct (decide (i = id)) as [->|Hne]; [|by rewrite filter_other_entries by done].
    rewrite filter_link_entries. destruct (filter _ bs) as [|b l] eqn:Hf; [done|]. intros [= <-].
    exists r. split; [done|]. intros _ a' Ha' Hd'.
    assert (a' = a) as -> by (eapply digest_inj; [done..|congruence]).
    assert (untitled <$> filter (λ b, sb_Digest b = d ∧ sb_Kind b = k) (sa_Blobs a) = untitled <$> (b :: l)) as Hsame.
    { by rewrite <-Hf, !filter_untitled, Hbs. }
    destruct (filter _ (sa_Blobs a)) as [|b' l'] eqn:Hf'; [done|]. rewrite !fmap_cons in Hsame.
    injection Hsame as E1 _ _ E4 E5 _.
    assert (b' ∈ filter (λ b, sb_Digest b = d ∧ sb_Kind b = k) (sa_Blobs a)) as Hin' by (rewrite Hf'; left).
    apply list_elem_of_filter in Hin' as [[Hbd Hbk] _]. exists b'. split; [|split_and!; done].
    unfold distinct_blobs. apply elem_of_firsts_head. split; [set_solver|].
    rewrite (list_filter_iff _ (λ y, sb_Digest y = d ∧ sb_Kind y = k)); [by rewrite Hf'|].
    intros y. rewrite blob_key_eq. by rewrite Hbd, Hbk.
  - intros a' b' v Ha' Hb'. rewrite Lc, lookup_insert_absents.
    destruct (catalogue c !! sb_Digest b') as [w|] eqn:H0; [intros [= <-]; by eapply Hs|].
    destruct (head (filter _ _)) as [[d w]|] eqn:Hh; [|done]. simpl. intros [= <-].
    apply head_Some_elem_of, list_elem_of_filter in Hh as [Hbd (b & [= -> ->] & Hb)%list_elem_of_fmap]. simpl in Hbd.
    assert (untitled b ∈ untitled <$> sa_Blobs a) as (b2 & E & Hb2)%list_elem_of_fmap
      by (rewrite <-Hbs; by apply list_elem_of_fmap_2).
    unfold untitled in E. injection E as E1 E2 E3 _ _.
    destruct (H1 a' b' a b2 Ha' Hb' Ha Hb2) as [<- <-]; congruence.
Qed.

Lemma listing_agrees `{ArtifactIds} now packageID T c0 :
  tree_ok (stored_artifact <$> tr_Artifacts T) → agrees packageID (stored_artifact <$> tr_Artifacts T) c0 →
  ∃ c1, writeTree now packageID T c0 = Ok c1 ∧ agrees packageID (stored_artifact <$> tr_Artifacts T) c1.
Proof.
  set (t := stored_artifact <$> tr_Artifacts T). intros Ht Hag.
  set (I := λ (n : nat) (st : Contents * list Z), agrees packageID t st.1 ∧ length st.2 = n ∧
    ∀ i a id, t !! i = Some a → st.2 !! i = Some id →
      ∃ r, artifacts st.1 !! id = Some r ∧ ar_package r = packageID ∧ ar_digest r = sa_Digest a).
  assert (∀ post pre st, tr_Artifacts T = pre ++ post → I (length pre) st →
    ∃ st', fold_result (write_artifact (InsertArtifact now) packageID) (listed_artifact <$> post) st = Ok st' ∧
      agrees packageID t st'.1) as Hgen.
  { induction post as [|x post IH]; intros pre [c ids] Heq (Hag' & Hlen & Hrows); [by eexists|]. simpl in *.
    assert (t !! length pre = Some (stored_artifact x)) as Hx
      by (unfold t; rewrite list_lookup_fmap, Heq; by rewrite list_lookup_middle).
    assert (sa_Parent (stored_artifact x) < Z.of_nat (length ids)) as Hlt
      by (destruct (tree_parent_lt t _ _ Ht Hx); lia).
    destruct (InsertArtifact_agrees now packageID t ids (listed_artifact x) c) as (c' & id & r & Hins & Hag1 & Hr & Hp & Hd & Hsub).
    { done. }
    { apply list_elem_of_fmap. exists (stored_artifact x). split; [done|]. by eapply list_elem_of_lookup_2. }
    { unfold parent_exists. rewrite row_for_parent by done. unfold parent_id.
      change (sa_Parent (listed_artifact x)) with (sa_Parent (stored_artifact x)).
      destruct (Z.leb_spec 0 (sa_Parent (stored_artifact x))); [|done].
      destruct (lookup_lt_is_Some_2 ids (Z.to_nat (sa_Parent (stored_artifact x)))) as [y Hy]; [lia|]. rewrite Hy.
      destruct (lookup_lt_is_Some_2 t (Z.to_nat (sa_Parent (stored_artifact x)))) as [b Hb];
        [apply lookup_lt_Some in Hx; lia|].
      destruct (Hrows _ b y Hb Hy) as (o & Ho & _). by apply bool_decide_eq_true_2. }
    rewrite Hins. simpl. apply (IH (pre ++ [x])); [by rewrite Heq, <-(assoc (++))|].
    destruct (LinkBlobs_tables id (sa_Blobs (listed_artifact x)) c') as (La & _).
    split; [|split].
    - apply (LinkBlobs_agrees _ _ _ _ r (stored_artifact x)); [done|done|done|by eapply list_elem_of_lookup_2|done|].
      simpl. by rewrite <-!list_fmap_compose.
    - simpl. rewrite !length_app. simpl. lia.
    - intros i a y Hi Hy. simpl in *. rewrite La. apply lookup_app_Some in Hy as [Hy|[Hge Hy]].
      + destruct (Hrows i a y Hi Hy) as (o & Ho & ?). exists o. split; [by eapply lookup_weaken|done].
      + destruct (i - length ids)%nat eqn:E; simpl in Hy; [|done]. injection Hy as <-.
        assert (i = length pre) as -> by lia. exists r. simplify_eq. done. }
  destruct (Hgen (tr_Artifacts T) [] (c0, [])) as (st' & Hst & Hag'); [done|split; [done|split; [done|]]|].
  { intros i a id _. cbn [snd]. by rewrite lookup_nil. }
  exists st'.1. unfold writeTree. rewrite Hst. done.
Qed.


(* -------------------------------------------------------------------- *)
(** ** A walked tree *)

Section stored.
Context (unmarshal : string → string + manifestBody) (repo : Registry.Repository) `{!Verified repo}.
Context (root : Descriptor) (Hroot : valid (d_Digest root)).

Lemma stored_blobs_sorted from a :
  recorded unmarshal repo from a → StronglySorted blob_before (stored_blob <$> at_Blobs a).
Proof using Type.
  intros (desc & raw & body & _ & _ & _ & _ & Hb).
  destruct (IsIndex _); [by destruct Hb as [-> _]; constructor|].
  assert (∀ k l, StronglySorted blob_before (stored_blob <$> imap (λ i d, mkBlobRef d BlobLayer (Z.of_nat (k + i))) l))
    as Hlayers.
  { intros k l. apply StronglySorted_lookup. intros i j x y Hij. rewrite !list_lookup_fmap, !list_lookup_imap.
    destruct (l !! i); [|done]. destruct (l !! j); [|done]. simpl. intros [= <-] [= <-].
    unfold blob_before, blob_order. simpl. split; [|intros [= ?]; lia].
    destruct (Z.eqb_spec (Z.of_nat (k + i)) (Z.of_nat (k + j))); [done|]. by rewrite (proj2 (Z.ltb_lt _ _)) by lia. }
  assert (∀ d, Forall (blob_before (stored_blob (mkBlobRef d BlobConfig 0)))
    (stored_blob <$> imap (λ i d, mkBlobRef d BlobLayer (Z.of_nat i)) (mb_Layers body))) as Hconfig.
  { intros d. apply Forall_forall. intros x (b & -> & [i Hi]%list_elem_of_lookup_1)%list_elem_of_fmap.
    rewrite list_lookup_imap in Hi. destruct (mb_Layers body !! i); [|done]. simpl in Hi. injection Hi as <-. done. }
  revert Hb. unfold blobs_of. destruct (mb_Config body) as [config|].
  2: { destruct (first_invalid _) as [[]|]; [done|]. intros [= <-]. apply (Hlayers 0%nat). }
  destruct (String.eqb _ _); [destruct (first_invalid _) as [[]|]; [done|]; intros [= <-]; apply (Hlayers 0%nat)|].
  destruct (Validate _); [done|]. destruct (first_invalid _) as [[]|]; [done|]. intros [= <-].
  simpl. constructor; [apply (Hlayers 0%nat)|apply Hconfig].
Qed.

Lemma walked_recorded w a :
  walked unmarshal repo root [] w → a ∈ wk_tree w → ∃ from, recorded unmarshal repo from a.
Proof using Type.
  intros Hw [[|i] Hi]%list_elem_of_lookup_1.
  - exists root. by apply (wd_root _ _ _ _ _ Hw).
  - destruct (wd_listed _ _ _ _ _ Hw i a Hi) as (from & _ & Hr). by exists from.
Qed.

Lemma stored_tree_ok w :
  walked unmarshal repo root [] w → tree_ok (stored_artifact <$> wk_tree w).
Proof using Type.
  intros Hw. split.
  - rewrite <-list_fmap_compose. pose proof (wd_once _ _ _ _ _ Hw) as Ho. unfold wk_digests in Ho.
    apply NoDup_app in Ho as (Ho & _ & _). exact Ho.
  - intros a Ha. rewrite list_lookup_fmap in Ha. apply fmap_Some in Ha as (b & Hb & ->).
    destruct (wd_root _ _ _ _ _ Hw b Hb) as (Hp & Hd & _). done.
  - intros i a Ha. rewrite list_lookup_fmap in Ha. apply fmap_Some in Ha as (b & Hb & ->).
    destruct (wd_listed _ _ _ _ _ Hw i b Hb) as (from & (p & x & Hx & Hp & Hd & _) & _).
    apply lookup_take_Some in Hx as [Hx Hlt]. exists p, (stored_artifact x).
    rewrite list_lookup_fmap, Hx. split_and!; [exact Hp|lia|done|exact Hd].
  - by intros a (b & -> & _)%list_elem_of_fmap.
  - intros a (b & -> & Hb)%list_elem_of_fmap. destruct (walked_recorded w b Hw Hb) as [from Hr].
    by eapply stored_blobs_sorted.
Qed.

Lemma walked_root_first w a :
  walked unmarshal repo root [] w → wk_tree w !! 0%nat = Some a → at_Digest a = d_Digest root.
Proof using Type*.
  intros Hw Ha. destruct (wd_root _ _ _ _ _ Hw a Ha) as (_ & _ & (desc & raw & body & Hf & _ & _ & Hd & _)).
  unfold at_Digest. rewrite Hd. exact (fetched_as_asked _ _ _ Hroot Hf).
Qed.
End stored.

(** A tree read is of the depths of the tree written, so its root comes first. *)
Lemma same_tree_root t t' root :
  tree_ok t → t ≠ [] → (∀ a, a ∈ t → 0 <= aw_Depth (sa_Row a)) → same_tree t t' →
  (∀ a, t !! 0%nat = Some a → sa_Digest a = d_Digest root) →
  ∀ total blobs, rootedAt (mkStoredTree t' total blobs) root = true.
Proof.
  intros Ht Hne Hpos [Hdig _ Hart] Hr total blobs. unfold rootedAt. cbn [st_Artifacts].
  assert (∀ x, x ∈ filter (λ a, aw_Depth (sa_Row a) = 0) t' → sa_Digest x = d_Digest root) as Hall.
  { intros x [Hd [j Hj]%list_elem_of_lookup_1]%list_elem_of_filter.
    destruct (Hart j x Hj) as (i & a & Ha & Hs & _). rewrite (sf_digest _ _ Hs).
    destruct i as [|i]; [by apply Hr|exfalso].
    destruct (to_listed _ Ht i a Ha) as (p & b & _ & _ & Hb & Hdep). rewrite (sf_depth _ _ Hs) in Hd.
    pose proof (Hpos b ltac:(by eapply list_elem_of_lookup_2)). lia. }
  destruct (filter _ t') as [|x l] eqn:Hf; [exfalso|].
  - destruct t as [|a t]; [done|]. assert (sa_Digest a ∈ sa_Digest <$> t') as Hin by (rewrite Hdig; by left).
    apply list_elem_of_fmap in Hin as (x & Hx & [j Hj]%list_elem_of_lookup_1).
    destruct (Hart j x Hj) as (i & b & Hb & Hs & _).
    assert (i = 0%nat) as ->.
    { eapply (NoDup_lookup (sa_Digest <$> a :: t)); [apply Ht|rewrite list_lookup_fmap, Hb; done|].
      simpl. by rewrite Hx, (sf_digest _ _ Hs). }
    injection Hb as <-. apply (not_elem_of_nil x). rewrite <-Hf. apply list_elem_of_filter.
    split; [|by eapply list_elem_of_lookup_2]. rewrite (sf_depth _ _ Hs). by apply (to_root _ Ht a).
  - simpl. apply String.eqb_eq, Hall. by left.
Qed.

(** What a transfer's planner asks of a tree. *)
Lemma same_tree_planned t t' :
  tree_ok t → same_tree t t' →
  NoDup (a_Digest <$> (as_planned <$> t')) ∧
  ∀ j q x y, (as_planned <$> t') !! j = Some x → (as_planned <$> t') !! q = Some y →
    a_Parent x = Z.of_nat q → (q < j)%nat ∧ a_Depth y < a_Depth x.
Proof.
  intros Ht [Hdig _ Hart]. split.
  - rewrite <-list_fmap_compose. change (NoDup (sa_Digest <$> t')). rewrite Hdig. apply Ht.
  - intros j q x y. rewrite !list_lookup_fmap. intros (x' & Hx & ->)%fmap_Some (y' & Hy & ->)%fmap_Some. simpl.
    intros Hp. destruct (Hart j x' Hx) as (i & a & Ha & Hs & [[_ Hn]|(p & b & q' & z & Hpar & Hb & Hq & Hlt & Hz & Hd)]).
    { rewrite Hn in Hp. lia. }
    assert (q' = q) as -> by lia. simplify_eq. split; [done|].
    destruct (Hart q y' Hy) as (i' & b' & Hb' & Hs' & _).
    rewrite (sf_depth _ _ Hs), (sf_depth _ _ Hs').
    assert (i' = p) as ->.
    { eapply (NoDup_lookup (sa_Digest <$> t)); [apply Ht|by rewrite list_lookup_fmap, Hb'|].
      rewrite list_lookup_fmap, Hb. simpl. by rewrite <-Hd, (sf_digest _ _ Hs'). }
    simplify_eq. destruct i as [|i].
    { destruct (to_root _ Ht a Ha) as [Hn _]. lia. }
    destruct (to_listed _ Ht i a Ha) as (p' & b'' & Hp' & _ & Hb'' & Hdep).
    assert (p' = p) as -> by lia. simplify_eq. lia.
Qed.

(** The tree a walk stored, read back. *)
Lemma walked_tree_recorded `{ArtifactIds} unmarshal repo `{!Verified repo} now packageID root t n c :
  valid (d_Digest root) → (∃ err, unmarshal "" = inl err) →
  Tree.Walk unmarshal repo root = Some (inr (t, n)) → agrees packageID (st_Artifacts (ToStoreTree t)) c →
  tree_ok (st_Artifacts (ToStoreTree t)) ∧
  ∃ c', RecordExpandedTree now packageID (ToStoreTree t) c = Ok c' ∧
    same_tree (st_Artifacts (ToStoreTree t)) (st_Artifacts (ReadExpandedTree packageID c').1) ∧
    (ReadExpandedTree packageID c').2 = true ∧ rootedAt (ReadExpandedTree packageID c').1 root = true.
Proof.
  intros Hv [err Hempty] Hwalk Hag. unfold Tree.Walk in Hwalk.
  destruct (walk unmarshal repo false root) as [[[w ?]|w]|] eqn:E; [done| |done]. injection Hwalk as <- <-.
  destruct (walk_walked _ _ _ _ _ Hv E) as (Hw & Hin & _ & Hstrict). specialize (Hstrict eq_refl).
  simpl in Hag |- *. pose proof (stored_tree_ok _ _ _ _ Hw) as Ht. split; [exact Ht|].
  assert (stored_artifact <$> wk_tree w ≠ []) as Hne.
  { intros Hnil%fmap_nil_inv. unfold wk_digests in Hin. rewrite Hnil, Hstrict in Hin. by apply elem_of_nil in Hin. }
  destruct (read_back now packageID (ToStoreTree (Tree.finish (wk_tree w) None)) c Ht Hne Hag) as (c' & Hrec & Hsame & Hc).
  { intros a (b & -> & Hb)%list_elem_of_fmap. destruct (walked_recorded _ _ _ _ _ Hw Hb) as (from & d & raw & body & _ & Hu & Hr & _).
    simpl. rewrite Hr. simpl. intros ->. congruence. }
  exists c'. split_and!; [exact Hrec|exact Hsame|exact Hc|].
  destruct (ReadExpandedTree packageID c').1 as [l total blobs] eqn:El. simpl in Hsame.
  apply (same_tree_root (stored_artifact <$> wk_tree w)); [done|done| |done|].
  - intros a (b & -> & Hb)%list_elem_of_fmap. by apply (wd_depth _ _ _ _ _ Hw).
  - intros a Ha. rewrite list_lookup_fmap in Ha. apply fmap_Some in Ha as (b & Hb & ->).
    by eapply (walked_root_first _ _ _ Hv).
Qed.

(** A release is walked once.  When the walk of a release succeeds, an
    expansion succeeds; the tree it gives is the tree walked, artifact for
    artifact (or the one on record, when that is complete and of the same root),
    and in the order a planner needs; and from then on the same expansion is
    answered from the record alone, without a source, at any time and with
    nothing written. *)
Theorem a_release_is_walked_once `{ArtifactIds} unmarshal repo `{!Verified repo} now packageID root t n c :
  valid (d_Digest root) → (∃ err, unmarshal "" = inl err) →
  Tree.Walk unmarshal repo root = Some (inr (t, n)) → agrees packageID (st_Artifacts (ToStoreTree t)) c →
  ∃ c' e, Ensure unmarshal now packageID root (Some repo) c = (c', inr e) ∧
    (∀ later src, Ensure unmarshal later packageID root src c' = (c', inr (mkExpansion (ex_Tree e) 0 true))) ∧
    (ex_FromRecord e = false → ex_Fetched e = n ∧
       same_tree (st_Artifacts (ToStoreTree t)) (st_Artifacts (ex_Tree e)) ∧
       let tree := as_planned <$> st_Artifacts (ex_Tree e) in
       NoDup (a_Digest <$> tree) ∧
       ∀ j q x y, tree !! j = Some x → tree !! q = Some y → a_Parent x = Z.of_nat q →
         (q < j)%nat ∧ a_Depth y < a_Depth x).
Proof.
  intros Hv Hempty Hwalk Hag.
  destruct (walked_tree_recorded unmarshal repo now packageID root t n c Hv Hempty Hwalk Hag)
    as (Ht & c' & Hrec & Hsame & Hc & Hr).
  unfold Ensure. destruct (ReadExpandedTree packageID c) as [recorded complete] eqn:E.
  destruct (complete && rootedAt recorded root) eqn:Hdone.
  - eexists c, _. split; [done|]. split; [|done]. intros later src. by rewrite E, Hdone.
  - rewrite Hwalk, Hrec. eexists c', _. split; [done|]. cbn [ex_FromRecord ex_Fetched ex_Tree].
    destruct (ReadExpandedTree packageID c') as [tree' b]. simpl in Hsame, Hc, Hr. split.
    + intros later src. by rewrite Hc, Hr.
    + intros _. split; [done|]. split; [done|]. by apply (same_tree_planned (st_Artifacts (ToStoreTree t))).
Qed.

(* -------------------------------------------------------------------- *)
(** ** Examples *)

(** An index over the image of Tree's examples. *)
Definition wrap_unmarshal (raw : string) : string + manifestBody :=
  if String.eqb raw "wrap" then
    inr (mkBody MediaTypeOCIIndex "" None [] [at_address MediaTypeOCIManifest "1"] ∅)
  else if String.eqb raw "rewrap" then
    inr (mkBody MediaTypeOCIIndex "" None [] [at_address MediaTypeOCIManifest "1"] (<["signer" := "other"]> ∅))
  else toy_unmarshal raw.

Definition wrap_fetch (ref : string) : Fault + (Descriptor * string) :=
  if String.eqb ref (address "5") then inr (at_address MediaTypeOCIIndex "5", "wrap")
  else if String.eqb ref (address "6") then inr (at_address MediaTypeOCIIndex "6", "rewrap")
  else toy_fetch ref.

Definition wrap_registry : Registry.Repository := mkRepository (λ _, inl (sentinel ErrNotFound)) wrap_fetch None.

#[export] Instance wrap_verified : Verified wrap_registry.
Proof.
  assert (∀ ref d raw, wrap_fetch ref = inr (d, raw) → d_Digest d = ref ∧ valid (d_Digest d)) as Hf.
  { intros ref d raw. unfold wrap_fetch.
    destruct (String.eqb_spec ref (address "5")) as [->|]; [by intros [= <- _]|].
    destruct (String.eqb_spec ref (address "6")) as [->|]; [by intros [= <- _]|]. apply toy_fetch_address. }
  constructor; [| |done]; intros; by eapply Hf.
Qed.

Definition wrap_root : Descriptor := at_address MediaTypeOCIIndex "5".
Definition rewrap_root : Descriptor := at_address MediaTypeOCIIndex "6".

Definition no_contents : Contents := mkContents ∅ ∅ ∅ ∅.

Definition wrap_tree : Tree := Eval vm_compute in
  match Tree.Walk wrap_unmarshal wrap_registry wrap_root with
  | Some (inr (t, _)) => t
  | _ => mkTree [] None None None
  end.

Lemma wrap_walked : Tree.Walk wrap_unmarshal wrap_registry wrap_root = Some (inr (wrap_tree, 2)).
Proof. vm_compute. reflexivity. Qed.

Lemma wrap_agrees : agrees 7 (st_Artifacts (ToStoreTree wrap_tree)) no_contents.
Proof.
  split; try done. intros a b a' b' Ha Hb Ha' Hb' E.
  assert (∀ a b, a ∈ st_Artifacts (ToStoreTree wrap_tree) → b ∈ sa_Blobs a → sb_SizeBytes b = 10 ∧
    sb_MediaType b = if String.eqb (sb_Digest b) (address "8") then "config" else "layer") as Hall.
  { clear. intros a b. cbn [ToStoreTree st_Artifacts]. unfold wrap_tree. cbn [tr_Artifacts fmap list_fmap].
    rewrite !elem_of_cons, elem_of_nil. intros [->|[->|[]]]; cbn [stored_artifact sa_Blobs at_Blobs fmap list_fmap];
      rewrite ?elem_of_cons, elem_of_nil; [done|]. by intros [->|[->|[->|[]]]]. }
  destruct (Hall a b Ha Hb) as [-> ->], (Hall a' b' Ha' Hb') as [-> ->]. by rewrite E.
Qed.


Lemma a_release_is_walked_once_witness :
  ∃ c e, Ensure wrap_unmarshal 100 7 wrap_root (Some wrap_registry) no_contents = (c, inr e) ∧
    Ensure wrap_unmarshal 200 7 wrap_root None c = (c, inr (mkExpansion (ex_Tree e) 0 true)).
Proof.
  destruct (a_release_is_walked_once wrap_unmarshal wrap_registry 100 7 wrap_root wrap_tree 2 no_contents eq_refl
    (ex_intro _ _ eq_refl) wrap_walked wrap_agrees) as (c & e & Hens & Hagain & _).
  exists c, e. split; [exact Hens|apply Hagain].
Defined.

Definition expand_at (root : Descriptor) (src : option Registry.Repository) (c : Contents) :=
  Ensure wrap_unmarshal 100 7 root src c.

Definition outcome (r : Contents * (ExpandError + Expansion)) : option (list (string * Z) * Z * bool) :=
  match r.2 with
  | inr e => Some ((λ a, (sa_Digest a, aw_Depth (sa_Row a))) <$> st_Artifacts (ex_Tree e), ex_Fetched e, ex_FromRecord e)
  | inl _ => None
  end.

(** The shared layer is read once, and the sizes are of the distinct digests. *)
Example a_shared_layer_is_read_once :
  (λ a, sb_Ordinal <$> sa_Blobs a) <$>
    st_Artifacts (ReadExpandedTree 7 (expand_at wrap_root (Some wrap_registry) no_contents).1).1 = [[]; [0; 0]].
Proof. vm_compute. reflexivity. Qed.

(** A release first listed by its payload is re-rooted under its wrapper: one
    artifact of depth 0. *)
Example a_payload_is_rerooted :
  let c := (expand_at (at_address MediaTypeOCIManifest "1") (Some wrap_registry) no_contents).1 in
  outcome (expand_at wrap_root (Some wrap_registry) c) = Some ([(address "5", 0); (address "1", 1)], 2, false).
Proof. vm_compute. reflexivity. Qed.

(** A second wrapper leaves the first in the tree, at depth 0 and ahead of it:
    the record is complete, and is never again taken for the root's. *)
Example a_second_wrapper_is_walked_every_time :
  let c := (expand_at wrap_root (Some wrap_registry) no_contents).1 in
  let c := (expand_at rewrap_root (Some wrap_registry) c).1 in
  outcome (expand_at rewrap_root (Some wrap_registry) c) =
    Some ([(address "5", 0); (address "6", 0); (address "1", 1)], 2, false) ∧
  outcome (expand_at rewrap_root None c) = None.
Proof. split; vm_compute; reflexivity. Qed.
