(* ===== verification/ManifestCache.v ===== *)
(** * The manifest cache

    internal/store/manifestcache.go: the bodies of manifests are kept within a
    budget and an age, the least recently used leaving first; what a package
    consists of (Contents) is kept, and so is the answer of an expansion. *)

From S2P Require Import Prelude GoStrings Backoff Registry Tree Requests Contents.
Open Scope Z_scope.

(* -------------------------------------------------------------------- *)
(** ** The policy and what a sweep reports *)

(** Instants and durations are nanoseconds. *)
Record ManifestCachePolicy := mkPolicy { mp_BudgetBytes : Z; mp_TTL : Z }.

Record ManifestCacheStats := mkStats {
  ms_Manifests : Z;
  ms_CachedManifests : Z;
  ms_CachedBytes : Z;
  ms_OldestUse : option Z }.

Record SweepResult := mkSweep {
  sw_ExpiredManifests : Z;
  sw_ExpiredBytes : Z;
  sw_EvictedManifests : Z;
  sw_EvictedBytes : Z;
  sw_RemainingBytes : Z }.

Definition Freed (r : SweepResult) : Z := sw_ExpiredBytes r + sw_EvictedBytes r.
Definition Manifests (r : SweepResult) : Z := sw_ExpiredManifests r + sw_EvictedManifests r.

Definition sweepBatch : nat := Z.to_nat 2000.
Definition maxSweepPasses : nat := 200.
Definition dropChunk : nat := 500.

(* -------------------------------------------------------------------- *)
(** ** Statements *)

Definition is_cached (r : artifact_row) : bool := bool_decide (is_Some (ar_raw r)).

(** COALESCE(raw_used_at, fetched_at) *)
Definition last_used (r : artifact_row) : option Z := coalesce (ar_raw_used r) (ar_fetched r).

(** raw = NULL, raw_bytes = 0, raw_used_at = NULL *)
Definition drop_body (r : artifact_row) : artifact_row :=
  mkArtifactRow (ar_package r) (ar_parent r) (ar_digest r) (ar_media_type r) (ar_artifact_type r) (ar_size r)
    (ar_platform r) (ar_depth r) None (ar_annotations r) (ar_fetched r) 0 None.

Definition sum (l : list Z) : Z := foldr Z.add 0 l.

Definition bytes_in (l : list (Z * artifact_row)) : Z := sum ((λ r, ar_raw_bytes r.2) <$> l).

(** MIN ignores NULL. *)
Definition earliest (l : list (option Z)) : option Z :=
  foldr (λ x m, match x, m with
                | Some x, Some m => Some (Z.min x m)
                | Some x, None => Some x
                | None, m => m
                end) None l.

Definition CacheStats (c : Contents) : ManifestCacheStats :=
  let rows := map_to_list (artifacts c) in
  mkStats (Z.of_nat (length rows)) (Z.of_nat (count_where (λ _, is_cached) (artifacts c)))
    (bytes_in rows) (earliest ((λ r, ar_raw_used r.2) <$> rows)).

(** raw IS NOT NULL AND COALESCE(raw_used_at, fetched_at) < TimeAgo(cutoff):
    NULL is not before anything. *)
Definition is_expired (now cutoff : Z) (_ : Z) (r : artifact_row) : bool :=
  is_cached r && match last_used r with Some t => t <? now - cutoff * Second | None => false end.

Definition expireManifestCache (now ttl : Z) (c : Contents) : Contents * (Z * Z) :=
  let cutoff := Z.quot ttl Second in
  if cutoff <=? 0 then (c, (0, 0))
  else
    let rows := select_where (is_expired now cutoff) (artifacts c) in
    match rows with
    | [] => (c, (0, 0))
    | _ => (c <| artifacts ::= update_where (is_expired now cutoff) (λ _, drop_body) |>,
            (Z.of_nat (length rows), bytes_in rows))
    end.

(** ORDER BY COALESCE(raw_used_at, fetched_at), id.  A cached row has been
    fetched ([cache_ok]), so no row of it compares as NULL. *)
Definition use_order (r : Z * artifact_row) : list Z := [default 0 (last_used r.2); r.1].

Definition by_use (c : Contents) : list (Z * artifact_row) :=
  order_by use_order (select_where (λ _, is_cached) (artifacts c)).

(** Rows until they amount to what is needed. *)
Fixpoint enough (need total : Z) (rows : list (Z * artifact_row)) : list Z * Z :=
  match rows with
  | [] => ([], total)
  | (id, r) :: rows =>
      let total := total + ar_raw_bytes r in
      if need <=? total then ([id], total)
      else let '(ids, total) := enough need total rows in (id :: ids, total)
  end.

Definition oldestCached (need : Z) (c : Contents) : list Z * Z :=
  enough need 0 (take sweepBatch (by_use c)).

Definition drop_batch (c : Contents) (ids : list Z) : Contents :=
  c <| artifacts ::= update_where (λ id _, bool_decide (id ∈ ids)) (λ _, drop_body) |>.

(** The chunks of a list; [fuel] is its length. *)
Fixpoint chunks {A} (n fuel : nat) (l : list A) : list (list A) :=
  match fuel, l with
  | S fuel, _ :: _ => take n l :: chunks n fuel (drop n l)
  | _, _ => []
  end.

Definition dropCached (ids : list Z) (c : Contents) : Contents :=
  foldl drop_batch c (chunks dropChunk (length ids) ids).

Fixpoint trim_passes (passes : nat) (budget : Z) (c : Contents) (evicted freed : Z) : Contents * (Z * Z) :=
  match passes with
  | O => (c, (evicted, freed))
  | S passes =>
      let over := ms_CachedBytes (CacheStats c) - budget in
      if over <=? 0 then (c, (evicted, freed))
      else let '(ids, bytes) := oldestCached over c in
      match ids with
      | [] => (c, (evicted, freed))
      | _ => trim_passes passes budget (dropCached ids c) (evicted + Z.of_nat (length ids)) (freed + bytes)
      end
  end.

Definition trimManifestCache (budget : Z) (c : Contents) : Contents * (Z * Z) :=
  trim_passes maxSweepPasses budget c 0 0.

Definition SweepManifestCache (now : Z) (policy : ManifestCachePolicy) (c : Contents) : Contents * SweepResult :=
  let '(c, (expired, aged)) := if 0 <? mp_TTL policy then expireManifestCache now (mp_TTL policy) c else (c, (0, 0)) in
  let '(c, (evicted, trimmed)) :=
    if 0 <? mp_BudgetBytes policy then trimManifestCache (mp_BudgetBytes policy) c else (c, (0, 0)) in
  (c, mkSweep expired aged evicted trimmed (ms_CachedBytes (CacheStats c))).

Definition TouchManifestCache (now packageID : Z) (c : Contents) : Contents :=
  c <| artifacts ::= update_where (λ _ r, bool_decide (ar_package r = packageID) && is_cached r)
         (λ _ r, mkArtifactRow (ar_package r) (ar_parent r) (ar_digest r) (ar_media_type r) (ar_artifact_type r)
            (ar_size r) (ar_platform r) (ar_depth r) (ar_raw r) (ar_annotations r) (ar_fetched r) (ar_raw_bytes r)
            (Some now)) |>.

Record CachedManifest := mkCached { cm_Raw : string; cm_MediaType : string; cm_SizeBytes : Z }.

(** LIMIT 1 of the rows, in whatever order the database has them. *)
Definition ManifestByDigest (digest : string) (c : Contents) : option CachedManifest :=
  match select_where (λ _ r, bool_decide (ar_digest r = digest) && is_cached r) (artifacts c) with
  | (_, r) :: _ => Some (mkCached (default "" (ar_raw r)) (ar_media_type r) (ar_size r))
  | [] => None
  end.

(* -------------------------------------------------------------------- *)
(** ** What the three columns agree on *)

Record row_ok (r : artifact_row) : Prop := {
  ro_body raw : ar_raw r = Some raw → raw ≠ "" ∧ ar_raw_bytes r = Z.of_nat (String.length raw);
  ro_fetched : is_Some (ar_raw r) → is_Some (ar_fetched r);
  ro_none : ar_raw r = None → ar_raw_bytes r = 0 }.

Definition cache_ok (c : Contents) : Prop := ∀ id r, artifacts c !! id = Some r → row_ok r.

Lemma row_ok_bytes r : row_ok r → if is_cached r then 0 < ar_raw_bytes r else ar_raw_bytes r = 0.
Proof.
  intros [Hb _ Hn]. unfold is_cached. destruct (ar_raw r) as [raw|]; simpl; [|by apply Hn].
  destruct (Hb raw eq_refl) as [Hne ->]. destruct raw; [done|simpl; lia].
Qed.

Lemma new_artifact_ok now a : row_ok (new_artifact now a).
Proof.
  unfold new_artifact, fetchStamps, rawOrNull.
  destruct (String.eqb_spec (aw_Raw a) ""); split; simpl; first [by intros raw [= <-]|by intros []|done|by eexists].
Qed.

Lemma fill_artifact_ok now a r : row_ok r → row_ok (fill_artifact (new_artifact now a) r).
Proof.
  intros [Hb Hf Hn]. unfold new_artifact, fetchStamps, rawOrNull.
  destruct (String.eqb_spec (aw_Raw a) ""); split; simpl; try done.
  - intros H. destruct (ar_fetched r); [by eexists|]. by destruct (Hf H).
  - by intros raw [= <-].
  - intros _. destruct (ar_fetched r); by eexists.
Qed.

Lemma drop_body_ok r : row_ok r → row_ok (drop_body r).
Proof. intros _. split; simpl; by first [done|intros []]. Qed.

Lemma cache_ok_insert c id r :
  cache_ok c → row_ok r → cache_ok (c <| artifacts ::= insert id r |>).
Proof. intros Hc Hr i s. simpl. intros [[_ <-]|[_ Hs]]%lookup_insert_Some; [done|by eapply Hc]. Qed.

Lemma cache_ok_update c p (f : Z → artifact_row → artifact_row) :
  cache_ok c → (∀ id r, p id r = true → row_ok r → row_ok (f id r)) →
  cache_ok (c <| artifacts ::= update_where p f |>).
Proof.
  intros Hc Hf i s. simpl. intros (r & Hr & ->)%lookup_update_where_Some.
  destruct (p i r) eqn:E; [apply Hf; [done|]|]; by eapply Hc.
Qed.

(* -------------------------------------------------------------------- *)
(** ** Lemmas: sums of rows *)

Lemma bytes_in_app l k : bytes_in (l ++ k) = bytes_in l + bytes_in k.
Proof. unfold bytes_in. rewrite fmap_app. induction (_ <$> l) as [|x xs IH]; simpl; lia. Qed.

#[export] Instance bytes_in_Permutation : Proper ((≡ₚ) ==> (=)) bytes_in.
Proof.
  intros l k Hp. unfold bytes_in. apply (fmap_Permutation (λ r : Z * artifact_row, ar_raw_bytes r.2)) in Hp.
  revert Hp. generalize (ar_raw_bytes ∘ snd <$> l). intros xs. induction 1; simpl; lia.
Qed.

Lemma bytes_in_cached (l : list (Z * artifact_row)) :
  Forall (λ r, row_ok r.2) l → bytes_in l = bytes_in (filter (λ r, is_cached r.2 = true) l).
Proof.
  induction 1 as [|[id r] l Hr Hl IH]; [done|]. rewrite filter_cons.
  apply row_ok_bytes in Hr. simpl in *. case_decide as E; rewrite ?E in Hr.
  - change (ar_raw_bytes r + bytes_in l = ar_raw_bytes r + bytes_in (filter (λ r, is_cached r.2 = true) l)). lia.
  - apply not_true_is_false in E. rewrite E in Hr. change (ar_raw_bytes r + bytes_in l = bytes_in (filter (λ r, is_cached r.2 = true) l)). lia.
Qed.

Lemma bytes_in_nonneg l : Forall (λ r : Z * artifact_row, row_ok r.2) l → 0 <= bytes_in l.
Proof.
  induction 1 as [|[id r] l Hr Hl IH]; [done|]. change (0 <= ar_raw_bytes r + bytes_in l).
  apply row_ok_bytes in Hr. simpl in Hr. destruct (is_cached r); lia.
Qed.

Lemma elem_of_by_use c id r : (id, r) ∈ by_use c ↔ artifacts c !! id = Some r ∧ is_cached r = true.
Proof. unfold by_use. by rewrite elem_of_order_by, elem_of_select_where. Qed.

Lemma NoDup_by_use c : NoDup (by_use c).*1.
Proof. unfold by_use. rewrite order_by_Permutation. apply NoDup_select_where. Qed.

Lemma by_use_ok c : cache_ok c → Forall (λ r : Z * artifact_row, row_ok r.2) (by_use c).
Proof. intros Hc. apply Forall_forall. intros [id r] [Hr _]%elem_of_by_use. by eapply Hc. Qed.

Lemma CachedBytes_by_use c : cache_ok c → ms_CachedBytes (CacheStats c) = bytes_in (by_use c).
Proof.
  intros Hc. unfold by_use, CacheStats. cbn [ms_CachedBytes]. rewrite order_by_Permutation.
  apply bytes_in_cached. apply Forall_forall. intros [id r] Hr%elem_of_map_to_list. by eapply Hc.
Qed.

Lemma CachedManifests_by_use c : ms_CachedManifests (CacheStats c) = Z.of_nat (length (by_use c)).
Proof. unfold by_use, CacheStats, count_where. cbn [ms_CachedManifests]. by rewrite order_by_Permutation. Qed.

(* -------------------------------------------------------------------- *)
(** ** Lemmas: bodies dropped *)

Lemma drop_batch_artifacts ids c k :
  artifacts (drop_batch c ids) !! k = (λ r, if bool_decide (k ∈ ids) then drop_body r else r) <$> artifacts c !! k.
Proof. unfold drop_batch. simpl. by rewrite lookup_update_where. Qed.

Lemma drop_batch_tables ids c :
  links (drop_batch c ids) = links c ∧ catalogue (drop_batch c ids) = catalogue c ∧ measured (drop_batch c ids) = measured c.
Proof. done. Qed.

Lemma Contents_eq c d :
  artifacts c = artifacts d → links c = links d → catalogue c = catalogue d → measured c = measured d → c = d.
Proof. destruct c, d. simpl. by intros -> -> -> ->. Qed.

Lemma drop_batch_app a b c : drop_batch (drop_batch c a) b = drop_batch c (a ++ b).
Proof.
  apply Contents_eq; [|done..]. apply map_eq. intros k. rewrite !drop_batch_artifacts.
  destruct (artifacts c !! k) as [r|]; [|done]. simpl. f_equal.
  repeat case_bool_decide; set_solver.
Qed.

Lemma drop_batch_nil c : drop_batch c [] = c.
Proof.
  apply Contents_eq; [|done..]. apply map_eq. intros k. rewrite drop_batch_artifacts.
  by destruct (artifacts c !! k).
Qed.

Lemma concat_chunks {A} n fuel (l : list A) : (0 < n)%nat → (length l <= fuel)%nat → concat (chunks n fuel l) = l.
Proof.
  intros Hn. revert l. induction fuel as [|fuel IH]; intros [|x l] Hl; simpl in *; try done; [lia|].
  destruct n as [|n]; [lia|]. simpl. f_equal. rewrite IH; [apply take_drop|]. rewrite length_drop. lia.
Qed.

(** The chunks are one statement over all the ids. *)
Lemma dropCached_eq ids c : dropCached ids c = drop_batch c ids.
Proof.
  unfold dropCached. trans (drop_batch c (concat (chunks dropChunk (length ids) ids))).
  2: { f_equal. apply concat_chunks; [unfold dropChunk|]; lia. }
  generalize (chunks dropChunk (length ids) ids). intros l. revert c.
  induction l as [|x l IH]; intros c; cbn [foldl concat]; [by rewrite drop_batch_nil|]. by rewrite IH, drop_batch_app.
Qed.

Lemma drop_batch_ok ids c : cache_ok c → cache_ok (drop_batch c ids).
Proof. intros Hc. apply cache_ok_update; [done|]. intros. by apply drop_body_ok. Qed.

(** What is left after the first [n] have gone. *)
Lemma by_use_dropped n c : by_use (drop_batch c (take n (by_use c)).*1) = drop n (by_use c).
Proof.
  pose proof (NoDup_by_use c) as Hnd. rewrite <-(take_drop n (by_use c)), fmap_app in Hnd at 1.
  apply NoDup_app in Hnd as (_ & Hapart & Hrest).
  assert (∀ x, x ∈ drop n (by_use c) → x ∈ by_use c) as Hsub.
  { intros x Hx. rewrite <-(take_drop n (by_use c)). apply elem_of_app. by right. }
  apply (StronglySorted_unique_strong (key_le use_order)).
  - intros [i r] [j s] Hi Hj L1 L2. pose proof (lex_le_antisymm _ _ L1 L2) as E. unfold use_order in E. simpl in E.
    injection E as _ <-. apply Hsub, elem_of_by_use in Hj as [Hj _].
    apply elem_of_by_use in Hi as [Hi Hc]. rewrite drop_batch_artifacts, Hj in Hi. simpl in Hi.
    case_bool_decide; injection Hi as <-; [by destruct s|done].
  - apply order_by_sorted.
  - pose proof (order_by_sorted use_order (select_where (λ _, is_cached) (artifacts c))) as Hs.
    fold (by_use c) in Hs. rewrite <-(take_drop n (by_use c)) in Hs. by apply StronglySorted_app in Hs as (_ & _ & ?).
  - apply NoDup_Permutation.
    + eapply (NoDup_fmap_1 fst), NoDup_by_use.
    + by eapply (NoDup_fmap_1 fst).
    + intros [id r]. rewrite elem_of_by_use, drop_batch_artifacts. split.
      * intros [(s & Hs & Hr)%fmap_Some Hc]. case_bool_decide as Hin; subst r; [by destruct s|].
        assert ((id, s) ∈ by_use c) as Hby by by apply elem_of_by_use.
        rewrite <-(take_drop n (by_use c)) in Hby. apply elem_of_app in Hby as [Hby|]; [|done].
        destruct Hin. by apply (list_elem_of_fmap_2 fst) in Hby.
      * intros Hin. apply Hsub in Hin as Hby. apply elem_of_by_use in Hby as [-> Hc]. simpl. split; [|done].
        rewrite bool_decide_eq_false_2; [done|]. intros Hbad. apply (Hapart id Hbad).
        by apply (list_elem_of_fmap_2 fst) in Hin.
Qed.

(* -------------------------------------------------------------------- *)
(** ** Lemmas: one pass, and all of them *)

(** The fewest first rows that amount to [need], or all of them. *)
Lemma enough_spec need total rows ids t :
  total < need → enough need total rows = (ids, t) →
  ∃ n, (n ≤ length rows)%nat ∧ ids = (take n rows).*1 ∧ t = total + bytes_in (take n rows) ∧
    (need <= t ∨ n = length rows) ∧ ∀ m, (m < n)%nat → total + bytes_in (take m rows) < need.
Proof.
  revert total ids t. induction rows as [|[id r] rows IH]; intros total ids t Hlt; cbn [enough].
  { intros [= <- <-]. exists 0%nat. split_and!; [done|done|unfold bytes_in; simpl; lia|by right|lia]. }
  destruct (Z.leb_spec need (total + ar_raw_bytes r)) as [Hle|Hgt].
  - intros [= <- <-]. exists 1%nat. split_and!; [simpl; lia|done|unfold bytes_in; simpl; lia|by left|].
    intros m Hm. assert (m = 0%nat) as -> by lia. unfold bytes_in. simpl. lia.
  - destruct (enough need (total + ar_raw_bytes r) rows) as [ids' t'] eqn:E. intros [= <- <-].
    destruct (IH _ _ _ Hgt E) as (n & Hn & -> & -> & Hdone & Hmin).
    assert (∀ k, bytes_in ((id, r) :: take k rows) = ar_raw_bytes r + bytes_in (take k rows)) as Hcons by done.
    exists (S n). split_and!; [simpl; lia|done|cbn [take]; rewrite Hcons; lia| |].
    + destruct Hdone as [| ->]; [by left|by right].
    + intros [|m] Hm; cbn [take]; [unfold bytes_in; simpl; lia|]. rewrite Hcons. specialize (Hmin m). lia.
Qed.

Lemma bytes_in_drop n l : bytes_in (drop n l) = bytes_in l - bytes_in (take n l).
Proof. rewrite <-(take_drop n l) at 2. rewrite bytes_in_app. lia. Qed.

Record trimmed (budget : Z) (c c' : Contents) (n : nat) : Prop := {
  tm_size : (n ≤ length (by_use c))%nat;
  tm_contents : c' = drop_batch c (take n (by_use c)).*1;
  tm_least m : (m < n)%nat → budget < bytes_in (drop m (by_use c)) }.

Lemma oldestCached_trimmed budget c ids bytes :
  cache_ok c → 0 <= budget → budget < bytes_in (by_use c) →
  oldestCached (bytes_in (by_use c) - budget) c = (ids, bytes) →
  ∃ n, trimmed budget c (dropCached ids c) n ∧ (0 < n)%nat ∧ length ids = n ∧
    bytes = bytes_in (take n (by_use c)) ∧
    (bytes_in (drop n (by_use c)) <= budget ∨ n = sweepBatch).
Proof.
  intros Hc Hb Hover Hold. unfold oldestCached in Hold.
  apply enough_spec in Hold as (n & Hn & -> & -> & Hdone & Hmin); [|lia].
  rewrite length_take in Hn, Hdone. rewrite take_take, Nat.min_l in * by lia.
  assert (∀ m, (m < n)%nat → bytes_in (take m (by_use c)) < bytes_in (by_use c) - budget) as Hmin'.
  { intros m Hm. specialize (Hmin m Hm). rewrite take_take, Nat.min_l in Hmin by lia. lia. }
  exists n. split_and!.
  - split; [lia|apply dropCached_eq|]. intros m Hm. rewrite bytes_in_drop. specialize (Hmin' m Hm). lia.
  - destruct n as [|n]; [|lia]. exfalso. destruct Hdone as [Hle|Hz]; [change (bytes_in (take 0 (by_use c))) with 0 in Hle; lia|].
    assert (length (by_use c) = 0%nat) as Hl by (unfold sweepBatch in Hz; lia).
    apply nil_length_inv in Hl. rewrite Hl in Hover. change (bytes_in []) with 0 in Hover. lia.
  - rewrite length_fmap, length_take. lia.
  - lia.
  - rewrite bytes_in_drop. destruct Hdone as [Hle|Hall]; [left; lia|].
    destruct (decide (n = sweepBatch)) as [|Hne]; [by right|left].
    rewrite take_ge by lia. lia.
Qed.

Lemma trimmed_then budget c c1 c2 n m :
  trimmed budget c c1 n → trimmed budget c1 c2 m → trimmed budget c c2 (n + m).
Proof.
  intros [Hn Hc1 Hmin] [Hm Hc2 Hmin']. rewrite Hc1, by_use_dropped in Hm, Hc2, Hmin'.
  rewrite length_drop in Hm. split; [lia| |].
  - rewrite Hc2, drop_batch_app, <-fmap_app. do 2 f_equal. apply take_take_drop.
  - intros k Hk. destruct (decide (k < n)%nat) as [|Hge]; [by apply Hmin|].
    specialize (Hmin' (k - n)%nat ltac:(lia)). rewrite drop_drop in Hmin'. by replace (n + (k - n))%nat with k in Hmin' by lia.
Qed.

Lemma trim_passes_spec passes budget c ev fr c' ev' fr' :
  cache_ok c → 0 <= budget → trim_passes passes budget c ev fr = (c', (ev', fr')) →
  ∃ n, trimmed budget c c' n ∧ ev' = ev + Z.of_nat n ∧ fr' = fr + bytes_in (take n (by_use c)) ∧
    (bytes_in (drop n (by_use c)) <= budget ∨ n = (passes * sweepBatch)%nat).
Proof.
  revert c ev fr. induction passes as [|passes IH]; intros c ev fr Hc Hb.
  { intros [= <- <- <-]. exists 0%nat. split; [|split_and!; [lia|unfold bytes_in; simpl; lia|by right]].
    split; [lia|by rewrite drop_batch_nil|lia]. }
  cbn [trim_passes]. rewrite CachedBytes_by_use by done.
  assert (∀ d e f, bytes_in (by_use c) <= budget → (c, (ev, fr)) = (d, (e, f)) →
    ∃ n, trimmed budget c d n ∧ e = ev + Z.of_nat n ∧ f = fr + bytes_in (take n (by_use c)) ∧
      (bytes_in (drop n (by_use c)) <= budget ∨ n = (S passes * sweepBatch)%nat)) as Hstop.
  { intros d e f Hle [= <- <- <-]. exists 0%nat. split; [|split_and!; [lia|unfold bytes_in; simpl; lia|by left]].
    split; [lia|by rewrite drop_batch_nil|lia]. }
  destruct (Z.leb_spec (bytes_in (by_use c) - budget) 0); [apply Hstop; lia|].
  destruct (oldestCached _ c) as [ids bytes] eqn:Hold.
  destruct (oldestCached_trimmed budget c ids bytes Hc Hb ltac:(lia) Hold) as (n & Ht & Hpos & Hlen & -> & Hdone).
  destruct ids as [|id ids]; [simpl in Hlen; lia|]. rewrite Hlen. intros Hrest.
  assert (cache_ok (dropCached (id :: ids) c)) as Hc1 by (rewrite dropCached_eq; by apply drop_batch_ok).
  destruct (IH _ _ _ Hc1 Hb Hrest) as (m & Ht' & -> & -> & Hdone').
  rewrite (tm_contents _ _ _ _ Ht), by_use_dropped in Hdone' |- *.
  exists (n + m)%nat. split; [by eapply trimmed_then|]. split; [lia|]. rewrite drop_drop in Hdone'. split.
  - rewrite <-(take_take_drop _ n m), bytes_in_app. lia.
  - destruct Hdone as [Hle| ->].
    + left. destruct m as [|m]; [by rewrite Nat.add_0_r|]. exfalso.
      pose proof (tm_least _ _ _ _ Ht' 0%nat ltac:(lia)) as Hbad.
      rewrite (tm_contents _ _ _ _ Ht), by_use_dropped, drop_0 in Hbad. lia.
    + destruct Hdone' as [| ->]; [by left|right; lia].
Qed.

(** What any rows dropped leave, and what they took. *)
Lemma by_use_without ids c : by_use (drop_batch c ids) ≡ₚ filter (λ r, r.1 ∉ ids) (by_use c).
Proof.
  apply NoDup_Permutation; [eapply (NoDup_fmap_1 fst), NoDup_by_use|
    apply NoDup_filter; eapply (NoDup_fmap_1 fst), NoDup_by_use|].
  intros [id r]. rewrite list_elem_of_filter, !elem_of_by_use, drop_batch_artifacts. simpl. split.
  - intros [(s & Hs & Hr)%fmap_Some Hc]. case_bool_decide; subst r; [by destruct s|done].
  - intros [Hn [-> Hc]]. simpl. by rewrite bool_decide_eq_false_2.
Qed.

Lemma rows_dropped c rows :
  NoDup rows.*1 → (∀ r, r ∈ rows → r ∈ by_use c) →
  by_use c ≡ₚ by_use (drop_batch c rows.*1) ++ rows.
Proof.
  intros Hnd Hsub. rewrite by_use_without.
  rewrite <-(filter_app_complement (λ r : Z * artifact_row, r.1 ∉ rows.*1) (by_use c)) at 1.
  f_equiv. apply NoDup_Permutation;
    [apply NoDup_filter; eapply (NoDup_fmap_1 fst), NoDup_by_use|by eapply NoDup_fmap_1|].
  intros [id r]. rewrite list_elem_of_filter. simpl. split.
  - intros [Hin%dec_stable Hby]. apply list_elem_of_fmap in Hin as ([id' r'] & E & Hr'). simpl in E. subst id'.
    apply Hsub in Hr' as Hby'. apply elem_of_by_use in Hby as [Hr _], Hby' as [Hr'' _]. by simplify_eq.
  - intros Hr. split; [|by apply Hsub]. intros Hn. apply Hn. by apply (list_elem_of_fmap_2 fst) in Hr.
Qed.

Lemma expireManifestCache_spec now ttl c c' n b :
  cache_ok c → expireManifestCache now ttl c = (c', (n, b)) →
  ∃ ids, c' = drop_batch c ids ∧ NoDup ids ∧
    (∀ id, id ∈ ids ↔ 1 <= Z.quot ttl Second ∧ ∃ r, artifacts c !! id = Some r ∧ is_expired now (Z.quot ttl Second) id r = true) ∧
    n = Z.of_nat (length (by_use c)) - Z.of_nat (length (by_use c')) ∧ b = bytes_in (by_use c) - bytes_in (by_use c').
Proof.
  intros Hc. unfold expireManifestCache.
  assert (∀ P : Z → Prop, (∀ id, ¬ P id) → (c, (0, 0)) = (c', (n, b)) → ∃ ids, c' = drop_batch c ids ∧ NoDup ids ∧
    (∀ id, id ∈ ids ↔ P id) ∧ n = Z.of_nat (length (by_use c)) - Z.of_nat (length (by_use c')) ∧
    b = bytes_in (by_use c) - bytes_in (by_use c')) as Hnone.
  { intros P HP [= <- <- <-]. exists []. rewrite drop_batch_nil. split_and!; [done|constructor| |lia|lia].
    intros id. rewrite elem_of_nil. split; [done|apply HP]. }
  destruct (Z.leb_spec (Z.quot ttl Second) 0) as [Hle|Hgt].
  { apply Hnone. intros id [Hge _]. lia. }
  set (cutoff := Z.quot ttl Second) in *. set (rows := select_where (is_expired now cutoff) (artifacts c)).
  assert (∀ id r, (id, r) ∈ rows ↔ artifacts c !! id = Some r ∧ is_expired now cutoff id r = true) as Hrows
    by (intros; apply elem_of_select_where).
  destruct rows as [|x rows'] eqn:Er.
  { apply Hnone. intros id (_ & r & Hr & He). apply (not_elem_of_nil (id, r)). by apply Hrows. }
  rewrite <-Er in *. intros [= <- <- <-]. exists rows.*1.
  assert (NoDup rows.*1) as Hnd by apply NoDup_select_where.
  assert (c <| artifacts ::= update_where (is_expired now cutoff) (λ _, drop_body) |> = drop_batch c rows.*1) as Heq.
  { apply Contents_eq; [|done..]. apply map_eq. intros k. rewrite drop_batch_artifacts. simpl. rewrite lookup_update_where.
    destruct (artifacts c !! k) as [r|] eqn:Hk; [|done]. simpl. f_equal.
    destruct (is_expired now cutoff k r) eqn:He.
    - rewrite bool_decide_eq_true_2; [done|]. apply list_elem_of_fmap. exists (k, r). split; [done|by apply Hrows].
    - rewrite bool_decide_eq_false_2; [done|]. intros ([k' r'] & -> & [Hr' He']%Hrows)%list_elem_of_fmap.
      simpl in *. simplify_eq. congruence. }
  assert (by_use c ≡ₚ by_use (drop_batch c rows.*1) ++ rows) as Hp.
  { apply rows_dropped; [done|]. intros [id r] [Hr He]%Hrows. apply elem_of_by_use.
    split; [done|]. unfold is_expired in He. by apply andb_true_iff in He as [-> _]. }
  cbn in Heq. rewrite Heq. split_and!; [done|done| | |].
  - intros id. split.
    + intros ([k r] & -> & [Hr He]%Hrows)%list_elem_of_fmap. split; [lia|by exists r].
    + intros (_ & r & Hr & He). apply list_elem_of_fmap. exists (id, r). split; [done|by apply Hrows].
  - rewrite Hp, length_app. lia.
  - rewrite Hp, bytes_in_app. lia.
Qed.

(* -------------------------------------------------------------------- *)
(** ** What a sweep leaves *)

(** C27. A sweep brings the cache to its policy and no further.  It drops the
    bodies unused for longer than the TTL, and of the rest the least recently
    used ones, as many as the budget takes: with one fewer dropped the cache
    would still exceed it; it fits afterwards, unless the sweep has dropped its
    fill of 400,000 bodies.  Without a budget nothing more is dropped, and the
    report is the difference the sweep made. *)
Theorem a_sweep_fits_the_budget now policy c c' res :
  cache_ok c → SweepManifestCache now policy c = (c', res) →
  ∃ aged n, let c1 := drop_batch c aged in let rest := by_use c1 in
    (∀ id, id ∈ aged ↔ 1 <= Z.quot (mp_TTL policy) Second ∧ ∃ r, artifacts c !! id = Some r ∧
       is_expired now (Z.quot (mp_TTL policy) Second) id r = true) ∧
    c' = drop_batch c1 (take n rest).*1 ∧ (n ≤ length rest)%nat ∧
    (0 < mp_BudgetBytes policy →
       bytes_in (by_use c') <= mp_BudgetBytes policy ∨ Z.of_nat n = 400000) ∧
    (∀ m, (m < n)%nat → 0 < mp_BudgetBytes policy < bytes_in (drop m rest)) ∧
    Freed res = bytes_in (by_use c) - bytes_in (by_use c') ∧
    Manifests res = Z.of_nat (length (by_use c)) - Z.of_nat (length (by_use c')) ∧
    sw_RemainingBytes res = bytes_in (by_use c').
Proof.
  intros Hc. unfold SweepManifestCache.
  assert (∃ c1 n b, (if 0 <? mp_TTL policy then expireManifestCache now (mp_TTL policy) c else (c, (0, 0))) = (c1, (n, b)) ∧
    expireManifestCache now (mp_TTL policy) c = (c1, (n, b))) as (c1 & k & b & -> & Hexp).
  { destruct (expireManifestCache now (mp_TTL policy) c) as [c1 [k b]] eqn:E.
    destruct (Z.ltb_spec 0 (mp_TTL policy)); [by exists c1, k, b|]. exists c, 0, 0. split; [done|].
    rewrite <-E. unfold expireManifestCache. rewrite (proj2 (Z.leb_le _ 0)); [done|].
    rewrite <-(Z.quot_0_l Second) by done. apply Z.quot_le_mono; [done|lia]. }
  destruct (expireManifestCache_spec _ _ _ _ _ _ Hc Hexp) as (aged & -> & Hnd & Haged & -> & ->).
  pose proof (drop_batch_ok aged c Hc) as Hc1.
  destruct (Z.ltb_spec 0 (mp_BudgetBytes policy)) as [Hb|Hb].
  - destruct (trimManifestCache _ _) as [c2 [ev fr]] eqn:Htrim. unfold trimManifestCache in Htrim.
    destruct (trim_passes_spec _ _ _ _ _ _ _ _ Hc1 (Z.lt_le_incl _ _ Hb) Htrim) as (n & Ht & -> & -> & Hdone).
    destruct Ht as [Hn -> Hmin]. rewrite CachedBytes_by_use by by apply drop_batch_ok.
    intros [= <- <-]. exists aged, n. cbv zeta.
    unfold Freed, Manifests. cbn [sw_ExpiredManifests sw_ExpiredBytes sw_EvictedManifests sw_EvictedBytes sw_RemainingBytes].
    rewrite by_use_dropped, bytes_in_drop, length_drop. split_and!; [done|done|done| | |lia|lia|lia].
    + intros _. rewrite bytes_in_drop in Hdone. destruct Hdone as [| ->]; [by left|right; vm_compute; done].
    + intros m Hm. split; [done|by apply Hmin].
  - rewrite CachedBytes_by_use by done. intros [= <- <-].
    exists aged, 0%nat. cbv zeta. rewrite take_0, drop_batch_nil.
    unfold Freed, Manifests. cbn [sw_ExpiredManifests sw_ExpiredBytes sw_EvictedManifests sw_EvictedBytes sw_RemainingBytes].
    split_and!; [done|done|lia|lia|lia|lia|lia|done].
Qed.

(* -------------------------------------------------------------------- *)
(** ** Lemmas: what a sweep does not touch *)

Lemma sweep_drops now policy c c' res :
  cache_ok c → SweepManifestCache now policy c = (c', res) → ∃ ids, c' = drop_batch c ids.
Proof.
  intros Hc. unfold SweepManifestCache.
  destruct (if 0 <? mp_TTL policy then _ else _) as [c1 [k b]] eqn:E1.
  assert (∃ ids, c1 = drop_batch c ids) as [ids ->].
  { destruct (0 <? mp_TTL policy).
    - destruct (expireManifestCache_spec _ _ _ _ _ _ Hc E1) as (ids & -> & _). by exists ids.
    - injection E1 as <- _ _. exists []. by rewrite drop_batch_nil. }
  destruct (Z.ltb_spec 0 (mp_BudgetBytes policy)) as [Hb|_].
  - destruct (trimManifestCache _ _) as [c2 [ev fr]] eqn:Htrim. unfold trimManifestCache in Htrim.
    destruct (trim_passes_spec _ _ _ _ _ _ _ _ (drop_batch_ok ids c Hc) (Z.lt_le_incl _ _ Hb) Htrim) as (n & Ht & _).
    intros [= <- _]. rewrite (tm_contents _ _ _ _ Ht), drop_batch_app. eauto.
  - intros [= <- _]. by exists ids.
Qed.

Definition dropped_row (ids : list Z) (r : Z * artifact_row) : Z * artifact_row :=
  (r.1, if bool_decide (r.1 ∈ ids) then drop_body r.2 else r.2).

(** An artifact but for its body. *)
Definition bodiless (a : StoredArtifact) : StoredArtifact :=
  mkStoredArtifact ((sa_Row a) <| aw_Raw := "" |> <| aw_Cached := false |>) (sa_Parent a) (sa_Blobs a).

Lemma tree_rows_dropped packageID ids c :
  tree_rows packageID (drop_batch c ids) = dropped_row ids <$> tree_rows packageID c.
Proof.
  set (key := λ r : Z * artifact_row, [ar_depth r.2; r.1]).
  assert (∀ r, key (dropped_row ids r) = key r) as Hkey.
  { intros [id r]. unfold key, dropped_row. simpl. by case_bool_decide. }
  assert (∀ id r, (id, r) ∈ tree_rows packageID (drop_batch c ids) ↔ (id, r) ∈ dropped_row ids <$> tree_rows packageID c) as Helem.
  { intros id r. rewrite tree_rows_elem, drop_batch_artifacts, list_elem_of_fmap. split.
    - intros [(s & Hs & Hr)%fmap_Some Hp]. exists (id, s). unfold dropped_row. simpl. rewrite <-Hr. split; [done|].
      apply tree_rows_elem. split; [done|]. subst r. by case_bool_decide.
    - intros ([id' s] & [= -> ->] & [Hs Hp]%tree_rows_elem). rewrite Hs. simpl. split; [done|]. by case_bool_decide. }
  assert (NoDup (dropped_row ids <$> tree_rows packageID c)) as Hnd.
  { apply (NoDup_fmap_1 fst). rewrite <-list_fmap_compose. apply NoDup_tree_rows. }
  apply (StronglySorted_unique_strong (key_le key)).
  - intros [i r] [j s] Hi%Helem Hj L1 L2. pose proof (lex_le_antisymm _ _ L1 L2) as E. injection E as _ <-.
    apply list_elem_of_fmap in Hi as ([i' r'] & [= -> ->] & [Hi _]%tree_rows_elem).
    apply list_elem_of_fmap in Hj as ([j' s'] & [= -> ->] & [Hj _]%tree_rows_elem). by simplify_eq.
  - apply order_by_sorted.
  - eapply StronglySorted_fmap; [|apply (order_by_sorted key)]. intros x y. unfold key_le. by rewrite !Hkey.
  - apply NoDup_Permutation; [by apply (NoDup_fmap_1 fst), NoDup_tree_rows|exact Hnd|].
    intros [id r]. apply Helem.
Qed.

Lemma read_dropped c ids rows :
  let st := foldl (read_artifact c) (∅, []) rows in
  let st' := foldl (read_artifact (drop_batch c ids)) (∅, []) (dropped_row ids <$> rows) in
  st'.1 = st.1 ∧ bodiless <$> st'.2 = bodiless <$> st.2.
Proof.
  induction rows as [|[id r] rows IH] using rev_ind; [done|]. cbv zeta in *.
  rewrite fmap_app, !foldl_app. cbn [fmap list_fmap foldl].
  destruct (foldl (read_artifact c) (∅, []) rows) as [index l].
  destruct (foldl (read_artifact (drop_batch c ids)) (∅, []) (dropped_row ids <$> rows)) as [index' l'].
  simpl in IH. destruct IH as [-> Hl].
  assert (length l' = length l) as Hlen.
  { apply (f_equal length) in Hl. by rewrite !length_fmap in Hl. }
  simpl. rewrite Hlen. split; [done|]. rewrite !fmap_app, Hl. f_equal. simpl. unfold bodiless. simpl.
  case_bool_decide; done.
Qed.

Lemma measure_bodiless l : measureExpanded (bodiless <$> l) = measureExpanded l.
Proof.
  assert (forallb (λ a, aw_Fetched (sa_Row a)) (bodiless <$> l) = forallb (λ a, aw_Fetched (sa_Row a)) l) as Hf.
  { induction l as [|a l IH]; [done|]. rewrite fmap_cons. cbn [forallb]. by rewrite IH. }
  assert (∀ st, foldl measure_stored st (bodiless <$> l) = foldl measure_stored st l) as Hm.
  { clear. induction l as [|a l IH]; intros st; [done|]. rewrite fmap_cons. cbn [foldl]. by rewrite IH. }
  assert ((bodiless <$> l) ≫= (λ a, sb_Digest <$> sa_Blobs a) = l ≫= (λ a, sb_Digest <$> sa_Blobs a)) as Hb.
  { clear. induction l as [|a l IH]; [done|]. rewrite fmap_cons, !bind_cons. by rewrite IH. }
  unfold measureExpanded. by rewrite Hf, Hm, Hb.
Qed.

(** The tree of a package without these bodies, and what is made of it. *)
Lemma swept_tree packageID ids c :
  let '(t, complete) := ReadExpandedTree packageID c in
  let '(t', complete') := ReadExpandedTree packageID (drop_batch c ids) in
  complete' = complete ∧ bodiless <$> st_Artifacts t' = bodiless <$> st_Artifacts t ∧
  st_TotalBytes t' = st_TotalBytes t ∧ st_BlobCount t' = st_BlobCount t.
Proof.
  unfold ReadExpandedTree. rewrite tree_rows_dropped.
  destruct (read_dropped c ids (tree_rows packageID c)) as [_ Hl]. revert Hl.
  destruct (foldl (read_artifact c) (∅, []) _) as [index l].
  destruct (foldl (read_artifact (drop_batch c ids)) (∅, []) _) as [index' l']. simpl. intros Hl.
  pose proof (measure_bodiless l) as Hm. rewrite <-Hl, measure_bodiless in Hm.
  destruct l as [|a l], l' as [|a' l']; try done. rewrite <-Hm. split_and!; [|exact Hl|done|done].
  generalize (tree_rows packageID c). intros rows. clear.
  induction rows as [|[id r] rows IH]; [done|]. rewrite fmap_cons. cbn [forallb]. rewrite IH. f_equal.
  simpl. by destruct (bool_decide (id ∈ ids)).
Qed.

Lemma rootedAt_bodiless t t' root :
  bodiless <$> st_Artifacts t' = bodiless <$> st_Artifacts t → rootedAt t' root = rootedAt t root.
Proof.
  unfold rootedAt. generalize (st_Artifacts t), (st_Artifacts t'). intros l l'. revert l.
  induction l' as [|a' l' IH]; intros [|a l]; try done. rewrite !fmap_cons. intros [= Ha Hl].
  rewrite !filter_cons. assert (aw_Depth (sa_Row a') = aw_Depth (sa_Row a) ∧ sa_Digest a' = sa_Digest a) as [E Ed].
  { unfold bodiless, sa_Digest in *. by destruct a as [[] ? ?], a' as [[] ? ?]; simplify_eq/=. }
  do 2 case_decide; try congruence; [simpl; by rewrite Ed|by apply IH].
Qed.

Lemma as_planned_bodiless (l l' : list StoredArtifact) : bodiless <$> l' = bodiless <$> l → as_planned <$> l' = as_planned <$> l.
Proof.
  revert l. induction l' as [|a' l' IH]; intros [|a l]; try done. rewrite !fmap_cons. intros [= Ha Hl].
  f_equal; [|by apply IH]. unfold bodiless, as_planned, sa_Digest in *.
  by destruct a as [[] ? ?], a' as [[] ? ?]; simplify_eq/=.
Qed.

(** A sweep loses bodies and nothing else: of every package the same tree is
    read, complete as before, with the same sizes and the same plan, only without
    the dropped bytes; so a release that was answered from the record still is,
    with no registry asked. *)
Theorem a_swept_release_is_still_known `{ArtifactIds} unmarshal now policy c c' res packageID :
  cache_ok c → SweepManifestCache now policy c = (c', res) →
  (let '(t, complete) := ReadExpandedTree packageID c in
   let '(t', complete') := ReadExpandedTree packageID c' in
   complete' = complete ∧ bodiless <$> st_Artifacts t' = bodiless <$> st_Artifacts t ∧
   st_TotalBytes t' = st_TotalBytes t ∧ st_BlobCount t' = st_BlobCount t ∧
   as_planned <$> st_Artifacts t' = as_planned <$> st_Artifacts t) ∧
  ∀ root src e d, Ensure unmarshal now packageID root src c = (d, inr e) → ex_FromRecord e = true →
    ∃ e', (∀ later src', Ensure unmarshal later packageID root src' c' = (c', inr e')) ∧ ex_FromRecord e' = true ∧
      as_planned <$> st_Artifacts (ex_Tree e') = as_planned <$> st_Artifacts (ex_Tree e).
Proof.
  intros Hc Hs. destruct (sweep_drops _ _ _ _ _ Hc Hs) as [ids ->].
  pose proof (swept_tree packageID ids c) as Ht. unfold Ensure.
  destruct (ReadExpandedTree packageID c) as [t complete].
  destruct (ReadExpandedTree packageID (drop_batch c ids)) as [t' complete'].
  destruct Ht as (-> & Ha & Htotal & Hblobs). split; [split_and!; [done..|by apply as_planned_bodiless]|].
  intros root src e d. rewrite (rootedAt_bodiless t t' root Ha).
  destruct (complete && rootedAt t root).
  - intros [= _ <-] _. eexists. split; [done|]. split; [done|]. by apply as_planned_bodiless.
  - destruct src as [repo|]; [|done]. destruct (Tree.Walk _ _ _) as [[|[tr n]]|]; [done| |done].
    destruct (RecordExpandedTree _ _ _ _); [|done]. by intros [= _ <-].
Qed.

(* -------------------------------------------------------------------- *)
(** ** Every row's account *)

Lemma no_contents_ok : cache_ok no_contents.
Proof. intros id r Hr. cbn in Hr. by rewrite lookup_empty in Hr. Qed.

Lemma LinkBlobs_ok id bs c : cache_ok c → cache_ok (LinkBlobs id bs c).
Proof. intros Hc i r. destruct (LinkBlobs_tables id bs c) as (-> & _). apply Hc. Qed.

Lemma write_artifacts_ok (write : ArtifactRow → Contents → result (Contents * Z)) packageID t c c' ids :
  (∀ a c d id, cache_ok c → write a c = Ok (d, id) → cache_ok d) →
  cache_ok c → fold_result (write_artifact write packageID) t (c, []) = Ok (c', ids) → cache_ok c'.
Proof.
  intros Hw Hc.
  apply (fold_result_ind (λ _ st, cache_ok st.1)); [done|].
  intros pre a post [d i] [d' i'] _ Hd. simpl in *.
  intros ([e x] & He & Hrest)%result_bind_Ok. injection Hrest as <- _.
  apply LinkBlobs_ok. by eapply Hw.
Qed.

Lemma InsertArtifact_ok `{ArtifactIds} now a c d id : cache_ok c → InsertArtifact now a c = Ok (d, id) → cache_ok d.
Proof.
  intros Hc. unfold InsertArtifact. destruct (artifact_rows _ _ _) as [|[i r] l]; [|by intros [= <- _]].
  destruct (parent_exists a c); [|done]. intros [= <- _]. apply cache_ok_insert; [done|apply new_artifact_ok].
Qed.

Lemma upsertArtifact_ok `{ArtifactIds} now a c d id : cache_ok c → upsertArtifact now a c = Ok (d, id) → cache_ok d.
Proof.
  intros Hc. unfold upsertArtifact. destruct (parent_exists a c); [|done].
  destruct (artifact_rows _ _ _) as [|[i r] l] eqn:E; intros [= <- _]; apply cache_ok_insert; try done.
  - apply new_artifact_ok.
  - apply artifact_rows_cons in E as (Hr & _). apply fill_artifact_ok. by eapply Hc.
Qed.

(** What changes the tables: listings, trees recorded, bodies used, sweeps. *)
Inductive contents_step `{ArtifactIds} : relation Contents :=
  | step_listed now packageID t c c' : writeTree now packageID t c = Ok c' → contents_step c c'
  | step_recorded now packageID t c c' : RecordExpandedTree now packageID t c = Ok c' → contents_step c c'
  | step_used now packageID c : contents_step c (TouchManifestCache now packageID c)
  | step_swept now policy c : contents_step c (SweepManifestCache now policy c).1.

Lemma contents_step_ok `{ArtifactIds} c c' : cache_ok c → contents_step c c' → cache_ok c'.
Proof.
  intros Hc Hs. revert Hc. destruct Hs as [now p t d d' E|now p t d d' E|now p d|now policy d]; intros Hc.
  - unfold writeTree in E. apply result_fmap_Ok in E as ([e ids] & E & ->).
    eapply write_artifacts_ok; [|exact Hc|exact E]. intros. by eapply InsertArtifact_ok.
  - unfold RecordExpandedTree in E. apply result_bind_Ok in E as ([e ids] & E & Hrest). injection Hrest as <-.
    change (cache_ok e).
    eapply write_artifacts_ok; [|exact Hc|exact E]. intros. by eapply upsertArtifact_ok.
  - apply cache_ok_update; [done|]. intros id r _ [Hb Hf Hn]. by split.
  - destruct (SweepManifestCache now policy d) as [e res] eqn:E.
    destruct (sweep_drops _ _ _ _ _ Hc E) as [ids ->]. by apply drop_batch_ok.
Qed.

(** The bytes of the bodies held. *)
Definition held_bytes (c : Contents) : Z :=
  sum ((λ r : Z * artifact_row, Z.of_nat (String.length (default "" (ar_raw r.2)))) <$> map_to_list (artifacts c)).

(** The cache's books are right at every moment: whatever is listed,
    expanded, used and swept, in any order, from an empty database, each row's
    three columns agree, the bytes the sweeper counts are the bytes of the bodies
    held, and a row with a body has been fetched. *)
Theorem the_books_are_right `{ArtifactIds} c :
  rtc contents_step no_contents c →
  cache_ok c ∧ ms_CachedBytes (CacheStats c) = held_bytes c.
Proof.
  intros Hr. assert (cache_ok c) as Hc.
  { revert Hr. apply (rtc_ind_r (λ c, cache_ok c) no_contents).
    - apply no_contents_ok.
    - intros d e _ Hs Hd. by eapply contents_step_ok. }
  split; [done|]. unfold CacheStats, held_bytes, bytes_in. cbn [ms_CachedBytes]. f_equal.
  apply list_fmap_ext. intros i [id r] Hi. apply list_elem_of_lookup_2, elem_of_map_to_list in Hi. simpl.
  destruct (Hc id r Hi) as [Hb _ Hn]. destruct (ar_raw r) as [raw|]; [by apply Hb|by apply Hn].
Qed.

(* -------------------------------------------------------------------- *)
(** ** Examples *)

(** The release of Contents, expanded at 100: two bodies, of four bytes and of
    five. *)
Definition expanded : Contents := ok_or no_contents (RecordExpandedTree 100 7 (ToStoreTree wrap_tree) no_contents).

Lemma expanded_recorded : RecordExpandedTree 100 7 (ToStoreTree wrap_tree) no_contents = Ok expanded.
Proof. apply ok_or_eq. vm_compute. reflexivity. Qed.

Lemma expanded_step : contents_step no_contents expanded.
Proof. exact (step_recorded _ _ _ _ _ expanded_recorded). Qed.

Lemma expanded_reachable : rtc contents_step no_contents expanded.
Proof. exact (rtc_once _ _ expanded_step). Qed.

Lemma expanded_ok : cache_ok expanded.
Proof. apply (contents_step_ok no_contents expanded); [apply no_contents_ok|apply expanded_step]. Qed.

Lemma answered_from_record unmarshal now packageID root src c :
  (ReadExpandedTree packageID c).2 && rootedAt (ReadExpandedTree packageID c).1 root = true →
  Ensure unmarshal now packageID root src c = (c, inr (mkExpansion (ReadExpandedTree packageID c).1 0 true)).
Proof. unfold Ensure. destruct (ReadExpandedTree packageID c) as [t complete]. simpl. by intros ->. Qed.

Definition tight : ManifestCachePolicy := mkPolicy 5 0.

(** The older body is the index's: it goes first, and that is enough. *)
Example the_oldest_goes_first :
  let '(c, res) := SweepManifestCache 200 tight expanded in
  ((λ r, ar_digest r.2) <$> by_use expanded, (λ r, ar_digest r.2) <$> by_use c, res) =
  ([address "5"; address "1"], [address "1"], mkSweep 0 0 1 4 5).
Proof. vm_compute. reflexivity. Qed.

(** A TTL below a second expires nothing. *)
Example a_short_ttl_expires_nothing :
  (SweepManifestCache (100 * Second) (mkPolicy 0 (Second - 1)) expanded).2 = mkSweep 0 0 0 0 9 ∧
  (SweepManifestCache (100 * Second) (mkPolicy 0 Second) expanded).2 = mkSweep 2 9 0 0 0.
Proof. split; vm_compute; reflexivity. Qed.

(** A budget below the smallest body empties the cache. *)
Example a_budget_below_a_body_empties_the_cache :
  (SweepManifestCache 200 (mkPolicy 1 0) expanded).2 = mkSweep 0 0 2 9 0.
Proof. vm_compute. reflexivity. Qed.

Lemma a_sweep_fits_the_budget_witness :
  Freed (SweepManifestCache 200 tight expanded).2 = 4 ∧
  bytes_in (by_use (SweepManifestCache 200 tight expanded).1) <= 5.
Proof.
  destruct (a_sweep_fits_the_budget 200 tight expanded _ _ expanded_ok (surjective_pairing _))
    as (aged & n & _ & _ & _ & _ & _ & _ & _ & Hr).
  split; [vm_compute; reflexivity|]. rewrite <-Hr. vm_compute. discriminate.
Defined.

Lemma a_swept_release_is_still_known_witness :
  ∃ e', Ensure wrap_unmarshal 300 7 wrap_root None (SweepManifestCache 200 tight expanded).1 =
    ((SweepManifestCache 200 tight expanded).1, inr e') ∧ ex_FromRecord e' = true.
Proof.
  destruct (a_swept_release_is_still_known wrap_unmarshal 200 tight expanded _ _ 7 expanded_ok (surjective_pairing _))
    as [_ Hens].
  destruct (Hens wrap_root None (mkExpansion (ReadExpandedTree 7 expanded).1 0 true) expanded) as (e' & He & Hr & _);
    [apply answered_from_record; vm_compute; reflexivity|reflexivity|].
  exists e'. split; [apply He|exact Hr].
Defined.

Lemma the_books_are_right_witness : ms_CachedBytes (CacheStats expanded) = held_bytes expanded.
Proof. exact (proj2 (the_books_are_right expanded expanded_reachable)). Defined.
