(* ===== verification/Expander.v ===== *)
(** * From a request to its work

    internal/transfer/expander.go, delegate.go and promotion.go: a tick takes the
    front of the backlog and gives each transfer its way - copied by the workers,
    fetched by the destination itself, or promoted by the registry the two ends
    share.  The resolver, the delegation and the promotion seam are the interfaces
    the file declares; the packages table and mirror_syncs are kept beside the
    queue's database, with the rows of the trees. *)

From S2P Require Import Prelude GoStrings StateMachine Backoff Schema Dependencies Leasing Completion Promotions Recovery Control.
From S2P Require Import Layout Planning Planner Fleet Backlog Retention Requests QueueSystem Registry Tree Contents ManifestCache.
Open Scope Z_scope.

(* -------------------------------------------------------------------- *)
(** ** The seams *)

Definition StrategyCopy : string := "copy".
Definition StrategyMirror : string := "mirror".
Definition StrategyProxy : string := "proxy".

Record SyncRequest := mkSyncRequest {
  sy_TransferID : string;
  sy_ProductID : Z;
  sy_ProductName : string;
  sy_TargetName : string;
  sy_ExpectedDigest : string;
  sy_Tag : string }.

Record SyncHandle := mkSyncHandle { sh_SyncID : Z; sh_AlreadyRunning : bool }.

(** mirror_syncs, by the transfer each record is of. *)
Definition Syncs : Type := gmap Z (option string).

(** Asking for a sync records it; what else it does is the registry's. *)
Record Delegation := mkDelegation {
  Strategy : string → string → Fault + string;
  RequestSync : SyncRequest → Syncs → Syncs * (Fault + SyncHandle) }.

Record Hop := mkHop {
  hp_TransferID : string;
  hp_ProductName : string;
  hp_Origin : string;
  hp_Destination : string;
  hp_Package : string;
  hp_ManifestDigest : string;
  hp_Names : list PromotionName }.

Record PromotionClaim := mkPromotionClaim { cl_Promoter : string; cl_Claimed : bool; cl_Reason : string }.

Record Promotion := mkPromotionSeam { Claim : Hop → Fault + PromotionClaim }.

(** Related artifacts are (role, tag) pairs; what was found is used even when the
    listing ends in an error. *)
Record Resolver := mkResolver {
  Reader : Z → string → Fault + Registry.Repository;
  Related : string → PackageRow → list (string * string) * option Fault }.

(* -------------------------------------------------------------------- *)
(** ** The world of a plan *)

Record World := mkWorld {
  w_db : DB;
  w_contents : Contents;
  w_packages : gmap Z PackageRow;
  w_syncs : Syncs }.

#[export] Instance World_eta : Eta World := λ w, mkWorld (w_db w) (w_contents w) (w_packages w) (w_syncs w).

(** What planning a transfer fails with. *)
Inductive PlanFailure :=
  | PackageNotFound (id : Z)
  | OriginNotInCatalog (id : Z)
  | DestinationNotInCatalog (id : Z)
  | StrategyUnknown (e : Fault)
  | NoReplicationService (target strategy : string)
  | DestinationIsProxy (target : string)
  | SyncRefused (e : Fault)
  | NoPromotionStore (promoter : string)
  | OriginNotRegistered (path : string) (e : Error)
  | NoReader (e : Fault)
  | NoRoot (e : Fault)
  | NotExpanded (e : ExpandError)
  | NotStored (e : Error).

(** A step of a plan: what it committed stays, whether it failed or not. *)
Definition PlanStep (A : Type) : Type := World → World * (PlanFailure + A).

#[export] Instance PlanStep_ret : MRet PlanStep := λ A a w, (w, inr a).

#[export] Instance PlanStep_bind : MBind PlanStep := λ A B k m w,
  match m w with
  | (w, inr a) => k a w
  | (w, inl e) => (w, inl e)
  end.

Definition refuse {A} (e : PlanFailure) : PlanStep A := λ w, (w, inl e).

Definition reads {A} (f : World → A) : PlanStep A := λ w, (w, inr (f w)).

Definition answered {E A} (wrap : E → PlanFailure) (a : E + A) : PlanStep A :=
  match a with inl e => refuse (wrap e) | inr a => mret a end.

Definition present {A} (e : PlanFailure) (o : option A) : PlanStep A :=
  match o with None => refuse e | Some a => mret a end.

(** A transaction on the queue's database. *)
Definition transaction {A} (wrap : Error → PlanFailure) (f : DB → result (DB * A)) : PlanStep A := λ w,
  match f (w_db w) with
  | Ok (db, a) => (w <| w_db := db |>, inr a)
  | Err e => (w, inl (wrap e))
  end.

(* -------------------------------------------------------------------- *)
(** ** Names and paths *)

(** joinPath: one repository path under another, joined as they are. *)
Definition joinPath (base rest : string) : string :=
  let base := Trim slash (TrimSpace base) in
  let rest := Trim slash (TrimSpace rest) in
  if String.eqb base "" then rest
  else if String.eqb rest "" then base
  else words [base; "/"; rest].

Definition relativePath (pkg : PackageRow) (origin : Endpoint) (db : DB) : string :=
  match HydrateEndpoints [pk_SourceRepoID pkg] db !! pk_SourceRepoID pkg with
  | Some src => if String.eqb (ERepository src) "" then ERepository origin else ERepository src
  | None => ERepository origin
  end.

Definition name_key (n : PromotionName) : string := words [Promotions.Repository n; ":"; Tag n].

(** The first name of each key. *)
Fixpoint first_names (seen : list string) (l : list PromotionName) : list PromotionName :=
  match l with
  | [] => []
  | n :: l => if bool_decide (name_key n ∈ seen) then first_names seen l else n :: first_names (name_key n :: seen) l
  end.

(** The tagged sites of one artifact, in order. *)
Definition names_at (layout : gmap string Placement) (a : ExpandedArtifact) : list PromotionName :=
  match layout !! a_Digest a with
  | None => []
  | Some p => Sites p ≫= λ s, (λ tag, mkName (s_Repository s) tag (a_Digest a)) <$> s_Tags s
  end.

Definition PromotionNamesFor (tree : ExpandedTree) (sourceRepository : string) (rootTags : list string)
    : list PromotionName :=
  first_names [] (tree ≫= names_at (ResolveLayout tree (mkLayoutOptions "" sourceRepository rootTags))).

(* -------------------------------------------------------------------- *)
(** ** The three ways *)

Record ExpandResult := mkExpandResult { xr_Requests : Z; xr_Transfers : Z; xr_Jobs : Z; xr_Failed : Z }.

#[export] Instance ExpandResult_eta : Eta ExpandResult := λ r,
  mkExpandResult (xr_Requests r) (xr_Transfers r) (xr_Jobs r) (xr_Failed r).

Definition DefaultExpandBatch : Z := 25.

(** The expander, with what it was built from: its interfaces, its batch, and the
    arguments of the parts it calls - the manifest decoder, the order a layout is
    ranged over in, the identity of a new promotion, and what an error says. *)
Record Expander := mkExpander {
  xp_resolve : Resolver;
  xp_delegation : option Delegation;
  xp_promotion : option Promotion;
  xp_promotions : bool;
  xp_batch : Z;
  xp_unmarshal : string → string + manifestBody;
  xp_order : gmap string Placement → list Placement;
  xp_promotion_id : gmap Z promotion → Z;
  xp_says : PlanFailure → string }.

Section expander.
Context `{RowIds} `{ArtifactIds} (e : Expander) (now : Z).

Definition strategyFor (productName targetName : string) : PlanStep string :=
  match xp_delegation e with
  | None => mret StrategyCopy
  | Some d => answered StrategyUnknown (Strategy d productName targetName)
  end.

Definition LinkSync (id : Z) (t : string) (s : Syncs) : Syncs := update_where (λ i _, bool_decide (i = id)) (λ _ _, Some t) s.

Definition ask_sync (d : Delegation) (t : PendingTransfer) (targetName : string) (pkg : PackageRow) : PlanStep SyncHandle := λ w,
  let '(syncs, answer) := RequestSync d (mkSyncRequest (pg_ID t) (pg_ProductID t) (pg_ProductName t) targetName
                            (pk_ManifestDigest pkg) (pk_Tag pkg)) (w_syncs w) in
  answered SyncRefused answer (w <| w_syncs := syncs |>).

(** A record that cannot be linked is only logged. *)
Definition mark_syncing (t strategy : string) (handle : SyncHandle) : PlanStep () := λ w,
  (w <| w_db ::= MarkSyncing now t strategy |>
     <| w_syncs ::= λ s, if sh_SyncID handle =? 0 then s else LinkSync (sh_SyncID handle) t s |>, inr ()).

Definition delegate (t : PendingTransfer) (strategy targetName : string) (pkg : PackageRow) : PlanStep () :=
  d ← present (NoReplicationService targetName strategy) (xp_delegation e);
  if String.eqb strategy StrategyProxy then refuse (DestinationIsProxy targetName)
  else handle ← ask_sync d t targetName pkg; mark_syncing (pg_ID t) strategy handle.

(** A request as the root's tags are read from it. *)
Definition root_tags (pkg : PackageRow) (related : list (string * string)) : list string :=
  rootTags (Planner.mkRequest "" (pk_Tag pkg) 0 0 0 "" "" "" "" "" 0 related).

Definition promotionHop (t : PendingTransfer) (pkg : PackageRow) (origin destination : Endpoint) (relative : string)
    (c : Contents) : option Hop :=
  let '(tree, complete) := ReadExpandedTree (pk_ID pkg) c in
  if negb complete || bool_decide (st_Artifacts tree = []) then None
  else
    let names := PromotionNamesFor (as_planned <$> st_Artifacts tree) relative
                   (root_tags pkg (Related (xp_resolve e) (pg_ProductName t) pkg).1) in
    if bool_decide (names = []) then None
    else Some (mkHop (pg_ID t) (pg_ProductName t) (EName origin) (EName destination) (pk_Tag pkg)
                 (pk_ManifestDigest pkg) names).

(** A seam that cannot be asked has not claimed. *)
Definition claimPromotion (hop : Hop) : PromotionClaim :=
  match xp_promotion e with
  | None => mkPromotionClaim "" false ""
  | Some p => match Claim p hop with
              | inl err => mkPromotionClaim "" false (words ["could not be determined: "; ft_Message err])
              | inr claim => claim
              end
  end.

Definition relocate (t : PendingTransfer) (claim : PromotionClaim) (hop : Hop) : PlanStep () :=
  if negb (xp_promotions e) then refuse (NoPromotionStore (cl_Promoter claim))
  else transaction NotStored (λ db,
    (λ db, (db, ())) <$> Open now (xp_promotion_id e (promotions db)) (pg_ID t) (cl_Promoter claim) (hp_Names hop) db).

Definition ensureOrigin (t : PendingTransfer) (origin : Endpoint) (readPath : string) : PlanStep Z :=
  if String.eqb readPath (ERepository origin) then mret (pg_SourceRepoID t)
  else transaction (OriginNotRegistered readPath)
    (EnsureRepository (pg_ProductID t) (ERole origin) (words [EName origin; "/"; readPath]) (ERegistry origin) readPath
       (ERegistryType origin)).

(** treeFor of the planner, and the plan of its tree. *)
Definition treeFor (pkg : PackageRow) (root : Descriptor) (src : Registry.Repository) : PlanStep StoredTree := λ w,
  match Ensure (xp_unmarshal e) now (pk_ID pkg) root (Some src) (w_contents w) with
  | (c, inl err) => (w <| w_contents := c |>, inl (NotExpanded err))
  | (c, inr x) => (w <| w_contents := TouchManifestCache now (pk_ID pkg) c |>, inr (ex_Tree x))
  end.

Definition plan_copy (req : Planner.Request) (pkg : PackageRow) (src : Registry.Repository) : PlanStep PlanReport :=
  if bool_decide (q_TransferID req = "") then refuse (NotStored (ETransferNotFound ""))
  else
    root ← answered NoRoot (Root pkg);
    tree ← treeFor pkg root src;
    let tree := as_planned <$> st_Artifacts tree in
    transaction NotStored (Planner.Plan now req tree (xp_order e (ResolveLayout tree (plan_options req)))).

Definition copy (t : PendingTransfer) (pkg : PackageRow) (origin destination : Endpoint) (relative readPath : string)
    : PlanStep Z :=
  originRepoID ← ensureOrigin t origin readPath;
  reader ← answered NoReader (Reader (xp_resolve e) (pg_SourceRepoID t) readPath);
  plan ← plan_copy
    (Planner.mkRequest (pg_ID t) (pk_Tag pkg) originRepoID (pg_TargetRepoID t) (pg_ProductID t) (EName destination)
       (ERegistry destination) (ERegistryType destination) (ERepository destination) relative (pg_Priority t)
       (Related (xp_resolve e) (pg_ProductName t) pkg).1) pkg reader;
  mret (pl_Jobs plan).

(** The claim of a promotion, when there is one. *)
Definition claimed_hop (t : PendingTransfer) (pkg : PackageRow) (origin destination : Endpoint) (relative : string)
    (c : Contents) : option (PromotionClaim * Hop) :=
  if String.eqb (pg_Operation t) "promote" && bool_decide (is_Some (xp_promotion e)) then
    match promotionHop t pkg origin destination relative c with
    | None => None
    | Some hop => let claim := claimPromotion hop in if cl_Claimed claim then Some (claim, hop) else None
    end
  else None.

(** The branches: fetched by the destination, promoted by the registry, copied. *)
Definition plan_by (strategy : string) (t : PendingTransfer) (pkg : PackageRow) (origin destination : Endpoint)
    (relative readPath : string) : PlanStep Z :=
  if negb (String.eqb strategy StrategyCopy) then _ ← delegate t strategy (EName destination) pkg; mret 0
  else
    claimed ← reads (λ w, claimed_hop t pkg origin destination relative (w_contents w));
    match claimed with
    | Some (claim, hop) => _ ← relocate t claim hop; mret 0
    | None => copy t pkg origin destination relative readPath
    end.

Definition plan (t : PendingTransfer) : PlanStep Z :=
  pkg ← (reads (λ w, w_packages w !! pg_PackageID t) ≫= present (PackageNotFound (pg_PackageID t)));
  endpoints ← reads (λ w, HydrateEndpoints [pg_SourceRepoID t; pg_TargetRepoID t] (w_db w));
  origin ← present (OriginNotInCatalog (pg_SourceRepoID t)) (endpoints !! pg_SourceRepoID t);
  destination ← present (DestinationNotInCatalog (pg_TargetRepoID t)) (endpoints !! pg_TargetRepoID t);
  relative ← reads (λ w, relativePath pkg origin (w_db w));
  let readPath := if String.eqb (pg_Operation t) "promote" then joinPath (ERepository origin) relative else relative in
  strategy ← strategyFor (pg_ProductName t) (EName destination);
  plan_by strategy t pkg origin destination relative readPath.

(* -------------------------------------------------------------------- *)
(** ** A tick *)

Definition expand_one (st : World * ExpandResult) (t : PendingTransfer) : World * ExpandResult :=
  let '(w, res) := st in
  let res := res <| xr_Transfers ::= Z.add 1 |> in
  match plan t w with
  | (w, inl err) => (w <| w_db ::= FailTransfer now (pg_ID t) (xp_says e err) |>, res <| xr_Failed ::= Z.add 1 |>)
  | (w, inr jobs) => (w, res <| xr_Jobs ::= Z.add jobs |>)
  end.

(** The requests of a batch, each once; they are rows apart, so their order is
    nothing. *)
Definition requests_of (pending : list PendingTransfer) : list string :=
  elements (list_to_set (pg_RequestID <$> pending) : gset string).

Definition settle_one (st : World * ExpandResult) (id : string) : World * ExpandResult :=
  let '(w, res) := st in (w <| w_db ::= SettleRequest now id |>, res <| xr_Requests ::= Z.add 1 |>).

(** What a tick does with the batch it has listed. *)
Definition expand_batch (pending : list PendingTransfer) (w : World) : World * ExpandResult :=
  foldl settle_one (foldl expand_one (w, mkExpandResult 0 0 0 0) pending) (requests_of pending).

Definition Expand (w : World) : World * ExpandResult :=
  expand_batch (PendingTransfers (xp_batch e) (w_db w)) w.
End expander.

Definition NewExpander (e : Expander) : Expander :=
  if xp_batch e <=? 0
  then mkExpander (xp_resolve e) (xp_delegation e) (xp_promotion e) (xp_promotions e) DefaultExpandBatch (xp_unmarshal e)
         (xp_order e) (xp_promotion_id e) (xp_says e)
  else e.

(* -------------------------------------------------------------------- *)
(** ** Lemmas: what a plan writes *)

(** Between two databases only transfer [t]'s row, its jobs and catalog rows may
    have changed, or appeared. *)
Record only (t : string) (db db' : DB) : Prop := {
  on_requests : requests db' = requests db;
  on_products : products db' = products db;
  on_repositories : repositories db ⊆ repositories db';
  on_others i : i ≠ t → transfers db' !! i = transfers db !! i;
  on_row : is_Some (transfers db' !! t) ↔ is_Some (transfers db !! t);
  on_jobs i j : j_transfer j ≠ t → jobs db' !! i = Some j ↔ jobs db !! i = Some j }.

#[export] Instance only_preorder t : PreOrder (only t).
Proof.
  split; [by split|]. intros d1 d2 d3 [A1 A2 A0 A3 A4 A5] [B1 B2 B0 B3 B4 B5]. split; [congruence|congruence|by etrans|..].
  - intros i Hi. by rewrite B3, A3.
  - by rewrite B4.
  - intros i j Hj. by rewrite B5, A5.
Qed.

Lemma only_frame t db db' : jobs db' = jobs db → transfers db' = transfers db → requests db' = requests db →
  products db' = products db → repositories db ⊆ repositories db' → only t db db'.
Proof. intros Ej Et Er Ep Hr. split; [done|done|done|..]; rewrite ?Et, ?Ej; done. Qed.

Lemma only_update_transfers t (p : string → transfer → bool) f db :
  (∀ i r, p i r = true → i = t) → only t db (update_transfers p f db).
Proof.
  intros Hp. split; [done|done|done| | |done].
  - intros i Hi. unfold update_transfers. simpl. rewrite lookup_update_where. destruct (transfers db !! i) as [r|]; [|done]. simpl.
    destruct (p i r) eqn:E; [by apply Hp in E|done].
  - unfold update_transfers. simpl. by rewrite update_where_is_Some.
Qed.

Lemma only_EnsureRepository `{RowIds} t product role name host path ty db db' id :
  EnsureRepository product role name host path ty db = Ok (db', id) → only t db db'.
Proof. intros [_ [->|(_ & -> & Hs & _)]]%EnsureRepository_Ok; [done|by apply only_frame]. Qed.

(** Rows added, all of one transfer. *)
Definition adds (t : string) (m m' : gmap Z job) : Prop :=
  m ⊆ m' ∧ ∀ i j, m' !! i = Some j → m !! i = None → j_transfer j = t.

#[export] Instance adds_preorder t : PreOrder (adds t).
Proof.
  split; [split; [done|congruence]|]. intros m1 m2 m3 [A1 A2] [B1 B2]. split; [by etrans|]. intros i j Hj Hn.
  destruct (m2 !! i) as [j2|] eqn:E; [|by eapply B2]. pose proof (lookup_weaken _ _ _ _ E B1). simplify_eq. by eapply A2.
Qed.

(** The states of a planned transfer: its work is there, or there was none. *)
Definition planned_states : list TransferState := [TransferReady; TransferSucceeded].

Section plan_rows.
Context `{RowIds} (now : Z) (req : Planner.Request).

#[local] Abbreviation t := (q_TransferID req).

Lemma adds_InsertJob row db db' id created : jr_TransferID row = t →
  InsertJob now row db = Ok (db', id, created) → db' = db <| jobs := jobs db' |> ∧ adds t (jobs db) (jobs db').
Proof using.
  intros Hrow [(_ & -> & _)|(_ & -> & Hn & _)]%InsertJob_Ok; [by destruct db|]. split; [done|]. simpl. split.
  - by apply insert_subseteq.
  - intros i j [[<- <-]|[Hi Hj]]%lookup_insert_Some Hno; [|congruence].
    change (jr_TransferID row = t). done.
Qed.

Lemma adds_plan_jobs tree layout destinations db st : plan_jobs now req tree layout destinations db = Ok st →
  ps_db st = db <| jobs := jobs (ps_db st) |> ∧ adds t (jobs db) (jobs (ps_db st)).
Proof using.
  set (I := λ d : DB, d = db <| jobs := jobs d |> ∧ adds t (jobs db) (jobs d)).
  assert (∀ row d d' id created, jr_TransferID row = t → I d → InsertJob now row d = Ok (d', id, created) → I d') as Hins.
  { intros row d d' id created Hrow [E Ha] [E' Ha']%adds_InsertJob; [|done]. split; [rewrite E', E; done|by etrans]. }
  assert (I db) as H0 by (split; [by destruct db|done]).
  unfold plan_jobs. intros (blobs & _ & (st1 & H1 & H2)%result_bind_Ok)%result_bind_Ok.
  assert (I (ps_db st1)) as Hg1.
  { revert H1. apply (fold_result_ind (λ _ st, I (ps_db st))); [done|].
    intros pre b post s1 s2 _ Hg. unfold plan_blob. destruct (bt_placed b); [by intros [= <-]|].
    intros ([[d id] created] & Hin & [= <-])%result_bind_Ok. by eapply Hins; [|exact Hg|exact Hin]. }
  change (I (ps_db st)). revert H2. apply (fold_result_ind (λ _ st, I (ps_db st))); [done|].
  intros pre [i a] post s1 s2 _ Hg. unfold plan_artifact. apply (fold_result_ind (λ _ st, I (ps_db st))); [done|].
  intros pre' [rank site] post' s3 s4 _ Hg'. unfold plan_site.
  intros (target & _ & ([[d id] created] & Hin & [= <-])%result_bind_Ok)%result_bind_Ok.
  by eapply Hins; [|exact Hg'|exact Hin].
Qed.

Lemma ensureDestinations_frame places db db' out : ensureDestinations req places db = Ok (db', out) →
  db' = db <| repositories := repositories db' |> ∧ repositories db ⊆ repositories db'.
Proof using.
  set (I := λ d : DB, d = db <| repositories := repositories d |> ∧ repositories db ⊆ repositories d).
  unfold ensureDestinations. change (fold_result (ensure_site req) (places ≫= Sites) (db, ∅) = Ok (db', out) → I (db', out).1).
  apply (fold_result_ind (λ _ s, I s.1)); [split; [by destruct db|done]|].
  intros pre s post [d o] [d' o'] _ [Hd Hs]. simpl in *. unfold ensure_site.
  destruct (o !! _); [by intros [= <- <-]|]. destruct (_ || _); [by intros [= <- <-]|].
  intros ([d2 id] & [_ [->|(_ & Hd2 & Hs2 & _)]]%EnsureRepository_Ok & [= <- <-])%result_bind_Ok; [done|].
  split; [rewrite Hd2, Hd; done|by etrans].
Qed.

Lemma OpenFirstWave_transfers i db : ∃ f, transfers (OpenFirstWave now i db) = transfers (update_transfer i f db) ∧
  requests (OpenFirstWave now i db) = requests db ∧ products (OpenFirstWave now i db) = products db ∧
  repositories (OpenFirstWave now i db) = repositories db ∧ ∀ r, t_state (f r) = t_state r ∨ t_state (f r) = TransferSucceeded.
Proof using. unfold OpenFirstWave. destruct (min_wave _ _); eexists; split_and!; (done || by auto). Qed.

Lemma only_OpenFirstWave i db : only i db (OpenFirstWave now i db).
Proof using.
  destruct (OpenFirstWave_rows now i db) as [_ Hrows]. destruct (OpenFirstWave_transfers i db) as (f & Et & Er & Ep & Eo & _).
  destruct (only_update_transfers i (λ k _, bool_decide (k = i)) (λ _, f) db) as [_ _ _ Ho Hr _].
  { by intros k _ ?%bool_decide_eq_true. }
  split; [done|done|by rewrite Eo|intros k Hk; rewrite Et; by apply Ho|by rewrite Et|]. intros k j Hj. split.
  - intros Hk. destruct (rows_lookup_new _ _ _ _ _ Hrows Hk) as (j0 & Hj0 & [->|(Ht & _ & ->)]); [done|]. by destruct Hj.
  - intros Hk. destruct (rows_lookup _ _ _ _ _ Hrows Hk) as (j' & Hj' & [->|(Ht & _)]); [done|]. by destruct Hj.
Qed.

(** A plan that commits leaves its transfer planned, and everything else. *)
Lemma Plan_only tree places db db' report : Planner.Plan now req tree places db = Ok (db', report) →
  only t db db' ∧
  ∀ r, transfers db !! t = Some r → ∃ r', transfers db' !! t = Some r' ∧ t_state r' ∈ planned_states.
Proof using.
  unfold Planner.Plan. case_bool_decide; [done|].
  intros ([db1 dest] & [Hen Hrep]%ensureDestinations_frame & (st & [Est [Hsub Hnew]]%adds_plan_jobs & [= <- _])%result_bind_Ok)%result_bind_Ok.
  set (totals := mkPlanTotals _ _ _ _ _). unfold RecordPlan.
  set (d2 := AddJobDependencies (ps_edges st) (ps_db st)).
  assert (d2 = (ps_db st) <| dependencies := dependencies d2 |>) as E2 by apply AddJobDependencies_frame.
  assert (transfers d2 = transfers db) as Et by (rewrite E2, Est, Hen; done).
  set (d3 := update_transfer t (set_planned now totals) d2). split.
  - trans d3; [|apply only_OpenFirstWave]. trans d2; [|apply only_update_transfers; by intros k _ ?%bool_decide_eq_true].
    split; [rewrite E2, Est, Hen; done|rewrite E2, Est, Hen; done|rewrite E2, Est; exact Hrep|by rewrite Et|by rewrite Et|].
    intros i j Hj. assert (jobs d2 = jobs (ps_db st)) as -> by (rewrite E2; done).
    assert (jobs db1 = jobs db) as Ej by (rewrite Hen; done). rewrite Ej in *. split; [|intros Hi; by eapply lookup_weaken].
    intros Hi. destruct (jobs db !! i) as [j0|] eqn:E; [pose proof (lookup_weaken _ _ _ _ E Hsub); congruence|].
    by destruct Hj; eapply Hnew.
  - intros r Hr. destruct (OpenFirstWave_transfers t d3) as (f & -> & _ & _ & _ & Hf). rewrite lookup_update_transfer.
    unfold d3. rewrite lookup_update_transfer, Et, Hr. simpl. rewrite !bool_decide_eq_true_2 by done. eexists. split; [done|].
    destruct (Hf (set_planned now totals r)) as [->| ->]; [left|right; left].
Qed.
End plan_rows.

(* -------------------------------------------------------------------- *)
(** ** Lemmas: steps *)

(** What a step ends in. *)
Definition ends {A} (m : PlanStep A) (w : World) (Q : World → PlanFailure + A → Prop) : Prop := Q (m w).1 (m w).2.

Lemma ends_bind {A B} (m : PlanStep A) (k : A → PlanStep B) w Q :
  ends m w (λ w1 r, match r with inl err => Q w1 (inl err) | inr a => ends (k a) w1 Q end) → ends (m ≫= k) w Q.
Proof. unfold ends, mbind, PlanStep_bind. by destruct (m w) as [w1 [err|a]]. Qed.

Lemma ends_mono {A} (m : PlanStep A) w (P Q : World → PlanFailure + A → Prop) :
  ends m w P → (∀ w' r, P w' r → Q w' r) → ends m w Q.
Proof. unfold ends. auto. Qed.

Lemma ends_ret {A} (a : A) w (Q : World → PlanFailure + A → Prop) : Q w (inr a) → ends (mret a) w Q.
Proof. done. Qed.

Lemma ends_reads {A} (f : World → A) w (Q : World → PlanFailure + A → Prop) : Q w (inr (f w)) → ends (reads f) w Q.
Proof. done. Qed.

Lemma ends_present {A} err (o : option A) w (Q : World → PlanFailure + A → Prop) :
  (o = None → Q w (inl err)) → (∀ a, o = Some a → Q w (inr a)) → ends (present err o) w Q.
Proof. destruct o; unfold ends; simpl; auto. Qed.

Lemma ends_answered {E A} (wrap : E → PlanFailure) (x : E + A) w (Q : World → PlanFailure + A → Prop) :
  (∀ err, x = inl err → Q w (inl (wrap err))) → (∀ a, x = inr a → Q w (inr a)) → ends (answered wrap x) w Q.
Proof. destruct x; unfold ends; simpl; auto. Qed.

Lemma ends_transaction {A} wrap (f : DB → result (DB * A)) w (Q : World → PlanFailure + A → Prop) :
  (∀ err, f (w_db w) = Err err → Q w (inl (wrap err))) →
  (∀ db a, f (w_db w) = Ok (db, a) → Q (w <| w_db := db |>) (inr a)) → ends (transaction wrap f) w Q.
Proof. unfold ends, transaction. destruct (f (w_db w)) as [[db a]|err]; simpl; auto. Qed.


Section ways.
Context `{RowIds} `{ArtifactIds} (e : Expander) (now : Z).

(** The registration of the path a copy reads from. *)
Definition origin_registered (t : PendingTransfer) (db db1 : DB) : Prop :=
  db1 = db ∨ ∃ role name host path ty id, EnsureRepository (pg_ProductID t) role name host path ty db = Ok (db1, id).

(** The ways a transfer may go, by what they leave in the queue's database. *)
Inductive way (t : PendingTransfer) (db : DB) : DB → Z → Prop :=
  | by_delegation d target strategy :
      xp_delegation e = Some d → Strategy d (pg_ProductName t) target = inr strategy →
      strategy ≠ StrategyCopy → strategy ≠ StrategyProxy →
      (∃ r, repositories db !! pg_TargetRepoID t = Some r ∧ rp_name r = target) →
      way t db (MarkSyncing now (pg_ID t) strategy db) 0
  | by_promotion p hop db' :
      xp_promotion e = Some p → pg_Operation t = "promote" →
      (∃ claim, Claim p hop = inr claim ∧ cl_Claimed claim = true ∧
         Open now (xp_promotion_id e (promotions db)) (pg_ID t) (cl_Promoter claim) (hp_Names hop) db = Ok db') →
      way t db db' 0
  | by_copy db1 req tree places db' report :
      (∀ d, xp_delegation e = Some d → ∃ r, repositories db !! pg_TargetRepoID t = Some r ∧
         Strategy d (pg_ProductName t) (rp_name r) = inr StrategyCopy) →
      origin_registered t db db1 → q_TransferID req = pg_ID t → q_TargetRepoID req = pg_TargetRepoID t →
      Planner.Plan now req tree places db1 = Ok (db', report) →
      way t db db' (pl_Jobs report).
End ways.

Section plans.
Context `{RowIds} `{ArtifactIds} (e : Expander) (now : Z).

Lemma endpoint_row ids db id p : id ∈ ids → HydrateEndpoints ids db !! id = Some p →
  ∃ r, repositories db !! id = Some r ∧ rp_name r = EName p.
Proof using.
  intros Hin. rewrite lookup_HydrateEndpoints by done. unfold endpoint_of.
  intros (r & Hr & (n & _ & [= <-])%bind_Some)%bind_Some. by exists r.
Qed.

(** What a plan leaves: one of the ways, or at most a path given a row. *)
Definition left_by (t : PendingTransfer) (w w' : World) (r : PlanFailure + Z) : Prop :=
  match r with
  | inl _ => origin_registered t (w_db w) (w_db w')
  | inr n => way e now t (w_db w) (w_db w') n
  end.

Lemma delegate_ends t strategy p pkg w :
  (∀ d, xp_delegation e = Some d → Strategy d (pg_ProductName t) (EName p) = inr strategy) → strategy ≠ StrategyCopy →
  (∃ r, repositories (w_db w) !! pg_TargetRepoID t = Some r ∧ rp_name r = EName p) →
  ends (delegate e now t strategy (EName p) pkg) w (λ w' r, left_by t w w' (match r with inl err => inl err | inr _ => inr 0 end)).
Proof using.
  intros Hs Hc Hrow. unfold delegate. apply ends_bind, ends_present; [by left|]. intros d Hd.
  destruct (String.eqb_spec strategy StrategyProxy) as [|Hp]; [by left|].
  apply ends_bind. unfold ends at 1, ask_sync. destruct (RequestSync d _ _) as [syncs [err|handle]]; [by left|].
  simpl. unfold mark_syncing. by eapply by_delegation; [exact Hd|apply Hs|..].
Qed.

Lemma relocate_ends t p claim hop w :
  xp_promotion e = Some p → pg_Operation t = "promote" → Claim p hop = inr claim → cl_Claimed claim = true →
  ends (relocate e now t claim hop) w (λ w' r, left_by t w w' (match r with inl err => inl err | inr _ => inr 0 end)).
Proof using.
  intros Hp Ht Hc Hd. unfold relocate. destruct (xp_promotions e); simpl; [|by left].
  apply ends_transaction; [by left|]. intros db a (db0 & Ho & [= -> _])%result_fmap_Ok.
  eapply by_promotion; [done..|]. by exists claim.
Qed.

Lemma claimed_hop_Some t pkg origin destination relative c claim hop :
  claimed_hop e t pkg origin destination relative c = Some (claim, hop) →
  ∃ p, xp_promotion e = Some p ∧ pg_Operation t = "promote" ∧ Claim p hop = inr claim ∧ cl_Claimed claim = true.
Proof using.
  unfold claimed_hop. destruct (String.eqb_spec (pg_Operation t) "promote") as [Ht|]; [|done]. simpl.
  case_bool_decide as Hp; [|done]. destruct Hp as [p Hp]. destruct (promotionHop _ _ _ _ _ _ _) as [h|]; [|done].
  destruct (cl_Claimed (claimPromotion e h)) eqn:Hc; [|done]. intros [= <- <-]. exists p.
  unfold claimPromotion in *. rewrite Hp in *. destruct (Claim p h) as [err|cl]; [done|]. done.
Qed.

Lemma copy_ends t pkg origin destination relative readPath w :
  (∀ d, xp_delegation e = Some d → ∃ r, repositories (w_db w) !! pg_TargetRepoID t = Some r ∧
     Strategy d (pg_ProductName t) (rp_name r) = inr StrategyCopy) →
  ends (copy e now t pkg origin destination relative readPath) w (λ w' r, left_by t w w' r).
Proof using.
  intros Hcopy. unfold copy. apply ends_bind.
  assert (ends (ensureOrigin t origin readPath) w (λ w1 _, origin_registered t (w_db w) (w_db w1))) as Ho.
  { unfold ensureOrigin. destruct (String.eqb _ _); [by left|]. apply ends_transaction; [by left|].
    intros db id Hid. right. by do 6 eexists. }
  unfold ends at 1 in Ho. unfold ends at 1. destruct (ensureOrigin t origin readPath w) as [w1 [err|src]]; [done|]. simpl in Ho |- *.
  apply ends_bind, ends_answered; [done|]. intros reader _. apply ends_bind.
  set (req := Planner.mkRequest _ _ _ _ _ _ _ _ _ _ _ _). unfold plan_copy. case_bool_decide; [done|].
  apply ends_bind, ends_answered; [done|]. intros root _. apply ends_bind.
  unfold ends at 1, treeFor. destruct (Ensure _ _ _ _ _ _) as [c [err|x]]; [done|]. simpl.
  apply ends_transaction; [done|]. simpl. intros db report Hplan.
  by eapply by_copy; [exact Hcopy|exact Ho| | |exact Hplan].
Qed.

Lemma plan_by_ends strategy t pkg origin destination relative readPath w :
  (∀ d, xp_delegation e = Some d → Strategy d (pg_ProductName t) (EName destination) = inr strategy) →
  (xp_delegation e = None → strategy = StrategyCopy) →
  (∃ r, repositories (w_db w) !! pg_TargetRepoID t = Some r ∧ rp_name r = EName destination) →
  ends (plan_by e now strategy t pkg origin destination relative readPath) w (λ w' r, left_by t w w' r).
Proof using.
  intros Hs Hn Hd. unfold plan_by. destruct (String.eqb_spec strategy StrategyCopy) as [->|Hc]; simpl.
  - apply ends_bind, ends_reads. destruct (claimed_hop _ _ _ _ _ _ _) as [[claim hop]|] eqn:Hhop.
    + apply claimed_hop_Some in Hhop as (p & Hp & Ht & Hcl & Hb).
      apply ends_bind. eapply ends_mono; [by eapply relocate_ends|]. by intros w' [].
    + apply copy_ends. intros d Hdl. destruct Hd as (r & Hr & E). exists r. rewrite E. eauto.
  - apply ends_bind. eapply ends_mono; [by apply delegate_ends|]. by intros w' [].
Qed.

Lemma plan_ends t w : ends (plan e now t) w (λ w' r, left_by t w w' r).
Proof using.
  unfold plan. apply ends_bind, ends_bind, ends_reads, ends_present; [by left|]. intros pkg _.
  apply ends_bind, ends_reads, ends_bind, ends_present; [by left|]. intros origin _.
  apply ends_bind, ends_present; [by left|]. intros destination Hd. apply endpoint_row in Hd; [|right; left].
  apply ends_bind, ends_reads, ends_bind. unfold strategyFor. destruct (xp_delegation e) as [d|] eqn:Hdel.
  - apply ends_answered; [by left|]. intros strategy Hs. apply plan_by_ends; [by rewrite Hdel; intros ? [= <-]|by rewrite Hdel|done].
  - apply ends_ret, plan_by_ends; [by rewrite Hdel|done..].
Qed.
End plans.

(* -------------------------------------------------------------------- *)
(** ** Lemmas: one transfer *)

(** Where a tick leaves a transfer of its batch. *)
Definition placed_states : list TransferState :=
  [TransferReady; TransferSucceeded; TransferSyncing; TransferPromoting; TransferFailed].

Lemma elem_of_planned s : s ∈ planned_states ↔ s = TransferReady ∨ s = TransferSucceeded.
Proof. unfold planned_states. rewrite !elem_of_cons, elem_of_nil. tauto. Qed.

(** A transfer whose work was planned is one the destination wants copied. *)
Definition wants_copy (e : Expander) (p : PendingTransfer) (db : DB) : Prop :=
  ∀ d, xp_delegation e = Some d → ∃ r, repositories db !! pg_TargetRepoID p = Some r ∧
    Strategy d (pg_ProductName p) (rp_name r) = inr StrategyCopy.

(** What a tick does to a listed transfer. *)
Record placed (e : Expander) (p : PendingTransfer) (db db' : DB) : Prop := {
  pl_row : ∃ x', transfers db' !! pg_ID p = Some x' ∧ t_state x' ∈ placed_states;
  pl_copied x' : transfers db' !! pg_ID p = Some x' → t_state x' ∈ planned_states → wants_copy e p db';
  pl_quiet x' : transfers db' !! pg_ID p = Some x' → t_state x' ∉ planned_states →
    ∀ k j, j_transfer j = pg_ID p → jobs db' !! k = Some j ↔ jobs db !! k = Some j }.

Section one.
Context `{RowIds} `{ArtifactIds} (e : Expander) (now : Z).

Lemma origin_registered_only t db db1 : origin_registered t db db1 → only (pg_ID t) db db1.
Proof using. intros [->|(role & name & host & path & ty & id & He)]; [done|by eapply only_EnsureRepository]. Qed.

Lemma origin_registered_jobs t db db1 : origin_registered t db db1 →
  jobs db1 = jobs db ∧ transfers db1 = transfers db ∧ runs db db1.
Proof using.
  intros [->|(role & name & host & path & ty & id & He)]; [done|]. split_and!.
  1-2: by apply EnsureRepository_Ok in He as [_ [->|(_ & -> & _)]].
  eapply (runs_op (OpRegister _ _ _ _ _ _)). cbn [exec]. by rewrite He.
Qed.

Lemma way_runs t db db' n : way e now t db db' n → runs db db'.
Proof using.
  intros [d target strategy _ _ _ _ _|p hop db1 _ _ (claim & _ & _ & Ho)|db1 req tree places db2 report _ Hdb1 _ _ Hplan].
  - by eapply (runs_op (OpMarkSyncing _ _ _)).
  - by eapply (runs_op (OpOpenPromotion _ _ _ _ _)).
  - etrans; [by apply (origin_registered_jobs t)|]. eapply (runs_op (OpPlan now req tree places)). cbn [exec]. by rewrite Hplan.
Qed.

Lemma Open_only id t promoter names db db' : Open now id t promoter names db = Ok db' →
  only t db db' ∧ jobs db' = jobs db ∧
  ∀ x, transfers db !! t = Some x → t_state x ∈ [TransferPending; TransferPlanning] →
    ∃ x', transfers db' !! t = Some x' ∧ t_state x' = TransferPromoting.
Proof using.
  unfold Open. case_bool_decide; [done|]. intros [= <-]. set (d := if exists_where _ _ then _ else _).
  assert (jobs d = jobs db ∧ transfers d = transfers db ∧ requests d = requests db ∧ products d = products db ∧
    repositories d = repositories db) as (Ej & Et & Er & Ep & Eo) by (unfold d; by destruct (exists_where _ _)).
  split; [|split; [exact Ej|]].
  - trans d; [apply only_frame; [done..|by rewrite Eo]|]. apply only_update_transfers.
    by intros i r [?%bool_decide_eq_true _]%andb_true_iff.
  - intros x Hx Hs. unfold update_transfers. simpl. rewrite lookup_update_where, Et, Hx. simpl.
    rewrite !bool_decide_eq_true_2 by (done || set_solver). eexists. split; [done|]. done.
Qed.

Lemma way_placed t db db' n x : way e now t db db' n → transfers db !! pg_ID t = Some x →
  t_state x ∈ [TransferPending; TransferPlanning] →
  only (pg_ID t) db db' ∧ placed e t db db' ∧ ∀ x', transfers db' !! pg_ID t = Some x' → t_state x' ≠ TransferFailed.
Proof using.
  intros Hw Hx Hs. destruct Hw as [d target strategy _ _ _ _ _|p hop db1 _ _ (claim & _ & _ & Ho)|db1 req tree places db2 report Hcopy Hdb1 Ht _ Hplan].
  - assert (transfers (MarkSyncing now (pg_ID t) strategy db) !! pg_ID t = Some (x <| t_state := TransferSyncing |>
      <| t_strategy := strategy |> <| t_started := Some (default now (t_started x)) |> <| t_updated := now |>)) as E.
    { unfold MarkSyncing, update_transfers. simpl. rewrite lookup_update_where, Hx. simpl.
      by rewrite !bool_decide_eq_true_2 by (done || set_solver). }
    split; [apply only_update_transfers; by intros i r [?%bool_decide_eq_true _]%andb_true_iff|]. split.
    + split; [eexists; split; [exact E|simpl; set_solver]| |done]. rewrite E. intros x' [= <-]. simpl. rewrite elem_of_planned. by intros [].
    + rewrite E. by intros x' [= <-].
  - destruct (Open_only _ _ _ _ _ _ Ho) as (Hon & Hj & Hrow). destruct (Hrow x Hx Hs) as (x' & Hx' & E).
    split; [done|]. split; [split|].
    + exists x'. split; [done|rewrite E; set_solver].
    + intros y Hy. simplify_eq. rewrite E, elem_of_planned. by intros [].
    + intros y _ _ k j _. by rewrite Hj.
    + intros y Hy. simplify_eq. by rewrite E.
  - rewrite <-Ht in *. apply Plan_only in Hplan as [Hon Hrow].
    assert (transfers db1 = transfers db) as Et by by apply (origin_registered_jobs t).
    destruct (Hrow x) as (x' & Hx' & Hst); [by rewrite Et|]. apply origin_registered_only in Hdb1. rewrite <-Ht in Hdb1.
    split; [by trans db1|]. split; [split|]; rewrite <-?Ht.
    + exists x'. split; [done|]. apply elem_of_planned in Hst as [->| ->]; [left|right; left].
    + intros y Hy _ d Hd. destruct (Hcopy d Hd) as (r & Hr & Hc). exists r. split; [|done].
      eapply lookup_weaken; [exact Hr|]. etrans; [apply Hdb1|apply Hon].
    + intros y Hy Hn. simplify_eq. by destruct Hn.
    + intros y Hy E. simplify_eq. rewrite E, elem_of_planned in Hst. by destruct Hst.
Qed.
End one.

(* -------------------------------------------------------------------- *)
(** ** Lemmas: a batch *)

(** Between two databases only the transfers named, their jobs and catalog rows
    changed. *)
Record only_of (ids : list string) (db db' : DB) : Prop := {
  oo_requests : requests db' = requests db;
  oo_products : products db' = products db;
  oo_repositories : repositories db ⊆ repositories db';
  oo_others i : i ∉ ids → transfers db' !! i = transfers db !! i;
  oo_jobs k j : j_transfer j ∉ ids → jobs db' !! k = Some j ↔ jobs db !! k = Some j }.

Section batch.
Context `{RowIds} `{ArtifactIds} (e : Expander) (now : Z).

Lemma expand_one_spec w res p w' res' x :
  expand_one e now (w, res) p = (w', res') → transfers (w_db w) !! pg_ID p = Some x →
  t_state x ∈ [TransferPending; TransferPlanning] →
  only (pg_ID p) (w_db w) (w_db w') ∧ placed e p (w_db w) (w_db w') ∧ runs (w_db w) (w_db w') ∧
  xr_Transfers res' = xr_Transfers res + 1 ∧ xr_Requests res' = xr_Requests res ∧
  ∀ x', transfers (w_db w') !! pg_ID p = Some x' →
    xr_Failed res' = xr_Failed res + (if bool_decide (t_state x' = TransferFailed) then 1 else 0).
Proof using.
  intros He Hx Hs. pose proof (plan_ends e now p w) as Hp. unfold ends, left_by in Hp. unfold expand_one in He.
  destruct (plan e now p w) as [w1 [err|n]]; simpl in Hp; injection He as <- <-.
  - destruct (origin_registered_jobs _ _ _ Hp) as (Ej & Et & Hruns). set (db1 := w_db w1) in *.
    change (w_db (w1 <| w_db ::= FailTransfer now (pg_ID p) (xp_says e err) |>)) with (FailTransfer now (pg_ID p) (xp_says e err) db1).
    assert (transfers (FailTransfer now (pg_ID p) (xp_says e err) db1) !! pg_ID p =
      Some (set_transfer_failed now (xp_says e err) x)) as E.
    { unfold FailTransfer, update_transfers. simpl. rewrite lookup_update_where, Et, Hx. simpl.
      rewrite bool_decide_eq_true_2 by done. rewrite bool_decide_eq_false_2; [done|].
      intros Hin. revert Hs Hin. rewrite !elem_of_cons, elem_of_nil. intros [E1|[E1|[]]] [E2|[E2|[]]]; congruence. }
    split_and!; try (simpl; lia).
    + etrans; [by apply origin_registered_only|]. apply only_update_transfers. by intros i r [?%bool_decide_eq_true _]%andb_true_iff.
    + split; [eexists; split; [exact E|simpl; set_solver]|..]; intros x' Hx'; pose proof (eq_trans (eq_sym Hx') E) as [= ->];
        [rewrite elem_of_planned; by intros []|]. intros _ k j _. simpl. by rewrite Ej.
    + etrans; [exact Hruns|]. by eapply (runs_op (OpFail _ _ _)).
    + intros x' Hx'. pose proof (eq_trans (eq_sym Hx') E) as [= ->]. simpl. lia.
  - destruct (way_placed _ _ _ _ _ _ _ Hp Hx Hs) as (Hon & Hpl & Hf). split_and!; try (simpl; lia); [done|done|by eapply way_runs|].
    intros x' Hx'. rewrite bool_decide_eq_false_2 by (by eapply Hf). simpl. lia.
Qed.

Lemma placed_before p q db db1 db2 : pg_ID q ≠ pg_ID p → only (pg_ID p) db db1 → placed e q db1 db2 → placed e q db db2.
Proof using.
  intros Hne Hon [Hrow Hcopy Hquiet]. split; [done..|]. intros x' Hx' Hs k j Hj.
  rewrite (Hquiet x' Hx' Hs k j Hj). apply (on_jobs _ _ _ Hon). by rewrite Hj.
Qed.

Lemma placed_after p ids db db1 db2 : pg_ID p ∉ ids → placed e p db db1 → only_of ids db1 db2 → placed e p db db2.
Proof using.
  intros Hne [Hrow Hcopy Hquiet] [_ _ Hrep Ho Hj]. split; rewrite (Ho _ Hne); [done|..].
  - intros x' Hx' Hs d Hd. destruct (Hcopy x' Hx' Hs d Hd) as (r & Hr & Hc). exists r. split; [by eapply lookup_weaken|done].
  - intros x' Hx' Hs k j Ht. rewrite <-(Hquiet x' Hx' Hs k j Ht). apply Hj. by rewrite Ht.
Qed.

Lemma expand_all l w res w' res' :
  foldl (expand_one e now) (w, res) l = (w', res') → NoDup (pg_ID <$> l) →
  (∀ p, p ∈ l → ∃ x, transfers (w_db w) !! pg_ID p = Some x ∧ t_state x ∈ [TransferPending; TransferPlanning]) →
  only_of (pg_ID <$> l) (w_db w) (w_db w') ∧ (∀ p, p ∈ l → placed e p (w_db w) (w_db w')) ∧ runs (w_db w) (w_db w') ∧
  xr_Transfers res' = xr_Transfers res + Z.of_nat (length l) ∧ xr_Requests res' = xr_Requests res ∧
  xr_Failed res' = xr_Failed res + Z.of_nat (length (filter (λ p, t_state <$> transfers (w_db w') !! pg_ID p = Some TransferFailed) l)).
Proof using.
  revert w res. induction l as [|p l IH]; intros w res.
  { simpl. intros [= <- <-] _ _. split_and!; [by split|by intros p []%elem_of_nil|done|lia..]. }
  rewrite fmap_cons. cbn [foldl length]. intros Hf [Hp Hnd]%NoDup_cons Hall.
  destruct (expand_one e now (w, res) p) as [w1 res1] eqn:E1.
  destruct (Hall p) as (x & Hx & Hs); [left|].
  destruct (expand_one_spec _ _ _ _ _ _ E1 Hx Hs) as (Hon & Hpl & Hr & Et & Eq & Ef).
  destruct (IH w1 res1 Hf Hnd) as (Hoo & Hpls & Hrs & Et' & Eq' & Ef').
  { intros q Hq. rewrite (on_others _ _ _ Hon); [apply Hall; by right|]. intros Hqp. apply Hp. rewrite <-Hqp. by apply list_elem_of_fmap_2. }
  pose proof (placed_after p (pg_ID <$> l) _ _ _ Hp Hpl Hoo) as Hpl'.
  split_and!; [| |by etrans|lia|lia|].
  - destruct Hoo as [A1 A2 A0 A3 A4], Hon as [B1 B2 B0 B3 B4 B5]. split; [congruence|congruence|by etrans|..].
    + intros i [Hi Hil]%not_elem_of_cons. rewrite A3, B3 by done. done.
    + intros k j [Hi Hil]%not_elem_of_cons. rewrite A4, B5 by done. done.
  - intros q [->|Hq]%elem_of_cons; [done|]. apply (placed_before p q _ (w_db w1)); [|done|by apply Hpls].
    intros Hqp. apply Hp. rewrite <-Hqp. by apply list_elem_of_fmap_2.
  - destruct (pl_row _ _ _ _ Hpl) as (x1 & Hx1 & _). rewrite Ef', (Ef x1 Hx1), filter_cons, (oo_others _ _ _ Hoo _ Hp), Hx1. simpl.
    case_bool_decide as Hfl; [rewrite decide_True by congruence|rewrite decide_False by congruence]; simpl; lia.
Qed.

(** Settling the requests touches nothing but them. *)
Lemma settle_all ids w res w' res' : foldl (settle_one now) (w, res) ids = (w', res') →
  w_db w' = (w_db w) <| requests := requests (w_db w') |> ∧ runs (w_db w) (w_db w') ∧
  res' = res <| xr_Requests := xr_Requests res + Z.of_nat (length ids) |> ∧
  ∀ i, requests (w_db w') !! i = (λ q, if bool_decide (i ∈ ids) && closes_request i (w_db w) i q
    then q <| r_state := "expanded" |> <| r_updated := now |> else q) <$> requests (w_db w) !! i.
Proof using.
  revert w res. induction ids as [|id ids IH]; intros w res.
  { simpl. intros [= <- <-]. split_and!; [by destruct (w_db w)|done|destruct res; unfold update_field; simpl; f_equal; lia|].
    intros i. by destruct (requests (w_db w) !! i). }
  cbn [foldl settle_one length]. set (w1 := w <| w_db ::= SettleRequest now id |>). intros Hf. destruct (IH w1 _ Hf) as (E & Hr & Er & Hq). split_and!.
  - rewrite E. done.
  - etrans; [|exact Hr]. by eapply (runs_op (OpSettleRequest now id)).
  - rewrite Er. destruct res; unfold update_field; simpl. f_equal. lia.
  - intros i. rewrite Hq. unfold w1. simpl. rewrite lookup_update_where.
    destruct (requests (w_db w) !! i) as [q|]; [|done]. simpl. f_equal. unfold closes_request. simpl.
    rewrite (bool_decide_eq_true_2 (i = i)) by done. simpl. rewrite (bool_decide_ext (i ∈ id :: ids) (i = id ∨ i ∈ ids)) by apply elem_of_cons.
    set (busy := exists_where _ _). destruct (decide (i = id)) as [->|Hne].
    + rewrite (bool_decide_eq_true_2 (id = id)), (bool_decide_eq_true_2 (id = id ∨ _)) by auto. simpl.
      destruct (String.eqb_spec (r_state q) "pending") as [Hs|Hs], busy; simpl; rewrite ?andb_false_r; try done;
        destruct (String.eqb_spec (r_state q) "pending"); rewrite ?andb_false_r; done.
    + rewrite (bool_decide_eq_false_2 (i = id)) by done. simpl.
      rewrite (bool_decide_ext (i = id ∨ i ∈ ids) (i ∈ ids)) by tauto. done.
Qed.
End batch.

(* -------------------------------------------------------------------- *)
(** ** Theorems *)

(** A listed batch: its transfers are unplanned, each once. *)
Lemma listed_unplanned limit db :
  NoDup (pg_ID <$> PendingTransfers limit db) ∧
  ∀ p, p ∈ PendingTransfers limit db → ∃ x, transfers db !! pg_ID p = Some x ∧ t_state x ∈ [TransferPending; TransferPlanning].
Proof.
  split.
  - rewrite PendingTransfers_ids, fmap_take. eapply sublist_NoDup; [apply NoDup_backlog|apply sublist_take].
  - intros p (x & Hx & Hs & _)%elem_of_PendingTransfers. by exists x.
Qed.

Section theorems.
Context `{RowIds} `{ArtifactIds}.
Implicit Types (e : Expander) (now : Z) (w : World).

(** The tick, in its two halves. *)
Lemma Expand_halves e now w : ∃ w1 res1,
  let pending := PendingTransfers (xp_batch e) (w_db w) in
  let '(w', res) := Expand e now w in
  only_of (pg_ID <$> pending) (w_db w) (w_db w1) ∧ (∀ p, p ∈ pending → placed e p (w_db w) (w_db w1)) ∧
  runs (w_db w) (w_db w1) ∧
  xr_Transfers res1 = Z.of_nat (length pending) ∧ xr_Requests res1 = 0 ∧
  xr_Failed res1 = Z.of_nat (length (filter (λ p, t_state <$> transfers (w_db w1) !! pg_ID p = Some TransferFailed) pending)) ∧
  w_db w' = (w_db w1) <| requests := requests (w_db w') |> ∧ runs (w_db w1) (w_db w') ∧
  res = res1 <| xr_Requests := xr_Requests res1 + Z.of_nat (length (requests_of pending)) |> ∧
  ∀ i, requests (w_db w') !! i = (λ q, if bool_decide (i ∈ requests_of pending) && closes_request i (w_db w1) i q
    then q <| r_state := "expanded" |> <| r_updated := now |> else q) <$> requests (w_db w1) !! i.
Proof.
  unfold Expand, expand_batch. set (pending := PendingTransfers _ _).
  destruct (foldl (expand_one e now) _ pending) as [w1 res1] eqn:E1. exists w1, res1. cbv zeta.
  destruct (foldl (settle_one now) (w1, res1) (requests_of pending)) as [w' res] eqn:E2.
  destruct (listed_unplanned (xp_batch e) (w_db w)) as [Hnd Hall].
  destruct (expand_all e now _ _ _ _ _ E1 Hnd Hall) as (? & ? & ? & ? & ? & ?).
  destruct (settle_all now _ _ _ _ _ E2) as (? & ? & ? & ?). split_and!; try done.
Qed.

(** C38. A tick places its batch.  Whatever the registries, the seams and the
    database answer, after a tick every transfer it listed is ready, already there,
    being fetched by its destination, being promoted by its registry, or failed;
    one that was planned has a destination that wants its content copied, and one
    that was not has the jobs it had.  No other transfer and no other transfer's
    jobs are touched, and the report counts the batch, its requests and its
    failures. *)
Theorem a_tick_places_its_batch e now w :
  let batch := PendingTransfers (xp_batch e) (w_db w) in
  let '(w', res) := Expand e now w in
  (∀ p, p ∈ batch → ∃ x', transfers (w_db w') !! pg_ID p = Some x' ∧
     t_state x' ∈ [TransferReady; TransferSucceeded; TransferSyncing; TransferPromoting; TransferFailed] ∧
     (t_state x' ∈ [TransferReady; TransferSucceeded] →
        ∀ d, xp_delegation e = Some d → ∃ r, repositories (w_db w') !! pg_TargetRepoID p = Some r ∧
          Strategy d (pg_ProductName p) (rp_name r) = inr StrategyCopy) ∧
     (t_state x' ∉ [TransferReady; TransferSucceeded] →
        ∀ k j, j_transfer j = pg_ID p → jobs (w_db w') !! k = Some j ↔ jobs (w_db w) !! k = Some j)) ∧
  (∀ i, i ∉ pg_ID <$> batch → transfers (w_db w') !! i = transfers (w_db w) !! i) ∧
  (∀ k j, j_transfer j ∉ pg_ID <$> batch → jobs (w_db w') !! k = Some j ↔ jobs (w_db w) !! k = Some j) ∧
  xr_Transfers res = Z.of_nat (length batch) ∧
  xr_Requests res = Z.of_nat (length (remove_dups (pg_RequestID <$> batch))) ∧
  xr_Failed res = Z.of_nat (length (filter (λ p, t_state <$> transfers (w_db w') !! pg_ID p = Some TransferFailed) batch)).
Proof.
  intros batch. destruct (Expand_halves e now w) as (w1 & res1 & Hh). fold batch in Hh. cbv zeta in Hh.
  destruct (Expand e now w) as [w' res]. destruct Hh as ([_ _ _ Ho Hj] & Hpl & _ & Et & Eq & Ef & E & _ & -> & _).
  rewrite E. simpl. split_and!; [|done|done|done| |done].
  - intros p Hp. destruct (Hpl p Hp) as [(x' & Hx' & Hs) Hc Hq]. exists x'. split_and!; [done|done|by apply Hc|by apply Hq].
  - rewrite Eq, Z.add_0_l. f_equal. unfold requests_of. apply Permutation_length, NoDup_Permutation; [apply NoDup_elements|apply NoDup_remove_dups|].
    intros i. by rewrite elem_of_elements, elem_of_list_to_set, elem_of_remove_dups.
Qed.

(** A tick runs the queue's operations.  Everything a tick does to the queue's
    database is a sequence of its operations, whatever the interfaces answer: the
    database is the one some run of them leaves. *)
Theorem a_tick_runs_the_queue e now w : ∃ ops, w_db (Expand e now w).1 = run (w_db w) ops.
Proof.
  destruct (Expand_halves e now w) as (w1 & res1 & Hh). cbv zeta in Hh. destruct (Expand e now w) as [w' res].
  destruct Hh as (_ & _ & H1 & _ & _ & _ & _ & H2 & _). change (runs (w_db w) (w_db w')). by etrans.
Qed.


(** The transfers a listing could take. *)
#[local] Abbreviation waiting db := (count_where (is_pending db) (transfers db)).

Lemma tick_waiting e now w n : n = Z.to_nat (if xp_batch e <=? 0 then 50 else xp_batch e) →
  (waiting (w_db (Expand e now w).1) + n `min` waiting (w_db w) = waiting (w_db w))%nat.
Proof.
  intros ->. destruct (Expand_halves e now w) as (w1 & res1 & Hh). cbv zeta in Hh. destruct (Expand e now w) as [w' res].
  destruct Hh as ([Er Ep _ Ho _] & Hpl & _ & _ & _ & _ & E & _ & _ & Hq). cbn [fst].
  set (batch := PendingTransfers _ _) in *. set (n := Z.to_nat _).
  pose proof (PendingTransfers_ids (xp_batch e) (w_db w)) as Hids. fold n batch in Hids.
  destruct (listed_unplanned (xp_batch e) (w_db w)) as [Hnd _]. fold batch in Hnd.
  assert (length (pg_ID <$> batch) = (n `min` waiting (w_db w))%nat) as <-.
  { by rewrite Hids, length_fmap, length_take, length_backlog. }
  assert (∀ i x, is_Some (pending_row (w_db w') i x) ↔ is_Some (pending_row (w_db w) i x)) as Hrow.
  { intros i x. unfold pending_row.
    assert (products (w_db w') = products (w_db w)) as -> by (rewrite E; exact Ep). rewrite Hq, Er.
    destruct (requests (w_db w) !! t_request x) as [q|]; [|done]. simpl. by destruct (_ && _). }
  assert (transfers (w_db w') = transfers (w_db w1)) as Et by (rewrite E; done).
  apply count_where_less; [done|..].
  - intros i Hi. rewrite Hids in Hi. apply list_elem_of_fmap in Hi as ([j x] & -> & Hj).
    apply elem_of_take in Hj as (k & Hk & _). apply list_elem_of_lookup_2, elem_of_backlog in Hk. by exists x.
  - intros i. rewrite Et. setoid_rewrite is_pending_true. setoid_rewrite Hrow. destruct (decide (i ∈ pg_ID <$> batch)) as [Hi|Hi].
    + split; [|tauto]. intros (x & Hx & Hs & _). exfalso. apply list_elem_of_fmap in Hi as (p & -> & Hp).
      destruct (pl_row _ _ _ _ (Hpl p Hp)) as (x' & Hx' & Hs'). simplify_eq. revert Hs Hs'.
      unfold placed_states. rewrite !elem_of_cons, elem_of_nil. intros [->|[->|[]]] Hs'; naive_solver.
    + rewrite Ho by done. tauto.
Qed.

(** C40. The backlog drains.  Ticks of expanders that take `n` at a time, whatever
    their interfaces answer and however these change in between, leave nothing
    unplanned after as many of them as the backlog has batches. *)
Theorem the_backlog_drains (ticks : list (Expander * Z)) w n :
  (∀ x, x ∈ ticks → Z.to_nat (if xp_batch x.1 <=? 0 then 50 else xp_batch x.1) = n) →
  (waiting (w_db w) ≤ length ticks * n)%nat →
  PendingTransfers 0 (w_db (foldl (λ w x, (Expand x.1 x.2 w).1) w ticks)) = [].
Proof.
  intros Hn Hw. assert (waiting (w_db (foldl (λ w x, (Expand x.1 x.2 w).1) w ticks)) = O) as Hz.
  { revert w Hw. induction ticks as [|[e now] ticks IH]; intros w Hw; [simpl in *; lia|]. cbn [foldl fst snd]. apply IH.
    - intros x Hx. apply Hn. by right.
    - pose proof (tick_waiting e now w n (eq_sym (Hn (e, now) (list_elem_of_here _ _)))) as Ht. simpl in Hw. lia. }
  apply length_zero_iff_nil.
  rewrite <-(length_fmap pg_ID), PendingTransfers_ids, length_fmap, length_take, length_backlog. lia.
Qed.
End theorems.

(* -------------------------------------------------------------------- *)
(** ** The names of a promotion *)

Lemma elem_of_first_names seen l n : n ∈ first_names seen l → n ∈ l ∧ name_key n ∉ seen.
Proof.
  revert seen. induction l as [|x l IH]; intros seen; simpl; [by intros []%elem_of_nil|].
  case_bool_decide as Hx.
  - intros [Hn Hs]%IH. split; [by right|done].
  - intros [->|[Hn Hs]%IH]%elem_of_cons; [split; [left|done]|]. apply not_elem_of_cons in Hs as [_ Hs]. split; [by right|done].
Qed.

Lemma first_names_NoDup seen l : NoDup (name_key <$> first_names seen l).
Proof.
  revert seen. induction l as [|x l IH]; intros seen; simpl; [constructor|]. case_bool_decide; [apply IH|].
  rewrite fmap_cons. constructor; [|apply IH]. intros (n & E & Hn)%list_elem_of_fmap.
  apply elem_of_first_names in Hn as [_ Hn]. apply Hn. rewrite <-E. left.
Qed.

Lemma first_names_complete seen l n : n ∈ l → name_key n ∉ seen → ∃ m, m ∈ first_names seen l ∧ name_key m = name_key n.
Proof.
  revert seen. induction l as [|x l IH]; intros seen Hn Hs; [by apply elem_of_nil in Hn|]. simpl.
  apply elem_of_cons in Hn as [->|Hn].
  - rewrite bool_decide_eq_false_2 by done. exists x. split; [left|done].
  - case_bool_decide as Hx; [by apply IH|]. destruct (decide (name_key n = name_key x)) as [E|Hne].
    + exists x. split; [left|done].
    + destruct (IH (name_key x :: seen)) as (m & Hm & E); [done|by apply not_elem_of_cons|]. exists m. split; [by right|done].
Qed.

Lemma elem_of_names_at layout a n : n ∈ names_at layout a ↔
  ∃ p s, layout !! a_Digest a = Some p ∧ s ∈ Sites p ∧ Tag n ∈ s_Tags s ∧
    Promotions.Repository n = s_Repository s ∧ NDigest n = a_Digest a.
Proof.
  unfold names_at. destruct (layout !! a_Digest a) as [p|]; [|split; [by intros []%elem_of_nil|by intros (? & ? & ? & _)]].
  rewrite list_elem_of_bind. split.
  - intros (s & (tag & -> & Ht)%list_elem_of_fmap & Hs). by exists p, s.
  - intros (q & s & [= <-] & Hs & Ht & Er & Ed). exists s. split; [|done]. apply list_elem_of_fmap. exists (Tag n).
    split; [|done]. destruct n. simpl in *. congruence.
Qed.

(** A promotion publishes the tagged names.  The names a promotion is asked for
    are one of each key: each is a tag of a site of an artifact of the tree, with
    that artifact's digest, and every tag of every site has its key among them. *)
Theorem a_promotion_names_the_tagged_sites tree sourceRepository tags :
  let layout := ResolveLayout tree (mkLayoutOptions "" sourceRepository tags) in
  let names := PromotionNamesFor tree sourceRepository tags in
  NoDup (name_key <$> names) ∧
  (∀ n, n ∈ names → ∃ a p s, a ∈ tree ∧ layout !! a_Digest a = Some p ∧ s ∈ Sites p ∧ Tag n ∈ s_Tags s ∧
     Promotions.Repository n = s_Repository s ∧ NDigest n = a_Digest a) ∧
  (∀ a p s tag, a ∈ tree → layout !! a_Digest a = Some p → s ∈ Sites p → tag ∈ s_Tags s →
     ∃ n, n ∈ names ∧ name_key n = words [s_Repository s; ":"; tag]).
Proof.
  intros layout names. unfold names, PromotionNamesFor. fold layout. split_and!; [apply first_names_NoDup|..].
  - intros n [Hn _]%elem_of_first_names. apply list_elem_of_bind in Hn as (a & (p & s & Hl & Hs & Hrest)%elem_of_names_at & Ha).
    by exists a, p, s.
  - intros a p s tag Ha Hl Hs Ht.
    destruct (first_names_complete [] (tree ≫= names_at layout) (mkName (s_Repository s) tag (a_Digest a))) as (m & Hm & E);
      [|apply not_elem_of_nil|by exists m].
    apply list_elem_of_bind. exists a. split; [|done]. apply elem_of_names_at. by exists p, s.
Qed.

(* -------------------------------------------------------------------- *)
(** ** Examples and witnesses *)

Definition expanded_package : PackageRow := mkPackageRow 7 1 1 "23.8" (address "5") "" (address "5").

Definition planning (request : string) (target priority : Z) : transfer :=
  (example_transfer TransferPlanning 0) <| t_request := request |> <| t_package := 7 |> <| t_target_repo := target |>
    <| t_priority := priority |>.

Definition request_for (operation : string) : request :=
  Schema.mkRequest 1 7 operation 1 100 "" "" "" None "pending" 0 0.

(** Two steps of a chain, the second waiting, and a transfer to a mirror. *)
Definition requested_db : DB :=
  unplanned_db <| repositories ::= insert 3 (Schema.mkRepository 1 "mirror" "quay.example" "m" "quay" "target") |>
    <| transfers := {[ "t" := planning "r" 2 50;
                       "u" := (planning "r" 3 50) <| t_state := TransferWaiting |> <| t_depends_on := Some "t" |>;
                       "v" := planning "q" 3 90; "x" := planning "q" 9 10 ]} |>
    <| requests := {[ "r" := request_for "replicate"; "q" := request_for "replicate" ]} |>.

Definition example_delegation : Delegation := mkDelegation
  (λ _ target, inr (if String.eqb target "mirror" then StrategyMirror else StrategyCopy))
  (λ r s, (<[1 := None]> s, inr (mkSyncHandle 1 false))).

Definition example_expander : Expander :=
  mkExpander (mkResolver (λ _ _, inr wrap_registry) (λ _ _, ([], None))) (Some example_delegation) None false 2 wrap_unmarshal
    (λ l, (map_to_list l).*2) (λ m, largest m + 1) (λ _, "could not be planned").

Definition requested : World := mkWorld requested_db no_contents {[ 7 := expanded_package ]} ∅.

Definition states (w : World) : list (string * TransferState) := map_to_list (t_state <$> transfers (w_db w)).

(** The first tick takes the two of higher priority, the second the one left,
    whose destination is not in the catalog. *)
Example two_ticks :
  let '(w1, r1) := Expand example_expander 100 requested in
  let '(w2, r2) := Expand example_expander 200 w1 in
  PendingTransfers 0 (w_db w2) = [] ∧ w_syncs w1 = {[ 1 := Some "v" ]} ∧
  (t_state <$> transfers (w_db w1) !! "v") = Some TransferSyncing ∧
  (t_state <$> transfers (w_db w1) !! "t") = Some TransferReady ∧
  (t_state <$> transfers (w_db w2) !! "x") = Some TransferFailed ∧
  xr_Transfers r1 = 2 ∧ xr_Failed r1 = 0 ∧ xr_Failed r2 = 1.
Proof. vm_compute. split_and!; reflexivity. Qed.

(** A request of a chain is expanded while a step of it waits to be planned. *)
Example a_chain_is_expanded_before_its_last_step :
  let '(w, _) := Expand example_expander 100 requested in
  (r_state <$> requests (w_db w) !! "r") = Some "expanded" ∧ (t_state <$> transfers (w_db w) !! "u") = Some TransferWaiting.
Proof. vm_compute. split; reflexivity. Qed.

(** The batch is listed once and planned one by one: a transfer an operator stops
    in between is planned all the same, and is ready to be worked on. *)
Example a_stopped_transfer_is_planned :
  let listed := PendingTransfers 2 requested_db in
  let stopped := ok_or requested_db (fst <$> StopTransfer 50 "t" requested_db) in
  let '(w, _) := expand_batch example_expander 100 listed (requested <| w_db := stopped |>) in
  (t_state <$> transfers stopped !! "t") = Some TransferCancelled ∧ (t_state <$> transfers (w_db w) !! "t") = Some TransferReady.
Proof. vm_compute. split; reflexivity. Qed.

(** A hop writes beneath its target with the path cleaned, and the next reads from
    beneath it with the path as it is. *)
Example a_path_is_joined_two_ways :
  destinationPath "lab" "orbs//cfx" = "lab/orbs/cfx" ∧ joinPath "lab" "orbs//cfx" = "lab/orbs//cfx".
Proof. vm_compute. split; reflexivity. Qed.

Lemma the_backlog_drains_witness :
  let w := foldl (λ w x, (Expand x.1 x.2 w).1) requested [(example_expander, 100); (example_expander, 200)] in
  length (PendingTransfers 0 requested_db) = 3%nat ∧ PendingTransfers 0 (w_db w) = [].
Proof.
  split; [vm_compute; reflexivity|].
  refine (the_backlog_drains [(example_expander, 100); (example_expander, 200)] requested 2 _ _).
  - intros x. rewrite !elem_of_cons, elem_of_nil. by intros [->|[->|[]]].
  - vm_compute. lia.
Defined.
