(* ===== verification/Engine.v ===== *)
(** * The transfer engine: one job, against two registries

    internal/transfer/engine.go and the failures internal/registry/generic/write.go
    makes of what the upload library answers.  A job is a program that calls the
    source and the target and goes on with their answers; the answers are
    arbitrary, so a statement about every run is a statement about every pair of
    registries.  Of a push the model keeps what the pipe between them saw: the
    reads the source answered and the bytes the push was handed. *)

From S2P Require Import Prelude GoStrings Backoff Completion Registry.
Open Scope Z_scope.

(* -------------------------------------------------------------------- *)
(** ** Programs that call registries *)

Inductive side := Source | Target.

(** The calls a job makes; all but [fetch_blob] and the source's manifests are
    the target's. *)
Inductive call :=
  | capabilities
  | stat_blob (dgst : string)
  | mount_blob (dgst from : string)
  | fetch_blob (dgst : string)
  | push_blob (dgst : string) (size : Z)
  | fetch_manifest (s : side) (ref : string)
  | push_manifest (ref mediaType raw : string)
  | resolve_tag (tag : string)
  | apply_tag (dgst tag : string).

(** What a push saw: each read of the source's body (the bytes, and the error
    that came with them), the sizes handed on through the buffer, its answer. *)
Record pushing := mkPushing {
  ps_reads : list (string * option Fault);
  ps_handed : list Z;
  ps_answer : option Fault }.

Definition answer (c : call) : Type :=
  match c with
  | capabilities => bool
  | stat_blob _ => Fault + Descriptor
  | mount_blob _ _ => option Fault
  | fetch_blob _ => option Fault
  | push_blob _ _ => pushing
  | fetch_manifest _ _ => Fault + (Descriptor * string)
  | push_manifest _ _ _ => Fault + Descriptor
  | resolve_tag _ => Fault + Descriptor
  | apply_tag _ _ => option Fault
  end.

Inductive prog (A : Type) :=
  | Return (a : A)
  | Call (c : call) (k : answer c → prog A).
Arguments Return {A} a.
Arguments Call {A} c k.

#[export] Instance prog_ret : MRet prog := λ A a, Return a.

#[export] Instance prog_bind : MBind prog := λ A B k,
  fix go p := match p with
              | Return a => k a
              | Call c h => Call c (λ r, go (h r))
              end.

Definition ask (c : call) : prog (answer c) := Call c Return.

(** A call and its answer. *)
Inductive event := Asked (c : call) (r : answer c).

(** A run, against answers that may depend on everything before them. *)
Fixpoint run_prog {A} (env : list event → ∀ c, answer c) (p : prog A) (tr : list event) : list event * A :=
  match p with
  | Return a => (tr, a)
  | Call c k => let r := env tr c in run_prog env (k r) (tr ++ [Asked c r])
  end.

(* -------------------------------------------------------------------- *)
(** ** Jobs and results *)

Inductive Outcome := OutcomeSucceeded | OutcomeSkipped | OutcomeFailed.

#[export] Instance Outcome_eq_dec : EqDecision Outcome.
Proof. solve_decision. Defined.

Definition SkipPlacementHit : string := "placement_hit".
Definition SkipExistsAtTarget : string := "exists_at_target".
Definition SkipMounted : string := "mounted".

(** registry.Identity *)
Record place := mkPlace { pl_Registry : string; pl_Path : string }.

Record Job := mkJob {
  eg_ID : Z;
  eg_TransferID : string;
  eg_Kind : string;
  eg_Digest : string;
  eg_SizeBytes : Z;
  eg_MediaType : string;
  eg_Attempt : Z;
  eg_Source : place;
  eg_Target : place;
  eg_KnownPlacement : bool;
  eg_MountFrom : string;
  eg_RepairLevel : Z;
  eg_Tags : list string }.

Record Result := mkResult {
  re_Outcome : Outcome;
  re_SkipReason : string;
  re_BytesMoved : Z;
  re_Placed : bool;
  re_Duration : Z;
  re_ErrorClass : string;
  re_Err : option Fault }.

#[export] Instance Result_eta : Eta Result := λ r,
  mkResult (re_Outcome r) (re_SkipReason r) (re_BytesMoved r) (re_Placed r) (re_Duration r)
    (re_ErrorClass r) (re_Err r).

Definition skipped (reason : string) (placed : bool) : Result :=
  mkResult OutcomeSkipped reason 0 placed 0 "" None.

Definition refused (class : string) (err : Fault) : Result :=
  mkResult OutcomeFailed "" 0 false 0 class (Some err).

Definition classify (err : Fault) : string :=
  if Is err Canceled || Is err DeadlineExceeded then "cancelled" else class_text (ClassOf (Some err)).

Definition failed (err : Fault) (what : string) : Result :=
  refused (classify err) (if String.eqb what "" then err else wrapf [what] err).

(* -------------------------------------------------------------------- *)
(** ** Sizes in prose *)

(** [a / b] to the nearest integer, ties to even. *)
Definition round_half_even (a b : Z) : Z :=
  let q := a / b in
  let r := a mod b in
  if 2 * r <? b then q else if b <? 2 * r then q + 1 else if Z.even q then q else q + 1.

(** float64(n), for a natural n *)
Definition float64 (n : Z) : Z :=
  let ulp := 2 ^ (Z.log2 n - 52) in
  if n <? 2 ^ 53 then n else round_half_even n ulp * ulp.

(** The unit's divisor and its index. *)
Fixpoint unit_of (steps : nat) (size div : Z) (exp : nat) : Z * nat :=
  match steps with
  | O => (div, exp)
  | S steps => if 1024 <=? size then unit_of steps (size / 1024) (div * 1024) (S exp) else (div, exp)
  end.

Definition humanBytes (n : Z) : string :=
  if n <? 0 then "an unknown amount"
  else if n <? 1024 then words [pretty n; " B"]
  else
    let '(div, exp) := unit_of 4 (n / 1024) 1024 0 in
    let tenths := round_half_even (10 * float64 n) div in
    words [pretty (tenths / 10); "."; pretty (tenths mod 10); " ";
           String.substring exp 1 "KMGTP"; "iB"].

(* -------------------------------------------------------------------- *)
(** ** Which end broke *)

(** watchedReader: the bytes the source sent, and its last error. *)
Definition sent (reads : list (string * option Fault)) : Z :=
  foldl (λ n r, n + Z.of_nat (String.length r.1)) 0 reads.

Definition last_error (reads : list (string * option Fault)) : option Fault :=
  foldl (λ e r, match r.2 with Some err => Some err | None => e end) None reads.

Definition sourceError (err : Fault) : Fault :=
  match ClassifyTransport err with
  | Some cause => wrap2 (sentinel cause) err
  | None => err
  end.

(** The source's words are wrapped; the destination's are only quoted. *)
Definition sideOf (pushErr : Fault) (reads : list (string * option Fault)) (size : Z) (dgst : string) : Fault :=
  let n := sent reads in
  let closed_early :=
    mkFault (words ["read blob from source: the source closed the connection after "; humanBytes n; " of the ";
                    humanBytes size; " it declared for "; Short dgst; ": "; cause_text ErrConnectionLost;
                    " (the destination reported "; ft_Message pushErr; ")"]) [ErrConnectionLost] in
  let otherwise := if (0 <? size) && (n <? size) then closed_early
                   else wrapf ["push blob to destination"] pushErr in
  match last_error reads with
  | Some err =>
      if Is err EOF then otherwise
      else mkFault (words ["read blob from source: the source stopped sending "; Short dgst; " after "; humanBytes n;
                           " of "; humanBytes size; ": "; ft_Message (sourceError err); " (the destination reported ";
                           ft_Message pushErr; ", which is this same interruption seen from the writing end)"])
             (ft_Wraps (sourceError err))
  | None => otherwise
  end.

(* -------------------------------------------------------------------- *)
(** ** Blobs *)

Section engine.
(** go-digest: [digest.Parse], a digest's verifier, and [digest.FromBytes]. *)
Context (parse_digest : string → option Fault) (verifies : string → string → bool)
  (digest_of : string → string).

Definition mountFrom (job : Job) (from : string) : prog (option Result) :=
  err ← ask (mount_blob (eg_Digest job) from);
  mret match err with
       | None => Some (skipped SkipMounted true)
       | Some _ => None
       end.

Definition sameRegistry (a b : place) : bool := EqualFold (pl_Registry a) (pl_Registry b).

Definition tryMount (job : Job) : prog (option Result) :=
  supported ← ask capabilities;
  if negb supported then mret None
  else
    sibling ← (if String.eqb (eg_MountFrom job) "" then mret None else mountFrom job (eg_MountFrom job));
    match sibling with
    | Some r => mret (Some r)
    | None => if sameRegistry (eg_Source job) (eg_Target job)
              then mountFrom job (pl_Path (eg_Source job)) else mret None
    end.

(** The bytes handed to the push, and the failure, if any. *)
Definition stream (job : Job) : prog (Z * option Fault) :=
  let dgst := eg_Digest job in
  opened ← ask (fetch_blob dgst);
  match opened with
  | Some err => mret (0, Some (wrapf ["fetch blob from source"] err))
  | None =>
      match parse_digest dgst with
      | Some err => mret (0, Some (wrapf ["parse digest "; dgst] err))
      | None =>
          p ← ask (push_blob dgst (eg_SizeBytes job));
          let n := foldr Z.add 0 (ps_handed p) in
          mret match ps_answer p with
               | Some err => (n, Some (sideOf err (ps_reads p) (eg_SizeBytes job) dgst))
               | None =>
                   if verifies dgst (words (ps_reads p).*1) then (n, None)
                   else (n, Some (mkFault (words [cause_text ErrDigestMismatch; ": source served content that is not ";
                                                  Short dgst]) [ErrDigestMismatch]))
               end
      end
  end.

(** The first two steps of the ladder. *)
Definition already_there (job : Job) : prog (option Result) :=
  if eg_RepairLevel job <? RepairDistrustCache then
    if eg_KnownPlacement job then mret (Some (skipped SkipPlacementHit true))
    else
      stat ← ask (stat_blob (eg_Digest job));
      mret match stat with
           | inr _ => Some (skipped SkipExistsAtTarget true)
           | inl err => if Is err ErrNotFound then None else Some (failed err "stat blob at destination")
           end
  else mret None.

Definition stream_result (job : Job) : prog Result :=
  '(moved, err) ← stream job;
  mret match err with
       | Some err => (failed err "stream blob") <| re_BytesMoved := moved |>
       | None => mkResult OutcomeSucceeded "" moved true 0 "" None
       end.

Definition runBlob (job : Job) : prog Result :=
  there ← already_there job;
  match there with
  | Some r => mret r
  | None =>
      mounted ← (if eg_RepairLevel job <? RepairStreamOnly then tryMount job else mret None);
      match mounted with
      | Some r => mret r
      | None => stream_result job
      end
  end.

(* -------------------------------------------------------------------- *)
(** ** Manifests *)

Definition tagState (tag : string) : prog string :=
  now ← ask (resolve_tag tag);
  mret match now with
       | inl err => if Is err ErrNotFound
                    then " (the tag does not exist at the destination, so this write would have created it)" else ""
       | inr desc => words [" (the tag exists at the destination and points at "; Short (d_Digest desc);
                            ", so this write would have moved it)"]
       end.

Definition tagIsCurrent (dgst tag : string) : prog bool :=
  now ← ask (resolve_tag tag);
  mret match now with
       | inl _ => false
       | inr desc => String.eqb (d_Digest desc) dgst
       end.

Fixpoint applyTags (dgst : string) (tags : list string) : prog (option Fault) :=
  match tags with
  | [] => mret None
  | tag :: tags =>
      if String.eqb tag "" then applyTags dgst tags
      else
        current ← tagIsCurrent dgst tag;
        if (current : bool) then applyTags dgst tags
        else
          err ← ask (apply_tag dgst tag);
          match err with
          | None => applyTags dgst tags
          | Some err => state ← tagState tag; mret (Some (mkFault (words [ft_Message err; state]) (ft_Wraps err)))
          end
  end.

Definition manifestBytes (job : Job) : prog (Result + string) :=
  fetched ← ask (fetch_manifest Source (eg_Digest job));
  mret match fetched with
       | inl err => inl (failed err "fetch manifest from source")
       | inr (_, raw) =>
           if String.eqb (digest_of raw) (eg_Digest job) then inr raw
           else inl (refused (class_text ClassIntegrity)
                       (mkFault (words [cause_text ErrDigestMismatch; ": source served "; digest_of raw;
                                        " for manifest "; Short (eg_Digest job)]) [ErrDigestMismatch]))
       end.

(** The tags, and what the job has come to once they are on. *)
Definition tag_and (job : Job) (done : Result) : prog Result :=
  err ← applyTags (eg_Digest job) (eg_Tags job);
  mret match err with
       | Some err => failed err ""
       | None => done
       end.

Definition push_verbatim (job : Job) (raw : string) : prog Result :=
  pushed ← ask (push_manifest (eg_Digest job) (eg_MediaType job) raw);
  match pushed with
  | inl err => mret (if Is err ErrNotFound then refused ClassBlobUnknown (wrapf ["push manifest"] err)
                     else failed err "push manifest")
  | inr pushed =>
      if negb (String.eqb (d_Digest pushed) "") && negb (String.eqb (d_Digest pushed) (eg_Digest job))
      then mret (refused (class_text ClassIntegrity)
                   (mkFault (words [cause_text ErrDigestMismatch; ": destination stored the manifest as ";
                                    Short (d_Digest pushed); ", not "; Short (eg_Digest job)]) [ErrDigestMismatch]))
      else tag_and job (mkResult OutcomeSucceeded "" (Z.of_nat (String.length raw)) false 0 "" None)
  end.

Definition runManifest (job : Job) : prog Result :=
  there ← ask (fetch_manifest Target (eg_Digest job));
  match there with
  | inr _ => tag_and job (skipped SkipExistsAtTarget false)
  | inl _ =>
      fetched ← manifestBytes job;
      match fetched with
      | inl r => mret r
      | inr raw => push_verbatim job raw
      end
  end.

(** One job; [elapsed] is what the clock says it took. *)
Definition Run (elapsed : Z) (job : Job) : prog Result :=
  res ← (if String.eqb (eg_Kind job) "blob" then runBlob job
         else if String.eqb (eg_Kind job) "manifest" then runManifest job
         else mret (refused "invalid" (plainf ["unknown job kind "; quoted (eg_Kind job)])));
  mret (res <| re_Duration := elapsed |>).
End engine.

(* -------------------------------------------------------------------- *)
(** ** Uploads: what the client makes of the library's answers *)

(** The codes of the distribution specification that the client tells apart. *)
Inductive Code :=
  | BlobUnknown | ManifestBlobUnknown | ManifestUnknown | NameUnknown
  | Unauthorized | Denied | DigestInvalid | SizeInvalid
  | ManifestInvalid | NameInvalid | CodeUnsupported | OtherCode (code : string).

(** errcode.Error; the detail is what fmt.Sprint makes of it. *)
Record ErrorItem := mkErrorItem { ei_Code : Code; ei_Message : string; ei_Detail : option string }.

(** errcode.ErrorResponse, and what its errors say together. *)
Record ErrorResponse := mkErrorResponse { er_StatusCode : Z; er_Errors : list ErrorItem; er_Text : string }.

(** An error of the upload library: its words, a response inside it, and which
    of the library's own sentinels it is. *)
Record Upload := mkUpload {
  up_Fault : Fault;
  up_Response : option ErrorResponse;
  up_NotFound : bool;
  up_Unsupported : bool;
  up_AlreadyExists : bool }.

Definition missingBlobPhrases : list string :=
  ["failed to copy blob"; "blob unknown"; "unknown blob"; "missing blob"; "blob not found"].

Definition reportsAMissingBlob (e : ErrorItem) : bool :=
  let text := fold_string (ei_Message e) in
  let text := match ei_Detail e with Some d => words [text; " "; fold_string d] | None => text end in
  existsb (Contains text) missingBlobPhrases.

(** What one error decides, if it does. *)
Definition code_sentinel (e : ErrorItem) : option Cause :=
  match ei_Code e with
  | BlobUnknown | ManifestBlobUnknown | ManifestUnknown | NameUnknown => Some ErrNotFound
  | Unauthorized => Some ErrUnauthorized
  | Denied => Some ErrForbidden
  | DigestInvalid | SizeInvalid => Some ErrDigestMismatch
  | ManifestInvalid | NameInvalid | CodeUnsupported =>
      Some (if reportsAMissingBlob e then ErrNotFound else ErrUnsupported)
  | OtherCode _ => None
  end.

Definition sentinelFor (resp : ErrorResponse) : Cause :=
  match head (omap code_sentinel (er_Errors resp)) with
  | Some cause => cause
  | None => default ErrUnsupported (ClassifyStatus (er_StatusCode resp))
  end.

#[export] Instance fault_bind : MBind (sum Fault) := λ A B k x,
  match x with
  | inl err => inl err
  | inr a => k a
  end.

Section upload.
(** net/http's StatusText, and the repository's host and path. *)
Context (StatusText : Z → string) (host repoPath : string).

Definition detailOf (resp : ErrorResponse) : string :=
  match er_Errors resp with
  | [] => StatusText (er_StatusCode resp)
  | _ => er_Text resp
  end.

Definition upload_failure (err : Upload) (what : string) : Fault :=
  let out status detail cause := raise (mkFailure what (words [host; "/"; repoPath]) "" status 0 detail (Some cause)) in
  match up_Response err with
  | Some resp => out (er_StatusCode resp) (detailOf resp) (sentinel (sentinelFor resp))
  | None =>
      out 0 "" (if up_NotFound err then sentinel ErrNotFound
                else if up_Unsupported err then sentinel ErrUnsupported
                else match ClassifyTransport (up_Fault err) with
                     | Some cause => wrap2 (sentinel cause) (up_Fault err)
                     | None => up_Fault err
                     end)
  end.

Definition orasRepo : option Fault :=
  if String.eqb repoPath ""
  then Some (plainf ["build repository handle for "; host; ": repository path is empty"]) else None.

(** What a call comes to: the handle's refusal, or the library's answer. *)
Definition through {A} (k : Fault + A) : Fault + A :=
  match orasRepo with Some err => inl err | None => k end.

Definition described {A} (what : string) (ans : Upload + A) : Fault + A :=
  match ans with inl err => inl (upload_failure err what) | inr x => inr x end.

Definition StatBlob (dgst : string) (ans : Upload + Descriptor) : Fault + Descriptor :=
  through (described (words ["stat blob "; Short dgst]) ans).

Definition FetchBlob (dgst : string) (resolved : Upload + Descriptor) (body : Upload + unit) : Fault + unit :=
  through (_ ← described (words ["resolve blob "; Short dgst]) resolved;
           described (words ["fetch blob "; Short dgst]) body).

Definition PushBlob (dgst : string) (ans : Upload + unit) : Fault + unit :=
  through (match ans with
           | inl err => if up_AlreadyExists err then inr () else inl (upload_failure err (words ["push blob "; Short dgst]))
           | inr _ => inr ()
           end).

Definition MountBlob (dgst from : string) (ans : Upload + unit) : Fault + unit :=
  let declined := words [cause_text ErrMountUnsupported; ": registry declined to mount "; Short dgst; " from "; from] in
  through (match ans with
           | inr _ => inr ()
           | inl err =>
               if up_AlreadyExists err then inr ()
               else if up_Unsupported err || up_NotFound err then inl (mkFault declined [ErrMountUnsupported])
               else inl (mkFault (words [cause_text ErrMountUnsupported; ": mount "; Short dgst; " from "; from; ": ";
                                         ft_Message (up_Fault err)])
                           (ErrMountUnsupported :: ft_Wraps (up_Fault err)))
           end).

Definition PushManifest (digest_of : string → string) (ref mediaType raw : string) (ans : Upload + unit)
    : Fault + Descriptor :=
  let desc := mkDescriptor (if String.eqb mediaType "" then MediaTypeOCIManifest else mediaType)
                (digest_of raw) (Z.of_nat (String.length raw)) "" ∅ None in
  let ref := if String.eqb ref "" then d_Digest desc else ref in
  through (match ans with
           | inl err => if up_AlreadyExists err then inr desc else inl (upload_failure err (words ["push manifest "; ref]))
           | inr _ => inr desc
           end).

Definition Tag (dgst tag : string) (resolved : Upload + Descriptor) (tagged : Upload + unit) : Fault + unit :=
  through (_ ← described (words ["resolve manifest "; Short dgst]) resolved;
           described (words ["tag "; Short dgst; " as "; tag]) tagged).
End upload.

(* -------------------------------------------------------------------- *)
(** ** Reasoning about runs *)

(** The calls of a trace were each allowed by what came before them. *)
Definition guarded (G : list event → call → Prop) (tr : list event) : Prop :=
  ∀ l c r l', tr = l ++ Asked c r :: l' → G l c.

Lemma guarded_nil G : guarded G [].
Proof. intros [] c r l' E; simplify_list_eq. Qed.

Lemma guarded_snoc G tr c r : guarded G tr → G tr c → guarded G (tr ++ [Asked c r]).
Proof.
  intros Ht Hc l c' r' l' E. destruct l' as [|e l' _] using rev_ind.
  - by apply app_inj_tail in E as [-> [= -> _]].
  - rewrite app_comm_cons, app_assoc in E. apply app_inj_tail in E as [E _]. by eapply Ht.
Qed.

(** Whatever is answered, the calls stay allowed and the end satisfies [Q]. *)
Fixpoint wp {A} (G : list event → call → Prop) (p : prog A) (tr : list event) (Q : list event → A → Prop) : Prop :=
  match p with
  | Return a => Q tr a
  | Call c k => G tr c ∧ ∀ r, wp G (k r) (tr ++ [Asked c r]) Q
  end.

Lemma wp_run {A} G (p : prog A) tr Q env :
  wp G p tr Q → guarded G tr → guarded G (run_prog env p tr).1 ∧ Q (run_prog env p tr).1 (run_prog env p tr).2.
Proof.
  revert tr. induction p as [a|c k IH]; intros tr Hw Hg; [done|].
  destruct Hw as [Hc Hk]. simpl. apply IH; [apply Hk|by apply guarded_snoc].
Qed.

Lemma wp_mono {A} G (p : prog A) tr Q Q' :
  wp G p tr Q → (∀ tr a, Q tr a → Q' tr a) → wp G p tr Q'.
Proof.
  intros Hw HQ. revert tr Hw. induction p as [a|c k IH]; intros tr Hw; [by apply HQ|].
  destruct Hw as [Hc Hk]. split; [done|]. intros r. by apply IH.
Qed.

Lemma wp_bind {A B} G (p : prog A) (k : A → prog B) tr Q :
  wp G p tr (λ tr a, wp G (k a) tr Q) → wp G (p ≫= k) tr Q.
Proof.
  revert tr. induction p as [a|c h IH]; intros tr Hw; [done|].
  destruct Hw as [Hc Hk]. split; [done|]. intros r. by apply IH.
Qed.

Lemma wp_ret {A} G (a : A) tr (Q : list event → A → Prop) : Q tr a → wp G (mret a) tr Q.
Proof. done. Qed.

Lemma wp_ask {B} G c (k : answer c → prog B) tr Q :
  G tr c → (∀ r, wp G (k r) (tr ++ [Asked c r]) Q) → wp G (ask c ≫= k) tr Q.
Proof. done. Qed.

(** Something of the trace answers a description. *)
Definition heard (P : ∀ c, answer c → Prop) (tr : list event) : Prop :=
  Exists (λ e, match e with Asked c r => P c r end) tr.

Lemma heard_snoc P tr c r : heard P (tr ++ [Asked c r]) ↔ heard P tr ∨ P c r.
Proof. unfold heard. rewrite Exists_app, Exists_cons, Exists_nil. naive_solver. Qed.

Lemma heard_nil P : ¬ heard P [].
Proof. by intros H%Exists_nil. Qed.

(** A call, then what follows it. *)
Ltac step :=
  lazymatch goal with
  | |- wp _ (mret _) _ _ => apply wp_ret
  | |- wp _ (ask _ ≫= _) _ _ => let r := fresh "r" in apply wp_ask; [|intros r]
  end.

(* -------------------------------------------------------------------- *)
(** ** What a blob's result rests on *)

(** The target has the blob, says its own HEAD. *)
Definition found (dgst : string) (c : call) : answer c → Prop :=
  match c with
  | stat_blob d => λ r, d = dgst ∧ ∃ desc, r = inr desc
  | _ => λ _, False
  end.

(** The target linked the blob from another of its repositories. *)
Definition linked (dgst : string) (c : call) : answer c → Prop :=
  match c with
  | mount_blob d _ => λ r, d = dgst ∧ r = None
  | _ => λ _, False
  end.

(** The target does not have the blob, says its own HEAD. *)
Definition absent (dgst : string) (c : call) : answer c → Prop :=
  match c with
  | stat_blob d => λ r, d = dgst ∧ ∃ err, r = inl err ∧ Is err ErrNotFound = true
  | _ => λ _, False
  end.

(** The target was asked whether it mounts, and answered [b]. *)
Definition mounts (b : bool) (c : call) : answer c → Prop :=
  match c with
  | capabilities => λ r, r = b
  | _ => λ _, False
  end.

(** The target declined to link the blob from [from]. *)
Definition declined (dgst from : string) (c : call) : answer c → Prop :=
  match c with
  | mount_blob d f => λ r, d = dgst ∧ f = from ∧ is_Some r
  | _ => λ _, False
  end.

(** The source's body was opened. *)
Definition opened (dgst : string) (c : call) : answer c → Prop :=
  match c with
  | fetch_blob d => λ r, d = dgst ∧ r = None
  | _ => λ _, False
  end.

Section facts.
Context (parse_digest : string → option Fault) (verifies : string → string → bool) (digest_of : string → string).

(** The target took the blob, and what the source sent is the blob. *)
Definition delivered (dgst : string) (size moved : Z) (c : call) : answer c → Prop :=
  match c with
  | push_blob d n => λ p, d = dgst ∧ n = size ∧ ps_answer p = None ∧ verifies dgst (words (ps_reads p).*1) = true ∧
                          moved = foldr Z.add 0 (ps_handed p)
  | _ => λ _, False
  end.

(** Nothing cheaper has answered. *)
Definition unanswered (job : Job) (tr : list event) : Prop :=
  ¬ heard (found (eg_Digest job)) tr ∧ ¬ heard (linked (eg_Digest job)) tr.

(** The first step is behind: unless a repair distrusts it, no placement was
    known and the target said that the blob is not there. *)
Definition checked (job : Job) (tr : list event) : Prop :=
  eg_RepairLevel job < RepairDistrustCache →
  eg_KnownPlacement job = false ∧ heard (absent (eg_Digest job)) tr.

(** The second is behind: unless a repair leaves only the stream, the target was
    asked whether it mounts, and if it does it declined both ways that apply. *)
Definition mounts_tried (job : Job) (tr : list event) : Prop :=
  eg_RepairLevel job < RepairStreamOnly →
  heard (mounts false) tr ∨
  heard (mounts true) tr ∧
    (eg_MountFrom job ≠ "" → heard (declined (eg_Digest job) (eg_MountFrom job)) tr) ∧
    (EqualFold (pl_Registry (eg_Source job)) (pl_Registry (eg_Target job)) = true →
     heard (declined (eg_Digest job) (pl_Path (eg_Source job))) tr).

(** The calls a blob's job may make, and what must have been asked, and how
    answered, before each: the HEAD first, then the mounts, then the stream; and
    nothing of a step the repair level distrusts. *)
Definition blob_calls (job : Job) (tr : list event) (c : call) : Prop :=
  let level := eg_RepairLevel job in
  match c with
  | stat_blob d => d = eg_Digest job ∧ level < RepairDistrustCache ∧ eg_KnownPlacement job = false ∧ tr = []
  | capabilities => level < RepairStreamOnly ∧ checked job tr ∧ unanswered job tr
  | mount_blob d from =>
      d = eg_Digest job ∧ level < RepairStreamOnly ∧ checked job tr ∧ unanswered job tr ∧
      heard (mounts true) tr ∧
      (from = eg_MountFrom job ∧ from ≠ "" ∨
       from = pl_Path (eg_Source job) ∧
       EqualFold (pl_Registry (eg_Source job)) (pl_Registry (eg_Target job)) = true ∧
       (eg_MountFrom job ≠ "" → heard (declined (eg_Digest job) (eg_MountFrom job)) tr))
  | fetch_blob d => d = eg_Digest job ∧ checked job tr ∧ mounts_tried job tr ∧ unanswered job tr
  | push_blob d n => d = eg_Digest job ∧ n = eg_SizeBytes job ∧ heard (opened (eg_Digest job)) tr
  | _ => False
  end.

(** What a skip rests on. *)
Definition skip_evidence (job : Job) (tr : list event) (reason : string) : Prop :=
  reason = SkipPlacementHit ∧ eg_KnownPlacement job = true ∧ eg_RepairLevel job < RepairDistrustCache ∧ tr = [] ∨
  reason = SkipExistsAtTarget ∧ heard (found (eg_Digest job)) tr ∨
  reason = SkipMounted ∧ heard (linked (eg_Digest job)) tr.

(** What a blob's result says, and what it rests on. *)
Definition blob_claim (job : Job) (tr : list event) (r : Result) : Prop :=
  match re_Outcome r with
  | OutcomeFailed => re_SkipReason r = "" ∧ re_Placed r = false ∧ re_ErrorClass r ≠ "" ∧ is_Some (re_Err r)
  | OutcomeSkipped =>
      re_Placed r = true ∧ re_BytesMoved r = 0 ∧ skip_evidence job tr (re_SkipReason r)
  | OutcomeSucceeded =>
      re_SkipReason r = "" ∧ re_Placed r = true ∧ heard (delivered (eg_Digest job) (eg_SizeBytes job) (re_BytesMoved r)) tr
  end.

Lemma classify_some err : classify err ≠ "".
Proof. unfold classify. destruct (_ || _); [done|]. by destruct (ClassOf _). Qed.

Lemma failed_claim job tr err what : blob_claim job tr (failed err what).
Proof. split; [done|]. split; [done|]. split; [apply classify_some|]. unfold failed. simpl. eauto. Qed.

Lemma skipped_claim job tr reason : skip_evidence job tr reason → blob_claim job tr (skipped reason true).
Proof. by intros. Qed.

Lemma heard_app P tr c r : heard P tr → heard P (tr ++ [Asked c r]).
Proof. intros H. apply heard_snoc. by left. Qed.

Lemma unanswered_snoc job tr c r :
  unanswered job tr → ¬ found (eg_Digest job) c r → ¬ linked (eg_Digest job) c r →
  unanswered job (tr ++ [Asked c r]).
Proof. intros [Hf Hl] H1 H2. by split; intros [|]%heard_snoc. Qed.

Lemma checked_snoc job tr c r : checked job tr → checked job (tr ++ [Asked c r]).
Proof. intros Hc Hl. destruct (Hc Hl). split; [done|by apply heard_app]. Qed.

Lemma already_there_wp job Q :
  (∀ tr r, blob_claim job tr r → Q tr (Some r)) →
  (∀ tr, unanswered job tr → checked job tr → Q tr None) →
  wp (blob_calls job) (already_there job) [] Q.
Proof.
  intros Hsome Hnone. unfold already_there. destruct (Z.ltb_spec (eg_RepairLevel job) RepairDistrustCache) as [Hl|Hl].
  - destruct (eg_KnownPlacement job) eqn:Ek.
    + apply wp_ret, Hsome, skipped_claim. by left.
    + step; [by unfold blob_calls|]. apply wp_ret. destruct r as [err|desc].
      * destruct (Is err ErrNotFound) eqn:Ei; [|apply Hsome, failed_claim]. apply Hnone.
        { apply unanswered_snoc; [split; apply heard_nil|simpl; naive_solver|by intros []]. }
        { intros _. split; [done|]. apply heard_snoc. right. split; [done|]. eauto. }
      * apply Hsome, skipped_claim. right. left. split; [done|]. apply heard_snoc. right. split; [done|]. eauto.
  - apply wp_ret, Hnone; [split; apply heard_nil|]. intros ?. lia.
Qed.

Lemma mountFrom_wp job tr from Q :
  unanswered job tr →
  blob_calls job tr (mount_blob (eg_Digest job) from) →
  (∀ tr r, blob_claim job tr r → Q tr (Some r)) →
  (∀ err, let tr' := tr ++ [Asked (mount_blob (eg_Digest job) from) (Some err)] in
     unanswered job tr' → heard (declined (eg_Digest job) from) tr' → Q tr' None) →
  wp (blob_calls job) (mountFrom job from) tr Q.
Proof.
  intros Hu Hc Hsome Hnone. unfold mountFrom. step; [done|]. apply wp_ret. destruct r as [err|].
  - apply Hnone; [apply unanswered_snoc; [done|by intros []|by intros []]|]. apply heard_snoc. right. split_and!; eauto.
  - apply Hsome, skipped_claim. right. right. split; [done|]. apply heard_snoc. by right.
Qed.

(** The mount of the source's own repository, with the sibling's behind. *)
Lemma mount_source_wp job tr Q :
  unanswered job tr → checked job tr → eg_RepairLevel job < RepairStreamOnly → heard (mounts true) tr →
  (eg_MountFrom job ≠ "" → heard (declined (eg_Digest job) (eg_MountFrom job)) tr) →
  (∀ tr r, blob_claim job tr r → Q tr (Some r)) →
  (∀ tr, unanswered job tr → checked job tr → mounts_tried job tr → Q tr None) →
  wp (blob_calls job)
    (if sameRegistry (eg_Source job) (eg_Target job) then mountFrom job (pl_Path (eg_Source job)) else mret None) tr Q.
Proof.
  intros Hu Hck Hlevel Hm Hd Hsome Hnone. unfold sameRegistry.
  destruct (EqualFold _ _) eqn:E.
  - apply mountFrom_wp; [done| |done|].
    + simpl. split_and!; try done. by right.
    + intros err tr' Hu' Hdec. apply Hnone; [done|by apply checked_snoc|]. intros _. right.
      split; [by apply heard_app|]. split; [intros Hne; by apply heard_app, Hd|done].
  - apply wp_ret, Hnone; [done|done|]. intros _. right. split; [done|]. split; [done|]. by rewrite E.
Qed.

Lemma tryMount_wp job tr Q :
  unanswered job tr → checked job tr → eg_RepairLevel job < RepairStreamOnly →
  (∀ tr r, blob_claim job tr r → Q tr (Some r)) →
  (∀ tr, unanswered job tr → checked job tr → mounts_tried job tr → Q tr None) →
  wp (blob_calls job) (tryMount job) tr Q.
Proof.
  intros Hu Hck Hlevel Hsome Hnone. unfold tryMount. step; [done|].
  assert (unanswered job (tr ++ [Asked capabilities r])) as Hu'
    by (apply unanswered_snoc; [done|by intros []..]).
  pose proof (checked_snoc job tr capabilities r Hck) as Hck'.
  assert (heard (mounts r) (tr ++ [Asked capabilities r])) as Hm by (apply heard_snoc; by right).
  destruct r; [|apply wp_ret, Hnone; [done|done|by left]]. simpl negb. apply wp_bind.
  destruct (String.eqb_spec (eg_MountFrom job) "") as [E|E]; [by apply wp_ret, mount_source_wp|].
  apply mountFrom_wp; [done| | |].
  - simpl. split_and!; try done. by left.
  - intros tr' r Hr. by apply wp_ret, Hsome.
  - intros err tr' Hu2 Hdec. apply mount_source_wp; try done; [by apply checked_snoc|by apply heard_app].
Qed.

Lemma stream_wp job tr Q :
  blob_calls job tr (fetch_blob (eg_Digest job)) →
  (∀ tr r, blob_claim job tr r → Q tr r) →
  wp (blob_calls job) (stream_result parse_digest verifies job) tr Q.
Proof.
  intros Hc HQ. unfold stream_result, stream. apply wp_bind. step; [done|].
  assert (∀ tr moved err, Q tr ((failed err "stream blob") <| re_BytesMoved := moved |>)) as Hf.
  { intros. apply HQ. split; [done|]. split; [done|]. split; [apply classify_some|]. simpl. eauto. }
  destruct r as [err|]; [by apply wp_ret, Hf|].
  destruct (parse_digest _) as [err|]; [by apply wp_ret, Hf|].
  step; [split; [done|]; split; [done|]; apply heard_snoc; by right|].
  apply wp_ret. destruct (ps_answer r) as [err|] eqn:Ea; [by apply wp_ret, Hf|].
  destruct (verifies _ _) eqn:Ev; [|by apply wp_ret, Hf].
  apply wp_ret, HQ. split; [done|]. split; [done|]. apply heard_snoc. by right.
Qed.

Lemma runBlob_wp job : wp (blob_calls job) (runBlob parse_digest verifies job) [] (blob_claim job).
Proof.
  unfold runBlob. apply wp_bind, already_there_wp; [by intros; apply wp_ret|].
  intros tr Hu Hck. apply wp_bind.
  assert (∀ tr, unanswered job tr → checked job tr → mounts_tried job tr →
    wp (blob_calls job) (stream_result parse_digest verifies job) tr (blob_claim job)) as Hs.
  { intros tr' Hu' Hck' Ht. apply stream_wp; done. }
  destruct (Z.ltb_spec (eg_RepairLevel job) RepairStreamOnly) as [|Hl].
  - apply tryMount_wp; [done|done|done|intros; by apply wp_ret|done].
  - apply wp_ret, Hs; [done|done|]. intros ?. lia.
Qed.

(** C20. A blob's result is never a guess.  Whatever the two registries answer: a
    skip rests on a placement the job was trusted with, on the target's own word
    or on a mount it carried out; a success on a push it accepted of bytes that
    are the blob's; the bytes reported are those handed to that push; everything
    else is a classified failure.  And the ladder is climbed in order: the HEAD
    comes first; a mount is asked for only after the HEAD said the blob is not
    there and the target said it mounts, the source's own repository only after
    the sibling's declined; the source is opened only after the HEAD and every
    mount that applies have been asked and none has answered; bytes are pushed
    only once the source is open.  A repaired job skips the steps its level
    distrusts, and nothing else. *)
Theorem blob_claims_rest_on_evidence env job :
  let '(tr, r) := run_prog env (runBlob parse_digest verifies job) [] in
  blob_claim job tr r ∧ guarded (blob_calls job) tr.
Proof.
  destruct (wp_run _ _ _ _ env (runBlob_wp job) (guarded_nil _)) as [Hg HQ].
  by destruct (run_prog _ _ _) as [tr r].
Qed.

(* -------------------------------------------------------------------- *)
(** ** What a manifest's result rests on *)

(** The target serves the manifest. *)
Definition present (dgst : string) (c : call) : answer c → Prop :=
  match c with
  | fetch_manifest Target ref => λ r, ref = dgst ∧ ∃ x, r = inr x
  | _ => λ _, False
  end.

(** The source served these bytes. *)
Definition served (dgst raw : string) (c : call) : answer c → Prop :=
  match c with
  | fetch_manifest Source ref => λ r, ref = dgst ∧ ∃ desc, r = inr (desc, raw)
  | _ => λ _, False
  end.

(** The target stored the manifest, under its own digest. *)
Definition stored (dgst : string) (moved : Z) (c : call) : answer c → Prop :=
  match c with
  | push_manifest ref _ raw => λ r, ref = dgst ∧ moved = Z.of_nat (String.length raw) ∧
      ∃ desc, r = inr desc ∧ (d_Digest desc = "" ∨ d_Digest desc = dgst)
  | _ => λ _, False
  end.

(** The target said that something the manifest needs is not there. *)
Definition lacking (dgst : string) (c : call) : answer c → Prop :=
  match c with
  | push_manifest ref _ _ => λ r, ref = dgst ∧ ∃ err, r = inl err ∧ Is err ErrNotFound = true
  | _ => λ _, False
  end.

(** The tag names the manifest at the target, or was just put on it. *)
Definition names (dgst tag : string) (c : call) : answer c → Prop :=
  match c with
  | resolve_tag t => λ r, t = tag ∧ ∃ desc, r = inr desc ∧ d_Digest desc = dgst
  | apply_tag d t => λ r, t = tag ∧ d = dgst ∧ r = None
  | _ => λ _, False
  end.

Definition committed (job : Job) (tr : list event) : Prop :=
  heard (present (eg_Digest job)) tr ∨ ∃ moved, heard (stored (eg_Digest job) moved) tr.

Definition manifest_calls (job : Job) (tr : list event) (c : call) : Prop :=
  match c with
  | fetch_manifest _ ref => ref = eg_Digest job
  | push_manifest ref mediaType raw =>
      ref = eg_Digest job ∧ mediaType = eg_MediaType job ∧ digest_of raw = eg_Digest job ∧
      heard (served (eg_Digest job) raw) tr
  | resolve_tag tag => tag ∈ eg_Tags job ∧ tag ≠ "" ∧ committed job tr
  | apply_tag d tag => d = eg_Digest job ∧ tag ∈ eg_Tags job ∧ tag ≠ "" ∧ committed job tr
  | _ => False
  end.

Definition all_named (job : Job) (tr : list event) : Prop :=
  ∀ tag, tag ∈ eg_Tags job → tag ≠ "" → heard (names (eg_Digest job) tag) tr.

Definition manifest_claim (job : Job) (tr : list event) (r : Result) : Prop :=
  re_Placed r = false ∧
  (re_ErrorClass r = ClassBlobUnknown → heard (lacking (eg_Digest job)) tr) ∧
  match re_Outcome r with
  | OutcomeFailed => re_SkipReason r = "" ∧ re_ErrorClass r ≠ "" ∧ is_Some (re_Err r)
  | OutcomeSkipped => re_SkipReason r = SkipExistsAtTarget ∧ re_BytesMoved r = 0 ∧
      heard (present (eg_Digest job)) tr ∧ all_named job tr
  | OutcomeSucceeded => re_SkipReason r = "" ∧ heard (stored (eg_Digest job) (re_BytesMoved r)) tr ∧ all_named job tr
  end.

Lemma heard_prefix P tr tr' : heard P tr → tr `prefix_of` tr' → heard P tr'.
Proof. intros H [l ->]. apply Exists_app. by left. Qed.

Lemma committed_prefix job tr tr' : committed job tr → tr `prefix_of` tr' → committed job tr'.
Proof. intros [H|[moved H]] Hp; [left|right; exists moved]; by eapply heard_prefix. Qed.

Lemma classify_not_unknown err : classify err ≠ ClassBlobUnknown.
Proof. unfold classify. destruct (_ || _); [done|]. by destruct (ClassOf _). Qed.

Lemma failed_manifest_claim job tr err what : manifest_claim job tr (failed err what).
Proof.
  split; [done|]. split; [by intros H%classify_not_unknown|].
  split; [done|]. split; [apply classify_some|]. unfold failed. simpl. eauto.
Qed.

Lemma applyTags_wp job tags tr Q :
  committed job tr → tags ⊆ eg_Tags job →
  (∀ tr' err, tr `prefix_of` tr' → Q tr' (Some err)) →
  (∀ tr', tr `prefix_of` tr' → (∀ tag, tag ∈ tags → tag ≠ "" → heard (names (eg_Digest job) tag) tr') → Q tr' None) →
  wp (manifest_calls job) (applyTags (eg_Digest job) tags) tr Q.
Proof.
  intros Hc Hsub Hsome Hnone. revert tr Hc Hsome Hnone. induction tags as [|tag tags IH]; intros tr Hc Hsome Hnone.
  { apply wp_ret, Hnone; [done|]. intros tag Hin. by apply elem_of_nil in Hin. }
  assert (tags ⊆ eg_Tags job) as Hsub' by (intros x Hx; apply Hsub; by right).
  assert (tag ∈ eg_Tags job) as Hin by (apply Hsub; left). specialize (IH Hsub').
  cbn [applyTags]. destruct (String.eqb_spec tag "") as [Et|Et].
  { apply IH; [done|done|]. intros tr' Hp Hn. apply Hnone; [done|]. intros x [->|Hx]%elem_of_cons; [done|by apply Hn]. }
  assert (∀ tr', tr `prefix_of` tr' → heard (names (eg_Digest job) tag) tr' →
    wp (manifest_calls job) (applyTags (eg_Digest job) tags) tr' Q) as Hrest.
  { intros tr' Hp Hn. apply IH; [by eapply committed_prefix|intros; by apply Hsome; etrans|].
    intros tr2 Hp2 Hn2. apply Hnone; [by etrans|]. intros x [->|Hx]%elem_of_cons Hne; [by eapply heard_prefix|by apply Hn2]. }
  unfold tagIsCurrent. apply wp_bind. step; [done|]. apply wp_ret.
  set (tr1 := tr ++ _). assert (tr `prefix_of` tr1) as Hp1 by apply prefix_app_r, reflexivity.
  destruct (match r with inl _ => _ | inr _ => _ end) eqn:Er.
  { destruct r as [|desc]; [done|]. apply Hrest; [done|]. apply heard_snoc. right. split; [done|].
    exists desc. split; [done|]. by apply String.eqb_eq. }
  step; [split; [done|]; split; [done|]; split; [done|]; by eapply committed_prefix|].
  set (tr2 := tr1 ++ _). assert (tr `prefix_of` tr2) as Hp2 by (etrans; [exact Hp1|apply prefix_app_r, reflexivity]).
  destruct r0 as [err|].
  - unfold tagState. apply wp_bind. step; [split; [done|]; split; [done|]; by eapply committed_prefix|].
    apply wp_ret, wp_ret, Hsome. etrans; [exact Hp2|apply prefix_app_r, reflexivity].
  - apply Hrest; [done|]. apply heard_snoc. right. split; [done|]. done.
Qed.

Lemma tag_and_wp job done tr :
  committed job tr →
  (∀ tr', tr `prefix_of` tr' → all_named job tr' → manifest_claim job tr' done) →
  wp (manifest_calls job) (tag_and job done) tr (manifest_claim job).
Proof.
  intros Hc Hd. unfold tag_and. apply wp_bind, applyTags_wp; [done|done| |].
  - intros. apply wp_ret, failed_manifest_claim.
  - intros tr' Hp Hn. by apply wp_ret, Hd.
Qed.

Lemma runManifest_wp job :
  wp (manifest_calls job) (runManifest digest_of job) [] (manifest_claim job).
Proof.
  unfold runManifest. step; [done|]. destruct r as [err|x].
  - unfold manifestBytes. apply wp_bind. step; [done|]. apply wp_ret.
    destruct r as [e|[desc raw]]; [apply wp_ret, failed_manifest_claim|].
    destruct (String.eqb_spec (digest_of raw) (eg_Digest job)) as [Ed|].
    2: { apply wp_ret. by split. }
    unfold push_verbatim. step.
    { split; [done|]. split; [done|]. split; [done|]. apply heard_snoc. right. split; [done|]. by exists desc. }
    destruct r as [e|pushed].
    + apply wp_ret. destruct (Is e ErrNotFound) eqn:En; [|apply failed_manifest_claim].
      split; [done|]. split; [|split; [done|]; simpl; eauto]. intros _. apply heard_snoc. right. split; [done|]. by exists e.
    + destruct (negb _ && negb _) eqn:En; [apply wp_ret; by split|].
      assert (∀ tr, heard (stored (eg_Digest job) (Z.of_nat (String.length raw)))
        (tr ++ [Asked (push_manifest (eg_Digest job) (eg_MediaType job) raw) (inr pushed)])) as Hs.
      { intros tr. apply heard_snoc. right. split; [done|]. split; [done|]. exists pushed. split; [done|].
        apply andb_false_iff in En as [En|En]; apply negb_false_iff, String.eqb_eq in En; auto. }
      apply tag_and_wp; [right; eexists; apply Hs|]. intros tr' Hp Hn. split; [done|]. split; [done|].
      split; [done|]. split; [|done]. by eapply heard_prefix.
  - assert (heard (present (eg_Digest job)) ([] ++ [Asked (fetch_manifest Target (eg_Digest job)) (inr x)])) as Hh.
    { apply heard_snoc. right. split; [done|]. by exists x. }
    apply tag_and_wp; [by left|]. intros tr' Hp Hn. do 4 (split; [done|]). split; [|done].
    by eapply heard_prefix.
Qed.

(** The skip reasons the queue accepts. *)
Definition skip_reasons : list string := [""; SkipPlacementHit; SkipExistsAtTarget; SkipMounted].

(** What a finished job says, by its kind; the time it took is the clock's. *)
Definition claim (job : Job) (tr : list event) (r : Result) : Prop :=
  if String.eqb (eg_Kind job) "blob" then blob_claim job tr r
  else if String.eqb (eg_Kind job) "manifest" then manifest_claim job tr r
  else re_Outcome r = OutcomeFailed.

Lemma run_prog_bind {A B} env (p : prog A) (k : A → prog B) tr :
  run_prog env (p ≫= k) tr = let '(tr', a) := run_prog env p tr in run_prog env (k a) tr'.
Proof. revert tr. induction p as [a|c h IH]; intros tr; [done|]. apply IH. Qed.

Lemma Run_claim env elapsed job :
  let '(tr, r) := run_prog env (Run parse_digest verifies digest_of elapsed job) [] in
  claim job tr r ∧ re_SkipReason r ∈ skip_reasons.
Proof.
  unfold Run, claim. rewrite run_prog_bind. destruct (String.eqb (eg_Kind job) "blob").
  - destruct (wp_run _ _ _ _ env (runBlob_wp job) (guarded_nil _)) as [_ HQ].
    destruct (run_prog _ _ _) as [tr r]. simpl in *. split; [exact HQ|].
    unfold blob_claim, skip_evidence, skip_reasons in *. destruct (re_Outcome r); set_solver.
  - destruct (String.eqb (eg_Kind job) "manifest").
    + destruct (wp_run _ _ _ _ env (runManifest_wp job) (guarded_nil _)) as [_ HQ].
      destruct (run_prog _ _ _) as [tr r]. simpl in *. split; [exact HQ|]. destruct HQ as (_ & _ & HQ).
      unfold skip_reasons. destruct (re_Outcome r), HQ as [-> _]; set_solver.
    + simpl. split; [done|]. left.
Qed.

(** C21. Names come last, and bytes are verbatim.  Whatever the two registries
    answer: no tag is looked at or written before the target serves the manifest
    or has stored it under its own digest; what is pushed is, byte for byte, what
    the source served under that digest; a job that is done has every name it
    was given on the manifest; and blobs are reported unknown only when the
    target said so. *)
Theorem names_come_last env job :
  let '(tr, r) := run_prog env (runManifest digest_of job) [] in
  manifest_claim job tr r ∧ guarded (manifest_calls job) tr.
Proof.
  destruct (wp_run _ _ _ _ env (runManifest_wp job) (guarded_nil _)) as [Hg HQ].
  by destruct (run_prog _ _ _) as [tr r].
Qed.
End facts.

(* -------------------------------------------------------------------- *)
(** ** What uploads come to *)

Section upload_facts.
Context (StatusText : Z → string) (host repoPath : string).

(** The response's first decisive code. *)
Definition decided (resp : ErrorResponse) : option Cause := head (omap code_sentinel (er_Errors resp)).

Lemma upload_failure_response e what resp :
  up_Response e = Some resp →
  ft_Wraps (upload_failure StatusText host repoPath e what) = [sentinelFor resp].
Proof. intros E. unfold upload_failure. by rewrite E. Qed.

Lemma code_sentinel_cases e c :
  code_sentinel e = Some c →
  c ∈ [ErrNotFound; ErrUnauthorized; ErrForbidden; ErrDigestMismatch; ErrUnsupported].
Proof. unfold code_sentinel. destruct (ei_Code e), (reportsAMissingBlob e); intros [= <-]; set_solver. Qed.

Lemma decided_cases resp c :
  decided resp = Some c → c ∈ [ErrNotFound; ErrUnauthorized; ErrForbidden; ErrDigestMismatch; ErrUnsupported].
Proof.
  unfold decided. intros H. assert (c ∈ omap code_sentinel (er_Errors resp)) as Hin
    by (destruct (omap _ _); [done|]; simplify_eq/=; left).
  apply list_elem_of_omap in Hin as (e & _ & He). by eapply code_sentinel_cases.
Qed.

(** An upload the registry answered is never unclassified: the first code
    that means something decides, and the status only where no code does.  It is
    worth another attempt only when the registry is overloaded or failing, or
    says the bytes did not hash; and a code that says something the upload needs
    is missing, in its name or in its prose, comes back as missing. *)
Theorem answered_uploads_are_classified e what resp :
  up_Response e = Some resp →
  let err := upload_failure StatusText host repoPath e what in
  ClassOf (Some err) ≠ ClassUnclassified ∧
  (Retryable (Some err) = true →
    decided resp = Some ErrDigestMismatch ∨
    decided resp = None ∧ (er_StatusCode resp = 429 ∨ 500 ≤ er_StatusCode resp)) ∧
  (∀ cause, decided resp = Some cause → ft_Wraps err = [cause]) ∧
  (∀ item rest, er_Errors resp = item :: rest →
    ei_Code item ∈ [BlobUnknown; ManifestBlobUnknown; ManifestUnknown; NameUnknown] ∨
    ei_Code item ∈ [ManifestInvalid; NameInvalid; CodeUnsupported] ∧ reportsAMissingBlob item = true →
    Is err ErrNotFound = true).
Proof.
  intros E err. assert (ft_Wraps err = [sentinelFor resp]) as Hw by by apply upload_failure_response.
  assert (∀ c, sentinelFor resp = c → ft_Wraps err = [c]) as Hs by (intros c <-; done).
  assert (sentinelFor resp = match decided resp with Some c => c | None => default ErrUnsupported (ClassifyStatus (er_StatusCode resp)) end)
    as Ed by done.
  split_and!.
  - unfold ClassOf, Is. rewrite Hw, Ed. destruct (decided resp) as [c|] eqn:Hd.
    + apply decided_cases in Hd. repeat (apply elem_of_cons in Hd as [->|Hd]; [done|]). by apply elem_of_nil in Hd.
    + unfold ClassifyStatus. by repeat case_match.
  - unfold Retryable, ClassOf, Is. rewrite Hw, Ed. destruct (decided resp) as [c|] eqn:Hd.
    + apply decided_cases in Hd. repeat (apply elem_of_cons in Hd as [->|Hd]; [intros H; by (done || left)|]).
      by apply elem_of_nil in Hd.
    + intros H. right. split; [done|]. revert H. unfold ClassifyStatus.
      repeat match goal with |- context [if Z.eqb ?a ?b then _ else _] => destruct (Z.eqb_spec a b); [by (done || left)|] end.
      destruct (Z.leb_spec 500 (er_StatusCode resp)); [by right|]. by destruct (400 <=? _).
  - intros c Hd. by rewrite Hw, Ed, Hd.
  - intros item rest Hi Hcode. unfold Is. rewrite Hw, Ed. unfold decided. rewrite Hi. cbn [omap list_omap].
    assert (code_sentinel item = Some ErrNotFound) as ->; [|done].
    unfold code_sentinel. destruct Hcode as [Hc|[Hc ->]]; by destruct (ei_Code item); set_solver.
Qed.
End upload_facts.

(** A manifest the target rejects for a missing blob, however it says so, comes
    back under the class the Coordinator repairs, with the full budget. *)
Lemma a_missing_blob_is_reported (env : list event → ∀ c, answer c) StatusText host repoPath digest_of job raw tr e resp item rest :
  repoPath ≠ "" →
  env tr (push_manifest (eg_Digest job) (eg_MediaType job) raw) =
    PushManifest StatusText host repoPath digest_of (eg_Digest job) (eg_MediaType job) raw (inl e) →
  up_AlreadyExists e = false → up_Response e = Some resp → er_Errors resp = item :: rest →
  code_sentinel item = Some ErrNotFound →
  let r := (run_prog env (push_verbatim job raw) tr).2 in
  re_ErrorClass r = ClassBlobUnknown ∧ MaxAttemptsFor (re_ErrorClass r) = AttemptsTransient.
Proof.
  intros Hp Henv Hx Hr Hi Hc. assert (re_ErrorClass (run_prog env (push_verbatim job raw) tr).2 = ClassBlobUnknown) as E.
  { unfold push_verbatim, ask. cbn [mbind prog_bind run_prog]. rewrite Henv. unfold PushManifest, through, orasRepo.
    rewrite (proj2 (String.eqb_neq _ _) Hp), Hx.
    set (err := upload_failure _ _ _ _ _). assert (Is err ErrNotFound = true) as HIs.
    { unfold Is. subst err. rewrite (upload_failure_response _ _ _ _ _ resp Hr). unfold sentinelFor. rewrite Hi.
      cbn [omap list_omap]. by rewrite Hc. }
    cbn [mbind prog_bind]. rewrite HIs. done. }
  intros r. change (re_ErrorClass r) with (re_ErrorClass (run_prog env (push_verbatim job raw) tr).2). by rewrite E.
Qed.

(* -------------------------------------------------------------------- *)
(** ** Examples *)

Example human_sizes :
  (humanBytes (-1), humanBytes 1023, humanBytes 1536, humanBytes 42676224, humanBytes (2 ^ 63 - 1)) =
  ("an unknown amount", "1023 B", "1.5 KiB", "40.7 MiB", "8192.0 PiB").
Proof. vm_compute. reflexivity. Qed.

Definition toy_job (level : Z) (mount : string) (tags : list string) : Job :=
  mkJob 1 "t" "blob" "sha256:aa" 100 "layer" 1 (mkPlace "vendor" "orbs/x") (mkPlace "near" "orbs/x")
    false mount level tags.

(** A target without the blob that answers every push as told. *)
Definition toy_target (push : pushing) (tr : list event) (c : call) : answer c :=
  match c with
  | capabilities => true
  | stat_blob _ => inl (sentinel ErrNotFound)
  | mount_blob _ _ => Some (sentinel ErrMountUnsupported)
  | fetch_blob _ => None
  | push_blob _ _ => push
  | fetch_manifest Target _ => inl (sentinel ErrNotFound)
  | fetch_manifest Source _ => inr (mkDescriptor "" "sha256:aa" 2 "" ∅ None, "{}")
  | push_manifest _ _ _ => inr (mkDescriptor "" "sha256:aa" 2 "" ∅ None)
  | resolve_tag _ => inl (sentinel ErrNotFound)
  | apply_tag _ _ => None
  end.

Definition toy_blob (push : pushing) : Result :=
  (run_prog (toy_target push) (runBlob (λ _, None) (λ _ body, String.eqb body "bytes") (toy_job 0 "orbs/y" [])) []).2.

(** A target that refuses the upload before reading any of it: the source is
    blamed, and a refused credential is tried eight times rather than once. *)
Example a_refusal_blames_the_source :
  let r := toy_blob (mkPushing [] [] (Some (sentinel ErrUnauthorized))) in
  (re_ErrorClass r, MaxAttemptsFor (re_ErrorClass r), MaxAttemptsFor (classify (sentinel ErrUnauthorized))) =
  ("network", 8, 1).
Proof. vm_compute. reflexivity. Qed.

(** A target that has the blob already and reads nothing: the source is said to
    have served other content. *)
Example content_already_there_is_called_corrupt :
  re_ErrorClass (toy_blob (mkPushing [] [] None)) = "integrity".
Proof. vm_compute. reflexivity. Qed.

Example a_streamed_blob :
  let r := toy_blob (mkPushing [("by", None); ("tes", Some (sentinel EOF))] [4; 1] None) in
  (re_Outcome r, re_BytesMoved r, re_Placed r) = (OutcomeSucceeded, 5, true).
Proof. vm_compute. reflexivity. Qed.

(** The calls of a manifest's job, in order. *)
Example a_named_manifest :
  (λ x, (length x.1, re_Outcome x.2)) (run_prog (toy_target (mkPushing [] [] None))
     (runManifest (λ _, "sha256:aa") (toy_job 0 "" ["1.0"; ""; "latest"])) []) = (7%nat, OutcomeSucceeded).
Proof. vm_compute. reflexivity. Qed.

Lemma answered_uploads_are_classified_witness :
  let resp := mkErrorResponse 400 [mkErrorItem ManifestInvalid "manifest invalid"
                (Some "map[description:Failed to copy blob sha256:aa]")] "" in
  let e := mkUpload (plainf ["rejected"]) (Some resp) false false false in
  Is (upload_failure (λ _, "") "near" "orbs/x" e "push manifest") ErrNotFound = true.
Proof.
  intros resp e.
  apply (proj2 (proj2 (proj2 (answered_uploads_are_classified (λ _, "") "near" "orbs/x" e "push manifest" resp eq_refl)))
           (mkErrorItem ManifestInvalid "manifest invalid" (Some "map[description:Failed to copy blob sha256:aa]")) []);
    [reflexivity|right; split; [left|vm_compute; reflexivity]].
Defined.
