(* ===== verification/Coordinator.v ===== *)
(** * The Coordinator's side of the worker plane

    internal/queue/queue.go (what a lease call, a completion and a heartbeat do
    around the store's transactions), internal/queue/controller.go (the leader's
    background passes) and internal/api/jobs.go (the four routes a worker may
    call).  Bodies reach the handlers decoded: the JSON decoder belongs to the
    standard library, and what it rejects is the first answer of each handler. *)

From S2P Require Import Prelude GoStrings StateMachine Backoff Schema Leasing Completion Recovery Control.
From S2P Require Import Layout Planning Planner Fleet QueueSystem.
Open Scope Z_scope.

(* -------------------------------------------------------------------- *)
(** ** The queue service *)

Definition DefaultLeaseDuration : Z := 2 * Minute.
Definition DefaultReapInterval : Z := 30 * Second.
Definition DefaultIdlePoll : Z := 5 * Second.
Definition DefaultBusyPoll : Z := 1 * Second.

(** New: the duration of a queue's leases. *)
Definition lease_duration_of (configured : Z) : Z :=
  if configured <=? 0 then DefaultLeaseDuration else configured.

(** One job as it goes to a worker. *)
Record Assignment := mkAssignment {
  as_Job : LeasedJob;
  as_Source : Endpoint;
  as_Target : Endpoint;
  as_KnownPlacement : bool;
  as_RepairLevel : Z;
  as_MountFrom : string;
  as_Tags : list string }.

Record LeaseResult := mkLeaseResult {
  lr_Jobs : list Assignment;
  lr_LeaseDuration : Z;
  lr_NextPollAfter : Z }.

(** Looked up once per target repository. *)
Definition lookups {A} (query : Z → A) (js : list LeasedJob) : gmap Z A :=
  foldl (λ m j, match m !! TargetRepoID j with
                | Some _ => m
                | None => <[TargetRepoID j := query (TargetRepoID j)]> m
                end) ∅ js.

Definition off_catalog (j : LeasedJob) (which : string) (repo : Z) : string :=
  words ["job "; FormatInt (ID j); ": "; which; " repository "; FormatInt repo; " is not in the catalog"].

Definition assign (endpoints : gmap Z Endpoint) (placed : gmap Z (gset string))
    (near : gmap Z (gmap string string)) (j : LeasedJob) : string + Assignment :=
  match endpoints !! SourceRepoID j, endpoints !! TargetRepoID j with
  | None, _ => inl (off_catalog j "source" (SourceRepoID j))
  | Some _, None => inl (off_catalog j "target" (TargetRepoID j))
  | Some src, Some dst =>
      let blob := bool_decide (JKind j = KBlob) in
      let repairing := blob && (0 <? RepairLevel j) in
      let known := blob && negb repairing && bool_decide (Digest j ∈ default ∅ (placed !! TargetRepoID j)) in
      let mount := if blob && negb known && (RepairLevel j <? RepairStreamOnly)
                   then default "" (default ∅ (near !! TargetRepoID j) !! Digest j) else "" in
      inr (mkAssignment j src dst known (RepairLevel j) mount (TargetTags j))
  end.

(** The first job that cannot be assigned fails the batch. *)
Fixpoint assign_all (f : LeasedJob → string + Assignment) (js : list LeasedJob) : string + list Assignment :=
  match js with
  | [] => inr []
  | j :: js => match f j with
               | inl err => inl err
               | inr a => match assign_all f js with
                          | inl err => inl err
                          | inr l => inr (a :: l)
                          end
               end
  end.

Definition hydrate (now : Z) (js : list LeasedJob) (db : DB) : string + list Assignment :=
  let repoIDs := js ≫= λ j, [SourceRepoID j; TargetRepoID j] in
  let digests := Digest <$> js in
  assign_all (assign (HydrateEndpoints repoIDs db)
                (lookups (λ repo, PlacedDigests now repo digests db) js)
                (lookups (λ repo, MountableFrom now repo digests db) js)) js.

(** Every job of the batch handed back as a failure of this configuration; one
    that cannot be is left to the reaper. *)
Definition release_completion (workerID cause : string) (j : LeasedJob) : Completion :=
  mkCompletion (ID j) workerID Failed 0 "" ClassConfiguration cause false (Attempt j) 0.

Definition releaseAll (now : Z) (draw : Z → Z) (workerID cause : string) (js : list LeasedJob) (db : DB) : DB :=
  foldl (λ db j, ok_or db (fst <$> CompleteJob now (draw (ID j)) (release_completion workerID cause j) db)) db js.

(** What a lease call is refused for: the store, or a batch that could not be
    hydrated. *)
Inductive Refused := RefusedStore (e : Error) | RefusedBatch (why : string).

Definition Lease (dialect : Driver) (now : Z) (locked : gset Z) (draw : Z → Z) (duration : Z)
    (workerID : string) (capacity activeJobs : Z) (db : DB) : DB * (Refused + LeaseResult) :=
  let db := if activeJobs =? 0 then (RecoverWorkerLeases now workerID db).1 else db in
  match LeaseJobs dialect now locked (mkLeaseRequest workerID capacity duration) db with
  | Err e => (db, inl (RefusedStore e))
  | Ok (db, []) => (db, inr (mkLeaseResult [] duration DefaultIdlePoll))
  | Ok (db, js) =>
      match hydrate now js db with
      | inl why => (releaseAll now draw workerID why js db, inl (RefusedBatch why))
      | inr l => (db, inr (mkLeaseResult l duration DefaultBusyPoll))
      end
  end.

(** The attempt cap of a failure is its class's. *)
Definition with_cap (c : Completion) : Completion :=
  if bool_decide (c_Outcome c = Failed) && (c_MaxAttempts c =? 0)
  then mkCompletion (c_JobID c) (c_Owner c) (c_Outcome c) (c_BytesTransferred c) (c_SkipReason c)
         (c_ErrorClass c) (c_ErrorMsg c) (c_Placed c) (c_Attempt c) (MaxAttemptsFor (c_ErrorClass c))
  else c.

Definition Complete (now draw : Z) (c : Completion) (db : DB) : result (DB * CompletionResult) :=
  CompleteJob now draw (with_cap c) db.

Definition Heartbeat (now duration : Z) (workerID : string) (activeJobs : list Z) (db : DB)
    : DB * (list Z * list Z) :=
  RenewLeases now workerID activeJobs duration (TouchWorker now workerID (Z.of_nat (length activeJobs)) db).

(** RecordWorker of the service: the configured ceiling is what is left and what
    is held. *)
Definition note_worker (now : Z) (id : string) (capacity active : Z) (version : string) (db : DB) : DB :=
  if String.eqb id "" then db else RecordWorker now (mkWorkerRow id version (capacity + active) active) db.

(* -------------------------------------------------------------------- *)
(** ** What is counted

    What Complete adds to the counters once its transaction has committed. *)

Inductive metric :=
  | JobErrors (class kind : string)
  | JobsCompleted (kind : string) (outcome : Outcome)
  | JobDuration (kind : string) (nanoseconds : Z)
  | JobBytes (disposition : string) (bytes : Z).

Definition kind_text (k : Kind) : string := match k with KBlob => "blob" | KManifest => "manifest" end.

Definition observe (c : Completion) (res : CompletionResult) : list metric :=
  if negb (Applied res) then []
  else
    let kind := from_option kind_text "unknown" (RKind res) in
    let '(disposition, bytes) :=
      if bool_decide (c_Outcome c = Skipped) then ("saved", RBytes res) else ("transferred", c_BytesTransferred c) in
    (if bool_decide (c_Outcome c = Failed)
     then [JobErrors (if String.eqb (c_ErrorClass c) "" then "unclassified" else c_ErrorClass c) kind] else []) ++
    (if Settled res then
       JobsCompleted kind (c_Outcome c) ::
       (if 0 <? Nanoseconds res then [JobDuration kind (Nanoseconds res)] else []) ++
       (if 0 <? bytes then [JobBytes disposition bytes] else [])
     else []).

(* -------------------------------------------------------------------- *)
(** ** The wire *)

Record WireLeaseRequest := mkWireLeaseRequest {
  wl_WorkerID : string;
  wl_Capacity : Z;
  wl_ActiveJobs : Z;
  wl_Version : string }.

Record JobEndpoint := mkJobEndpoint {
  je_Product : string;
  je_Name : string;
  je_Registry : string;
  je_Repository : string;
  je_Type : string;
  je_Role : string }.

(** v1.LeasedJob *)
Record WireJob := mkWireJob {
  wj_JobID : string;
  wj_TransferID : string;
  wj_Kind : string;
  wj_Digest : string;
  wj_SizeBytes : string;
  wj_MediaType : string;
  wj_Source : JobEndpoint;
  wj_Target : JobEndpoint;
  wj_KnownPlacement : bool;
  wj_RepairLevel : Z;
  wj_MountFromRepository : string;
  wj_Tags : list string;
  wj_TargetRepository : string;
  wj_Attempt : Z;
  wj_Wave : Z }.

Record WireLeaseResponse := mkWireLeaseResponse {
  wr_Jobs : list WireJob;
  wr_LeaseDurationSeconds : Z;
  wr_NextPollAfterSeconds : Z }.

Record ProgressRequest := mkProgressRequest { pr_WorkerID : string; pr_BytesTransferred : string }.

Record CompleteRequest := mkCompleteRequest {
  cq_WorkerID : string;
  cq_Outcome : string;
  cq_BytesTransferred : string;
  cq_SkipReason : string;
  cq_ErrorClass : string;
  cq_ErrorMessage : string;
  cq_DurationMs : Z;
  cq_Attempt : Z;
  cq_Placed : bool }.

(** The transfer's state goes out in capitals. *)
Record CompleteResponse := mkCompleteResponse {
  ca_Applied : bool;
  ca_TransferState : option TransferState;
  ca_WaveAdvanced : bool;
  ca_CurrentWave : Z }.

Record HeartbeatResponse := mkHeartbeatResponse {
  hr_LeasesRenewed : list string;
  hr_CancelledJobIDs : list string }.

(** What a handler answers. *)
Inductive reply (A : Type) :=
  | InvalidArgument (why : string)
  | StoreFailed (what : string) (err : Error)
  | LeaseFailed (err : Refused)
  | Answered (a : A)
  | NoContent.
Arguments InvalidArgument {A} why.
Arguments StoreFailed {A} what err.
Arguments LeaseFailed {A} err.
Arguments Answered {A} a.
Arguments NoContent {A}.

Definition maxLeaseCapacity : Z := 256.

Definition endpointDTO (e : Endpoint) : JobEndpoint :=
  mkJobEndpoint (EProduct e) (EName e) (ERegistry e) (ERepository e) (ERegistryType e) (ERole e).

Definition leasedJobDTO (a : Assignment) : WireJob :=
  let j := as_Job a in
  mkWireJob (FormatInt (ID j)) (TransferID j) (kind_text (JKind j)) (Digest j) (FormatInt (SizeBytes j)) (MediaType j)
    (endpointDTO (as_Source a)) (endpointDTO (as_Target a)) (as_KnownPlacement a) (as_RepairLevel a)
    (as_MountFrom a) (as_Tags a) (TargetRepository j) (Attempt j) (Wave j).

(** int(d.Seconds()) *)
Definition whole_seconds (d : Z) : Z := Z.quot d Second.

(** int(parseInt64String): an omitted number is zero. *)
Definition parseInt64String (v : string) : option Z := if String.eqb v "" then Some 0 else ParseInt v.

Definition splitVerb (raw : string) : option (string * string) :=
  match cut_last colon raw with
  | Some (id, verb) => if String.eqb id "" || String.eqb verb "" then None else Some (id, verb)
  | None => None
  end.

Definition jobOutcome (s : string) : option Outcome :=
  if String.eqb s "SUCCEEDED" then Some Succeeded
  else if String.eqb s "SKIPPED" then Some Skipped
  else if String.eqb s "FAILED" then Some Failed
  else if String.eqb s "CANCELLED" then Some Cancelled
  else None.

(* -------------------------------------------------------------------- *)
(** ** The handlers *)

Section handlers.
Context (dialect : Driver) (duration now : Z) (locked : gset Z) (draw : Z → Z).

(** A body, or what the decoder says of it. *)
Definition decoded {Req A} (body : string + Req) (serve : Req → DB → DB * reply A) (db : DB) : DB * reply A :=
  match body with
  | inl why => (db, InvalidArgument (words ["could not read the request body: "; why]))
  | inr req => serve req db
  end.

Definition handleLeaseJobs (body : string + WireLeaseRequest) : DB → DB * reply WireLeaseResponse :=
  decoded body (λ req db,
    if String.eqb (wl_WorkerID req) "" then (db, InvalidArgument "workerId is required")
    else if wl_Capacity req <=? 0 then (db, InvalidArgument "capacity must be greater than zero")
    else
      let capacity := Z.min (wl_Capacity req) maxLeaseCapacity in
      let db := note_worker now (wl_WorkerID req) capacity (wl_ActiveJobs req) (wl_Version req) db in
      let '(db, res) := Lease dialect now locked draw duration (wl_WorkerID req) capacity (wl_ActiveJobs req) db in
      (db, match res with
           | inl err => LeaseFailed err
           | inr res => Answered (mkWireLeaseResponse (leasedJobDTO <$> lr_Jobs res)
                                    (whole_seconds (lr_LeaseDuration res)) (whole_seconds (lr_NextPollAfter res)))
           end)).

(** A report that could not be recorded is accepted all the same. *)
Definition reportProgress (jobID : Z) (body : string + ProgressRequest) : DB → DB * reply CompleteResponse :=
  decoded body (λ req db,
    if String.eqb (pr_WorkerID req) "" then (db, InvalidArgument "workerId is required")
    else match parseInt64String (pr_BytesTransferred req) with
    | None => (db, InvalidArgument "bytesTransferred")
    | Some bytes => (ReportProgress now jobID (pr_WorkerID req) bytes db, NoContent)
    end).

Definition completion_of (jobID : Z) (req : CompleteRequest) (o : Outcome) (bytes : Z) : Completion :=
  mkCompletion jobID (cq_WorkerID req) o bytes (cq_SkipReason req) (cq_ErrorClass req) (cq_ErrorMessage req)
    (cq_Placed req) (cq_Attempt req) 0.

Definition completeJob (jobID : Z) (body : string + CompleteRequest) : DB → DB * reply CompleteResponse :=
  decoded body (λ req db,
    if String.eqb (cq_WorkerID req) "" then (db, InvalidArgument "workerId is required")
    else match jobOutcome (cq_Outcome req), parseInt64String (cq_BytesTransferred req) with
    | None, _ => (db, InvalidArgument (words ["outcome must be SUCCEEDED, SKIPPED, FAILED or CANCELLED, not ";
                                              cq_Outcome req]))
    | Some _, None => (db, InvalidArgument "bytesTransferred")
    | Some o, Some bytes =>
        match Complete now (draw jobID) (completion_of jobID req o bytes) db with
        | Err e => (db, StoreFailed "could not record the completion" e)
        | Ok (db, res) => (db, Answered (mkCompleteResponse (Applied res) (RTransferState res)
                                           (WaveAdvanced res) (NewWave res)))
        end
    end).

Definition handleJobCustomMethod (raw : string) (progress : string + ProgressRequest)
    (complete : string + CompleteRequest) (db : DB) : DB * reply CompleteResponse :=
  match splitVerb raw with
  | None => (db, InvalidArgument "expected /jobs/{job}:reportProgress or /jobs/{job}:complete")
  | Some (idPart, verb) =>
      match ParseInt idPart with
      | None => (db, InvalidArgument (words ["job "; idPart; " is not a job ID"]))
      | Some jobID =>
          if String.eqb verb "reportProgress" then reportProgress jobID progress db
          else if String.eqb verb "complete" then completeJob jobID complete db
          else (db, InvalidArgument (words ["unknown method :"; verb; " on a job"]))
      end
  end.

(** The first identifier that is none, or all of them. *)
Fixpoint parse_ids (l : list string) : string + list Z :=
  match l with
  | [] => inr []
  | s :: l => match ParseInt s with
              | None => inl s
              | Some id => match parse_ids l with
                           | inl s => inl s
                           | inr ids => inr (id :: ids)
                           end
              end
  end.

Definition handleWorkerHeartbeat (raw : string) (body : string + list string) (db : DB)
    : DB * reply HeartbeatResponse :=
  match splitVerb raw with
  | Some (workerID, verb) =>
      if negb (String.eqb verb "heartbeat") then (db, InvalidArgument "expected /workers/{worker}:heartbeat")
      else decoded body (λ activeJobIDs db,
        match parse_ids activeJobIDs with
        | inl s => (db, InvalidArgument (words ["activeJobIds: "; s; " is not a job ID"]))
        | inr ids =>
            let '(db, (renewed, cancelled)) := Heartbeat now duration workerID ids db in
            (db, Answered (mkHeartbeatResponse (FormatInt <$> renewed) (FormatInt <$> cancelled)))
        end) db
  | None => (db, InvalidArgument "expected /workers/{worker}:heartbeat")
  end.
End handlers.

(* -------------------------------------------------------------------- *)
(** ** The leader's passes *)

Record ControllerOptions := mkControllerOptions {
  co_ReapInterval : Z;
  co_ExpandInterval : Z;
  co_AutoRetryAfter : Z;
  co_AutoRetryRounds : Z }.

Definition DefaultExpandInterval : Z := 10 * Second.
Definition DefaultAutoRetryAfter : Z := 5 * Minute.
Definition DefaultAutoRetryRounds : Z := 3.

(** NewController: a negative number of rounds disables retries, and stays. *)
Definition with_defaults (o : ControllerOptions) : ControllerOptions :=
  mkControllerOptions
    (if co_ReapInterval o <=? 0 then DefaultReapInterval else co_ReapInterval o)
    (if co_ExpandInterval o <=? 0 then DefaultExpandInterval else co_ExpandInterval o)
    (if co_AutoRetryAfter o <=? 0 then DefaultAutoRetryAfter else co_AutoRetryAfter o)
    (if co_AutoRetryRounds o =? 0 then DefaultAutoRetryRounds else co_AutoRetryRounds o).

Section controller.
(** The expander, when there is one. *)
Context (opts : ControllerOptions) (duration : Z) (stepper : bool) (expander : option (Z → DB → DB)).

Definition recover_pass (now : Z) (db : DB) : DB := (RecoverOrphanedLeases now duration db).1.

Definition reap_pass (now : Z) (draw : Z → Z) (db : DB) : DB :=
  let db := (AccrueActiveTime now (co_ReapInterval opts) db).1 in
  let db := (ReapExpiredLeases now draw db).1 in
  let db := (UnstickTransfers now db).1 in
  let db := (SettleStalledTransfers now db).1 in
  let db := (CloseStalledCancellations now db).1 in
  (AutoRetryTransfers now (co_AutoRetryAfter opts) (co_AutoRetryRounds opts) db).1.

Definition advance (now : Z) (db : DB) : DB := if stepper then (AdvanceSteps now db).1 else db.

Definition expand_pass (now : Z) (db : DB) : DB :=
  let db := advance now db in
  match expander with Some f => f now db | None => db end.

Inductive tick := ReapTick | ExpandTick.

(** One turn of the loop: whether this replica leads, whether it led at its last
    turn, and the database. *)
Definition turn (leads : bool) (t : tick) (now : Z) (draw : Z → Z) (s : bool * DB) : bool * DB :=
  let '(wasLeader, db) := s in
  if negb leads then (false, db)
  else match t with
  | ReapTick => (wasLeader, reap_pass now draw db)
  | ExpandTick =>
      let db := if wasLeader then db else reap_pass now draw (recover_pass now db) in
      (true, expand_pass now db)
  end.
End controller.

Definition promotionDrain : nat := 8.

(** One tick of the promotion loop: [RunPromotion] is one tick of the runner
    with its error or whether it did anything, [leads] the leader flag read
    after it. *)
Fixpoint drain {S} (RunPromotion : S → S * (string + bool)) (leads : S → bool) (n : nat) (s : S) : S :=
  match n with
  | O => s
  | Datatypes.S n =>
      match RunPromotion s with
      | (s, inl err) => s
      | (s, inr did) => if negb did || negb (leads s) then s else drain RunPromotion leads n s
      end
  end.

Definition promotions {S} (promoter : option (S → S * (string + bool))) (leads : S → bool) (s : S) : S :=
  match promoter with
  | None => s
  | Some RunPromotion => if negb (leads s) then s else drain RunPromotion leads promotionDrain s
  end.

(* -------------------------------------------------------------------- *)
(** ** Traffic

    What reaches one replica, in the order it is served: the workers' calls and
    the turns of the background loop. *)

Inductive traffic :=
  | LeaseCall (dialect : Driver) (duration now : Z) (locked : gset Z) (draw : Z → Z)
      (body : string + WireLeaseRequest)
  | JobCall (now : Z) (draw : Z → Z) (raw : string) (progress : string + ProgressRequest)
      (complete : string + CompleteRequest)
  | HeartbeatCall (duration now : Z) (raw : string) (body : string + list string)
  | Turn (leads : bool) (t : tick) (now : Z) (draw : Z → Z).

Section traffic.
Context `{RowIds} (opts : ControllerOptions) (lease_duration : Z) (stepper : bool)
  (expander : option (Z → DB → DB)).

Definition serve (s : bool * DB) (x : traffic) : bool * DB :=
  match x with
  | LeaseCall dialect duration now locked draw body =>
      (s.1, (handleLeaseJobs dialect duration now locked draw body s.2).1)
  | JobCall now draw raw progress complete =>
      (s.1, (handleJobCustomMethod now draw raw progress complete s.2).1)
  | HeartbeatCall duration now raw body => (s.1, (handleWorkerHeartbeat duration now raw body s.2).1)
  | Turn leads t now draw => turn opts lease_duration stepper expander leads t now draw s
  end.

Definition serve_all (s : bool * DB) (xs : list traffic) : bool * DB := foldl serve s xs.
End traffic.

(* -------------------------------------------------------------------- *)
(** ** What goes out with a job *)

Lemma lookup_lookups {A} (query : Z → A) js j : j ∈ js → lookups query js !! TargetRepoID j = Some (query (TargetRepoID j)).
Proof.
  unfold lookups. set (f := λ m j, _).
  assert (∀ js m, (∀ k x, m !! k = Some x → x = query k) →
    (∀ k x, foldl f m js !! k = Some x → x = query k) ∧
    (∀ j, j ∈ js ∨ is_Some (m !! TargetRepoID j) → is_Some (foldl f m js !! TargetRepoID j))) as Hgen.
  { intros js0. induction js0 as [|k js0 IH]; intros m Hm; simpl.
    { split; [done|]. by intros k [?%elem_of_nil|]. }
    assert (∀ k0 x, f m k !! k0 = Some x → x = query k0) as Hm'.
    { unfold f. destruct (m !! TargetRepoID k); [done|].
      intros k0 x [[<- <-]|[_ Hk]]%lookup_insert_Some; [done|by apply Hm]. }
    destruct (IH _ Hm') as [H1 H2]. split; [done|]. intros i Hi. apply H2. unfold f.
    destruct Hi as [[-> |Hi]%elem_of_cons|Hi]; [right|by left|right].
    - destruct (m !! TargetRepoID k) eqn:E; [by rewrite E|]. by rewrite lookup_insert_eq.
    - destruct (m !! TargetRepoID k); [done|]. by apply lookup_insert_is_Some'; right. }
  intros Hin. destruct (Hgen js ∅) as [H1 H2]; [done|].
  destruct (H2 j) as [x Hx]; [by left|]. rewrite Hx. by rewrite (H1 _ _ Hx).
Qed.

Definition fresh_placement (now : Z) (db : DB) (repo : Z) (digest : string) : Prop :=
  ∃ p, placements db !! (repo, digest) = Some p ∧ now - placementTTLSeconds * Second < bp_verified p.

(** [a] is what the catalog and the placements say of job [j]. *)
Record hydrated (now : Z) (db : DB) (j : LeasedJob) (a : Assignment) : Prop := {
  hy_job : as_Job a = j;
  hy_source : endpoint_of db (SourceRepoID j) = Some (as_Source a);
  hy_target : endpoint_of db (TargetRepoID j) = Some (as_Target a);
  hy_level : as_RepairLevel a = RepairLevel j;
  hy_tags : as_Tags a = TargetTags j;
  hy_known : as_KnownPlacement a = true ↔
    JKind j = KBlob ∧ RepairLevel j ≤ 0 ∧ fresh_placement now db (TargetRepoID j) (Digest j);
  hy_mount : as_MountFrom a ≠ "" ↔
    JKind j = KBlob ∧ as_KnownPlacement a = false ∧ RepairLevel j < RepairStreamOnly ∧
    TargetRepoID j ≠ 0 ∧ ∃ id, mount_source now (TargetRepoID j) db (Digest j) id;
  hy_hint : as_MountFrom a ≠ "" →
    ∃ id, mount_source now (TargetRepoID j) db (Digest j) id ∧ as_MountFrom a = mount_path db id ∧
      ∀ id', mount_source now (TargetRepoID j) db (Digest j) id' → id ≤ id' }.

Lemma mount_source_path now t db d id : mount_source now t db d id → mount_path db id ≠ "".
Proof. intros (p & r & _ & Hr & _ & _ & _ & Hp). unfold mount_path. by rewrite Hr. Qed.

Lemma MountableFrom_zero now ds db : MountableFrom now 0 ds db = ∅.
Proof. done. Qed.

Section hydration.
Context (now : Z) (db : DB) (js : list LeasedJob) (j : LeasedJob) (Hj : j ∈ js).

#[local] Abbreviation digests := (Digest <$> js).
#[local] Abbreviation placed := (lookups (λ repo, PlacedDigests now repo digests db) js).
#[local] Abbreviation near := (lookups (λ repo, MountableFrom now repo digests db) js).

Lemma digest_asked : Digest j ∈ digests.
Proof. apply list_elem_of_fmap. eauto. Qed.

Lemma placed_exact :
  Digest j ∈ default ∅ (placed !! TargetRepoID j) ↔ fresh_placement now db (TargetRepoID j) (Digest j).
Proof.
  rewrite lookup_lookups by done. simpl. rewrite elem_of_PlacedDigests. unfold fresh_placement.
  pose proof digest_asked. tauto.
Qed.

Lemma near_exact :
  match default "" (default ∅ (near !! TargetRepoID j) !! Digest j) with
  | "" => TargetRepoID j ≠ 0 → ∀ id, ¬ mount_source now (TargetRepoID j) db (Digest j) id
  | path => TargetRepoID j ≠ 0 ∧ ∃ id, mount_source now (TargetRepoID j) db (Digest j) id ∧
      path = mount_path db id ∧ ∀ id', mount_source now (TargetRepoID j) db (Digest j) id' → id ≤ id'
  end.
Proof.
  rewrite lookup_lookups by done. simpl. destruct (decide (TargetRepoID j = 0)) as [H0|H0].
  { rewrite H0, MountableFrom_zero, lookup_empty. simpl. congruence. }
  pose proof (MountableFrom_exact now (TargetRepoID j) digests db H0 (Digest j)) as Hm.
  destruct (MountableFrom now (TargetRepoID j) digests db !! Digest j) as [path|]; simpl.
  - destruct Hm as (_ & id & Hid & -> & Hleast). pose proof (mount_source_path _ _ _ _ _ Hid).
    destruct (mount_path db id) eqn:E; [done|]. split; [done|]. exists id. by rewrite E.
  - intros _. apply Hm, digest_asked.
Qed.

Lemma assign_exact :
  match assign (HydrateEndpoints (js ≫= λ j, [SourceRepoID j; TargetRepoID j]) db) placed near j with
  | inr a => hydrated now db j a
  | inl why =>
      (endpoint_of db (SourceRepoID j) = None ∧ why = off_catalog j "source" (SourceRepoID j)) ∨
      (endpoint_of db (TargetRepoID j) = None ∧ why = off_catalog j "target" (TargetRepoID j))
  end.
Proof.
  unfold assign. rewrite !lookup_HydrateEndpoints by (apply list_elem_of_bind; exists j; split; [set_solver|done]).
  destruct (endpoint_of db (SourceRepoID j)) as [src|] eqn:Hsrc; [|by left].
  destruct (endpoint_of db (TargetRepoID j)) as [dst|] eqn:Hdst; [|by right].
  pose proof near_exact as Hnear. revert Hnear.
  set (path := default "" _). intros Hnear.
  set (known := bool_decide (JKind j = KBlob) && _ && _).
  assert (known = true ↔ JKind j = KBlob ∧ RepairLevel j ≤ 0 ∧ fresh_placement now db (TargetRepoID j) (Digest j))
    as Hknown.
  { unfold known. rewrite <-placed_exact, !andb_true_iff, !bool_decide_eq_true, negb_true_iff, andb_false_iff,
      bool_decide_eq_false, Z.ltb_ge. tauto. }
  clearbody known path.
  assert ((if bool_decide (JKind j = KBlob) && negb known && (RepairLevel j <? RepairStreamOnly) then path else "") ≠ "" ↔
    (JKind j = KBlob ∧ known = false ∧ RepairLevel j < RepairStreamOnly) ∧ path ≠ "") as Hcase.
  { destruct (bool_decide_reflect (JKind j = KBlob)); simpl; [|tauto].
    destruct known; simpl; [by split; [|intros [(_ & ? & _) _]]|].
    destruct (Z.ltb_spec (RepairLevel j) RepairStreamOnly); [tauto|].
    split; [done|]. intros [(_ & _ & ?) _]. lia. }
  split; simpl; try done.
  - rewrite Hcase. destruct path; [|by destruct Hnear as (? & id & ? & _); split; [intros [[? [? ?]] _]; eauto 10|intros (? & ? & ? & _)]].
    split; [by intros [_ ?]|]. intros (_ & _ & _ & H0 & id & Hid). by destruct (Hnear H0 id).
  - intros H. assert (path ≠ "") as Hp by by apply Hcase.
    destruct (bool_decide _ && _ && _); [|done]. destruct path; [done|]. destruct Hnear as (_ & id & ? & -> & ?). eauto.
Qed.
End hydration.

Lemma assign_all_exact (P : LeasedJob → Assignment → Prop) (Q : LeasedJob → string → Prop) f js :
  (∀ j, j ∈ js → match f j with inl why => Q j why | inr a => P j a end) →
  match assign_all f js with
  | inl why => ∃ j, j ∈ js ∧ Q j why
  | inr l => Forall2 P js l
  end.
Proof.
  induction js as [|j js IH]; intros Hf; simpl; [done|].
  pose proof (Hf j ltac:(left)) as Hj. destruct (f j) as [why|a]; [exists j; split; [left|done]|].
  assert (∀ k, k ∈ js → match f k with inl why => Q k why | inr a => P k a end) as Hjs.
  { intros k Hk. apply Hf. by right. }
  specialize (IH Hjs). destruct (assign_all f js) as [why|l]; [|by constructor].
  destruct IH as (k & Hk & HQ). exists k. split; [by right|done].
Qed.

(** What a batch is refused for. *)
Definition not_in_catalog (db : DB) (j : LeasedJob) (why : string) : Prop :=
  (endpoint_of db (SourceRepoID j) = None ∧ why = off_catalog j "source" (SourceRepoID j)) ∨
  (endpoint_of db (TargetRepoID j) = None ∧ why = off_catalog j "target" (TargetRepoID j)).

Lemma hydrate_exact now js db :
  match hydrate now js db with
  | inl why => ∃ j, j ∈ js ∧ not_in_catalog db j why
  | inr l => Forall2 (hydrated now db) js l
  end.
Proof. apply assign_all_exact. intros j Hj. by apply assign_exact. Qed.

(* -------------------------------------------------------------------- *)
(** ** The Coordinator runs the queue's operations *)

Section refinement.
Context `{RowIds}.

(** What [f] does is a sequence of the queue's operations. *)
Lemma runs_release now draw w cause js db : runs db (releaseAll now draw w cause js db).
Proof.
  exists ((λ j, OpComplete now (draw (ID j)) (release_completion w cause j)) <$> js).
  unfold releaseAll, run. revert db. induction js as [|j js IH]; intros db; [done|]. simpl. by rewrite IH.
Qed.

Lemma runs_note_worker now w capacity active version db : runs db (note_worker now w capacity active version db).
Proof. unfold note_worker. destruct (String.eqb _ _); [done|]. by eapply (runs_op (OpRecordWorker _ _)). Qed.

Lemma runs_Lease dialect now locked draw duration w capacity active db :
  runs db (Lease dialect now locked draw duration w capacity active db).1.
Proof.
  unfold Lease. set (db0 := if active =? 0 then _ else db).
  assert (runs db db0) as H0.
  { unfold db0. destruct (active =? 0); [|done]. by eapply (runs_op (OpRecoverWorker _ _)). }
  clearbody db0. destruct (LeaseJobs _ _ _ _ db0) as [[db1 js]|e] eqn:Hl; [|done].
  assert (runs db db1) as H1.
  { etrans; [exact H0|]. eapply (runs_op (OpLease dialect now locked (mkLeaseRequest w capacity duration))).
    cbn [exec]. by rewrite Hl. }
  destruct js as [|j js]; [done|]. destruct (hydrate _ _ _); [|done].
  etrans; [exact H1|]. apply runs_release.
Qed.

Lemma runs_Heartbeat now duration w ids db : runs db (Heartbeat now duration w ids db).1.
Proof.
  unfold Heartbeat. etrans; [by eapply (runs_op (OpTouchWorker now w (Z.of_nat (length ids))))|].
  by eapply (runs_op (OpRenew now w ids duration)).
Qed.

Lemma runs_decoded {Req A} (body : string + Req) (f : Req → DB → DB * reply A) db :
  (∀ req, runs db (f req db).1) → runs db (decoded body f db).1.
Proof. intros Hf. destruct body; [done|apply Hf]. Qed.

Lemma runs_handleLeaseJobs dialect duration now locked draw body db :
  runs db (handleLeaseJobs dialect duration now locked draw body db).1.
Proof.
  apply runs_decoded. intros req. destruct (String.eqb _ _); [done|]. destruct (wl_Capacity req <=? 0); [done|].
  set (cap := Z.min (wl_Capacity req) maxLeaseCapacity).
  set (db0 := note_worker now (wl_WorkerID req) cap (wl_ActiveJobs req) (wl_Version req) db).
  pose proof (runs_Lease dialect now locked draw duration (wl_WorkerID req) cap (wl_ActiveJobs req) db0) as Hl.
  cbv zeta. fold cap db0. destruct (Lease _ _ _ _ _ _ _ _ db0) as [db1 res]. cbn [fst] in *.
  etrans; [|exact Hl]. apply runs_note_worker.
Qed.

Lemma runs_handleJobCustomMethod now draw raw progress complete db :
  runs db (handleJobCustomMethod now draw raw progress complete db).1.
Proof.
  unfold handleJobCustomMethod. destruct (splitVerb raw) as [[id verb]|]; [|done].
  destruct (ParseInt id) as [jobID|]; [|done]. destruct (String.eqb verb "reportProgress").
  - apply runs_decoded. intros req. destruct (String.eqb _ _); [done|].
    destruct (parseInt64String _) as [n|]; [|done].
    by eapply (runs_op (OpProgress now jobID (pr_WorkerID req) n)).
  - destruct (String.eqb verb "complete"); [|done]. apply runs_decoded. intros req.
    destruct (String.eqb _ _); [done|]. destruct (jobOutcome _) as [o|]; [|done].
    destruct (parseInt64String _) as [n|]; [|done].
    destruct (Complete _ _ _ db) as [[db1 res]|e] eqn:Hc; [|done].
    eapply (runs_op (OpComplete now (draw jobID) (with_cap (completion_of jobID req o n)))).
    cbn [exec]. unfold Complete in Hc. by rewrite Hc.
Qed.

Lemma runs_handleWorkerHeartbeat duration now raw body db :
  runs db (handleWorkerHeartbeat duration now raw body db).1.
Proof.
  unfold handleWorkerHeartbeat. destruct (splitVerb raw) as [[w verb]|]; [|done].
  destruct (negb _); [done|]. apply runs_decoded. intros ids. destruct (parse_ids ids) as [s|l]; [done|].
  pose proof (runs_Heartbeat now duration w l db) as Hh.
  destruct (Heartbeat _ _ _ _ db) as [db1 [renewed cancelled]]. exact Hh.
Qed.

Lemma runs_recover_pass duration now db : runs db (recover_pass duration now db).
Proof. by eapply (runs_op (OpRecoverOrphans now duration)). Qed.

Lemma runs_reap_pass opts now draw db : runs db (reap_pass opts now draw db).
Proof.
  unfold reap_pass.
  etrans; [by eapply (runs_op (OpAccrue now (co_ReapInterval opts)))|].
  etrans; [by eapply (runs_op (OpReap now draw))|].
  etrans; [by eapply (runs_op (OpUnstick now))|].
  etrans; [by eapply (runs_op (OpSettleStalled now))|].
  etrans; [by eapply (runs_op (OpCloseCancellations now))|].
  by eapply (runs_op (OpAutoRetry now (co_AutoRetryAfter opts) (co_AutoRetryRounds opts))).
Qed.

Lemma runs_turn opts duration stepper (expander : option (Z → DB → DB)) leads t now draw s :
  (∀ f, expander = Some f → ∀ now db, runs db (f now db)) →
  runs s.2 (turn opts duration stepper expander leads t now draw s).2.
Proof.
  intros Hexp. destruct s as [was db]. unfold turn. destruct leads; simpl; [|done].
  destruct t; [apply runs_reap_pass|]. simpl.
  assert (∀ db, runs db (expand_pass stepper expander now db)) as Hexpand.
  { intros d. unfold expand_pass, advance.
    assert (runs d (if stepper then (AdvanceSteps now d).1 else d)) as H1.
    { destruct stepper; [|done]. by eapply (runs_op (OpAdvanceSteps now)). }
    destruct expander as [f|]; [|exact H1]. etrans; [exact H1|by apply Hexp]. }
  destruct was; [apply Hexpand|]. etrans; [apply (runs_recover_pass duration now)|].
  etrans; [apply runs_reap_pass|apply Hexpand].
Qed.

Lemma runs_serve_all opts duration stepper (expander : option (Z → DB → DB)) xs s :
  (∀ f, expander = Some f → ∀ now db, runs db (f now db)) →
  runs s.2 (serve_all opts duration stepper expander s xs).2.
Proof.
  intros Hexp. revert s. induction xs as [|x xs IH]; intros s; [done|]. simpl. etrans; [|apply IH].
  destruct x; simpl.
  - apply runs_handleLeaseJobs.
  - apply runs_handleJobCustomMethod.
  - apply runs_handleWorkerHeartbeat.
  - by apply runs_turn.
Qed.
End refinement.

(* -------------------------------------------------------------------- *)
(** ** Theorems *)

(** The worker plane and the background loop only ever run the queue's
    operations.  Whatever lease calls, job reports, heartbeats and turns of the
    controller one replica serves, in any order, with any clocks, bodies -
    malformed ones included - and changes of leadership, and with any expander
    that itself only runs such operations, the database it leaves is the one
    some sequence of those operations leaves; so every job row stays
    well-formed. *)
Theorem the_coordinator_runs_the_queue `{RowIds} opts duration stepper
    (expander : option (Z → DB → DB)) xs wasLeader db :
  (∀ f, expander = Some f → ∀ now db, ∃ ops, f now db = run db ops) →
  let db' := (serve_all opts duration stepper expander (wasLeader, db) xs).2 in
  (∃ ops, db' = run db ops) ∧
  ((∀ i j, jobs db !! i = Some j → job_ok j) → ∀ i j, jobs db' !! i = Some j → job_ok j).
Proof.
  intros Hexp. destruct (runs_serve_all opts duration stepper expander xs (wasLeader, db) Hexp) as [ops Hops].
  cbv zeta. rewrite Hops. split; [by exists ops|]. apply run_ok.
Qed.

(** A batch handed back is handed back whole: while every job has its transfer,
    the worker holds none of it any longer, and leased rows outside it stay. *)
Lemma releaseAll_releases now draw worker why js db :
  homed db →
  let db' := releaseAll now draw worker why js db in
  (∀ j k, j ∈ js → jobs db' !! ID j = Some k → held_by worker k = false) ∧
  ∀ i k, i ∉ ID <$> js → j_state k = JobLeased → jobs db' !! i = Some k ↔ jobs db !! i = Some k.
Proof.
  cut (∀ (free : list Z) db, homed db →
    (∀ i k, i ∈ free → jobs db !! i = Some k → held_by worker k = false) →
    let db' := releaseAll now draw worker why js db in
    (∀ i k, i ∈ free ++ (ID <$> js) → jobs db' !! i = Some k → held_by worker k = false) ∧
    ∀ i k, i ∉ ID <$> js → j_state k = JobLeased → jobs db' !! i = Some k ↔ jobs db !! i = Some k).
  { intros Hcut Hh. destruct (Hcut [] db Hh) as [H1 H2]; [by intros i k ?%not_elem_of_nil|].
    split; [|done]. intros j k Hj. apply H1. by apply list_elem_of_fmap_2. }
  clear db. induction js as [|j js IH]; intros free db Hh Hfree; [by rewrite app_nil_r|].
  unfold releaseAll. simpl. fold (releaseAll now draw worker why js).
  destruct (completion_releases now (draw (ID j)) (release_completion worker why j) db Hh eq_refl eq_refl)
    as (Hh1 & Hown & Hothers). cbn [c_JobID c_Owner release_completion] in Hown, Hothers.
  set (d := ok_or db _) in *.
  destruct (IH (free ++ [ID j]) d Hh1) as [H1 H2].
  { intros i k Hi Hk. destruct (decide (i = ID j)) as [->|Hne]; [by apply Hown|].
    apply elem_of_app in Hi as [Hi|Hi]; [|by apply list_elem_of_singleton in Hi].
    apply not_true_iff_false. intros Hheld. pose proof Hheld as [_ Hl]%held_by_true.
    apply (Hothers i k Hne Hl) in Hk. by rewrite (Hfree i k) in Hheld. }
  split.
  - intros i k Hi. apply H1. rewrite <-(assoc (++)). exact Hi.
  - intros i k Hi Hl. apply not_elem_of_cons in Hi as [Hne Hi]. rewrite H2 by done. by apply Hothers.
Qed.

(** C19. Every job of a lease answer is fully described, or none is given out.
    When a lease call of the service answers, either the queue had nothing, or
    its jobs go out in the order they were leased, each with the endpoints of
    its own repositories, its repair level and tags, marked as already there
    exactly when it is a blob not under repair whose presence at the target was
    verified within the horizon, and with a mount hint exactly when it is such
    a blob not known to be there, below the level where a repair must stream,
    for which a legal sibling repository exists - the least of them.  When the
    batch is refused, one of its jobs names a repository that is not in the
    catalog, and, where every job has its transfer, the whole batch is handed
    back: the worker holds none of its jobs, and every other leased row is the
    one it was. *)
Theorem leases_go_out_described dialect now locked draw duration worker capacity active db :
  let db0 := if active =? 0 then (RecoverWorkerLeases now worker db).1 else db in
  match LeaseJobs dialect now locked (mkLeaseRequest worker capacity duration) db0 with
  | Err e => Lease dialect now locked draw duration worker capacity active db = (db0, inl (RefusedStore e))
  | Ok (db1, js) =>
      match Lease dialect now locked draw duration worker capacity active db with
      | (db', inr res) =>
          db' = db1 ∧ Forall2 (hydrated now db1) js (lr_Jobs res) ∧ lr_LeaseDuration res = duration ∧
          lr_NextPollAfter res = if bool_decide (js = []) then DefaultIdlePoll else DefaultBusyPoll
      | (db', inl refused) =>
          (∃ j why, j ∈ js ∧ refused = RefusedBatch why ∧ not_in_catalog db1 j why) ∧
          ((∀ i k, jobs db1 !! i = Some k → is_Some (transfers db1 !! j_transfer k)) →
           (∀ j k, j ∈ js → jobs db' !! ID j = Some k →
              ¬ (j_state k = JobLeased ∧ j_lease_owner k = Some worker)) ∧
           (∀ i k, i ∉ ID <$> js → j_state k = JobLeased →
              jobs db' !! i = Some k ↔ jobs db1 !! i = Some k))
      end
  end.
Proof.
  unfold Lease. cbv zeta. destruct (LeaseJobs _ _ _ _ _) as [[db1 js]|e]; [|done].
  destruct js as [|j0 js]; [by split_and!|].
  pose proof (hydrate_exact now (j0 :: js) db1) as Hh.
  destruct (hydrate now (j0 :: js) db1) as [why|l]; [|by split_and!].
  destruct Hh as (j & Hj & Hnc). split; [by exists j, why|]. intros Hhome.
  destruct (releaseAll_releases now draw worker why (j0 :: js) db1 Hhome) as [H1 H2].
  split; [|exact H2]. intros j' k Hj' Hk [E1 E2].
  specialize (H1 j' k Hj' Hk). by rewrite (proj2 (held_by_true _ _)) in H1.
Qed.

(** A worker's report decides its job, with the budget of what went wrong.
    A completion the API answers is of a job in the table.  If the reporting
    worker does not hold it, nothing changes and the answer says so.  If it
    does, a success, skip or cancellation ends the job with that outcome and
    the reported bytes; a failure gives up exactly when the attempts already
    counted reach the lower of the row's budget and the one its error class
    allows, and otherwise (a missing blob, which may repair, aside) leaves the
    job pending with its lease gone, to be tried again within five minutes. *)
Theorem reports_are_decided_by_class now draw raw id jobID progress req db db' answer :
  splitVerb raw = Some (id, "complete") → ParseInt id = Some jobID →
  handleJobCustomMethod now draw raw progress (inr req) db = (db', Answered answer) →
  ∃ o bytes j, jobOutcome (cq_Outcome req) = Some o ∧
    parseInt64String (cq_BytesTransferred req) = Some bytes ∧ jobs db !! jobID = Some j ∧
  let holds := j_state j = JobLeased ∧ j_lease_owner j = Some (cq_WorkerID req) in
  let budget := Z.min (j_max_attempts j) (MaxAttemptsFor (cq_ErrorClass req)) in
  (¬ holds → db' = db ∧ ca_Applied answer = false) ∧
  (holds → ca_Applied answer = true ∧
   (o ≠ Failed → jobs db' !! jobID = Some (set_finished now (completion_of jobID req o bytes) j)) ∧
   (o = Failed → cq_ErrorClass req ≠ ClassBlobUnknown →
     ∃ j', jobs db' !! jobID = Some j' ∧ j_attempts j' = j_attempts j ∧ j_bytes j' = bytes ∧
       j_lease_owner j' = None ∧ now ≤ j_next_visible j' ≤ now + DefaultCap ∧
       (budget ≤ j_attempts j → j_state j' = JobFailed) ∧
       (j_attempts j < budget → j_state j' = JobPending))).
Proof.
  intros Hv Hid. unfold handleJobCustomMethod. rewrite Hv, Hid. simpl. unfold completeJob. simpl.
  destruct (String.eqb (cq_WorkerID req) ""); [done|].
  destruct (jobOutcome (cq_Outcome req)) as [o|]; [|done].
  destruct (parseInt64String (cq_BytesTransferred req)) as [n|]; [|done].
  destruct (Complete _ _ _ db) as [[d res]|e] eqn:Hc; [|done]. intros [= <- <-]. unfold Complete in Hc.
  pose proof (MaxAttemptsFor_table (cq_ErrorClass req)) as [[Hpos _] _].
  destruct (completion_verdict _ _ _ _ _ _ Hc) as (j & Hj & Hno & Hyes).
  pose proof (unrepaired _ _ _ _ _ _ Hc) as Hrep.
  unfold with_cap in *. simpl in *. exists o, n, j. split; [done|]. split; [done|].
  rewrite andb_true_r in *. destruct (bool_decide_reflect (o = Failed)) as [->|Hne]; simpl in *.
  - split; [done|]. split; [by apply Hno|]. intros Hh. destruct (Hyes Hh) as (Happ & _ & Hf).
    split; [done|]. split; [done|]. intros _ Hcl. destruct Hf as [_ Hf]; [done|].
    rewrite bool_decide_eq_true_2 in Hf by lia.
    destruct Hf as (j' & Hj' & Ha & Hb & Ho & _ & Hv' & Hd1 & Hd2); [by apply Hrep|].
    exists j'. split_and!; try done; try lia; intros Hlt; [by apply Hd1|by apply Hd2].
  - split; [done|]. split; [by apply Hno|]. intros Hh. destruct (Hyes Hh) as (Happ & Hfin & _).
    split; [done|]. split; [|done]. intros _. by apply Hfin.
Qed.

(* -------------------------------------------------------------------- *)
(** ** Instances *)

Definition served_db : DB := run unplanned_db (take 1 example_run).

Definition leased_by_worker (now : Z) : traffic :=
  LeaseCall DriverPostgres DefaultLeaseDuration now ∅ (λ _, 0) (inr (mkWireLeaseRequest "w" 2 0 "v1")).

Definition moved (jobID : string) (outcome : string) : traffic :=
  JobCall 300 (λ _, 0) (String.append jobID ":complete") (inl "no body")
    (inr (mkCompleteRequest "w" outcome "10" "" "auth" "denied" 5 1 true)).

Definition shift : list traffic :=
  [leased_by_worker 200; HeartbeatCall DefaultLeaseDuration 250 "w:heartbeat" (inr ["1"; "2"]);
   moved "1" "SUCCEEDED"; leased_by_worker 300; moved "3" "FAILED"; Turn true ExpandTick 400 (λ _, 0)].

Definition example_options : ControllerOptions := with_defaults (mkControllerOptions 0 0 0 (-1)).

Definition after_shift : bool * DB :=
  serve_all example_options DefaultLeaseDuration true None (false, served_db) shift.

(** A refused credential is not tried again; the moved blob is there. *)
Example a_shift :
  j_state <$> jobs after_shift.2 !! 1 = Some JobSucceeded ∧
  j_state <$> jobs after_shift.2 !! 3 = Some JobFailed ∧
  j_state <$> jobs after_shift.2 !! 4 = Some JobLeased ∧
  (∃ j, jobs after_shift.2 !! 1 = Some j ∧ fresh_placement 400 after_shift.2 (j_target_repo j) (j_digest j)) ∧
  after_shift.1 = true.
Proof.
  split_and!; try (vm_compute; reflexivity). eexists. split; [vm_compute; reflexivity|].
  eexists. split; vm_compute; reflexivity.
Qed.

Lemma the_coordinator_runs_the_queue_witness :
  (∃ ops, after_shift.2 = run served_db ops) ∧
  ∃ j, jobs after_shift.2 !! 4 = Some j ∧ j_state j = JobLeased ∧ job_ok j.
Proof.
  destruct (the_coordinator_runs_the_queue example_options DefaultLeaseDuration true None shift false served_db)
    as [Hops Hok]; [discriminate|].
  split; [exact Hops|]. destruct (jobs after_shift.2 !! 4) as [j|] eqn:Hj; [|exfalso; revert Hj; vm_compute; discriminate].
  exists j. split; [reflexivity|]. split.
  - assert (j_state <$> jobs after_shift.2 !! 4 = Some JobLeased) as E by (vm_compute; reflexivity).
    rewrite Hj in E. by injection E.
  - apply (Hok (run_ok (take 1 example_run) unplanned_db unplanned_rows_ok) 4 j Hj).
Defined.

(** The report of the refused credential, as the API served it. *)
#[local] Abbreviation denied := (mkCompleteRequest "w" "FAILED" "10" "" "auth" "denied" 5 1 true).
#[local] Abbreviation before_denied :=
  (serve_all example_options DefaultLeaseDuration true None (false, served_db) (take 4 shift)).2.

Lemma reports_are_decided_by_class_witness :
  ∃ db' answer j', handleJobCustomMethod 300 (λ _, 0) "3:complete" (inl "no body") (inr denied) before_denied =
      (db', Answered answer) ∧
    ca_Applied answer = true ∧ jobs db' !! 3 = Some j' ∧ j_state j' = JobFailed.
Proof.
  destruct (handleJobCustomMethod 300 (λ _, 0) "3:complete" (inl "no body") (inr denied) before_denied)
    as [db' r] eqn:Hserved.
  assert (match r with Answered a => ca_Applied a | _ => false end = true) as Hr.
  { change r with (db', r).2. rewrite <-Hserved. vm_compute. reflexivity. }
  destruct r as [| | |answer|]; try discriminate Hr.
  destruct (reports_are_decided_by_class 300 (λ _, 0) "3:complete" "3" 3 (inl "no body") denied before_denied
    db' answer eq_refl eq_refl Hserved) as (o & n & j & Ho & _ & Hj & _ & Hyes).
  assert (o = Failed) as -> by (vm_compute in Ho; congruence).
  assert ((j_state <$> jobs before_denied !! 3, mbind j_lease_owner (jobs before_denied !! 3),
    (λ j, MaxAttemptsFor "auth" <=? j_attempts j) <$> jobs before_denied !! 3) =
    (Some JobLeased, Some "w", Some true)) as Hrow by (vm_compute; reflexivity).
  rewrite Hj in Hrow. simpl in Hrow. injection Hrow as Hs Hw Hlt.
  destruct (Hyes (conj Hs Hw)) as (_ & _ & Hf).
  destruct (Hf eq_refl ltac:(discriminate)) as (j' & Hj' & _ & _ & _ & _ & Hend & _).
  exists db', answer, j'. split; [reflexivity|]. split; [exact Hr|]. split; [exact Hj'|].
  apply Hend. change (cq_ErrorClass denied) with "auth". lia.
Defined.
