(* ===== verification/Worker.v ===== *)
(** * The worker

    internal/worker: the lease loop (loop.go), the watchdog of one job
    (watchdog.go) and the loop's own pulse (pulse.go).  The loop is a state and
    the events that reach it - a pass, the jobs' goroutines, the timers, the
    heartbeat's answer - each one function; what it sends is what the function
    returns.  Jobs run in the engine of Engine.v, and the Coordinator on the
    other end is Coordinator.v. *)

From S2P Require Import Prelude GoStrings StateMachine Backoff Schema Leasing Completion Planning Fleet QueueSystem.
From S2P Require Import Registry Coordinator.
From S2P Require Engine.
Open Scope Z_scope.

(* -------------------------------------------------------------------- *)
(** ** The watchdog of one job *)

Record watchdog := mkWatchdog {
  after : Z;
  due : option Z;      (** the armed timer *)
  fired : bool }.

#[export] Instance watchdog_eta : Eta watchdog := λ w, mkWatchdog (after w) (due w) (fired w).

Definition newWatchdog (now after : Z) : watchdog :=
  mkWatchdog after (if after <=? 0 then None else Some (now + after)) false.

Definition beat (now : Z) (w : watchdog) : watchdog :=
  if (after w <=? 0) || fired w then w else w <| due := Some (now + after w) |>.

Definition stop (w : watchdog) : watchdog := w <| due := None |>.

Definition tripped (w : watchdog) : bool := fired w.

(** The timer has run out. *)
Definition expired (now : Z) (w : watchdog) : bool :=
  match due w with Some d => d <=? now | None => false end.

(** The timer's function; the caller cancels the job. *)
Definition trip (w : watchdog) : watchdog := w <| due := None |> <| fired := true |>.

(* -------------------------------------------------------------------- *)
(** ** The pulse of the loop *)

Definition DefaultLeaseRetry : Z := 5 * Second.
Definition fullWorkerRecheck : Z := 30 * Second.
Definition idleRecheck : Z := 3 * Second.
Definition pulseGrace : Z := 2 * Minute.
Definition RegistrationStale : Z := 12 * DefaultLeaseRetry.

(** Instants are unix nanoseconds, zero for none. *)
Record pulse := mkPulse {
  next_due : Z;
  leaseAt : Z;
  leaseOK : bool;
  leaseErr : option string }.

#[export] Instance pulse_eta : Eta pulse := λ p, mkPulse (next_due p) (leaseAt p) (leaseOK p) (leaseErr p).

Definition sleeping (now wait : Z) (p : pulse) : pulse := p <| next_due := now + wait + pulseGrace |>.

Definition leased (now : Z) (err : option string) (p : pulse) : pulse :=
  mkPulse (next_due p) now (match err with None => true | Some _ => false end) err.

(** Nothing, or what is wrong. *)
Definition Wedged (now : Z) (p : pulse) : option string :=
  if next_due p =? 0 then None
  else
    let late := now - next_due p in
    if 0 <? late then Some (words ["lease loop has not run for "; Duration_String (Duration_Round late Second);
                                   " past its own next wake-up"])
    else None.

Definition LeaseHealth (p : pulse) : bool * Z * string :=
  if leaseAt p =? 0 then (false, 0, "no lease attempted yet")
  else if leaseOK p then (true, leaseAt p, "leasing")
  else match leaseErr p with
       | Some msg => (false, leaseAt p, msg)
       | None => (false, leaseAt p, "the last lease did not succeed")
       end.

Definition Registered (now : Z) (p : pulse) : bool * Z * string :=
  let '(ok, at_, detail) := LeaseHealth p in
  let ago := Duration_String (Duration_Round (now - at_) Second) in
  if at_ =? 0 then (false, at_, "has not yet been accepted by the Coordinator")
  else if negb ok then (false, at_, words ["the Coordinator is not accepting this worker: "; detail;
                                           " (last attempt "; ago; " ago)"])
  else if RegistrationStale <? now - at_
  then (false, at_, words ["the last accepted lease was "; ago; " ago, more than "; Duration_String RegistrationStale;
                           ": this worker has stopped asking for work"])
  else (true, at_, words ["registered; the Coordinator accepted this worker "; ago; " ago"]).

(* -------------------------------------------------------------------- *)
(** ** Options *)

Record Options := mkOptions {
  WorkerID : string;
  Version : string;
  MaxConcurrentJobs : Z;
  HeartbeatInterval : Z;
  ProgressInterval : Z;
  StallTimeout : Z }.

Definition DefaultMaxConcurrentJobs : Z := 16.
Definition DefaultHeartbeatInterval : Z := 20 * Second.
Definition DefaultProgressInterval : Z := 2 * Second.
Definition DefaultStallTimeout : Z := 15 * Minute.

(** NewLoop *)
Definition worker_defaults (o : Options) : Options :=
  mkOptions (WorkerID o) (Version o)
    (if MaxConcurrentJobs o <=? 0 then DefaultMaxConcurrentJobs else MaxConcurrentJobs o)
    (if HeartbeatInterval o <=? 0 then DefaultHeartbeatInterval else HeartbeatInterval o)
    (if ProgressInterval o <=? 0 then DefaultProgressInterval else ProgressInterval o)
    (StallTimeout o).

Definition stallTimeout (o : Options) : Z := if StallTimeout o =? 0 then DefaultStallTimeout else StallTimeout o.

(* -------------------------------------------------------------------- *)
(** ** One job *)

(** The job as the engine takes it; a size that is none is zero. *)
Definition engine_job (id : Z) (job : WireJob) (source target : Engine.place) : Engine.Job :=
  Engine.mkJob id (wj_TransferID job) (wj_Kind job) (wj_Digest job) (default 0 (ParseInt (wj_SizeBytes job)))
    (wj_MediaType job) (wj_Attempt job) source target (wj_KnownPlacement job) (wj_MountFromRepository job)
    (wj_RepairLevel job) (wj_Tags job).

(** What only the watchdog knows replaces what the engine saw. *)
Definition abandoned_for_stalling (opts : Options) (res : Engine.Result) : Engine.Result :=
  Engine.mkResult Engine.OutcomeFailed "" (Engine.re_BytesMoved res) false (Engine.re_Duration res)
    (class_text ClassTimeout)
    (Some (mkFault (words [cause_text ErrTimeout; ": no progress for "; Duration_String (stallTimeout opts);
                           "; abandoned so another attempt can run"]) [ErrTimeout])).

Definition outcomeDTO (o : Engine.Outcome) : string :=
  match o with
  | Engine.OutcomeSucceeded => "SUCCEEDED"
  | Engine.OutcomeSkipped => "SKIPPED"
  | Engine.OutcomeFailed => "FAILED"
  end.

(** res.Duration.Milliseconds() *)
Definition milliseconds (d : Z) : Z := Z.quot d 1000000.

Definition completion_request (opts : Options) (job : WireJob) (res : Engine.Result) : CompleteRequest :=
  mkCompleteRequest (WorkerID opts) (outcomeDTO (Engine.re_Outcome res)) (FormatInt (Engine.re_BytesMoved res))
    (Engine.re_SkipReason res) (Engine.re_ErrorClass res)
    (match Engine.re_Err res with Some err => ft_Message err | None => "" end)
    (milliseconds (Engine.re_Duration res)) (wj_Attempt job) (Engine.re_Placed res).

(** What one call to the Coordinator comes to: served, a context's end, or any
    other failure. *)
Inductive delivery := Delivered | ContextEnded | Undelivered.

(** report: how many of the three tries are made, and whether one got through;
    a try fails, and the context may end, before the next. *)
Fixpoint report_tries (tries : list (bool * delivery)) (made : nat) : nat * bool :=
  match tries with
  | [] => (made, false)
  | (ended, d) :: tries =>
      if ended : bool then (made, false)
      else match d with
           | Delivered => (S made, true)
           | ContextEnded => (S made, false)
           | Undelivered => report_tries tries (S made)
           end
  end.

Definition report (tries : nat → bool * delivery) : nat * bool :=
  report_tries ((λ n, ((0 <? n)%nat && (tries n).1, (tries n).2)) <$> seq 0 3) 0.

Section run.
(** The client of an endpoint, of internal/regclient, and the libraries the
    engine takes digests from. *)
Context (For : JobEndpoint → Fault + Engine.place) (parse_digest : string → option Fault)
  (verifies : string → string → bool) (digest_of : string → string).

Definition endpoints (job : WireJob) : Fault + (Engine.place * Engine.place) :=
  match For (wj_Source job) with
  | inl err => inl err
  | inr src => match For (wj_Target job) with
               | inl err => inl err
               | inr dst => inr (src, dst)
               end
  end.

(** run: the trace of registry calls and the result that is reported; [stalled]
    is what the watchdog says when the engine returns. *)
Definition run_job (opts : Options) (env : list Engine.event → ∀ c, Engine.answer c) (elapsed : Z) (stalled : bool)
    (id : Z) (job : WireJob) : list Engine.event * Engine.Result :=
  match endpoints job with
  | inl err => ([], Engine.refused ClassConfiguration err)
  | inr (source, target) =>
      let '(tr, res) := Engine.run_prog env
        (Engine.Run parse_digest verifies digest_of elapsed (engine_job id job source target)) [] in
      (tr, if stalled then abandoned_for_stalling opts res else res)
  end.
End run.

(* -------------------------------------------------------------------- *)
(** ** The loop *)

(** A job's goroutine: its watchdog, whether its context has ended, and when its
    progress was last sent. *)
Record running := mkRunning {
  rn_ID : Z;
  rn_Job : WireJob;
  rn_Dog : watchdog;
  rn_Cancelled : bool;
  rn_Reported : option Z }.

#[export] Instance running_eta : Eta running := λ r,
  mkRunning (rn_ID r) (rn_Job r) (rn_Dog r) (rn_Cancelled r) (rn_Reported r).

(** Between passes, or dispatching the jobs of an answer. *)
Inductive phase :=
  | Waiting
  | Dispatching (res : WireLeaseResponse) (rest : list WireJob).

(** [active] points at the goroutine whose watchdog it holds; a goroutine that
    is [leaving] is untracked and still has its slot of the semaphore. *)
Record Loop := mkLoop {
  active : gmap Z nat;
  goroutines : gmap nat running;
  leaving : gset nat;
  spawned : nat;
  wake : bool;
  blocked : bool;
  lp_pulse : pulse;
  lp_phase : phase;
  down : bool }.

#[export] Instance Loop_eta : Eta Loop := λ l,
  mkLoop (active l) (goroutines l) (leaving l) (spawned l) (wake l) (blocked l) (lp_pulse l) (lp_phase l) (down l).

(** NewLoop, and the first arming of Run *)
Definition started (now : Z) : Loop :=
  mkLoop ∅ ∅ ∅ 0 false false (sleeping now 0 (mkPulse 0 0 false None)) Waiting false.

Section loop.
Context (opts : Options).

Definition activeCount (l : Loop) : Z := Z.of_nat (size (active l)).
Definition capacity (l : Loop) : Z := MaxConcurrentJobs opts - activeCount l.

(** The slots of the semaphore that are taken. *)
Definition slots (l : Loop) : Z := Z.of_nat (size (goroutines l)) + Z.of_nat (size (leaving l)).

(** In the order of a map's iteration. *)
Definition heldIDs (l : Loop) : list string := (λ kv, FormatInt kv.1) <$> map_to_list (active l).

Definition track (id : Z) (g : nat) (l : Loop) : Loop := l <| active ::= <[id := g]> |>.
Definition untrack (id : Z) (l : Loop) : Loop := l <| active ::= delete id |>.

(** tick, up to the call: how long to wait, or what is asked.  [able] is what
    CanLease says against leasing. *)
Definition begin_pass (now : Z) (able : option string) (l : Loop) : Loop * (Z + WireLeaseRequest) :=
  match able with
  | Some _ => (l <| blocked := true |> <| lp_pulse ::= sleeping now idleRecheck |>, inl idleRecheck)
  | None =>
      let l := l <| blocked := false |> in
      (l, if capacity l =? 0 then inl fullWorkerRecheck
          else inr (mkWireLeaseRequest (WorkerID opts) (capacity l) (activeCount l) (Version opts)))
  end.

(** The call's answer: how long to wait when it failed. *)
Definition lease_answered (now : Z) (ans : string + WireLeaseResponse) (l : Loop) : Loop * option Z :=
  match ans with
  | inl err => (l <| lp_pulse ::= leased now (Some err) |>, Some (if down l then 0 else DefaultLeaseRetry))
  | inr res => (l <| lp_pulse ::= leased now None |> <| lp_phase := Dispatching res (wr_Jobs res) |>, None)
  end.

Definition spawn (now id : Z) (job : WireJob) (l : Loop) : Loop :=
  track id (spawned l)
    (l <| goroutines ::= <[spawned l := mkRunning id job (newWatchdog now (stallTimeout opts)) (down l) None]> |>
       <| spawned ::= S |>).

(** dispatch of the answer's next job; [None] while the semaphore is full.
    Whether a semaphore still takes a job once the context has ended is its
    own affair. *)
Definition dispatch (now : Z) (refuses : bool) (l : Loop) : option Loop :=
  match lp_phase l with
  | Dispatching res (job :: rest) =>
      let l := l <| lp_phase := Dispatching res rest |> in
      match ParseInt (wj_JobID job) with
      | None => Some l
      | Some id =>
          if down l && refuses then Some l
          else if slots l <? MaxConcurrentJobs opts then Some (spawn now id job l)
          else if down l then Some l else None
      end
  | _ => None
  end.

(** What a pass that leased chooses to wait. *)
Definition next_wait (res : WireLeaseResponse) (l : Loop) : Z :=
  if negb (bool_decide (wr_Jobs res = [])) && (0 <? capacity l) then 0
  else if 0 <? wr_NextPollAfterSeconds res then wrap64 (wr_NextPollAfterSeconds res * Second)
  else DefaultLeaseRetry.

(** Run, once tick has said how long to wait. *)
Definition sleep_for (now wait : Z) (l : Loop) : Loop :=
  l <| lp_pulse ::= sleeping now wait |> <| lp_phase := Waiting |>.

Definition end_pass (now : Z) (l : Loop) : option Loop :=
  match lp_phase l with
  | Dispatching res [] => Some (sleep_for now (next_wait res l) l)
  | _ => None
  end.

(** A goroutine's row changes. *)
Definition touch (g : nat) (f : running → running) (l : Loop) : Loop := l <| goroutines ::= alter f g |>.

Definition cancel (r : running) : running := r <| rn_Cancelled := true |>.

(** progressReporter: the watchdog first, then the throttle; what is sent. *)
Definition progress (now bytes : Z) (g : nat) (l : Loop) : Loop * option (string * ProgressRequest) :=
  match goroutines l !! g with
  | None => (l, None)
  | Some r =>
      let l := touch g (λ r, r <| rn_Dog ::= beat now |>) l in
      if match rn_Reported r with Some last => now - last <? ProgressInterval opts | None => false end then (l, None)
      else (touch g (λ r, r <| rn_Reported := Some now |>) l,
            Some (wj_JobID (rn_Job r), mkProgressRequest (WorkerID opts) (FormatInt bytes)))
  end.

(** The watchdog's timer runs out. *)
Definition stalled (now : Z) (g : nat) (l : Loop) : Loop :=
  touch g (λ r, if expired now (rn_Dog r) then cancel (r <| rn_Dog ::= trip |>) else r) l.

(** The goroutine's job has been reported: its context ends, its watchdog stops
    and it is no longer tracked. *)
Definition finish (g : nat) (l : Loop) : Loop :=
  match goroutines l !! g with
  | None => l
  | Some r => (untrack (rn_ID r) l) <| goroutines ::= delete g |> <| leaving ::= union {[ g ]} |>
  end.

(** Its slot is free, and then the loop is woken. *)
Definition release (g : nat) (l : Loop) : Loop :=
  if bool_decide (g ∈ leaving l) then l <| leaving ::= λ x, x ∖ {[ g ]} |> <| wake := true |> else l.

Definition renewed_by (res : HeartbeatResponse) (id : string) : bool :=
  bool_decide (id ∈ hr_LeasesRenewed res) && negb (bool_decide (id ∈ hr_CancelledJobIDs res)).

Definition abandon (res : HeartbeatResponse) (l : Loop) (id : string) : Loop :=
  if renewed_by res id then l
  else match ParseInt id with
       | None => l
       | Some n => match active l !! n with
                   | Some g => touch g cancel l
                   | None => l
                   end
       end.

Definition abandonLost (held : list string) (res : HeartbeatResponse) (l : Loop) : Loop :=
  foldl (abandon res) l held.

(** The process is told to stop: every job's context ends with the loop's. *)
Definition shut_down (l : Loop) : Loop := l <| down := true |> <| goroutines ::= fmap cancel |>.

(** What happens to a loop, in any order the goroutines and timers choose. *)
Inductive happening :=
  | PassRefused (now : Z) (why : string)
  | PassFull (now : Z)
  | PassAnswered (now later : Z) (ans : string + WireLeaseResponse)
  | Dispatched (now : Z) (refuses : bool)
  | PassEnded (now : Z)
  | Progressed (now bytes : Z) (g : nat)
  | Stalled (now : Z) (g : nat)
  | Finished (g : nat)
  | Released (g : nat)
  | Heartbeaten (held : list string) (res : HeartbeatResponse)
  | Woken
  | ShutDown.

Definition happen (l : Loop) (h : happening) : option Loop :=
  match h with
  | PassRefused now why =>
      match lp_phase l, begin_pass now (Some why) l with
      | Waiting, (l, inl wait) => Some (sleep_for now wait l)
      | _, _ => None
      end
  | PassFull now =>
      match lp_phase l, begin_pass now None l with
      | Waiting, (l, inl wait) => Some (sleep_for now wait l)
      | _, _ => None
      end
  | PassAnswered now later ans =>
      match lp_phase l, begin_pass now None l with
      | Waiting, (l, inr _) =>
          match lease_answered later ans l with
          | (l, Some wait) => Some (sleep_for later wait l)
          | (l, None) => Some l
          end
      | _, _ => None
      end
  | Dispatched now refuses => dispatch now refuses l
  | PassEnded now => end_pass now l
  | Progressed now bytes g => Some (progress now bytes g l).1
  | Stalled now g => Some (stalled now g l)
  | Finished g => Some (finish g l)
  | Released g => Some (release g l)
  | Heartbeaten held res => Some (abandonLost held res l)
  | Woken => if wake l then Some (l <| wake := false |>) else None
  | ShutDown => Some (shut_down l)
  end.

Fixpoint happens (l : Loop) (hs : list happening) : option Loop :=
  match hs with
  | [] => Some l
  | h :: hs => l ← happen l h; happens l hs
  end.
End loop.

(* -------------------------------------------------------------------- *)
(** ** The shape of a loop *)

Section invariant.
Context (opts : Options).

(** Which goroutine runs which job. *)
Definition ids (l : Loop) : gmap nat Z := rn_ID <$> goroutines l.

(** The goroutines are within the semaphore's slots, those that are tracked run
    the job they are tracked under, and none is counted twice. *)
Record loop_ok (l : Loop) : Prop := {
  ok_slots : slots l ≤ MaxConcurrentJobs opts;
  ok_active : ∀ id g, active l !! id = Some g → ids l !! g = Some id;
  ok_ids : ∀ g id, ids l !! g = Some id → - (2 ^ 63) ≤ id < 2 ^ 63;
  ok_new : ∀ g, is_Some (ids l !! g) ∨ g ∈ leaving l → (g < spawned l)%nat;
  ok_apart : ∀ g, g ∈ leaving l → ids l !! g = None }.

(** Every goroutine is tracked. *)
Definition all_tracked (l : Loop) : Prop := ∀ g id, ids l !! g = Some id → active l !! id = Some g.

(** The next job dispatched is not one that is still running. *)
Definition fresh_job (l : Loop) (h : happening) : Prop :=
  match h, lp_phase l with
  | Dispatched _ _, Dispatching _ (job :: _) => ∀ id, ParseInt (wj_JobID job) = Some id → active l !! id = None
  | _, _ => True
  end.

Definition shape (l : Loop) := (active l, ids l, leaving l, spawned l).

Lemma slots_ids l : slots l = Z.of_nat (size (ids l)) + Z.of_nat (size (leaving l)).
Proof. unfold slots, ids. by rewrite map_size_fmap. Qed.

Lemma shape_ok l l' : shape l' = shape l → loop_ok l → loop_ok l'.
Proof.
  intros [= Ha Hi Hl Hs] [H1 H2 H3 H4 H5].
  split; rewrite ?slots_ids, ?Ha, ?Hi, ?Hl, ?Hs in *; done.
Qed.

Lemma shape_tracked l l' : shape l' = shape l → all_tracked l → all_tracked l'.
Proof. intros [= Ha Hi _ _]. unfold all_tracked. by rewrite Ha, Hi. Qed.

Lemma shape_touch g f l : (∀ r, rn_ID (f r) = rn_ID r) → shape (touch g f l) = shape l.
Proof.
  intros Hf. assert (ids (touch g f l) = ids l) as Hi; [|unfold shape; by rewrite Hi].
  unfold ids. simpl. apply map_eq. intros i. rewrite !lookup_fmap. destruct (decide (i = g)) as [->|Hne].
  - rewrite lookup_alter_eq. destruct (goroutines l !! g); [|done]. simpl. by rewrite Hf.
  - by rewrite lookup_alter_ne.
Qed.

Lemma shape_progress now bytes g l : shape (progress opts now bytes g l).1 = shape l.
Proof.
  unfold progress. destruct (goroutines l !! g); [|done].
  destruct (match rn_Reported r with Some _ => _ | None => _ end); cbn [fst]; by rewrite !shape_touch.
Qed.

Lemma shape_stalled now g l : shape (stalled now g l) = shape l.
Proof. apply shape_touch. intros r. by destruct (expired _ _). Qed.

Lemma shape_abandon res l id : shape (abandon res l id) = shape l.
Proof.
  unfold abandon. destruct (renewed_by _ _); [done|]. destruct (ParseInt id); [|done].
  destruct (active l !! _); [|done]. by apply shape_touch.
Qed.

Lemma shape_abandonLost held res l : shape (abandonLost held res l) = shape l.
Proof.
  unfold abandonLost. revert l. induction held as [|id held IH]; intros l; [done|].
  simpl. by rewrite IH, shape_abandon.
Qed.

Lemma shape_shut_down l : shape (shut_down l) = shape l.
Proof.
  assert (ids (shut_down l) = ids l) as Hi; [|unfold shape; by rewrite Hi].
  unfold ids. simpl. rewrite <-map_fmap_compose. by apply map_fmap_ext.
Qed.

Lemma ParseInt_range s z : ParseInt s = Some z → - (2 ^ 63) ≤ z < 2 ^ 63.
Proof.
  unfold ParseInt. destruct s as [|c s]; [done|].
  intros (x & _ & Hr)%bind_Some. unfold int64_range in Hr.
  destruct (_ && _) eqn:E; [|done]. injection Hr as <-. lia.
Qed.

Lemma spawn_ok now id job l :
  loop_ok l → slots l < MaxConcurrentJobs opts → - (2 ^ 63) ≤ id < 2 ^ 63 →
  loop_ok (spawn opts now id job l) ∧
  (active l !! id = None → all_tracked l → all_tracked (spawn opts now id job l)).
Proof.
  intros [H1 H2 H3 H4 H5] Hs Hr.
  assert (ids l !! spawned l = None) as Hnew.
  { apply eq_None_not_Some. intros H. specialize (H4 (spawned l) (or_introl H)). lia. }
  assert (ids (spawn opts now id job l) = <[spawned l := id]> (ids l)) as Hids.
  { unfold ids. simpl. by rewrite fmap_insert. }
  split.
  - split; rewrite ?slots_ids, ?Hids in *; simpl in *.
    + rewrite map_size_insert_None by done. lia.
    + intros i g. rewrite lookup_insert_Some. intros [[-> <-]|[Hi Ha]]; [by rewrite lookup_insert_eq|].
      apply H2 in Ha. rewrite lookup_insert_ne by congruence. done.
    + intros g i [[_ <-]|[_ Hg]]%lookup_insert_Some; [done|by eapply H3].
    + intros g [[<-|[_ Hg]]%lookup_insert_is_Some|Hg]; [lia| |]; apply Nat.lt_lt_succ_r, H4; auto.
    + intros g Hg. rewrite lookup_insert_ne; [by apply H5|]. intros <-. specialize (H4 _ (or_intror Hg)). lia.
  - intros Hf Ht g i. rewrite Hids. simpl. intros [[<- <-]|[Hg Hi]]%lookup_insert_Some; [by rewrite lookup_insert_eq|].
    apply Ht in Hi. rewrite lookup_insert_ne by congruence. done.
Qed.

Lemma finish_ok g l :
  loop_ok l → loop_ok (finish g l) ∧ (all_tracked l → all_tracked (finish g l)).
Proof.
  intros Hok. unfold finish. destruct (goroutines l !! g) as [r|] eqn:Hg; [|done].
  destruct Hok as [H1 H2 H3 H4 H5]. set (l' := _ <| leaving ::= _ |>).
  assert (ids l' = delete g (ids l)) as Hids by (unfold ids; simpl; by rewrite fmap_delete).
  assert (ids l !! g = Some (rn_ID r)) as Hr by (unfold ids; by rewrite lookup_fmap, Hg).
  assert (g ∉ leaving l) as Hnl by (intros Hin; rewrite (H5 g Hin) in Hr; done).
  assert (leaving l' = {[ g ]} ∪ leaving l) as Hleave by done.
  assert (size (ids l) ≠ O) as Hsz by (apply map_size_ne_0_lookup; eauto).
  split; [split|].
  - rewrite slots_ids in *. rewrite Hids, Hleave, map_size_delete_Some by eauto.
    rewrite size_union, size_singleton by set_solver. lia.
  - intros i k. rewrite Hids. simpl. intros [Hne Ha]%lookup_delete_Some. apply H2 in Ha.
    rewrite lookup_delete_ne by congruence. done.
  - intros k i. rewrite Hids. intros [_ Hk]%lookup_delete_Some. by eapply H3.
  - intros k. rewrite Hids, Hleave. intros [[_ Hk]%lookup_delete_is_Some|Hk]; [by apply H4; left|].
    apply elem_of_union in Hk as [->%elem_of_singleton|Hk]; apply H4; [left|by right]. by rewrite Hr.
  - intros k. rewrite Hids, Hleave. intros [->%elem_of_singleton|Hk]%elem_of_union; [by rewrite lookup_delete_eq|].
    apply lookup_delete_None. right. by apply H5.
  - intros Ht k i. rewrite Hids. simpl. intros [Hne Hk]%lookup_delete_Some. apply Ht in Hk.
    rewrite lookup_delete_ne; [done|]. intros E. rewrite E in Hr. apply Ht in Hr. congruence.
Qed.

Lemma release_ok g l :
  loop_ok l → loop_ok (release g l) ∧ (all_tracked l → all_tracked (release g l)).
Proof.
  intros Hok. unfold release. case_bool_decide as Hg; [|done]. destruct Hok as [H1 H2 H3 H4 H5].
  set (l' := _ <| wake := _ |>). assert (ids l' = ids l) as Hids by done.
  split; [|done]. split; rewrite ?slots_ids, ?Hids in *; simpl; try done.
  - pose proof (subseteq_size (leaving l ∖ {[ g ]}) (leaving l) ltac:(set_solver)). lia.
  - intros k [Hk|Hk]; apply H4; [by left|right; set_solver].
  - intros k Hk. apply (H5 k). set_solver.
Qed.

Lemma dispatch_ok now refuses l l' :
  loop_ok l → dispatch opts now refuses l = Some l' →
  loop_ok l' ∧ (fresh_job l (Dispatched now refuses) → all_tracked l → all_tracked l').
Proof.
  intros Hok. unfold dispatch, fresh_job. destruct (lp_phase l) as [|res [|job rest]]; [done..|].
  set (l1 := l <| lp_phase := _ |>). assert (loop_ok l1) as Hok1 by by apply (shape_ok l).
  destruct (ParseInt (wj_JobID job)) as [id|] eqn:Hid; [|by intros <-%Some_inj].
  destruct (down l1 && refuses); [by intros <-%Some_inj|].
  destruct (Z.ltb_spec (slots l1) (MaxConcurrentJobs opts)) as [Hs|Hs].
  - intros <-%Some_inj. destruct (spawn_ok now id job l1 Hok1 Hs (ParseInt_range _ _ Hid)) as [H1 H2].
    split; [done|]. intros Hf Ht. apply H2; [|done]. by apply Hf.
  - destruct (down l1); [|done]. by intros <-%Some_inj.
Qed.

Lemma happen_ok l h l' :
  loop_ok l → happen opts l h = Some l' → loop_ok l' ∧ (fresh_job l h → all_tracked l → all_tracked l').
Proof.
  intros Hok. assert (∀ l', shape l' = shape l → loop_ok l' ∧ (fresh_job l h → all_tracked l → all_tracked l')) as Hshape.
  { intros l2 Hs. split; [by eapply shape_ok|]. intros _. by apply shape_tracked. }
  destruct h; simpl.
  - destruct (lp_phase l); [|done]. intros [= <-]. by apply Hshape.
  - destruct (lp_phase l); [|done]. simpl. destruct (_ =? 0); [|done]. intros [= <-]. by apply Hshape.
  - destruct (lp_phase l); [|done]. simpl. destruct (_ =? 0); [done|].
    destruct ans; intros [= <-]; by apply Hshape.
  - intros Hd. by eapply dispatch_ok.
  - unfold end_pass. destruct (lp_phase l) as [|res [|]]; [done| |done]. intros [= <-]. by apply Hshape.
  - intros [= <-]. apply Hshape, shape_progress.
  - intros [= <-]. apply Hshape, shape_stalled.
  - intros [= <-]. destruct (finish_ok g l Hok). tauto.
  - intros [= <-]. destruct (release_ok g l Hok). tauto.
  - intros [= <-]. apply Hshape, shape_abandonLost.
  - destruct (wake l); [|done]. intros [= <-]. by apply Hshape.
  - intros [= <-]. apply Hshape, shape_shut_down.
Qed.

(** No job is dispatched that is still running. *)
Fixpoint fresh_jobs (l : Loop) (hs : list happening) : Prop :=
  match hs with
  | [] => True
  | h :: hs => fresh_job l h ∧ ∀ l', happen opts l h = Some l' → fresh_jobs l' hs
  end.

Lemma started_ok now : 0 ≤ MaxConcurrentJobs opts → loop_ok (started now) ∧ all_tracked (started now).
Proof.
  intros Hmax. split; [split|]; unfold started; simpl; try done.
  - intros g [[]|]; set_solver.
Qed.

Lemma happens_ok l hs l' :
  loop_ok l → happens opts l hs = Some l' → loop_ok l' ∧ (fresh_jobs l hs → all_tracked l → all_tracked l').
Proof.
  revert l. induction hs as [|h hs IH]; intros l Hok; simpl; [by intros [= <-]|].
  intros (l1 & H1 & H2)%bind_Some. destruct (happen_ok _ _ _ Hok H1) as [Hok1 Ht1].
  destruct (IH l1 Hok1 H2) as [Hok2 Ht2]. split; [done|]. intros [Hf Hfs] Ht. apply Ht2; [by apply Hfs|by apply Ht1].
Qed.

(** Tracked goroutines are as many as tracked jobs. *)
Lemma all_tracked_size l : loop_ok l → all_tracked l → size (active l) = size (goroutines l).
Proof.
  intros Hok Ht. rewrite <-(map_size_fmap rn_ID (goroutines l)). change (rn_ID <$> goroutines l) with (ids l).
  rewrite <-(length_map_to_list (active l)), <-(length_fmap snd), <-(size_dom (D := gset nat) (ids l)).
  assert (NoDup (map_to_list (active l)).*2) as Hnd.
  { apply NoDup_fmap_2_strong; [|apply NoDup_map_to_list].
    intros [i g] [k g'] Hi%elem_of_map_to_list Hk%elem_of_map_to_list E. simpl in E. subst g'.
    apply (ok_active _ Hok) in Hi. apply (ok_active _ Hok) in Hk. simpl in *. by simplify_eq. }
  rewrite <-(size_list_to_set (C := gset nat)) by done. f_equal. apply set_eq. intros g.
  rewrite elem_of_list_to_set, list_elem_of_fmap, elem_of_dom. split.
  - intros ([i k] & -> & Hi%elem_of_map_to_list). simpl. exists i. by apply (ok_active _ Hok).
  - intros [i Hi]. exists (i, g). split; [done|]. by apply elem_of_map_to_list, Ht.
Qed.
End invariant.

(* -------------------------------------------------------------------- *)
(** ** The heartbeat's answer *)

(** Whether the answer takes goroutine [g]'s job away. *)
Definition taken_away (res : HeartbeatResponse) (l : Loop) (g : nat) (id : string) : bool :=
  negb (renewed_by res id) &&
  match ParseInt id with Some n => bool_decide (active l !! n = Some g) | None => false end.

Lemma abandonLost_lookup held res l g :
  goroutines (abandonLost held res l) !! g =
  (λ r, if existsb (taken_away res l g) held then cancel r else r) <$> goroutines l !! g.
Proof.
  unfold abandonLost. revert l. induction held as [|id held IH]; intros l; simpl.
  { by destruct (goroutines l !! g). }
  rewrite IH. assert (∀ x, taken_away res (abandon res l id) g x = taken_away res l g x) as Hta.
  { intros x. unfold taken_away, abandon. destruct (renewed_by res id); [done|].
    destruct (ParseInt id); [|done]. by destruct (active l !! _). }
  assert (existsb (taken_away res (abandon res l id) g) held = existsb (taken_away res l g) held) as ->.
  { clear IH. induction held as [|x held IH]; [done|]. simpl. by rewrite Hta, IH. }
  unfold abandon, taken_away at 2. destruct (renewed_by res id); [done|]. simpl.
  destruct (ParseInt id) as [n|]; [|done].
  destruct (active l !! n) as [k|] eqn:Hn; [|by rewrite bool_decide_eq_false_2].
  simpl. case_bool_decide as Hk; simplify_eq.
  - rewrite lookup_alter_eq. destruct (goroutines l !! g); [|done]. simpl. by destruct (existsb _ held).
  - rewrite lookup_alter_ne by congruence. done.
Qed.

Lemma parse_ids_format l : Forall (λ z, - (2 ^ 63) ≤ z < 2 ^ 63) l → parse_ids (FormatInt <$> l) = inr l.
Proof.
  induction 1 as [|z l Hz _ IH]; [done|]. rewrite fmap_cons. cbn [parse_ids]. by rewrite ParseInt_FormatInt, IH.
Qed.

Lemma parse_ids_held opts l : loop_ok opts l → parse_ids (heldIDs l) = inr (map_to_list (active l)).*1.
Proof.
  intros Hok. change (heldIDs l) with (FormatInt ∘ fst <$> map_to_list (active l)).
  rewrite list_fmap_compose. apply parse_ids_format, Forall_fmap, Forall_forall.
  intros [id g] Hin%elem_of_map_to_list. by eapply (ok_ids _ _ Hok), (ok_active _ _ Hok).
Qed.

#[export] Instance FormatInt_inj : Inj (=) (=) FormatInt.
Proof. intros x y. unfold FormatInt. apply (inj pretty). Qed.

Lemma splitVerb_app id verb :
  id ≠ "" → verb ≠ "" → has_char colon verb = false →
  splitVerb (String.append id (String colon verb)) = Some (id, verb).
Proof.
  intros Hi Hv Hc. unfold splitVerb. rewrite cut_last_app by done.
  by rewrite (proj2 (String.eqb_neq _ _) Hi), (proj2 (String.eqb_neq _ _) Hv).
Qed.

Lemma jobs_TouchWorker now w n db : jobs (TouchWorker now w n db) = jobs db.
Proof. unfold TouchWorker. by destruct (String.eqb _ _). Qed.

Lemma transfers_TouchWorker now w n db : transfers (TouchWorker now w n db) = transfers db.
Proof. unfold TouchWorker. by destruct (String.eqb _ _). Qed.

(** Still this worker's, and still wanted. *)
Definition wanted (db : DB) (owner : string) (id : Z) : Prop :=
  ∃ j, jobs db !! id = Some j ∧ j_lease_owner j = Some owner ∧ j_state j = JobLeased ∧
    transfer_stopped db (j_transfer j) = false.

Lemma heartbeat_takes_away opts duration now db l :
  WorkerID opts ≠ "" → loop_ok opts l →
  let '(db', answer) := handleWorkerHeartbeat duration now (String.append (WorkerID opts) ":heartbeat")
                          (inr (heldIDs l)) db in
  ∃ res, answer = Answered res ∧
  ∀ g id, ids l !! g = Some id →
    existsb (taken_away res l g) (heldIDs l) = true ↔ active l !! id = Some g ∧ ¬ wanted db (WorkerID opts) id.
Proof.
  intros Hw Hok. unfold handleWorkerHeartbeat. change ":heartbeat" with (String colon "heartbeat").
  rewrite splitVerb_app by done.
  cbn [negb String.eqb]. simpl. rewrite (parse_ids_held opts) by done. unfold Heartbeat.
  set (held := (map_to_list (active l)).*1). set (db0 := TouchWorker _ _ _ _).
  pose proof (RenewLeases_spec now (WorkerID opts) held duration db0) as Hspec.
  destruct (RenewLeases now (WorkerID opts) held duration db0) as [db' [renewed cancelled]].
  destruct Hspec as (Hren & Hcan & _). eexists. split; [done|]. intros g id Hg.
  assert (∀ n, renewed_by (mkHeartbeatResponse (FormatInt <$> renewed) (FormatInt <$> cancelled)) (FormatInt n) = true ↔
    n ∈ held ∧ wanted db (WorkerID opts) n) as Hby.
  { intros n. unfold renewed_by. simpl. rewrite andb_true_iff, negb_true_iff, bool_decide_eq_true, bool_decide_eq_false.
    assert (∀ L : list Z, FormatInt n ∈ FormatInt <$> L ↔ n ∈ L) as Hin.
    { intros L. split; [|by apply list_elem_of_fmap_2]. by intros (m & ->%(inj FormatInt) & ?)%list_elem_of_fmap. }
    rewrite !Hin, Hren, Hcan. unfold wanted. replace (jobs db0) with (jobs db) by (unfold db0; by rewrite jobs_TouchWorker).
    replace (transfer_stopped db0) with (transfer_stopped db)
      by (unfold transfer_stopped, db0; by rewrite transfers_TouchWorker). split; [by intros [? _]|].
    intros (Hh & j & Hj & Ho & Hs & Ht). split; [split; [done|by exists j]|].
    intros (_ & j' & Hj' & _ & _ & Ht'). rewrite Hj in Hj'. injection Hj' as <-. by rewrite Ht in Ht'. }
  rewrite existsb_exists. split.
  - intros (x & Hx%list_elem_of_In & Hta). unfold heldIDs in Hx. apply list_elem_of_fmap in Hx as ([n k] & -> & Hk%elem_of_map_to_list).
    simpl in *. unfold taken_away in Hta. pose proof (ok_ids _ _ Hok _ _ (ok_active _ _ Hok _ _ Hk)) as Hr.
    rewrite (ParseInt_FormatInt n) in Hta by done.
    apply andb_true_iff in Hta as [Hnr%negb_true_iff Hn%bool_decide_eq_true].
    pose proof (ok_active _ _ Hok _ _ Hn) as Hn'. simplify_eq. split; [done|]. intros Hwant.
    assert (renewed_by (mkHeartbeatResponse (FormatInt <$> renewed) (FormatInt <$> cancelled)) (FormatInt id) = true)
      as Hyes; [|congruence].
    apply Hby. split; [|done]. apply list_elem_of_fmap. exists (id, g). split; [done|]. by apply elem_of_map_to_list.
  - intros [Hact Hnw]. exists (FormatInt id). split.
    + apply list_elem_of_In, list_elem_of_fmap. exists (id, g). split; [done|]. by apply elem_of_map_to_list.
    + unfold taken_away. rewrite ParseInt_FormatInt by (by eapply ok_ids).
      rewrite (bool_decide_eq_true_2 _ Hact), andb_true_r. apply negb_true_iff, not_true_iff_false. rewrite Hby. tauto.
Qed.

(* -------------------------------------------------------------------- *)
(** ** A result, from the engine to the queue *)

(** The store's word for what the engine says. *)
Definition outcome_of (o : Engine.Outcome) : Outcome :=
  match o with
  | Engine.OutcomeSucceeded => Succeeded
  | Engine.OutcomeSkipped => Skipped
  | Engine.OutcomeFailed => Failed
  end.

(** The completion a result should become. *)
Definition completion_for (opts : Options) (id : Z) (job : WireJob) (res : Engine.Result) : Completion :=
  mkCompletion id (WorkerID opts) (outcome_of (Engine.re_Outcome res)) (Engine.re_BytesMoved res)
    (Engine.re_SkipReason res) (Engine.re_ErrorClass res)
    (match Engine.re_Err res with Some err => ft_Message err | None => "" end) (Engine.re_Placed res)
    (wj_Attempt job) 0.

Definition int64 (z : Z) : Prop := - (2 ^ 63) ≤ z < 2 ^ 63.

Lemma parseInt64String_FormatInt z : int64 z → parseInt64String (FormatInt z) = Some z.
Proof.
  intros Hz. unfold parseInt64String. rewrite (proj2 (String.eqb_neq _ _) (FormatInt_nonempty z)).
  by apply ParseInt_FormatInt.
Qed.

Lemma report_served opts now draw progress db id job res :
  WorkerID opts ≠ "" → int64 id → int64 (Engine.re_BytesMoved res) →
  handleJobCustomMethod now draw (String.append (FormatInt id) ":complete") progress
    (inr (completion_request opts job res)) db =
  match Complete now (draw id) (completion_for opts id job res) db with
  | Err e => (db, StoreFailed "could not record the completion" e)
  | Ok (db, r) => (db, Answered (mkCompleteResponse (Applied r) (RTransferState r) (WaveAdvanced r) (NewWave r)))
  end.
Proof.
  intros Hw Hid Hb. unfold handleJobCustomMethod. change ":complete" with (String colon "complete").
  rewrite splitVerb_app by (apply FormatInt_nonempty || done).
  rewrite ParseInt_FormatInt by done. simpl. unfold completeJob. simpl.
  rewrite (proj2 (String.eqb_neq _ _) Hw), parseInt64String_FormatInt by done.
  by assert (jobOutcome (outcomeDTO (Engine.re_Outcome res)) = Some (outcome_of (Engine.re_Outcome res))) as ->
    by by destruct (Engine.re_Outcome res).
Qed.

Section reporting.
Context (For : JobEndpoint → Fault + Engine.place) (parse_digest : string → option Fault)
  (verifies : string → string → bool) (digest_of : string → string).

(** What a result that is no failure rests on. *)
Definition evidence (id : Z) (job : WireJob) (tr : list Engine.event) (res : Engine.Result) : Prop :=
  ∃ source target, For (wj_Source job) = inr source ∧ For (wj_Target job) = inr target ∧
    Engine.claim verifies (engine_job id job source target) tr res.

Lemma run_job_claim opts env elapsed stalled id job :
  let '(tr, res) := run_job For parse_digest verifies digest_of opts env elapsed stalled id job in
  Engine.re_SkipReason res ∈ Engine.skip_reasons ∧
  (Engine.re_Outcome res = Engine.OutcomeFailed ∨ evidence id job tr res).
Proof.
  unfold run_job, endpoints, evidence.
  destruct (For (wj_Source job)) as [err|src]; [split; [left|by left]|].
  destruct (For (wj_Target job)) as [err|dst]; [split; [left|by left]|].
  pose proof (Engine.Run_claim parse_digest verifies digest_of env elapsed (engine_job id job src dst)) as Hc.
  destruct (Engine.run_prog _ _ _) as [tr res]. destruct Hc as [Hc Hs].
  destruct stalled; [split; [left|by left]|]. split; [done|]. right. by exists src, dst.
Qed.

(** What the Coordinator does with the report of [res]. *)
Definition answered_report (opts : Options) (now : Z) (db : DB) (id : Z) (job : WireJob)
    (tr : list Engine.event) (res : Engine.Result) (db' : DB) (out : reply CompleteResponse) : Prop :=
  match jobs db !! id with
  | None => db' = db ∧ ∃ e, out = StoreFailed "could not record the completion" e
  | Some j =>
      let holds := j_state j = JobLeased ∧ j_lease_owner j = Some (WorkerID opts) in
      (¬ holds → db' = db ∧ ∃ answer, out = Answered answer ∧ ca_Applied answer = false) ∧
      (holds → transfers db !! j_transfer j = None →
         db' = db ∧ ∃ e, out = StoreFailed "could not record the completion" e) ∧
      (holds → is_Some (transfers db !! j_transfer j) →
         (∃ answer, out = Answered answer ∧ ca_Applied answer = true) ∧
         match Engine.re_Outcome res with
         | Engine.OutcomeFailed =>
             ∃ j', jobs db' !! id = Some j' ∧ j_state j' ∈ [JobFailed; JobPending; JobBlocked] ∧
               (j_state j' = JobBlocked → Engine.re_ErrorClass res = ClassBlobUnknown ∧ j_kind j = KManifest)
         | _ =>
             jobs db' !! id = Some (set_finished now (completion_for opts id job res) j) ∧
             evidence id job tr res
         end)
  end.

Lemma recorded opts now draw progress db id job tr res :
  WorkerID opts ≠ "" → int64 id → int64 (Engine.re_BytesMoved res) →
  Engine.re_SkipReason res ∈ Engine.skip_reasons →
  (Engine.re_Outcome res = Engine.OutcomeFailed ∨ evidence id job tr res) →
  let '(db', out) := handleJobCustomMethod now draw (String.append (FormatInt id) ":complete") progress
      (inr (completion_request opts job res)) db in
  answered_report opts now db id job tr res db' out.
Proof.
  intros Hw Hid Hb Hskip Hev. rewrite report_served by done. unfold Complete.
  set (c' := with_cap (completion_for opts id job res)).
  assert (c_JobID c' = id ∧ c_Owner c' = WorkerID opts ∧ c_Outcome c' = outcome_of (Engine.re_Outcome res) ∧
    c_SkipReason c' = Engine.re_SkipReason res ∧ c_ErrorClass c' = Engine.re_ErrorClass res ∧
    (Engine.re_Outcome res ≠ Engine.OutcomeFailed → c' = completion_for opts id job res))
    as (Ec & Eo & Eout & Es & Ecl & Esame).
  { unfold c', with_cap. case_bool_decide as Hf; simpl; split_and!; try done.
    intros Hne. simpl in Hf. by destruct (Engine.re_Outcome res). }
  clearbody c'. unfold answered_report. rewrite <-Ec.
  destruct (jobs db !! c_JobID c') as [j|] eqn:Hj.
  2: { unfold CompleteJob. rewrite Hj. simpl. eauto. }
  destruct (held_by (c_Owner c') j) eqn:Hheld.
  2: { assert (¬ (j_state j = JobLeased ∧ j_lease_owner j = Some (WorkerID opts))) as Hno.
       { intros [H1 H2]. rewrite <-Eo in H2. by rewrite (proj2 (held_by_true _ _)) in Hheld. }
       unfold CompleteJob. rewrite Hj. simpl. rewrite Hheld. simpl. naive_solver. }
  pose proof (proj1 (held_by_true _ _) Hheld) as [Ho Hs]. rewrite Eo in Ho.
  destruct (transfers db !! j_transfer j) as [r|] eqn:Hr.
  2: { destruct (CompleteJob_orphan now (draw (c_JobID c')) c' db j Hj Hheld Hr) as [e ->]. split_and!.
       - intros Hno. by destruct Hno.
       - eauto.
       - by intros _ []. }
  destruct (CompleteJob_total now (draw (c_JobID c')) c' db j r Hj Hr) as (db' & out & Hc); [by rewrite Es|].
  rewrite Hc. destruct (completion_verdict _ _ _ _ _ _ Hc) as (j0 & Hj0 & _ & Hyes).
  rewrite Hj in Hj0. injection Hj0 as <-. cbv zeta in Hyes. rewrite Eo in Hyes.
  destruct (Hyes (conj Hs Ho)) as (Happ & Hfin & _).
  split; [by intros Hno; destruct Hno|]. split; [done|]. intros _ _. split; [by eauto|].
  rewrite Eout in Hfin. destruct (Engine.re_Outcome res) eqn:Hres.
  - destruct Hev as [|Hev]; [done|]. rewrite Ec in Hfin |- *. rewrite <-Esame by done.
    split; [by apply Hfin|done].
  - destruct Hev as [|Hev]; [done|]. rewrite Ec in Hfin |- *. rewrite <-Esame by done.
    split; [by apply Hfin|done].
  - rewrite <-Ecl. by apply (completion_failed_row _ _ _ _ _ _ _ Hc).
Qed.
End reporting.

(* -------------------------------------------------------------------- *)
(** ** Stillness *)

(** What reaches a watchdog: the job moves, or the clock is looked at. *)
Inductive moment := Moved (t : Z) | Looked (t : Z).

Definition dog_step (w : watchdog) (k : moment) : watchdog :=
  match k with
  | Moved t => beat t w
  | Looked t => if expired t w then trip w else w
  end.

Definition watched (start after : Z) (ks : list moment) : watchdog := foldl dog_step (newWatchdog start after) ks.

(** When the job last moved; it starts as moving. *)
Definition last_move (start : Z) (ks : list moment) : Z :=
  foldl (λ t k, match k with Moved t' => t' | Looked _ => t end) start ks.

Lemma watched_after start a ks : after (watched start a ks) = a.
Proof.
  unfold watched. induction ks as [|k ks IH] using rev_ind; [done|]. rewrite foldl_snoc.
  destruct k; simpl; [unfold beat|]; by case_match.
Qed.

Lemma watched_due start a ks :
  0 < a → fired (watched start a ks) = false → due (watched start a ks) = Some (last_move start ks + a).
Proof.
  intros Ha. pose proof (watched_after start a) as Haft. induction ks as [|k ks IH] using rev_ind.
  { intros _. unfold watched, newWatchdog. simpl. by rewrite (proj2 (Z.leb_gt _ _)). }
  unfold watched, last_move in *. rewrite !foldl_snoc. specialize (Haft ks).
  destruct k as [t|t]; simpl.
  - unfold beat. rewrite Haft, (proj2 (Z.leb_gt a 0)) by done. simpl.
    destruct (fired _) eqn:E; [by rewrite E|]. done.
  - destruct (expired t _); [done|]. exact IH.
Qed.

Lemma watched_fired_mono start a ks ks' :
  fired (watched start a ks) = true → fired (watched start a (ks ++ ks')) = true.
Proof.
  unfold watched. rewrite foldl_app. generalize (foldl dog_step (newWatchdog start a) ks) as w.
  induction ks' as [|k ks' IH]; intros w Hw; [done|]. simpl. apply IH.
  destruct k; simpl; [unfold beat; by rewrite Hw, orb_true_r|]. by destruct (expired _ _).
Qed.

Lemma watched_fired start a ks :
  0 < a →
  fired (watched start a ks) = true ↔
  ∃ pre t post, ks = pre ++ Looked t :: post ∧ last_move start pre + a ≤ t.
Proof.
  intros Ha. split.
  - induction ks as [|k ks IH] using rev_ind.
    { unfold watched, newWatchdog. done. }
    intros Hf. destruct (fired (watched start a ks)) eqn:Hks.
    + destruct (IH eq_refl) as (pre & t & post & -> & Ht). exists pre, t, (post ++ [k]).
      by rewrite <-app_assoc.
    + pose proof (watched_due start a ks Ha Hks) as Hdue. unfold watched in *. rewrite foldl_snoc in Hf.
      destruct k as [t|t]; simpl in Hf.
      * unfold beat in Hf. case_match; simpl in Hf; congruence.
      * unfold expired in Hf. rewrite Hdue in Hf. destruct (Z.leb_spec (last_move start ks + a) t); [|congruence].
        by exists ks, t, [].
  - intros (pre & t & post & -> & Ht). rewrite cons_middle, app_assoc. apply watched_fired_mono.
    destruct (fired (watched start a pre)) eqn:Hpre; [by apply watched_fired_mono|].
    pose proof (watched_due start a pre Ha Hpre) as Hdue. unfold watched in *. rewrite foldl_snoc. simpl.
    unfold expired. rewrite Hdue, (proj2 (Z.leb_le _ _)) by done. done.
Qed.

(** A disabled watchdog never fires. *)
Lemma unwatched start a ks : a ≤ 0 → fired (watched start a ks) = false.
Proof.
  intros Ha. assert (fired (watched start a ks) = false ∧ due (watched start a ks) = None) as [? _]; [|done].
  unfold watched. induction ks as [|k ks IH] using rev_ind.
  { unfold newWatchdog. simpl. by rewrite (proj2 (Z.leb_le _ _)). }
  rewrite foldl_snoc. destruct IH as [Hf Hd]. pose proof (watched_after start a ks) as Haft. unfold watched in Haft.
  destruct k as [t|t]; simpl.
  - unfold beat. by rewrite Haft, (proj2 (Z.leb_le a 0)).
  - unfold expired. by rewrite Hd.
Qed.

(* -------------------------------------------------------------------- *)
(** ** Recently accepted *)

Definition asked_again (h : happening) : Prop := match h with PassAnswered _ _ _ => True | _ => False end.

(** The pulse's last lease is the loop's last answer. *)
Definition last_answer (hs : list happening) (p : pulse) : Prop :=
  leaseOK p = true → ∃ pre asked_at res post,
    hs = pre ++ PassAnswered asked_at (leaseAt p) (inr res) :: post ∧ Forall (λ h, ¬ asked_again h) post.

(** A happening that is no answer leaves the last one. *)
Ltac aside H := injection H as <-; split; [intros []|split; reflexivity].

Lemma happen_pulse opts l h l' :
  happen opts l h = Some l' →
  (∃ now ans, h = PassAnswered now (leaseAt (lp_pulse l')) ans ∧
     leaseOK (lp_pulse l') = match ans with inl _ => false | inr _ => true end) ∨
  ¬ asked_again h ∧ leaseAt (lp_pulse l') = leaseAt (lp_pulse l) ∧ leaseOK (lp_pulse l') = leaseOK (lp_pulse l).
Proof.
  destruct h; simpl; intros H.
  - right. destruct (lp_phase l); [|done]. aside H.
  - right. destruct (lp_phase l); [|done]. simpl in H. destruct (_ =? 0); [|done]. aside H.
  - left. destruct (lp_phase l); [|done]. simpl in H. destruct (_ =? 0); [done|].
    destruct ans; injection H as <-; simpl; eauto.
  - right. unfold dispatch in H. destruct (lp_phase l) as [|res [|job rest]]; [done..|].
    destruct (ParseInt _); [|aside H]. simpl in H. destruct (down l && refuses); [aside H|].
    destruct (_ <? _); [aside H|]. destruct (down l); [aside H|done].
  - right. unfold end_pass in H. destruct (lp_phase l) as [|res [|]]; [done| |done]. aside H.
  - right. injection H as <-. unfold progress. destruct (goroutines l !! g); [|by split; [intros []|]].
    by destruct (match rn_Reported r with Some _ => _ | None => _ end); split; [intros []| |intros []|].
  - right. aside H.
  - right. injection H as <-. unfold finish. destruct (goroutines l !! g); (split; [intros []|done]).
  - right. injection H as <-. unfold release. case_bool_decide; (split; [intros []|done]).
  - right. injection H as <-. split; [intros []|]. unfold abandonLost. revert l. induction held as [|id held IH]; intros l; [done|].
    simpl. destruct (IH (abandon res l id)) as [-> ->]. unfold abandon.
    destruct (renewed_by _ _); [done|]. destruct (ParseInt id); [|done]. by destruct (active l !! _).
  - right. destruct (wake l); [|done]. aside H.
  - right. aside H.
Qed.

Lemma happens_app opts l hs hs' : happens opts l (hs ++ hs') = (l ← happens opts l hs; happens opts l hs').
Proof. revert l. induction hs as [|h hs IH]; intros l; [done|]. simpl. destruct (happen opts l h); [apply IH|done]. Qed.

Lemma happens_last_answer opts now hs l :
  happens opts (started now) hs = Some l → last_answer hs (lp_pulse l).
Proof.
  revert l. induction hs as [|h hs IH] using rev_ind; intros l.
  { intros [= <-]. done. }
  rewrite happens_app. intros (l1 & H1 & H2)%bind_Some. simpl in H2. apply bind_Some in H2 as (l2 & H2 & [= <-]).
  specialize (IH l1 H1). intros Hok. destruct (happen_pulse _ _ _ _ H2) as [(t & ans & -> & Ha)|(Hn & Hat & Ha)].
  - rewrite Ha in Hok. destruct ans as [err|res]; [done|]. by exists hs, t, res, [].
  - rewrite Ha in Hok. destruct (IH Hok) as (pre & t & res & post & -> & Hp).
    exists pre, t, res, (post ++ [h]). rewrite Hat. split; [by rewrite <-app_assoc|]. apply Forall_app. by split; [|constructor].
Qed.

Lemma Registered_spec now p :
  (Registered now p).1.1 = true ↔ leaseAt p ≠ 0 ∧ leaseOK p = true ∧ now - leaseAt p ≤ RegistrationStale.
Proof.
  unfold Registered, LeaseHealth. destruct (Z.eqb_spec (leaseAt p) 0) as [E|E].
  { simpl. naive_solver. }
  destruct (leaseOK p); simpl.
  - rewrite (proj2 (Z.eqb_neq _ _) E). simpl.
    destruct (Z.ltb_spec RegistrationStale (now - leaseAt p)); simpl; split; (done || naive_solver lia).
  - destruct (leaseErr p); rewrite (proj2 (Z.eqb_neq _ _) E); simpl; naive_solver.
Qed.

(* -------------------------------------------------------------------- *)
(** ** Theorems *)

Lemma worker_slots o : 0 ≤ MaxConcurrentJobs (worker_defaults o).
Proof. simpl. unfold DefaultMaxConcurrentJobs. destruct (Z.leb_spec (MaxConcurrentJobs o) 0); lia. Qed.

(** C24. A worker never runs more jobs than it may.  In whatever order passes,
    answers, progress, timers, heartbeats, completions and a shutdown reach the
    loop, the goroutines holding a slot of the semaphore are at most the
    configured number, and every job tracked is one a goroutine is running.
    And as long as no job is handed out that is still running here, nothing
    running is untracked, and a pass asks for no more jobs than there are slots
    that are free or being freed, and says truly how many it runs. *)
Theorem a_worker_keeps_to_its_slots o now hs l :
  let opts := worker_defaults o in
  happens opts (started now) hs = Some l →
  slots l ≤ MaxConcurrentJobs opts ∧
  (∀ id g, active l !! id = Some g → ∃ r, goroutines l !! g = Some r ∧ rn_ID r = id) ∧
  (fresh_jobs opts (started now) hs →
    (∀ g r, goroutines l !! g = Some r → active l !! rn_ID r = Some g) ∧
    ∀ t req, (begin_pass opts t None l).2 = inr req →
      wl_ActiveJobs req = Z.of_nat (size (goroutines l)) ∧
      1 ≤ wl_Capacity req ≤ MaxConcurrentJobs opts - slots l + Z.of_nat (size (leaving l))).
Proof.
  intros opts Hh. pose proof (worker_slots o) as Hmax. fold opts in Hmax. clearbody opts.
  destruct (started_ok opts now Hmax) as [Hok0 Ht0]. destruct (happens_ok _ _ _ _ Hok0 Hh) as [Hok Ht].
  split; [apply Hok|]. split.
  { intros id g Hg%(ok_active _ _ Hok). unfold ids in Hg. rewrite lookup_fmap in Hg.
    apply fmap_Some in Hg as (r & Hr & ->). eauto. }
  intros Hf. specialize (Ht Hf Ht0). split.
  { intros g r Hr. apply Ht. unfold ids. by rewrite lookup_fmap, Hr. }
  intros t req. simpl. unfold capacity, activeCount. simpl.
  rewrite (all_tracked_size _ _ Hok Ht). pose proof (ok_slots _ _ Hok). unfold slots in *.
  destruct (Z.eqb_spec (MaxConcurrentJobs opts - Z.of_nat (size (goroutines l))) 0); [discriminate|].
  intros [= <-]. simpl. lia.
Qed.

(** A heartbeat stops exactly the work the worker has lost.  When a worker's
    heartbeat over what it tracks is served against any database and its answer
    is handled, every tracked job whose row is no longer leased to this worker,
    or whose transfer has been stopped, has its context cancelled, and nothing
    else the worker runs is touched. *)
Theorem a_worker_stops_exactly_what_it_lost o now0 hs l duration now db :
  let opts := worker_defaults o in
  WorkerID opts ≠ "" → happens opts (started now0) hs = Some l →
  ∃ db' res,
    handleWorkerHeartbeat duration now (String.append (WorkerID opts) ":heartbeat") (inr (heldIDs l)) db =
      (db', Answered res) ∧
  ∀ g r, goroutines l !! g = Some r →
    (active l !! rn_ID r = Some g ∧ ¬ wanted db (WorkerID opts) (rn_ID r) →
       goroutines (abandonLost (heldIDs l) res l) !! g = Some (cancel r)) ∧
    (active l !! rn_ID r ≠ Some g ∨ wanted db (WorkerID opts) (rn_ID r) →
       goroutines (abandonLost (heldIDs l) res l) !! g = Some r).
Proof.
  intros opts Hw Hh. pose proof (worker_slots o) as Hmax. fold opts in Hmax. clearbody opts.
  destruct (started_ok opts now0 Hmax) as [Hok0 _]. destruct (happens_ok _ _ _ _ Hok0 Hh) as [Hok _].
  pose proof (heartbeat_takes_away opts duration now db l Hw Hok) as Hta.
  destruct (handleWorkerHeartbeat _ _ _ _ _) as [db' answer]. destruct Hta as (res & -> & Hta).
  exists db', res. split; [done|]. intros g r Hr. rewrite abandonLost_lookup, Hr. simpl.
  assert (ids l !! g = Some (rn_ID r)) as Hid by (unfold ids; by rewrite lookup_fmap, Hr).
  specialize (Hta g _ Hid). destruct (existsb _ _); split; try done.
  - intros H. destruct (proj1 Hta eq_refl) as [? ?]. by destruct H.
  - intros H. by apply Hta in H.
Qed.

(** C23. What is recorded as done is done.  Whatever the registries answer a job
    run by a worker, and whatever the database holds when its report arrives:
    if the job's row is gone, or its transfer is, the store refuses the report and
    nothing changes; if the worker no longer holds the job the report is answered
    and nothing changes; and if it does, the job is recorded as succeeded or
    skipped only on evidence - the target's own word, a mount, an accepted push of
    verified bytes, a manifest under its own digest with all its names - while a
    failure leaves it failed, waiting to be tried again, or, only for a manifest
    the target refused for missing content, blocked behind that content. *)
Theorem what_is_recorded_as_done_is_done For parse_digest verifies digest_of opts env elapsed still id job
    now draw progress db :
  let '(tr, res) := run_job For parse_digest verifies digest_of opts env elapsed still id job in
  WorkerID opts ≠ "" → int64 id → int64 (Engine.re_BytesMoved res) →
  let '(db', out) := handleJobCustomMethod now draw (String.append (FormatInt id) ":complete") progress
      (inr (completion_request opts job res)) db in
  match jobs db !! id with
  | None => db' = db ∧ ∃ e, out = StoreFailed "could not record the completion" e
  | Some j =>
      let holds := j_state j = JobLeased ∧ j_lease_owner j = Some (WorkerID opts) in
      (¬ holds → db' = db ∧ ∃ answer, out = Answered answer ∧ ca_Applied answer = false) ∧
      (holds → transfers db !! j_transfer j = None →
         db' = db ∧ ∃ e, out = StoreFailed "could not record the completion" e) ∧
      (holds → is_Some (transfers db !! j_transfer j) →
         (∃ answer, out = Answered answer ∧ ca_Applied answer = true) ∧
         match Engine.re_Outcome res with
         | Engine.OutcomeFailed =>
             ∃ j', jobs db' !! id = Some j' ∧ j_state j' ∈ [JobFailed; JobPending; JobBlocked] ∧
               (j_state j' = JobBlocked → Engine.re_ErrorClass res = ClassBlobUnknown ∧ j_kind j = KManifest)
         | _ =>
             jobs db' !! id = Some (set_finished now (completion_for opts id job res) j) ∧
             ∃ source target, For (wj_Source job) = inr source ∧ For (wj_Target job) = inr target ∧
               Engine.claim verifies (engine_job id job source target) tr res
         end)
  end.
Proof.
  pose proof (run_job_claim For parse_digest verifies digest_of opts env elapsed still id job) as Hc.
  destruct (run_job _ _ _ _ _ _ _ _ _ _) as [tr res]. destruct Hc as [Hskip Hev].
  intros Hw Hid Hb. exact (recorded For verifies opts now draw progress db id job tr res Hw Hid Hb Hskip Hev).
Qed.

(** C25. The wire loses nothing.  A job leaves the Coordinator and reaches the
    worker's engine as it was leased: the engine runs a job with its identifier,
    transfer, kind, digest, size, media type, attempt, placement, hint, level and
    tags, from the client of the leased source to the client of the leased
    target, each found by the product, name, registry, repository, type and role
    it was leased with.  And a result leaves the worker and reaches the store's
    completion as the engine gave it - outcome, bytes, skip reason, class, message
    and whether it placed the blob; its duration travels in whole milliseconds
    and is not part of what the store records. *)
Theorem the_wire_loses_nothing For parse_digest verifies digest_of env elapsed
    opts a source target now draw progress db res :
  let j := as_Job a in
  let wire := leasedJobDTO a in
  let endpoint e := mkJobEndpoint (EProduct e) (EName e) (ERegistry e) (ERepository e) (ERegistryType e) (ERole e) in
  WorkerID opts ≠ "" → int64 (ID j) → int64 (SizeBytes j) → int64 (Engine.re_BytesMoved res) →
  ParseInt (wj_JobID wire) = Some (ID j) ∧
  (For (endpoint (as_Source a)) = inr source → For (endpoint (as_Target a)) = inr target →
   run_job For parse_digest verifies digest_of opts env elapsed false (ID j) wire =
   Engine.run_prog env
     (Engine.Run parse_digest verifies digest_of elapsed
        (Engine.mkJob (ID j) (TransferID j) (kind_text (JKind j)) (Digest j) (SizeBytes j) (MediaType j) (Attempt j)
           source target (as_KnownPlacement a) (as_MountFrom a) (as_RepairLevel a) (as_Tags a))) []) ∧
  cq_DurationMs (completion_request opts wire res) = milliseconds (Engine.re_Duration res) ∧
  handleJobCustomMethod now draw (String.append (wj_JobID wire) ":complete") progress
    (inr (completion_request opts wire res)) db =
  match Complete now (draw (ID j))
          (mkCompletion (ID j) (WorkerID opts) (outcome_of (Engine.re_Outcome res)) (Engine.re_BytesMoved res)
             (Engine.re_SkipReason res) (Engine.re_ErrorClass res)
             (match Engine.re_Err res with Some err => ft_Message err | None => "" end) (Engine.re_Placed res)
             (Attempt j) 0) db with
  | Err e => (db, StoreFailed "could not record the completion" e)
  | Ok (db, r) => (db, Answered (mkCompleteResponse (Applied r) (RTransferState r) (WaveAdvanced r) (NewWave r)))
  end.
Proof.
  intros j wire endpoint Hw Hid Hsz Hb. split; [by apply ParseInt_FormatInt|]. split; [|split; [done|]].
  - intros Hs Ht. unfold run_job, endpoints. cbn [wj_Source wj_Target wire leasedJobDTO].
    unfold endpointDTO. fold (endpoint (as_Source a)) (endpoint (as_Target a)). rewrite Hs, Ht.
    unfold engine_job. simpl. rewrite ParseInt_FormatInt by done. simpl.
    by destruct (Engine.run_prog _ _ _).
  - by apply (report_served opts now draw progress db (ID j) wire res).
Qed.

(** Only a job that stands still is abandoned.  A watchdog whose timeout is
    positive has fired exactly when, at some moment its timer was looked at, the
    job had not moved for the whole timeout; however long a job runs, moving, it
    is left alone, and a watchdog without a timeout never fires. *)
Theorem only_a_still_job_is_abandoned start timeout ks :
  fired (watched start timeout ks) = true ↔
  0 < timeout ∧ ∃ pre t post, ks = pre ++ Looked t :: post ∧ last_move start pre + timeout ≤ t.
Proof.
  destruct (Z.lt_ge_cases 0 timeout) as [H|H].
  - rewrite watched_fired by done. tauto.
  - rewrite unwatched by done. split; [done|]. intros [? _]. lia.
Qed.

(** A worker calls itself registered only when it was accepted lately: its
    last call for work was answered, and no longer ago than the staleness
    bound. *)
Theorem registered_means_lately_accepted opts now hs l t :
  happens opts (started now) hs = Some l →
  (Registered t (lp_pulse l)).1.1 = true →
  ∃ pre asked_at at_ res post, hs = pre ++ PassAnswered asked_at at_ (inr res) :: post ∧
    Forall (λ h, match h with PassAnswered _ _ _ => False | _ => True end) post ∧ t - at_ ≤ RegistrationStale.
Proof.
  intros Hh (_ & Hok & Ht)%Registered_spec.
  destruct (happens_last_answer _ _ _ _ Hh Hok) as (pre & asked_at & res & post & Hhs & Hpost).
  exists pre, asked_at, (leaseAt (lp_pulse l)), res, post. split; [done|]. split; [|done].
  eapply Forall_impl; [exact Hpost|]. by intros [] Hx.
Qed.

(* -------------------------------------------------------------------- *)
(** ** Instances *)

Definition example_worker : Options := mkOptions "w" "v1" 2 0 0 0.

Definition wire_example (id : string) : WireJob :=
  mkWireJob id "t" "blob" "sha256:layer" "5" "layer" (mkJobEndpoint "cfx" "src" "vendor.example" "orbs/cfx" "generic" "source")
    (mkJobEndpoint "cfx" "lab" "registry.lab" "vendor/orbs/cfx" "artifactory" "target") false 0 "" [] "vendor/orbs/cfx" 1 0.

Definition answered (ids : list string) : happening :=
  PassAnswered 100 101 (inr (mkWireLeaseResponse (wire_example <$> ids) 120 1)).

(** Two jobs are taken, one moves, one is done and the loop is woken. *)
Definition a_run : list happening :=
  [answered ["1"; "2"]; Dispatched 102 false; Dispatched 103 false; PassEnded 104;
   Progressed (105 + Second) 3 0; Stalled (104 + 15 * Minute) 1; Finished 1; Released 1; Woken].

Definition options : Options := worker_defaults example_worker.

Lemma a_run_happens : ∃ l, happens options (started 1) a_run = Some l ∧ slots l = 1 ∧
  (rn_Cancelled <$> goroutines l !! 0%nat) = Some false ∧ heldIDs l = ["1"] ∧ wake l = false.
Proof.
  destruct (happens options (started 1) a_run) as [l|] eqn:E; [|by vm_compute in E].
  exists l. split; [done|]. vm_compute in E. injection E as <-. split_and!; vm_compute; reflexivity.
Qed.

(** Freshness, decided. *)
Definition fresh_jobb (l : Loop) (h : happening) : bool :=
  match h, lp_phase l with
  | Dispatched _ _, Dispatching _ (job :: _) =>
      match ParseInt (wj_JobID job) with Some id => bool_decide (active l !! id = None) | None => true end
  | _, _ => true
  end.

Fixpoint fresh_jobsb (l : Loop) (hs : list happening) : bool :=
  match hs with
  | [] => true
  | h :: hs => fresh_jobb l h && match happen options l h with Some l => fresh_jobsb l hs | None => true end
  end.

Lemma fresh_jobsb_sound l hs : fresh_jobsb l hs = true → fresh_jobs options l hs.
Proof.
  revert l. induction hs as [|h hs IH]; intros l; [done|]. simpl. intros [Hh Hhs]%andb_true_iff. split.
  - destruct h; try done. simpl in *. destruct (lp_phase l) as [|res [|job rest]]; [done..|].
    intros id Hid. rewrite Hid in Hh. by apply bool_decide_eq_true in Hh.
  - intros l' Hl'. rewrite Hl' in Hhs. by apply IH.
Qed.

Lemma a_run_is_fresh : fresh_jobs options (started 1) a_run.
Proof. apply fresh_jobsb_sound. vm_compute. reflexivity. Qed.

Lemma a_worker_keeps_to_its_slots_witness : ∃ l,
  happens options (started 1) a_run = Some l ∧ slots l ≤ 2 ∧
  ∀ t req, (begin_pass options t None l).2 = inr req → wl_ActiveJobs req = Z.of_nat (size (goroutines l)).
Proof.
  destruct (happens options (started 1) a_run) as [l|] eqn:E; [|exfalso; revert E; vm_compute; discriminate].
  exists l. split; [reflexivity|].
  destruct (a_worker_keeps_to_its_slots example_worker 1 a_run l E) as (Hs & _ & Hf).
  split; [exact Hs|]. intros t req Hreq. exact (proj1 (proj2 (Hf a_run_is_fresh) t req Hreq)).
Defined.

(** Two jobs leased long ago by this worker, one of a transfer since stopped. *)
Definition stopped_db : DB := running_db TransferCancelling.

Lemma a_worker_stops_exactly_what_it_lost_witness : ∃ l res r,
  happens options (started 1) (take 4 a_run) = Some l ∧ goroutines l !! 0%nat = Some r ∧
  ¬ wanted stopped_db "w" 1 ∧
  goroutines (abandonLost (heldIDs l) res l) !! 0%nat = Some (cancel r).
Proof.
  destruct (happens options (started 1) (take 4 a_run)) as [l|] eqn:E; [|exfalso; revert E; vm_compute; discriminate].
  destruct (a_worker_stops_exactly_what_it_lost example_worker 1 (take 4 a_run) l 120 200 stopped_db
    ltac:(discriminate) E) as (db' & res & _ & Hg).
  assert (rn_ID <$> goroutines l !! 0%nat = Some 1 ∧ active l !! 1 = Some 0%nat) as [H0 Ha].
  { assert ((λ l, (rn_ID <$> goroutines l !! 0%nat, active l !! 1)) <$> happens options (started 1) (take 4 a_run) =
      Some (Some 1, Some 0%nat)) as Hc by (vm_compute; reflexivity).
    rewrite E in Hc. by injection Hc. }
  destruct (goroutines l !! 0%nat) as [r|] eqn:Hr; [|discriminate H0]. injection H0 as Hid.
  assert (¬ wanted stopped_db "w" 1) as Hnw.
  { intros (j & Hj & _ & _ & Hs). assert (j_transfer j = "t") as Ht.
    { assert (j_transfer <$> jobs stopped_db !! 1 = Some "t") as Hc by (vm_compute; reflexivity).
      rewrite Hj in Hc. by injection Hc. }
    rewrite Ht in Hs. revert Hs. vm_compute. discriminate. }
  exists l, res, r. split; [reflexivity|]. split; [exact Hr|]. split; [exact Hnw|].
  apply (Hg 0%nat r Hr). rewrite Hid. split; [exact Ha|exact Hnw].
Defined.

(** Clients that answer for every endpoint, and registries as in Engine.v. *)
Definition some_client (e : JobEndpoint) : Fault + Engine.place := inr (Engine.mkPlace (je_Registry e) (je_Repository e)).

Definition shipped : list Engine.event * Engine.Result :=
  run_job some_client (λ _, None) (λ _ body, String.eqb body "bytes") (λ _, "sha256:layer") options
    (Engine.toy_target (Engine.mkPushing [("bytes", Some (sentinel EOF))] [5] None)) 7000000 false 1 (wire_example "1").

(** The blob's row, moved and recorded. *)
Lemma what_is_recorded_as_done_is_done_witness :
  ∃ db' answer j', handleJobCustomMethod 100 (λ _, 0) (String.append (FormatInt 1) ":complete") (inl "no body")
      (inr (completion_request options (wire_example "1") shipped.2)) (running_db TransferRunning) =
      (db', Answered answer) ∧
    ca_Applied answer = true ∧ jobs db' !! 1 = Some j' ∧ j_state j' = JobSucceeded ∧ j_bytes j' = 5.
Proof.
  destruct (jobs (running_db TransferRunning) !! 1) as [j|] eqn:Hj; [|exfalso; revert Hj; vm_compute; discriminate].
  assert ((λ j, (j_state j, j_lease_owner j, j_transfer j)) <$> jobs (running_db TransferRunning) !! 1 =
    Some (JobLeased, Some "w", "t")) as Hrow by (vm_compute; reflexivity).
  rewrite Hj in Hrow. injection Hrow as Hs Ho Ht.
  assert (is_Some (transfers (running_db TransferRunning) !! j_transfer j)) as Hr
    by (rewrite Ht; vm_compute; by eexists).
  pose proof (what_is_recorded_as_done_is_done some_client (λ _, None) (λ _ body, String.eqb body "bytes")
    (λ _, "sha256:layer") options (Engine.toy_target (Engine.mkPushing [("bytes", Some (sentinel EOF))] [5] None))
    7000000 false 1 (wire_example "1") 100 (λ _, 0) (inl "no body") (running_db TransferRunning)) as Hmain.
  unfold shipped. destruct (run_job _ _ _ _ _ _ _ _ _ _) as [tr res] eqn:Hrun. cbv beta iota zeta in Hmain.
  assert (Engine.re_Outcome res = Engine.OutcomeSucceeded ∧ Engine.re_BytesMoved res = 5) as [Hout Hbytes].
  { change res with (tr, res).2. rewrite <-Hrun. vm_compute. split; reflexivity. }
  specialize (Hmain ltac:(discriminate) ltac:(split; reflexivity || discriminate)
    ltac:(rewrite Hbytes; split; [discriminate|reflexivity])).
  destruct (handleJobCustomMethod _ _ _ _ _ _) as [db' out]. rewrite Hj in Hmain.
  destruct Hmain as (_ & _ & Hyes). destruct (Hyes (conj Hs Ho) Hr) as [(answer & -> & Happ) Hdone].
  rewrite Hout in Hdone. destruct Hdone as [Hj' _].
  exists db', answer. eexists. split; [reflexivity|]. split; [exact Happ|]. split; [exact Hj'|].
  unfold set_finished, completion_for. cbn. rewrite Hout. split; [reflexivity|exact Hbytes].
Defined.

Lemma the_wire_loses_nothing_witness :
  let a := mkAssignment (mkLeasedJob 7 "t" KBlob "sha256:aa" 5 "layer" None 1 2 1 0 50 0 0 [] "lab/x")
             (mkEndpoint 1 "cfx" "src" "vendor.example" "orbs/cfx" "generic" "source")
             (mkEndpoint 2 "cfx" "lab" "registry.lab" "vendor/orbs" "artifactory" "target") false 0 "" [] in
  let place_of e := inr (Engine.mkPlace (je_Registry e) (je_Repository e)) in
  let run src dst :=
    run_job place_of (λ _, None) (λ _ body, String.eqb body "bytes") (λ _, "sha256:aa") options
      (Engine.toy_target (Engine.mkPushing [("bytes", Some (sentinel EOF))] [5] None)) 7 false 7 (leasedJobDTO a) =
    Engine.run_prog (Engine.toy_target (Engine.mkPushing [("bytes", Some (sentinel EOF))] [5] None))
      (Engine.Run (λ _, None) (λ _ body, String.eqb body "bytes") (λ _, "sha256:aa") 7
         (Engine.mkJob 7 "t" "blob" "sha256:aa" 5 "layer" 1 src dst false "" 0 [])) [] in
  ParseInt (wj_JobID (leasedJobDTO a)) = Some 7 ∧
  run (Engine.mkPlace "vendor.example" "orbs/cfx") (Engine.mkPlace "registry.lab" "vendor/orbs").
Proof.
  intros a place_of run.
  destruct (the_wire_loses_nothing place_of (λ _, None) (λ _ body, String.eqb body "bytes") (λ _, "sha256:aa")
    (Engine.toy_target (Engine.mkPushing [("bytes", Some (sentinel EOF))] [5] None)) 7 options a
    (Engine.mkPlace "vendor.example" "orbs/cfx") (Engine.mkPlace "registry.lab" "vendor/orbs") 0 (λ _, 0)
    (inl "") empty_db (Engine.skipped "mounted" true)) as (Hid & Hjob & _);
    [discriminate|split; [discriminate|reflexivity]..|].
  split; [exact Hid|]. apply Hjob; reflexivity.
Defined.

Lemma registered_means_lately_accepted_witness : ∃ l,
  happens options (started 1) a_run = Some l ∧ (Registered (30 * Second) (lp_pulse l)).1.1 = true ∧
  ∃ at_ res, PassAnswered 100 at_ (inr res) ∈ a_run ∧ 30 * Second - at_ ≤ RegistrationStale.
Proof.
  destruct (happens options (started 1) a_run) as [l|] eqn:E; [|exfalso; revert E; vm_compute; discriminate].
  exists l. split; [reflexivity|].
  assert ((Registered (30 * Second) (lp_pulse l)).1.1 = true) as Hreg.
  { assert ((λ l, (Registered (30 * Second) (lp_pulse l)).1.1) <$> happens options (started 1) a_run = Some true) as Hc
      by (vm_compute; reflexivity).
    rewrite E in Hc. by injection Hc. }
  split; [exact Hreg|].
  destruct (registered_means_lately_accepted options 1 a_run l (30 * Second) E Hreg) as (pre & t & at_ & res & post & Hrun & _ & Ht).
  exists at_, res. split; [|exact Ht].
  assert (PassAnswered t at_ (inr res) ∈ a_run) as Hin by (rewrite Hrun; apply elem_of_app; right; left).
  unfold a_run, answered in Hin. rewrite !elem_of_cons in Hin.
  destruct Hin as [Heq|Hin]; [injection Heq as -> -> ->; left|].
  exfalso. repeat (destruct Hin as [Hin|Hin]; [discriminate Hin|]). by apply elem_of_nil in Hin.
Defined.

(** A job handed out again while it still runs here: when the first run ends the
    second is no longer tracked, so its lease is not renewed, it is not stopped
    when it is lost, and the loop asks for a job it has no slot for. *)
Example a_second_run_is_forgotten :
  (λ l, (heldIDs l, slots l, (begin_pass options 0 None l).2)) <$>
    happens options (started 1) [answered ["1"; "1"]; Dispatched 102 false; Dispatched 103 false; PassEnded 104;
                                 Finished 0; Released 0] =
  Some ([], 1, inr (mkWireLeaseRequest "w" 2 0 "v1")).
Proof. vm_compute. reflexivity. Qed.

(** A target whose calls end because the worker is going away. *)
Definition going_away (tr : list Engine.event) (c : Engine.call) : Engine.answer c :=
  match c with
  | Engine.stat_blob _ => inl (mkFault "context canceled" [Canceled])
  | c => Engine.toy_target (Engine.mkPushing [] [] None) tr c
  end.

Definition interrupted : Engine.Result :=
  (run_job some_client (λ _, None) (λ _ _, true) (λ _, "") options going_away 0 false 1 (wire_example "1")).2.

(** A job ended by a shutdown is reported, as a failure. *)
Example a_shutdown_is_reported :
  let req := completion_request options (wire_example "1") interrupted in
  (cq_Outcome req, cq_ErrorClass req) = ("FAILED", "cancelled").
Proof. vm_compute. reflexivity. Qed.

Definition row_after (st : TransferState) : option (JobState * TransferState) :=
  let db := (handleJobCustomMethod 100 (λ _, 0) "1:complete" (inl "no body")
               (inr (completion_request options (wire_example "1") interrupted)) (running_db st)).1 in
  j ← jobs db !! 1; r ← transfers db !! "t"; Some (j_state j, t_state r).

(** A job abandoned because its transfer was stopped is reported as a failure
    worth another attempt, and is left waiting under a cancelled transfer. *)
Example a_stopped_job_is_left_waiting : row_after TransferCancelling = Some (JobPending, TransferCancelled).
Proof. vm_compute. reflexivity. Qed.
